(* ===== verification/_CoqProject ===== *)
-Q . S2P
Prelude.v
GoStd.v
State.v
Event.v
Keys.v
Channel.v
Dispatcher.v
GoText.v
GoPath.v
Filter.v
Schema.v
Binlog.v
MysqlSource.v
SourceLog.v
SourceResume.v
KafkaSink.v
Hyperloop.v
Pipeline.v
EndToEnd.v
JsonText.v
Base64.v
Json.v
Store.v
Server.v
Metrics.v
NodeConfig.v
KafkaLoop.v
Delivery.v
ProduceOrder.v
Stale.v
Source.v
SourceTypes.v
Node.v
Process.v
Lifetime.v
Fleet.v
