(* ===== verification/Prelude.v ===== *)
(** * Nomios: a verification development for a MySQL change-data-capture node

    Nomios reads the binlog of a MySQL server, turns row changes into events and
    publishes them to Kafka, at least once and in order per entity.  This library
    models the Go packages under src/pkg/ and cmd/nomios, and proves what makes them
    correct.  It
    is a shallow embedding: data is data, pure code is a function, fallible code
    returns [result], and concurrent code is an executable labelled step whose
    label sequences are the interleavings ([run_labels], [reachable] below).

    ** The program and its model

    A hyperloop is one pipeline.  The source decodes the binlog and sends batches
    of events; the dispatcher hashes each event's key to one of N bounded queues;
    one publisher per queue collects micro-batches and submits them to the sink;
    the sink's callbacks report the positions of durable batches to the checkpoint
    tracker; the committer saves the tracker's checkpoint to the state store.  The
    control plane starts, restarts and stops hyperloops over HTTP.

    - State.v: pkg/state/position.go and tracker.go.  [Tracker] and its methods;
      each holds the mutex for its whole body, so a concurrent history is a list of
      [tracker_op].
    - Event.v, Keys.v: pkg/event/event.go, and the key functions of
      pkg/dispatch/dispatch.go ([DefaultKey], [KeyFromColumns], [appendEscaped]).
      A Go [any] is the inductive [value].
    - Channel.v, Dispatcher.v: buffered channels, and [Dispatcher] of dispatch.go:
      [New], [Pick], and the goroutine of [Run] as [dstep], whose program counter
      [dpc] names the places of the code where it can be.
    - GoStd.v, GoText.v, GoPath.v, Base64.v: what the code uses of the standard
      library: byte strings, strconv, strings, encoding/hex, path.Match with its
      UTF-8 decoding and its errors, encoding/base64.
    - Filter.v, Schema.v, Binlog.v, MysqlSource.v: pkg/source/mysql: the table
      filter, the schema cache with its reconnect, row images and headers, and the
      source itself: [resolveStart], [handleEvent], [emitRows], [commit], [run].
      The stream is the list of what [GetEvent] returns.
    - SourceLog.v, SourceResume.v: the abstract specification of the source, the
      row log of a stream, and what resuming from a position replays.
    - KafkaSink.v: pkg/publish/kafka/sink.go.  [PublishBatch] and the promises of
      its records, one shared-memory instruction a step.
    - Hyperloop.v, Pipeline.v, EndToEnd.v: pkg/hyperloop/hyperloop.go.  [hstep] is
      the interleaving of the source, the dispatcher ([dstep], not a copy), the
      publishers, the sink's callbacks, the committer and the main goroutine with
      its timeouts; Pipeline.v holds its invariants and EndToEnd.v its theorems.
    - JsonText.v, Json.v: a reference JSON reader, and pkg/serialize/json.go:
      [AppendEvent] and all it calls, the hand-written insertion sort included.
    - Store.v: pkg/state/store.go over a file system whose rename is atomic, and
      pkg/state/mysqlstore.go.
    - Server.v, Metrics.v, NodeConfig.v: pkg/server/server.go (the manager, the
      restart goroutine, [Stop], the handlers), pkg/metrics/metrics.go (the
      collectors, [Observe]) and pkg/config/config.go ([Load], [Build]).

    The compositions put these together, each as one transition system that uses
    the steps of its parts:

    - KafkaLoop.v, Delivery.v, ProduceOrder.v: the hyperloop over the Kafka sink
      ([kstep]): what Hyperloop.v leaves to any sink is done here by the calls and
      promises of KafkaSink.v, and the [done] callback runs between a promise's
      instructions.  [abs] maps it back to Hyperloop.v, a forward simulation.
    - Source.v, SourceTypes.v: pkg/source/source.go, the interface and the contract
      of its comment as classes; the MySQL source is an instance of both.
    - Node.v: a source that keeps the contract in front of [kstep] ([node_step]).
    - Lifetime.v: run after run of a node, each from what the store holds.
    - Fleet.v: the manager of Server.v and the pipelines of Hyperloop.v together
      ([Fleet.fstep]).
    - Process.v: [main] of cmd/nomios/main.go over the manager, with [StopAll] and
      [PollMetrics] of server.go ([pstep]).

    Interfaces are classes: [GoFmt] (number and time texts), [SchemaServer],
    [StateServer] and [StateTable] (connections), [GTIDSets] and [GTIDLaws] (GTID
    set algebra), [Serializer] (the sink's record payloads).  Their laws are
    documented behaviour of libraries and servers; each has a concrete instance
    ([sampleFmt], [jsonFmt], [sampleServer], [sampleStateTable], [sampleGTIDs],
    [sampleSerializer]) at which the witnesses evaluate.

    ** What the theorems show

    - Delivery (Node.v, Lifetime.v, Delivery.v, ProduceOrder.v): whatever
      interleaves, fails or is killed, a saved position is one whose events Kafka
      acknowledged, each as a record on its table's topic, under its key, whose
      value parses to its envelope; over any number of runs, every captured row of a
      transaction the stored position is past was acknowledged in some run; a clean
      stop leaves nothing behind; records of one key are produced in source order;
      the pipeline over the Kafka sink refines the pipeline over any sink.
    - Contract and types (SourceTypes.v, Node.v): the MySQL source keeps the source
      contract, its events are well typed, none is refused by the serializer, and a
      source that keeps the contract is never refused by the pipeline.
    - Life cycle (Fleet.v, Process.v): the manager's view of a pipeline is the
      pipeline's; runs follow one another from what the store holds; a stop that
      returned nil has drained; main serves exactly what its file declares or exits
      with the first failure, in a bounded number of statements; [StopAll] leaves
      nothing that ran before it.
    - End to end over any sink (EndToEnd.v): in every interleaving, with any failures, timeouts
      and cancellations, no saved checkpoint runs ahead of what the sink
      acknowledged; a restart from a saved position loses nothing; each publisher
      submits a prefix of its queue in source order; a clean stop persists the last
      position; stopping is bounded; batches are bounded.
    - Tracker (State.v): the checkpoint is the contiguous-prefix watermark of the
      positions reported, equal to an executable specification and independent of
      order and batching; the loop of [advance] terminates.
    - Dispatcher (Dispatcher.v): a clean run loses, duplicates and reorders
      nothing; order per queue holds at every moment; queues and staging slices are
      bounded; once the input is closed it can always finish.
    - Source (SourceLog.v, SourceResume.v): the events sent are the filtered row
      log, numbered from 1 without gaps, with distinct identifiers; resuming
      replays the transaction of an event and skips nothing after it.
    - Sink (KafkaSink.v): [done] is called once per acknowledged batch and for no
      other, an answered batch completes, in-flight batches are bounded, a failure
      is sticky, and a successful [Flush] covers everything submitted.
    - Keys, filter, schema, rows (Keys.v, Filter.v, Schema.v, Binlog.v): composite
      keys are collision free, system tables are never captured, the schema cache is
      coherent, a row image maps each column to its own value.
    - Serializer (Json.v): the payload reads back as exactly the event's document,
      it fails exactly on values without a JSON form, and its bytes do not depend on
      map iteration.
    - Stores (Store.v): a save is atomic under failures and crashes; the MySQL
      store is correct under lost answers and retries.
    - Control plane (Server.v, Metrics.v, NodeConfig.v): one goroutine per hyperloop
      at a time, a bounded restart policy, a stop that takes effect and waits; a
      counter that follows its snapshots, and calls no collector panics on; no
      undefined variable expands silently; what is built can run.

    Some theorems state what the code does where that is surprising: a SAVEPOINT
    commits early and a position saved with an empty executed set resumes at the end
    (SourceResume.v), a dot in a schema name makes two tables share a cache entry
    (Schema.v), a slash defeats the filter's exclusions (Filter.v), an empty batch
    would leak a slot of the sink (KafkaSink.v), a cancelled dispatcher keeps its
    staged events (Dispatcher.v), stopping an unknown hyperloop answers 500
    (Server.v), a run that ends before its first save is not resumed from where it
    began (Lifetime.v), and a start request during the shutdown leaves a pipeline
    running under the end of the process (Process.v).

    ** Conventions

    Integers are [Z] with the wrap-around written where the code computes ([u8],
    [u32], [u64], [i64]).  Map iteration orders are arguments or any permutation.
    Functions whose recursion is not structural take fuel: [advance] one turn per
    pending entry and one more ([advance_terminates] in State.v), the JSON reader
    twice the length of the text ([parse_prefix_spec]), and [TrimSpace], the topic
    template, [Match] and [Expand] the length of their text, of which every turn
    consumes a byte.  Timers are labels that may fire at any moment.  Observations,
    such as the list of events sent, are fields of the state the code does not have;
    they record what happened and do not decide what the code does.

    ** What is not modelled

    The flag parser, response bodies and net/http, the pooling of result buffers,
    [Close] methods, logging, and [eventSizeHint], which only sizes a buffer.  A run
    starts with a sink that has no call outstanding ([kinit]): promises of an
    earlier run that failed, which may still be answered after [Reset] and then only
    set the sink's error, give back slots and count published events, are not in
    the model of the next run.  Of the client, KafkaLoop.v uses that it reports a
    cancellation only of a cancelled context ([client_may]); of the MySQL server,
    Lifetime.v uses that it sends the transactions a replica has not executed, in
    the order of its log ([serves]).  The Kafka client, the binlog syncer, the MySQL client, the YAML
    decoder and Prometheus are parameters or the environment of a step relation.
    A power failure that loses unsynced file data is outside the model of the file
    store. *)

From stdpp Require Export base tactics option list list_numbers numbers gmap strings pretty.
From stdpp Require Export relations sorting.
From Stdlib Require Export Ascii.

(** Notations of the development live in a scope of their own. *)
Declare Scope nomios_scope.
Delimit Scope nomios_scope with nomios.
Open Scope nomios_scope.

Create HintDb nomios.
Create Rewrite HintDb nomios.

(** ** Go integers

    An unsigned w-bit integer is a [Z] in [0, 2^w); the wrap-around is written
    where the code computes. *)

Definition u8 (z : Z) : Z := (z mod 2 ^ 8)%Z.
Definition u32 (z : Z) : Z := (z mod 2 ^ 32)%Z.
Definition u64 (z : Z) : Z := (z mod 2 ^ 64)%Z.

(** A signed 64-bit integer is a [Z] in [-2^63, 2^63). *)
Definition i64 (z : Z) : Z := ((z + 2 ^ 63) mod 2 ^ 64 - 2 ^ 63)%Z.

Lemma u32_bound z : (0 ≤ u32 z < 2 ^ 32)%Z.
Proof. unfold u32. apply Z.mod_pos_bound. lia. Qed.

Lemma u32_small z : (0 ≤ z < 2 ^ 32)%Z → u32 z = z.
Proof. apply Z.mod_small. Qed.

Lemma u64_small z : (0 ≤ z < 2 ^ 64)%Z → u64 z = z.
Proof. apply Z.mod_small. Qed.

Lemma u64_bound z : (0 ≤ u64 z < 2 ^ 64)%Z.
Proof. unfold u64. apply Z.mod_pos_bound. lia. Qed.

Lemma i64_small z : (- 2 ^ 63 ≤ z < 2 ^ 63)%Z → i64 z = z.
Proof. unfold i64. intros. rewrite Z.mod_small; lia. Qed.

#[export] Hint Resolve u32_bound u64_bound : nomios.

(** ** Go errors

    The code compares errors with [errors.Is] against the two context errors and
    otherwise only carries their text, so an error is one of these or a text,
    possibly wrapped with [%w] by [fmt.Errorf]. *)
Inductive goerr :=
  | ECanceled            (* context.Canceled *)
  | EDeadline            (* context.DeadlineExceeded *)
  | EText (msg : string) (* errors.New, fmt.Errorf without %w, foreign errors *)
  | EWrap (prefix : string) (e : goerr). (* fmt.Errorf("prefix: %w", e) *)

#[export] Instance goerr_eq_dec : EqDecision goerr.
Proof. solve_decision. Defined.

(** [errors.Is]: the error itself or one it wraps. *)
Fixpoint errors_Is (e target : goerr) : bool :=
  bool_decide (e = target) ||
  match e with EWrap _ e' => errors_Is e' target | _ => false end.

(** ** Fallible operations *)
Inductive result (A : Type) : Type :=
  | Ok (a : A)
  | Err (e : goerr).
Arguments Ok {A} a.
Arguments Err {A} e.

#[export] Instance result_eq_dec `{EqDecision A} : EqDecision (result A).
Proof. solve_decision. Defined.

#[export] Instance result_ret : MRet result := @Ok.
#[export] Instance result_bind : MBind result := λ A B f r,
  match r with Ok a => f a | Err e => Err e end.
#[export] Instance result_fmap : FMap result := λ A B f r,
  match r with Ok a => Ok (f a) | Err e => Err e end.

Definition is_Ok {A} (r : result A) : Prop := ∃ a, r = Ok a.

(** [x ←ok m; k]: the early return [if err != nil { return err }]. *)
Notation "x '←ok' m ; k" := (match m with Ok x => k | Err e => Err e end)
  (at level 20, m at level 100, k at level 200, only parsing) : nomios_scope.

(** ** Tactics *)

(** Splits every [match], [if] and [decide] in sight, then simplifies. *)
Ltac split_cases := repeat (case_match || case_decide || case_bool_decide); simplify_eq/=.

(** Closes a decidable closed proposition by evaluating its decision procedure. *)
Ltac decide_closed := apply (bool_decide_unpack _); vm_compute; exact I.

(** ** Filters *)

Lemma filter_none {A} (P : A → Prop) `{∀ x, Decision (P x)} l :
  Forall (λ x, ¬ P x) l → filter P l = [].
Proof. induction 1; [done|]. by rewrite filter_cons_False. Qed.

Lemma filter_all {A} (P : A → Prop) `{∀ x, Decision (P x)} l :
  Forall P l → filter P l = l.
Proof. induction 1 as [|x l Hx _ IH]; [done|]. rewrite filter_cons_True by done. by rewrite IH. Qed.

Lemma prefix_sublist {A} (l1 l2 : list A) : l1 `prefix_of` l2 → l1 `sublist_of` l2.
Proof. intros [k ->]. by apply sublist_inserts_r. Qed.

Lemma elem_of_sublist {A} (x : A) (l1 l2 : list A) : x ∈ l1 → l1 `sublist_of` l2 → x ∈ l2.
Proof. intros Hx Hs. revert Hx. induction Hs; rewrite ?elem_of_cons; naive_solver. Qed.

Lemma NoDup_fmap_inj {A B} (f : A → B) (l : list A) x y :
  NoDup (f <$> l) → x ∈ l → y ∈ l → f x = f y → x = y.
Proof.
  intros Hnd [i Hi]%list_elem_of_lookup [j Hj]%list_elem_of_lookup Heq.
  assert (i = j) as ->; [|congruence].
  eapply NoDup_lookup; [exact Hnd|..]; rewrite list_lookup_fmap; [by rewrite Hi|]. rewrite Hj. simpl. by rewrite Heq.
Qed.

Lemma filter_fmap {A B} (f : A → B) (P : B → Prop) `{!∀ x, Decision (P x)} (l : list A) :
  filter P (f <$> l) = f <$> filter (λ x, P (f x)) l.
Proof. induction l as [|x l IH]; [done|]. rewrite fmap_cons, !filter_cons, IH. by case_decide. Qed.

Lemma filter_ext_elem {A} (P Q : A → Prop) `{∀ x, Decision (P x)} `{∀ x, Decision (Q x)} (l : list A) :
  (∀ x, x ∈ l → P x ↔ Q x) → filter P l = filter Q l.
Proof.
  induction l as [|x l IH]; intros HPQ; [done|]. rewrite !filter_cons.
  rewrite (IH (λ y Hy, HPQ y (list_elem_of_further _ _ _ Hy))).
  pose proof (HPQ x (list_elem_of_here _ _)) as Hx. do 2 case_decide; tauto.
Qed.

(** ** Labelled transition systems

    A concurrent component is an executable labelled step: [step l s = Some s']
    when the action [l] is enabled in [s].  Interleavings are label sequences. *)
Section lts.
Context {L S : Type} (step : L → S → option S).

Fixpoint run_labels (ls : list L) (s : S) : option S :=
  match ls with
  | [] => Some s
  | l :: ls => step l s ≫= run_labels ls
  end.

(** States reachable from [s0] by any interleaving of enabled actions. *)
Inductive reachable (s0 : S) : S → Prop :=
  | reachable_init : reachable s0 s0
  | reachable_step l s s' : reachable s0 s → step l s = Some s' → reachable s0 s'.

Lemma run_labels_app ls1 ls2 s :
  run_labels (ls1 ++ ls2) s = run_labels ls1 s ≫= run_labels ls2.
Proof.
  revert s. induction ls1 as [|l ls1 IH]; intros s; simpl; [done|].
  destruct (step l s); simpl; auto.
Qed.

Lemma run_labels_reachable ls s0 s : run_labels ls s0 = Some s → reachable s0 s.
Proof.
  revert s. induction ls as [|l ls IH] using rev_ind; intros s.
  - intros [= ->]. constructor.
  - rewrite run_labels_app. destruct (run_labels ls s0) as [s1|] eqn:Hs1; simpl; [|done].
    destruct (step l s1) as [s2|] eqn:Hstep; simpl; [|done]. intros [= ->].
    econstructor; eauto.
Qed.

Lemma reachable_run_labels s0 s : reachable s0 s → ∃ ls, run_labels ls s0 = Some s.
Proof.
  induction 1 as [|l s s' _ [ls Hls] Hstep]; [by exists []|].
  exists (ls ++ [l]). rewrite run_labels_app, Hls. simpl. by rewrite Hstep.
Qed.

(** The invariant rule: what holds initially and is kept by every action holds
    of every reachable state. *)
Lemma reachable_invariant (P : S → Prop) s0 :
  P s0 → (∀ l s s', P s → step l s = Some s' → P s') →
  ∀ s, reachable s0 s → P s.
Proof. intros H0 Hstep s. induction 1; eauto. Qed.

Lemma run_labels_invariant (P : S → Prop) ls s s' :
  (∀ l s s', P s → step l s = Some s' → P s') →
  P s → run_labels ls s = Some s' → P s'.
Proof.
  intros Hstep Hs Hrun. eapply (reachable_invariant P s); eauto using run_labels_reachable.
Qed.
End lts.

(** A detailed system implements an abstract one: a function from states to
    states under which every step, from a state where the invariant [I] holds, is
    one abstract step or none. *)
Section simulation.
Context {L1 S1 L2 S2 : Type} (step1 : L1 → S1 → option S1) (step2 : L2 → S2 → option S2).
Context (view : S1 → S2) (I : S1 → Prop).

Definition simulates : Prop := ∀ l s s', I s → step1 l s = Some s' →
  view s' = view s ∨ ∃ l2, step2 l2 (view s) = Some (view s').

Lemma simulation_reachable s0 :
  simulates → (∀ s, reachable step1 s0 s → I s) →
  ∀ s, reachable step1 s0 s → reachable step2 (view s0) (view s).
Proof.
  intros Hsim HI s Hr. induction Hr as [|l s s' Hr IH Hstep]; [constructor|].
  destruct (Hsim l s s' (HI s Hr) Hstep) as [-> |[l2 Hl2]]; [done|]. by eapply reachable_step.
Qed.
End simulation.
