(* ===== verification/GoStd.v ===== *)
(** * The Go standard library the components use

    Byte strings are [string]; a [[]byte] buffer is one too, and [append(b, x...)]
    is [b +:+ x].  This file holds the fragments of [strconv] and of the string
    operators the source calls, with the facts about them the components share. *)

From S2P Require Export Prelude.

(** ** Bytes *)

(** The numeric value of a byte. *)
Definition byte_val (c : ascii) : Z := Z.of_N (N_of_ascii c).

Lemma byte_val_bound c : (0 ≤ byte_val c < 256)%Z.
Proof. unfold byte_val. pose proof (N_ascii_bounded c). lia. Qed.

Lemma byte_val_inj c d : byte_val c = byte_val d → c = d.
Proof.
  unfold byte_val. intros H%N2Z.inj.
  by rewrite <-(ascii_N_embedding c), H, ascii_N_embedding.
Qed.

(** The one-byte string. *)
Abbreviation str1 c := (String c EmptyString).

(** ** Append *)

Lemma str_app_cons c (s1 s2 : string) : String c s1 +:+ s2 = String c (s1 +:+ s2).
Proof. done. Qed.

Lemma str_app_nil_l (s : string) : "" +:+ s = s.
Proof. done. Qed.

Lemma str_app_nil_r (s : string) : s +:+ "" = s.
Proof. induction s as [|c s IH]; [done|]. by rewrite !str_app_cons, IH. Qed.

Lemma str_app_assoc (s1 s2 s3 : string) : s1 +:+ (s2 +:+ s3) = (s1 +:+ s2) +:+ s3.
Proof. induction s1 as [|c s1 IH]; [done|]. by rewrite !str_app_cons, IH. Qed.

Lemma str_length_app (s1 s2 : string) :
  String.length (s1 +:+ s2) = (String.length s1 + String.length s2)%nat.
Proof. induction s1 as [|c s1 IH]; [done|]. rewrite str_app_cons. simpl. by rewrite IH. Qed.

Lemma str_app_inv_l (s s1 s2 : string) : s +:+ s1 = s +:+ s2 → s1 = s2.
Proof. induction s as [|c s IH]; [done|]. rewrite !str_app_cons. intros [= ?]. auto. Qed.

Lemma str_app_eq_nil (s1 s2 : string) : s1 +:+ s2 = "" → s1 = "" ∧ s2 = "".
Proof. by destruct s1, s2. Qed.

Lemma str_length_0 (s : string) : String.length s = 0%nat → s = "".
Proof. by destruct s. Qed.

#[export] Hint Rewrite str_app_nil_r str_app_nil_l str_app_cons str_app_assoc : nomios.

(** Two splittings of one string at the same place are the same. *)
Lemma str_app_inj (s1 s2 t1 t2 : string) :
  String.length s1 = String.length s2 → s1 +:+ t1 = s2 +:+ t2 → s1 = s2 ∧ t1 = t2.
Proof.
  revert s2. induction s1 as [|c s1 IH]; intros [|d s2]; simpl; intros; simplify_eq/=.
  - by split.
  - by destruct (IH s2) as [-> ->].
Qed.

(** ** Predicates on every byte *)
Fixpoint str_forallb (p : ascii → bool) (s : string) : bool :=
  match s with
  | "" => true
  | String c s => p c && str_forallb p s
  end.

Lemma str_forallb_app p s1 s2 :
  str_forallb p (s1 +:+ s2) = str_forallb p s1 && str_forallb p s2.
Proof. induction s1 as [|c s1 IH]; [done|]. rewrite str_app_cons. simpl. by rewrite IH, andb_assoc. Qed.

Lemma str_forallb_impl (p q : ascii → bool) s :
  (∀ c, p c = true → q c = true) → str_forallb p s = true → str_forallb q s = true.
Proof.
  intros Hpq. induction s as [|c s IH]; [done|]. simpl.
  rewrite !andb_true_iff. naive_solver.
Qed.

(** ** strconv *)

(** [strconv.AppendInt(b, x, 10)] and [strconv.AppendUint(b, x, 10)]. *)
Definition AppendInt (b : string) (x : Z) : string := b +:+ pretty x.
Definition AppendUint (b : string) (x : Z) : string := b +:+ pretty x.

(** [strconv.AppendBool]. *)
Definition bool_text (x : bool) : string := if x then "true" else "false".
Definition AppendBool (b : string) (x : bool) : string := b +:+ bool_text x.

Lemma bool_text_inj x y : bool_text x = bool_text y → x = y.
Proof. by destruct x, y. Qed.

Definition is_digit (c : ascii) : bool :=
  (Z.leb 48 (byte_val c) && Z.leb (byte_val c) 57).
Definition is_num_char (c : ascii) : bool := is_digit c || bool_decide (c = "-"%char).

Lemma pretty_N_char_digit x : is_digit (pretty_N_char x) = true.
Proof. unfold pretty_N_char. by repeat case_match. Qed.

Lemma pretty_N_go_digits x s :
  str_forallb is_digit s = true → str_forallb is_digit (pretty_N_go x s) = true.
Proof.
  revert s. induction (N.lt_wf_0 x) as [x _ IH]; intros s Hs.
  assert (x = 0 ∨ 0 < x)%N as [->|?] by lia; [by rewrite pretty_N_go_0|].
  rewrite pretty_N_go_step by done. apply IH; [by apply N.div_lt|].
  simpl. by rewrite pretty_N_char_digit, Hs.
Qed.

Lemma pretty_N_digits (x : N) : str_forallb is_digit (pretty x) = true.
Proof.
  unfold pretty, pretty_N. case_decide; [done|]. by apply pretty_N_go_digits.
Qed.

(** A decimal rendering holds digits and a sign only. *)
Lemma pretty_Z_num_chars (x : Z) : str_forallb is_num_char (pretty x) = true.
Proof.
  assert (∀ p : positive, str_forallb is_num_char (pretty (N.pos p)) = true) as Hp.
  { intros p. eapply str_forallb_impl, pretty_N_digits.
    intros c Hc. unfold is_num_char. by rewrite Hc. }
  destruct x as [|p|p]; [done|apply Hp|].
  change (str_forallb is_num_char ("-" +:+ pretty (N.pos p)) = true).
  rewrite str_forallb_app, Hp. done.
Qed.

Lemma pretty_N_go_length x s :
  (String.length s ≤ String.length (pretty_N_go x s))%nat.
Proof.
  revert s. induction (N.lt_wf_0 x) as [x _ IH]; intros s.
  assert (x = 0 ∨ 0 < x)%N as [->|?] by lia; [by rewrite pretty_N_go_0|].
  rewrite pretty_N_go_step by done. etrans; [|by apply IH, N.div_lt]. simpl. lia.
Qed.

Lemma pretty_N_nonempty (x : N) : (pretty x : string) ≠ "".
Proof.
  unfold pretty, pretty_N. case_decide as Hx; [done|].
  rewrite pretty_N_go_step by lia. intros H.
  pose proof (pretty_N_go_length (x `div` 10) (str1 (pretty_N_char (x `mod` 10)))) as Hl.
  rewrite H in Hl. simpl in Hl. lia.
Qed.

Lemma pretty_Z_nonempty (x : Z) : (pretty x : string) ≠ "".
Proof. destruct x; [done|apply pretty_N_nonempty|done]. Qed.

(** Induction two characters at a time, for the scanners of escape sequences. *)
Lemma string_ind2 (P : string → Prop) :
  P "" → (∀ c, P (str1 c)) → (∀ c d s, P s → P (String d s) → P (String c (String d s))) →
  ∀ s, P s.
Proof.
  intros H0 H1 H2 s. cut (P s ∧ ∀ c, P (String c s)); [by intros []|].
  induction s as [|c s [IH1 IH2]]; [done|]. split; [done|]. intros d. by apply H2.
Qed.

(** A separator that does not occur in the left part cuts a string one way. *)
Lemma str_split_unique (p : ascii → bool) (c : ascii) s1 s2 t1 t2 :
  p c = false → str_forallb p s1 = true → str_forallb p s2 = true →
  s1 +:+ String c t1 = s2 +:+ String c t2 → s1 = s2 ∧ t1 = t2.
Proof.
  intros Hc. revert s2. induction s1 as [|a s1 IH]; intros [|b s2];
    rewrite ?str_app_nil_l, ?str_app_cons; simpl; rewrite ?andb_true_iff.
  - by intros _ _ [= ->].
  - intros _ [Hb _] [= -> _]. congruence.
  - intros [Ha _] _ [= -> _]. congruence.
  - intros [_ H1] [_ H2] [= -> Heq]. by destruct (IH s2 H1 H2 Heq) as [-> ->].
Qed.
