(* ===== verification/State.v ===== *)
(** * Package state: positions and the checkpoint tracker

    [Position] (pkg/state/position.go) and [Tracker] (pkg/state/tracker.go).
    Every method of the tracker holds its mutex for its whole body, so a
    concurrent execution is a sequence of operations; the theorems quantify over
    all such sequences. *)

From S2P Require Import Prelude GoStd.

(** ** Position *)
Record Position := mkPosition {
  GTIDSet : string;
  File : string;
  Offset : Z; (* uint32 *)
  SeqNo : Z;  (* uint64 *)
}.

#[export] Instance Position_eq_dec : EqDecision Position.
Proof. solve_decision. Defined.

(** Go's zero value [Position{}]. *)
Definition zeroPosition : Position := mkPosition "" "" 0 0.

Definition IsZero (p : Position) : bool :=
  bool_decide (GTIDSet p = "") && bool_decide (File p = "") && bool_decide (Offset p = 0%Z).

(** ** Tracker *)
Record Tracker := mkTracker {
  next : Z; (* uint64: lowest SeqNo not yet part of the contiguous prefix *)
  pending : gmap Z Position;
  ckpt : Position;
  has : bool;
  dirty : bool;
}.

Definition NewTracker : Tracker := mkTracker 1 ∅ zeroPosition false false.

(** One turn of the loop of [advance]; [None] is its [return]. *)
Definition advance_step (t : Tracker) : option Tracker :=
  match pending t !! next t with
  | None => None
  | Some q => Some (mkTracker (u64 (next t + 1)) (delete (next t) (pending t)) q true true)
  end.

Fixpoint advance_loop (fuel : nat) (t : Tracker) : option Tracker :=
  match fuel with
  | O => None
  | S fuel =>
      match advance_step t with
      | None => Some t
      | Some t' => advance_loop fuel t'
      end
  end.

(** Each turn deletes a pending entry, so one turn per entry and the last test
    are enough ([advance_terminates]). *)
Definition advance (t : Tracker) : Tracker :=
  default t (advance_loop (S (size (pending t))) t).

Definition set_pending (t : Tracker) (m : gmap Z Position) : Tracker :=
  mkTracker (next t) m (ckpt t) (has t) (dirty t).

Definition Done (t : Tracker) (p : Position) : Tracker :=
  advance (set_pending t (<[SeqNo p := p]> (pending t))).

Definition DoneBatch (t : Tracker) (ps : list Position) : Tracker :=
  match ps with
  | [] => t
  | _ => advance (set_pending t (foldl (λ m p, <[SeqNo p := p]> m) (pending t) ps))
  end.

Definition Checkpoint (t : Tracker) : Position * bool := (ckpt t, has t).

Definition TakeDirty (t : Tracker) : (Position * bool) * Tracker :=
  if negb (dirty t) then ((zeroPosition, false), t)
  else ((ckpt t, true), mkTracker (next t) (pending t) (ckpt t) (has t) false).

Definition Redirty (t : Tracker) : Tracker :=
  if has t then mkTracker (next t) (pending t) (ckpt t) (has t) true else t.

Definition Outstanding (t : Tracker) : nat := size (pending t).

(** ** Histories of operations *)
Inductive tracker_op :=
  | ODone (p : Position)
  | ODoneBatch (ps : list Position)
  | OTakeDirty
  | ORedirty.

Definition apply_op (t : Tracker) (o : tracker_op) : Tracker :=
  match o with
  | ODone p => Done t p
  | ODoneBatch ps => DoneBatch t ps
  | OTakeDirty => (TakeDirty t).2
  | ORedirty => Redirty t
  end.

Definition op_positions (o : tracker_op) : list Position :=
  match o with ODone p => [p] | ODoneBatch ps => ps | _ => [] end.

(** The positions reported by a history, in the order of the reports. *)
Definition reported (ops : list tracker_op) : list Position := ops ≫= op_positions.

Definition run_ops (ops : list tracker_op) : Tracker := foldl apply_op NewTracker ops.

(** ** Abstract specification

    The committable sequence number of a collection of reports is the greatest
    [n] such that every one of 1..n was reported. *)
Definition seq_reported (R : list Position) (n : Z) : Prop := n ∈ SeqNo <$> R.

Definition contiguous (R : list Position) (n : Z) : Prop :=
  ∀ m, (1 ≤ m ≤ n)%Z → seq_reported R m.

#[export] Instance seq_reported_dec R n : Decision (seq_reported R n).
Proof. unfold seq_reported. apply _. Defined.

(** The executable reference: count up from 1 while the number was reported. *)
Fixpoint spec_watermark (fuel : nat) (n : Z) (R : list Position) : Z :=
  match fuel with
  | O => n
  | S fuel => if decide (seq_reported R (n + 1)) then spec_watermark fuel (n + 1) R else n
  end.

Definition spec_checkpoint (R : list Position) : option Position :=
  list_find (λ p, SeqNo p = spec_watermark (length R) 0 R) R ≫= λ ip, Some ip.2.

(** Sequence numbers that leave room for the uint64 increment of [next]. *)
Definition seq_in_range (p : Position) : Prop := (1 ≤ SeqNo p < 2 ^ 64 - 1)%Z.

#[export] Instance seq_in_range_dec p : Decision (seq_in_range p).
Proof. unfold seq_in_range. apply _. Defined.

(** ** The loop of [advance] *)

Lemma advance_step_size t t' :
  advance_step t = Some t' → size (pending t) = S (size (pending t')).
Proof.
  unfold advance_step. intros. split_cases.
  rewrite map_size_delete_Some by eauto.
  assert (size (pending t) ≠ 0%nat) by (eapply map_size_ne_0_lookup_2; eauto). lia.
Qed.

Lemma advance_loop_total fuel t :
  (size (pending t) < fuel)%nat → ∃ t', advance_loop fuel t = Some t'.
Proof.
  revert t. induction fuel as [|fuel IH]; intros t Hlt; [lia|]. simpl.
  destruct (advance_step t) as [t'|] eqn:Hstep; [|by eexists].
  apply advance_step_size in Hstep. apply IH. lia.
Qed.

Lemma advance_loop_settled fuel t t' :
  advance_loop fuel t = Some t' → advance_step t' = None.
Proof.
  revert t. induction fuel as [|fuel IH]; intros t; simpl; [done|].
  destruct (advance_step t) eqn:Hstep; [apply IH|congruence].
Qed.

Lemma advance_loop_mono fuel fuel' t t' :
  (fuel ≤ fuel')%nat → advance_loop fuel t = Some t' → advance_loop fuel' t = Some t'.
Proof.
  revert fuel' t. induction fuel as [|fuel IH]; intros [|fuel'] t Hle; simpl; try done; [lia|].
  destruct (advance_step t); [|done]. apply IH. lia.
Qed.

Lemma advance_loop_advance t :
  advance_loop (S (size (pending t))) t = Some (advance t).
Proof.
  unfold advance. destruct (advance_loop_total (S (size (pending t))) t) as [t' ->]; [lia|done].
Qed.

(** What [advance_step] keeps, [advance] keeps. *)
Lemma advance_ind (P : Tracker → Prop) t :
  (∀ t1 t2, P t1 → advance_step t1 = Some t2 → P t2) → P t → P (advance t).
Proof.
  intros Hstep. pose proof (advance_loop_advance t) as Hl. revert Hl.
  generalize (advance t) as t'. generalize (S (size (pending t))) as fuel. intros fuel.
  revert t. induction fuel as [|fuel IH]; intros t t'; simpl; [done|].
  destruct (advance_step t) eqn:E; [eauto|congruence].
Qed.

Lemma advance_unfold t :
  advance t = match advance_step t with None => t | Some t' => advance t' end.
Proof.
  destruct (advance_step t) as [t'|] eqn:E.
  - pose proof (advance_loop_advance t) as Ht. simpl in Ht. rewrite E in Ht.
    pose proof (advance_loop_advance t') as Ht'.
    rewrite (advance_step_size _ _ E) in Ht. congruence.
  - pose proof (advance_loop_advance t) as Ht. simpl in Ht. rewrite E in Ht. congruence.
Qed.

Lemma advance_pending_settled t : pending (advance t) !! next (advance t) = None.
Proof.
  pose proof (advance_loop_settled _ _ _ (advance_loop_advance t)) as H.
  unfold advance_step in H. by case_match.
Qed.

Lemma advance_pending_subset t k p :
  pending (advance t) !! k = Some p → pending t !! k = Some p.
Proof.
  apply (advance_ind (λ t', pending t' !! k = Some p → pending t !! k = Some p)); [|done].
  intros t1 t2 IH. unfold advance_step. intros ? ?. split_cases.
  apply IH. by eapply lookup_delete_Some.
Qed.

(** Inserting a report that is not yet pending before or after the loop gives
    the same tracker. *)
Lemma advance_insert t p :
  pending t !! SeqNo p = None →
  advance (set_pending (advance t) (<[SeqNo p := p]> (pending (advance t)))) =
  advance (set_pending t (<[SeqNo p := p]> (pending t))).
Proof.
  remember (size (pending t)) as n eqn:Hn. revert t Hn.
  induction n as [n IH] using lt_wf_ind. intros t Hn Hp.
  rewrite (advance_unfold t). destruct (advance_step t) as [t'|] eqn:E; [|done].
  pose proof (advance_step_size _ _ E) as Hsz.
  unfold advance_step in E. case_match eqn:Hnext; simplify_eq.
  assert (SeqNo p ≠ next t) as Hne by congruence.
  rewrite (IH (size (delete (next t) (pending t)))); simpl in *; [|lia|done|].
  2:{ rewrite lookup_delete_ne by done. done. }
  rewrite (advance_unfold (set_pending t _)). unfold advance_step at 1. simpl.
  rewrite lookup_insert_ne by done. rewrite Hnext.
  unfold set_pending at 1. simpl. by rewrite <-delete_insert_ne by done.
Qed.

Definition insert_all (m : gmap Z Position) (ps : list Position) : gmap Z Position :=
  foldl (λ m p, <[SeqNo p := p]> m) m ps.

Lemma advance_insert_all t ps :
  NoDup (SeqNo <$> ps) → (∀ p, p ∈ ps → pending t !! SeqNo p = None) →
  advance (set_pending (advance t) (insert_all (pending (advance t)) ps)) =
  advance (set_pending t (insert_all (pending t) ps)).
Proof.
  revert t. induction ps as [|p ps IH]; intros t Hnd Hfresh; simpl.
  - assert (∀ t, set_pending t (pending t) = t) as Hset by by intros [].
    rewrite !Hset. rewrite (advance_unfold (advance t)).
    by rewrite (advance_loop_settled _ _ _ (advance_loop_advance t)).
  - inversion_clear Hnd as [|? ? Hp Hnd'].
    assert (∀ t1, pending t1 !! SeqNo p = None →
      (∀ q, q ∈ ps → pending t1 !! SeqNo q = None) →
      ∀ q, q ∈ ps → pending (set_pending t1 (<[SeqNo p := p]> (pending t1))) !! SeqNo q = None)
      as Hins.
    { intros t1 _ Hq q Hin. simpl. rewrite lookup_insert_ne; [by apply Hq|].
      intros Heq. apply Hp. rewrite Heq. by apply list_elem_of_fmap_2. }
    assert (∀ q, q ∈ p :: ps → pending (advance t) !! SeqNo q = None) as Hadv.
    { intros q Hq. destruct (pending (advance t) !! SeqNo q) eqn:E; [|done].
      apply advance_pending_subset in E. by rewrite Hfresh in E. }
    pose proof (IH (set_pending t (<[SeqNo p := p]> (pending t))) Hnd') as IH1.
    pose proof (IH (set_pending (advance t) (<[SeqNo p := p]> (pending (advance t)))) Hnd') as IH2.
    rewrite advance_insert in IH2 by (apply Hfresh; set_solver).
    etrans; [symmetry; apply IH2|apply IH1]; apply Hins; set_solver.
Qed.

Lemma pending_Done_subset t p k q :
  pending (Done t p) !! k = Some q → k ≠ SeqNo p → pending t !! k = Some q.
Proof.
  intros H%advance_pending_subset Hne. simpl in H. by rewrite lookup_insert_ne in H.
Qed.

Lemma DoneBatch_foldl_Done t ps :
  NoDup (SeqNo <$> ps) → (∀ p, p ∈ ps → pending t !! SeqNo p = None) →
  DoneBatch t ps = foldl Done t ps.
Proof.
  revert t. induction ps as [|p ps IH]; intros t Hnd Hfresh; [done|].
  inversion_clear Hnd as [|? ? Hp Hnd']. simpl.
  assert (∀ q, q ∈ ps → SeqNo q ≠ SeqNo p) as Hne.
  { intros q Hq Heq. apply Hp. rewrite <-Heq. by apply list_elem_of_fmap_2. }
  rewrite <-IH; [|done|].
  2:{ intros q Hq. destruct (pending (Done t p) !! SeqNo q) eqn:E; [|done].
      apply pending_Done_subset in E; [|by apply Hne]. rewrite Hfresh in E; set_solver. }
  pose proof (advance_insert_all (set_pending t (<[SeqNo p := p]> (pending t))) ps Hnd') as H.
  destruct ps as [|q ps']; [done|]. symmetry. refine (H _).
  intros q' Hq'. simpl. rewrite lookup_insert_ne; [by apply Hfresh, list_elem_of_further|].
  intros Heq. symmetry in Heq. by apply (Hne q').
Qed.

(** ** The invariant of the tracker *)

(** What the tracker's state says about the positions [R] reported so far. *)
Record tracker_inv (R : list Position) (t : Tracker) : Prop := {
  inv_next : (1 ≤ next t)%Z;
  inv_prefix : contiguous R (next t - 1);
  inv_pending : ∀ n p, pending t !! n = Some p → p ∈ R ∧ SeqNo p = n;
  inv_covered : ∀ p, p ∈ R → (SeqNo p < next t)%Z ∨ is_Some (pending t !! SeqNo p);
  inv_ckpt : has t = true → ckpt t ∈ R ∧ SeqNo (ckpt t) = (next t - 1)%Z;
  inv_has : has t = bool_decide (1 < next t)%Z;
  inv_fresh : has t = false → ckpt t = zeroPosition;
  inv_dirty : dirty t = true → has t = true;
}.

Lemma seq_reported_elem R p : p ∈ R → seq_reported R (SeqNo p).
Proof. apply list_elem_of_fmap_2. Qed.

Lemma seq_reported_inv R n : seq_reported R n → ∃ p, p ∈ R ∧ SeqNo p = n.
Proof. intros [p [-> Hp]]%list_elem_of_fmap. eauto. Qed.

Lemma seq_reported_mono R R' n : R ⊆ R' → seq_reported R n → seq_reported R' n.
Proof. intros Hsub [p [Hp <-]]%seq_reported_inv. apply seq_reported_elem. auto. Qed.

Lemma contiguous_mono R R' n : R ⊆ R' → contiguous R n → contiguous R' n.
Proof. intros Hsub Hc m Hm. eapply seq_reported_mono; eauto. Qed.

#[export] Hint Resolve seq_reported_elem seq_reported_mono contiguous_mono : nomios.

(** Only the lower bound of [seq_in_range] can fail for a stale report, so the
    loop needs the upper bound alone. *)
Lemma advance_step_inv R t t' :
  Forall (λ p, SeqNo p < 2 ^ 64 - 1)%Z R →
  tracker_inv R t → advance_step t = Some t' → tracker_inv R t'.
Proof.
  rewrite Forall_forall. intros HR [Hn Hpre Hpend Hcov Hck Hhas Hfr Hd].
  unfold advance_step. case_match eqn:Hq; intros; simplify_eq.
  destruct (Hpend _ _ Hq) as [Hin Hseq]. pose proof (HR _ Hin) as Hub.
  assert (u64 (next t + 1) = next t + 1)%Z as Hu by (apply u64_small; lia).
  split; simpl; rewrite ?Hu; try done.
  - lia.
  - intros m Hm. destruct (decide (m = next t)) as [->|].
    + rewrite <-Hseq. by apply seq_reported_elem.
    + apply Hpre. lia.
  - intros n p0 [? Hp0]%lookup_delete_Some. auto.
  - intros p0 Hp0. destruct (decide (SeqNo p0 = next t)) as [->|Hne]; [left; lia|].
    destruct (Hcov p0 Hp0) as [?|?]; [left; lia|right]. by rewrite lookup_delete_ne.
  - intros _. split; [done|]. lia.
  - symmetry. apply bool_decide_eq_true. lia.
Qed.

Lemma advance_inv R t :
  Forall (λ p, SeqNo p < 2 ^ 64 - 1)%Z R → tracker_inv R t → tracker_inv R (advance t).
Proof. intros HR. apply advance_ind. intros. by eapply advance_step_inv. Qed.

Lemma tracker_inv_insert R t p :
  tracker_inv R t → tracker_inv (p :: R) (set_pending t (<[SeqNo p := p]> (pending t))).
Proof.
  intros [Hn Hpre Hpend Hcov Hck Hhas Hfr Hd]. split; simpl; try done.
  - eapply contiguous_mono; [|done]. intros q. apply list_elem_of_further.
  - intros n q. rewrite lookup_insert.
    destruct (decide (SeqNo p = n)); intros Hq; simplify_eq; [split; [apply list_elem_of_here|done]|].
    destruct (Hpend _ _ Hq). split; [by apply list_elem_of_further|done].
  - intros q [->|Hq]%elem_of_cons; [right; by rewrite lookup_insert_eq|].
    destruct (Hcov q Hq) as [?|Hs]; [by left|right]. rewrite lookup_insert. by destruct (decide _).
  - intros Ht. destruct (Hck Ht). split; [by apply list_elem_of_further|done].
Qed.

Lemma tracker_inv_equiv R R' t :
  (∀ p, p ∈ R ↔ p ∈ R') → tracker_inv R t → tracker_inv R' t.
Proof.
  intros Heq [Hn Hpre Hpend Hcov Hck Hhas Hfr Hd].
  assert (R ⊆ R') by (intros p; apply Heq).
  split; try done.
  - by eapply contiguous_mono.
  - intros n p Hp. destruct (Hpend n p Hp). by rewrite <-Heq.
  - intros p. rewrite <-Heq. apply Hcov.
  - intros H'. destruct (Hck H'). by rewrite <-Heq.
Qed.

Lemma tracker_inv_insert_all R t ps :
  tracker_inv R t → tracker_inv (R ++ ps) (set_pending t (insert_all (pending t) ps)).
Proof.
  revert R t. induction ps as [|p ps IH]; intros R t Hinv; simpl.
  - rewrite app_nil_r. by destruct t.
  - apply tracker_inv_insert with (p := p), IH in Hinv.
    eapply tracker_inv_equiv; [|exact Hinv].
    intros q. rewrite !elem_of_app, !elem_of_cons. tauto.
Qed.

Lemma tracker_inv_new : tracker_inv [] NewTracker.
Proof.
  split; simpl; try done.
  - intros m Hm. lia.
  - by intros p ?%elem_of_nil.
Qed.

Lemma apply_op_inv R t o :
  Forall (λ p, SeqNo p < 2 ^ 64 - 1)%Z (R ++ op_positions o) →
  tracker_inv R t → tracker_inv (R ++ op_positions o) (apply_op t o).
Proof.
  intros HR Hinv. destruct o as [p|[|p ps]| |]; simpl in *; rewrite ?app_nil_r.
  - apply advance_inv; [done|]. apply (tracker_inv_insert_all R t [p] Hinv).
  - done.
  - apply advance_inv; [done|]. apply (tracker_inv_insert_all R t (p :: ps) Hinv).
  - unfold TakeDirty. destruct (dirty t); [|done]. by destruct Hinv; split.
  - unfold Redirty. destruct (has t) eqn:Hh; [|done]. by destruct Hinv; split; simpl; rewrite ?Hh in *.
Qed.

Lemma run_ops_snoc ops o : run_ops (ops ++ [o]) = apply_op (run_ops ops) o.
Proof. unfold run_ops. by rewrite foldl_app. Qed.

Lemma reported_app ops1 ops2 : reported (ops1 ++ ops2) = reported ops1 ++ reported ops2.
Proof. apply bind_app. Qed.

Lemma run_ops_inv ops :
  Forall (λ p, SeqNo p < 2 ^ 64 - 1)%Z (reported ops) →
  tracker_inv (reported ops) (run_ops ops).
Proof.
  induction ops as [|o ops IH] using rev_ind; intros HR; [apply tracker_inv_new|].
  rewrite run_ops_snoc. rewrite reported_app in *.
  assert (reported [o] = op_positions o) as Ho by apply app_nil_r. rewrite Ho in *.
  apply apply_op_inv; [done|]. apply IH. by apply Forall_app in HR as [? _].
Qed.

(** The tracker is at rest between operations: the next number is not pending. *)
Lemma run_ops_settled ops : pending (run_ops ops) !! next (run_ops ops) = None.
Proof.
  induction ops as [|o ops IH] using rev_ind; [done|].
  rewrite run_ops_snoc. destruct o as [p|[|p ps]| |]; simpl.
  - apply advance_pending_settled.
  - done.
  - apply advance_pending_settled.
  - unfold TakeDirty. by destruct (dirty _).
  - unfold Redirty. by destruct (has _).
Qed.

(** The number after the contiguous prefix has not been reported. *)
Lemma settled_not_reported R t :
  tracker_inv R t → pending t !! next t = None → ¬ seq_reported R (next t).
Proof.
  intros Hinv Hnone [p [Hp Hseq]]%seq_reported_inv.
  destruct (inv_covered _ _ Hinv p Hp) as [?|Hs]; [lia|].
  rewrite Hseq, Hnone in Hs. by destruct Hs.
Qed.

(** ** The specification's watermark *)

Lemma contiguous_length R n : contiguous R n → (n ≤ Z.of_nat (length R))%Z.
Proof.
  intros Hc. destruct (decide (n ≤ 0)%Z); [lia|].
  assert (length (seqZ 1 n) ≤ length (SeqNo <$> R))%nat as Hlen.
  { apply submseteq_length, NoDup_submseteq; [apply NoDup_seqZ|].
    intros m Hm%elem_of_seqZ. apply Hc. lia. }
  rewrite length_seqZ, length_fmap in Hlen. lia.
Qed.

Lemma contiguous_succ R n : contiguous R n → seq_reported R (n + 1) → contiguous R (n + 1).
Proof.
  intros Hc Hr m Hm. destruct (decide (m = n + 1)%Z) as [->|]; [done|]. apply Hc. lia.
Qed.

Lemma spec_watermark_spec fuel n R :
  contiguous R n → (Z.of_nat (length R) < n + 1 + Z.of_nat fuel)%Z →
  contiguous R (spec_watermark fuel n R) ∧ (n ≤ spec_watermark fuel n R)%Z ∧
  ¬ seq_reported R (spec_watermark fuel n R + 1).
Proof.
  revert n. induction fuel as [|fuel IH]; intros n Hc Hlen; simpl.
  - repeat split; [done|lia|]. intros Hr.
    pose proof (contiguous_length _ _ (contiguous_succ _ _ Hc Hr)). lia.
  - destruct (decide _) as [Hr|Hr]; [|by repeat split].
    destruct (IH (n + 1)%Z) as (?&?&?); [by apply contiguous_succ|lia|].
    repeat split; [done|lia|done].
Qed.

Lemma contiguous_unique R n m :
  (0 ≤ n)%Z → (0 ≤ m)%Z →
  contiguous R n → ¬ seq_reported R (n + 1) →
  contiguous R m → ¬ seq_reported R (m + 1) → n = m.
Proof.
  intros ?? Hn Hn' Hm Hm'. destruct (Z.lt_trichotomy n m) as [?|[?|?]]; [|done|].
  - destruct Hn'. apply Hm. lia.
  - destruct Hm'. apply Hn. lia.
Qed.

Lemma NoDup_seq_eq R p q :
  NoDup (SeqNo <$> R) → p ∈ R → q ∈ R → SeqNo p = SeqNo q → p = q.
Proof.
  intros Hnd [i Hi]%list_elem_of_lookup [j Hj]%list_elem_of_lookup Heq.
  assert (i = j) as ->; [|congruence].
  eapply (NoDup_lookup (SeqNo <$> R)); [done|..]; rewrite list_lookup_fmap.
  - by rewrite Hi.
  - rewrite Hj. simpl. by rewrite Heq.
Qed.

Lemma seq_in_range_lt R :
  Forall seq_in_range R → Forall (λ p, SeqNo p < 2 ^ 64 - 1)%Z R.
Proof. intros HR. eapply Forall_impl; [exact HR|]. by intros p []. Qed.

Lemma run_ops_watermark ops :
  Forall seq_in_range (reported ops) →
  (next (run_ops ops) - 1)%Z = spec_watermark (length (reported ops)) 0 (reported ops).
Proof.
  intros HR. pose proof (run_ops_inv ops (seq_in_range_lt _ HR)) as Hinv.
  pose proof (settled_not_reported _ _ Hinv (run_ops_settled ops)) as Hns.
  pose proof (inv_next _ _ Hinv).
  destruct (spec_watermark_spec (length (reported ops)) 0 (reported ops)) as (?&?&?);
    [intros m; lia|lia|].
  eapply contiguous_unique; try done; try lia.
  - apply Hinv.
  - by replace (next (run_ops ops) - 1 + 1)%Z with (next (run_ops ops)) by lia.
Qed.

Lemma Checkpoint_watermark (ops : list tracker_op) :
  Forall seq_in_range (reported ops) →
  match Checkpoint (run_ops ops) with
  | (p, true) =>
      p ∈ reported ops ∧ contiguous (reported ops) (SeqNo p) ∧
      ¬ seq_reported (reported ops) (SeqNo p + 1)
  | (p, false) => p = zeroPosition ∧ ¬ seq_reported (reported ops) 1
  end.
Proof.
  intros HR. pose proof (run_ops_inv ops (seq_in_range_lt _ HR)) as Hinv.
  pose proof (settled_not_reported _ _ Hinv (run_ops_settled ops)) as Hns.
  unfold Checkpoint. destruct (has (run_ops ops)) eqn:Hhas.
  - destruct (inv_ckpt _ _ Hinv Hhas) as [Hin ->]. repeat split; [done|apply Hinv|].
    by replace (next (run_ops ops) - 1 + 1)%Z with (next (run_ops ops)) by lia.
  - split; [by apply Hinv|].
    pose proof (inv_has _ _ Hinv) as Hb. rewrite Hhas in Hb. symmetry in Hb.
    apply bool_decide_eq_false in Hb. pose proof (inv_next _ _ Hinv).
    by replace 1%Z with (next (run_ops ops)) by lia.
Qed.

Lemma Checkpoint_spec (ops : list tracker_op) :
  Forall seq_in_range (reported ops) → NoDup (SeqNo <$> reported ops) →
  Checkpoint (run_ops ops) =
  match spec_checkpoint (reported ops) with
  | Some p => (p, true)
  | None => (zeroPosition, false)
  end.
Proof.
  intros HR Hnd. pose proof (run_ops_watermark ops HR) as Hw.
  pose proof (run_ops_inv ops (seq_in_range_lt _ HR)) as Hinv.
  unfold spec_checkpoint, Checkpoint. rewrite <-Hw.
  destruct (list_find _ _) as [[i p]|] eqn:Hf; simpl.
  - apply list_find_Some in Hf as (Hi&Hp&_).
    assert (p ∈ reported ops) as Hpin by by eapply list_elem_of_lookup_2.
    rewrite Forall_forall in HR. destruct (HR p Hpin) as [Hlo _].
    assert (has (run_ops ops) = true) as Hhas.
    { rewrite (inv_has _ _ Hinv). apply bool_decide_eq_true. lia. }
    destruct (inv_ckpt _ _ Hinv Hhas) as [Hin Hseq]. rewrite Hhas. f_equal.
    eapply NoDup_seq_eq; try done. lia.
  - rewrite list_find_None in Hf.
    destruct (has (run_ops ops)) eqn:Hhas; [|by rewrite (inv_fresh _ _ Hinv Hhas)].
    destruct (inv_ckpt _ _ Hinv Hhas) as [Hin Hseq].
    rewrite Forall_forall in Hf. by destruct (Hf _ Hin).
Qed.

(** The specification does not see the order of the reports. *)
Lemma seq_reported_perm R R' n : R ≡ₚ R' → seq_reported R n ↔ seq_reported R' n.
Proof. intros Hp. unfold seq_reported. by rewrite Hp. Qed.

#[export] Instance spec_watermark_proper :
  Proper ((=) ==> (=) ==> (≡ₚ) ==> (=)) spec_watermark.
Proof.
  intros fuel ? <- n ? <- R R' Hp. revert n.
  induction fuel as [|fuel IH]; intros n; simpl; [done|].
  rewrite (decide_ext _ _ _ _ (seq_reported_perm _ _ _ Hp)). by rewrite IH.
Qed.

Lemma run_ops_dirty_has ops : dirty (run_ops ops) = true → has (run_ops ops) = true.
Proof.
  induction ops as [|o ops IH] using rev_ind; [done|]. rewrite run_ops_snoc.
  assert (∀ t m, (dirty t = true → has t = true) →
    dirty (advance (set_pending t m)) = true → has (advance (set_pending t m)) = true) as Hadv.
  { intros t m Ht. apply (advance_ind (λ t, dirty t = true → has t = true)); [|done].
    intros t1 t2 _. unfold advance_step. intros. by split_cases. }
  destruct o as [p|[|p ps]| |]; simpl; try by apply Hadv.
  - done.
  - unfold TakeDirty. destruct (dirty (run_ops ops)) eqn:E; simpl; congruence.
  - unfold Redirty. destruct (has (run_ops ops)) eqn:E; [done|]. by rewrite E.
Qed.

(** ** Properties of the tracker *)

(** [C12] The committable checkpoint is exactly the contiguous-prefix watermark:
    after any sequence of tracker operations, a reported checkpoint is one of
    the positions reported, every sequence number up to its own was reported,
    and the next one was not; without a checkpoint, event 1 is outstanding.
    A checkpoint therefore never passes an unpublished event. *)
Theorem checkpoint_is_watermark (ops : list tracker_op) :
  Forall seq_in_range (reported ops) →
  match Checkpoint (run_ops ops) with
  | (p, true) =>
      p ∈ reported ops ∧ contiguous (reported ops) (SeqNo p) ∧
      ¬ seq_reported (reported ops) (SeqNo p + 1)
  | (p, false) => p = zeroPosition ∧ ¬ seq_reported (reported ops) 1
  end.
Proof. apply Checkpoint_watermark. Qed.

Definition sample_pos (n : Z) : Position := mkPosition "" "binlog.000001" (100 * n) n.

(** Reports 2, 4, (1, 5) out of order: the checkpoint is event 2. *)
Definition sample_ops : list tracker_op :=
  [ODone (sample_pos 2); OTakeDirty; ODone (sample_pos 4);
   ODoneBatch [sample_pos 1; sample_pos 5]; OTakeDirty; ORedirty].

Lemma checkpoint_is_watermark_witness :
  Checkpoint (run_ops sample_ops) = (sample_pos 2, true) ∧
  match Checkpoint (run_ops sample_ops) with
  | (p, true) =>
      p ∈ reported sample_ops ∧ contiguous (reported sample_ops) (SeqNo p) ∧
      ¬ seq_reported (reported sample_ops) (SeqNo p + 1)
  | (p, false) => p = zeroPosition ∧ ¬ seq_reported (reported sample_ops) 1
  end.
Proof.
  split; [vm_compute; reflexivity|]. apply (checkpoint_is_watermark sample_ops).
  decide_closed.
Defined.



(** Completion order does not matter: two histories that report the same
    positions, in any order and any batching, end with the same checkpoint.  This
    is what makes the asynchronous sink's out-of-order acknowledgements safe. *)
Theorem checkpoint_order_independent (ops ops' : list tracker_op) :
  Forall seq_in_range (reported ops) → NoDup (SeqNo <$> reported ops) →
  reported ops ≡ₚ reported ops' →
  Checkpoint (run_ops ops) = Checkpoint (run_ops ops').
Proof.
  intros HR Hnd Hp.
  assert (Forall seq_in_range (reported ops')) as HR' by by rewrite <-Hp.
  pose proof (run_ops_inv ops (seq_in_range_lt _ HR)) as Hinv.
  pose proof (run_ops_inv ops' (seq_in_range_lt _ HR')) as Hinv'.
  assert (next (run_ops ops) = next (run_ops ops')) as Hnext.
  { pose proof (run_ops_watermark _ HR). pose proof (run_ops_watermark _ HR').
    rewrite Hp in *. lia. }
  assert (has (run_ops ops) = has (run_ops ops')) as Hhas.
  { by rewrite (inv_has _ _ Hinv), (inv_has _ _ Hinv'), Hnext. }
  unfold Checkpoint. rewrite <-Hhas. destruct (has (run_ops ops)) eqn:E; f_equal.
  - destruct (inv_ckpt _ _ Hinv E) as [Hin Hs].
    destruct (inv_ckpt _ _ Hinv' (eq_sym Hhas)) as [Hin' Hs']. rewrite <-Hp in Hin'.
    eapply NoDup_seq_eq; try done. lia.
  - by rewrite (inv_fresh _ _ Hinv E), (inv_fresh _ _ Hinv' (eq_sym Hhas)).
Qed.

Lemma checkpoint_order_independent_witness :
  Checkpoint (run_ops sample_ops) =
  Checkpoint (run_ops [ODoneBatch [sample_pos 1; sample_pos 2]; ODone (sample_pos 5);
                       ODone (sample_pos 4)]).
Proof.
  apply (checkpoint_order_independent sample_ops).
  - decide_closed.
  - decide_closed.
  - decide_closed.
Defined.

(** [DoneBatch] is an optimisation of one [Done] per position: on positions
    not reported before, the whole state is the same. *)
Theorem DoneBatch_equiv_Done (t : Tracker) (ps : list Position) :
  NoDup (SeqNo <$> ps) → (∀ p, p ∈ ps → pending t !! SeqNo p = None) →
  DoneBatch t ps = foldl Done t ps.
Proof. apply DoneBatch_foldl_Done. Qed.

Lemma DoneBatch_equiv_Done_witness :
  DoneBatch NewTracker [sample_pos 3; sample_pos 1; sample_pos 2] =
  foldl Done NewTracker [sample_pos 3; sample_pos 1; sample_pos 2].
Proof.
  apply (DoneBatch_equiv_Done NewTracker).
  - decide_closed.
  - intros p _. apply lookup_empty.
Defined.

(** The loop of [advance] terminates on every tracker, after at most one
    turn per pending entry, with the next number no longer pending; more fuel
    does not change the answer. *)
Theorem advance_terminates (t : Tracker) (fuel : nat) :
  (S (size (pending t)) ≤ fuel)%nat →
  advance_loop fuel t = Some (advance t) ∧
  pending (advance t) !! next (advance t) = None.
Proof.
  intros Hf. split; [|apply advance_pending_settled].
  eapply advance_loop_mono, advance_loop_advance. done.
Qed.

Lemma advance_terminates_witness :
  let t := set_pending NewTracker {[1%Z := sample_pos 1; 2%Z := sample_pos 2]} in
  advance_loop 3 t = Some (advance t) ∧ pending (advance t) !! next (advance t) = None.
Proof. apply (advance_terminates (set_pending NewTracker _) 3). vm_compute. lia. Defined.

(** A checkpoint whose save failed is offered again: after the committer's
    [TakeDirty], [Redirty] makes the next [TakeDirty] return the same position
    even when nothing advanced, while without it the next one returns nothing. *)
Theorem failed_save_is_retried (ops : list tracker_op) (p : Position) (t' : Tracker) :
  TakeDirty (run_ops ops) = ((p, true), t') →
  TakeDirty (Redirty t') = ((p, true), t') ∧
  TakeDirty t' = ((zeroPosition, false), t') ∧
  Checkpoint t' = (p, true).
Proof.
  pose proof (run_ops_dirty_has ops) as Hdh. unfold TakeDirty at 1.
  destruct (dirty (run_ops ops)) eqn:Hd; simpl; [|done]. intros [= <- <-].
  unfold TakeDirty, Redirty, Checkpoint. simpl. by rewrite (Hdh eq_refl).
Qed.

Lemma failed_save_is_retried_witness :
  let t' := (TakeDirty (run_ops sample_ops)).2 in
  TakeDirty (Redirty t') = ((sample_pos 2, true), t') ∧
  TakeDirty t' = ((zeroPosition, false), t') ∧ Checkpoint t' = (sample_pos 2, true).
Proof. apply (failed_save_is_retried sample_ops). vm_compute. reflexivity. Defined.
