(* ===== verification/Event.v ===== *)
(** * Package event: the data every component exchanges

    [NomiosEvent], [SourceMeta] and [Op] of pkg/event/event.go, and the dynamic
    values ([any]) a row image holds. *)

From Stdlib Require Import SpecFloat.
From S2P Require Import Prelude GoStd State.

(** ** Dynamic values

    A Go [any] by its dynamic type, with the type switches of the serializer and
    of the key builder in mind.  An unsigned or signed integer of any width is a
    [Z] with its type's tag; a slice is [None] when nil.  A value of a type no
    fast path covers is what the code can observe of it: its type name, its
    [%v] text and the result of [json.Marshal]. *)

Record Time := mkTime {
  t_sec : Z;    (* seconds since the Unix epoch *)
  t_nsec : Z;   (* nanoseconds within the second, 0 ≤ t_nsec < 10^9 *)
  t_offset : Z; (* zone offset, seconds east of UTC *)
}.

Record other := mkOther {
  o_type : string;
  o_text : string;
  o_json : result string;
}.

Inductive value :=
  | VNil
  | VString (s : string)
  | VBytes (b : option string)
  | VRaw (b : option string) (* json.RawMessage *)
  | VBool (x : bool)
  | VInt (x : Z)
  | VInt8 (x : Z)
  | VInt16 (x : Z)
  | VInt32 (x : Z)
  | VInt64 (x : Z)
  | VUint (x : Z)
  | VUint8 (x : Z)
  | VUint16 (x : Z)
  | VUint32 (x : Z)
  | VUint64 (x : Z)
  | VFloat32 (f : spec_float)
  | VFloat64 (f : spec_float)
  | VTime (t : Time)
  | VOther (o : other).

#[export] Instance Time_eq_dec : EqDecision Time.
Proof. solve_decision. Defined.
#[export] Instance other_eq_dec : EqDecision other.
Proof. solve_decision. Defined.
#[export] Instance spec_float_eq_dec : EqDecision spec_float.
Proof. solve_decision. Defined.
#[export] Instance value_eq_dec : EqDecision value.
Proof. solve_decision. Defined.

(** [time.Time.UnixMilli]. *)
Definition UnixMilli (t : Time) : Z := i64 (i64 (t_sec t * 1000) + t_nsec t `div` 1000000)%Z.

(** A [map[string]any]: [None] is the nil map, on which a lookup misses. *)
Abbreviation row := (option (gmap string value)).

(** [row[c]]: a missing column reads as the nil interface. *)
Definition row_get (r : row) (c : string) : value := default VNil (r ≫= λ m, m !! c).

(** The column names of a row; the order is the one of the run's map iteration,
    and the code sorts before it uses them. *)
Definition row_names (r : row) : list string :=
  match r with Some m => (map_to_list m).*1 | None => [] end.

(** ** Operations *)
Inductive Op := OpInsert | OpUpdate | OpDelete.

#[export] Instance Op_eq_dec : EqDecision Op.
Proof. solve_decision. Defined.

(** The constants' string values. *)
Definition op_text (o : Op) : string :=
  match o with OpInsert => "c" | OpUpdate => "u" | OpDelete => "d" end.

(** ** Events *)
Record SourceMeta := mkSourceMeta {
  Connector : string;
  ServerID : Z; (* uint32 *)
  Database : string;
  Table : string;
  GTID : string;
  MetaFile : string; (* File *)
  Pos : Z;     (* uint32 *)
  TxOrder : Z; (* int *)
}.

Record NomiosEvent := mkEvent {
  ID : string;
  EvOp : Op;
  Before : row;
  After : row;
  EvSource : SourceMeta;
  OccurredAt : Time;
  Key : string;
  EvPosition : Position;
}.

#[export] Instance SourceMeta_eq_dec : EqDecision SourceMeta.
Proof. solve_decision. Defined.
#[export] Instance NomiosEvent_eq_dec : EqDecision NomiosEvent.
Proof. solve_decision. Defined.

Definition FQTN (m : SourceMeta) : string := Database m +:+ "." +:+ Table m.

(** The current row image. *)
Definition Row (e : NomiosEvent) : row :=
  match EvOp e with OpDelete => Before e | _ => After e end.

(** The assignment [e.Key = k]. *)
Definition set_Key (e : NomiosEvent) (k : string) : NomiosEvent :=
  mkEvent (ID e) (EvOp e) (Before e) (After e) (EvSource e) (OccurredAt e) k (EvPosition e).

(** The sequence number the source gave the event. *)
Definition ev_seq (e : NomiosEvent) : Z := SeqNo (EvPosition e).

(** ** Text formats of the Go library

    The rendering of floats and times by [strconv] and [time] is a parameter of
    the components that print them: [FormatFloat fmt bits f] is
    [strconv.FormatFloat(f, fmt, -1, bits)], [TimeText] is [fmt]'s [%v] of a
    [time.Time] and [TimeRFC3339Nano] its [Format(time.RFC3339Nano)]. *)
Class GoFmt := {
  FormatFloat : ascii → Z → spec_float → string;
  TimeText : Time → string;
  TimeRFC3339Nano : Time → string;
}.

(** The alphabet of a printed float: digits, sign, point, exponent, NaN, Inf. *)
Definition is_float_char (c : ascii) : bool :=
  is_num_char c ||
  bool_decide (c ∈ (["+"; "."; "e"; "N"; "a"; "I"; "n"; "f"]%char : list ascii)).

(** A canonical value of the 32- or 64-bit format. *)
Definition float_canonical (bits : Z) (f : spec_float) : bool :=
  if decide (bits = 32%Z) then valid_binary 24 128 f else valid_binary 53 1024 f.

(** What [strconv] documents: precision -1 prints the digits that identify the
    value uniquely within its width, over that alphabet. *)
Class GoFmtLaws `{GoFmt} := {
  FormatFloat_chars : ∀ c bits f,
    float_canonical bits f = true → str_forallb is_float_char (FormatFloat c bits f) = true;
  FormatFloat_inj : ∀ c bits f g,
    float_canonical bits f = true → float_canonical bits g = true →
    FormatFloat c bits f = FormatFloat c bits g → f = g;
}.

(** ** Well-typed values

    What the Go type system guarantees of a dynamic value. *)
Definition in_signed (w x : Z) : bool := bool_decide (- 2 ^ (w - 1) ≤ x < 2 ^ (w - 1))%Z.
Definition in_unsigned (w x : Z) : bool := bool_decide (0 ≤ x < 2 ^ w)%Z.

Definition wf_value (v : value) : bool :=
  match v with
  | VInt x | VInt64 x => in_signed 64 x
  | VInt8 x => in_signed 8 x
  | VInt16 x => in_signed 16 x
  | VInt32 x => in_signed 32 x
  | VUint x | VUint64 x => in_unsigned 64 x
  | VUint8 x => in_unsigned 8 x
  | VUint16 x => in_unsigned 16 x
  | VUint32 x => in_unsigned 32 x
  | VFloat32 f => float_canonical 32 f
  | VFloat64 f => float_canonical 64 f
  | _ => true
  end.

(** A concrete formatting with the documented properties, for evaluation. *)
Definition sampleFmt : GoFmt := {|
  FormatFloat _ _ f :=
    match f with
    | S754_nan => "NaN"
    | S754_infinity s => if s then "-Inf" else "+Inf"
    | S754_zero s => if s then "-0" else "0"
    | S754_finite s m e =>
        (if s then "e-" else "e+") +:+ pretty (Z.pos m) +:+ "e" +:+ pretty e
    end;
  TimeText t := pretty (t_sec t);
  TimeRFC3339Nano t := pretty (t_sec t);
|}.

Lemma sampleFmt_laws : @GoFmtLaws sampleFmt.
Proof.
  assert (∀ x : Z, str_forallb is_float_char (pretty x) = true) as Hnum.
  { intros x. eapply str_forallb_impl, pretty_Z_num_chars.
    intros c Hc. unfold is_float_char. by rewrite Hc. }
  assert (∀ (x y : Z) s1 s2, pretty x +:+ String "e" s1 = pretty y +:+ String "e" s2 →
    x = y ∧ s1 = s2) as Hsplit.
  { intros x y s1 s2 Heq.
    destruct (str_split_unique is_num_char "e" (pretty x) (pretty y) s1 s2)
      as [Hp ->]; try done; try apply pretty_Z_num_chars.
    by apply (inj pretty) in Hp as ->. }
  split.
  - intros c bits f _. destruct f as [[]|[]| |[] m e]; try done; simpl;
      rewrite !str_forallb_app, !Hnum; done.
  - intros c bits f g _ _. destruct f as [[]|[]| |[] m e], g as [[]|[]| |[] m' e']; try done;
      simpl; intros [= Heq]; try done;
      apply Hsplit in Heq as [? Heq]; apply (inj pretty) in Heq as ->; by simplify_eq.
Qed.
