(* ===== verification/Keys.v ===== *)
(** * Package dispatch, keys: the entity key of an event

    [DefaultKey], [KeyFromColumns] and the escaping of pkg/dispatch/dispatch.go.
    The key decides the queue, the publisher and the Kafka partition, so two
    entities must not share one and one entity must not get two. *)

From Stdlib Require Import SpecFloat.
From S2P Require Import Prelude GoStd State Event.

Section keys.
Context `{GoFmt}.

(** ** Rendering *)

Definition key_special (c : ascii) : bool :=
  bool_decide (c = "|"%char) || bool_decide (c = "\"%char).

Fixpoint appendEscaped (b s : string) : string :=
  match s with
  | "" => b
  | String c s =>
      appendEscaped (b +:+ (if key_special c then String "\" (str1 c) else str1 c)) s
  end.

(** The bytes of a possibly nil slice. *)
Definition slice_bytes (b : option string) : string := default "" b.

Definition appendKeyValue (b : string) (v : value) : string :=
  match v with
  | VNil => b +:+ "\N"
  | VString x => appendEscaped b x
  | VBytes x => appendEscaped b (slice_bytes x)
  | VRaw x => appendEscaped b (slice_bytes x)
  | VInt x | VInt8 x | VInt16 x | VInt32 x | VInt64 x => AppendInt b x
  | VUint x | VUint8 x | VUint16 x | VUint32 x | VUint64 x => AppendUint b x
  | VBool x => AppendBool b x
  | VFloat32 x => b +:+ FormatFloat "g" 32 x
  | VFloat64 x => b +:+ FormatFloat "g" 64 x
  | VTime t => appendEscaped b (TimeText t)
  | VOther o => appendEscaped b (o_text o)
  end.

(** [sort.Strings]. *)
Definition sort_Strings : list string → list string := merge_sort String.le.

(** The loop over the key columns. *)
Definition append_columns (b : string) (r : row) (cols : list string) : string :=
  foldl (λ b c, appendKeyValue (b +:+ "|") (row_get r c)) b cols.

(** [names] is the order in which the map iteration of this run yields the
    column names. *)
Definition KeyFromColumns_iter (names : list string) (fqtn : string) (r : row)
    (cols : list string) : string :=
  append_columns fqtn r (match cols with [] => sort_Strings names | _ => cols end).

Definition KeyFromColumns (fqtn : string) (r : row) (cols : list string) : string :=
  KeyFromColumns_iter (row_names r) fqtn r cols.

(** [DefaultKey overrides] as a function of the event. *)
Definition DefaultKey (overrides : gmap string (list string)) (e : NomiosEvent) : string :=
  let fallback := if decide (Key e = "") then FQTN (EvSource e) else Key e in
  if decide (size overrides = 0%nat) then fallback
  else
    match overrides !! FQTN (EvSource e) with
    | Some cols => KeyFromColumns (FQTN (EvSource e)) (Row e) cols
    | None => fallback
    end.
End keys.

(** ** Reading a key back

    The reference decoder of the escaping: [unescape] undoes [appendEscaped] and
    [split_key] cuts a key at its unescaped separators. *)
Fixpoint unescape (s : string) : string :=
  match s with
  | "" => ""
  | String c s =>
      if decide (c = "\"%char) then
        match s with
        | "" => ""
        | String d s => String d (unescape s)
        end
      else String c (unescape s)
  end.

(** The component up to the first unescaped separator, and the rest after it. *)
Fixpoint next_component (s : string) : string * option string :=
  match s with
  | "" => ("", None)
  | String c s =>
      if decide (c = "|"%char) then ("", Some s)
      else if decide (c = "\"%char) then
        match s with
        | "" => ("\", None)
        | String d s => let '(x, r) := next_component s in (String c (String d x), r)
        end
      else let '(x, r) := next_component s in (String c x, r)
  end.

(** A text whose separators are all escaped. *)
Fixpoint wf_component (s : string) : bool :=
  match s with
  | "" => true
  | String c s =>
      if decide (c = "|"%char) then false
      else if decide (c = "\"%char) then
        match s with "" => false | String d s => wf_component s end
      else wf_component s
  end.

(** The rendering of one value, alone. *)
Definition key_text `{GoFmt} (v : value) : string := appendKeyValue "" v.

(** Values of one column: MySQL gives a column one type, or NULL. *)
Inductive same_type : value → value → Prop :=
  | same_nil_l v : same_type VNil v
  | same_nil_r v : same_type v VNil
  | same_string x y : same_type (VString x) (VString y)
  | same_bytes x y : same_type (VBytes (Some x)) (VBytes (Some y))
  | same_raw x y : same_type (VRaw (Some x)) (VRaw (Some y))
  | same_bool x y : same_type (VBool x) (VBool y)
  | same_int x y : same_type (VInt x) (VInt y)
  | same_int8 x y : same_type (VInt8 x) (VInt8 y)
  | same_int16 x y : same_type (VInt16 x) (VInt16 y)
  | same_int32 x y : same_type (VInt32 x) (VInt32 y)
  | same_int64 x y : same_type (VInt64 x) (VInt64 y)
  | same_uint x y : same_type (VUint x) (VUint y)
  | same_uint8 x y : same_type (VUint8 x) (VUint8 y)
  | same_uint16 x y : same_type (VUint16 x) (VUint16 y)
  | same_uint32 x y : same_type (VUint32 x) (VUint32 y)
  | same_uint64 x y : same_type (VUint64 x) (VUint64 y)
  | same_float32 x y : same_type (VFloat32 x) (VFloat32 y)
  | same_float64 x y : same_type (VFloat64 x) (VFloat64 y).
#[export] Hint Constructors same_type : nomios.

(** ** Facts about the rendering *)
Section key_facts.
Context `{GoFmt}.

Definition escape_char (c : ascii) : string :=
  if key_special c then String "\" (str1 c) else str1 c.

Lemma appendEscaped_app b s : appendEscaped b s = b +:+ appendEscaped "" s.
Proof.
  revert b. induction s as [|c s IH]; intros b; simpl; [by rewrite str_app_nil_r|].
  fold (escape_char c). rewrite IH, (IH (_ +:+ escape_char c)).
  by rewrite str_app_nil_l, !str_app_assoc.
Qed.

Lemma escape_cons c s : appendEscaped "" (String c s) = escape_char c +:+ appendEscaped "" s.
Proof. simpl. fold (escape_char c). by rewrite appendEscaped_app, str_app_nil_l. Qed.

Lemma key_special_spec c : key_special c = true ↔ c = "|"%char ∨ c = "\"%char.
Proof. unfold key_special. by rewrite orb_true_iff, !bool_decide_eq_true. Qed.

Lemma unescape_escape s : unescape (appendEscaped "" s) = s.
Proof.
  induction s as [|c s IH]; [done|]. rewrite escape_cons. unfold escape_char.
  destruct (key_special c) eqn:Hc; rewrite !str_app_cons, str_app_nil_l; simpl.
  - by rewrite IH.
  - case_decide as Hd; [|by rewrite IH]. subst c. done.
Qed.

Lemma escape_inj s1 s2 : appendEscaped "" s1 = appendEscaped "" s2 → s1 = s2.
Proof. intros Heq. by rewrite <-(unescape_escape s1), Heq, unescape_escape. Qed.

Lemma wf_component_app s1 s2 :
  wf_component s1 = true → wf_component s2 = true → wf_component (s1 +:+ s2) = true.
Proof.
  intros H1 H2. revert H1.
  induction s1 as [|c|c d s IH1 IH2] using string_ind2; rewrite ?str_app_cons; simpl.
  - done.
  - by destruct (decide (c = "|"%char)), (decide (c = "\"%char)).
  - destruct (decide (c = "|"%char)); [done|]. destruct (decide (c = "\"%char)); [exact IH1|].
    exact IH2.
Qed.

Lemma wf_component_escape s : wf_component (appendEscaped "" s) = true.
Proof.
  induction s as [|c s IH]; [done|]. rewrite escape_cons.
  apply wf_component_app; [|done]. unfold escape_char.
  destruct (key_special c) eqn:Hc; simpl; [done|].
  repeat case_decide; subst; done.
Qed.

(** A text without special bytes is a component as it stands. *)
Definition plain (c : ascii) : bool := negb (key_special c).

Lemma wf_component_plain s : str_forallb plain s = true → wf_component s = true.
Proof.
  induction s as [|c s IH]; simpl; [done|]. rewrite andb_true_iff. intros [Hc Hs].
  unfold plain, key_special in Hc.
  repeat case_decide; subst; [done..|]. auto.
Qed.

Lemma plain_cons_inv c s : str_forallb plain (String c s) = true → c ≠ "\"%char.
Proof. simpl. rewrite andb_true_iff. by intros [Hc _] ->. Qed.

Lemma float_char_plain c : is_float_char c = true → plain c = true.
Proof.
  intros Hc. unfold plain. destruct (key_special c) eqn:E; [|done].
  apply key_special_spec in E as [-> | ->]; vm_compute in Hc; done.
Qed.

Lemma num_char_plain c : is_num_char c = true → plain c = true.
Proof. intros Hc. apply float_char_plain. unfold is_float_char. by rewrite Hc. Qed.

Lemma pretty_plain (x : Z) : str_forallb plain (pretty x) = true.
Proof. eapply str_forallb_impl, pretty_Z_num_chars. apply num_char_plain. Qed.

Lemma bool_text_plain x : str_forallb plain (bool_text x) = true.
Proof. by destruct x. Qed.

Lemma appendKeyValue_app b v : appendKeyValue b v = b +:+ key_text v.
Proof.
  unfold key_text. destruct v; simpl; unfold AppendInt, AppendUint, AppendBool;
    rewrite ?(appendEscaped_app b), ?str_app_nil_l; done.
Qed.

Context `{!GoFmtLaws}.

Lemma FormatFloat_plain c bits f :
  float_canonical bits f = true → str_forallb plain (FormatFloat c bits f) = true.
Proof.
  intros Hf. eapply str_forallb_impl; [apply float_char_plain|]. by apply FormatFloat_chars.
Qed.

(** Every rendering is either an escaped text, [\N] or a plain text. *)
Lemma key_text_shape v : wf_value v = true →
  (v = VNil ∧ key_text v = "\N") ∨
  (∃ s, key_text v = appendEscaped "" s) ∨ str_forallb plain (key_text v) = true.
Proof.
  intros Hwf. unfold key_text.
  destruct v; simpl; unfold AppendInt, AppendUint, AppendBool; rewrite ?str_app_nil_l;
    eauto using pretty_plain, bool_text_plain, FormatFloat_plain.
Qed.

Lemma wf_component_key_text v : wf_value v = true → wf_component (key_text v) = true.
Proof.
  intros [[-> ->]|[[s ->]|Hp]]%key_text_shape;
    [done|apply wf_component_escape|by apply wf_component_plain].
Qed.

(** [\N] is the rendering of NULL alone. *)
Lemma key_text_null v : wf_value v = true → key_text v = "\N" → v = VNil.
Proof.
  intros [[-> _]|[[s ->]|Hp]]%key_text_shape; [done|..]; intros Heq.
  - destruct s as [|c s]; [done|]. rewrite escape_cons in Heq. unfold escape_char in Heq.
    destruct (key_special c) eqn:Hc; rewrite ?str_app_cons, ?str_app_nil_l in Heq.
    + injection Heq as -> _. done.
    + injection Heq as -> _. done.
  - rewrite Heq in Hp. by apply plain_cons_inv in Hp.
Qed.

(** Per column the rendering is injective. *)
Lemma key_text_inj v1 v2 :
  same_type v1 v2 → wf_value v1 = true → wf_value v2 = true →
  key_text v1 = key_text v2 → v1 = v2.
Proof.
  intros Hst Hw1 Hw2 Heq. destruct Hst.
  1: { symmetry. apply key_text_null; [done|by rewrite <-Heq]. }
  1: { apply key_text_null; [done|by rewrite Heq]. }
  all: unfold key_text in Heq; simpl in Heq; unfold AppendInt, AppendUint, AppendBool in Heq;
    rewrite ?str_app_nil_l in Heq; f_equal;
    first [ by apply escape_inj | f_equal; by apply escape_inj | by apply bool_text_inj
          | by eapply FormatFloat_inj | by apply (inj pretty) ].
Qed.
End key_facts.

(** ** Facts about whole keys *)
Section key_split.
Context `{GoFmt} `{!GoFmtLaws}.

(** What the loop over the columns appends. *)
Fixpoint columns_text (r : row) (cols : list string) : string :=
  match cols with
  | [] => ""
  | c :: cols => "|" +:+ key_text (row_get r c) +:+ columns_text r cols
  end.

Lemma append_columns_text b r cols : append_columns b r cols = b +:+ columns_text r cols.
Proof.
  revert b. unfold append_columns.
  induction cols as [|c cols IH]; intros b; simpl; [by rewrite str_app_nil_r|].
  rewrite IH, appendKeyValue_app. by rewrite !str_app_assoc.
Qed.

Lemma KeyFromColumns_text fqtn r cols :
  cols ≠ [] → KeyFromColumns fqtn r cols = fqtn +:+ columns_text r cols.
Proof.
  intros Hne. unfold KeyFromColumns, KeyFromColumns_iter. destruct cols; [done|].
  apply append_columns_text.
Qed.

(** A component is read back whole, up to the next separator or the end. *)
Lemma next_component_wf s t :
  wf_component s = true → (t = "" ∨ ∃ t', t = String "|" t') →
  (next_component (s +:+ t)).1 = s.
Proof.
  intros Hs Ht. revert Hs.
  induction s as [|c|c d s IH1 IH2] using string_ind2; intros Hs;
    rewrite ?str_app_nil_l, ?str_app_cons, ?str_app_nil_l.
  - by destruct Ht as [-> | [t' ->]].
  - simpl in *. destruct (decide (c = "|"%char)); [done|].
    destruct (decide (c = "\"%char)); [done|]. by destruct Ht as [-> | [t' ->]].
  - change (next_component (String c (String d (s +:+ t)))) with
      (if decide (c = "|"%char) then ("", Some (String d (s +:+ t)))
       else if decide (c = "\"%char) then
         let '(x, r) := next_component (s +:+ t) in (String c (String d x), r)
       else let '(x, r) := next_component (String d (s +:+ t)) in (String c x, r)).
    change (wf_component (String c (String d s))) with
      (if decide (c = "|"%char) then false
       else if decide (c = "\"%char) then wf_component s
       else wf_component (String d s)) in Hs.
    destruct (decide (c = "|"%char)); [done|]. destruct (decide (c = "\"%char)).
    + specialize (IH1 Hs). destruct (next_component (s +:+ t)); simpl in *. by subst.
    + specialize (IH2 Hs). rewrite str_app_cons in IH2.
      destruct (next_component (String d (s +:+ t))); simpl in *. by subst.
Qed.

Lemma columns_text_start r cols : columns_text r cols = "" ∨ ∃ t, columns_text r cols = String "|" t.
Proof. destruct cols; [by left|right]. by eexists. Qed.

(** Every value of the row is well typed. *)
Definition wf_row (r : row) : Prop := ∀ c, wf_value (row_get r c) = true.

Lemma columns_text_inj r1 r2 cols :
  wf_row r1 → wf_row r2 → columns_text r1 cols = columns_text r2 cols →
  Forall (λ c, key_text (row_get r1 c) = key_text (row_get r2 c)) cols.
Proof.
  intros Hr1 Hr2. induction cols as [|c cols IH]; simpl; [by constructor|].
  rewrite !str_app_cons, !str_app_nil_l. intros [= Heq].
  assert (key_text (row_get r1 c) = key_text (row_get r2 c)) as Hc.
  { rewrite <-(next_component_wf (key_text (row_get r1 c)) (columns_text r1 cols));
      [|by apply wf_component_key_text|apply columns_text_start].
    rewrite Heq. apply next_component_wf; [by apply wf_component_key_text|].
    apply columns_text_start. }
  constructor; [done|]. rewrite Hc in Heq. by apply str_app_inv_l, IH in Heq.
Qed.
End key_split.

(** ** Properties of the entity key *)

(** [C15] Composite keys are collision-free: for one table and one choice of key
    columns, two rows have the same key exactly when they agree on every key
    column, the values of a column being of the column's type or NULL. *)
Theorem KeyFromColumns_collision_free `{GoFmtLaws} (fqtn : string) (r1 r2 : row)
    (cols : list string) :
  cols ≠ [] → wf_row r1 → wf_row r2 →
  Forall (λ c, same_type (row_get r1 c) (row_get r2 c)) cols →
  KeyFromColumns fqtn r1 cols = KeyFromColumns fqtn r2 cols ↔
  Forall (λ c, row_get r1 c = row_get r2 c) cols.
Proof.
  intros Hne Hr1 Hr2 Hst. rewrite !KeyFromColumns_text by done. split.
  - intros Heq%str_app_inv_l%columns_text_inj; [|done..].
    rewrite Forall_forall in *. intros c Hc. eapply key_text_inj; eauto.
  - intros Heq. f_equal. clear Hne Hst. induction Heq as [|c cols Hc _ IH]; [done|].
    simpl. by rewrite Hc, IH.
Qed.

(** Two rows of a table with the composite key (x, y) whose values hold the
    separator and the escape byte. *)
Definition sample_row (x y : value) : row := Some {["x" := x; "y" := y]}.

Lemma sample_row_wf x y : wf_value x = true → wf_value y = true → wf_row (sample_row x y).
Proof.
  intros Hx Hy c. unfold sample_row, row_get. simpl.
  destruct (decide (c = "x")) as [->|]; [done|].
  destruct (decide (c = "y")) as [->|]; [done|].
  by rewrite lookup_insert_ne, lookup_singleton_ne by done.
Defined.

Lemma KeyFromColumns_collision_free_witness :
  let r1 := sample_row (VString "a|b") (VString "c") in
  let r2 := sample_row (VString "a") VNil in
  @KeyFromColumns sampleFmt "db.t" r1 ["x"; "y"] = "db.t|a\|b|c" ∧
  (@KeyFromColumns sampleFmt "db.t" r1 ["x"; "y"] = @KeyFromColumns sampleFmt "db.t" r2 ["x"; "y"] ↔
   Forall (λ c, row_get r1 c = row_get r2 c) ["x"; "y"]).
Proof.
  split; [vm_compute; reflexivity|].
  apply (@KeyFromColumns_collision_free sampleFmt sampleFmt_laws "db.t"); [done|..].
  - by apply sample_row_wf.
  - by apply sample_row_wf.
  - repeat constructor.
Defined.

(** The escaping round-trips, and an escaped value is read back from a key
    whole: the first unescaped separator is the one the key builder wrote. *)
Theorem appendEscaped_roundtrip (b s t : string) :
  appendEscaped b s = b +:+ appendEscaped "" s ∧
  unescape (appendEscaped "" s) = s ∧
  (next_component (appendEscaped "" s +:+ String "|" t)).1 = appendEscaped "" s.
Proof.
  split; [apply appendEscaped_app|]. split; [apply unescape_escape|].
  apply next_component_wf; [apply wf_component_escape|]. right. by eexists.
Qed.

Lemma sort_Strings_perm l l' : l ≡ₚ l' → sort_Strings l = sort_Strings l'.
Proof.
  intros Hp. apply (Sorted_unique String.le); try apply (Sorted_merge_sort _).
  unfold sort_Strings. by rewrite !merge_sort_Permutation.
Qed.

#[export] Instance sort_Strings_proper : Proper ((≡ₚ) ==> (=)) sort_Strings.
Proof. intros l l'. apply sort_Strings_perm. Qed.

#[export] Instance KeyFromColumns_iter_proper `{GoFmt} :
  Proper ((≡ₚ) ==> (=) ==> (=) ==> (=) ==> (=)) KeyFromColumns_iter.
Proof.
  intros n n' Hn f ? <- r ? <- cols ? <-. unfold KeyFromColumns_iter.
  destruct cols; [by rewrite Hn|done].
Qed.

(** A key does not depend on the map's iteration order: any order of the
    row's column names gives the same key, also for the whole-row fallback of a
    table without key columns. *)
Theorem KeyFromColumns_iteration_order `{GoFmt} (names : list string) (fqtn : string)
    (r : row) (cols : list string) :
  names ≡ₚ row_names r →
  KeyFromColumns_iter names fqtn r cols = KeyFromColumns fqtn r cols.
Proof. intros Hn. unfold KeyFromColumns. by rewrite Hn. Qed.

Lemma KeyFromColumns_iteration_order_witness :
  @KeyFromColumns_iter sampleFmt ["y"; "x"] "db.t" (sample_row (VInt 7) (VString "v")) [] =
  @KeyFromColumns sampleFmt "db.t" (sample_row (VInt 7) (VString "v")) [].
Proof. apply (@KeyFromColumns_iteration_order sampleFmt). decide_closed. Defined.

Lemma FQTN_nonempty m : FQTN m ≠ "".
Proof. unfold FQTN. intros [_ H]%str_app_eq_nil. by rewrite str_app_cons in H. Qed.

Lemma KeyFromColumns_nonempty `{GoFmt} fqtn r cols : fqtn ≠ "" → KeyFromColumns fqtn r cols ≠ "".
Proof.
  intros Hf. unfold KeyFromColumns, KeyFromColumns_iter. rewrite append_columns_text.
  by intros [? _]%str_app_eq_nil.
Qed.

Lemma DefaultKey_nonempty `{GoFmt} ov e : DefaultKey ov e ≠ "".
Proof.
  unfold DefaultKey. pose proof (FQTN_nonempty (EvSource e)).
  repeat case_decide; try done; case_match; try done; by apply KeyFromColumns_nonempty.
Qed.

Lemma DefaultKey_stable `{GoFmt} ov e : DefaultKey ov (set_Key e (DefaultKey ov e)) = DefaultKey ov e.
Proof.
  pose proof (DefaultKey_nonempty ov e) as Hne. unfold DefaultKey at 1. simpl.
  change (Row (set_Key e (DefaultKey ov e))) with (Row e).
  rewrite (decide_False _ _ Hne). unfold DefaultKey.
  destruct (decide (size ov = 0%nat)); [done|].
  by destruct (ov !! FQTN (EvSource e)) as [cols|].
Qed.
