(* ===== verification/Channel.v ===== *)
(** * Buffered Go channels

    A channel is its buffer, its capacity and whether it was closed.  A send into
    a full channel and a receive from an empty open one block: the operation is
    not enabled ([None]).  Every channel of the pipeline is buffered. *)

From S2P Require Import Prelude.

Record chan (A : Type) := Chan {
  ch_buf : list A;
  ch_cap : nat;
  ch_closed : bool;
}.
Arguments Chan {A} _ _ _.
Arguments ch_buf {A} _.
Arguments ch_cap {A} _.
Arguments ch_closed {A} _.

Section chan.
Context {A : Type}.
Implicit Types (c : chan A) (x : A).

(** [make(chan A, cap)]. *)
Definition chan_make (cap : nat) : chan A := Chan [] cap false.

(** [c <- x]; a send on a closed channel panics and is not a step either. *)
Definition chan_send (x : A) c : option (chan A) :=
  if ch_closed c then None
  else if decide (length (ch_buf c) < ch_cap c)%nat
       then Some (Chan (ch_buf c ++ [x]) (ch_cap c) (ch_closed c))
       else None.

(** [x, ok := <-c] with [ok = true]. *)
Definition chan_recv c : option (A * chan A) :=
  match ch_buf c with
  | [] => None
  | x :: xs => Some (x, Chan xs (ch_cap c) (ch_closed c))
  end.

(** [x, ok := <-c] with [ok = false]: closed and drained. *)
Definition chan_drained c : bool := ch_closed c && bool_decide (ch_buf c = []).

Definition chan_close c : chan A := Chan (ch_buf c) (ch_cap c) true.

Definition chan_full c : bool := bool_decide (ch_cap c ≤ length (ch_buf c))%nat.

Lemma chan_send_Some x c c' :
  chan_send x c = Some c' →
  ch_closed c = false ∧ (length (ch_buf c) < ch_cap c)%nat ∧
  c' = Chan (ch_buf c ++ [x]) (ch_cap c) false.
Proof.
  unfold chan_send. destruct (ch_closed c) eqn:?; [done|].
  destruct (decide _); [|done]. by intros [= <-].
Qed.

Lemma chan_recv_Some x c c' :
  chan_recv c = Some (x, c') →
  ch_buf c = x :: ch_buf c' ∧ ch_cap c' = ch_cap c ∧ ch_closed c' = ch_closed c.
Proof. unfold chan_recv. destruct (ch_buf c) eqn:?; [done|]. by intros [= -> <-]. Qed.

Lemma chan_drained_spec c : chan_drained c = true ↔ ch_closed c = true ∧ ch_buf c = [].
Proof. unfold chan_drained. by rewrite andb_true_iff, bool_decide_eq_true. Qed.

Lemma chan_full_send x c : chan_full c = true → chan_send x c = None.
Proof.
  unfold chan_full, chan_send. rewrite bool_decide_eq_true. intros.
  destruct (ch_closed c); [done|]. by destruct (decide _); [lia|].
Qed.
End chan.
