(* ===== verification/Dispatcher.v ===== *)
(** * Package dispatch: the dispatcher

    [New], [Pick], [flush], [flushAll], [Run] and [Depths] of
    pkg/dispatch/dispatch.go.  [Run] is a labelled transition system whose
    states are the points where the goroutine can block or be observed, so that
    the source, the publishers and a cancellation interleave with it freely. *)

From S2P Require Import Prelude GoStd State Event Keys Channel.

Abbreviation batch := (list NomiosEvent).

Record Dispatcher := mkDispatcher {
  queues : list (chan batch);
  staging : list batch;
  flushSize : Z;
}.

(** ** Construction *)
Definition New (n eventCapacity flushSize : Z) : Dispatcher :=
  let n := if decide (n < 1)%Z then 1%Z else n in
  let flushSize := if decide (flushSize < 1)%Z then 256%Z else flushSize in
  let batches := Z.quot eventCapacity flushSize in
  let batches := if decide (batches < 2)%Z then 2%Z else batches in
  mkDispatcher (replicate (Z.to_nat n) (chan_make (Z.to_nat batches)))
    (replicate (Z.to_nat n) []) flushSize.

(** ** Routing: FNV-1a over the key *)
Fixpoint fnv1a (h : Z) (k : string) : Z :=
  match k with
  | "" => h
  | String c k => fnv1a (u32 (Z.lxor h (byte_val c) * 16777619)) k
  end.

Definition fnv_offset : Z := 2166136261.

Definition queue_index (n : nat) (k : string) : nat :=
  Z.to_nat (fnv1a fnv_offset k `mod` u32 (Z.of_nat n)).

(** [Pick] also stores the routed key in the event. *)
Definition Pick (key : NomiosEvent → string) (d : Dispatcher) (e : NomiosEvent) :
    NomiosEvent * nat :=
  let k := key e in (set_Key e k, queue_index (length (queues d)) k).

Definition Depths (d : Dispatcher) : list Z :=
  (λ q, Z.of_nat (length (ch_buf q)) * flushSize d)%Z <$> queues d.

(** ** The goroutine of [Run] *)

(** What follows a [flushAll]: the next turn of the loop (idle input, ticker) or
    the return of [Run] (input closed). *)
Inductive all_cont := ALoop | AReturn.

(** What follows a successful [flush]. *)
Inductive flush_cont :=
  | KRoute (rest : batch)                (* the range over the input batch *)
  | KAll (next : nat) (k : all_cont).    (* the range over the queues *)

Inductive dpc :=
  | PLoop                                (* at the select *)
  | PRoute (rest : batch)                (* in the range over the input batch *)
  | PFlush (i : nat) (k : flush_cont)    (* in flush(i) *)
  | PAll (i : nat) (k : all_cont)        (* in flushAll, before queue i *)
  | PDone (r : option goerr).            (* returned *)

Record dstate := mkDState {
  d_disp : Dispatcher;
  d_in : chan batch;
  d_ctx : option goerr;        (* ctx.Err() once cancelled *)
  d_pc : dpc;
  (* observations *)
  d_sent : batch;              (* every event sent into [in], in order *)
  d_taken : batch;             (* every event [Run] received, in order *)
  d_routed : batch;            (* every event routed, with its key, in order *)
  d_received : list batch;     (* per queue, what the publisher took, flattened *)
}.

Inductive dlabel :=
  (* the environment *)
  | LSend (b : batch) | LCloseIn | LCancel (e : goerr) | LConsume (i : nat)
  (* the goroutine *)
  | LRecv | LRecvClosed | LTick | LCtxDone | LStep | LFlushSend | LFlushCtx.

Definition run_label (l : dlabel) : bool :=
  match l with LSend _ | LCloseIn | LCancel _ | LConsume _ => false | _ => true end.

Definition set_pc (s : dstate) (p : dpc) : dstate :=
  mkDState (d_disp s) (d_in s) (d_ctx s) p (d_sent s) (d_taken s) (d_routed s) (d_received s).
Definition set_disp (s : dstate) (d : Dispatcher) : dstate :=
  mkDState d (d_in s) (d_ctx s) (d_pc s) (d_sent s) (d_taken s) (d_routed s) (d_received s).

Definition after_flush (k : flush_cont) : dpc :=
  match k with KRoute rest => PRoute rest | KAll i k => PAll i k end.

(** The deferred loop closes every queue when [Run] returns. *)
Definition close_queues (d : Dispatcher) : Dispatcher :=
  mkDispatcher (chan_close <$> queues d) (staging d) (flushSize d).

Definition return_with (s : dstate) (r : option goerr) : dstate :=
  set_pc (set_disp s (close_queues (d_disp s))) (PDone r).

Section run.
Context (key : NomiosEvent → string).

(** One event of the range: pick, stage, and flush the queue when its staging
    slice is full. *)
Definition route_one (s : dstate) (e : NomiosEvent) (rest : batch) : option dstate :=
  let d := d_disp s in
  let '(e', i) := Pick key d e in
  st ← staging d !! i;
  let st' := st ++ [e'] in
  let d' := mkDispatcher (queues d) (<[i := st']> (staging d)) (flushSize d) in
  Some (mkDState d' (d_in s) (d_ctx s)
    (if decide (flushSize d ≤ Z.of_nat (length st'))%Z then PFlush i (KRoute rest)
     else PRoute rest)
    (d_sent s) (d_taken s) (d_routed s ++ [e']) (d_received s)).

(** The deterministic moves: none of them waits. *)
Definition internal_step (s : dstate) : option dstate :=
  match d_pc s with
  | PRoute (e :: rest) => route_one s e rest
  | PRoute [] =>
      Some (set_pc s (if decide (ch_buf (d_in s) = []) then PAll 0 ALoop else PLoop))
  | PFlush i k =>
      match staging (d_disp s) !! i with
      | Some [] => Some (set_pc s (after_flush k))
      | _ => None
      end
  | PAll i k =>
      if decide (i < length (queues (d_disp s)))%nat then Some (set_pc s (PFlush i (KAll (S i) k)))
      else match k with
           | ALoop => Some (set_pc s PLoop)
           | AReturn => Some (return_with s None)
           end
  | _ => None
  end.

(** The send case of [flush]'s select. *)
Definition flush_send (s : dstate) : option dstate :=
  match d_pc s with
  | PFlush i k =>
      let d := d_disp s in
      st ← staging d !! i;
      q ← queues d !! i;
      if decide (st = []) then None
      else
        q' ← chan_send st q;
        Some (set_pc (set_disp s
          (mkDispatcher (<[i := q']> (queues d)) (<[i := []]> (staging d)) (flushSize d)))
          (after_flush k))
  | _ => None
  end.

Definition dstep (l : dlabel) (s : dstate) : option dstate :=
  match l with
  | LSend b =>
      c ← chan_send b (d_in s);
      Some (mkDState (d_disp s) c (d_ctx s) (d_pc s) (d_sent s ++ b) (d_taken s) (d_routed s)
              (d_received s))
  | LCloseIn =>
      if ch_closed (d_in s) then None
      else Some (mkDState (d_disp s) (chan_close (d_in s)) (d_ctx s) (d_pc s) (d_sent s)
                   (d_taken s) (d_routed s) (d_received s))
  | LCancel e =>
      if decide (d_ctx s = None)
      then Some (mkDState (d_disp s) (d_in s) (Some e) (d_pc s) (d_sent s) (d_taken s)
                   (d_routed s) (d_received s))
      else None
  | LConsume i =>
      q ← queues (d_disp s) !! i;
      r ← d_received s !! i;
      bq ← chan_recv q;
      Some (mkDState
        (mkDispatcher (<[i := bq.2]> (queues (d_disp s))) (staging (d_disp s))
           (flushSize (d_disp s)))
        (d_in s) (d_ctx s) (d_pc s) (d_sent s) (d_taken s) (d_routed s)
        (<[i := r ++ bq.1]> (d_received s)))
  | LRecv =>
      match d_pc s with
      | PLoop =>
          bc ← chan_recv (d_in s);
          Some (mkDState (d_disp s) bc.2 (d_ctx s) (PRoute bc.1) (d_sent s)
                  (d_taken s ++ bc.1) (d_routed s) (d_received s))
      | _ => None
      end
  | LRecvClosed =>
      match d_pc s with
      | PLoop => if chan_drained (d_in s) then Some (set_pc s (PAll 0 AReturn)) else None
      | _ => None
      end
  | LTick => match d_pc s with PLoop => Some (set_pc s (PAll 0 ALoop)) | _ => None end
  | LCtxDone =>
      match d_pc s, d_ctx s with
      | PLoop, Some e => Some (return_with s (Some e))
      | _, _ => None
      end
  | LStep => internal_step s
  | LFlushSend => flush_send s
  | LFlushCtx =>
      match d_pc s, d_ctx s with
      | PFlush i _, Some e =>
          match staging (d_disp s) !! i with
          | Some (_ :: _) => Some (return_with s (Some e))
          | _ => None
          end
      | _, _ => None
      end
  end.

(** [Run] starts at its select, on a dispatcher from [New] and an empty input
    channel of capacity [cap]. *)
Definition dinit (d : Dispatcher) (cap : nat) : dstate :=
  mkDState d (chan_make cap) None PLoop [] [] [] (replicate (length (queues d)) []).
End run.

(** ** Inversion of a step

    Every enabled action is one of the following; the lemmas below reason on
    these cases rather than on the definition. *)
Section cases.
Context (key : NomiosEvent → string).

Definition picked (e : NomiosEvent) : NomiosEvent := set_Key e (key e).

(** The queue of a routed event. *)
Definition queue_of (n : nat) (e : NomiosEvent) : nat := queue_index n (Key e).

Inductive dcase : dlabel → dstate → dstate → Prop :=
  | case_send d c x p se ta ro re b c' :
      chan_send b c = Some c' →
      dcase (LSend b) (mkDState d c x p se ta ro re) (mkDState d c' x p (se ++ b) ta ro re)
  | case_close d c x p se ta ro re :
      ch_closed c = false →
      dcase LCloseIn (mkDState d c x p se ta ro re) (mkDState d (chan_close c) x p se ta ro re)
  | case_cancel d c p se ta ro re e :
      dcase (LCancel e) (mkDState d c None p se ta ro re) (mkDState d c (Some e) p se ta ro re)
  | case_consume qs st fs c x p se ta ro re i q r b q' :
      qs !! i = Some q → re !! i = Some r → chan_recv q = Some (b, q') →
      dcase (LConsume i) (mkDState (mkDispatcher qs st fs) c x p se ta ro re)
        (mkDState (mkDispatcher (<[i := q']> qs) st fs) c x p se ta ro (<[i := r ++ b]> re))
  | case_recv d c x se ta ro re b c' :
      chan_recv c = Some (b, c') →
      dcase LRecv (mkDState d c x PLoop se ta ro re)
        (mkDState d c' x (PRoute b) se (ta ++ b) ro re)
  | case_recv_closed d c x se ta ro re :
      chan_drained c = true →
      dcase LRecvClosed (mkDState d c x PLoop se ta ro re)
        (mkDState d c x (PAll 0 AReturn) se ta ro re)
  | case_tick d c x se ta ro re :
      dcase LTick (mkDState d c x PLoop se ta ro re) (mkDState d c x (PAll 0 ALoop) se ta ro re)
  | case_ctx_done d c e se ta ro re :
      dcase LCtxDone (mkDState d c (Some e) PLoop se ta ro re)
        (mkDState (close_queues d) c (Some e) (PDone (Some e)) se ta ro re)
  | case_route qs st fs c x se ta ro re e rest sti :
      st !! queue_of (length qs) (picked e) = Some sti →
      dcase LStep (mkDState (mkDispatcher qs st fs) c x (PRoute (e :: rest)) se ta ro re)
        (mkDState
          (mkDispatcher qs (<[queue_of (length qs) (picked e) := sti ++ [picked e]]> st) fs) c x
          (if decide (fs ≤ Z.of_nat (length (sti ++ [picked e])))%Z
           then PFlush (queue_of (length qs) (picked e)) (KRoute rest) else PRoute rest)
          se ta (ro ++ [picked e]) re)
  | case_range_end d c x se ta ro re :
      dcase LStep (mkDState d c x (PRoute []) se ta ro re)
        (mkDState d c x (if decide (ch_buf c = []) then PAll 0 ALoop else PLoop) se ta ro re)
  | case_flush_empty d c x i k se ta ro re :
      staging d !! i = Some [] →
      dcase LStep (mkDState d c x (PFlush i k) se ta ro re)
        (mkDState d c x (after_flush k) se ta ro re)
  | case_all_next d c x i k se ta ro re :
      (i < length (queues d))%nat →
      dcase LStep (mkDState d c x (PAll i k) se ta ro re)
        (mkDState d c x (PFlush i (KAll (S i) k)) se ta ro re)
  | case_all_loop d c x i se ta ro re :
      (length (queues d) ≤ i)%nat →
      dcase LStep (mkDState d c x (PAll i ALoop) se ta ro re) (mkDState d c x PLoop se ta ro re)
  | case_all_return d c x i se ta ro re :
      (length (queues d) ≤ i)%nat →
      dcase LStep (mkDState d c x (PAll i AReturn) se ta ro re)
        (mkDState (close_queues d) c x (PDone None) se ta ro re)
  | case_flush_send qs st fs c x i k se ta ro re q sti q' :
      st !! i = Some sti → qs !! i = Some q → sti ≠ [] → chan_send sti q = Some q' →
      dcase LFlushSend (mkDState (mkDispatcher qs st fs) c x (PFlush i k) se ta ro re)
        (mkDState (mkDispatcher (<[i := q']> qs) (<[i := []]> st) fs) c x (after_flush k)
           se ta ro re)
  | case_flush_ctx d c e i k se ta ro re sti :
      staging d !! i = Some sti → sti ≠ [] →
      dcase LFlushCtx (mkDState d c (Some e) (PFlush i k) se ta ro re)
        (mkDState (close_queues d) c (Some e) (PDone (Some e)) se ta ro re).

Lemma dstep_case l s s' : dstep key l s = Some s' → dcase l s s'.
Proof.
  destruct s as [[qs st fs] c x p se ta ro re].
  destruct l; unfold dstep, flush_send, internal_step, route_one, set_pc, set_disp, return_with; simpl.
  - destruct (chan_send b c) eqn:E; simpl; intros [= <-]. by constructor.
  - destruct (ch_closed c) eqn:E; intros [= <-]. by constructor.
  - destruct x; simpl; intros [= <-]. by constructor.
  - destruct (qs !! i) as [q|] eqn:Hq; simpl; [|done].
    destruct (re !! i) as [r|] eqn:Hr; simpl; [|done].
    destruct (chan_recv q) as [[b q']|] eqn:E; simpl; intros [= <-]. by econstructor.
  - destruct p; try done. destruct (chan_recv c) as [[b c']|] eqn:E; simpl; intros [= <-].
    by constructor.
  - destruct p; try done. destruct (chan_drained c) eqn:E; intros [= <-]. by constructor.
  - destruct p; try done. intros [= <-]. by constructor.
  - destruct p; try done. destruct x; intros [= <-]. constructor.
  - destruct p as [|[|e rest]|i k|i k|r]; try done.
    + intros [= <-]. constructor.
    + destruct (st !! _) as [sti|] eqn:E; simpl; [|done]. intros [= <-]. by constructor.
    + destruct (st !! i) as [[|]|] eqn:E; intros [= <-]. by constructor.
    + destruct (decide _); [intros [= <-]; by constructor|].
      destruct k; intros [= <-]; constructor; simpl; lia.
  - destruct p as [| |i k| |]; try done.
    destruct (st !! i) as [sti|] eqn:Hst; simpl; [|done].
    destruct (qs !! i) as [q|] eqn:Hq; simpl; [|done].
    destruct (decide (sti = [])); [done|].
    destruct (chan_send sti q) eqn:E; simpl; intros [= <-]. by econstructor.
  - destruct p as [| |i k| |]; try done. destruct x; [|done].
    destruct (st !! i) as [[|e0 sti]|] eqn:E; intros [= <-]. by econstructor.
Qed.
End cases.

(** ** Conservation and order *)

(** The events of the current input batch still to be routed. *)
Definition pc_rest (p : dpc) : batch :=
  match p with PRoute rest => rest | PFlush _ (KRoute rest) => rest | _ => [] end.

(** Everything that went through queue [i]: taken by its publisher, buffered in
    the channel, staged. *)
Definition lane (qs : list (chan batch)) (st re : list batch) (i : nat) : option batch :=
  r ← re !! i; q ← qs !! i; s ← st !! i; Some (r ++ mjoin (ch_buf q) ++ s).

Definition routed_to (n i : nat) (l : batch) : batch := filter (λ e, queue_of n e = i) l.

Lemma routed_to_snoc n i l e :
  routed_to n i (l ++ [e]) = routed_to n i l ++ (if decide (queue_of n e = i) then [e] else []).
Proof. unfold routed_to. rewrite filter_app, filter_cons. by case_decide. Qed.

Section conserve.
Context (key : NomiosEvent → string).

Definition routed_ok (p : dpc) (ta ro : batch) : Prop :=
  match p with
  | PDone (Some _) => ro `prefix_of` (picked key <$> ta)
  | _ => ro ++ (picked key <$> pc_rest p) = picked key <$> ta
  end.

Record dconserve (n : nat) (s : dstate) : Prop := {
  dc_queues : length (queues (d_disp s)) = n;
  dc_in : d_taken s ++ mjoin (ch_buf (d_in s)) = d_sent s;
  dc_routed : routed_ok (d_pc s) (d_taken s) (d_routed s);
  dc_lane : ∀ i, (i < n)%nat →
    lane (queues (d_disp s)) (staging (d_disp s)) (d_received s) i =
    Some (routed_to n i (d_routed s));
}.

Lemma lane_Some qs st re i l :
  lane qs st re i = Some l →
  ∃ r q s, re !! i = Some r ∧ qs !! i = Some q ∧ st !! i = Some s ∧ l = r ++ mjoin (ch_buf q) ++ s.
Proof.
  unfold lane. destruct (re !! i), (qs !! i), (st !! i); simpl; try done.
  intros [= <-]. eauto 10.
Qed.

Lemma lane_close qs st re i : lane (chan_close <$> qs) st re i = lane qs st re i.
Proof. unfold lane. rewrite list_lookup_fmap. by destruct (re !! i), (qs !! i). Qed.

Lemma lane_intro qs st re i r q s :
  re !! i = Some r → qs !! i = Some q → st !! i = Some s →
  lane qs st re i = Some (r ++ mjoin (ch_buf q) ++ s).
Proof. unfold lane. by intros -> -> ->. Qed.

(** The pc of a step that routes nothing keeps what is left of the batch. *)
Lemma routed_ok_same p p' ta ro :
  (∀ r, p ≠ PDone r) → (∀ e, p' ≠ PDone (Some e)) → pc_rest p' = pc_rest p →
  routed_ok p ta ro → routed_ok p' ta ro.
Proof.
  intros Hp Hp' Heq. unfold routed_ok. rewrite Heq.
  destruct p as [| | | |[]], p' as [| | | |[]]; try done; naive_solver.
Qed.

Lemma routed_ok_fail p e ta ro :
  (∀ r, p ≠ PDone r) → routed_ok p ta ro → routed_ok (PDone (Some e)) ta ro.
Proof.
  intros Hp. assert (routed_ok p ta ro → ro ++ (picked key <$> pc_rest p) = picked key <$> ta).
  { destruct p as [| | | |[]]; naive_solver. }
  intros Hr. simpl. rewrite <-H by done. by eexists.
Qed.

Lemma pc_rest_after k : pc_rest (after_flush k) = pc_rest (PFlush 0 k).
Proof. by destruct k. Qed.

Lemma dconserve_consume n qs st fs c x p se ta ro re i q r b q' :
  qs !! i = Some q → re !! i = Some r → chan_recv q = Some (b, q') →
  dconserve n (mkDState (mkDispatcher qs st fs) c x p se ta ro re) →
  dconserve n (mkDState (mkDispatcher (<[i:=q']> qs) st fs) c x p se ta ro (<[i:=r ++ b]> re)).
Proof.
  intros Hq Hr (Hb&_&_)%chan_recv_Some [? ? ? Hl]; split; simpl in *; try done.
  - by rewrite length_insert.
  - intros j Hj. pose proof (Hl j Hj) as Hlj.
    apply lane_Some in Hlj as (r'&q0&s&Hr'&Hq0&Hs&Heq).
    pose proof (lookup_lt_Some _ _ _ Hq). pose proof (lookup_lt_Some _ _ _ Hr).
    destruct (decide (i = j)) as [<-|Hne].
    + simplify_eq. erewrite lane_intro by (by rewrite ?list_lookup_insert_eq).
      rewrite Heq, Hb. simpl. by rewrite <-!(assoc_L (++)).
    + erewrite lane_intro by (by rewrite ?list_lookup_insert_ne). by rewrite Heq.
Qed.

Lemma dconserve_route n qs st fs c x se ta ro re e rest sti p' :
  st !! queue_of (length qs) (picked key e) = Some sti →
  pc_rest p' = rest → (∀ r, p' ≠ PDone r) →
  dconserve n (mkDState (mkDispatcher qs st fs) c x (PRoute (e :: rest)) se ta ro re) →
  dconserve n (mkDState
    (mkDispatcher qs (<[queue_of (length qs) (picked key e) := sti ++ [picked key e]]> st) fs)
    c x p' se ta (ro ++ [picked key e]) re).
Proof.
  intros Hsti Hp' Hnd [Hn ? Hrt Hl]; simpl in *; subst n. split; simpl; try done.
  - assert (routed_ok p' ta (ro ++ [picked key e]) ↔
      (ro ++ [picked key e]) ++ (picked key <$> pc_rest p') = picked key <$> ta) as ->
      by (destruct p' as [| | | |[]]; naive_solver).
    rewrite Hp', <-Hrt. by rewrite <-(assoc_L (++)).
  - intros j Hj. pose proof (Hl j Hj) as Hlj.
    apply lane_Some in Hlj as (r'&q0&s&Hr'&Hq0&Hs&Heq).
    rewrite routed_to_snoc, Heq. pose proof (lookup_lt_Some _ _ _ Hsti).
    destruct (decide (queue_of (length qs) (picked key e) = j)) as [<-|Hne].
    + simplify_eq. erewrite lane_intro by (by rewrite ?list_lookup_insert_eq).
      by rewrite <-!(assoc_L (++)).
    + erewrite lane_intro by (by rewrite ?list_lookup_insert_ne). by rewrite app_nil_r.
Qed.

Lemma dconserve_flush n qs st fs c x i k se ta ro re q sti q' :
  st !! i = Some sti → qs !! i = Some q → chan_send sti q = Some q' →
  dconserve n (mkDState (mkDispatcher qs st fs) c x (PFlush i k) se ta ro re) →
  dconserve n (mkDState (mkDispatcher (<[i:=q']> qs) (<[i:=[]]> st) fs) c x (after_flush k)
    se ta ro re).
Proof.
  intros Hst Hq (_&_&->)%chan_send_Some [Hn ? Hrt Hl]; simpl in *; subst n. split; simpl; try done.
  - by rewrite length_insert.
  - apply (routed_ok_same (PFlush i k)); [done|by destruct k|apply pc_rest_after|exact Hrt].
  - intros j Hj. pose proof (Hl j Hj) as Hlj.
    apply lane_Some in Hlj as (r'&q0&s&Hr'&Hq0&Hs&Heq). rewrite Heq.
    pose proof (lookup_lt_Some _ _ _ Hst).
    destruct (decide (i = j)) as [<-|Hne].
    + simplify_eq. erewrite lane_intro by (by rewrite ?list_lookup_insert_eq). simpl.
      by rewrite join_app, app_nil_r; simpl; rewrite app_nil_r.
    + by erewrite lane_intro by (by rewrite ?list_lookup_insert_ne).
Qed.

Lemma dconserve_step n l s s' : dconserve n s → dstep key l s = Some s' → dconserve n s'.
Proof.
  intros Hinv Hstep%dstep_case. destruct Hstep.
  - destruct (chan_send_Some _ _ _ H) as (_&_&->). destruct Hinv; split; simpl in *; try done.
    rewrite join_app. simpl. rewrite app_nil_r, <-dc_in0. by rewrite (assoc_L (++)).
  - by destruct Hinv; split.
  - by destruct Hinv; split.
  - eapply dconserve_consume; eauto.
  - apply chan_recv_Some in H as (Hb&_). destruct Hinv; split; simpl in *; try done.
    + rewrite <-dc_in0, Hb. simpl. by rewrite (assoc_L (++)).
    + rewrite app_nil_r in dc_routed0. by rewrite dc_routed0, fmap_app.
  - by destruct Hinv; split.
  - by destruct Hinv; split.
  - destruct Hinv; split; simpl in *; try done.
    + by rewrite length_fmap.
    + by apply (routed_ok_fail PLoop).
    + intros. rewrite lane_close. auto.
  - eapply dconserve_route; eauto; by case_decide.
  - destruct Hinv; split; simpl in *; try done. by case_decide.
  - destruct Hinv; split; simpl in *; try done.
    apply (routed_ok_same (PFlush i k)); [done|by destruct k|apply pc_rest_after|done].
  - by destruct Hinv; split.
  - by destruct Hinv; split.
  - destruct Hinv; split; simpl in *; try done; [by rewrite length_fmap|].
    intros. rewrite lane_close. auto.
  - eapply dconserve_flush; eauto.
  - destruct Hinv; split; simpl in *; try done; [by rewrite length_fmap| |].
    + by apply (routed_ok_fail (PFlush i k)).
    + intros. rewrite lane_close. auto.
Qed.

Lemma dconserve_init d cap :
  Forall (λ q, ch_buf q = []) (queues d) → Forall (.= []) (staging d) →
  length (staging d) = length (queues d) →
  dconserve (length (queues d)) (dinit d cap).
Proof.
  intros Hq Hst Hlen. split; simpl; try done. intros i Hi.
  destruct (lookup_lt_is_Some_2 (queues d) i Hi) as [q Hqi].
  destruct (lookup_lt_is_Some_2 (staging d) i) as [s Hsi]; [lia|].
  erewrite lane_intro; [|by apply lookup_replicate_2|done|done].
  rewrite Forall_forall in Hq. rewrite Forall_forall in Hst. rewrite (Hq q), (Hst s) by (by eapply list_elem_of_lookup_2).
  done.
Qed.
End conserve.

(** ** Sizes, capacities and closing *)
Section sizes.
Context (key : NomiosEvent → string).

Definition is_done (p : dpc) : bool := match p with PDone _ => true | _ => false end.

(** What holds of one queue's channel. *)
Definition queue_ok (cap : nat) (fs : Z) (closed : bool) (q : chan batch) : Prop :=
  ch_cap q = cap ∧ (length (ch_buf q) ≤ cap)%nat ∧ ch_closed q = closed ∧
  Forall (λ b : batch, (1 ≤ Z.of_nat (length b) ≤ fs)%Z) (ch_buf q).

(** A staging slice reaches the flush size only while it is being flushed. *)
Definition stage_ok (fs : Z) (p : dpc) (i : nat) (st : batch) : Prop :=
  (Z.of_nat (length st) ≤ fs)%Z ∧
  (Z.of_nat (length st) = fs → (∃ k, p = PFlush i k) ∨ (∃ e, p = PDone (Some e))).

(** The queues before [i] have been flushed by the running [flushAll]. *)
Definition flushed_below (st : list batch) (i : nat) : Prop :=
  ∀ j s, (j < i)%nat → st !! j = Some s → s = [].

Definition all_ok (p : dpc) (st : list batch) (c : chan batch) : Prop :=
  match p with
  | PAll i k =>
      flushed_below st i ∧ (k = AReturn → chan_drained c = true)
  | PFlush i (KAll m k) =>
      m = S i ∧ flushed_below st i ∧ (k = AReturn → chan_drained c = true)
  | PDone None => flushed_below st (length st) ∧ chan_drained c = true
  | _ => True
  end.

Record dsizes (cap : nat) (fs : Z) (s : dstate) : Prop := {
  ds_fs : flushSize (d_disp s) = fs;
  ds_len : length (staging (d_disp s)) = length (queues (d_disp s));
  ds_queue : Forall (queue_ok cap fs (is_done (d_pc s))) (queues (d_disp s));
  ds_stage : ∀ i st, staging (d_disp s) !! i = Some st → stage_ok fs (d_pc s) i st;
  ds_all : all_ok (d_pc s) (staging (d_disp s)) (d_in s);
}.

Lemma stage_ok_same fs p p' i st :
  (∀ k, p ≠ PFlush i k) → (∀ e, p ≠ PDone (Some e)) → stage_ok fs p i st → stage_ok fs p' i st.
Proof. intros H1 H2 [Hle Heq]. split; [done|]. intros [[k ?]|[e ?]]%Heq; naive_solver. Qed.

Lemma stage_ok_fail fs p e i st : stage_ok fs p i st → stage_ok fs (PDone (Some e)) i st.
Proof. intros [Hle _]. split; [done|]. eauto. Qed.

Lemma stage_ok_nil fs p i : (1 ≤ fs)%Z → stage_ok fs p i [].
Proof. intros. split; simpl; lia. Qed.

Lemma flushed_below_insert st i j :
  flushed_below st j → flushed_below (<[i := []]> st) j.
Proof.
  intros Hb m s Hm. rewrite list_lookup_insert_Some. intros [(_&<-&_)|[_ ?]]; [done|eauto].
Qed.

Lemma flushed_below_S st i :
  flushed_below st i → (∀ s, st !! i = Some s → s = []) → flushed_below st (S i).
Proof. intros Hb Hi j s Hj. destruct (decide (j = i)) as [->|]; [apply Hi|apply Hb; lia]. Qed.

Lemma Forall_close cap fs qs :
  Forall (queue_ok cap fs false) qs → Forall (queue_ok cap fs true) (chan_close <$> qs).
Proof.
  intros Hq. apply Forall_fmap. eapply Forall_impl; [exact Hq|].
  intros q (?&?&?&?). by repeat split.
Qed.

Lemma all_ok_after i k st c :
  (∀ s, st !! i = Some s → s = []) → all_ok (PFlush i k) st c → all_ok (after_flush k) st c.
Proof.
  intros Hi. destruct k as [rest|m k]; simpl; [done|].
  intros (->&Hb&?). split; [by apply flushed_below_S|done].
Qed.

Lemma all_ok_in p st c c' :
  (chan_drained c = true → chan_drained c' = true) → all_ok p st c → all_ok p st c'.
Proof. intros Hc. destruct p as [| |i [|]|i k|[]]; simpl; naive_solver. Qed.

Lemma dsizes_route cap fs qs st c x se ta ro re e rest sti i :
  st !! i = Some sti →
  dsizes cap fs (mkDState (mkDispatcher qs st fs) c x (PRoute (e :: rest)) se ta ro re) →
  dsizes cap fs (mkDState (mkDispatcher qs (<[i := sti ++ [picked key e]]> st) fs) c x
    (if decide (fs ≤ Z.of_nat (length (sti ++ [picked key e])))%Z
     then PFlush i (KRoute rest) else PRoute rest)
    se ta (ro ++ [picked key e]) re).
Proof.
  intros Hsti [_ ? Hq Hst _]; simpl in *.
  destruct (Hst _ _ Hsti) as [Hle Heq].
  assert (Z.of_nat (length sti) ≠ fs) as Hne by (intros ?%Heq; naive_solver).
  split; simpl; try done.
  - by rewrite length_insert.
  - by case_decide.
  - intros j s. rewrite list_lookup_insert_Some. rewrite length_app; simpl.
    intros [(<-&<-&_)|[Hij Hs]].
    + split; rewrite length_app; simpl; [lia|]. intros. rewrite decide_True by lia. eauto.
    + eapply stage_ok_same, Hst; done.
  - by case_decide.
Qed.

Lemma dsizes_flush cap fs qs st fs0 c x i k se ta ro re q sti q' :
  (1 ≤ fs)%Z → st !! i = Some sti → qs !! i = Some q → sti ≠ [] → chan_send sti q = Some q' →
  dsizes cap fs (mkDState (mkDispatcher qs st fs0) c x (PFlush i k) se ta ro re) →
  dsizes cap fs (mkDState (mkDispatcher (<[i := q']> qs) (<[i := []]> st) fs0) c x (after_flush k)
    se ta ro re).
Proof.
  intros Hfs H H0 H1 (Hcl&Hlen&->)%chan_send_Some [Hf Hln Hq Hst Hall].
  destruct (Forall_lookup_1 _ _ _ _ Hq H0) as (Hcap&_&_&Hbuf).
  destruct (Hst _ _ H) as [Hle _]. simpl in *. subst fs0.
  split; simpl; try done.
  - by rewrite !length_insert.
  - assert (is_done (after_flush k) = false) as -> by by destruct k.
    apply Forall_insert; [done|]. repeat split; simpl; [done|rewrite length_app; simpl; lia|].
    apply Forall_app. split; [done|]. constructor; [|done].
    destruct sti; [done|]. simpl in *. lia.
  - intros j s. rewrite list_lookup_insert_Some.
    intros [(<-&<-&_)|[Hne Hs]]; [by apply stage_ok_nil|].
    eapply (stage_ok_same _ (PFlush i k)), Hst; naive_solver.
  - apply (all_ok_after i).
    + intros s. rewrite list_lookup_insert_Some. naive_solver.
    + destruct k as [|m k]; simpl in *; [done|]. destruct Hall as (?&?&?).
      repeat split; [done|by apply flushed_below_insert|done].
Qed.

Lemma dsizes_step cap fs l s s' :
  (1 ≤ fs)%Z → dsizes cap fs s → dstep key l s = Some s' → dsizes cap fs s'.
Proof.
  intros Hfs Hinv Hstep%dstep_case. destruct Hstep.
  - apply chan_send_Some in H as (Hc&_&->). destruct Hinv; split; simpl in *; try done.
    eapply all_ok_in, ds_all0. intros [? _]%chan_drained_spec. congruence.
  - destruct Hinv; split; simpl in *; try done.
    eapply all_ok_in, ds_all0. intros [_ ?]%chan_drained_spec. by apply chan_drained_spec.
  - by destruct Hinv; split.
  - apply chan_recv_Some in H1 as (Hb&Hcap&Hcl). destruct Hinv; split; simpl in *; try done.
    + by rewrite length_insert.
    + apply Forall_insert; [done|].
      destruct (Forall_lookup_1 _ _ _ _ ds_queue0 H) as (?&Hl&?&Hf).
      rewrite Hb in Hl, Hf. apply Forall_cons in Hf as [_ ?]. simpl in Hl.
      repeat split; [congruence|lia|congruence|done].
  - destruct Hinv; split; simpl in *; try done. intros. by eapply stage_ok_same, ds_stage0.
  - destruct Hinv; split; simpl in *; try done.
    + intros. by eapply stage_ok_same, ds_stage0.
    + split; [intros j ? ?; lia|done].
  - destruct Hinv; split; simpl in *; try done.
    + intros. by eapply stage_ok_same, ds_stage0.
    + split; [intros j ? ?; lia|done].
  - destruct Hinv; split; simpl in *; try done; [by rewrite length_fmap|by apply Forall_close|].
    intros. by eapply stage_ok_fail, ds_stage0.
  - assert (fs0 = fs) as -> by apply Hinv. by apply dsizes_route.
  - destruct Hinv; split; simpl in *; try done.
    + by case_decide.
    + intros. by eapply stage_ok_same, ds_stage0.
    + case_decide; [split; [intros j ? ?; lia|done]|done].
  - destruct Hinv; split; simpl in *; try done.
    + by destruct k.
    + intros j st Hj. destruct (decide (j = i)) as [->|Hne]; simplify_eq; [by apply stage_ok_nil|].
      eapply (stage_ok_same _ (PFlush i k)), ds_stage0; naive_solver.
    + apply (all_ok_after i); [|done]. naive_solver.
  - destruct Hinv; split; simpl in *; try done.
    intros. eapply (stage_ok_same _ (PAll i k)), ds_stage0; naive_solver.
  - destruct Hinv; split; simpl in *; try done.
    intros. eapply (stage_ok_same _ (PAll i ALoop)), ds_stage0; naive_solver.
  - destruct Hinv; split; simpl in *; try done; [by rewrite length_fmap|by apply Forall_close| |].
    + intros. eapply (stage_ok_same _ (PAll i AReturn)), ds_stage0; naive_solver.
    + destruct ds_all0 as [Hb Hd]. split; [|by apply Hd]. intros j s Hj. apply Hb. lia.
  - eapply dsizes_flush; [exact Hfs|exact H|exact H0|exact H1|exact H2|exact Hinv].
  - destruct Hinv; split; simpl in *; try done; [by rewrite length_fmap|by apply Forall_close|].
    intros. by eapply stage_ok_fail, ds_stage0.
Qed.
End sizes.

(** ** The dispatcher from [New] *)

Lemma New_queues n ec fs q :
  q ∈ queues (New n ec fs) →
  ∃ cap, (2 ≤ cap)%nat ∧ q = chan_make cap ∧
    Forall (.= chan_make cap) (queues (New n ec fs)).
Proof.
  unfold New. simpl. intros [-> _]%elem_of_replicate. eexists. split; [|split]; [|done|].
  - case_decide; case_decide; lia.
  - by apply Forall_replicate.
Qed.

Lemma New_length n ec fs : (1 ≤ length (queues (New n ec fs)))%nat.
Proof. unfold New. simpl. rewrite length_replicate. case_decide; lia. Qed.

Lemma New_flushSize n ec fs : (1 ≤ flushSize (New n ec fs))%Z.
Proof. unfold New. simpl. case_decide; lia. Qed.

Lemma New_staging n ec fs :
  Forall (.= []) (staging (New n ec fs)) ∧
  length (staging (New n ec fs)) = length (queues (New n ec fs)).
Proof. unfold New. simpl. rewrite !length_replicate. split; [by apply Forall_replicate|done]. Qed.

(** The capacity, in micro-batches, of each queue. *)
Definition New_cap (eventCapacity flushSize : Z) : nat :=
  let flushSize := if decide (flushSize < 1)%Z then 256%Z else flushSize in
  Nat.max 2 (Z.to_nat (Z.quot eventCapacity flushSize)).

Lemma New_cap_spec n ec fs : Forall (.= chan_make (New_cap ec fs)) (queues (New n ec fs)).
Proof.
  unfold New, New_cap. simpl. apply Forall_replicate. f_equal.
  case_decide; case_decide; lia.
Qed.

Section invariants.
Context (key : NomiosEvent → string) (n ec fs : Z) (cap : nat).

Let D := New n ec fs.

Lemma dconserve_reachable s :
  reachable (dstep key) (dinit D cap) s → dconserve key (length (queues D)) s.
Proof.
  apply reachable_invariant; [|intros; by eapply dconserve_step].
  destruct (New_staging n ec fs). apply dconserve_init; [|done..].
  eapply Forall_impl; [apply New_cap_spec|]. by intros q ->.
Qed.

Lemma dsizes_reachable s :
  reachable (dstep key) (dinit D cap) s → dsizes (New_cap ec fs) (flushSize D) s.
Proof.
  apply reachable_invariant;
    [|intros l s1 s2 Hs Hstep; eapply dsizes_step; [apply New_flushSize|exact Hs|exact Hstep]].
  destruct (New_staging n ec fs) as [Hst Hlen]. split; simpl; try done.
  - eapply Forall_impl; [apply New_cap_spec|]. intros q ->. repeat split; simpl; [lia|done].
  - intros i st Hi. rewrite Forall_forall in Hst.
    rewrite (Hst st) by (by eapply list_elem_of_lookup_2).
    apply stage_ok_nil, (New_flushSize n ec fs).
Qed.

Lemma prefix_filter {A} (P : A → Prop) `{∀ x, Decision (P x)} (l1 l2 : list A) :
  l1 `prefix_of` l2 → filter P l1 `prefix_of` filter P l2.
Proof. intros [k ->]. rewrite filter_app. by eexists. Qed.

(** What was routed is always a prefix of what was sent. *)
Lemma routed_prefix_sent m s :
  dconserve key m s → d_routed s `prefix_of` (picked key <$> d_sent s).
Proof.
  intros [_ <- Hr _]. rewrite fmap_app. apply prefix_app_r. revert Hr.
  destruct (d_pc s) as [| | | |[]]; simpl; try done;
    intros <-; by apply prefix_app_r.
Qed.
End invariants.

(** ** Properties of the dispatcher *)

Lemma u32_of_nat n : (1 ≤ Z.of_nat n < 2 ^ 32)%Z → u32 (Z.of_nat n) = Z.of_nat n.
Proof. intros. apply u32_small. lia. Qed.

Lemma queue_index_lt n k : (1 ≤ Z.of_nat n < 2 ^ 32)%Z → (queue_index n k < n)%nat.
Proof.
  intros Hn. unfold queue_index. rewrite u32_of_nat by done.
  pose proof (Z.mod_pos_bound (fnv1a fnv_offset k) (Z.of_nat n)). lia.
Qed.

(** Published FNV-1a test vectors. *)
Example fnv1a_empty : fnv1a fnv_offset "" = 0x811c9dc5%Z.
Proof. reflexivity. Qed.
Example fnv1a_a : fnv1a fnv_offset "a" = 0xe40c292c%Z.
Proof. vm_compute. reflexivity. Qed.
Example fnv1a_foobar : fnv1a fnv_offset "foobar" = 0xbf9cf968%Z.
Proof. vm_compute. reflexivity. Qed.

(** ** Liveness: with publishers that drain, [Run] can always finish *)
Section drain.
Context (key : NomiosEvent → string).

Definition pc_in_range (s : dstate) : Prop :=
  ∀ i k, d_pc s = PFlush i k → (i < length (queues (d_disp s)))%nat.

Lemma pc_in_range_step n s l s' :
  dconserve key n s → length (staging (d_disp s)) = length (queues (d_disp s)) →
  pc_in_range s → dstep key l s = Some s' → pc_in_range s'.
Proof.
  intros Hc Hlen Hin Hstep%dstep_case. unfold pc_in_range in *.
  destruct Hstep; simpl in *; intros j k' Hpc; simplify_eq; rewrite ?length_fmap, ?length_insert;
    eauto.
  - case_decide; simplify_eq. apply lookup_lt_Some in H. lia.
  - by case_decide.
  - by destruct k.
  - by destruct k.
Qed.

Definition full_at (d : Dispatcher) (i : nat) : nat :=
  match queues d !! i with Some q => if chan_full q then 1 else 0 | None => 0 end.

(** The work left before [Run] returns, input closed and no ticker. *)
Definition work (s : dstate) : nat :=
  let N := length (queues (d_disp s)) in
  let inp := sum_list_with (λ b, 4 * length b + 3 * N + 10)%nat (ch_buf (d_in s)) in
  match d_pc s with
  | PLoop => inp + (3 * N + 10)
  | PRoute rest => inp + 4 * length rest + (3 * N + 5) + (3 * N + 10)
  | PFlush i (KRoute rest) =>
      inp + 4 * length rest + (3 * N + 5) + (3 * N + 10) + 1 + full_at (d_disp s) i
  | PAll i ALoop => inp + 3 * (N - i) + 1 + (3 * N + 10)
  | PAll i AReturn => 3 * (N - i) + 1
  | PFlush i (KAll m ALoop) => inp + 3 * (N - m) + 1 + (3 * N + 10) + 1 + full_at (d_disp s) i
  | PFlush i (KAll m AReturn) => 3 * (N - m) + 1 + 1 + full_at (d_disp s) i
  | PDone _ => 0
  end%nat.

Definition draining (s : dstate) : Prop := ch_closed (d_in s) = true ∧ d_ctx s = None.

Lemma full_at_le d i : (full_at d i ≤ 1)%nat.
Proof. unfold full_at. repeat case_match; lia. Qed.

Lemma work_after (s : dstate) i k :
  d_pc s = PFlush i k → (work (set_pc s (after_flush k)) < work s)%nat.
Proof. intros Hpc. unfold work. rewrite Hpc. destruct k as [|m []]; simpl; lia. Qed.

Lemma drain_flush cap fs n qs st fs0 c i k se ta ro re :
  (2 ≤ cap)%nat →
  dconserve key n (mkDState (mkDispatcher qs st fs0) c None (PFlush i k) se ta ro re) →
  dsizes cap fs (mkDState (mkDispatcher qs st fs0) c None (PFlush i k) se ta ro re) →
  pc_in_range (mkDState (mkDispatcher qs st fs0) c None (PFlush i k) se ta ro re) →
  ch_closed c = true →
  ∃ l s', dstep key l (mkDState (mkDispatcher qs st fs0) c None (PFlush i k) se ta ro re) = Some s' ∧
    draining s' ∧ (work s' < work (mkDState (mkDispatcher qs st fs0) c None (PFlush i k) se ta ro re))%nat.
Proof.
  unfold draining, pc_in_range. simpl. intros Hcap Hcons Hsz Hin Hcl.
  assert (i < length qs)%nat as Hi by by eapply Hin.
  destruct (lookup_lt_is_Some_2 qs i Hi) as [q Hq].
  destruct (lookup_lt_is_Some_2 st i) as [sti Hsti].
  { by rewrite (ds_len _ _ _ Hsz : length st = length qs). }
  destruct sti as [|e sti].
  { exists LStep. simpl. unfold internal_step. simpl. rewrite Hsti. eexists. split; [done|].
    split; [done|]. exact (work_after (mkDState _ _ _ (PFlush i k) _ _ _ _) i k eq_refl). }
  destruct (Forall_lookup_1 _ _ _ _ (ds_queue _ _ _ Hsz) Hq) as (Hqcap&Hql&Hqc&_).
  simpl in Hqc. destruct (chan_full q) eqn:Hfull.
  - assert (∃ r, re !! i = Some r) as [r Hr].
    { destruct (lane_Some _ _ _ _ _ (dc_lane _ _ _ Hcons i ltac:(rewrite <-(dc_queues _ _ _ Hcons); done)))
        as (r&?&?&?&_). by exists r. }
    pose proof Hfull as Hf. unfold chan_full in Hf. apply bool_decide_eq_true in Hf.
    destruct (ch_buf q) as [|b bs] eqn:Hb; [simpl in *; lia|].
    exists (LConsume i). simpl. rewrite Hq. simpl. rewrite Hr. unfold chan_recv. rewrite Hb.
    simpl. eexists. split; [done|]. split; [done|].
    assert (full_at (mkDispatcher qs st fs0) i = 1%nat) as Hfa.
    { unfold full_at. simpl. by rewrite Hq, Hfull. }
    assert (full_at (mkDispatcher (<[i:=Chan bs (ch_cap q) (ch_closed q)]> qs) st fs0) i = 0%nat)
      as Hfa'.
    { unfold full_at. simpl. rewrite list_lookup_insert_eq by done.
      unfold chan_full. simpl in *. rewrite bool_decide_eq_false_2; [done|]. lia. }
    unfold work. simpl. rewrite length_insert. destruct k as [|m []]; rewrite Hfa, Hfa'; lia.
  - exists LFlushSend. simpl. unfold flush_send. simpl. rewrite Hsti. simpl. rewrite Hq. simpl.
    unfold chan_send. rewrite Hqc. unfold chan_full in Hfull.
    apply bool_decide_eq_false in Hfull. rewrite decide_True by lia. simpl.
    eexists. split; [done|]. split; [done|].
    pose proof (full_at_le (mkDispatcher qs st fs0) i).
    unfold work, set_pc, set_disp. simpl. destruct k as [|m []]; simpl; rewrite length_insert; lia.
Qed.

Lemma drain_step cap fs n s :
  (2 ≤ cap)%nat → (Z.of_nat (length (queues (d_disp s))) < 2 ^ 32)%Z →
  (1 ≤ length (queues (d_disp s)))%nat →
  dconserve key n s → dsizes cap fs s → pc_in_range s → draining s →
  (∀ r, d_pc s ≠ PDone r) →
  ∃ l s', dstep key l s = Some s' ∧ draining s' ∧ (work s' < work s)%nat.
Proof.
  destruct s as [[qs st fs0] c x p se ta ro re]. unfold draining, pc_in_range. simpl.
  intros Hcap HN1 HN2 Hcons Hsz Hin [Hcl ->] Hnd.
  destruct p as [|[|e rest]|i k|i k|r]; [..|by destruct (Hnd r)].
  - destruct (ch_buf c) as [|b bs] eqn:Hb.
    + assert (chan_drained c = true) as Hd by by apply chan_drained_spec.
      exists LRecvClosed. simpl. rewrite Hd. eexists. split; [done|]. split; [done|].
      unfold work; simpl. rewrite Hb. simpl. lia.
    + exists LRecv. simpl. unfold chan_recv. rewrite Hb. simpl. eexists. split; [done|].
      split; [done|]. unfold work; simpl. rewrite Hb. simpl. lia.
  - exists LStep. eexists. split; [done|]. split; [by simpl|]. unfold work; simpl.
    case_decide; lia.
  - exists LStep. unfold dstep, internal_step. simpl. unfold route_one. simpl.
    destruct (lookup_lt_is_Some_2 st (queue_index (length qs) (key e))) as [sti Hsti].
    { rewrite (ds_len _ _ _ Hsz : length st = length qs). apply queue_index_lt. lia. }
    rewrite Hsti. simpl. eexists. split; [done|]. split; [done|]. unfold work; simpl.
    pose proof (full_at_le (mkDispatcher qs (<[queue_index (length qs) (key e):=sti ++ [set_Key e (key e)]]> st) fs0)
      (queue_index (length qs) (key e))).
    case_decide; simpl; lia.
  - by eapply drain_flush.
  - destruct (decide (i < length qs)%nat).
    + exists LStep. unfold dstep, internal_step. simpl. rewrite decide_True by done.
      eexists. split; [done|]. split; [done|].
      pose proof (full_at_le (mkDispatcher qs st fs0) i).
      unfold work. simpl. destruct k; lia.
    + exists LStep. unfold dstep, internal_step. simpl. rewrite decide_False by done.
      destruct k; eexists; (split; [done|]); (split; [done|]); unfold work; simpl; lia.
Qed.

Definition done_ctx (s : dstate) : Prop := ∀ e, d_pc s = PDone (Some e) → d_ctx s = Some e.

Lemma done_ctx_step l s s' : done_ctx s → dstep key l s = Some s' → done_ctx s'.
Proof.
  intros Hs Hstep%dstep_case. unfold done_ctx in *.
  destruct Hstep; simpl in *; intros e' Hpc; simplify_eq; eauto.
  - by specialize (Hs _ eq_refl).
  - by case_decide.
  - by case_decide.
  - by destruct k.
  - by destruct k.
Qed.

Context (n ec fs : Z) (cap : nat).

Lemma reachable_pc s :
  reachable (dstep key) (dinit (New n ec fs) cap) s → pc_in_range s ∧ done_ctx s.
Proof.
  induction 1 as [|l s s' Hr [IH1 IH2] Hstep]; [by split|].
  pose proof (dconserve_reachable _ _ _ _ _ _ Hr). pose proof (dsizes_reachable _ _ _ _ _ _ Hr).
  split; [|by eapply done_ctx_step].
  eapply pc_in_range_step; [done|by eapply ds_len|done|done].
Qed.

Lemma drain_all s :
  (Z.of_nat (length (queues (New n ec fs))) < 2 ^ 32)%Z →
  reachable (dstep key) (dinit (New n ec fs) cap) s → draining s →
  ∃ ls s', run_labels (dstep key) ls s = Some s' ∧ d_pc s' = PDone None.
Proof.
  intros Hn. remember (work s) as w eqn:Hw. revert s Hw.
  induction w as [w IH] using lt_wf_ind. intros s -> Hr Hd.
  destruct (reachable_pc s Hr) as [Hin Hdc].
  destruct (decide (is_done (d_pc s) = true)) as [Hdone|Hnd].
  { exists [], s. split; [done|]. destruct (d_pc s) as [| | | |[e|]] eqn:Hpc; try done.
    specialize (Hdc _ Hpc). destruct Hd. congruence. }
  pose proof (dconserve_reachable _ _ _ _ _ _ Hr) as Hc.
  destruct (drain_step (New_cap ec fs) (flushSize (New n ec fs))
    (length (queues (New n ec fs))) s) as (l&s1&Hstep&Hd1&Hlt).
  - unfold New_cap. lia.
  - by rewrite (dc_queues _ _ _ Hc).
  - rewrite (dc_queues _ _ _ Hc). apply New_length.
  - done.
  - by apply (dsizes_reachable _ _ _ _ _ _ Hr).
  - done.
  - done.
  - intros r Hpc. by rewrite Hpc in Hnd.
  - destruct (IH _ Hlt s1 eq_refl) as (ls&s2&Hls&Hpc); [by econstructor|done|].
    exists (l :: ls), s2. simpl. by rewrite Hstep.
Qed.
End drain.

(** ** Properties of the dispatcher *)

(** What a queue and its publisher hold after a clean run. *)
Lemma clean_run_received (key : NomiosEvent → string) (n ec fs : Z) (cap : nat) (s : dstate)
    (i : nat) (q : chan batch) (r : batch) :
  reachable (dstep key) (dinit (New n ec fs) cap) s → d_pc s = PDone None →
  queues (d_disp s) !! i = Some q → d_received s !! i = Some r →
  ch_closed q = true ∧
  r ++ mjoin (ch_buf q) =
    routed_to (length (queues (New n ec fs))) i (picked key <$> d_sent s).
Proof.
  intros Hr Hpc Hq Hre. pose proof (dconserve_reachable _ _ _ _ _ _ Hr) as [Hn Hin Hro Hl].
  pose proof (dsizes_reachable _ _ _ _ _ _ Hr) as [_ Hlen Hqs _ Hall].
  rewrite Hpc in *. simpl in *. destruct Hall as [Hb [_ Hd]%chan_drained_spec].
  pose proof (lookup_lt_Some _ _ _ Hq) as Hi. split.
  - by destruct (Forall_lookup_1 _ _ _ _ Hqs Hq) as (_&_&?&_).
  - rewrite Hd in Hin. simpl in Hin. rewrite app_nil_r in Hin, Hro. rewrite <-Hin, <-Hro.
    rewrite <-Hn in Hl |- *. destruct (lane_Some _ _ _ _ _ (Hl i Hi)) as (?&?&st&?&?&Hst&->).
    rewrite (Hb i st) by (by rewrite ?Hlen). rewrite app_nil_r. congruence.
Qed.

(** [C14] A clean run loses, duplicates and reorders nothing: when [Run] returns
    without an error, every queue is closed and its publisher has received or
    still finds in it, in order, exactly the events sent into the input whose key
    hashes to that queue. *)
Theorem dispatcher_clean_run (key : NomiosEvent → string) (n ec fs : Z) (cap : nat) (s : dstate)
    (i : nat) (q : chan batch) (r : batch) :
  reachable (dstep key) (dinit (New n ec fs) cap) s → d_pc s = PDone None →
  queues (d_disp s) !! i = Some q → d_received s !! i = Some r →
  ch_closed q = true ∧
  r ++ mjoin (ch_buf q) =
    routed_to (length (queues (New n ec fs))) i (picked key <$> d_sent s).
Proof. apply clean_run_received. Qed.

(** Two events of one key and one of another, on a two-queue dispatcher. *)
Definition sample_ev (k : string) (n : Z) : NomiosEvent :=
  mkEvent ("e" +:+ pretty n) OpInsert None (Some {["n" := VInt64 n]})
    (mkSourceMeta "mysql" 1 "db" "t" "" "binlog.000001" 4 n) (mkTime 1000 0 0) k
    (mkPosition "" "binlog.000001" 4 n).

Definition sample_batch : batch := [sample_ev "db.t|1" 1; sample_ev "db.t|2" 2; sample_ev "db.t|1" 3].

Definition sample_labels : list dlabel :=
  [LSend sample_batch; LCloseIn; LRecv] ++
  [LStep; LStep; LStep; LFlushSend; LStep] ++
  [LStep; LStep; LStep; LFlushSend; LStep; LRecvClosed] ++
  [LStep; LStep; LStep; LStep; LStep].

Definition sample_init : dstate := dinit (New 2 8 2) 4.
Definition sample_final : dstate :=
  default sample_init (run_labels (dstep Key) sample_labels sample_init).

Lemma dispatcher_clean_run_witness :
  d_pc sample_final = PDone None ∧
  (mjoin (ch_buf (default (chan_make 0) (queues (d_disp sample_final) !! 0%nat))) =
     [sample_ev "db.t|1" 1; sample_ev "db.t|1" 3]) ∧
  ∃ q, queues (d_disp sample_final) !! 0%nat = Some q ∧ ch_closed q = true ∧
    [] ++ mjoin (ch_buf q) = routed_to 2 0 (picked Key <$> d_sent sample_final).
Proof.
  split; [vm_compute; reflexivity|]. split; [vm_compute; reflexivity|].
  eexists. split; [vm_compute; reflexivity|].
  eapply (dispatcher_clean_run Key 2 8 2 4 sample_final 0);
    [|vm_compute; reflexivity|vm_compute; reflexivity|vm_compute; reflexivity].
  apply (run_labels_reachable _ sample_labels). vm_compute. reflexivity.
Defined.

(** What a publisher has received, against what was sent. *)
Lemma received_order (key : NomiosEvent → string) (n ec fs : Z) (cap : nat) (s : dstate)
    (i : nat) (r : batch) :
  reachable (dstep key) (dinit (New n ec fs) cap) s → d_received s !! i = Some r →
  (i < length (queues (New n ec fs)))%nat →
  r `prefix_of` routed_to (length (queues (New n ec fs))) i (picked key <$> d_sent s).
Proof.
  intros Hr Hre Hi. pose proof (dconserve_reachable _ _ _ _ _ _ Hr) as Hc.
  etrans; [|apply prefix_filter, (routed_prefix_sent key _ s Hc)].
  destruct (lane_Some _ _ _ _ _ (dc_lane _ _ _ Hc i Hi)) as (r'&q&st&?&?&?&Heq).
  simplify_eq. unfold routed_to in Heq. rewrite Heq. by eexists.
Qed.

(** Per-key order holds at every moment of every run, cancelled or not: what
    the publisher of a queue has received is a prefix of the events of that queue
    in the order the source sent them. *)
Theorem dispatcher_order (key : NomiosEvent → string) (n ec fs : Z) (cap : nat) (s : dstate)
    (i : nat) (r : batch) :
  reachable (dstep key) (dinit (New n ec fs) cap) s → d_received s !! i = Some r →
  (i < length (queues (New n ec fs)))%nat →
  r `prefix_of` routed_to (length (queues (New n ec fs))) i (picked key <$> d_sent s).
Proof. apply received_order. Qed.

Definition sample_mid : dstate :=
  default sample_init
    (run_labels (dstep Key) (take 7 sample_labels ++ [LConsume 0; LCancel ECanceled]) sample_init).

Lemma dispatcher_order_witness :
  ∃ r, d_received sample_mid !! 0%nat = Some r ∧ (0 < length r)%nat ∧
    r `prefix_of` routed_to 2 0 (picked Key <$> d_sent sample_mid).
Proof.
  eexists. split; [vm_compute; reflexivity|]. split; [simpl; lia|].
  apply (dispatcher_order Key 2 8 2 4 sample_mid 0);
    [|vm_compute; reflexivity|vm_compute; lia].
  apply (run_labels_reachable _ (take 7 sample_labels ++ [LConsume 0; LCancel ECanceled])).
  vm_compute. reflexivity.
Defined.

(** [C33] Memory is bounded: in every reachable state a queue holds at most its
    capacity of micro-batches, each of 1 to [flushSize] events, and at most
    [flushSize] events are staged per queue; so a queue buffers at most
    [max 2 (eventCapacity / flushSize) * flushSize] events. *)
Theorem dispatcher_bounded (key : NomiosEvent → string) (n ec fs : Z) (cap : nat) (s : dstate)
    (i : nat) (q : chan batch) (st : batch) :
  reachable (dstep key) (dinit (New n ec fs) cap) s →
  queues (d_disp s) !! i = Some q → staging (d_disp s) !! i = Some st →
  let fsz := flushSize (New n ec fs) in
  (length (ch_buf q) ≤ New_cap ec fs)%nat ∧
  Forall (λ b : batch, 1 ≤ Z.of_nat (length b) ≤ fsz)%Z (ch_buf q) ∧
  (Z.of_nat (length (mjoin (ch_buf q))) ≤ Z.of_nat (New_cap ec fs) * fsz)%Z ∧
  (Z.of_nat (length st) ≤ fsz)%Z.
Proof.
  intros Hr Hq Hst fsz. pose proof (dsizes_reachable _ _ _ _ _ _ Hr) as Hs.
  destruct (Forall_lookup_1 _ _ _ _ (ds_queue _ _ _ Hs) Hq) as (_&Hl&_&Hf).
  destruct (ds_stage _ _ _ Hs _ _ Hst) as [Hle _].
  repeat split; try done. assert (1 ≤ fsz)%Z by apply New_flushSize.
  trans (Z.of_nat (length (ch_buf q)) * fsz)%Z; [|nia].
  clear -Hf. induction Hf as [|b bs Hb _ IH]; simpl; [lia|]. rewrite length_app. lia.
Qed.

Lemma dispatcher_bounded_witness :
  (Z.of_nat (length (mjoin (ch_buf (default (chan_make 0) (queues (d_disp sample_final) !! 0%nat))))) ≤
   Z.of_nat (New_cap 8 2) * 2)%Z.
Proof.
  refine (proj1 (proj2 (proj2 (dispatcher_bounded Key 2 8 2 4 sample_final 0 _
    (default [] (staging (d_disp sample_final) !! 0%nat)) _ _ _)))).
  - apply (run_labels_reachable _ sample_labels). vm_compute. reflexivity.
  - vm_compute. reflexivity.
  - vm_compute. reflexivity.
Defined.

(** Backpressure, never drops: while one queue is full the goroutine that
    flushes to it takes no step at all — whatever room the other queues have —
    and its staged events stay where they are; only a publisher's receive or a
    cancellation lets it move. *)
Theorem dispatcher_blocks_on_full_queue (key : NomiosEvent → string) (s : dstate) (i : nat)
    (k : flush_cont) (st : batch) (q : chan batch) (l : dlabel) :
  d_pc s = PFlush i k → staging (d_disp s) !! i = Some st → st ≠ [] →
  queues (d_disp s) !! i = Some q → chan_full q = true → d_ctx s = None →
  run_label l = true → dstep key l s = None.
Proof.
  intros Hpc Hst Hne Hq Hf Hctx. destruct l; try done; intros _; simpl.
  all: unfold internal_step, flush_send; rewrite ?Hpc, ?Hctx; try done; rewrite Hst; simpl.
  - by destruct st.
  - rewrite Hq. simpl. rewrite decide_False by done. by rewrite (chan_full_send _ _ Hf).
Qed.

(** Queue 0 of two holds its two micro-batches while queue 1 is empty. *)
Definition sample_full : dstate :=
  default sample_init
    (run_labels (dstep Key)
       ([LSend (replicate 3 (sample_ev "db.t|1" 1)); LRecv] ++
        [LStep; LFlushSend; LStep; LFlushSend; LStep])
       (dinit (New 2 1 1) 4)).

Lemma dispatcher_blocks_on_full_queue_witness :
  (ch_buf <$> (queues (d_disp sample_full) !! 1%nat)) = Some [] ∧
  dstep Key LFlushSend sample_full = None.
Proof.
  split; [vm_compute; reflexivity|].
  eapply (dispatcher_blocks_on_full_queue Key sample_full 0);
    [vm_compute; reflexivity|vm_compute; reflexivity| |vm_compute; reflexivity|
     vm_compute; reflexivity|vm_compute; reflexivity|reflexivity].
  discriminate.
Defined.

(** [C29] Liveness: once the source has closed the input, and as long as nobody
    cancels and the publishers drain their queues, [Run] can always finish
    cleanly — the queues never deadlock. *)
Theorem dispatcher_can_finish (key : NomiosEvent → string) (n ec fs : Z) (cap : nat) (s : dstate) :
  (Z.of_nat (length (queues (New n ec fs))) < 2 ^ 32)%Z →
  reachable (dstep key) (dinit (New n ec fs) cap) s →
  ch_closed (d_in s) = true → d_ctx s = None →
  ∃ ls s', run_labels (dstep key) ls s = Some s' ∧ d_pc s' = PDone None.
Proof. intros. eapply drain_all; eauto. by split. Qed.

Lemma dispatcher_can_finish_witness :
  ∃ ls s', run_labels (dstep Key) ls (default sample_init (dstep Key LCloseIn sample_full)) = Some s' ∧
    d_pc s' = PDone None.
Proof.
  apply (dispatcher_can_finish Key 2 1 1 4).
  - vm_compute. reflexivity.
  - apply (run_labels_reachable _ ([LSend (replicate 3 (sample_ev "db.t|1" 1)); LRecv] ++
        [LStep; LFlushSend; LStep; LFlushSend; LStep; LCloseIn])). vm_compute. reflexivity.
  - vm_compute. reflexivity.
  - vm_compute. reflexivity.
Defined.

(** A cancelled run drops what is staged: there is a run in which the
    context is cancelled, [Run] returns its error and closes the queues, and an
    event it had routed is in no queue — it stays in the staging slice. *)
Theorem dispatcher_cancel_drops_staged :
  ∃ ls s, run_labels (dstep Key) ls (dinit (New 1 8 4) 4) = Some s ∧
    d_pc s = PDone (Some ECanceled) ∧
    Forall (λ q, ch_closed q = true ∧ ch_buf q = []) (queues (d_disp s)) ∧
    d_received s = [[]] ∧ d_routed s = [sample_ev "db.t|1" 1] ∧
    staging (d_disp s) = [[sample_ev "db.t|1" 1]].
Proof.
  exists [LSend [sample_ev "db.t|1" 1]; LSend []; LRecv; LStep; LStep; LCancel ECanceled; LCtxDone].
  eexists. split; [vm_compute; reflexivity|]. repeat (split; [vm_compute; reflexivity|]).
  split; [repeat constructor|]. repeat split; vm_compute; reflexivity.
Qed.

(** Routing is a function of the key: the index is in range, the routed
    event carries exactly the key that was hashed and is otherwise unchanged, and
    picking a picked event again gives the same key and queue. *)
Theorem Pick_routes_by_key `{GoFmt} (ov : gmap string (list string)) (d : Dispatcher)
    (e : NomiosEvent) :
  (1 ≤ Z.of_nat (length (queues d)) < 2 ^ 32)%Z →
  let '(e', i) := Pick (DefaultKey ov) d e in
  (i < length (queues d))%nat ∧ e' = set_Key e (DefaultKey ov e) ∧
  i = queue_index (length (queues d)) (Key e') ∧ Key e' ≠ "" ∧
  Pick (DefaultKey ov) d e' = (e', i).
Proof.
  intros Hn. unfold Pick. split; [by apply queue_index_lt|]. split; [done|]. split; [done|].
  split; [apply DefaultKey_nonempty|]. rewrite DefaultKey_stable. done.
Qed.

Lemma Pick_routes_by_key_witness :
  let d := New 8 4096 256 in let e := sample_ev "db.t|1" 1 in
  let '(e', i) := Pick (@DefaultKey sampleFmt ∅) d e in
  (i < length (queues d))%nat ∧ e' = set_Key e (@DefaultKey sampleFmt ∅ e) ∧
  i = queue_index (length (queues d)) (Key e') ∧ Key e' ≠ "" ∧
  Pick (@DefaultKey sampleFmt ∅) d e' = (e', i).
Proof.
  apply (@Pick_routes_by_key sampleFmt ∅ (New 8 4096 256) (sample_ev "db.t|1" 1)).
  vm_compute. split; [discriminate|reflexivity].
Defined.
