(* ===== verification/GoText.v ===== *)
(** * Package strings and encoding/hex of the Go standard library

    What the MySQL source and the HTTP server use of them: prefixes, trimming,
    case-insensitive comparison, slices and hexadecimal text. *)

From S2P Require Import Prelude GoStd.

(** ** Prefixes *)
Fixpoint strip_prefix (p s : string) : option string :=
  match p, s with
  | "", _ => Some s
  | String a p, String b s => if decide (a = b) then strip_prefix p s else None
  | String _ _, "" => None
  end.

Lemma strip_prefix_Some p s t : strip_prefix p s = Some t ↔ s = p +:+ t.
Proof.
  revert s. induction p as [|a p IH]; intros s; simpl.
  - rewrite str_app_nil_l. naive_solver.
  - destruct s as [|b s]; rewrite str_app_cons; [done|].
    destruct (decide (a = b)) as [->|]; [rewrite IH|]; naive_solver.
Qed.

(** [strings.HasPrefix]. *)
Definition HasPrefix (s p : string) : bool := bool_decide (is_Some (strip_prefix p s)).

(** The slice [s[i:j]] within bounds. *)
Definition str_slice (i j : nat) (s : string) : string := String.substring i (j - i) s.

(** ** strings.TrimSpace *)

(** The UTF-8 encodings of the code points [unicode.IsSpace] accepts.  None is a
    part of another code point's encoding, so trimming code points is stripping
    these strings. *)
Definition space_codes : list string :=
  let b (z : Z) : ascii := ascii_of_N (Z.to_N z) in
  ((λ z, str1 (b z)) <$> ([0x09; 0x0A; 0x0B; 0x0C; 0x0D; 0x20]%Z)) ++
  [String (b 0xC2) (str1 (b 0x85)); String (b 0xC2) (str1 (b 0xA0));
   String (b 0xE1) (String (b 0x9A) (str1 (b 0x80)))]%Z ++
  ((λ z, String (b 0xE2) (String (b 0x80) (str1 (b z)))) <$>
     [0x80; 0x81; 0x82; 0x83; 0x84; 0x85; 0x86; 0x87; 0x88; 0x89; 0x8A; 0xA8; 0xA9; 0xAF])%Z ++
  [String (b 0xE2) (String (b 0x81) (str1 (b 0x9F)));
   String (b 0xE3) (String (b 0x80) (str1 (b 0x80)))]%Z.

(** Strips leading occurrences of [codes]; each turn removes a byte at least. *)
Fixpoint trim_codes (fuel : nat) (codes : list string) (s : string) : string :=
  match fuel with
  | O => s
  | S fuel =>
      match omap (λ c, strip_prefix c s) codes with
      | [] => s
      | s' :: _ => trim_codes fuel codes s'
      end
  end.

Definition TrimSpace (s : string) : string :=
  let l := trim_codes (String.length s) space_codes s in
  String.rev (trim_codes (String.length l) (String.rev <$> space_codes) (String.rev l)).

(** ** strings.EqualFold

    Against an ASCII text without k and s, whose letters fold with their other
    case only, folding is the ASCII one. *)
Definition ascii_lower (c : ascii) : ascii :=
  if Z.leb 65 (byte_val c) && Z.leb (byte_val c) 90
  then ascii_of_N (N_of_ascii c + 32) else c.

Fixpoint str_map (f : ascii → ascii) (s : string) : string :=
  match s with "" => "" | String c s => String (f c) (str_map f s) end.

Definition EqualFold (s t : string) : bool :=
  bool_decide (str_map ascii_lower s = str_map ascii_lower t).

(** ** hex.EncodeToString *)
Definition hex_digit (z : Z) : ascii :=
  ascii_of_N (Z.to_N (if decide (z < 10)%Z then z + 48 else z + 87)).

Fixpoint hex_encode (s : string) : string :=
  match s with
  | "" => ""
  | String c s =>
      String (hex_digit (Z.shiftr (byte_val c) 4))
        (String (hex_digit (Z.land (byte_val c) 15)) (hex_encode s))
  end.

Lemma hex_encode_length s : String.length (hex_encode s) = (2 * String.length s)%nat.
Proof. induction s as [|c s IH]; simpl; [done|]. rewrite IH. lia. Qed.

(** The two digits of a byte determine it. *)
Lemma hex_byte_inj c d :
  hex_digit (Z.shiftr (byte_val c) 4) = hex_digit (Z.shiftr (byte_val d) 4) →
  hex_digit (Z.land (byte_val c) 15) = hex_digit (Z.land (byte_val d) 15) → c = d.
Proof.
  assert (∀ x : ascii, x = ascii_of_N (Z.to_N
    (16 * Z.shiftr (byte_val x) 4 + Z.land (byte_val x) 15))) as Hx.
  { intros x. destruct x as [[] [] [] [] [] [] [] []]; vm_compute; reflexivity. }
  assert (∀ y z : Z, (0 ≤ y < 16)%Z → (0 ≤ z < 16)%Z → hex_digit y = hex_digit z → y = z) as Hd.
  { intros y z Hy Hz Heq. unfold hex_digit in Heq.
    apply (f_equal N_of_ascii) in Heq.
    destruct (decide (y < 10)%Z), (decide (z < 10)%Z);
      rewrite !N_ascii_embedding in Heq by lia; lia. }
  assert (∀ x : ascii, 0 ≤ Z.shiftr (byte_val x) 4 < 16 ∧ 0 ≤ Z.land (byte_val x) 15 < 16)%Z as Hb.
  { intros x. pose proof (byte_val_bound x). rewrite Z.shiftr_div_pow2 by lia.
    change 15%Z with (Z.ones 4). rewrite Z.land_ones by lia.
    split; [|apply Z.mod_pos_bound; lia].
    split; [apply Z.div_pos; lia|apply Z.div_lt_upper_bound; lia]. }
  intros H1 H2. destruct (Hb c), (Hb d).
  apply Hd in H1; [|done..]. apply Hd in H2; [|done..].
  by rewrite (Hx c), (Hx d), H1, H2.
Qed.

Lemma hex_encode_inj s t : hex_encode s = hex_encode t → s = t.
Proof.
  revert t. induction s as [|c s IH]; intros [|d t]; simpl; try done.
  intros [= H1 H2 H3]. f_equal; [by apply hex_byte_inj|by apply IH].
Qed.

Example TrimSpace_ex : TrimSpace "  begin
" = "begin".
Proof. vm_compute. reflexivity. Qed.
Example hex_ex : hex_encode "Az" = "417a".
Proof. vm_compute. reflexivity. Qed.
