(* ===== verification/GoPath.v ===== *)
(** * path.Match of the Go standard library

    The table filter matches names with [path.Match], so its algorithm is written
    out: chunks between stars, matched greedily at the first place that fits, with
    classes and [?] on UTF-8 code points.  The source ignores the error of a
    malformed pattern, which comes with a false result, so only the result is
    returned. *)

From S2P Require Import Prelude GoStd.

(** ** utf8.DecodeRuneInString *)

Definition RuneError : Z := 0xFFFD.

Definition in_range (lo hi : Z) (c : ascii) : bool :=
  bool_decide (lo ≤ byte_val c ≤ hi)%Z.

(** The low six bits of a continuation byte. *)
Definition cont_bits (c : ascii) : Z := Z.land (byte_val c) 0x3F.

(** The allowed second byte after the first byte [b0] of a 3- or 4-byte code. *)
Definition second_range (b0 : Z) : Z * Z :=
  (if decide (b0 = 0xE0) then (0xA0, 0xBF)
   else if decide (b0 = 0xED) then (0x80, 0x9F)
   else if decide (b0 = 0xF0) then (0x90, 0xBF)
   else if decide (b0 = 0xF4) then (0x80, 0x8F)
   else (0x80, 0xBF))%Z.

(** The code point and the rest of the string; an invalid byte is [RuneError] and
    one byte long.  The last component is the length. *)
Definition decode_rune (s : string) : Z * string * nat :=
  match s with
  | "" => (RuneError, "", 0%nat)
  | String c0 s1 =>
      let b0 := byte_val c0 in
      let bad := (RuneError, s1, 1%nat) in
      if bool_decide (b0 < 0x80)%Z then (b0, s1, 1%nat)
      else if in_range 0xC2 0xDF c0 then
        match s1 with
        | String c1 s2 =>
            if in_range 0x80 0xBF c1
            then (Z.lor (Z.shiftl (Z.land b0 0x1F) 6) (cont_bits c1), s2, 2%nat)
            else bad
        | "" => bad
        end
      else if in_range 0xE0 0xEF c0 then
        match s1 with
        | String c1 (String c2 s3) =>
            if in_range (second_range b0).1 (second_range b0).2 c1 && in_range 0x80 0xBF c2
            then (Z.lor (Z.shiftl (Z.land b0 0x0F) 12)
                    (Z.lor (Z.shiftl (cont_bits c1) 6) (cont_bits c2)), s3, 3%nat)
            else bad
        | _ => bad
        end
      else if in_range 0xF0 0xF4 c0 then
        match s1 with
        | String c1 (String c2 (String c3 s4)) =>
            if in_range (second_range b0).1 (second_range b0).2 c1 && in_range 0x80 0xBF c2
               && in_range 0x80 0xBF c3
            then (Z.lor (Z.shiftl (Z.land b0 0x07) 18)
                    (Z.lor (Z.shiftl (cont_bits c1) 12)
                       (Z.lor (Z.shiftl (cont_bits c2) 6) (cont_bits c3))), s4, 4%nat)
            else bad
        | _ => bad
        end
      else bad
  end.

(** ** path.Match *)

(** [scanChunk]: leading stars, then the text up to the next star that is not in
    a class. *)
Fixpoint skip_stars (pattern : string) : bool * string :=
  match pattern with
  | String c p => if decide (c = "*"%char) then (true, (skip_stars p).2) else (false, pattern)
  | "" => (false, "")
  end.

Fixpoint scan_to_star (inrange : bool) (pattern : string) : string * string :=
  match pattern with
  | "" => ("", "")
  | String c p =>
      if decide (c = "\"%char) then
        match p with
        | "" => (str1 c, "")
        | String d p' => let '(x, r) := scan_to_star inrange p' in (String c (String d x), r)
        end
      else if decide (c = "*"%char ∧ inrange = false) then ("", pattern)
      else
        let inrange := if decide (c = "["%char) then true
                       else if decide (c = "]"%char) then false else inrange in
        let '(x, r) := scan_to_star inrange p in (String c x, r)
  end.

Definition scanChunk (pattern : string) : bool * string * string :=
  let '(star, p) := skip_stars pattern in
  let '(chunk, rest) := scan_to_star false p in (star, chunk, rest).

(** [getEsc]: one possibly escaped code point of a class; [None] is a bad
    pattern. *)
Definition getEsc (chunk : string) : option (Z * string) :=
  let finish (chunk : string) :=
    let '(r, rest, n) := decode_rune chunk in
    if decide (r = RuneError ∧ n = 1%nat) then None
    else if decide (rest = "") then None else Some (r, rest) in
  match chunk with
  | "" => None
  | String c p =>
      if decide (c = "-"%char ∨ c = "]"%char) then None
      else if decide (c = "\"%char) then (if decide (p = "") then None else finish p)
      else finish chunk
  end.

(** The ranges of a class, up to its [\]]; the flag says whether [r] is in one. *)
Fixpoint match_ranges (fuel : nat) (r : Z) (chunk : string) (nrange : nat) (found : bool) :
    option (bool * string) :=
  match fuel with
  | O => None
  | S fuel =>
      match chunk, nrange with
      | String "]" rest, S _ => Some (found, rest)
      | _, _ =>
          '(lo, chunk) ← getEsc chunk;
          '(hi, chunk) ← match chunk with
                         | String "-" p => getEsc p
                         | _ => Some (lo, chunk)
                         end;
          match_ranges fuel r chunk (S nrange) (found || bool_decide (lo ≤ r ≤ hi)%Z)
      end
  end.

(** The outcome of [matchChunk]: a malformed pattern, no match, or the rest. *)
Inductive chunk_match := MBad | MFail | MOk (rest : string).

Fixpoint matchChunk_loop (fuel : nat) (failed : bool) (chunk s : string) : chunk_match :=
  match fuel with
  | O => MBad
  | S fuel =>
      match chunk with
      | "" => if failed then MFail else MOk s
      | String c p =>
          let failed := failed || bool_decide (s = "") in
          if decide (c = "["%char) then
            let '(r, rest, _) := decode_rune s in
            let s' := if failed then s else rest in
            let r' := if failed then 0%Z else r in
            let '(negated, p) := match p with
                                 | String "^" p' => (true, p')
                                 | _ => (false, p)
                                 end in
            match match_ranges (S (String.length p)) r' p 0 false with
            | None => MBad
            | Some (found, p') =>
                matchChunk_loop fuel (failed || bool_decide (found = negated)) p' s'
            end
          else if decide (c = "?"%char) then
            let '(_, rest, _) := decode_rune s in
            let slash := match s with String d _ => bool_decide (d = "/"%char) | "" => false end in
            matchChunk_loop fuel (failed || slash) p (if failed then s else rest)
          else
            (* a literal byte, escaped or not *)
            let lit := if decide (c = "\"%char) then p else chunk in
            match lit with
            | "" => MBad
            | String a p' =>
                match s with
                | String d s' =>
                    if failed then matchChunk_loop fuel failed p' s
                    else matchChunk_loop fuel (bool_decide (a ≠ d)) p' s'
                | "" => matchChunk_loop fuel true p' s
                end
            end
      end
  end.

(** Every turn consumes a byte of the chunk. *)
Definition matchChunk (chunk s : string) : chunk_match :=
  matchChunk_loop (S (String.length chunk)) false chunk s.

Fixpoint has_slash (s : string) : bool :=
  match s with "" => false | String c s => bool_decide (c = "/"%char) || has_slash s end.

(** The search past a star: the first later position, skipping no slash, where
    the chunk fits (and reaches the end when it is the last). *)
Fixpoint search_star (last : bool) (chunk name : string) : option string :=
  match name with
  | "" => None
  | String c name' =>
      if decide (c = "/"%char) then None
      else match matchChunk chunk name' with
           | MOk t => if last && negb (bool_decide (t = "")) then search_star last chunk name'
                      else Some t
           | MFail => search_star last chunk name'
           | MBad => None
           end
  end.

Fixpoint Match_loop (fuel : nat) (pattern name : string) : bool :=
  match fuel with
  | O => false
  | S fuel =>
      match pattern with
      | "" => bool_decide (name = "")
      | _ =>
          let '(star, chunk, pattern) := scanChunk pattern in
          if star && bool_decide (chunk = "") then negb (has_slash name)
          else
            let last := bool_decide (pattern = "") in
            let retry := if star then
                           match search_star last chunk name with
                           | Some t => Match_loop fuel pattern t
                           | None => false
                           end
                         else false in
            match matchChunk chunk name with
            | MOk t => if bool_decide (t = "") || negb last then Match_loop fuel pattern t
                       else retry
            | MFail => retry
            | MBad => false
            end
      end
  end.

(** [ok, _ := path.Match(pattern, name)].  Every turn consumes at least one byte
    of the pattern. *)
Definition Match (pattern name : string) : bool :=
  Match_loop (S (String.length pattern)) pattern name.

Example Match_star : Match "catalog.*_price" "catalog.seller_price" = true.
Proof. vm_compute. reflexivity. Qed.
Example Match_star_no : Match "catalog.*_price" "catalog.price" = false.
Proof. vm_compute. reflexivity. Qed.
Example Match_class : Match "db.t[0-9]?" "db.t7x" = true.
Proof. vm_compute. reflexivity. Qed.
Example Match_bad : Match "db.t[" "db.t[" = false.
Proof. vm_compute. reflexivity. Qed.
Example Match_two_stars : Match "*.t_*_x" "db.t_a_x_b_x" = true.
Proof. vm_compute. reflexivity. Qed.
Example Match_rune : Match "db.?" ("db." +:+ String "195" (str1 "169")) = true.
Proof. vm_compute. reflexivity. Qed.
