(* ===== verification/Filter.v ===== *)
(** * The table filter

    [tableFilter] of pkg/source/mysql/filter.go and the exclude list
    [mysql.New] (pkg/source/mysql/source.go) builds for it. *)

From S2P Require Import Prelude GoStd GoText GoPath.

Record tableFilter := mkFilter {
  include : list string;
  exclude : list string;
}.

Definition newTableFilter (include exclude : list string) : tableFilter :=
  mkFilter include exclude.

(** [range ... if ok { return ... }]: does some pattern match? *)
Fixpoint any_match (ps : list string) (fqtn : string) : bool :=
  match ps with
  | [] => false
  | p :: ps => if Match p fqtn then true else any_match ps fqtn
  end.

Definition match_table (f : tableFilter) (fqtn : string) : bool :=
  if any_match (exclude f) fqtn then false
  else if decide (length (include f) = 0%nat) then true
  else any_match (include f) fqtn.

(** The patterns [New] puts before the configured ones. *)
Definition system_exclude : list string :=
  ["mysql.*"; "sys.*"; "performance_schema.*"; "information_schema.*"; "*.nomios_state"].

Definition source_filter (inc exc : list string) : tableFilter :=
  newTableFilter inc (system_exclude ++ exc).

(** ** [path.Match] on the shapes the list uses *)

(** A byte that stands for itself in a pattern. *)
Definition literal_char (c : ascii) : bool :=
  negb (bool_decide (c ∈ (["*"; "?"; "["; "\"]%char : list ascii))).

Lemma literal_char_spec c :
  literal_char c = true → c ≠ "*"%char ∧ c ≠ "?"%char ∧ c ≠ "["%char ∧ c ≠ "\"%char.
Proof.
  unfold literal_char. rewrite negb_true_iff, bool_decide_eq_false.
  intros Hc. repeat split; intros ->; apply Hc; set_solver.
Qed.

Lemma matchChunk_literal_loop fuel failed chunk s :
  str_forallb literal_char chunk = true → (String.length chunk < fuel)%nat →
  matchChunk_loop fuel failed chunk s =
    if failed then MFail
    else match strip_prefix chunk s with Some t => MOk t | None => MFail end.
Proof.
  revert fuel failed s. induction chunk as [|c p IH]; intros [|fuel] failed s Hl Hf;
    simpl in *; try lia; [done|].
  apply andb_true_iff in Hl as [(?&?&?&?)%literal_char_spec Hl].
  repeat (rewrite decide_False by done).
  destruct s as [|d s']; [rewrite IH by (done || lia); by destruct failed|].
  destruct failed; [by rewrite IH by (done || lia)|].
  rewrite (bool_decide_eq_false_2 (String d s' = "")) by done. simpl.
  rewrite IH by (done || lia). destruct (decide (c = d)) as [->|].
  - by rewrite bool_decide_eq_false_2 by (intros []; done).
  - by rewrite bool_decide_eq_true_2.
Qed.

Lemma matchChunk_literal chunk s :
  str_forallb literal_char chunk = true →
  matchChunk chunk s = match strip_prefix chunk s with Some t => MOk t | None => MFail end.
Proof. intros. unfold matchChunk. rewrite matchChunk_literal_loop; [done|done|lia]. Qed.

Lemma scan_to_star_literal lit rest :
  str_forallb literal_char lit = true → rest = "" ∨ (∃ r, rest = String "*" r) →
  scan_to_star false (lit +:+ rest) = (lit, rest).
Proof.
  intros Hl Hr. induction lit as [|c lit IH]; simpl in *.
  - rewrite str_app_nil_l. destruct Hr as [->|[r ->]]; reflexivity.
  - apply andb_true_iff in Hl as [(?&?&?&?)%literal_char_spec Hl].
    rewrite ?str_app_cons; simpl. rewrite decide_False by done.
    rewrite decide_False by tauto. rewrite decide_False by done.
    destruct (decide (c = "]"%char)); by rewrite IH.
Qed.

Lemma has_slash_app s t : has_slash (s +:+ t) = has_slash s || has_slash t.
Proof.
  induction s as [|c s IH]; [by rewrite str_app_nil_l|].
  rewrite str_app_cons; simpl. by rewrite IH, orb_assoc.
Qed.

(** One turn of [path.Match] on a non-empty pattern. *)
Lemma Match_loop_eq fuel p name :
  p ≠ "" →
  Match_loop (S fuel) p name =
    let '(star, chunk, pattern) := scanChunk p in
    if star && bool_decide (chunk = "") then negb (has_slash name)
    else
      let last := bool_decide (pattern = "") in
      let retry := if star then
                     match search_star last chunk name with
                     | Some t => Match_loop fuel pattern t
                     | None => false
                     end
                   else false in
      match matchChunk chunk name with
      | MOk t => if bool_decide (t = "") || negb last then Match_loop fuel pattern t else retry
      | MFail => retry
      | MBad => false
      end.
Proof. by destruct p. Qed.

(** [lit*]: the rest of the name is anything without a slash. *)
Lemma Match_prefix lit name :
  str_forallb literal_char lit = true → lit ≠ "" →
  Match (lit +:+ "*") name = true ↔ ∃ t, name = lit +:+ t ∧ has_slash t = false.
Proof.
  intros Hl Hne. unfold Match.
  assert (scanChunk (lit +:+ "*") = (false, lit, "*")) as Hscan.
  { unfold scanChunk. assert (skip_stars (lit +:+ "*") = (false, lit +:+ "*")) as ->.
    { destruct lit as [|c lit]; [done|]. rewrite str_app_cons; simpl in *.
      apply andb_true_iff in Hl as [(?&?&?&?)%literal_char_spec ?]. by rewrite decide_False. }
    rewrite scan_to_star_literal; eauto. }
  destruct (lit +:+ "*") as [|c0 p0] eqn:Hp; [by destruct lit|].
  rewrite Match_loop_eq by done.
  rewrite Hscan. cbv beta iota zeta. simpl andb. rewrite matchChunk_literal by done.
  replace (bool_decide ("*" = "")) with false by reflexivity. simpl negb.
  destruct (strip_prefix lit name) as [t|] eqn:Hsp.
  - apply strip_prefix_Some in Hsp as ->. rewrite orb_true_r. simpl String.length.
    rewrite Match_loop_eq by done. simpl. rewrite negb_true_iff. split; [by eauto|].
    intros (t'&Heq&?). by apply str_app_inv_l in Heq as ->.
  - split; [done|]. intros (t&Heq&_). by apply strip_prefix_Some in Heq; simplify_eq.
Qed.

(** The search past a star finds a literal last chunk exactly at the end. *)
Lemma search_star_literal lit name t :
  str_forallb literal_char lit = true → lit ≠ "" →
  search_star true lit name = Some t ↔
  t = "" ∧ ∃ p, p ≠ "" ∧ name = p +:+ lit ∧ has_slash p = false.
Proof.
  intros Hl Hne. induction name as [|c name IH]; cbn [search_star].
  - split; [done|]. intros (_&p&Hp&Heq&_). by destruct p.
  - destruct (decide (c = "/"%char)) as [->|Hc].
    { split; [done|]. intros (_&p&Hp&Heq&Hs). destruct p as [|a p]; [done|].
      rewrite str_app_cons in Heq. by injection Heq as <- _. }
    assert (Hstep : (∃ p, p ≠ "" ∧ String c name = p +:+ lit ∧ has_slash p = false) ↔
      name = lit ∨ ∃ p, p ≠ "" ∧ name = p +:+ lit ∧ has_slash p = false).
    { split.
      - intros ([|a p]&Hp&Heq&Hs); [done|]. rewrite str_app_cons in Heq. simplify_eq.
        simpl in Hs. apply orb_false_iff in Hs as [_ Hs].
        destruct p as [|b p]; [left; by rewrite str_app_nil_l|right; by exists (String b p)].
      - intros [->|(p&Hp&->&Hs)]; [exists (str1 c)|exists (String c p)];
          rewrite str_app_cons, ?str_app_nil_l; simpl; rewrite bool_decide_eq_false_2 by done;
          split_and!; done. }
    rewrite Hstep, matchChunk_literal by done. clear Hstep.
    destruct (strip_prefix lit name) as [r|] eqn:Hsp.
    + pose proof Hsp as Hsp'. apply strip_prefix_Some in Hsp' as Hname.
      case_bool_decide as Hr; simpl.
      * subst r. rewrite str_app_nil_r in Hname. naive_solver.
      * rewrite IH. assert (name ≠ lit); [|naive_solver].
        intros Heq. rewrite Hname in Heq.
        rewrite <-(str_app_nil_r lit) in Heq at 2. by apply str_app_inv_l in Heq.
    + rewrite IH. assert (name ≠ lit); [|naive_solver].
      intros ->. rewrite <-(str_app_nil_r lit) in Hsp at 2.
      by rewrite (proj2 (strip_prefix_Some lit (lit +:+ "") "") eq_refl) in Hsp.
Qed.

(** [*lit]: the name ends in [lit] and has no slash before it. *)
Lemma Match_suffix lit name :
  str_forallb literal_char lit = true → lit ≠ "" →
  Match ("*" +:+ lit) name = true ↔ ∃ p, name = p +:+ lit ∧ has_slash p = false.
Proof.
  intros Hl Hne. unfold Match. rewrite str_app_cons, str_app_nil_l.
  assert (scanChunk (String "*" lit) = (true, lit, "")) as Hscan.
  { unfold scanChunk. simpl.
    assert (skip_stars lit = (false, lit)) as ->.
    { destruct lit as [|c lit]; [done|]. simpl in *.
      apply andb_true_iff in Hl as [(?&?&?&?)%literal_char_spec ?]. by rewrite decide_False. }
    simpl. pose proof (scan_to_star_literal lit "" Hl (or_introl eq_refl)) as Hs.
    rewrite str_app_nil_r in Hs. by rewrite Hs. }
  rewrite Match_loop_eq by done. rewrite Hscan. cbv beta iota zeta.
  rewrite bool_decide_eq_false_2 by done. rewrite matchChunk_literal by done.
  rewrite (bool_decide_eq_true_2 ("" = "")) by done. simpl String.length.
  assert (Hretry : match search_star true lit name with
                   | Some t => Match_loop (S (String.length lit)) "" t
                   | None => false
                   end = true ↔ ∃ p, p ≠ "" ∧ name = p +:+ lit ∧ has_slash p = false).
  { destruct (search_star true lit name) as [t|] eqn:Hss.
    - apply search_star_literal in Hss as [-> Hp]; [|done..]. simpl. naive_solver.
    - split; [done|]. intros Hp.
      assert (search_star true lit name = Some "") by (by apply search_star_literal).
      by simplify_eq. }
  assert (Hcase : (∃ p, name = p +:+ lit ∧ has_slash p = false) ↔
    name = lit ∨ ∃ p, p ≠ "" ∧ name = p +:+ lit ∧ has_slash p = false).
  { split.
    - intros (p&->&?). destruct (decide (p = "")) as [->|]; [left; by rewrite str_app_nil_l|eauto].
    - intros [->|(p&?&->&?)]; [exists ""; by rewrite str_app_nil_l|eauto]. }
  rewrite Hcase, <-Hretry. clear Hcase Hretry.
  destruct (strip_prefix lit name) as [t|] eqn:Hsp; simpl andb; cbv iota.
  - apply strip_prefix_Some in Hsp. rewrite orb_false_r. case_bool_decide as Ht.
    + subst t. rewrite str_app_nil_r in Hsp. simpl. naive_solver.
    + assert (name ≠ lit); [|naive_solver]. intros ->.
      rewrite <-(str_app_nil_r lit) in Hsp at 1. by apply str_app_inv_l in Hsp.
  - assert (name ≠ lit); [|naive_solver]. intros ->.
    by rewrite (proj2 (strip_prefix_Some lit lit "")) in Hsp by (by rewrite str_app_nil_r).
Qed.

(** ** The filter *)

Lemma any_match_spec ps n : any_match ps n = true ↔ ∃ p, p ∈ ps ∧ Match p n = true.
Proof.
  induction ps as [|p ps IH]; simpl.
  - split; [done|]. by intros (p&?%not_elem_of_nil&_).
  - destruct (Match p n) eqn:E.
    + split; [|done]. intros _. exists p. by split; [left|].
    + rewrite IH. split.
      * intros (q&?&?). exists q. by split; [right|].
      * intros (q&[->|?]%elem_of_cons&?); [congruence|by exists q].
Qed.

(** The documented contract: excluded tables never, and of the rest all when no
    pattern is included, else those one of them matches. *)
Definition captured (f : tableFilter) (n : string) : Prop :=
  (∀ p, p ∈ exclude f → Match p n = false) ∧
  (include f = [] ∨ ∃ p, p ∈ include f ∧ Match p n = true).

(** The filter decides its contract: an exclude pattern wins over any
    include pattern, and an empty include list captures what is not excluded. *)
Theorem match_table_refines (f : tableFilter) (n : string) :
  match_table f n = true ↔ captured f n.
Proof.
  unfold match_table, captured. pose proof (any_match_spec (exclude f) n) as Hex.
  destruct (any_match (exclude f) n).
  - split; [done|]. intros [Hno _].
    destruct (proj1 Hex eq_refl) as (p&Hp&Hm). by rewrite Hno in Hm.
  - assert (∀ p, p ∈ exclude f → Match p n = false).
    { intros p Hp. apply not_true_is_false. intros Hm. naive_solver. }
    destruct (decide (length (include f) = 0%nat)) as [->%length_zero_iff_nil|Hne]; [tauto|].
    rewrite any_match_spec. assert (include f ≠ []) by (by intros Hi; rewrite Hi in Hne). tauto.
Qed.

Lemma excluded_not_captured inc exc p n :
  p ∈ system_exclude → Match p n = true → match_table (source_filter inc exc) n = false.
Proof.
  intros Hp Hm. unfold match_table.
  assert (any_match (exclude (source_filter inc exc)) n = true) as ->; [|done].
  apply any_match_spec. exists p. split; [|done]. apply elem_of_app. by left.
Qed.

Definition system_schemas : list string :=
  ["mysql"; "sys"; "performance_schema"; "information_schema"].

(** No configuration captures a system schema or the table the node keeps
    its own checkpoints in, whatever it includes: capturing [nomios_state] would
    feed every commit of the state manager back as an event.  The names must
    hold no slash, which [*] does not match. *)
Theorem system_tables_excluded (inc exc : list string) (db table : string) :
  has_slash (db +:+ "." +:+ table) = false →
  db ∈ system_schemas ∨ table = "nomios_state" →
  match_table (source_filter inc exc) (db +:+ "." +:+ table) = false.
Proof.
  rewrite !has_slash_app. simpl. intros [Hd Ht]%orb_false_iff [Hdb| ->].
  - apply (excluded_not_captured _ _ ((db +:+ ".") +:+ "*")).
    + unfold system_schemas in Hdb. rewrite !elem_of_cons, elem_of_nil in Hdb.
      unfold system_exclude. rewrite !elem_of_cons. naive_solver.
    + apply Match_prefix.
      * unfold system_schemas in Hdb. rewrite !elem_of_cons, elem_of_nil in Hdb. naive_solver.
      * by destruct db.
      * exists table. by rewrite str_app_assoc.
  - apply (excluded_not_captured _ _ ("*" +:+ ".nomios_state")).
    + unfold system_exclude. rewrite !elem_of_cons. naive_solver.
    + apply Match_suffix; [done|done|]. by exists db.
Qed.

Lemma system_tables_excluded_witness :
  match_table (source_filter ["*.*"; "shop.nomios_state"] []) ("shop" +:+ "." +:+ "nomios_state")
    = false ∧
  match_table (source_filter ["*.*"; "shop.nomios_state"] []) "shop.orders" = true.
Proof.
  split; [|vm_compute; reflexivity].
  apply (system_tables_excluded ["*.*"; "shop.nomios_state"] [] "shop" "nomios_state").
  - vm_compute. reflexivity.
  - by right.
Defined.

(** With a slash in the schema's name the state table is captured: [*] of
    [path.Match] stops at a slash, so the guard of the exclude list is lost. *)
Theorem slash_escapes_exclusion :
  match_table (source_filter [] []) ("a/b" +:+ "." +:+ "nomios_state") = true.
Proof. vm_compute. reflexivity. Qed.
