(* ===== verification/Schema.v ===== *)
(** * The schema registry

    pkg/source/mysql/schema.go: the cache of table layouts the source maps rows
    with, loaded from information_schema over a client connection that is
    re-established once when a query fails.

    The connection is a class: [Execute] answers the registry's query for a table
    and [Connect] opens the connection anew; both act on a state of their own, so
    an answer may depend on everything asked before. *)

From S2P Require Import Prelude GoStd GoText.

Inductive ColumnKind := KindText | KindBinary | KindJSON.

#[export] Instance ColumnKind_eq_dec : EqDecision ColumnKind.
Proof. solve_decision. Defined.

Record TableSchema := mkSchema {
  Columns : list string;
  Kinds : list ColumnKind;
  PK : list string;
}.

#[export] Instance TableSchema_eq_dec : EqDecision TableSchema.
Proof. solve_decision. Defined.

Definition binary_types : list string :=
  ["blob"; "tinyblob"; "mediumblob"; "longblob"; "binary"; "varbinary"; "bit"; "geometry"; "point";
   "linestring"; "polygon"; "multipoint"; "multilinestring"; "multipolygon"; "geomcollection";
   "geometrycollection"; "vector"].

Definition kindOf (dataType : string) : ColumnKind :=
  if decide (dataType = "json") then KindJSON
  else if decide (dataType ∈ binary_types) then KindBinary
  else KindText.

(** One row of the answer: [GetString(i, 0)] with its error, and the second and
    third column, whose errors are ignored. *)
Record column_row := mkColumnRow {
  cr_name : result string;
  cr_key : string;
  cr_type : string;
}.

(** The connection to the server. *)
Class SchemaServer (W : Type) := {
  Execute : string → string → W → result (list column_row) * W;
  Connect : W → option goerr * W;
}.

Record schemaRegistry (W : Type) := mkRegistry {
  cache : gmap string TableSchema;
  conn : W;
}.
Arguments mkRegistry {W} _ _.
Arguments cache {W} _.
Arguments conn {W} _.

(** The key of the cache: [db + "." + table]. *)
Definition cache_key (db table : string) : string := db +:+ "." +:+ table.

(** The loop of [load] over the rows of the answer. *)
Fixpoint load_rows (s : TableSchema) (rows : list column_row) : result TableSchema :=
  match rows with
  | [] => Ok s
  | r :: rows =>
      name ←ok cr_name r;
      load_rows
        (mkSchema (Columns s ++ [name]) (Kinds s ++ [kindOf (cr_type r)])
           (if decide (cr_key r = "PRI") then PK s ++ [name] else PK s))
        rows
  end.

(** What [load] makes of the rows of an answer. *)
Definition schema_of (db table : string) (rows : list column_row) : result TableSchema :=
  s ←ok load_rows (mkSchema [] [] []) rows;
  if decide (length (Columns s) = 0%nat)
  then Err (EText ("schema registry: table " +:+ db +:+ "." +:+ table +:+ " not found"))
  else Ok s.

Section registry.
Context {W : Type} `{SchemaServer W}.

Definition reconnect (addr : string) (w : W) : option goerr * W :=
  let '(e, w) := Connect w in
  ((λ e, EWrap ("schema registry: connect " +:+ addr) e) <$> e, w).

Definition newSchemaRegistry (addr : string) (w : W) : result (schemaRegistry W) * W :=
  match reconnect addr w with
  | (Some e, w) => (Err e, w)
  | (None, w) => (Ok (mkRegistry ∅ w), w)
  end.

(** One transparent reconnect. *)
Definition query (addr db table : string) (w : W) : result (list column_row) * W :=
  match Execute db table w with
  | (Ok rows, w) => (Ok rows, w)
  | (Err e, w) =>
      match reconnect addr w with
      | (Some _, w) => (Err e, w)
      | (None, w) => Execute db table w
      end
  end.

Definition load (addr db table : string) (w : W) : result TableSchema * W :=
  match query addr db table w with
  | (Err e, w) =>
      (Err (EWrap ("schema registry: load " +:+ db +:+ "." +:+ table) e), w)
  | (Ok rows, w) => (schema_of db table rows, w)
  end.

Definition Get (addr db table : string) (r : schemaRegistry W) :
    result TableSchema * schemaRegistry W :=
  match cache r !! cache_key db table with
  | Some s => (Ok s, r)
  | None =>
      match load addr db table (conn r) with
      | (Err e, w) => (Err e, mkRegistry (cache r) w)
      | (Ok s, w) => (Ok s, mkRegistry (<[cache_key db table := s]> (cache r)) w)
      end
  end.

Definition Refresh (addr db table : string) (r : schemaRegistry W) :
    result TableSchema * schemaRegistry W :=
  let c := delete (cache_key db table) (cache r) in
  match load addr db table (conn r) with
  | (Err e, w) => (Err e, mkRegistry c w)
  | (Ok s, w) => (Ok s, mkRegistry (<[cache_key db table := s]> c) w)
  end.

Definition InvalidateAll (r : schemaRegistry W) : schemaRegistry W := mkRegistry ∅ (conn r).

(** The operations of the registry, as one type. *)
Inductive registry_op :=
  | RGet (db table : string)
  | RRefresh (db table : string)
  | RInvalidateAll.

Definition registry_step (addr : string) (o : registry_op) (r : schemaRegistry W) :
    schemaRegistry W :=
  match o with
  | RGet db table => (Get addr db table r).2
  | RRefresh db table => (Refresh addr db table r).2
  | RInvalidateAll => InvalidateAll r
  end.

Definition run_registry (addr : string) (os : list registry_op) (r : schemaRegistry W) :
    schemaRegistry W := foldl (λ r o, registry_step addr o r) r os.
End registry.

(** ** Well-formed layouts

    What [mapRow] and the key builder rely on: a kind for every column, key
    columns that are columns, and at least one column. *)
Record wf_schema (s : TableSchema) : Prop := {
  wfs_kinds : length (Kinds s) = length (Columns s);
  wfs_pk : PK s ⊆ Columns s;
  wfs_columns : Columns s ≠ [];
}.

(** The columns a layout is loaded from, in the order of the answer. *)
Lemma load_rows_spec rows s s' :
  load_rows s rows = Ok s' →
  ∃ names, (cr_name <$> rows) = Ok <$> names ∧
    Columns s' = Columns s ++ names ∧
    Kinds s' = Kinds s ++ (kindOf ∘ cr_type <$> rows) ∧
    PK s' = PK s ++ (zip names rows ≫= λ nr, if decide (cr_key nr.2 = "PRI") then [nr.1] else []).
Proof.
  revert s. induction rows as [|r rows IH]; intros s; simpl.
  - intros [= <-]. exists []. by rewrite !app_nil_r.
  - destruct (cr_name r) as [name|] eqn:Hn; [|done].
    intros (names&Hnames&Hc&Hk&Hp)%IH. simpl in *. exists (name :: names).
    split; [by rewrite fmap_cons, <-Hnames|]. rewrite Hc, Hk, Hp, <-!(assoc_L (++)).
    split_and!; try done. cbn [zip zip_with mbind list_bind fst snd].
    destruct (decide (cr_key r = "PRI")); [by rewrite <-(assoc_L (++))|done].
Qed.

Lemma schema_of_spec db table rows s :
  schema_of db table rows = Ok s →
  load_rows (mkSchema [] [] []) rows = Ok s ∧ Columns s ≠ [].
Proof.
  unfold schema_of. destruct (load_rows _ rows) as [s'|]; [|done].
  destruct (decide _) as [|Hc]; [done|]. intros [= <-]. split; [done|].
  intros Hnil. by rewrite Hnil in Hc.
Qed.

Lemma schema_of_wf db table rows s : schema_of db table rows = Ok s → wf_schema s.
Proof.
  intros [(names&Hn&Hc&Hk&Hp)%load_rows_spec Hne]%schema_of_spec. simpl in *.
  split; [|rewrite Hp, Hc|done].
  - rewrite Hk, Hc, length_fmap. apply (f_equal length) in Hn. by rewrite !length_fmap in Hn.
  - intros x (nr&Hx&Hnr)%list_elem_of_bind.
    destruct (decide _); [|by apply not_elem_of_nil in Hx].
    apply list_elem_of_singleton in Hx as ->. destruct nr as [n r].
    by eapply elem_of_zip_l.
Qed.

(** The name of a column has no dot in front of the table's: without a dot in the
    schema's name the cache key determines both names. *)
Definition no_dot (c : ascii) : bool := negb (bool_decide (c = "."%char)).

Lemma cache_key_inj db table db' table' :
  str_forallb no_dot db = true → str_forallb no_dot db' = true →
  cache_key db table = cache_key db' table' → db = db' ∧ table = table'.
Proof. intros. by eapply (str_split_unique no_dot "."). Qed.

Section coherence.
Context {W : Type} `{SchemaServer W} (addr : string).

(** The server answers from a catalog that does not change. *)
Definition answers (cat : string → string → list column_row) : Prop :=
  ∀ db table w rows w', Execute db table w = (Ok rows, w') → rows = cat db table.

Lemma load_answers cat db table w s w' :
  answers cat → load addr db table w = (Ok s, w') → schema_of db table (cat db table) = Ok s.
Proof.
  intros Hcat. unfold load. destruct (query addr db table w) as [[rows|e] w1] eqn:Hq; [|done].
  intros [= Hs _]. rewrite <-Hs. f_equal. symmetry.
  revert Hq. unfold query. destruct (Execute db table w) as [[rows'|e] w2] eqn:He.
  - intros [= -> _]. by eapply Hcat.
  - destruct (reconnect addr w2) as [[]  w3]; [done|]. intros He2. by eapply Hcat.
Qed.

Definition op_ok (o : registry_op) : Prop :=
  match o with
  | RGet db _ | RRefresh db _ => str_forallb no_dot db = true
  | RInvalidateAll => True
  end.

(** Every cached entry is the layout of its table. *)
Definition coherent cat (c : gmap string TableSchema) : Prop :=
  ∀ k s, c !! k = Some s →
    ∃ db table, str_forallb no_dot db = true ∧ k = cache_key db table ∧
      schema_of db table (cat db table) = Ok s.

Lemma coherent_insert cat c db table s :
  coherent cat c → str_forallb no_dot db = true → schema_of db table (cat db table) = Ok s →
  coherent cat (<[cache_key db table := s]> c).
Proof.
  intros Hc Hdot Hs k s'. rewrite lookup_insert_Some. intros [[<- <-]|[_ Hk]]; [eauto|].
  by apply Hc.
Qed.

Lemma coherent_delete cat c k : coherent cat c → coherent cat (delete k c).
Proof. intros Hc k' s. rewrite lookup_delete_Some. intros [_ Hk]. by apply Hc. Qed.

Lemma registry_step_coherent cat o r :
  answers cat → op_ok o → coherent cat (cache r) → coherent cat (cache (registry_step addr o r)).
Proof.
  intros Hcat Ho Hc. destruct o as [db table|db table|]; simpl in *.
  - unfold Get. destruct (cache r !! _) eqn:Hk; [done|].
    destruct (load addr db table (conn r)) as [[s|e] w] eqn:Hl; simpl; [|done].
    apply coherent_insert; eauto using load_answers.
  - unfold Refresh. destruct (load addr db table (conn r)) as [[s|e] w] eqn:Hl; simpl.
    + eauto using coherent_insert, load_answers, coherent_delete.
    + by apply coherent_delete.
  - intros k s; simpl. by rewrite lookup_empty.
Qed.

Lemma run_registry_coherent cat os r :
  answers cat → Forall op_ok os → coherent cat (cache r) →
  coherent cat (cache (run_registry addr os r)).
Proof.
  intros Hcat Hos. unfold run_registry. revert r.
  induction Hos as [|o os Ho _ IH]; intros r Hc; simpl; [done|].
  by apply IH, registry_step_coherent.
Qed.

Lemma coherent_Get cat r db table s r' :
  answers cat → str_forallb no_dot db = true → coherent cat (cache r) →
  Get addr db table r = (Ok s, r') → schema_of db table (cat db table) = Ok s.
Proof.
  intros Hcat Hdot Hc. unfold Get. destruct (cache r !! _) as [s0|] eqn:Hk.
  - intros [= -> _]. apply Hc in Hk as (db'&table'&Hdot'&Heq&Hs).
    by apply cache_key_inj in Heq as [<- <-].
  - destruct (load addr db table (conn r)) as [[s0|e] w] eqn:Hl; [|done].
    intros [= -> _]. eauto using load_answers.
Qed.
End coherence.

(** ** A server for evaluation: one table per entry of a list *)

Definition sample_catalog (db table : string) : list column_row :=
  if decide (db = "shop" ∧ table = "orders") then
    [mkColumnRow (Ok "id") "PRI" "bigint"; mkColumnRow (Ok "note") "" "text";
     mkColumnRow (Ok "doc") "" "json"; mkColumnRow (Ok "raw") "" "varbinary"]
  else if decide (db = "a.b" ∧ table = "c") then [mkColumnRow (Ok "x") "PRI" "int"]
  else if decide (db = "a" ∧ table = "b.c") then
    [mkColumnRow (Ok "y") "" "blob"; mkColumnRow (Ok "z") "PRI" "int"]
  else [].

(** The state counts the failures still to come before the connection is good. *)
Definition sampleServer : SchemaServer nat := {|
  Execute db table w :=
    match w with O => (Ok (sample_catalog db table), O) | S w => (Err (EText "eof"), w) end;
  Connect w := (None, w);
|}.

Lemma sampleServer_answers : @answers nat sampleServer sample_catalog.
Proof. intros db table [|w] rows w'; simpl; [|done]. by intros [= <- _]. Qed.

(** ** Properties *)



(** A query survives one lost connection: it succeeds exactly when the first
    attempt does, or the reconnect and the second attempt do; and when it fails
    nothing is cached, so the next lookup asks again. *)
Theorem Get_retries_once {W : Type} `{SchemaServer W} (addr db table : string)
    (r : schemaRegistry W) :
  cache r !! cache_key db table = None →
  let '(a1, w1) := Execute db table (conn r) in
  let '(c, w2) := Connect w1 in
  let '(a2, w3) := Execute db table w2 in
  let '(res, r') := Get addr db table r in
  match a1, c, a2 with
  | Ok rows, _, _ => res = schema_of db table rows ∧ conn r' = w1
  | Err e, Some _, _ => (∃ pre, res = Err (EWrap pre e)) ∧ conn r' = w2
  | Err _, None, Ok rows => res = schema_of db table rows ∧ conn r' = w3
  | Err _, None, Err e => (∃ pre, res = Err (EWrap pre e)) ∧ conn r' = w3
  end ∧
  match res with
  | Ok s => cache r' = <[cache_key db table := s]> (cache r)
  | Err _ => cache r' = cache r
  end.
Proof.
  intros Hmiss. unfold Get, load, query, reconnect. rewrite Hmiss.
  destruct (Execute db table (conn r)) as [[rows|e] w1].
  - destruct (Connect w1) as [c w2], (Execute db table w2) as [a2 w3].
    by destruct (schema_of db table rows).
  - destruct (Connect w1) as [[e'|] w2]; simpl.
    + destruct (Execute db table w2) as [a2 w3]. split; [split; eauto|done].
    + destruct (Execute db table w2) as [[rows|e2] w3].
      * by destruct (schema_of db table rows).
      * split; [split; eauto|done].
Qed.

Lemma Get_retries_once_witness :
  let r := mkRegistry (∅ : gmap string TableSchema) 1%nat in
  cache r !! cache_key "shop" "orders" = None ∧
  let '(res, r') := @Get nat sampleServer "h:3306" "shop" "orders" r in
  (res = schema_of "shop" "orders" (sample_catalog "shop" "orders") ∧ conn r' = 0%nat) ∧
  match res with
  | Ok s => cache r' = <[cache_key "shop" "orders" := s]> ∅
  | Err _ => cache r' = ∅
  end.
Proof.
  intros r. split; [reflexivity|].
  exact (@Get_retries_once nat sampleServer "h:3306" "shop" "orders" r eq_refl).
Defined.

(** With a dot in a name two tables share a cache entry: after [a.b]'s table
    [c] was looked up, asking for [a]'s table [b.c] returns the layout of the
    first, with other columns and another primary key. *)
Theorem cache_key_ambiguous :
  let r := (@Get nat sampleServer "h:3306" "a.b" "c" (mkRegistry ∅ 0%nat)).2 in
  (@Get nat sampleServer "h:3306" "a" "b.c" r).1 = Ok (mkSchema ["x"] [KindText] ["x"]) ∧
  schema_of "a" "b.c" (sample_catalog "a" "b.c") =
    Ok (mkSchema ["y"; "z"] [KindBinary; KindText] ["z"]).
Proof. vm_compute. split; reflexivity. Qed.
