(* ===== verification/Binlog.v ===== *)
(** * Binlog events and row images

    The replication events the source consumes, and the pure parts of
    pkg/source/mysql/source.go that read them: [mapRow], [opForEventType],
    [formatSID] and [truncate]. *)

From S2P Require Import Prelude GoStd GoText State Event Schema.

(** ** Events of the replication stream

    The event types of the protocol the source tells apart; the remaining
    numbers are one constructor. *)
Inductive EventType :=
  | WRITE_ROWS_EVENTv0 | WRITE_ROWS_EVENTv1 | WRITE_ROWS_EVENTv2
  | UPDATE_ROWS_EVENTv0 | UPDATE_ROWS_EVENTv1 | UPDATE_ROWS_EVENTv2
  | DELETE_ROWS_EVENTv0 | DELETE_ROWS_EVENTv1 | DELETE_ROWS_EVENTv2
  | OtherEventType (n : Z).

Record EventHeader := mkHeader {
  Timestamp : Z;   (* uint32 *)
  EvType : EventType;
  HdrServerID : Z; (* uint32 *)
  LogPos : Z;      (* uint32 *)
}.

Record RowsEvent := mkRows {
  RTSchema : string;       (* Table.Schema *)
  RTTable : string;        (* Table.Table *)
  Rows : list (list value);
}.

Inductive EventBody :=
  | RotateEvent (NextLogName : string)
  | GTIDEvent (SID : string) (GNO : Z)
  | XIDEvent
  | QueryEvent (Query : string)
  | RowsBody (re : RowsEvent)
  | OtherBody. (* an event the source ignores *)

Record BinlogEvent := mkBinlogEvent {
  Header : EventHeader;
  Body : EventBody;
}.

Definition opForEventType (t : EventType) : option Op :=
  match t with
  | WRITE_ROWS_EVENTv0 | WRITE_ROWS_EVENTv1 | WRITE_ROWS_EVENTv2 => Some OpInsert
  | UPDATE_ROWS_EVENTv0 | UPDATE_ROWS_EVENTv1 | UPDATE_ROWS_EVENTv2 => Some OpUpdate
  | DELETE_ROWS_EVENTv0 | DELETE_ROWS_EVENTv1 | DELETE_ROWS_EVENTv2 => Some OpDelete
  | OtherEventType _ => None
  end.

(** ** formatSID, truncate *)
Definition formatSID (sid : string) : string :=
  if negb (bool_decide (String.length sid = 16%nat)) then hex_encode sid
  else
    let h := hex_encode sid in
    str_slice 0 8 h +:+ "-" +:+ str_slice 8 12 h +:+ "-" +:+ str_slice 12 16 h +:+ "-" +:+
    str_slice 16 20 h +:+ "-" +:+ str_slice 20 32 h.

Definition truncate (s : string) (n : nat) : string :=
  if decide (String.length s ≤ n)%nat then s else str_slice 0 n s +:+ "...".

(** ** mapRow *)

(** The switch on the column's kind. *)
Definition convert (k : ColumnKind) (v : value) : value :=
  match k, v with
  | KindJSON, VBytes b =>
      if decide (String.length (default "" b) = 0%nat) then VNil else VRaw b
  | KindJSON, VString s => if decide (s = "") then VNil else VRaw (Some s)
  | KindBinary, VString s => VBytes (Some s)
  | KindText, VBytes b => VString (default "" b)
  | _, _ => v
  end.

(** The loop over the columns.  [Kinds[i]] is in range for the layouts the
    registry returns ([wf_schema]); otherwise Go panics. *)
Fixpoint mapRow_loop (s : TableSchema) (i n : nat) (vals : list value)
    (m : gmap string value) : gmap string value :=
  match n with
  | O => m
  | S n =>
      match Columns s !! i, Kinds s !! i, vals !! i with
      | Some c, Some k, Some v => mapRow_loop s (S i) n vals (<[c := convert k v]> m)
      | _, _, _ => m
      end
  end.

Definition mapRow (s : TableSchema) (vals : list value) : gmap string value :=
  let n := length vals in
  let n := if decide (length (Columns s) < n)%nat then length (Columns s) else n in
  mapRow_loop s 0 n vals ∅.

(** ** Facts *)

Lemma mapRow_loop_lookup s i n vals m c v :
  NoDup (Columns s) → length (Kinds s) = length (Columns s) →
  (i + n ≤ length (Columns s))%nat → (i + n ≤ length vals)%nat →
  mapRow_loop s i n vals m !! c = Some v ↔
    (∃ j k w, (i ≤ j < i + n)%nat ∧ Columns s !! j = Some c ∧ Kinds s !! j = Some k ∧
       vals !! j = Some w ∧ v = convert k w) ∨
    ((∀ j, (i ≤ j < i + n)%nat → Columns s !! j ≠ Some c) ∧ m !! c = Some v).
Proof.
  intros Hnd Hk. revert i m. induction n as [|n IH]; intros i m Hc Hv; cbn [mapRow_loop].
  { split; [right; split; [lia|done]|]. intros [(j&?&?&?&_)|[_ ?]]; [lia|done]. }
  destruct (lookup_lt_is_Some_2 (Columns s) i) as [ci Hci]; [lia|].
  destruct (lookup_lt_is_Some_2 (Kinds s) i) as [ki Hki]; [lia|].
  destruct (lookup_lt_is_Some_2 vals i) as [vi Hvi]; [lia|].
  rewrite Hci, Hki, Hvi, IH by lia. split.
  - intros [(j&k&w&?&?&?&?&?)|[Hno Hm]].
    + left. exists j, k, w. split_and!; try done; lia.
    + apply lookup_insert_Some in Hm as [[<- <-]|[Hne Hm]].
      * left. exists i, ki, vi. split_and!; try done; lia.
      * right. split; [|done]. intros j Hj Hcj.
        destruct (decide (j = i)) as [->|]; [simplify_eq|]. apply (Hno j); [lia|done].
  - intros [(j&k&w&Hj&Hcj&Hkj&Hvj&->)|[Hno Hm]].
    + destruct (decide (j = i)) as [->|].
      * right. simplify_eq. split; [|apply lookup_insert_eq].
        intros j' Hj' Hcj'. assert (j' = i) by (by eapply NoDup_lookup). lia.
      * left. exists j, k, w. split_and!; try done; lia.
    + right. split; [intros; apply Hno; lia|].
      rewrite lookup_insert_ne; [done|]. intros ->. apply (Hno i); [lia|done].
Qed.

(** [C38] A row image maps each column to its value, read by the column's kind,
    and holds nothing else: the pairs of the shorter of the two lists, so that a
    row wider or narrower than the layout loses columns but never shifts them. *)
Theorem mapRow_spec (s : TableSchema) (vals : list value) (c : string) (v : value) :
  wf_schema s → NoDup (Columns s) →
  mapRow s vals !! c = Some v ↔
  ∃ i k w, Columns s !! i = Some c ∧ Kinds s !! i = Some k ∧ vals !! i = Some w ∧ v = convert k w.
Proof.
  intros [Hk _ _] Hnd. unfold mapRow.
  assert ((if decide (length (Columns s) < length vals)%nat then length (Columns s)
    else length vals) = Nat.min (length (Columns s)) (length vals)) as ->
    by (destruct (decide _); lia).
  rewrite mapRow_loop_lookup by (done || lia). split.
  - intros [(j&k&w&?&?&?&?&?)|[_ Hm]]; [by exists j, k, w|].
    by rewrite lookup_empty in Hm.
  - intros (j&k&w&Hc&?&Hv&?). left. exists j, k, w. split_and!; try done; [lia|].
    apply lookup_lt_Some in Hc, Hv. lia.
Qed.

Lemma mapRow_spec_witness :
  let s := mkSchema ["id"; "note"; "doc"; "raw"] [KindText; KindText; KindJSON; KindBinary] ["id"] in
  mapRow s [VInt64 1; VBytes (Some "hi"); VString "{}"; VString "AB"] !! "doc" =
    Some (VRaw (Some "{}")).
Proof.
  intros s.
  apply (mapRow_spec s [VInt64 1; VBytes (Some "hi"); VString "{}"; VString "AB"]).
  - split; [reflexivity| |discriminate]. intros x ->%list_elem_of_singleton. left.
  - decide_closed.
  - exists 2%nat, KindJSON, (VString "{}"). repeat split; reflexivity.
Defined.

Lemma str_slice_cat i j k h :
  (i ≤ j ≤ k)%nat → (k ≤ String.length h)%nat →
  str_slice i j h +:+ str_slice j k h = str_slice i k h.
Proof.
  unfold str_slice. revert i j k. induction h as [|c h IH]; intros i j k Hij Hk; simpl in Hk.
  { assert (i = 0 ∧ j = 0 ∧ k = 0)%nat as (->&->&->) by lia. done. }
  destruct i as [|i].
  - destruct j as [|j].
    + rewrite Nat.sub_diag. simpl. by rewrite str_app_nil_l.
    + destruct k as [|k]; [lia|]. simpl. rewrite str_app_cons.
      specialize (IH 0%nat j k). rewrite !Nat.sub_0_r in IH. by rewrite IH by lia.
  - destruct j as [|j]; [lia|]. destruct k as [|k]; [lia|]. simpl. apply IH; lia.
Qed.

Lemma str_slice_all h : str_slice 0 (String.length h) h = h.
Proof.
  unfold str_slice. rewrite Nat.sub_0_r. induction h as [|c h IH]; [done|]. simpl. by rewrite IH.
Qed.

Lemma str_slice_length i j h :
  (i ≤ j ≤ String.length h)%nat → String.length (str_slice i j h) = (j - i)%nat.
Proof.
  unfold str_slice. revert i j. induction h as [|c h IH]; intros i j Hij; simpl in *.
  { assert (i = 0 ∧ j = 0)%nat as [-> ->] by lia. done. }
  destruct i as [|i].
  - rewrite Nat.sub_0_r. destruct j as [|j]; [done|]. simpl.
    specialize (IH 0%nat j). rewrite Nat.sub_0_r in IH. by rewrite IH by lia.
  - destruct j as [|j]; [lia|]. simpl. rewrite IH by lia. lia.
Qed.

Lemma formatSID_16 sid :
  String.length sid = 16%nat →
  let h := hex_encode sid in
  formatSID sid = str_slice 0 8 h +:+ String "-" (str_slice 8 12 h +:+ String "-"
    (str_slice 12 16 h +:+ String "-" (str_slice 16 20 h +:+ String "-" (str_slice 20 32 h)))).
Proof.
  intros Hl. unfold formatSID. rewrite bool_decide_eq_true_2 by done. cbn [negb].
  by rewrite !str_app_cons, !str_app_nil_l.
Qed.

(** The rendering of a server UUID loses nothing: two 16-byte identifiers
    with the same text are equal, and the text is the 36 characters of the
    canonical form. *)
Theorem formatSID_inj (sid sid' : string) :
  String.length sid = 16%nat → String.length sid' = 16%nat →
  formatSID sid = formatSID sid' → sid = sid' ∧ String.length (formatSID sid) = 36%nat.
Proof.
  intros H1 H2. rewrite (formatSID_16 _ H1), (formatSID_16 _ H2). intros Heq.
  pose proof (hex_encode_length sid) as L1. pose proof (hex_encode_length sid') as L2.
  rewrite H1 in L1. rewrite H2 in L2. split.
  - apply hex_encode_inj. rewrite <-(str_slice_all (hex_encode sid)), <-(str_slice_all (hex_encode sid')).
    rewrite L1, L2. change (2 * 16)%nat with 32%nat in *.
    repeat (apply str_app_inj in Heq as [? Heq]; [|by rewrite !str_slice_length by lia];
            injection Heq as Heq).
    rewrite <-!(str_slice_cat 0 8 32), <-!(str_slice_cat 8 12 32), <-!(str_slice_cat 12 16 32),
      <-!(str_slice_cat 16 20 32) by lia. congruence.
  - repeat (rewrite str_length_app || (cbn [String.length]; rewrite str_length_app)).
    cbn [String.length]. rewrite !str_slice_length by lia. reflexivity.
Qed.

Lemma formatSID_inj_witness :
  "0123456789abcdef" = "0123456789abcdef" ∧
  String.length (formatSID "0123456789abcdef") = 36%nat.
Proof. apply (formatSID_inj "0123456789abcdef" "0123456789abcdef"); reflexivity. Defined.
