(* ===== verification/MysqlSource.v ===== *)
(** * The MySQL source: configuration, transaction tracking, the stream loop

    pkg/source/mysql/source.go.  The server's answers, the events of the stream
    and the outcome of every send are inputs of the definitions; the executed
    GTID set is go-mysql's, a class. *)

From S2P Require Import Prelude GoStd GoText State Event Keys Filter Schema Binlog.

(** ** GTID sets *)
Class GTIDSets := {
  gtids : Type;
  gs_Parse : string → result gtids;
  gs_String : gtids → string;
  gs_Update : string → gtids → option goerr * gtids; (* the error and the mutated set *)
}.

(** ** Config *)
Record Config := mkConfig {
  Host : string;
  Port : Z; (* uint16 *)
  User : string;
  Password : string;
  CfgServerID : Z; (* uint32 *)
  UseGTID : bool;
  Include : list string;
  Exclude : list string;
  HeartbeatPeriod : Z; (* time.Duration: nanoseconds *)
}.

Definition second : Z := 1000000000.

Definition withDefaults (c : Config) : Config :=
  mkConfig (Host c) (if decide (Port c = 0%Z) then 3306%Z else Port c) (User c) (Password c)
    (CfgServerID c) (UseGTID c) (Include c) (Exclude c)
    (if decide (HeartbeatPeriod c = 0%Z) then (30 * second)%Z else HeartbeatPeriod c).

Definition addr (c : Config) : string := Host c +:+ ":" +:+ pretty (Port c).

Record Source := mkSource {
  src_cfg : Config;
  src_filter : tableFilter;
}.

Definition NewSource (c : Config) : Source :=
  let c := withDefaults c in mkSource c (source_filter (Include c) (Exclude c)).

(** ** validateServer

    The connection attempt and the answer to each [SHOW VARIABLES LIKE]: an error,
    or the second column of the first row if there is one.  [quote] is [fmt]'s
    [%q]. *)
Definition validateServer (quote : string → string) (c : Config) (connect : option goerr)
    (show : string → result (option string)) : option goerr :=
  match connect with
  | Some e => Some (EWrap "mysql source: connect for validation" e)
  | None =>
      let get name := match show name with
                      | Err e => Err (EWrap ("mysql source: show variables " +:+ name) e)
                      | Ok r => Ok (default "" r)
                      end in
      match get "binlog_format" with
      | Err e => Some e
      | Ok format =>
          if negb (EqualFold format "ROW")
          then Some (EText ("mysql source: binlog_format is " +:+ quote format +:+ ", need ROW"))
          else
            match get "binlog_row_image" with
            | Err e => Some e
            | Ok image =>
                if negb (bool_decide (image = "")) && negb (EqualFold image "FULL")
                then Some (EText ("mysql source: binlog_row_image is " +:+ quote image +:+
                       ", need FULL (MINIMAL/NOBLOB would silently produce wrong row images and " +:+
                       "partition keys)"))
                else if UseGTID c then
                  match get "gtid_mode" with
                  | Err e => Some e
                  | Ok mode =>
                      if negb (EqualFold mode "ON")
                      then Some (EText ("mysql source: gtid requested but gtid_mode is " +:+ quote mode))
                      else None
                  end
                else None
            end
      end
  end.

(** ** masterStatus

    A row of [SHOW MASTER STATUS]: file, position and, when there are more than
    four columns, the executed set. *)
Record master_row := mkMasterRow {
  mr_file : string;
  mr_pos : Z; (* uint64 *)
  mr_gtid : option string;
}.

Definition masterStatus (connect : option goerr) (answer : result (list master_row)) :
    result (string * string * Z) :=
  match connect with
  | Some e => Err (EWrap "mysql source: connect" e)
  | None =>
      match answer with
      | Err e => Err (EWrap "mysql source: show master status" e)
      | Ok [] => Err (EText "mysql source: binary logging is not enabled on the server")
      | Ok (r :: _) => Ok (default "" (mr_gtid r), mr_file r, u32 (mr_pos r))
      end
  end.

(** ** Transaction state *)
Section source.
Context `{GoFmt} {GS : GTIDSets} {W : Type} `{SchemaServer W}.
(** The local zone's offset at a time, and [fmt]'s [%q]. *)
Context (zone : Z → Z) (quote : string → string).

Record startPoint := mkStart {
  gtidSet : option gtids;
  sp_file : string;
  sp_offset : Z;
}.

Definition resolveStart (c : Config) (status : result (string * string * Z)) (from : Position) :
    result startPoint :=
  if UseGTID c then
    gtid ←ok (if bool_decide (GTIDSet from = "") && IsZero from
              then match status with Ok (g, _, _) => Ok g | Err e => Err e end
              else Ok (GTIDSet from));
    match gs_Parse gtid with
    | Err e => Err (EWrap ("mysql source: parse gtid set " +:+ quote gtid) e)
    | Ok set => Ok (mkStart (Some set) "" 0)
    end
  else if negb (bool_decide (File from = "")) then Ok (mkStart None (File from) (Offset from))
  else match status with
       | Err e => Err e
       | Ok (_, file, pos) => Ok (mkStart None file pos)
       end.

Record txnState := mkTxn {
  committedGTID : string;
  committedFile : string;
  committedPos : Z;
  currentFile : string;
  ts_set : option gtids;
  pendingGTID : string;
  ts_seq : Z;  (* uint64 *)
  txOrder : Z; (* int *)
}.

(** The state [run] starts from. *)
Definition initTxn (start : startPoint) : txnState :=
  mkTxn (match gtidSet start with Some s => gs_String s | None => "" end)
    (sp_file start) (sp_offset start) (sp_file start) (gtidSet start) "" 0 0.

Definition commit (ts : txnState) (logPos : Z) : txnState :=
  match ts_set ts with
  | Some s =>
      if negb (bool_decide (pendingGTID ts = "")) then
        let '(e, s') := gs_Update (pendingGTID ts) s in
        mkTxn (match e with None => gs_String s' | Some _ => committedGTID ts end)
          (currentFile ts) logPos (currentFile ts) (Some s') "" (ts_seq ts) (txOrder ts)
      else mkTxn (committedGTID ts) (currentFile ts) logPos (currentFile ts) (ts_set ts)
             (pendingGTID ts) (ts_seq ts) (txOrder ts)
  | None => mkTxn (committedGTID ts) (currentFile ts) logPos (currentFile ts) (ts_set ts)
              (pendingGTID ts) (ts_seq ts) (txOrder ts)
  end.

(** ** emitRows *)

(** [ts.seq++; ts.txOrder++]. *)
Definition bump (ts : txnState) : txnState :=
  mkTxn (committedGTID ts) (committedFile ts) (committedPos ts) (currentFile ts) (ts_set ts)
    (pendingGTID ts) (u64 (ts_seq ts + 1)) (i64 (txOrder ts + 1)).

(** The identifier of row [j] of an event. *)
Definition event_id (ts : txnState) (h : EventHeader) (j : nat) : string :=
  if negb (bool_decide (pendingGTID ts = ""))
  then pendingGTID ts +:+ "#" +:+ pretty (txOrder ts)
  else currentFile ts +:+ ":" +:+ pretty (LogPos h) +:+ ":" +:+ pretty (Z.of_nat j).

(** The body of the loop after the row images, on the bumped state. *)
Definition make_event (ts : txnState) (h : EventHeader) (db table : string) (pk : list string)
    (op : Op) (j : nat) (before after : row) : NomiosEvent :=
  let ne := mkEvent (event_id ts h j) op before after
    (mkSourceMeta "mysql" (HdrServerID h) db table (pendingGTID ts) (currentFile ts) (LogPos h)
       (txOrder ts))
    (mkTime (Timestamp h) 0 (zone (Timestamp h))) ""
    (mkPosition (committedGTID ts) (committedFile ts) (committedPos ts) (ts_seq ts)) in
  set_Key ne (KeyFromColumns (db +:+ "." +:+ table) (Row ne) pk).

(** The loop: one row a turn, or a (before, after) pair for updates. *)
Fixpoint emit_loop (h : EventHeader) (db table : string) (s : TableSchema) (op : Op)
    (rows : list (list value)) (j : nat) (ts : txnState) (batch : list NomiosEvent) :
    list NomiosEvent * txnState :=
  let emit before after rows :=
    let ts := bump ts in
    emit_loop h db table s op rows (S j) ts
      (batch ++ [make_event ts h db table (PK s) op j before after]) in
  match op, rows with
  | OpInsert, r :: rows => emit None (Some (mapRow s r)) rows
  | OpDelete, r :: rows => emit (Some (mapRow s r)) None rows
  | OpUpdate, r :: r' :: rows => emit (Some (mapRow s r)) (Some (mapRow s r')) rows
  | _, _ => (batch, ts)
  end.

(** [step]: an update takes two rows. *)
Definition op_step (op : Op) : nat := match op with OpUpdate => 2 | _ => 1 end.

(** What a handler leaves behind: the batch it sent, its error, the state. *)
Record handled := mkHandled {
  h_sent : option (list NomiosEvent);
  h_err : option goerr;
  h_ts : txnState;
  h_reg : schemaRegistry W;
}.

Definition skip_rows (ts : txnState) (n : nat) : txnState :=
  mkTxn (committedGTID ts) (committedFile ts) (committedPos ts) (currentFile ts) (ts_set ts)
    (pendingGTID ts) (ts_seq ts) (i64 (txOrder ts + Z.of_nat n)).

(** [sel] is the outcome of the final select: [None] when the batch was sent,
    [ctx.Err()] otherwise. *)
Definition emitRows (s : Source) (sel : option goerr) (h : EventHeader) (re : RowsEvent) (op : Op)
    (ts : txnState) (reg : schemaRegistry W) : handled :=
  let db := RTSchema re in
  let table := RTTable re in
  if negb (match_table (src_filter s) (db +:+ "." +:+ table))
  then mkHandled None None (skip_rows ts (length (Rows re) / op_step op)) reg
  else
    match Get (addr (src_cfg s)) db table reg with
    | (Err e, reg) => mkHandled None (Some e) ts reg
    | (Ok schema, reg) =>
        let '(schema, reg) :=
          match Rows re with
          | r :: _ =>
              if negb (bool_decide (length r = length (Columns schema)))
              then Refresh (addr (src_cfg s)) db table reg
              else (Ok schema, reg)
          | [] => (Ok schema, reg)
          end in
        match schema with
        | Err e => mkHandled None (Some e) ts reg
        | Ok schema =>
            let '(batch, ts) := emit_loop h db table schema op (Rows re) 0 ts [] in
            if decide (length batch = 0%nat) then mkHandled None None ts reg
            else match sel with
                 | None => mkHandled (Some batch) None ts reg
                 | Some e => mkHandled None (Some e) ts reg
                 end
        end
    end.

(** ** handleEvent *)
Definition set_currentFile (ts : txnState) (f : string) : txnState :=
  mkTxn (committedGTID ts) (committedFile ts) (committedPos ts) f (ts_set ts) (pendingGTID ts)
    (ts_seq ts) (txOrder ts).

Definition set_pendingGTID (ts : txnState) (g : string) : txnState :=
  mkTxn (committedGTID ts) (committedFile ts) (committedPos ts) (currentFile ts) (ts_set ts) g
    (ts_seq ts) 0.

Definition gtid_text (sid : string) (gno : Z) : string := formatSID sid +:+ ":" +:+ pretty gno.

Definition is_BEGIN (q : string) : bool := EqualFold (TrimSpace q) "BEGIN".

Definition handleEvent (s : Source) (sel : option goerr) (ev : BinlogEvent) (ts : txnState)
    (reg : schemaRegistry W) : handled :=
  match Body ev with
  | RotateEvent f => mkHandled None None (set_currentFile ts f) reg
  | GTIDEvent sid gno => mkHandled None None (set_pendingGTID ts (gtid_text sid gno)) reg
  | XIDEvent => mkHandled None None (commit ts (LogPos (Header ev))) reg
  | QueryEvent q =>
      if is_BEGIN q then mkHandled None None ts reg
      else mkHandled None None (commit ts (LogPos (Header ev))) (InvalidateAll reg)
  | RowsBody re =>
      match opForEventType (EvType (Header ev)) with
      | None => mkHandled None None ts reg
      | Some op => emitRows s sel (Header ev) re op ts reg
      end
  | OtherBody => mkHandled None None ts reg
  end.

(** ** run

    The inputs of a run: what each [GetEvent] returns and, for an event, the
    outcome of the send it may lead to. *)
Inductive stream_item :=
  | SError (e : goerr)
  | SEvent (ev : BinlogEvent) (sel : option goerr).

(** The batches sent, in order; [Some r] once [run] has returned [r]. *)
Record run_state := mkRun {
  r_out : list (list NomiosEvent);
  r_ret : option (option goerr);
  r_ts : txnState;
  r_reg : schemaRegistry W;
}.

Definition run_step (s : Source) (st : run_state) (i : stream_item) : run_state :=
  match r_ret st with
  | Some _ => st
  | None =>
      match i with
      | SError e =>
          mkRun (r_out st)
            (Some (if errors_Is e ECanceled || errors_Is e EDeadline then None
                   else Some (EWrap "mysql source: stream" e)))
            (r_ts st) (r_reg st)
      | SEvent ev sel =>
          let r := handleEvent s sel ev (r_ts st) (r_reg st) in
          mkRun (match h_sent r with Some b => r_out st ++ [b] | None => r_out st end)
            (match h_err r with
             | None => None
             | Some e => Some (if errors_Is e ECanceled then None else Some e)
             end)
            (h_ts r) (h_reg r)
      end
  end.

Definition run (s : Source) (items : list stream_item) (st : run_state) : run_state :=
  foldl (run_step s) st items.

(** [Start]: validation, the registry, the start point, and the stream from it.
    [sync] is the outcome of [StartSync] or [StartSyncGTID] at the start point. *)
Definition Start (s : Source) (valid : option goerr) (w : W)
    (status : result (string * string * Z)) (sync : startPoint → option goerr) (from : Position)
    (items : list stream_item) : list (list NomiosEvent) * option (option goerr) :=
  match valid with
  | Some e => ([], Some (Some e))
  | None =>
      match newSchemaRegistry (addr (src_cfg s)) w with
      | (Err e, _) => ([], Some (Some e))
      | (Ok reg, _) =>
          match resolveStart (src_cfg s) status from with
          | Err e => ([], Some (Some e))
          | Ok start =>
              match sync start with
              | Some e => ([], Some (Some (EWrap "mysql source: start sync" e)))
              | None =>
                  let st := run s items (mkRun [] None (initTxn start) reg) in
                  (r_out st, r_ret st)
              end
          end
      end
  end.
End source.
