(* ===== verification/SourceLog.v ===== *)
(** * What the MySQL source emits

    The stream loop of MysqlSource refines a row log: a filter-free account of
    every row of the stream with its identifier, its place in its transaction and
    the coordinates committed before it.  The loop emits exactly the rows of the
    captured tables, in order, numbered from 1. *)

From S2P Require Import Prelude GoStd GoText State Event Keys Filter Schema Binlog MysqlSource.

(** ** The loop of [emitRows] *)

(** The (before, after) images of an event's rows. *)
Fixpoint images (op : Op) (s : TableSchema) (rows : list (list value)) : list (row * row) :=
  match op, rows with
  | OpInsert, r :: rows => (None, Some (mapRow s r)) :: images op s rows
  | OpDelete, r :: rows => (Some (mapRow s r), None) :: images op s rows
  | OpUpdate, r :: r' :: rows => (Some (mapRow s r), Some (mapRow s r')) :: images op s rows
  | _, _ => []
  end.

(** Induction over the turns of the loop. *)
Lemma rows_ind (op : Op) (P : list (list value) → Prop) :
  (∀ rows, (length rows < op_step op)%nat → P rows) →
  (∀ r rows, op ≠ OpUpdate → P rows → P (r :: rows)) →
  (∀ r r' rows, op = OpUpdate → P rows → P (r :: r' :: rows)) →
  ∀ rows, P rows.
Proof.
  intros H0 H1 H2 rows.
  cut (∀ n, (length rows < n)%nat → P rows); [by eauto|].
  intros n. revert rows. induction n as [|n IH]; intros rows Hn; [lia|].
  destruct op; destruct rows as [|r [|r' rows]]; simpl in Hn;
    try (apply H0; simpl; lia); try (apply H1; [done|]; apply IH; simpl; lia).
  apply H2; [done|]. apply IH. lia.
Qed.

Lemma images_length op s rows : length (images op s rows) = (length rows / op_step op)%nat.
Proof.
  induction rows as [rows Hr|r rows Hop IH|r r' rows -> IH] using (rows_ind op).
  - rewrite Nat.div_small by done. by destruct op, rows as [|? [|]]; simpl in *; try lia.
  - transitivity (S (length (images op s rows))); [by destruct op|].
    rewrite IH. destruct op; [|done|]; cbn [op_step length]; by rewrite !Nat.div_1_r.
  - cbn [images length op_step]. rewrite IH. cbn [op_step].
    replace (S (S (length rows))) with (length rows + 1 * 2)%nat by lia.
    rewrite Nat.div_add by lia. lia.
Qed.

Section log.
Context `{GoFmt} {GS : GTIDSets} {W : Type} `{SchemaServer W} (zone : Z → Z).

Definition bump_n (n : nat) (ts : txnState) : txnState := Nat.iter n bump ts.

Lemma bump_n_S n ts : bump_n (S n) ts = bump_n n (bump ts).
Proof. apply Nat.iter_succ_r. Qed.

Definition row_event (h : EventHeader) (db table : string) (s : TableSchema) (op : Op)
    (j : nat) (ts : txnState) (ba : row * row) : NomiosEvent :=
  make_event zone ts h db table (PK s) op j ba.1 ba.2.

(** The loop emits one event per image, on the state bumped once per event. *)
Lemma emit_loop_spec h db table s op rows j ts b :
  emit_loop zone h db table s op rows j ts b =
  (b ++ imap (λ k ba, row_event h db table s op (j + k) (bump_n (S k) ts) ba) (images op s rows),
   bump_n (length (images op s rows)) ts).
Proof.
  revert j ts b.
  induction rows as [rows Hr|r rows Hop IH|r r' rows -> IH] using (rows_ind op); intros j ts b.
  - assert (images op s rows = []) as ->.
    { apply length_zero_iff_nil. rewrite images_length. by apply Nat.div_small. }
    rewrite app_nil_r. by destruct op, rows as [|? [|]]; simpl in *; try lia.
  - assert (∀ before after,
      emit_loop zone h db table s op rows (S j) (bump ts)
        (b ++ [make_event zone (bump ts) h db table (PK s) op j before after]) =
      (b ++ imap (λ k ba, row_event h db table s op (j + k) (bump_n (S k) ts) ba)
         ((before, after) :: images op s rows), bump_n (S (length (images op s rows))) ts)) as Hcons.
    { intros before after. rewrite IH, <-(assoc_L (++)), bump_n_S, imap_cons. simpl.
      rewrite Nat.add_0_r. do 3 f_equal. apply imap_ext. intros k ba _. simpl.
      rewrite <-bump_n_S. by rewrite Nat.add_succ_r. }
    destruct op; [|done|]; apply Hcons.
  - cbn [emit_loop images]. rewrite IH, <-(assoc_L (++)), imap_cons. simpl.
    rewrite <-bump_n_S, Nat.add_0_r. do 3 f_equal. apply imap_ext. intros k ba _. simpl.
    rewrite <-bump_n_S. by rewrite Nat.add_succ_r.
Qed.

(** ** Coordinates: the state but for the sequence number *)

Definition no_seq (ts : txnState) : txnState :=
  mkTxn (committedGTID ts) (committedFile ts) (committedPos ts) (currentFile ts) (ts_set ts)
    (pendingGTID ts) 0 (txOrder ts).

Lemma i64_idem x : i64 (i64 x) = i64 x.
Proof.
  unfold i64. replace ((x + 2 ^ 63) mod 2 ^ 64 - 2 ^ 63 + 2 ^ 63)%Z
    with ((x + 2 ^ 63) mod 2 ^ 64)%Z by lia.
  by rewrite Z.mod_mod.
Qed.

Lemma i64_add x y : i64 (i64 x + y) = i64 (x + y).
Proof.
  unfold i64. replace ((x + 2 ^ 63) mod 2 ^ 64 - 2 ^ 63 + y + 2 ^ 63)%Z
    with ((x + 2 ^ 63) mod 2 ^ 64 + y)%Z by lia.
  rewrite Zplus_mod_idemp_l. do 2 f_equal. lia.
Qed.

Lemma u64_add x y : u64 (u64 x + y) = u64 (x + y).
Proof. unfold u64. apply Zplus_mod_idemp_l. Qed.

(** The order within the transaction is an [int]. *)
Definition order_ok (ts : txnState) : Prop := i64 (txOrder ts) = txOrder ts.

Lemma bump_n_order n ts : order_ok ts → order_ok (bump_n n ts).
Proof. induction n; [done|]. intros Hok. apply i64_idem. Qed.

Lemma bump_n_coords n ts :
  order_ok ts → no_seq (bump_n n ts) = no_seq (skip_rows ts n).
Proof.
  intros Hok. induction n as [|n IH].
  - unfold skip_rows, no_seq. simpl. by rewrite Z.add_0_r, Hok.
  - change (bump_n (S n) ts) with (bump (bump_n n ts)).
    unfold no_seq, skip_rows in *. simpl in *. injection IH as -> -> -> -> -> -> ->.
    rewrite i64_add. do 2 f_equal. lia.
Qed.

Lemma bump_n_seq n ts : u64 (ts_seq ts) = ts_seq ts →
  ts_seq (bump_n n ts) = u64 (ts_seq ts + Z.of_nat n).
Proof.
  intros Hs. induction n as [|n IH]; [by rewrite Z.add_0_r|].
  change (ts_seq (bump_n (S n) ts)) with (u64 (ts_seq (bump_n n ts) + 1)).
  rewrite IH, u64_add. f_equal. lia.
Qed.

(** ** The row log *)

(** What identifies a row of the stream: its table, its identifier, the
    transaction it belongs to, its order there, and the coordinates to resume
    from. *)
Record row_ident := mkIdent {
  ri_table : string;
  ri_id : string;
  ri_gtid : string;
  ri_order : Z;
  ri_resume : string * string * Z;
}.

Definition ident (e : NomiosEvent) : row_ident :=
  mkIdent (FQTN (EvSource e)) (ID e) (GTID (EvSource e)) (TxOrder (EvSource e))
    (GTIDSet (EvPosition e), File (EvPosition e), Offset (EvPosition e)).

Definition ident_at (fqtn : string) (h : EventHeader) (j : nat) (ts : txnState) : row_ident :=
  mkIdent fqtn (event_id ts h j) (pendingGTID ts) (txOrder ts)
    (committedGTID ts, committedFile ts, committedPos ts).

Lemma ident_row_event h db table s op j ts ba :
  ident (row_event h db table s op j ts ba) = ident_at (db +:+ "." +:+ table) h j ts.
Proof. done. Qed.

Lemma ident_at_no_seq fqtn h j ts : ident_at fqtn h j ts = ident_at fqtn h j (no_seq ts).
Proof. done. Qed.

(** The rows of one event, captured or not. *)
Definition event_rows (ev : BinlogEvent) : option (RowsEvent * Op) :=
  match Body ev with
  | RowsBody re => (λ op, (re, op)) <$> opForEventType (EvType (Header ev))
  | _ => None
  end.

Definition re_fqtn (re : RowsEvent) : string := RTSchema re +:+ "." +:+ RTTable re.
Definition re_count (re : RowsEvent) (op : Op) : nat := (length (Rows re) / op_step op)%nat.

Definition event_idents (ts : txnState) (ev : BinlogEvent) : list row_ident :=
  match event_rows ev with
  | Some (re, op) =>
      (λ j, ident_at (re_fqtn re) (Header ev) j (skip_rows ts (S j))) <$> seq 0 (re_count re op)
  | None => []
  end.

(** How the coordinates evolve: independently of the filter and the schemas. *)
Definition coords_step (ts : txnState) (ev : BinlogEvent) : txnState :=
  match Body ev with
  | RotateEvent f => set_currentFile ts f
  | GTIDEvent sid gno => set_pendingGTID ts (gtid_text sid gno)
  | XIDEvent => commit ts (LogPos (Header ev))
  | QueryEvent q => if is_BEGIN q then ts else commit ts (LogPos (Header ev))
  | RowsBody _ =>
      match event_rows ev with Some (re, op) => skip_rows ts (re_count re op) | None => ts end
  | OtherBody => ts
  end.

Fixpoint row_log (ts : txnState) (evs : list BinlogEvent) : list row_ident :=
  match evs with
  | [] => []
  | ev :: evs => event_idents ts ev ++ row_log (coords_step ts ev) evs
  end.

Lemma row_log_app ts evs1 evs2 :
  row_log ts (evs1 ++ evs2) = row_log ts evs1 ++ row_log (foldl coords_step ts evs1) evs2.
Proof.
  revert ts. induction evs1 as [|ev evs1 IH]; intros ts; simpl; [done|].
  by rewrite IH, (assoc_L (++)).
Qed.

(** States with the same coordinates log the same rows. *)
Definition same_coords (ts1 ts2 : txnState) : Prop := no_seq ts1 = no_seq ts2.

#[export] Instance same_coords_equiv : Equivalence same_coords.
Proof. split; [done|by intros ??|]. intros ??? H1 H2. by transitivity (no_seq y). Qed.

Lemma same_coords_inv ts1 ts2 :
  same_coords ts1 ts2 → ∃ n, ts2 = mkTxn (committedGTID ts1) (committedFile ts1)
    (committedPos ts1) (currentFile ts1) (ts_set ts1) (pendingGTID ts1) n (txOrder ts1).
Proof. destruct ts1, ts2. unfold same_coords, no_seq; simpl.
  intros [= <- <- <- <- <- <- <-]. by eexists. Qed.

#[export] Instance ident_at_proper f h j : Proper (same_coords ==> eq) (ident_at f h j).
Proof. intros ts1 ts2 [n ->]%same_coords_inv. done. Qed.

#[export] Instance skip_rows_proper : Proper (same_coords ==> eq ==> same_coords) skip_rows.
Proof. intros ts1 ts2 [k ->]%same_coords_inv n ? <-. done. Qed.

#[export] Instance commit_proper : Proper (same_coords ==> eq ==> same_coords) commit.
Proof.
  intros ts1 ts2 [k ->]%same_coords_inv p ? <-. unfold commit; simpl.
  destruct (ts_set ts1); [|done]. destruct (bool_decide _); [done|]. by destruct (gs_Update _ _).
Qed.

#[export] Instance coords_step_proper : Proper (same_coords ==> eq ==> same_coords) coords_step.
Proof.
  intros ts1 ts2 Hs ev ? <-. unfold coords_step. destruct (Body ev).
  - destruct (same_coords_inv _ _ Hs) as [n ->]. done.
  - destruct (same_coords_inv _ _ Hs) as [n ->]. done.
  - by rewrite Hs.
  - destruct (is_BEGIN Query); [done|]. by rewrite Hs.
  - destruct (event_rows ev) as [[re' op]|]; [by rewrite Hs|done].
  - done.
Qed.

#[export] Instance event_idents_proper : Proper (same_coords ==> eq ==> eq) event_idents.
Proof.
  intros ts1 ts2 Hs ev ? <-. unfold event_idents. destruct (event_rows ev) as [[re op]|]; [|done].
  apply list_fmap_ext. intros k j _. by rewrite Hs.
Qed.

#[export] Instance row_log_proper : Proper (same_coords ==> eq ==> eq) row_log.
Proof.
  intros ts1 ts2 Hs evs ? <-. revert ts1 ts2 Hs.
  induction evs as [|ev evs IH]; intros ts1 ts2 Hs; [done|]. cbn [row_log].
  rewrite (IH _ _ (coords_step_proper _ _ Hs ev ev eq_refl)). by rewrite Hs.
Qed.

Lemma skip_rows_order ts n : order_ok (skip_rows ts n).
Proof. apply i64_idem. Qed.

Lemma commit_order ts p : order_ok ts → order_ok (commit ts p).
Proof.
  unfold order_ok, commit. intros. destruct (ts_set ts); [|done].
  destruct (bool_decide _); [done|]. by destruct (gs_Update _ _).
Qed.

Lemma coords_step_order ts ev : order_ok ts → order_ok (coords_step ts ev).
Proof.
  intros Hok. unfold coords_step. destruct (Body ev); try done; [by apply commit_order|..].
  - destruct (is_BEGIN _); [done|by apply commit_order].
  - destruct (event_rows ev) as [[re' op]|]; [apply skip_rows_order|done].
Qed.

(** ** One event *)

Definition capturedb (s : Source) (r : row_ident) : bool := match_table (src_filter s) (ri_table r).
Definition captured_rows (s : Source) (rs : list row_ident) : list row_ident :=
  filter (λ r, capturedb s r = true) rs.

Lemma event_idents_captured s ts ev re op :
  event_rows ev = Some (re, op) →
  captured_rows s (event_idents ts ev) =
    if match_table (src_filter s) (re_fqtn re) then event_idents ts ev else [].
Proof.
  intros Hev. unfold event_idents, captured_rows. rewrite Hev.
  assert (Hall : ∀ l : list nat, filter (λ r, capturedb s r = true)
    ((λ j, ident_at (re_fqtn re) (Header ev) j (skip_rows ts (S j))) <$> l) =
    if match_table (src_filter s) (re_fqtn re)
    then (λ j, ident_at (re_fqtn re) (Header ev) j (skip_rows ts (S j))) <$> l else []).
  { intros l. induction l as [|j l IH]; [by destruct (match_table _ _)|].
    rewrite fmap_cons, filter_cons, IH. unfold capturedb. simpl.
    destruct (match_table _ _); [by rewrite decide_True|by rewrite decide_False]. }
  apply Hall.
Qed.

Lemma imap_idents h db table s op ts (l : list (row * row)) :
  order_ok ts →
  ident <$> imap (λ k ba, row_event h db table s op (0 + k) (bump_n (S k) ts) ba) l =
  (λ j, ident_at (db +:+ "." +:+ table) h j (skip_rows ts (S j))) <$> seq 0 (length l).
Proof.
  intros Hok. apply list_eq. intros k. rewrite !list_lookup_fmap, list_lookup_imap.
  destruct (decide (k < length l)%nat) as [Hk|Hk].
  - rewrite lookup_seq_lt by done. destruct (lookup_lt_is_Some_2 l k Hk) as [ba ->].
    cbn [fmap option_fmap option_map]. rewrite ident_row_event. f_equal.
    apply ident_at_proper. by apply bump_n_coords.
  - rewrite (lookup_ge_None_2 l) by lia. rewrite lookup_seq_ge by lia. done.
Qed.

(** A handler that does not fail sends the captured rows of its event and moves
    the coordinates; one that fails sends nothing. *)
Lemma handleEvent_log s sel ev ts (reg : schemaRegistry W) :
  order_ok ts →
  let r := handleEvent zone s sel ev ts reg in
  match h_err r with
  | None =>
      same_coords (h_ts r) (coords_step ts ev) ∧ order_ok (h_ts r) ∧
      ident <$> default [] (h_sent r) = captured_rows s (event_idents ts ev)
  | Some _ => h_sent r = None
  end.
Proof.
  intros Hok. unfold handleEvent, coords_step, event_idents, event_rows.
  destruct (Body ev) as [f|sid gno| |q|re|] eqn:Hb; simpl; try done.
  - split_and!; [done|by apply commit_order|done].
  - destruct (is_BEGIN q); simpl; [done|]. split_and!; [done|by apply commit_order|done].
  - destruct (opForEventType _) as [op|] eqn:Hop; simpl; [|done].
    assert (event_rows ev = Some (re, op)) as Her by (unfold event_rows; by rewrite Hb, Hop).
    pose proof (event_idents_captured s ts ev re op Her) as Hcap.
    unfold event_idents in Hcap. rewrite Her in Hcap. rewrite Hcap. clear Hcap.
    unfold emitRows. change (RTSchema re +:+ "." +:+ RTTable re) with (re_fqtn re).
    destruct (match_table (src_filter s) (re_fqtn re)); simpl; [|].
    2: { split_and!; [done|apply skip_rows_order|done]. }
    destruct (Get _ _ _ reg) as [[schema|e] reg'] eqn:HGet; simpl; [|done].
    match goal with |- context [let '(_, _) := ?x in _] => destruct x as [[schema'|e'] reg2] end;
      simpl; [|done].
    rewrite emit_loop_spec. cbn [app].
    set (l := images op schema' (Rows re)).
    assert (length l = re_count re op) as Hlen by apply images_length.
    assert (ident <$> imap (λ k ba, row_event (Header ev) (RTSchema re) (RTTable re) schema' op
      (0 + k) (bump_n (S k) ts) ba) l =
      (λ j, ident_at (re_fqtn re) (Header ev) j (skip_rows ts (S j))) <$> seq 0 (re_count re op))
      as Hids by (rewrite <-Hlen; by apply imap_idents).
    destruct (decide (length _ = 0%nat)) as [Hz|Hz]; simpl.
    + split_and!; [rewrite <-Hlen; by apply bump_n_coords|by apply bump_n_order|].
      rewrite length_imap in Hz. rewrite <-Hlen, Hz. done.
    + destruct sel; simpl; [done|].
      split_and!; [rewrite <-Hlen; by apply bump_n_coords|by apply bump_n_order|done].
Qed.

(** The numbers of the sent events continue the state's. *)
Definition seq_ok (ts : txnState) : Prop := u64 (ts_seq ts) = ts_seq ts.

Lemma handleEvent_seq s sel ev ts (reg : schemaRegistry W) :
  seq_ok ts →
  let r := handleEvent zone s sel ev ts reg in
  let b := default [] (h_sent r) in
  ev_seq <$> b = (λ k, u64 (ts_seq ts + 1 + Z.of_nat k)) <$> seq 0 (length b) ∧
  (h_err r = None → ts_seq (h_ts r) = u64 (ts_seq ts + Z.of_nat (length b))).
Proof.
  intros Hok.
  assert (Hcommit : ∀ p, ts_seq (commit ts p) = u64 (ts_seq ts + Z.of_nat 0)).
  { intros p. rewrite Z.add_0_r, Hok. unfold commit. destruct (ts_set ts); [|done].
    destruct (bool_decide _); [done|]. by destruct (gs_Update _ _). }
  assert (Hkeep : ts_seq ts = u64 (ts_seq ts + Z.of_nat 0)) by by rewrite Z.add_0_r.
  unfold handleEvent. destruct (Body ev) as [f|sid gno| |q|re|] eqn:Hb; try done.
  - split; [done|]. intros _. apply Hcommit.
  - destruct (is_BEGIN q); [done|]. split; [done|]. intros _. apply Hcommit.
  - destruct (opForEventType _) as [op|]; [|done]. unfold emitRows.
    destruct (match_table _ _); [|done]. cbn [negb].
    destruct (Get _ _ _ reg) as [[schema|e] reg'] eqn:HGet; [|done].
    match goal with |- context [let '(_, _) := ?x in _] => destruct x as [[schema'|e'] reg2] end;
      [|done].
    rewrite emit_loop_spec. cbn [app].
    set (l := images op schema' (Rows re)).
    destruct (decide (length _ = 0%nat)) as [Hz|Hz]; cbn [h_sent h_err h_ts default].
    { rewrite length_imap in Hz. rewrite Hz. done. }
    destruct sel; [done|]. cbn [h_sent h_err h_ts].
    match goal with |- context [default [] (Some ?x)] => change (default [] (Some x)) with x end.
    rewrite length_imap.
    split; [|intros _; by apply bump_n_seq]. apply list_eq. intros k.
    rewrite !list_lookup_fmap, list_lookup_imap.
    destruct (decide (k < length l)%nat) as [Hk|Hk].
    + rewrite lookup_seq_lt by done. destruct (lookup_lt_is_Some_2 l k Hk) as [ba ->].
      cbn [fmap option_fmap option_map]. f_equal.
      transitivity (ts_seq (bump_n (S k) ts)); [done|]. rewrite bump_n_seq by done. f_equal. lia.
    + rewrite (lookup_ge_None_2 l) by lia. rewrite lookup_seq_ge by lia. done.
Qed.

(** ** The whole run *)

Definition item_event (i : stream_item) : option BinlogEvent :=
  match i with SEvent ev _ => Some ev | SError _ => None end.
Definition items_events (items : list stream_item) : list BinlogEvent := omap item_event items.

(** The events a run has sent, in order. *)
Definition sent (st : run_state (W := W)) : list NomiosEvent := mjoin (r_out st).

Lemma sent_step (out : list (list NomiosEvent)) b :
  mjoin (match b with Some b => out ++ [b] | None => out end) = mjoin out ++ default [] b.
Proof. destruct b as [b|]; simpl; [|by rewrite app_nil_r]. by rewrite join_app; simpl; rewrite app_nil_r. Qed.

Lemma run_snoc (s : Source) items i (st : run_state (W := W)) :
  run zone s (items ++ [i]) st = run_step zone s (run zone s items st) i.
Proof. unfold run. by rewrite foldl_app. Qed.

Lemma items_events_snoc items i :
  items_events (items ++ [i]) = items_events items ++ option_list (item_event i).
Proof. unfold items_events. rewrite omap_app. simpl. by destruct (item_event i). Qed.

Lemma captured_rows_app s l1 l2 : captured_rows s (l1 ++ l2) = captured_rows s l1 ++ captured_rows s l2.
Proof. apply filter_app. Qed.

Record run_log (s : Source) (ts0 : txnState) (evs : list BinlogEvent) (st : run_state (W := W)) : Prop := {
  rl_prefix : ident <$> sent st `prefix_of` captured_rows s (row_log ts0 evs);
  rl_running : r_ret st = None →
    ident <$> sent st = captured_rows s (row_log ts0 evs) ∧
    same_coords (r_ts st) (foldl coords_step ts0 evs) ∧ order_ok (r_ts st);
}.

Lemma run_log_run (s : Source) ts0 (reg : schemaRegistry W) items :
  order_ok ts0 →
  run_log s ts0 (items_events items) (run zone s items (mkRun [] None ts0 reg)).
Proof.
  intros Hok. induction items as [|i items [Hpre Hrun]] using rev_ind.
  { split; [done|]. by intros _. }
  rewrite run_snoc, items_events_snoc.
  destruct (run zone s items _) as [out [ret|] ts reg'] eqn:Hst.
  { unfold run_step. simpl. split; [|done].
    etrans; [exact Hpre|]. rewrite row_log_app, captured_rows_app. by apply prefix_app_r. }
  destruct (Hrun eq_refl) as (Heq&Hco&Hts). clear Hrun Hpre. simpl in *.
  destruct i as [e|ev sel]; unfold run_step; simpl.
  { rewrite app_nil_r. split; [by rewrite <-Heq|done]. }
  pose proof (handleEvent_log s sel ev ts reg' Hts) as Hh. simpl in Hh.
  set (r := handleEvent zone s sel ev ts reg') in *.
  assert (Hrl : captured_rows s (row_log ts0 (items_events items ++ [ev])) =
    (ident <$> sent (mkRun out None ts reg')) ++ captured_rows s (event_idents ts ev)).
  { rewrite row_log_app, captured_rows_app, Heq. simpl. by rewrite app_nil_r, Hco. }
  assert (Hsent : ∀ ret, ident <$> sent (mkRun (match h_sent r with Some b => out ++ [b] | None => out end)
      ret (h_ts r) (h_reg r)) = (ident <$> sent (mkRun out None ts reg')) ++
      (ident <$> default [] (h_sent r))).
  { intros ret. unfold sent; simpl. by rewrite sent_step, fmap_app. }
  destruct (h_err r) as [e|] eqn:He.
  - split; [|done]. rewrite Hrl, Hsent, Hh. simpl. rewrite app_nil_r. by apply prefix_app_r.
  - destruct Hh as (Hs&Ho&Hi). split; [by rewrite Hrl, Hsent, Hi|].
    intros _. rewrite Hrl, Hsent, Hi. split_and!; [done| |done]. simpl.
    rewrite foldl_app. simpl. by rewrite Hs, Hco.
Qed.

Definition numbered (n : nat) : list Z := (λ k, u64 (Z.of_nat k + 1)) <$> seq 0 n.

Lemma numbered_app n m :
  numbered (n + m) = numbered n ++ ((λ k, u64 (Z.of_nat n + 1 + Z.of_nat k)) <$> seq 0 m).
Proof.
  unfold numbered. rewrite seq_app, fmap_app. f_equal. simpl.
  rewrite <-(Nat.add_0_r n) at 1. rewrite <-fmap_add_seq, <-list_fmap_compose.
  apply list_fmap_ext. intros _ k _. simpl. f_equal. lia.
Qed.

Lemma run_seq (s : Source) start (reg : schemaRegistry W) items :
  let st := run zone s items (mkRun [] None (initTxn start) reg) in
  ev_seq <$> sent st = numbered (length (sent st)) ∧
  (r_ret st = None → ts_seq (r_ts st) = u64 (Z.of_nat (length (sent st)))).
Proof.
  simpl. induction items as [|i items [Hn Hs]] using rev_ind; [done|].
  rewrite run_snoc. destruct (run zone s items _) as [out [ret|] ts reg'] eqn:Hst; [done|].
  specialize (Hs eq_refl). simpl in Hs.
  destruct i as [e|ev sel]; unfold run_step; simpl; [done|].
  assert (seq_ok ts) as Hok.
  { unfold seq_ok. rewrite Hs. unfold u64. by rewrite Z.mod_mod. }
  pose proof (handleEvent_seq s sel ev ts reg' Hok) as [Hb Ht]. simpl in Hb, Ht.
  set (r := handleEvent zone s sel ev ts reg') in *.
  unfold sent in *. cbn [r_out r_ret r_ts] in *.
  rewrite sent_step, fmap_app, length_app, numbered_app, Hn, Hb. split.
  - f_equal. apply list_fmap_ext. intros _ k _. rewrite Hs.
    rewrite <-Z.add_assoc, u64_add. f_equal. lia.
  - destruct (h_err r) as [e|] eqn:He; [done|]. intros _. rewrite Ht by done.
    rewrite Hs, u64_add. f_equal. lia.
Qed.
End log.
