(* ===== verification/SourceResume.v ===== *)
(** * Transactions, identifiers and resumption

    A replication stream as the server writes it: rotations and transactions, a
    transaction being its GTID event, its body and the event that commits it.
    The events the source emits from such a stream carry the coordinates
    committed before their transaction, distinct identifiers, and a position from
    which the server sends their transaction again. *)

From S2P Require Import Prelude GoStd GoText State Event Keys Filter Schema Binlog MysqlSource SourceLog.

(** ** GTID sets: what the source relies on

    [gs_valid] are the GTID texts a server produces, [gs_wf] the sets built from
    them, [gs_In] membership. *)
Class GTIDLaws `{GTIDSets} := {
  gs_valid : string → Prop;
  gs_wf : gtids → Prop;
  gs_In : string → gtids → Prop;
  gs_Update_ok : ∀ g s, gs_valid g → gs_wf s →
    ∃ s', gs_Update g s = (None, s') ∧ gs_wf s' ∧ gs_String s' ≠ "" ∧
      ∀ g', gs_valid g' → gs_In g' s' ↔ g' = g ∨ gs_In g' s;
  gs_Parse_String : ∀ s, gs_wf s → gs_Parse (gs_String s) = Ok s;
  gs_In_dec : ∀ g s, Decision (gs_In g s);
}.
#[export] Existing Instance gs_In_dec.

(** A set for evaluation: the texts in the order they came, each followed by a
    comma. *)
Fixpoint split_commas (acc s : string) : result (list string) :=
  match s with
  | "" => if decide (acc = "") then Ok [] else Err (EText "gtid set")
  | String c s =>
      if decide (c = ","%char) then l ←ok split_commas "" s; Ok (String.rev acc :: l)
      else split_commas (String c acc) s
  end.

Fixpoint join_commas (l : list string) : string :=
  match l with [] => "" | g :: l => g +:+ "," +:+ join_commas l end.

Definition no_comma (g : string) : bool := str_forallb (λ c, negb (bool_decide (c = ","%char))) g.

Definition sampleGTIDs : GTIDSets := {|
  gtids := list string;
  gs_Parse := split_commas "";
  gs_String := join_commas;
  gs_Update g s := (None, s ++ [g]);
|}.

Lemma rev_app_spec s t : String.rev_app s t = String.rev s +:+ t.
Proof.
  unfold String.rev. revert t.
  assert (∀ a t, String.rev_app s (a +:+ t) = String.rev_app s a +:+ t) as Hg.
  { induction s as [|c s IH]; intros a t; simpl; [done|]. rewrite <-IH. done. }
  intros t. by rewrite <-(str_app_nil_l t) at 1; rewrite Hg.
Qed.

Lemma split_join_commas l acc g :
  no_comma g = true → Forall (λ g, no_comma g = true) l →
  split_commas acc (g +:+ "," +:+ join_commas l) =
    rest ←ok split_commas "" (join_commas l); Ok ((String.rev acc +:+ g) :: rest).
Proof.
  intros Hg _. revert acc. induction g as [|c g IH]; intros acc.
  - rewrite !str_app_nil_l, str_app_cons, str_app_nil_l, str_app_nil_r. done.
  - unfold no_comma in *. simpl in Hg. apply andb_true_iff in Hg as [Hc Hg].
    apply negb_true_iff, bool_decide_eq_false in Hc.
    rewrite !str_app_cons. simpl. rewrite decide_False by done.
    rewrite IH by done. unfold String.rev at 1. simpl. rewrite rev_app_spec.
    by rewrite <-str_app_assoc.
Qed.

Lemma sampleGTIDs_laws : @GTIDLaws sampleGTIDs.
Proof.
  refine (@Build_GTIDLaws sampleGTIDs (λ g, no_comma g = true)
    (Forall (λ g, no_comma g = true)) (λ g (s : list string), g ∈ s) _ _ _).
  - intros g s Hg Hs. exists (s ++ [g]). simpl. split_and!; [done| | |].
    + apply Forall_app. by split; [|repeat constructor].
    + destruct s as [|g0 s]; simpl; intros Heq%str_app_eq_nil; naive_solver.
    + intros g' _. rewrite elem_of_app, list_elem_of_singleton. tauto.
  - intros s Hs. simpl. induction Hs as [|g s Hg Hs IH]; [done|].
    simpl. rewrite split_join_commas by done. by rewrite IH.
Defined.

(** ** Streams of transactions *)

(** The body of a transaction: row events, events the source ignores, [BEGIN]. *)
Definition in_body (ev : BinlogEvent) : bool :=
  match Body ev with
  | RowsBody _ | OtherBody => true
  | QueryEvent q => is_BEGIN q
  | _ => false
  end.

(** What ends a transaction: an XID event, or any other query (a DDL statement,
    or the COMMIT of a non-transactional engine). *)
Definition ends_txn (ev : BinlogEvent) : bool :=
  match Body ev with
  | XIDEvent => true
  | QueryEvent q => negb (is_BEGIN q)
  | _ => false
  end.

Record txn := mkTransaction {
  tx_header : EventHeader;
  tx_sid : string;
  tx_gno : Z;
  tx_body : list BinlogEvent;
  tx_end : BinlogEvent;
}.

Definition tx_gtid (t : txn) : string := gtid_text (tx_sid t) (tx_gno t).

Inductive segment :=
  | Rotate (h : EventHeader) (f : string)
  | Tx (t : txn).

Definition seg_events (g : segment) : list BinlogEvent :=
  match g with
  | Rotate h f => [mkBinlogEvent h (RotateEvent f)]
  | Tx t => mkBinlogEvent (tx_header t) (GTIDEvent (tx_sid t) (tx_gno t)) :: tx_body t ++ [tx_end t]
  end.

Definition stream_events (gs : list segment) : list BinlogEvent := gs ≫= seg_events.

Definition seg_txn (g : segment) : option txn := match g with Tx t => Some t | _ => None end.
Definition stream_txns (gs : list segment) : list txn := omap seg_txn gs.

(** The rows of a transaction, captured or not. *)
Definition body_count (evs : list BinlogEvent) : nat :=
  sum_list ((λ ev, match event_rows ev with Some (re, op) => re_count re op | None => 0%nat end) <$> evs).

Lemma body_count_cons ev evs : body_count (ev :: evs) = (body_count [ev] + body_count evs)%nat.
Proof. unfold body_count. rewrite !fmap_cons, fmap_nil. cbn [sum_list]. lia. Qed.

Section resume.
Context `{GoFmt} `{GTIDLaws}.

Record txn_ok (t : txn) : Prop := {
  tk_gtid : gs_valid (tx_gtid t);
  tk_body : Forall (λ ev, in_body ev = true) (tx_body t);
  tk_end : ends_txn (tx_end t) = true;
  tk_count : (Z.of_nat (body_count (tx_body t)) < 2 ^ 63)%Z;
}.

Lemma gtid_text_nonempty sid gno : gtid_text sid gno ≠ "".
Proof.
  unfold gtid_text. intros [_ Hg]%str_app_eq_nil. apply str_app_eq_nil in Hg as [Hg _]. done.
Qed.

(** *** One transaction *)

Definition resume_of (ts : txnState) : string * string * Z :=
  (committedGTID ts, committedFile ts, committedPos ts).

(** What a body keeps of the state. *)
Lemma skip_rows_add ts n m : skip_rows (skip_rows ts n) m = skip_rows ts (n + m).
Proof. unfold skip_rows. simpl. rewrite i64_add, Nat2Z.inj_add. by rewrite Z.add_assoc. Qed.

Lemma coords_step_body ts ev :
  order_ok ts → in_body ev = true →
  coords_step ts ev = skip_rows ts (body_count [ev]).
Proof.
  intros Hok Hb. unfold in_body in Hb. unfold body_count, coords_step, event_rows. simpl.
  assert (ts = skip_rows ts 0) as Hz.
  { unfold skip_rows. rewrite Z.add_0_r, Hok. by destruct ts. }
  destruct (Body ev) as [| | |q|re|]; simpl; try done; [by rewrite Hb|].
  destruct (opForEventType _); simpl; [|done]. by rewrite Nat.add_0_r.
Qed.

Lemma body_coords ts evs :
  order_ok ts → Forall (λ ev, in_body ev = true) evs →
  foldl coords_step ts evs = skip_rows ts (body_count evs).
Proof.
  intros Hok Hb. revert ts Hok. induction Hb as [|ev evs Hev _ IH]; intros ts Hok; simpl.
  - unfold skip_rows. rewrite Z.add_0_r, Hok. by destruct ts.
  - rewrite coords_step_body, IH by (done || apply skip_rows_order).
    rewrite skip_rows_add. by rewrite (body_count_cons ev evs).
Qed.

(** The identifier, order and coordinates of the [k]-th row of a transaction. *)
Definition row_ok (ts : txnState) (r : row_ident) (k : nat) : Prop :=
  ri_gtid r = pendingGTID ts ∧ ri_order r = i64 (txOrder ts + Z.of_nat (S k)) ∧
  ri_id r = pendingGTID ts +:+ "#" +:+ pretty (ri_order r) ∧ ri_resume r = resume_of ts.

Lemma event_rows_ok ts ev :
  pendingGTID ts ≠ "" →
  Forall2 (row_ok ts) (event_idents ts ev) (seq 0 (body_count [ev])).
Proof.
  intros Hg. unfold event_idents, body_count. simpl. rewrite Nat.add_0_r.
  destruct (event_rows ev) as [[re op]|]; [|constructor].
  apply Forall2_fmap_l. apply Forall_Forall2_diag. apply Forall_forall. intros j _.
  unfold row_ok, ident_at, event_id. simpl. split_and!; try done.
  rewrite bool_decide_eq_false_2 by done. done.
Qed.

Lemma body_rows_ok ts evs :
  pendingGTID ts ≠ "" → order_ok ts → Forall (λ ev, in_body ev = true) evs →
  Forall2 (row_ok ts) (row_log ts evs) (seq 0 (body_count evs)).
Proof.
  intros Hg Hok Hb. revert ts Hg Hok. induction Hb as [|ev evs Hev _ IH]; intros ts Hg Hok; simpl.
  - constructor.
  - rewrite coords_step_body by done. set (n := body_count [ev]).
    rewrite (body_count_cons ev evs). fold n.
    rewrite seq_app. apply Forall2_app; [by apply event_rows_ok|].
    simpl. rewrite <-(Nat.add_0_r n) at 2. rewrite <-fmap_add_seq. apply Forall2_fmap_r.
    eapply Forall2_impl; [apply IH; [done|apply skip_rows_order]|].
    intros r k (?&Ho&?&?). unfold row_ok. simpl in *. split_and!; try done.
    rewrite Ho, i64_add. f_equal. lia.
Qed.

(** The state a transaction's rows see. *)
Definition opened (ts : txnState) (t : txn) : txnState := set_pendingGTID ts (tx_gtid t).

Lemma opened_pending ts t : pendingGTID (opened ts t) ≠ "".
Proof. apply gtid_text_nonempty. Qed.

Lemma opened_order ts t : order_ok (opened ts t).
Proof. done. Qed.

Lemma end_no_rows ev ts : ends_txn ev = true → event_idents ts ev = [].
Proof. unfold ends_txn, event_idents, event_rows. by destruct (Body ev). Qed.

Lemma end_commits ev ts : ends_txn ev = true → coords_step ts ev = commit ts (LogPos (Header ev)).
Proof.
  unfold ends_txn, coords_step. destruct (Body ev); try done. by destruct (is_BEGIN _).
Qed.

Lemma txn_log ts t : txn_ok t → row_log ts (seg_events (Tx t)) = row_log (opened ts t) (tx_body t).
Proof.
  intros [_ _ He _]. cbn [seg_events row_log]. unfold event_idents at 1, event_rows at 1. simpl.
  rewrite row_log_app. simpl. by rewrite end_no_rows, !app_nil_r.
Qed.

Lemma txn_rows ts t :
  txn_ok t →
  Forall2 (row_ok (opened ts t)) (row_log ts (seg_events (Tx t))) (seq 0 (body_count (tx_body t))).
Proof.
  intros Ht. rewrite txn_log by done. destruct Ht as [_ Hb _ _]. apply body_rows_ok; [apply gtid_text_nonempty|done|done].
Qed.

Lemma txn_state ts t :
  txn_ok t →
  foldl coords_step ts (seg_events (Tx t)) =
    commit (skip_rows (opened ts t) (body_count (tx_body t))) (LogPos (Header (tx_end t))).
Proof.
  intros [_ Hb He _]. cbn [seg_events foldl]. rewrite foldl_app. simpl.
  rewrite end_commits by done. f_equal. by rewrite body_coords.
Qed.

(** *** A stream *)

(** Between transactions the executed set is the committed one. *)
Record boundary (s : gtids) (ts : txnState) : Prop := {
  bd_set : ts_set ts = Some s;
  bd_text : committedGTID ts = gs_String s;
  bd_wf : gs_wf s;
  bd_order : order_ok ts;
}.

Lemma boundary_rotate s ts h f :
  boundary s ts → boundary s (foldl coords_step ts (seg_events (Rotate h f))).
Proof. by intros []. Qed.

Lemma boundary_txn s ts t :
  txn_ok t → boundary s ts →
  ∃ s', boundary s' (foldl coords_step ts (seg_events (Tx t))) ∧ gs_String s' ≠ "" ∧
    ∀ g, gs_valid g → gs_In g s' ↔ g = tx_gtid t ∨ gs_In g s.
Proof.
  intros Ht [Hs Hc Hw Ho]. rewrite txn_state by done. destruct Ht as [Hg _ _ _].
  destruct (gs_Update_ok (tx_gtid t) s Hg Hw) as (s'&Hu&Hw'&Hne&Hin).
  exists s'. split; [|done]. unfold commit. simpl. rewrite Hs.
  rewrite bool_decide_eq_false_2 by apply gtid_text_nonempty. simpl. rewrite Hu.
  split; simpl; try done. apply i64_idem.
Qed.

Definition seg_ok (g : segment) : Prop := match g with Tx t => txn_ok t | Rotate _ _ => True end.

Lemma boundary_stream s ts gs :
  Forall seg_ok gs → boundary s ts →
  ∃ s', boundary s' (foldl coords_step ts (stream_events gs)) ∧
    (gs_String s ≠ "" → gs_String s' ≠ "") ∧
    ∀ g, gs_valid g → gs_In g s' ↔ g ∈ tx_gtid <$> stream_txns gs ∨ gs_In g s.
Proof.
  intros Hgs. revert s ts. induction Hgs as [|g gs Hg _ IH]; intros s ts Hb; simpl.
  { exists s. split_and!; [done|done|]. intros g _. rewrite elem_of_nil. tauto. }
  unfold stream_events in *. simpl. rewrite foldl_app.
  destruct g as [h f|t].
  - destruct (IH s _ (boundary_rotate _ _ h f Hb)) as (s'&?&?&Hin). exists s'.
    split_and!; [done|done|]. intros g Hv. by rewrite Hin.
  - destruct (boundary_txn s ts t Hg Hb) as (s1&Hb1&Hne1&Hin1).
    destruct (IH s1 _ Hb1) as (s'&?&Hne&Hin). exists s'. split_and!; [done|by auto|].
    intros g Hv. rewrite Hin, Hin1 by done. simpl. rewrite elem_of_cons. tauto.
Qed.

(** Every logged row belongs to one transaction of the stream. *)
Lemma stream_row ts gs r :
  Forall seg_ok gs → r ∈ row_log ts (stream_events gs) →
  ∃ pre t post k, gs = pre ++ Tx t :: post ∧ (k < body_count (tx_body t))%nat ∧
    row_ok (opened (foldl coords_step ts (stream_events pre)) t) r k.
Proof.
  intros Hgs. revert ts. induction Hgs as [|g gs Hg _ IH]; intros ts; simpl.
  { intros Hr. by apply not_elem_of_nil in Hr. }
  unfold stream_events in *. simpl. rewrite row_log_app, elem_of_app. intros [Hr|Hr].
  - destruct g as [h f|t]; [by apply not_elem_of_nil in Hr|].
    pose proof (txn_rows ts t Hg) as Hrows. apply list_elem_of_lookup in Hr as [i Hi].
    destruct (Forall2_lookup_l _ _ _ _ _ Hrows Hi) as (k&Hk&Hok).
    apply lookup_seq in Hk as [-> ?]. by exists [], t, gs, (0 + i)%nat.
  - destruct (IH _ Hr) as (pre&t&post&k&->&Hk&Hok). exists (g :: pre), t, post, k.
    split_and!; [done|done|]. simpl. by rewrite foldl_app.
Qed.

(** *** Identifiers *)

Definition txn_ids (t : txn) : list string :=
  (λ k, tx_gtid t +:+ "#" +:+ pretty (Z.of_nat (S k))) <$> seq 0 (body_count (tx_body t)).

Lemma txn_rows_ids ts t :
  txn_ok t → ri_id <$> row_log ts (seg_events (Tx t)) = txn_ids t.
Proof.
  intros Ht. pose proof (txn_rows ts t Ht) as Hr. destruct Ht as [_ _ _ Hc].
  unfold txn_ids. apply list_eq_Forall2, Forall2_fmap. apply Forall2_same_length_lookup_2.
  { by apply Forall2_length in Hr. }
  intros i r k Hir Hk. destruct (Forall2_lookup_lr _ _ _ _ _ _ Hr Hir Hk) as (_&Ho&->&_).
  apply lookup_seq in Hk as [-> Hlt]. rewrite Ho. simpl. rewrite i64_small by lia. done.
Qed.

Lemma stream_ids ts gs :
  Forall seg_ok gs → ri_id <$> row_log ts (stream_events gs) = stream_txns gs ≫= txn_ids.
Proof.
  intros Hgs. revert ts. induction Hgs as [|g gs Hg _ IH]; intros ts; [done|].
  unfold stream_events in *. simpl. rewrite row_log_app, fmap_app, IH.
  destruct g as [h f|t]; [done|]. by rewrite txn_rows_ids.
Qed.

(** A separator that does not occur in the right part cuts a string one way. *)
Lemma str_split_unique_r (p : ascii → bool) (c : ascii) s1 s2 t1 t2 :
  p c = false → str_forallb p t1 = true → str_forallb p t2 = true →
  s1 +:+ String c t1 = s2 +:+ String c t2 → s1 = s2 ∧ t1 = t2.
Proof.
  intros Hc Ha Hb. assert (∀ s t, str_forallb p (s +:+ String c t) = true → False) as Hno.
  { intros s t. rewrite str_forallb_app. simpl. rewrite Hc. by rewrite andb_false_r. }
  revert s2. induction s1 as [|a s1 IH]; intros [|b s2]; rewrite ?str_app_nil_l, ?str_app_cons.
  - by intros [= ->].
  - intros [= _ Heq]. rewrite Heq in Ha. by apply Hno in Ha.
  - intros [= _ Heq]. rewrite <-Heq in Hb. by apply Hno in Hb.
  - intros [= -> Heq]. by destruct (IH s2 Heq) as [-> ->].
Qed.

Lemma txn_id_inj (g g' : string) (k k' : Z) :
  g +:+ "#" +:+ pretty k = g' +:+ "#" +:+ pretty k' → g = g' ∧ k = k'.
Proof.
  intros Heq. apply (str_split_unique_r is_num_char "#") in Heq as [-> Hk];
    [|done|apply pretty_Z_num_chars..].
  split; [done|]. by apply (inj pretty).
Qed.

Lemma txn_ids_NoDup ts : NoDup (tx_gtid <$> ts) → NoDup (ts ≫= txn_ids).
Proof.
  induction ts as [|t ts IH]; simpl; [constructor|].
  intros [Hno Hnd]%NoDup_cons. apply NoDup_app. split_and!.
  - unfold txn_ids. apply NoDup_fmap_2_strong; [|apply NoDup_seq].
    intros k k' _ _ Heq. apply txn_id_inj in Heq as [_ Heq]. lia.
  - intros x (k&->&_)%list_elem_of_fmap (t'&Hx&Ht')%list_elem_of_bind.
    apply list_elem_of_fmap in Hx as (k'&Heq&_). apply txn_id_inj in Heq as [Heq _].
    apply Hno. rewrite Heq. by apply list_elem_of_fmap_2.
  - by apply IH.
Qed.
End resume.

Lemma txns_valid `{GTIDLaws} gs t :
  Forall seg_ok gs → t ∈ stream_txns gs → gs_valid (tx_gtid t).
Proof.
  intros Hok (g&Hg&Heq)%list_elem_of_omap. rewrite Forall_forall in Hok.
  apply Hok in Hg. destruct g; simplify_eq/=. apply Hg.
Qed.

(** ** A run for evaluation *)

Definition sample_gtid_event : BinlogEvent :=
  mkBinlogEvent (mkHeader 1700000000 (OtherEventType 33) 1 10) (GTIDEvent "0123456789abcdef" 7).
Definition sample_rows (pos : Z) (ty : EventType) (rows : list (list value)) : BinlogEvent :=
  mkBinlogEvent (mkHeader 1700000000 ty 1 pos) (RowsBody (mkRows "shop" "orders" rows)).
Definition sample_values (id : Z) : list value :=
  [VInt64 id; VBytes (Some "hi"); VString "{}"; VString "AB"].
Definition sample_xid (pos : Z) : BinlogEvent :=
  mkBinlogEvent (mkHeader 1700000000 (OtherEventType 16) 1 pos) XIDEvent.
Definition sample_query (pos : Z) (q : string) : BinlogEvent :=
  mkBinlogEvent (mkHeader 1700000000 (OtherEventType 2) 1 pos) (QueryEvent q).

Definition sample_txn (gno : Z) (pos : Z) : txn :=
  mkTransaction (mkHeader 1700000000 (OtherEventType 33) 1 pos) "0123456789abcdef" gno
    [sample_query pos "BEGIN"; sample_rows (pos + 10) WRITE_ROWS_EVENTv2 [sample_values 1; sample_values 2];
     sample_rows (pos + 20) UPDATE_ROWS_EVENTv2 [sample_values 1; sample_values 3]]
    (sample_xid (pos + 30)).

Definition sample_segments : list segment :=
  [Rotate (mkHeader 0 (OtherEventType 4) 1 0) "bin.000001"; Tx (sample_txn 1 100); Tx (sample_txn 2 200)].

Definition sample_items : list stream_item :=
  (λ ev, SEvent ev None) <$> stream_events sample_segments.

Definition sample_config : Config := mkConfig "h" 0 "u" "p" 7 true [] [] 0.
Definition sample_source : Source := NewSource sample_config.
Definition sample_start : @startPoint sampleGTIDs := @mkStart sampleGTIDs (Some ["x:1"]) "" 0.

Definition sample_run : @run_state sampleGTIDs nat :=
  @run sampleFmt sampleGTIDs nat sampleServer (λ _, 0%Z) sample_source sample_items
    (mkRun [] None (initTxn sample_start) (mkRegistry ∅ 0%nat)).

Example sample_run_ids : ID <$> sent sample_run =
  ["30313233-3435-3637-3839-616263646566:1#1"; "30313233-3435-3637-3839-616263646566:1#2";
   "30313233-3435-3637-3839-616263646566:1#3"; "30313233-3435-3637-3839-616263646566:2#1";
   "30313233-3435-3637-3839-616263646566:2#2"; "30313233-3435-3637-3839-616263646566:2#3"].
Proof. vm_compute. reflexivity. Qed.

Lemma sample_segments_items : items_events sample_items = stream_events sample_segments.
Proof. vm_compute. reflexivity. Qed.

Lemma sample_segments_ok : @Forall segment (@seg_ok sampleGTIDs sampleGTIDs_laws) sample_segments.
Proof. repeat constructor; vm_compute; reflexivity. Qed.

(** ** Properties *)
Section properties.
Context `{GoFmt} `{GTIDLaws} {W : Type} `{SchemaServer W} (zone : Z → Z) (quote : string → string).

(** [C10] The source emits the captured rows of the stream and nothing else, in
    stream order: at any point the identifiers, transaction orders and resume
    coordinates of what was sent are a prefix of the row log filtered by the table
    filter, and all of it while the run has not returned.  The log does not
    depend on the filter, so two nodes with different filters give a row the same
    identifier. *)
Theorem source_refines_row_log (s : Source) (start : startPoint) (reg : schemaRegistry W)
    (items : list stream_item) :
  let st := run zone s items (mkRun [] None (initTxn start) reg) in
  let log := captured_rows s (row_log (initTxn start) (items_events items)) in
  ident <$> sent st `prefix_of` log ∧ (r_ret st = None → ident <$> sent st = log).
Proof.
  destruct (run_log_run zone s (initTxn start) reg items eq_refl) as [Hp Hr].
  split; [exact Hp|]. intros Hret. by apply Hr.
Qed.

(** Sequence numbers are contiguous: the events sent by a run are numbered
    1, 2, 3, ... whatever is filtered, fails or is cancelled, which is what the
    checkpoint tracker counts on. *)
Theorem source_seq_contiguous (s : Source) (start : startPoint) (reg : schemaRegistry W)
    (items : list stream_item) :
  let st := run zone s items (mkRun [] None (initTxn start) reg) in
  (Z.of_nat (length (sent st)) < 2 ^ 64)%Z →
  ev_seq <$> sent st = seqZ 1 (Z.of_nat (length (sent st))).
Proof.
  intros st Hlen. destruct (run_seq zone s start reg items) as [Hn _].
  fold st in Hn. rewrite Hn.
  unfold numbered, seqZ. rewrite Nat2Z.id. apply list_fmap_ext. intros i k Hk.
  apply lookup_seq in Hk as [-> ?]. rewrite u64_small; lia.
Qed.

(** [C26] No two events of a stream have the same identifier, when no two of its
    transactions have the same GTID. *)
Theorem source_ids_distinct (s : Source) (start : startPoint) (reg : schemaRegistry W)
    (items : list stream_item) (gs : list segment) :
  items_events items = stream_events gs → Forall seg_ok gs →
  NoDup (tx_gtid <$> stream_txns gs) →
  NoDup (ID <$> sent (run zone s items (mkRun [] None (initTxn start) reg))).
Proof.
  intros Hitems Hgs Hnd.
  destruct (run_log_run zone s (initTxn start) reg items eq_refl) as [Hp _].
  rewrite Hitems in Hp. set (st := run _ _ _ _) in *.
  change (NoDup ((ri_id ∘ ident) <$> sent st)). rewrite list_fmap_compose.
  destruct Hp as [rest Heq]. apply (f_equal (fmap ri_id)) in Heq. rewrite fmap_app in Heq.
  assert (NoDup (ri_id <$> row_log (initTxn start) (stream_events gs))) as Hlog.
  { rewrite stream_ids by done. by apply txn_ids_NoDup. }
  assert (NoDup (ri_id <$> captured_rows s (row_log (initTxn start) (stream_events gs)))) as Hcap.
  { eapply sublist_NoDup; [exact Hlog|]. unfold captured_rows. by rewrite sublist_filter. }
  rewrite Heq in Hcap. by apply NoDup_app in Hcap as [? _].
Qed.

(** The start point an event's position resolves to: the executed set is the one
    before the event's transaction. *)
Lemma resume_point (s : Source) (s0 : gtids) (f : string) (o : Z)
    (reg : schemaRegistry W) (items : list stream_item) (gs : list segment)
    (status : result (string * string * Z)) (e : NomiosEvent) :
  UseGTID (src_cfg s) = true →
  gs_wf s0 → gs_String s0 ≠ "" →
  items_events items = stream_events gs → Forall seg_ok gs →
  e ∈ sent (run zone s items (mkRun [] None (initTxn (mkStart (Some s0) f o)) reg)) →
  ∃ pre t post s', gs = pre ++ Tx t :: post ∧ GTID (EvSource e) = tx_gtid t ∧
    resolveStart quote (src_cfg s) status (EvPosition e) = Ok (mkStart (Some s') "" 0) ∧
    GTIDSet (EvPosition e) = gs_String s' ∧ gs_wf s' ∧ gs_String s' ≠ "" ∧
    ∀ g, gs_valid g → gs_In g s' ↔ g ∈ tx_gtid <$> stream_txns pre ∨ gs_In g s0.
Proof.
  intros Hgtid Hwf Hne Hitems Hgs He.
  set (ts0 := initTxn (mkStart (Some s0) f o)) in *.
  destruct (run_log_run zone s ts0 reg items eq_refl) as [Hp _]. rewrite Hitems in Hp.
  assert (ident e ∈ row_log ts0 (stream_events gs)) as Hlog.
  { eapply elem_of_prefix in Hp; [|by apply list_elem_of_fmap_2].
    by apply list_elem_of_filter in Hp as [_ ?]. }
  apply stream_row in Hlog as (pre&t&post&k&->&Hk&(Hg&_&_&Hres)); [|done].
  simpl in Hg, Hres. apply Forall_app in Hgs as [Hpre [Ht Hpost]%Forall_cons].
  assert (boundary s0 ts0) as Hb0 by done.
  destruct (boundary_stream s0 ts0 pre Hpre Hb0) as (s'&[_ Htext Hwf' _]&Hne'&Hin).
  unfold resume_of in Hres. simpl in Hres. injection Hres as HG _ _.
  exists pre, t, post, s'. split_and!; [done|done| |congruence|done|by auto|done].
  unfold resolveStart. rewrite Hgtid, HG, Htext, bool_decide_eq_false_2 by auto. simpl.
  by rewrite gs_Parse_String.
Qed.

End properties.

Lemma source_seq_contiguous_witness :
  length (sent sample_run) = 6%nat ∧
  ev_seq <$> sent sample_run = seqZ 1 (Z.of_nat (length (sent sample_run))).
Proof.
  split; [vm_compute; reflexivity|].
  apply (@source_seq_contiguous sampleFmt sampleGTIDs nat sampleServer (λ _, 0%Z) sample_source
    sample_start (mkRegistry ∅ 0%nat) sample_items).
  vm_compute. reflexivity.
Defined.

Lemma sample_gtids_distinct : NoDup (tx_gtid <$> stream_txns sample_segments).
Proof. decide_closed. Qed.

Lemma source_ids_distinct_witness : NoDup (ID <$> sent sample_run).
Proof.
  apply (@source_ids_distinct sampleFmt sampleGTIDs sampleGTIDs_laws nat sampleServer (λ _, 0%Z)
    sample_source sample_start (mkRegistry ∅ 0%nat) sample_items sample_segments).
  - apply sample_segments_items.
  - apply sample_segments_ok.
  - apply sample_gtids_distinct.
Defined.


(** A transaction with a statement the binlog carries as a query event between
    its rows. *)
Definition savepoint_items : list stream_item :=
  (λ ev, SEvent ev None) <$>
    [sample_gtid_event; sample_query 20 "BEGIN";
     sample_rows 30 WRITE_ROWS_EVENTv2 [sample_values 1]; sample_query 40 "SAVEPOINT `sp1`";
     sample_rows 50 WRITE_ROWS_EVENTv2 [sample_values 2]; sample_xid 60].

(** Any query event but BEGIN commits the open transaction, a SAVEPOINT
    within it too: a later row of the transaction is stamped with a position that
    already contains the transaction, and loses its GTID and its GTID-based
    identifier.  Resuming from that position, the server does not send the rest
    of the transaction again. *)
Theorem savepoint_commits_early :
  let st := @run sampleFmt sampleGTIDs nat sampleServer (λ _, 0%Z) sample_source savepoint_items
    (mkRun [] None (initTxn sample_start) (mkRegistry ∅ 0%nat)) in
  let g := gtid_text "0123456789abcdef" 7 in
  ∃ e1 e2, sent st = [e1; e2] ∧ GTID (EvSource e1) = g ∧ GTID (EvSource e2) = "" ∧
    ID e2 = ":50:0" ∧
    @resolveStart sampleGTIDs id (src_cfg sample_source) (Err (EText "unused")) (EvPosition e2) =
      Ok (@mkStart sampleGTIDs (Some ["x:1"; g]) "" 0).
Proof. eexists _, _. split; [vm_compute; reflexivity|]. repeat split; vm_compute; reflexivity. Qed.

(** A position saved before the first commit of a server with an empty
    executed set is the zero position, and resuming from it starts at the
    server's current set instead of the beginning: here past the transaction the
    position was saved in. *)
Theorem empty_set_resumes_at_the_end :
  let st := @run sampleFmt sampleGTIDs nat sampleServer (λ _, 0%Z) sample_source
    ((λ ev, SEvent ev None) <$> seg_events (Tx (sample_txn 1 100)))
    (mkRun [] None (initTxn (@mkStart sampleGTIDs (Some []) "" 0)) (mkRegistry ∅ 0%nat)) in
  ∃ e es, sent st = e :: es ∧ IsZero (EvPosition e) = true ∧
    @resolveStart sampleGTIDs id (src_cfg sample_source)
      (Ok (tx_gtid (sample_txn 1 100) +:+ ",", "bin.000001", 130%Z)) (EvPosition e) =
      Ok (@mkStart sampleGTIDs (Some [tx_gtid (sample_txn 1 100)]) "" 0).
Proof. eexists _, _. split; [vm_compute; reflexivity|]. split; vm_compute; reflexivity. Qed.
