(* ===== verification/KafkaSink.v ===== *)
(** * The Kafka sink

    pkg/publish/kafka/sink.go.  The Kafka client is not modelled: what it does is
    call each record's promise once, at any time and from any goroutine, with an
    error or without.  The asynchronous part is a labelled transition system in
    which the instructions of [PublishBatch] and of the promises that touch
    shared state are separate steps, so that all their interleavings are runs. *)

From S2P Require Import Prelude GoStd GoText State Event.

(** ** Config *)
Record Config := mkConfig {
  Brokers : list string;
  TopicTemplate : string;
  Compression : string;
  TopicOverrides : gmap string string;
  AllowAutoTopicCreation : bool;
  MaxInflightBatches : Z;
}.

Definition withDefaults (c : Config) : Config :=
  mkConfig (Brokers c)
    (if decide (TopicTemplate c = "") then "cdc.{database}.{table}" else TopicTemplate c)
    (if decide (Compression c = "") then "lz4" else Compression c)
    (TopicOverrides c) (AllowAutoTopicCreation c)
    (if decide (MaxInflightBatches c ≤ 0)%Z then 32%Z else MaxInflightBatches c).

Inductive Codec := Lz4 | Snappy | Gzip | Zstd | NoCompression.

(** The switch of [New]; [None] is its error. *)
Definition compression_of (c : Config) : option Codec :=
  if decide (Compression c = "lz4") then Some Lz4
  else if decide (Compression c = "snappy") then Some Snappy
  else if decide (Compression c = "gzip") then Some Gzip
  else if decide (Compression c = "zstd") then Some Zstd
  else if decide (Compression c = "none") then Some NoCompression
  else None.

(** ** Topics *)

(** [strings.NewReplacer] with two pairs: at each place the first old string that
    fits is replaced, and replacements are not scanned again. *)
Fixpoint replace2 (fuel : nat) (o1 n1 o2 n2 s : string) : string :=
  match fuel with
  | O => s
  | S fuel =>
      match s with
      | "" => ""
      | String c s' =>
          match strip_prefix o1 s with
          | Some r => n1 +:+ replace2 fuel o1 n1 o2 n2 r
          | None =>
              match strip_prefix o2 s with
              | Some r => n2 +:+ replace2 fuel o1 n1 o2 n2 r
              | None => String c (replace2 fuel o1 n1 o2 n2 s')
              end
          end
      end
  end.

Definition expand_template (template db table : string) : string :=
  replace2 (String.length template) "{database}" db "{table}" table template.

(** The topic of a table. *)
Definition resolve_topic (c : Config) (m : SourceMeta) : string :=
  match TopicOverrides c !! FQTN m with
  | Some t => t
  | None => expand_template (TopicTemplate c) (Database m) (Table m)
  end.

Abbreviation topic_cache := (gmap (string * string) string).

(** [Topic]: the read under the read lock, the write under the write lock. *)
Definition topic_lookup (topics : topic_cache) (e : NomiosEvent) : option string :=
  topics !! (Database (EvSource e), Table (EvSource e)).

Definition topic_store (topics : topic_cache) (e : NomiosEvent) (t : string) : topic_cache :=
  <[(Database (EvSource e), Table (EvSource e)) := t]> topics.

Definition Topic (c : Config) (topics : topic_cache) (e : NomiosEvent) : string * topic_cache :=
  match topic_lookup topics e with
  | Some t => (t, topics)
  | None => let t := resolve_topic c (EvSource e) in (t, topic_store topics e t)
  end.

(** ** Serialization of a batch *)
Record krecord := mkRecord {
  k_topic : string;
  k_key : string;
  k_value : string;
}.

Class Serializer := Serialize : NomiosEvent → result (string * string).

Fixpoint make_records `{Serializer} (c : Config) (topics : topic_cache) (es : list NomiosEvent) :
    result (list krecord * list Position) * topic_cache :=
  match es with
  | [] => (Ok ([], []), topics)
  | e :: es =>
      match Serialize e with
      | Err err => (Err (EWrap ("kafka: serialize event " +:+ ID e) err), topics)
      | Ok (k, v) =>
          let '(t, topics) := Topic c topics e in
          match make_records c topics es with
          | (Ok (rs, ps), topics) => (Ok (mkRecord t k v :: rs, EvPosition e :: ps), topics)
          | (Err err, topics) => (Err err, topics)
          end
      end
  end.

(** ** The asynchronous part *)

(** Where the promise of a record is. *)
Inductive promise_pc :=
  | PrIdle                      (* the record was not produced yet *)
  | PrPending                   (* with the client *)
  | PrErr (e : goerr)           (* called with an error *)
  | PrSetErr (e : goerr)        (* [failed] stored *)
  | PrDec (ok : bool)           (* before [remaining.Add(-1)] *)
  | PrFin (ok : bool).          (* the decrement is done *)

(** What the promise that brought [remaining] to zero still has to do. *)
Inductive last_pc :=
  | LNone | LRelease | LLoadFailed | LWgDone | LFinished.

(** Where the [PublishBatch] call is. *)
Inductive call_pc :=
  | CWaiting                    (* at the select, before the slot *)
  | CHolding                    (* slot taken, before [pending.Add(1)] *)
  | CSubmitting (k : nat)       (* [k] records handed to the client *)
  | CReturned
  | CCancelled.                 (* returned [ctx.Err()] *)

Record call := mkCall {
  c_records : list krecord;
  c_positions : list Position;
  c_pc : call_pc;
  c_remaining : Z; (* int64 *)
  c_failed : bool;
  c_promises : list promise_pc;
  c_last : last_pc;
  c_done : nat; (* how often [done] was called *)
}.

#[export] Instance promise_pc_eq_dec : EqDecision promise_pc.
Proof. solve_decision. Defined.
#[export] Instance last_pc_eq_dec : EqDecision last_pc.
Proof. solve_decision. Defined.

(** What the calls share. *)
Record shared := mkShared {
  inflight : nat;          (* the semaphore's tokens *)
  pending : Z;             (* the wait group's counter *)
  firstErr : option goerr;
  acked : list (list Position); (* the calls of [done], in order *)
}.

Definition setErr (sh : shared) (e : goerr) : shared :=
  mkShared (inflight sh) (pending sh)
    (match firstErr sh with None => Some e | Some _ => firstErr sh end) (acked sh).

Definition Reset (sh : shared) : shared :=
  mkShared (inflight sh) (pending sh) None (acked sh).

Definition sinkErr (sh : shared) : option goerr := firstErr sh.

Definition new_call (rs : list krecord) (ps : list Position) : call :=
  mkCall rs ps CWaiting 0 false (replicate (length rs) PrIdle) LNone 0.

Inductive call_label :=
  | KAcquire | KCtxDone | KAdd | KProduce | KReturn
  | KAck (j : nat) (err : option goerr)  (* the client calls the promise *)
  | KPromise (j : nat)                   (* its next instruction *)
  | KLast.                               (* the last promise's next instruction *)

Definition set_cpc (c : call) (p : call_pc) : call :=
  mkCall (c_records c) (c_positions c) p (c_remaining c) (c_failed c) (c_promises c) (c_last c) (c_done c).
Definition set_promise (c : call) (j : nat) (p : promise_pc) : call :=
  mkCall (c_records c) (c_positions c) (c_pc c) (c_remaining c) (c_failed c) (<[j := p]> (c_promises c))
    (c_last c) (c_done c).
Definition set_last (c : call) (l : last_pc) (done : nat) : call :=
  mkCall (c_records c) (c_positions c) (c_pc c) (c_remaining c) (c_failed c) (c_promises c) l done.

Definition add_inflight (sh : shared) (n : nat) : shared :=
  mkShared n (pending sh) (firstErr sh) (acked sh).
Definition add_pending (sh : shared) (d : Z) : shared :=
  mkShared (inflight sh) (pending sh + d) (firstErr sh) (acked sh).

(** The promise's instructions, up to and with the decrement. *)
Definition promise_step (sh : shared) (c : call) (j : nat) : option (shared * call) :=
  match c_promises c !! j with
  | Some (PrErr e) =>
      Some (sh, mkCall (c_records c) (c_positions c) (c_pc c) (c_remaining c) true
                  (<[j := PrSetErr e]> (c_promises c)) (c_last c) (c_done c))
  | Some (PrSetErr e) => Some (setErr sh (EWrap "kafka: produce" e), set_promise c j (PrDec false))
  | Some (PrDec ok) =>
      let r := (c_remaining c - 1)%Z in
      Some (sh, mkCall (c_records c) (c_positions c) (c_pc c) r (c_failed c)
                  (<[j := PrFin ok]> (c_promises c))
                  (if decide (r = 0%Z) then LRelease else c_last c) (c_done c))
  | _ => None
  end.

(** [<-s.inflight; if !failed.Load() { done(positions) }; s.pending.Done()]. *)
Definition last_step (sh : shared) (c : call) : option (shared * call) :=
  match c_last c with
  | LRelease =>
      match inflight sh with
      | O => None
      | S n => Some (add_inflight sh n, set_last c LLoadFailed (c_done c))
      end
  | LLoadFailed =>
      if c_failed c then Some (sh, set_last c LWgDone (c_done c))
      else Some (mkShared (inflight sh) (pending sh) (firstErr sh) (acked sh ++ [c_positions c]),
                 set_last c LWgDone (S (c_done c)))
  | LWgDone => Some (add_pending sh (-1), set_last c LFinished (c_done c))
  | _ => None
  end.

Definition call_step (cap : nat) (l : call_label) (sh : shared) (c : call) :
    option (shared * call) :=
  match l with
  | KAcquire =>
      match c_pc c with
      | CWaiting =>
          if decide (inflight sh < cap)%nat
          then Some (add_inflight sh (S (inflight sh)), set_cpc c CHolding) else None
      | _ => None
      end
  | KCtxDone => match c_pc c with CWaiting => Some (sh, set_cpc c CCancelled) | _ => None end
  | KAdd =>
      match c_pc c with
      | CHolding =>
          Some (add_pending sh 1,
                mkCall (c_records c) (c_positions c) (CSubmitting 0) (Z.of_nat (length (c_records c)))
                  false (c_promises c) (c_last c) (c_done c))
      | _ => None
      end
  | KProduce =>
      match c_pc c with
      | CSubmitting k =>
          if decide (k < length (c_records c))%nat
          then Some (sh, set_promise (set_cpc c (CSubmitting (S k))) k PrPending) else None
      | _ => None
      end
  | KReturn =>
      match c_pc c with
      | CSubmitting k =>
          if decide (k < length (c_records c))%nat then None else Some (sh, set_cpc c CReturned)
      | _ => None
      end
  | KAck j err =>
      match c_promises c !! j with
      | Some PrPending =>
          Some (sh, set_promise c j (match err with Some e => PrErr e | None => PrDec true end))
      | _ => None
      end
  | KPromise j => promise_step sh c j
  | KLast => last_step sh c
  end.

(** The sink: its topic cache, the calls made so far, and what they share. *)
Record sink := mkSink {
  s_topics : topic_cache;
  s_shared : shared;
  s_calls : list call;
}.

Inductive sink_label :=
  | SPublish (es : list NomiosEvent)      (* a call up to its select *)
  | SCall (i : nat) (l : call_label)
  | SReset.

Definition sink_step `{Serializer} (cfg : Config) (l : sink_label) (s : sink) : option sink :=
  match l with
  | SPublish es =>
      match sinkErr (s_shared s) with
      | Some _ => Some s
      | None =>
          match make_records cfg (s_topics s) es with
          | (Err _, topics) => Some (mkSink topics (s_shared s) (s_calls s))
          | (Ok (rs, ps), topics) => Some (mkSink topics (s_shared s) (s_calls s ++ [new_call rs ps]))
          end
      end
  | SCall i l =>
      c ← s_calls s !! i;
      r ← call_step (Z.to_nat (MaxInflightBatches cfg)) l (s_shared s) c;
      Some (mkSink (s_topics s) r.1 (<[i := r.2]> (s_calls s)))
  | SReset => Some (mkSink (s_topics s) (Reset (s_shared s)) (s_calls s))
  end.

(** [New] after the client was created. *)
Definition NewSink : sink := mkSink ∅ (mkShared 0 0 None []) [].

(** [Flush] returns nil: the client's own flush succeeded, the wait group was at
    zero, and no error was recorded. *)
Definition Flush_ok (client_flush : option goerr) (sh : shared) : bool :=
  bool_decide (client_flush = None) && bool_decide (pending sh = 0%Z) &&
  bool_decide (sinkErr sh = None).

(** ** Sums over a list with one element replaced *)
Lemma sum_list_with_insert {A} (f : A → nat) l i x y :
  l !! i = Some x →
  (sum_list_with f (<[i := y]> l) + f x = sum_list_with f l + f y)%nat.
Proof.
  revert i. induction l as [|z l IH]; intros [|i] Hi; simplify_eq/=; [lia|].
  specialize (IH i Hi). unfold sum_list_with in *. lia.
Qed.

Lemma sum_list_with_lookup {A} (f : A → nat) l i x :
  l !! i = Some x → (f x ≤ sum_list_with f l)%nat.
Proof.
  revert i. induction l as [|z l IH]; intros [|i] Hi; simplify_eq/=; [lia|].
  specialize (IH i Hi). unfold sum_list_with in *. lia.
Qed.

Lemma sum_list_with_zero {A} (f : A → nat) l :
  sum_list_with f l = 0%nat ↔ Forall (λ x, f x = 0%nat) l.
Proof.
  induction l as [|z l IH]; simpl; [split; [constructor|done]|].
  rewrite Forall_cons, <-IH. lia.
Qed.

(** ** Invariant of one call *)

(** Promises that did not decrement yet. *)
Definition undec (p : promise_pc) : nat := match p with PrFin _ => 0 | _ => 1 end.

(** Promises that stored [failed]. *)
Definition err_seen (p : promise_pc) : bool :=
  match p with PrSetErr _ | PrDec false | PrFin false => true | _ => false end.

(** Promises that called [setErr]. *)
Definition err_set (p : promise_pc) : bool :=
  match p with PrDec false | PrFin false => true | _ => false end.

Definition started (c : call) : bool :=
  match c_pc c with CSubmitting _ | CReturned => true | _ => false end.

(** Records handed to the client. *)
Definition produced (c : call) : nat :=
  match c_pc c with CSubmitting k => k | CReturned => length (c_records c) | _ => 0 end.

Record call_inv (c : call) : Prop := {
  ci_len : length (c_promises c) = length (c_records c);
  ci_produced : (produced c ≤ length (c_records c))%nat;
  ci_idle : ∀ j p, c_promises c !! j = Some p → (p = PrIdle ↔ (produced c ≤ j)%nat);
  ci_rem : started c = true → c_remaining c = Z.of_nat (sum_list_with undec (c_promises c));
  ci_failed : c_failed c = true ↔ Exists (λ p, err_seen p = true) (c_promises c);
  ci_last : started c = true →
    (c_last c = LNone ↔ (0 < c_remaining c)%Z ∨ c_records c = []);
  ci_fresh : started c = false → c_last c = LNone;
  ci_done : c_done c =
    match c_last c with
    | LWgDone | LFinished => if c_failed c then 0%nat else 1%nat
    | _ => 0%nat
    end;
}.

(** The slots and the wait-group units a call holds. *)
Definition slot (c : call) : nat :=
  match c_pc c, c_last c with
  | CHolding, _ => 1
  | (CSubmitting _ | CReturned), (LNone | LRelease) => 1
  | _, _ => 0
  end.

Definition unit_of (c : call) : nat :=
  match c_pc c, c_last c with
  | (CSubmitting _ | CReturned), LFinished => 0
  | (CSubmitting _ | CReturned), _ => 1
  | _, _ => 0
  end.

Lemma new_call_inv rs ps : call_inv (new_call rs ps).
Proof.
  split; simpl; try done.
  - by rewrite length_replicate.
  - apply Nat.le_0_l.
  - intros j p [-> _]%lookup_replicate. split; [intros _; apply Nat.le_0_l|done].
  - split; [done|]. rewrite Exists_exists. intros (p&Hp&He).
    apply list_elem_of_lookup in Hp as [j [-> _]%lookup_replicate]. done.
Qed.

(** Replacing one promise of a started call by one that has not decremented
    either. *)
Lemma exists_insert (P : promise_pc → Prop) l j p q :
  l !! j = Some p → (P p → P q) → Exists P (<[j := q]> l) ↔ P q ∨ Exists P l.
Proof.
  intros Hj Hpq. rewrite !Exists_exists. split.
  - intros (x&Hx&HP). apply list_elem_of_lookup in Hx as [k Hk].
    apply list_lookup_insert_Some in Hk as [(<-&<-&_)|[_ Hk]]; [by left|].
    right. exists x. split; [|done]. by eapply list_elem_of_lookup_2.
  - intros [Hq|(x&Hx&HP)].
    + exists q. split; [|done]. eapply (list_elem_of_lookup_2 _ j), list_lookup_insert_eq.
      by eapply lookup_lt_Some.
    + apply list_elem_of_lookup in Hx as [k Hk]. destruct (decide (k = j)) as [->|Hne].
      * simplify_eq. exists q. split; [|by apply Hpq].
        eapply (list_elem_of_lookup_2 _ j), list_lookup_insert_eq. by eapply lookup_lt_Some.
      * exists x. split; [|done]. eapply (list_elem_of_lookup_2 _ k).
        by rewrite list_lookup_insert_ne.
Qed.

Lemma idle_insert (l : list promise_pc) j p q n m :
  l !! j = Some p → (q = PrIdle ↔ (m ≤ j)%nat) → (∀ k, k ≠ j → (m ≤ k)%nat ↔ (n ≤ k)%nat) →
  (∀ k x, l !! k = Some x → (x = PrIdle ↔ (n ≤ k)%nat)) →
  ∀ k x, <[j := q]> l !! k = Some x → (x = PrIdle ↔ (m ≤ k)%nat).
Proof.
  intros Hj Hq Hm Hl k x. rewrite list_lookup_insert_Some.
  intros [(<-&<-&_)|[Hne Hk]]; [done|]. rewrite Hm by done. by apply Hl.
Qed.

(** Evaluates the projections of a call built in place. *)
Ltac call_simpl :=
  cbn [produced started slot unit_of c_records c_positions c_pc c_remaining c_failed c_promises
       c_last c_done set_cpc set_promise set_last new_call inflight pending firstErr acked
       add_inflight add_pending setErr] in *.

(** A promise that did not decrement keeps the call before its last stage. *)
Lemma undec_last c j p :
  call_inv c → c_promises c !! j = Some p → undec p = 1%nat → c_last c = LNone.
Proof.
  intros [_ _ _ Hrem _ Hlast Hfresh _] Hj Hp. destruct (started c) eqn:Hs; [|by apply Hfresh].
  apply Hlast; [done|]. left. rewrite Hrem by done.
  pose proof (sum_list_with_lookup undec _ _ _ Hj). lia.
Qed.

Lemma undec_insert l j p q :
  l !! j = Some p → undec p = undec q →
  sum_list_with undec (<[j := q]> l) = sum_list_with undec l.
Proof. intros Hj Heq. pose proof (sum_list_with_insert undec l j p q Hj). lia. Qed.

(** An instruction of a promise before its decrement. *)
Lemma call_inv_promise c j p q :
  call_inv c → c_promises c !! j = Some p → p ≠ PrIdle → q ≠ PrIdle →
  undec p = 1%nat → undec q = 1%nat → (err_seen p = true → err_seen q = true) →
  call_inv (mkCall (c_records c) (c_positions c) (c_pc c) (c_remaining c)
    (c_failed c || err_seen q) (<[j := q]> (c_promises c)) (c_last c) (c_done c)).
Proof.
  intros Hinv Hj Hp Hq Hup Huq Herr. pose proof (undec_last c j p Hinv Hj Hup) as Hnone.
  destruct Hinv as [Hlen Hpr Hidle Hrem Hfail Hlast Hfresh Hdone].
  split; call_simpl; try done.
  - by rewrite length_insert.
  - apply (idle_insert _ j p q (produced c) (produced c)); try done.
    rewrite <-(Hidle j p Hj). tauto.
  - intros Hs. rewrite (undec_insert _ j p q) by (done || lia). by apply Hrem.
  - rewrite orb_true_iff, Hfail, (exists_insert _ _ j p q) by done. tauto.
  - by rewrite Hnone, Hdone, Hnone.
Qed.

(** The decrement. *)
Lemma call_inv_dec c j ok :
  call_inv c → c_promises c !! j = Some (PrDec ok) →
  let r := (c_remaining c - 1)%Z in
  call_inv (mkCall (c_records c) (c_positions c) (c_pc c) r (c_failed c)
    (<[j := PrFin ok]> (c_promises c)) (if decide (r = 0%Z) then LRelease else c_last c) (c_done c)).
Proof.
  intros Hinv Hj r. pose proof (undec_last c j _ Hinv Hj eq_refl) as Hnone.
  destruct Hinv as [Hlen Hpr Hidle Hrem Hfail Hlast Hfresh Hdone].
  pose proof (sum_list_with_insert undec _ j _ (PrFin ok) Hj) as Hsum. cbn [undec] in Hsum.
  assert (started c = true) as Hs.
  { assert (¬ (produced c ≤ j)%nat) by by rewrite <-(Hidle j _ Hj).
    unfold produced, started in *. destruct (c_pc c); try done; lia. }
  specialize (Hrem Hs). specialize (Hlast Hs).
  assert (c_records c ≠ []) as Hne.
  { intros Hr. rewrite Hr in Hlen. apply lookup_lt_Some in Hj. simpl in Hlen. lia. }
  split; call_simpl; try done.
  - by rewrite length_insert.
  - apply (idle_insert _ j (PrDec ok) (PrFin ok) (produced c) (produced c)); try done.
    rewrite <-(Hidle j _ Hj). done.
  - intros _. unfold r. lia.
  - rewrite Hfail, (exists_insert _ _ j (PrDec ok) (PrFin ok)) by (done || by destruct ok).
    split; [by right|]. intros [Hok|]; [|done]. apply Exists_exists. exists (PrDec ok).
    split; [by eapply list_elem_of_lookup_2|by destruct ok].
  - intros _. destruct (decide (r = 0%Z)); [split; [done|intros [?|?]; [lia|done]]|].
    rewrite Hnone. split; [|done]. intros _. left. unfold r in *. lia.
  - intros Hs'. unfold started in *. by destruct (c_pc c).
  - rewrite Hdone, Hnone. by destruct (decide _).
Qed.

(** The last promise's instructions. *)
Lemma call_inv_last c l d :
  call_inv c → c_last c ≠ LNone → l ≠ LNone →
  d = (match l with LWgDone | LFinished => if c_failed c then 0%nat else 1%nat | _ => 0%nat end) →
  call_inv (set_last c l d).
Proof.
  intros [Hlen Hpr Hidle Hrem Hfail Hlast Hfresh Hdone] Hc Hl ->.
  split; call_simpl; try done.
  - intros Hs. rewrite <-Hlast by done. tauto.
  - intros Hs. by apply Hfresh in Hs.
Qed.

(** Before the submission nothing has happened to the promises. *)
Lemma call_fresh c :
  call_inv c → produced c = 0%nat →
  Forall (λ p, p = PrIdle) (c_promises c) ∧ c_failed c = false ∧
  sum_list_with undec (c_promises c) = length (c_records c).
Proof.
  intros [Hlen _ Hidle _ Hfail _ _ _] Hp.
  assert (Forall (λ p, p = PrIdle) (c_promises c)) as Hall.
  { apply Forall_lookup. intros j p Hj. apply (Hidle j p Hj). rewrite Hp. lia. }
  split; [done|]. split.
  - apply not_true_is_false. rewrite Hfail. apply Forall_not_Exists.
    eapply Forall_impl; [exact Hall|]. by intros ? ->.
  - rewrite <-Hlen. clear -Hall. induction Hall as [|p l -> _ IH]; [done|]. simpl. by rewrite IH.
Qed.

Lemma call_inv_add c :
  call_inv c → c_pc c = CHolding →
  call_inv (mkCall (c_records c) (c_positions c) (CSubmitting 0) (Z.of_nat (length (c_records c)))
    false (c_promises c) (c_last c) (c_done c)).
Proof.
  intros Hinv Hpc. assert (produced c = 0%nat) as Hp by (unfold produced; by rewrite Hpc).
  destruct (call_fresh c Hinv Hp) as (Hall&Hf&Hsum).
  destruct Hinv as [Hlen Hpr Hidle Hrem Hfail Hlast Hfresh Hdone].
  assert (c_last c = LNone) as Hl by (apply Hfresh; unfold started; by rewrite Hpc).
  rewrite Hp in Hidle. rewrite Hf in Hfail. split; call_simpl; try done.
  - lia.
  - by rewrite Hsum.
  - intros _. rewrite Hl. split; [|done]. intros _. destruct (c_records c); [by right|left; simpl; lia].
  - by rewrite Hdone, Hl.
Qed.

Lemma call_inv_produce c k :
  call_inv c → c_pc c = CSubmitting k → (k < length (c_records c))%nat →
  call_inv (set_promise (set_cpc c (CSubmitting (S k))) k PrPending).
Proof.
  intros Hinv Hpc Hk. assert (produced c = k) as Hp by (unfold produced; by rewrite Hpc).
  assert (started c = true) as Hs by (unfold started; by rewrite Hpc).
  destruct (lookup_lt_is_Some_2 (c_promises c) k) as [p Hj]; [rewrite (ci_len c Hinv); lia|].
  assert (p = PrIdle) as -> by (apply (ci_idle c Hinv k p Hj); lia).
  pose proof (undec_last c k PrIdle Hinv Hj eq_refl) as Hnone.
  destruct Hinv as [Hlen Hpr Hidle Hrem Hfail Hlast Hfresh Hdone].
  split; call_simpl; try done.
  - by rewrite length_insert.
  - apply (idle_insert _ k PrIdle PrPending k); try done; [|lia|].
    + split; [done|lia].
    + by rewrite <-Hp.
  - intros _. rewrite (undec_insert _ k PrIdle) by done. by apply Hrem.
  - rewrite Hfail, (exists_insert _ _ k PrIdle PrPending) by done. naive_solver.
  - intros _. by apply Hlast.
Qed.

Lemma call_inv_cpc c p :
  call_inv c → produced (set_cpc c p) = produced c → started (set_cpc c p) = started c →
  call_inv (set_cpc c p).
Proof.
  intros [Hlen Hpr Hidle Hrem Hfail Hlast Hfresh Hdone] Hp Hs.
  split; rewrite ?Hp, ?Hs; call_simpl; try done.
Qed.

Lemma promise_step_inv sh c j sh' c' :
  promise_step sh c j = Some (sh', c') → call_inv c → call_inv c'.
Proof.
  unfold promise_step. intros Hstep Hinv.
  destruct (c_promises c !! j) as [[| |e|e|ok|ok]|] eqn:Hj; simplify_eq.
  - pose proof (call_inv_promise c j (PrErr e) (PrSetErr e) Hinv Hj) as Hc.
    rewrite orb_true_r in Hc. by apply Hc.
  - assert (c_failed c = true) as Hf.
    { apply (ci_failed c Hinv), Exists_exists. exists (PrSetErr e).
      split; [by eapply list_elem_of_lookup_2|done]. }
    pose proof (call_inv_promise c j (PrSetErr e) (PrDec false) Hinv Hj) as Hc.
    rewrite orb_true_r in Hc. unfold set_promise. rewrite Hf. by apply Hc.
  - by apply call_inv_dec.
Qed.

Lemma call_step_inv cap l sh c sh' c' :
  call_step cap l sh c = Some (sh', c') → call_inv c → call_inv c'.
Proof.
  intros Hstep Hinv. destruct l; cbn [call_step] in Hstep.
  - destruct (c_pc c) eqn:Hpc; try done. destruct (decide _); simplify_eq.
    apply call_inv_cpc; [done|..]; unfold produced, started; by rewrite Hpc.
  - destruct (c_pc c) eqn:Hpc; simplify_eq.
    apply call_inv_cpc; [done|..]; unfold produced, started; by rewrite Hpc.
  - destruct (c_pc c) eqn:Hpc; simplify_eq. by apply call_inv_add.
  - destruct (c_pc c) eqn:Hpc; try done. destruct (decide _); simplify_eq.
    by apply call_inv_produce.
  - destruct (c_pc c) as [| |k| |] eqn:Hpc; try done. destruct (decide _) as [|Hk]; simplify_eq.
    assert (produced c = k) as Hp by (unfold produced; by rewrite Hpc).
    pose proof (ci_produced c Hinv).
    apply call_inv_cpc; [done| |]; unfold started; rewrite ?Hpc; [|done].
    rewrite Hp. cbn. lia.
  - destruct (c_promises c !! j) as [[| | | | |]|] eqn:Hj; simplify_eq.
    assert (∀ q, err_seen q = false → q ≠ PrIdle → undec q = 1%nat → call_inv (set_promise c j q)).
    { intros q Hq ??. pose proof (call_inv_promise c j PrPending q Hinv Hj) as Hc.
      rewrite Hq, orb_false_r in Hc. by apply Hc. }
    destruct err; auto.
  - by eapply promise_step_inv.
  - unfold last_step in Hstep. pose proof (ci_done c Hinv) as Hd.
    destruct (c_last c) eqn:Hl; try done.
    + destruct (inflight sh); simplify_eq. apply call_inv_last; try done. by rewrite Hl.
    + destruct (c_failed c) eqn:Hf; simplify_eq; apply call_inv_last; try done;
        rewrite ?Hl, ?Hf, ?Hd; done.
    + simplify_eq. apply call_inv_last; try done; by rewrite Hl.
Qed.

(** What a step does to the semaphore and the wait group is what it does to the
    slots and units of its call. *)
Lemma call_step_counts cap l sh c sh' c' :
  call_step cap l sh c = Some (sh', c') → call_inv c → (slot c ≤ inflight sh)%nat →
  (inflight sh' + slot c = inflight sh + slot c')%nat ∧
  (pending sh' + Z.of_nat (unit_of c) = pending sh + Z.of_nat (unit_of c'))%Z ∧
  (inflight sh ≤ cap → inflight sh' ≤ cap)%nat.
Proof.
  intros Hstep Hinv Hslot. pose proof (ci_fresh c Hinv) as Hfresh. unfold started in Hfresh.
  destruct l; cbn [call_step] in Hstep.
  - destruct (c_pc c) eqn:Hpc; try done. destruct (decide _); simplify_eq.
    unfold slot, unit_of in *. call_simpl. rewrite Hpc in *. rewrite ?Hfresh by done. lia.
  - destruct (c_pc c) eqn:Hpc; simplify_eq. unfold slot, unit_of. call_simpl.
    rewrite Hpc. rewrite ?Hfresh by done. lia.
  - destruct (c_pc c) eqn:Hpc; simplify_eq. unfold slot, unit_of. call_simpl.
    rewrite Hpc. rewrite ?Hfresh by done. lia.
  - destruct (c_pc c) eqn:Hpc; try done. destruct (decide _); simplify_eq.
    unfold slot, unit_of. call_simpl. rewrite Hpc. lia.
  - destruct (c_pc c) eqn:Hpc; try done. destruct (decide _); simplify_eq.
    unfold slot, unit_of. call_simpl. rewrite Hpc. lia.
  - destruct (c_promises c !! j) as [[| | | | |]|] eqn:Hj; simplify_eq.
    unfold slot, unit_of. call_simpl. lia.
  - unfold promise_step in Hstep.
    destruct (c_promises c !! j) as [[| |e|e|ok|ok]|] eqn:Hj; simplify_eq;
      unfold slot, unit_of; call_simpl; try lia.
    rewrite (undec_last c j (PrDec ok)) by done.
    destruct (c_pc c); try destruct (decide _); lia.
  - unfold last_step in Hstep. destruct (c_last c) eqn:Hl; try done.
    + destruct (inflight sh) eqn:Hi; simplify_eq. unfold slot, unit_of. call_simpl. rewrite Hl.
      destruct (c_pc c); try done; try (specialize (Hfresh eq_refl); congruence); lia.
    + destruct (c_failed c); simplify_eq; unfold slot, unit_of; call_simpl; rewrite Hl;
        destruct (c_pc c); try (specialize (Hfresh eq_refl); congruence); lia.
    + simplify_eq. unfold slot, unit_of; call_simpl; rewrite Hl.
      destruct (c_pc c); try (specialize (Hfresh eq_refl); congruence); lia.
Qed.

(** The calls of [done] a step makes are logged once each. *)
Lemma call_step_acked cap l sh c sh' c' :
  call_step cap l sh c = Some (sh', c') →
  c_positions c' = c_positions c ∧
  ((acked sh' = acked sh ∧ c_done c' = c_done c) ∨
   (acked sh' = acked sh ++ [c_positions c] ∧ c_done c' = S (c_done c))).
Proof.
  intros Hstep. destruct l; cbn [call_step promise_step last_step] in Hstep;
    unfold promise_step, last_step in Hstep; repeat case_match; simplify_eq; call_simpl; auto.
Qed.

(** No step forgets the sticky error, and a promise that finished with an error
    has recorded one. *)
Lemma call_step_err cap l sh c sh' c' :
  call_step cap l sh c = Some (sh', c') →
  (firstErr sh ≠ None → firstErr sh' ≠ None) ∧
  (Exists (λ p, err_set p = true) (c_promises c') →
   Exists (λ p, err_set p = true) (c_promises c) ∨ firstErr sh' ≠ None).
Proof.
  assert (Hins : ∀ (ps : list promise_pc) j q, err_set q = false ∨ err_set q = true ∧ ps !! j = Some (PrDec false) →
    Exists (λ p, err_set p = true) (<[j:=q]> ps) → Exists (λ p, err_set p = true) ps).
  { intros ps j q Hq. rewrite !Exists_exists. intros (x&Hx&He).
    apply list_elem_of_lookup in Hx as [k Hk].
    apply list_lookup_insert_Some in Hk as [(<-&<-&_)|[_ Hk]].
    - destruct Hq as [|[_ Hp]]; [congruence|]. exists (PrDec false).
      split; [by eapply list_elem_of_lookup_2|done].
    - exists x. split; [by eapply list_elem_of_lookup_2|done]. }
  intros Hstep. destruct l; cbn [call_step] in Hstep; unfold promise_step, last_step in Hstep;
    repeat case_match; simplify_eq; call_simpl;
    (split; [done || (by destruct (firstErr sh))|]); intros He;
    try (by left); try (by left; eapply Hins; [|exact He]; by left).
  - right. by destruct (firstErr sh).
  - left. eapply Hins; [|exact He]. destruct ok; [by left|by right].
  - left. eapply Hins; [|exact He]. destruct ok; [by left|by right].
Qed.

Section sink.
Context `{Serializer} (cfg : Config).

Definition done_log (cs : list call) : list (list Position) :=
  cs ≫= λ c, replicate (c_done c) (c_positions c).

Record sink_inv (s : sink) : Prop := {
  si_calls : Forall call_inv (s_calls s);
  si_inflight : inflight (s_shared s) = sum_list_with slot (s_calls s);
  si_pending : pending (s_shared s) = Z.of_nat (sum_list_with unit_of (s_calls s));
  si_cap : (inflight (s_shared s) ≤ Z.to_nat (MaxInflightBatches cfg))%nat;
  si_acked : acked (s_shared s) ≡ₚ done_log (s_calls s);
}.

Lemma sum_list_with_snoc {A} (f : A → nat) l x :
  sum_list_with f (l ++ [x]) = (sum_list_with f l + f x)%nat.
Proof. induction l as [|y l IH]; simpl; [lia|]. rewrite IH. lia. Qed.

Lemma done_log_insert cs i c c' :
  cs !! i = Some c → c_positions c' = c_positions c →
  (c_done c' = c_done c → done_log (<[i := c']> cs) = done_log cs) ∧
  (c_done c' = S (c_done c) → done_log (<[i := c']> cs) ≡ₚ done_log cs ++ [c_positions c]).
Proof.
  intros Hi Hp.
  assert (Hmid : ∀ x, done_log (take i cs ++ x :: drop (S i) cs) =
    done_log (take i cs) ++ replicate (c_done x) (c_positions x) ++ done_log (drop (S i) cs)).
  { intros x. unfold done_log. by rewrite bind_app. }
  rewrite (insert_take_drop cs i c') by by eapply lookup_lt_Some.
  pose proof (Hmid c) as Hcs. rewrite (take_drop_middle cs i c Hi) in Hcs.
  rewrite Hmid, Hcs, Hp. split; intros ->; [done|]. simpl.
  rewrite <-!(assoc_L (++)), (comm (++) (done_log (drop _ _)) [c_positions c]). simpl.
  f_equiv. apply Permutation_middle.
Qed.

Lemma sink_step_inv l s s' : sink_step cfg l s = Some s' → sink_inv s → sink_inv s'.
Proof.
  intros Hstep [Hc Hi Hp Hcap Hack]. destruct l as [es|i l|]; cbn [sink_step] in Hstep.
  - destruct (sinkErr _); simplify_eq; [done|].
    destruct (make_records cfg (s_topics s) es) as [[[rs ps]|e] topics]; simplify_eq; [|done].
    split; simpl; rewrite ?sum_list_with_snoc; call_simpl.
    + apply Forall_app. split; [done|]. constructor; [apply new_call_inv|constructor].
    + rewrite Hi. cbn. lia.
    + rewrite Hp. cbn. lia.
    + done.
    + rewrite Hack. unfold done_log. rewrite bind_app. cbn. by rewrite !app_nil_r.
  - destruct (s_calls s !! i) as [c|] eqn:Hci; simpl in Hstep; [|done].
    destruct (call_step _ l (s_shared s) c) as [[sh' c']|] eqn:Hcs; simplify_eq/=.
    assert (call_inv c) as Hinv by by eapply Forall_lookup_1.
    pose proof (sum_list_with_lookup slot _ _ _ Hci) as Hle.
    destruct (call_step_counts _ _ _ _ _ _ Hcs Hinv) as (H1&H2&H3); [lia|].
    pose proof (sum_list_with_insert slot _ _ _ c' Hci).
    pose proof (sum_list_with_insert unit_of _ _ _ c' Hci).
    destruct (call_step_acked _ _ _ _ _ _ Hcs) as [Hpos Hd].
    destruct (done_log_insert _ _ _ c' Hci Hpos) as [Hsame Hsucc].
    split; simpl; [|lia|lia|auto|].
    + apply Forall_insert; [done|]. by eapply call_step_inv.
    + destruct Hd as [[-> Heq]|[-> Heq]]; [by rewrite Hsame|]. rewrite Hsucc by done. by rewrite Hack.
  - simplify_eq. by split.
Qed.

Lemma NewSink_inv : sink_inv NewSink.
Proof. split; simpl; try done. lia. Qed.

Lemma reachable_sink_inv s : reachable (sink_step cfg) NewSink s → sink_inv s.
Proof.
  apply reachable_invariant; [apply NewSink_inv|]. intros l s1 s2 Hs Hstep. by eapply sink_step_inv.
Qed.

(** Without a [Reset] every recorded failure is still visible. *)
Definition errs_visible (s : sink) : Prop :=
  Exists (λ c, Exists (λ p, err_set p = true) (c_promises c)) (s_calls s) →
  firstErr (s_shared s) ≠ None.

Lemma sink_step_errs l s s' :
  l ≠ SReset → sink_step cfg l s = Some s' → errs_visible s → errs_visible s'.
Proof.
  intros Hl Hstep Herr. destruct l as [es|i l|]; cbn [sink_step] in Hstep; [| |done].
  - destruct (sinkErr _); simplify_eq; [done|].
    destruct (make_records cfg (s_topics s) es) as [[[rs ps]|e] topics]; simplify_eq; [|done].
    unfold errs_visible in *. simpl. intros [|He]%Exists_app; [by apply Herr|].
    apply Exists_cons in He as [He|He]; [|by apply Exists_nil in He].
    apply Exists_exists in He as (p&Hp&He). call_simpl.
    apply list_elem_of_lookup in Hp as [j [-> _]%lookup_replicate]. done.
  - destruct (s_calls s !! i) as [c|] eqn:Hci; simpl in Hstep; [|done].
    destruct (call_step _ l (s_shared s) c) as [[sh' c']|] eqn:Hcs; simplify_eq/=.
    destruct (call_step_err _ _ _ _ _ _ Hcs) as [Hkeep Hnew].
    unfold errs_visible in *. simpl. intros He. apply Exists_exists in He as (x&Hx&He).
    apply list_elem_of_lookup in Hx as [k Hk].
    apply list_lookup_insert_Some in Hk as [(<-&<-&_)|[_ Hk]].
    + destruct (Hnew He); [|done]. apply Hkeep, Herr, Exists_exists.
      exists c. split; [by eapply list_elem_of_lookup_2|done].
    + apply Hkeep, Herr, Exists_exists. exists x. split; [by eapply list_elem_of_lookup_2|done].
Qed.

Lemma run_sink_errs ls s s' :
  Forall (λ l, l ≠ SReset) ls → run_labels (sink_step cfg) ls s = Some s' →
  errs_visible s → errs_visible s'.
Proof.
  intros Hls. revert s. induction Hls as [|l ls Hl _ IH]; intros s; simpl; [by intros [= ->]|].
  destruct (sink_step cfg l s) as [s1|] eqn:Hstep; simpl; [|done].
  intros Hrun Herr. eapply IH; [done|]. by eapply sink_step_errs.
Qed.

(** ** Completion of an acknowledged batch *)

(** The client has called the promise. *)
Definition called (p : promise_pc) : bool :=
  match p with PrIdle | PrPending => false | _ => true end.

Definition settled_call (c : call) : Prop :=
  c_pc c = CReturned ∧ c_records c ≠ [] ∧ Forall (λ p, called p = true) (c_promises c).

Definition promise_work (p : promise_pc) : nat :=
  match p with PrErr _ => 3 | PrSetErr _ => 2 | PrDec _ => 1 | _ => 0 end.
Definition last_work (l : last_pc) : nat :=
  match l with LNone => 4 | LRelease => 3 | LLoadFailed => 2 | LWgDone => 1 | LFinished => 0 end.
Definition call_work (c : call) : nat :=
  (sum_list_with promise_work (c_promises c) + last_work (c_last c))%nat.

Definition internal (l : call_label) : bool :=
  match l with KPromise _ | KLast => true | _ => false end.

Lemma settled_step cap l sh c sh' c' :
  internal l = true → call_step cap l sh c = Some (sh', c') → call_inv c → settled_call c →
  settled_call c' ∧ (call_work c' < call_work c)%nat.
Proof.
  intros Hl Hstep Hinv (Hpc&Hr&Hp). destruct l as [| | | | | |j|]; try done; cbn [call_step] in Hstep.
  - unfold promise_step in Hstep.
    assert (Hins : ∀ q, called q = true → Forall (λ p, called p = true) (<[j:=q]> (c_promises c))).
    { intros q Hq. by apply Forall_insert. }
    unfold settled_call, call_work.
    destruct (c_promises c !! j) as [[| |e|e|ok|ok]|] eqn:Hj; simplify_eq; call_simpl;
      (split; [by auto|]).
    + pose proof (sum_list_with_insert promise_work _ _ _ (PrSetErr e) Hj) as Hs. simpl in Hs. lia.
    + pose proof (sum_list_with_insert promise_work _ _ _ (PrDec false) Hj) as Hs. simpl in Hs. lia.
    + pose proof (sum_list_with_insert promise_work _ _ _ (PrFin ok) Hj) as Hs. simpl in Hs.
      rewrite (undec_last c j (PrDec ok)) by done. destruct (decide _); simpl; lia.
  - unfold last_step in Hstep. unfold settled_call, call_work.
    destruct (c_last c) eqn:Hlast; try done.
    + destruct (inflight sh); simplify_eq; call_simpl. simpl. split; [done|lia].
    + destruct (c_failed c); simplify_eq; call_simpl; simpl; (split; [done|lia]).
    + simplify_eq; call_simpl. simpl. split; [done|lia].
Qed.

Lemma settled_enabled cap sh c :
  call_inv c → settled_call c → (slot c ≤ inflight sh)%nat → c_last c ≠ LFinished →
  ∃ l sh' c', internal l = true ∧ call_step cap l sh c = Some (sh', c').
Proof.
  intros Hinv (Hpc&Hr&Hp) Hslot Hlast.
  destruct (decide (sum_list_with undec (c_promises c) = 0%nat)) as [Hz|Hz].
  - assert (started c = true) as Hs by (unfold started; by rewrite Hpc).
    assert (c_last c ≠ LNone) as Hn.
    { rewrite (ci_last c Hinv Hs), (ci_rem c Hinv Hs), Hz. intros [?|?]; [lia|done]. }
    exists KLast. cbn [call_step]. unfold last_step, slot in *. rewrite Hpc in Hslot.
    destruct (c_last c); try done.
    + destruct (inflight sh); [lia|]. by eexists _, _.
    + destruct (c_failed c); by eexists _, _.
    + by eexists _, _.
  - assert (Exists (λ p, undec p ≠ 0%nat) (c_promises c)) as Hex.
    { apply not_Forall_Exists; [intros x; apply _|]. by rewrite <-sum_list_with_zero. }
    apply Exists_exists in Hex as (p&Hin&Hu). apply list_elem_of_lookup in Hin as [j Hj].
    pose proof (Forall_lookup_1 _ _ _ _ Hp Hj) as Hc. simpl in Hc.
    exists (KPromise j). cbn [call_step]. unfold promise_step. rewrite Hj.
    destruct p; try done; by eexists _, _.
Qed.

Lemma settled_completes (n : nat) (s : sink) i c :
  sink_inv s → s_calls s !! i = Some c → settled_call c → (call_work c ≤ n)%nat →
  ∃ ls s' c', run_labels (sink_step cfg) (SCall i <$> ls) s = Some s' ∧
    Forall (λ l, internal l = true) ls ∧
    s_calls s' !! i = Some c' ∧ settled_call c' ∧ c_last c' = LFinished.
Proof.
  revert s c. induction n as [n IH] using lt_wf_ind; intros s c Hs Hci Hset Hn.
  destruct (decide (c_last c = LFinished)) as [Hl|Hl].
  { exists [], s, c. split_and!; [done|constructor|done..]. }
  pose proof Hs as [Hall Hi _ _ _].
  assert (call_inv c) as Hinv by by eapply Forall_lookup_1.
  pose proof (sum_list_with_lookup slot _ _ _ Hci).
  destruct (settled_enabled (Z.to_nat (MaxInflightBatches cfg)) (s_shared s) c Hinv Hset)
    as (l&sh'&c'&Hint&Hstep); [lia|done|].
  destruct (settled_step _ _ _ _ _ _ Hint Hstep Hinv Hset) as [Hset' Hw].
  assert (sink_step cfg (SCall i l) s = Some (mkSink (s_topics s) sh' (<[i := c']> (s_calls s))))
    as Hss by (simpl; rewrite Hci; simpl; by rewrite Hstep).
  destruct (IH (call_work c') ltac:(lia) (mkSink (s_topics s) sh' (<[i := c']> (s_calls s))) c')
    as (ls&s'&c''&Hrun&Hls&Hc''); [by eapply sink_step_inv| |done|done|].
  { simpl. apply list_lookup_insert_eq. by eapply lookup_lt_Some. }
  exists (l :: ls), s', c''. split; [|split; [by constructor|done]].
  cbn [fmap list_fmap run_labels]. rewrite Hss. exact Hrun.
Qed.

(** Past the decrement to zero every promise has finished. *)
Lemma last_undec c :
  call_inv c → started c = true → c_last c ≠ LNone →
  Forall (λ p, undec p = 0%nat) (c_promises c).
Proof.
  intros Hinv Hs Hl. apply sum_list_with_zero.
  pose proof (ci_rem c Hinv Hs). pose proof (proj2 (ci_last c Hinv Hs)) as Hn.
  destruct (decide (sum_list_with undec (c_promises c) = 0%nat)); [done|].
  destruct Hl. apply Hn. left. lia.
Qed.

(** A finished call that is not fully acknowledged has a failed promise. *)
Lemma last_failed c :
  call_inv c → started c = true → c_last c ≠ LNone →
  ¬ Forall (λ p, p = PrFin true) (c_promises c) → PrFin false ∈ c_promises c.
Proof.
  intros Hinv Hs Hl Hno. pose proof (last_undec c Hinv Hs Hl) as Hz.
  apply not_Forall_Exists in Hno; [|intros x; apply _].
  apply Exists_exists in Hno as (p&Hp&Hne). rewrite Forall_forall in Hz. specialize (Hz p Hp).
  destruct p as [| | | | |[]]; try done. by destruct Hne.
Qed.

(** What [done] was called with: every record of a batch was acknowledged without
    error exactly when the batch is done. *)
Lemma finished_done c :
  call_inv c → started c = true → c_last c = LWgDone ∨ c_last c = LFinished →
  c_done c = if decide (Forall (λ p, p = PrFin true) (c_promises c)) then 1%nat else 0%nat.
Proof.
  intros Hinv Hs Hl.
  assert (c_done c = if c_failed c then 0%nat else 1%nat) as ->
    by (rewrite (ci_done c Hinv); by destruct Hl as [-> | ->]).
  destruct (decide (Forall (λ p, p = PrFin true) (c_promises c))) as [Hall|Hno].
  - assert (c_failed c = false) as ->; [|done].
    apply not_true_is_false. rewrite (ci_failed c Hinv). apply Forall_not_Exists.
    eapply Forall_impl; [exact Hall|]. by intros ? ->.
  - assert (c_failed c = true) as ->; [|done]. apply (ci_failed c Hinv), Exists_exists.
    exists (PrFin false). split; [|done]. apply last_failed; try done. by destruct Hl as [-> | ->].
Qed.

Lemma done_call c :
  call_inv c → (c_done c ≤ 1)%nat ∧
  (c_done c = 1%nat → c_records c ≠ [] ∧ Forall (λ p, p = PrFin true) (c_promises c)).
Proof.
  intros Hinv. pose proof (ci_done c Hinv) as Hd.
  split; [rewrite Hd; destruct (c_last c), (c_failed c); lia|].
  intros H1. assert (c_last c = LWgDone ∨ c_last c = LFinished) as Hl.
  { rewrite H1 in Hd. destruct (c_last c); auto; done. }
  destruct (started c) eqn:Hs; [|apply (ci_fresh c Hinv) in Hs; destruct Hl; congruence].
  split.
  - intros Hr. assert (c_last c = LNone) by (apply (ci_last c Hinv Hs); by right).
    destruct Hl; congruence.
  - pose proof (finished_done c Hinv Hs Hl) as Hf. rewrite H1 in Hf. by destruct (decide _).
Qed.

(** ** Topics *)

Definition topics_ok (topics : topic_cache) : Prop :=
  ∀ m t, topics !! (Database m, Table m) = Some t → t = resolve_topic cfg m.

Lemma resolve_topic_names m m' :
  Database m = Database m' → Table m = Table m' → resolve_topic cfg m = resolve_topic cfg m'.
Proof. unfold resolve_topic, FQTN. by intros -> ->. Qed.

Lemma topic_store_ok topics e :
  topics_ok topics → topics_ok (topic_store topics e (resolve_topic cfg (EvSource e))).
Proof.
  intros Hok m t. unfold topic_store. rewrite lookup_insert_Some.
  intros [[Heq <-]|[_ Hm]]; [|by apply Hok]. injection Heq as Hd Ht. by apply resolve_topic_names.
Qed.

Lemma Topic_ok topics e :
  topics_ok topics →
  (Topic cfg topics e).1 = resolve_topic cfg (EvSource e) ∧ topics_ok (Topic cfg topics e).2.
Proof.
  intros Hok. unfold Topic. destruct (topic_lookup topics e) as [t|] eqn:Hl; simpl.
  - split; [by apply Hok|done].
  - split; [done|by apply topic_store_ok].
Qed.

(** A batch that serialized: one record per event, in order, each on its event's
    topic, with the events' positions. *)
Lemma make_records_ok topics es r topics' :
  topics_ok topics → make_records cfg topics es = (r, topics') →
  topics_ok topics' ∧
  ∀ rs ps, r = Ok (rs, ps) →
    ps = EvPosition <$> es ∧
    Forall2 (λ e kr, Serialize e = Ok (k_key kr, k_value kr) ∧
                     k_topic kr = resolve_topic cfg (EvSource e)) es rs.
Proof.
  revert topics r topics'. induction es as [|e es IH]; intros topics r topics' Hok; simpl.
  { intros [= <- <-]. split; [done|]. intros rs ps [= <- <-]. by split. }
  destruct (Serialize e) as [[k v]|err] eqn:Hser.
  2: { intros [= <- <-]. by split. }
  destruct (Topic cfg topics e) as [t topics1] eqn:Ht.
  pose proof (Topic_ok topics e Hok) as [Ht1 Ht2]. rewrite Ht in Ht1, Ht2. simpl in *.
  destruct (make_records cfg topics1 es) as [[[rs ps]|err] topics2] eqn:Hm; intros [= <- <-];
    destruct (IH _ _ _ Ht2 Hm) as [Hok' Hrs]; split; try done.
  intros ? ? [= <- <-]. destruct (Hrs _ _ eq_refl) as [-> Hf]. split; [done|].
  constructor; [|done]. simpl. by rewrite Ht1.
Qed.

Lemma sink_step_topics l s s' : sink_step cfg l s = Some s' → topics_ok (s_topics s) → topics_ok (s_topics s').
Proof.
  intros Hstep Hok. destruct l as [es|i l|]; cbn [sink_step] in Hstep.
  - destruct (sinkErr _); simplify_eq; [done|].
    destruct (make_records cfg (s_topics s) es) as [r topics] eqn:Hm.
    destruct (make_records_ok _ _ _ _ Hok Hm) as [Hok' _].
    by destruct r as [[rs ps]|e]; simplify_eq.
  - destruct (s_calls s !! i); simpl in Hstep; [|done].
    by destruct (call_step _ l (s_shared s) c) as [[sh' c']|]; simplify_eq/=.
  - by simplify_eq.
Qed.
End sink.

(** ** A sink for evaluation *)
Definition sampleSerializer : Serializer := λ e, Ok (Key e, ID e).

Definition sample_config : Config :=
  withDefaults (mkConfig ["b:9092"] "" "" {["shop.orders" := "orders"]} false 1).

Definition sample_sink_event (n : Z) : NomiosEvent :=
  mkEvent (pretty n) OpInsert None (Some ∅) (mkSourceMeta "mysql" 1 "shop" "orders" "" "f" 4 n)
    (mkTime 1700000000 0 0) "shop.orders|1" (mkPosition "" "f" 4 n).

(** Two records submitted and acknowledged, the second first. *)
Definition sample_acks : list sink_label :=
  [SPublish [sample_sink_event 1; sample_sink_event 2]] ++
  (SCall 0 <$> [KAcquire; KAdd; KProduce; KProduce; KReturn; KAck 1 None; KAck 0 None]).

Definition sample_acked : sink :=
  default NewSink (run_labels (@sink_step sampleSerializer sample_config) sample_acks NewSink).

(** ** Properties *)
Section properties.
Context `{Serializer} (cfg : Config).


(** [C27] An acknowledged batch completes: once the client has called the promise
    of every record of a submitted batch, the promises' remaining instructions
    can run to the end, and then [done] was called once if no record failed and
    not at all if one did. *)
Theorem acked_batch_completes (s : sink) (i : nat) (c : call) :
  reachable (sink_step cfg) NewSink s → s_calls s !! i = Some c → settled_call c →
  ∃ ls s' c', run_labels (sink_step cfg) (SCall i <$> ls) s = Some s' ∧
    Forall (λ l, internal l = true) ls ∧ s_calls s' !! i = Some c' ∧ c_last c' = LFinished ∧
    c_done c' = if decide (Forall (λ p, p = PrFin true) (c_promises c')) then 1%nat else 0%nat.
Proof.
  intros Hr Hci Hset. pose proof (reachable_sink_inv cfg s Hr) as Hinv.
  destruct (settled_completes cfg (call_work c) s i c Hinv Hci Hset) as (ls&s'&c'&Hrun&Hls&Hc'&Hset'&Hl);
    [done|].
  exists ls, s', c'. split_and!; try done.
  assert (sink_inv cfg s') as Hinv'.
  { eapply run_labels_invariant; [|exact Hinv|exact Hrun]. intros l s1 s2 Hs Hstep. by eapply sink_step_inv. }
  apply finished_done; [|destruct Hset' as (Hpc&_); unfold started; by rewrite Hpc|by right].
  eapply Forall_lookup_1; [apply Hinv'|done].
Qed.

(** [C40] Backpressure: at most [MaxInflightBatches] batches have a record with
    the client that it has not answered for. *)
Theorem inflight_bounded (s : sink) :
  reachable (sink_step cfg) NewSink s →
  (inflight (s_shared s) ≤ Z.to_nat (MaxInflightBatches cfg))%nat ∧
  (length (filter (λ c, Exists (λ p, p = PrPending) (c_promises c)) (s_calls s)) ≤
   Z.to_nat (MaxInflightBatches cfg))%nat.
Proof.
  intros [Hcalls Hi _ Hcap _]%reachable_sink_inv. split; [done|].
  etrans; [|exact Hcap]. rewrite Hi. clear Hi Hcap.
  induction Hcalls as [|c cs Hc _ IH]; simpl; [done|].
  rewrite filter_cons. destruct (decide (Exists _ (c_promises c))) as [Hex|]; simpl; [|lia].
  apply Exists_exists in Hex as (p&Hp&->). apply list_elem_of_lookup in Hp as [j Hj].
  pose proof (undec_last c j _ Hc Hj eq_refl) as Hl.
  assert (slot c = 1%nat) as ->; [|lia].
  assert (¬ (produced c ≤ j)%nat) by by rewrite <-(ci_idle c Hc j _ Hj).
  unfold slot, produced in *. rewrite Hl. destruct (c_pc c); try done; lia.
Qed.

(** [C24] A flush that reports success covers everything submitted: when [Flush]
    returns nil in a run since the last reset, every batch whose [PublishBatch]
    returned nil has been acknowledged in full and its [done] was called. *)
Theorem Flush_covers_submitted (ls : list sink_label) (s : sink) (client_flush : option goerr) :
  Forall (λ l, l ≠ SReset) ls → run_labels (sink_step cfg) ls NewSink = Some s →
  Flush_ok client_flush (s_shared s) = true →
  Forall (λ c, c_pc c = CReturned → c_done c = 1%nat ∧ c_last c = LFinished) (s_calls s).
Proof.
  intros Hls Hrun Hf.
  pose proof (reachable_sink_inv cfg s (run_labels_reachable _ _ _ _ Hrun)) as [Hcalls _ Hp _ _].
  assert (errs_visible s) as Herr by (eapply run_sink_errs; [exact Hls|exact Hrun|by intros []%Exists_nil]).
  unfold Flush_ok in Hf. rewrite !andb_true_iff, !bool_decide_eq_true in Hf.
  destruct Hf as [[_ Hz] Hnone]. rewrite Hz in Hp.
  assert (sum_list_with unit_of (s_calls s) = 0%nat) as Hu by lia. apply sum_list_with_zero in Hu.
  apply Forall_forall. intros c Hc Hpc. rewrite Forall_forall in Hu, Hcalls.
  specialize (Hu c Hc). specialize (Hcalls c Hc). unfold unit_of in Hu. rewrite Hpc in Hu.
  assert (c_last c = LFinished) as Hl by by destruct (c_last c). split; [|done].
  rewrite (finished_done c Hcalls) by (unfold started; rewrite ?Hpc; auto).
  destruct (decide _) as [|Hno]; [done|]. exfalso. apply Herr; [|done]. apply Exists_exists.
  exists c. split; [done|]. apply Exists_exists. exists (PrFin false). split; [|done].
  apply last_failed; try done; [unfold started; by rewrite Hpc|by rewrite Hl].
Qed.

(** A failed record is reported: once a promise finished with an error, and
    until the next reset, [Err] is not nil, [PublishBatch] refuses every batch and
    [Flush] fails. *)
Theorem failed_record_is_sticky (ls : list sink_label) (s : sink) (es : list NomiosEvent)
    (client_flush : option goerr) :
  Forall (λ l, l ≠ SReset) ls → run_labels (sink_step cfg) ls NewSink = Some s →
  Exists (λ c, PrFin false ∈ c_promises c) (s_calls s) →
  sinkErr (s_shared s) ≠ None ∧ sink_step cfg (SPublish es) s = Some s ∧
  Flush_ok client_flush (s_shared s) = false.
Proof.
  intros Hls Hrun Hex.
  assert (errs_visible s) as Herr by (eapply run_sink_errs; [exact Hls|exact Hrun|by intros []%Exists_nil]).
  assert (sinkErr (s_shared s) ≠ None) as Hne.
  { apply Herr. eapply Exists_impl; [exact Hex|]. intros c Hc. apply Exists_exists.
    by exists (PrFin false). }
  split; [done|]. split.
  - simpl. by destruct (sinkErr (s_shared s)).
  - unfold Flush_ok. rewrite (bool_decide_eq_false_2 (sinkErr _ = None)) by done.
    by rewrite andb_false_r.
Qed.

(** The topic cache never changes where an event goes: in every reachable
    state [Topic] returns the override of its table if there is one and the
    expanded template otherwise, and the default template expands to the two
    names as they are, never substituting into them again. *)
Theorem Topic_coherent (s : sink) (e : NomiosEvent) :
  reachable (sink_step cfg) NewSink s →
  (Topic cfg (s_topics s) e).1 = resolve_topic cfg (EvSource e) ∧
  ∀ db table, expand_template "cdc.{database}.{table}" db table = "cdc." +:+ db +:+ "." +:+ table.
Proof.
  intros Hr. split.
  - apply Topic_ok. revert s Hr. apply reachable_invariant.
    + intros m t. simpl. by rewrite lookup_empty.
    + intros l s1 s2 Hs Hstep. by eapply sink_step_topics.
  - intros db table. unfold expand_template. simpl. by rewrite str_app_nil_r.
Qed.
End properties.

(** An empty batch would leak: [PublishBatch] with no events takes a slot and
    a wait-group unit that nothing gives back, since only a promise does, so that
    [Flush] never returns.  The publishers never pass an empty batch. *)
Theorem empty_batch_leaks :
  let step := @sink_step sampleSerializer sample_config in
  ∃ s c, run_labels step (SPublish [] :: (SCall 0 <$> [KAcquire; KAdd; KReturn])) NewSink = Some s ∧
    s_calls s = [c] ∧ c_pc c = CReturned ∧ inflight (s_shared s) = 1%nat ∧
    pending (s_shared s) = 1%Z ∧ ∀ l, step (SCall 0 l) s = None.
Proof.
  eexists _, _. split; [vm_compute; reflexivity|]. repeat (split; [reflexivity|]).
  intros [| | | | |j err|j|]; reflexivity.
Qed.


Lemma acked_batch_completes_witness :
  ∃ c, s_calls sample_acked !! 0%nat = Some c ∧
  ∃ ls s' c', run_labels (@sink_step sampleSerializer sample_config) (SCall 0 <$> ls) sample_acked = Some s' ∧
    Forall (λ l, internal l = true) ls ∧ s_calls s' !! 0%nat = Some c' ∧ c_last c' = LFinished ∧
    c_done c' = if decide (Forall (λ p, p = PrFin true) (c_promises c')) then 1%nat else 0%nat.
Proof.
  eexists. split; [vm_compute; reflexivity|].
  eapply (@acked_batch_completes sampleSerializer sample_config sample_acked 0).
  - apply (run_labels_reachable _ sample_acks). vm_compute. reflexivity.
  - vm_compute. reflexivity.
  - split; [reflexivity|]. split; [discriminate|]. repeat constructor.
Defined.

Lemma inflight_bounded_witness :
  (inflight (s_shared sample_acked) ≤ 1)%nat ∧
  (length (filter (λ c, Exists (λ p, p = PrPending) (c_promises c)) (s_calls sample_acked)) ≤ 1)%nat.
Proof.
  apply (@inflight_bounded sampleSerializer sample_config sample_acked).
  apply (run_labels_reachable _ sample_acks). vm_compute. reflexivity.
Defined.

(** The same batch, run to the end. *)
Definition sample_finished : list sink_label :=
  sample_acks ++ (SCall 0 <$> [KPromise 0; KPromise 1; KLast; KLast; KLast]).

Lemma Flush_covers_submitted_witness :
  let s := default NewSink (run_labels (@sink_step sampleSerializer sample_config) sample_finished NewSink) in
  acked (s_shared s) = [[mkPosition "" "f" 4 1; mkPosition "" "f" 4 2]] ∧
  Forall (λ c, c_pc c = CReturned → c_done c = 1%nat ∧ c_last c = LFinished) (s_calls s).
Proof.
  intros s. split; [vm_compute; reflexivity|].
  apply (@Flush_covers_submitted sampleSerializer sample_config sample_finished s None).
  - repeat constructor; discriminate.
  - vm_compute. reflexivity.
  - vm_compute. reflexivity.
Defined.

(** The first record acknowledged, the second failed. *)
Definition sample_failed : list sink_label :=
  [SPublish [sample_sink_event 1; sample_sink_event 2]] ++
  (SCall 0 <$> [KAcquire; KAdd; KProduce; KProduce; KReturn; KAck 1 (Some (EText "broker"));
    KPromise 1; KPromise 1; KPromise 1]).

Lemma failed_record_is_sticky_witness :
  let s := default NewSink (run_labels (@sink_step sampleSerializer sample_config) sample_failed NewSink) in
  sinkErr (s_shared s) ≠ None ∧
  @sink_step sampleSerializer sample_config (SPublish [sample_sink_event 3]) s = Some s ∧
  Flush_ok None (s_shared s) = false.
Proof.
  intros s.
  apply (@failed_record_is_sticky sampleSerializer sample_config sample_failed s [sample_sink_event 3] None).
  - repeat constructor; discriminate.
  - vm_compute. reflexivity.
  - unfold s. decide_closed.
Defined.

Lemma Topic_coherent_witness :
  (Topic sample_config (s_topics sample_acked) (sample_sink_event 5)).1 =
    resolve_topic sample_config (EvSource (sample_sink_event 5)) ∧
  ∀ db table, expand_template "cdc.{database}.{table}" db table = "cdc." +:+ db +:+ "." +:+ table.
Proof.
  apply (@Topic_coherent sampleSerializer sample_config sample_acked (sample_sink_event 5)).
  apply (run_labels_reachable _ sample_acks). vm_compute. reflexivity.
Defined.
