(* ===== verification/Hyperloop.v ===== *)
(** * The hyperloop: one pipeline from source to sink

    pkg/hyperloop/hyperloop.go.  [run] starts a source, a dispatcher, one
    publisher per queue, a committer and waits for them; here they are one
    labelled transition system whose labels are the moves of those goroutines, of
    the context and timers, and of the interfaces' implementations (the source's
    sends, the sink's acknowledgements, the store's answers).  The dispatcher is
    the one of Dispatcher.v, the tracker the one of State.v. *)

From S2P Require Import Prelude GoStd State Event Keys Channel Dispatcher.

(** ** Config *)
Record Config := mkConfig {
  CfgID : string;
  Queues : Z;
  QueueCapacity : Z;
  BatchMaxSize : Z;
  BatchMaxWait : Z;    (* nanoseconds *)
  KeyOverrides : gmap string (list string);
  CommitInterval : Z;  (* nanoseconds *)
  ShutdownTimeout : Z; (* nanoseconds *)
}.

Definition positive_or (x d : Z) : Z := if decide (x ≤ 0)%Z then d else x.

Definition withDefaults (c : Config) : Config :=
  mkConfig (CfgID c) (positive_or (Queues c) 4) (positive_or (QueueCapacity c) 4096)
    (positive_or (BatchMaxSize c) 500) (positive_or (BatchMaxWait c) 20000000) (KeyOverrides c)
    (positive_or (CommitInterval c) 1000000000) (positive_or (ShutdownTimeout c) 30000000000).

(** [New]: the checks of its arguments; [deps] says whether each of source, sink
    and store was given. *)
Definition New_check (c : Config) (source sink store : bool) : option goerr :=
  if decide (CfgID (withDefaults c) = "") then Some (EText "hyperloop: id is required")
  else if negb (source && sink && store)
  then Some (EText "hyperloop: source, sink and store are required")
  else None.

(** The micro-batch size, and the capacity of the source's output channel. *)
Definition flush_size (c : Config) : Z :=
  if decide (256 < BatchMaxSize c)%Z then 256%Z else BatchMaxSize c.

Definition out_batches (c : Config) : Z :=
  let b := Z.quot (QueueCapacity c) (flush_size c) in if decide (b < 2)%Z then 2%Z else b.

(** ** Status *)
Inductive Status :=
  | StatusCreated | StatusStarting | StatusRunning | StatusStopping | StatusStopped | StatusFailed.

#[export] Instance Status_eq_dec : EqDecision Status.
Proof. solve_decision. Defined.

(** ** The goroutines *)

(** The source: running; returned from [Start], before [fail]; before [close(out)];
    gone. *)
Inductive source_pc := SrcRunning | SrcReturned (r : option goerr) | SrcClosing | SrcGone.

(** The dispatcher's goroutine after [d.Run] returned: did it call [fail] yet. *)
Inductive disp_pc := DispRunning | DispGone.

(** A publisher: at the first select of [drainBatch], at the second one with what
    it collected, before [PublishBatch], before [fail], gone. *)
Inductive pub_pc :=
  | PubFirst
  | PubTop (b : batch)
  | PubSubmit (b : batch) (open : bool)
  | PubReturned (r : option goerr)
  | PubGone.

(** A batch handed to the sink: not durable yet; the instructions of its [done]
    callback; finished; failed. *)
Inductive sub_pc := SubPending | SubCount | SubTime | SubDone | SubFailed.

Record sub := mkSub {
  sub_queue : nat;
  sub_events : batch;
  sub_ms : Z;
  sub_state : sub_pc;
}.

(** The committer: at its select; after the poll of the sink; saving. *)
Inductive commit_pc := CmIdle | CmPolled | CmSaving (p : Position) | CmStopped.

(** The main goroutine: at the select; draining; draining after the hard cancel;
    joined or given up; [firstErr] read; flushed; the committer stopped; returned. *)
Inductive main_pc :=
  | MainWait
  | MainDrain
  | MainHard
  | MainJoined (abandoned : bool)
  | MainGotErr (r : option goerr) (abandoned : bool)
  | MainFlushed (r : option goerr)
  | MainCommit (r : option goerr)
  | MainReturned (r : option goerr).

Record hstate := mkH {
  h_disp : dstate;                (* the dispatcher and the channels *)
  h_src : source_pc;
  h_dgo : disp_pc;
  h_pubs : list pub_pc;
  h_subs : list sub;
  h_sinkerr : option goerr;       (* what the sink's [Err] returns *)
  h_tracker : Tracker;
  h_published : Z;                (* uint64 *)
  h_lastms : Z;                   (* int64 *)
  h_commit : commit_pc;
  h_main : main_pc;
  h_err : option goerr;           (* firstErr *)
  h_srcctx : bool;                (* srcCtx cancelled *)
  h_store : Position;             (* what the store holds *)
  h_persisted : Position;
  h_failures : Z;                 (* saveFailures, uint64 *)
  h_status : Status;
  (* observations *)
  h_ops : list tracker_op;        (* the tracker's history *)
  h_saves : list Position;        (* every position passed to [Store.Save] *)
}.

(** Field updates. *)
Definition upd_disp (s : hstate) d := mkH d (h_src s) (h_dgo s) (h_pubs s) (h_subs s) (h_sinkerr s)
  (h_tracker s) (h_published s) (h_lastms s) (h_commit s) (h_main s) (h_err s) (h_srcctx s)
  (h_store s) (h_persisted s) (h_failures s) (h_status s) (h_ops s) (h_saves s).
Definition upd_src (s : hstate) p := mkH (h_disp s) p (h_dgo s) (h_pubs s) (h_subs s) (h_sinkerr s)
  (h_tracker s) (h_published s) (h_lastms s) (h_commit s) (h_main s) (h_err s) (h_srcctx s)
  (h_store s) (h_persisted s) (h_failures s) (h_status s) (h_ops s) (h_saves s).
Definition upd_dgo (s : hstate) p := mkH (h_disp s) (h_src s) p (h_pubs s) (h_subs s) (h_sinkerr s)
  (h_tracker s) (h_published s) (h_lastms s) (h_commit s) (h_main s) (h_err s) (h_srcctx s)
  (h_store s) (h_persisted s) (h_failures s) (h_status s) (h_ops s) (h_saves s).
Definition upd_pubs (s : hstate) p := mkH (h_disp s) (h_src s) (h_dgo s) p (h_subs s) (h_sinkerr s)
  (h_tracker s) (h_published s) (h_lastms s) (h_commit s) (h_main s) (h_err s) (h_srcctx s)
  (h_store s) (h_persisted s) (h_failures s) (h_status s) (h_ops s) (h_saves s).
Definition upd_subs (s : hstate) p := mkH (h_disp s) (h_src s) (h_dgo s) (h_pubs s) p (h_sinkerr s)
  (h_tracker s) (h_published s) (h_lastms s) (h_commit s) (h_main s) (h_err s) (h_srcctx s)
  (h_store s) (h_persisted s) (h_failures s) (h_status s) (h_ops s) (h_saves s).
Definition upd_sinkerr (s : hstate) e := mkH (h_disp s) (h_src s) (h_dgo s) (h_pubs s) (h_subs s) e
  (h_tracker s) (h_published s) (h_lastms s) (h_commit s) (h_main s) (h_err s) (h_srcctx s)
  (h_store s) (h_persisted s) (h_failures s) (h_status s) (h_ops s) (h_saves s).
(** The tracker moves by its operations only. *)
Definition do_op (s : hstate) (o : tracker_op) := mkH (h_disp s) (h_src s) (h_dgo s) (h_pubs s)
  (h_subs s) (h_sinkerr s) (apply_op (h_tracker s) o) (h_published s) (h_lastms s) (h_commit s)
  (h_main s) (h_err s) (h_srcctx s) (h_store s) (h_persisted s) (h_failures s) (h_status s)
  (h_ops s ++ [o]) (h_saves s).
Definition upd_counts (s : hstate) n ms := mkH (h_disp s) (h_src s) (h_dgo s) (h_pubs s) (h_subs s)
  (h_sinkerr s) (h_tracker s) n ms (h_commit s) (h_main s) (h_err s) (h_srcctx s)
  (h_store s) (h_persisted s) (h_failures s) (h_status s) (h_ops s) (h_saves s).
Definition upd_commit (s : hstate) p := mkH (h_disp s) (h_src s) (h_dgo s) (h_pubs s) (h_subs s)
  (h_sinkerr s) (h_tracker s) (h_published s) (h_lastms s) p (h_main s) (h_err s) (h_srcctx s)
  (h_store s) (h_persisted s) (h_failures s) (h_status s) (h_ops s) (h_saves s).
Definition upd_main (s : hstate) p st := mkH (h_disp s) (h_src s) (h_dgo s) (h_pubs s) (h_subs s)
  (h_sinkerr s) (h_tracker s) (h_published s) (h_lastms s) (h_commit s) p (h_err s) (h_srcctx s)
  (h_store s) (h_persisted s) (h_failures s) st (h_ops s) (h_saves s).
Definition upd_err (s : hstate) e := mkH (h_disp s) (h_src s) (h_dgo s) (h_pubs s) (h_subs s)
  (h_sinkerr s) (h_tracker s) (h_published s) (h_lastms s) (h_commit s) (h_main s) e (h_srcctx s)
  (h_store s) (h_persisted s) (h_failures s) (h_status s) (h_ops s) (h_saves s).
Definition upd_srcctx (s : hstate) b := mkH (h_disp s) (h_src s) (h_dgo s) (h_pubs s) (h_subs s)
  (h_sinkerr s) (h_tracker s) (h_published s) (h_lastms s) (h_commit s) (h_main s) (h_err s) b
  (h_store s) (h_persisted s) (h_failures s) (h_status s) (h_ops s) (h_saves s).
(** A save of [p]: what the store holds after it, what the node believes it holds. *)
Definition upd_store (s : hstate) p stored persisted failures := mkH (h_disp s) (h_src s) (h_dgo s)
  (h_pubs s) (h_subs s) (h_sinkerr s) (h_tracker s) (h_published s) (h_lastms s) (h_commit s)
  (h_main s) (h_err s) (h_srcctx s) stored persisted failures (h_status s) (h_ops s)
  (h_saves s ++ [p]).

(** ** Cancellation and failure *)

Definition cancelSrc (s : hstate) : hstate := upd_srcctx s true.

Definition cancelHard (s : hstate) : hstate :=
  upd_disp s (default (h_disp s) (dstep Key (LCancel ECanceled) (h_disp s))).

Definition hard_cancelled (s : hstate) : bool := negb (bool_decide (d_ctx (h_disp s) = None)).

(** [fail]: the first error that is not a cancellation stops everything. *)
Definition fail (s : hstate) (err : option goerr) : hstate :=
  match err with
  | None => s
  | Some e =>
      if errors_Is e ECanceled then s
      else match h_err s with
           | Some _ => s
           | None => cancelHard (cancelSrc (upd_err s (Some e)))
           end
  end.

(** ** The publisher's helpers *)

(** The newest event time of a batch. *)
Definition max_ms (b : batch) : Z :=
  foldl (λ m e, let ms := UnixMilli (OccurredAt e) in if decide (m < ms)%Z then ms else m) 0%Z b.

(** [recordLastEvent]: the compare-and-swap loop ends with the maximum. *)
Definition recordLastEvent (cur ms : Z) : Z :=
  if decide (ms ≤ 0)%Z then cur else if decide (ms ≤ cur)%Z then cur else ms.

(** After a micro-batch was appended: collect more, or publish. *)
Definition topped_up (c : Config) (b : batch) : pub_pc :=
  if decide (Z.of_nat (length b) < BatchMaxSize c)%Z then PubTop b else PubSubmit b true.

(** After a batch was handled. *)
Definition next_round (open : bool) : pub_pc := if open then PubFirst else PubReturned None.

(** ** The step *)
Inductive hlabel :=
  (* the source *)
  | HSend (b : batch) | HSourceReturn (r : option goerr) | HSourceFail | HSourceClose
  (* the dispatcher *)
  | HDispatch (l : dlabel) | HDispatchExit
  (* publisher [i] *)
  | HRecv (i : nat) | HClosed (i : nat) | HTimer (i : nat) | HPubCtx (i : nat)
  | HSkip (i : nat) | HPublishOk (i : nat) | HPublishErr (i : nat) (e : goerr) | HPubExit (i : nat)
  (* the sink, batch [k] *)
  | HAck (k : nat) | HDone (k : nat) | HReject (k : nat) (e : goerr)
  (* promises and callbacks of batches of an earlier run *)
  | HStaleErr (e : goerr) | HStaleCount (n : nat) | HStaleTime (ms : Z)
  (* the committer *)
  | HTick | HTake | HSaveOk | HSaveErr (stored : bool) (e : goerr) | HCommitStop
  (* the main goroutine *)
  | HStop | HFinished | HTimeout | HGetErr | HFlushed (r : option goerr) | HJoinCommit
  | HFinalOk | HFinalErr (stored : bool) (e : goerr) | HFinalNone.

Section step.
Context (c : Config) (key : NomiosEvent → string).
(** The text of a [time.Duration]. *)
Context (duration_text : Z → string).

(** All goroutines of the wait group have returned. *)
Definition finished (s : hstate) : bool :=
  match h_src s, h_dgo s with
  | SrcGone, DispGone => forallb (λ p, match p with PubGone => true | _ => false end) (h_pubs s)
  | _, _ => false
  end.

Definition set_pub (s : hstate) (i : nat) (p : pub_pc) : hstate :=
  upd_pubs s (<[i := p]> (h_pubs s)).

Definition set_sub (s : hstate) (k : nat) (x : sub) (p : sub_pc) : hstate :=
  upd_subs s (<[k := mkSub (sub_queue x) (sub_events x) (sub_ms x) p]> (h_subs s)).

Definition source_step (l : hlabel) (s : hstate) : option hstate :=
  match l, h_src s with
  | HSend b, SrcRunning =>
      (* a source numbers its events from 1 *)
      if decide (ev_seq <$> b =
                 seqZ (Z.of_nat (length (d_sent (h_disp s))) + 1) (Z.of_nat (length b)))
      then upd_disp s <$> dstep key (LSend b) (h_disp s) else None
  | HSourceReturn r, SrcRunning => Some (upd_src s (SrcReturned r))
  | HSourceFail, SrcReturned r => Some (upd_src (fail s r) SrcClosing)
  | HSourceClose, SrcClosing =>
      d ← dstep key LCloseIn (h_disp s); Some (upd_src (upd_disp s d) SrcGone)
  | _, _ => None
  end.

Definition dispatcher_step (l : hlabel) (s : hstate) : option hstate :=
  match l, h_dgo s with
  | HDispatch l, DispRunning =>
      if run_label l then upd_disp s <$> dstep key l (h_disp s) else None
  | HDispatchExit, DispRunning =>
      match d_pc (h_disp s) with
      | PDone r => Some (upd_dgo (fail s (EWrap "dispatcher" <$> r)) DispGone)
      | _ => None
      end
  | _, _ => None
  end.

Definition publisher_step (i : nat) (p : pub_pc) (l : hlabel) (s : hstate) : option hstate :=
  match l, p with
  | HRecv _, (PubFirst | PubTop _) =>
      let b := match p with PubTop b => b | _ => [] end in
      q ← queues (d_disp (h_disp s)) !! i;
      bq ← chan_recv q;
      d ← dstep key (LConsume i) (h_disp s);
      Some (set_pub (upd_disp s d) i (topped_up c (b ++ bq.1)))
  | HClosed _, (PubFirst | PubTop _) =>
      let b := match p with PubTop b => b | _ => [] end in
      q ← queues (d_disp (h_disp s)) !! i;
      if chan_drained q then Some (set_pub s i (PubSubmit b false)) else None
  | HPubCtx _, (PubFirst | PubTop _) =>
      let b := match p with PubTop b => b | _ => [] end in
      if hard_cancelled s then Some (set_pub s i (PubSubmit b false)) else None
  | HTimer _, PubTop b => Some (set_pub s i (PubSubmit b true))
  | HSkip _, PubSubmit [] open => Some (set_pub s i (next_round open))
  | HPublishOk _, PubSubmit (e :: b) open =>
      Some (upd_subs (set_pub s i (next_round open))
              (h_subs s ++ [mkSub i (e :: b) (max_ms (e :: b)) SubPending]))
  | HPublishErr _ err, PubSubmit (_ :: _) open =>
      if hard_cancelled s then Some (set_pub s i (PubReturned None))
      else if errors_Is err ECanceled && negb (bool_decide (h_sinkerr s = Some err))
      then None (* a cancellation is its context's, or the sticky error of an earlier run *)
      else Some (set_pub s i (PubReturned (Some err)))
  | HPubExit _, PubReturned r =>
      Some (set_pub (fail s (EWrap ("publisher " +:+ pretty (Z.of_nat i)) <$> r)) i PubGone)
  | _, _ => None
  end.

(** The sink's sticky error. *)
Definition first_error (o : option goerr) (e : goerr) : option goerr :=
  match o with None => Some e | Some _ => o end.

(** The sink makes batch [k] durable and runs its [done] callback, one
    instruction a step, or rejects it. *)
Definition sink_step (k : nat) (x : sub) (l : hlabel) (s : hstate) : option hstate :=
  match l, sub_state x with
  | HAck _, SubPending =>
      Some (set_sub (do_op s (ODoneBatch (EvPosition <$> sub_events x))) k x SubCount)
  | HDone _, SubCount =>
      Some (set_sub (upd_counts s (u64 (h_published s + Z.of_nat (length (sub_events x))))
                       (h_lastms s)) k x SubTime)
  | HDone _, SubTime =>
      Some (set_sub (upd_counts s (h_published s) (recordLastEvent (h_lastms s) (sub_ms x)))
              k x SubDone)
  | HReject _ e, SubPending =>
      Some (set_sub (upd_sinkerr s (first_error (h_sinkerr s) e)) k x SubFailed)
  | _, _ => None
  end.

(** The sink and the counters outlive a run: a promise of an earlier run sets the
    same sticky error, the callback of one moves the same counters.  Its tracker
    is not the run's. *)
Definition stale_step (l : hlabel) (s : hstate) : option hstate :=
  match l with
  | HStaleErr e => Some (upd_sinkerr s (first_error (h_sinkerr s) e))
  | HStaleCount n => Some (upd_counts s (u64 (h_published s + Z.of_nat n)) (h_lastms s))
  | HStaleTime ms => Some (upd_counts s (h_published s) (recordLastEvent (h_lastms s) ms))
  | _ => None
  end.

Definition committer_step (l : hlabel) (s : hstate) : option hstate :=
  match l, h_commit s with
  | HTick, CmIdle =>
      Some (upd_commit (fail s (EWrap "sink" <$> h_sinkerr s)) CmPolled)
  | HTake, CmPolled =>
      let '((p, ok), _) := TakeDirty (h_tracker s) in
      Some (upd_commit (do_op s OTakeDirty) (if ok then CmSaving p else CmIdle))
  | HSaveOk, CmSaving p => Some (upd_commit (upd_store s p p p (h_failures s)) CmIdle)
  | HSaveErr stored e, CmSaving p =>
      Some (upd_commit
              (do_op (upd_store s p (if stored : bool then p else h_store s) (h_persisted s)
                        (u64 (h_failures s + 1))) ORedirty) CmIdle)
  | HCommitStop, CmIdle =>
      match h_main s with MainFlushed _ => Some (upd_commit s CmStopped) | _ => None end
  | _, _ => None
  end.

Definition main_step (l : hlabel) (s : hstate) : option hstate :=
  match l, h_main s with
  | HStop, MainWait => Some (upd_main (cancelSrc s) MainDrain StatusStopping)
  | HFinished, MainWait =>
      if finished s then Some (upd_main s (MainJoined false) StatusStopping) else None
  | HFinished, (MainDrain | MainHard) =>
      if finished s then Some (upd_main s (MainJoined false) (h_status s)) else None
  | HTimeout, MainDrain => Some (upd_main (cancelHard s) MainHard (h_status s))
  | HTimeout, MainHard => Some (upd_main s (MainJoined true) (h_status s))
  | HGetErr, MainJoined abandoned => Some (upd_main s (MainGotErr (h_err s) abandoned) (h_status s))
  | HFlushed r, MainGotErr None false =>
      (* [Flush] returns nil when every batch is durable, its [done] has returned,
         and no error was recorded *)
      if bool_decide (r = None) &&
         negb (bool_decide (h_sinkerr s = None) &&
               forallb (λ x, match sub_state x with SubDone => true | _ => false end) (h_subs s))
      then None
      else Some (upd_main s (MainFlushed r) (h_status s))
  | HFlushed _, MainGotErr None true =>
      Some (upd_main s (MainFlushed (Some (EText ("hyperloop: shutdown timed out after 2x" +:+
        duration_text (ShutdownTimeout c) +:+ "; pipeline goroutines abandoned")))) (h_status s))
  | HFlushed _, MainGotErr (Some e) _ => Some (upd_main s (MainFlushed (Some e)) (h_status s))
  | HJoinCommit, MainFlushed r =>
      match h_commit s with
      | CmStopped => Some (upd_main s (MainCommit r) (h_status s))
      | _ => None
      end
  | HFinalOk, MainCommit r =>
      let '(p, ok) := Checkpoint (h_tracker s) in
      if ok then Some (upd_main (upd_store s p p p (h_failures s)) (MainReturned r) (h_status s))
      else None
  | HFinalErr stored e, MainCommit r =>
      let '(p, ok) := Checkpoint (h_tracker s) in
      if ok then
        Some (upd_main (upd_store s p (if stored : bool then p else h_store s) (h_persisted s)
                          (u64 (h_failures s + 1)))
                (MainReturned (match r with None => Some e | Some _ => r end)) (h_status s))
      else None
  | HFinalNone, MainCommit r =>
      let '(p, ok) := Checkpoint (h_tracker s) in
      if ok then None else Some (upd_main s (MainReturned r) (h_status s))
  | _, _ => None
  end.

Definition hstep (l : hlabel) (s : hstate) : option hstate :=
  match l with
  | HSend _ | HSourceReturn _ | HSourceFail | HSourceClose => source_step l s
  | HDispatch _ | HDispatchExit => dispatcher_step l s
  | HRecv i | HClosed i | HTimer i | HPubCtx i | HSkip i | HPublishOk i | HPublishErr i _ | HPubExit i =>
      p ← h_pubs s !! i; publisher_step i p l s
  | HAck k | HDone k | HReject k _ => x ← h_subs s !! k; sink_step k x l s
  | HStaleErr _ | HStaleCount _ | HStaleTime _ => stale_step l s
  | HTick | HTake | HSaveOk | HSaveErr _ _ | HCommitStop => committer_step l s
  | HStop | HFinished | HTimeout | HGetErr | HFlushed _ | HJoinCommit | HFinalOk | HFinalErr _ _ | HFinalNone =>
      main_step l s
  end.

(** [run] once the state was loaded: the position [pos], a new tracker, the
    dispatcher, its channels. *)
Definition hinit (pos : Position) (published lastms failures : Z) : hstate :=
  let d := New (Queues c) (QueueCapacity c) (flush_size c) in
  mkH (dinit d (Z.to_nat (out_batches c))) SrcRunning DispRunning
    (replicate (length (queues d)) PubFirst) [] None NewTracker published lastms CmIdle MainWait
    None false pos pos failures StatusRunning [] [].

(** What [run] does before: [Store.Load]. *)
Definition run_start (load : result Position) (published lastms failures : Z) : result hstate :=
  match load with
  | Err e => Err (EWrap "hyperloop: load state" e)
  | Ok pos => Ok (hinit pos published lastms failures)
  end.
End step.

(** ** Run and Status *)

(** [Run] stores the outcome of [run]: the final status and [lastErr]. *)
Definition Run_outcome (r : option goerr) : Status * option goerr :=
  match r with Some e => (StatusFailed, Some e) | None => (StatusStopped, None) end.

Record StatusReport := mkReport {
  RepID : string;
  RepStatus : Status;
  Published : Z;
  RepCheckpoint : Position;
  Persisted : Position;
  LastEventUnixMs : Z;
  StateSaveFailures : Z;
  QueueDepths : list Z;
}.

(** The monitoring snapshot of a running pipeline. *)
Definition Status_of (c : Config) (s : hstate) : StatusReport :=
  mkReport (CfgID c) (h_status s) (h_published s) (Checkpoint (h_tracker s)).1 (h_persisted s)
    (h_lastms s) (h_failures s) (Depths (d_disp (h_disp s))).
