(* ===== verification/Pipeline.v ===== *)
(** * End-to-end guarantees of a hyperloop

    Invariants of the transition system of Hyperloop.v and what follows from
    them: a saved checkpoint never covers an event the sink has not
    acknowledged, events of one key reach the sink in source order, a clean stop
    persists everything, and stopping is bounded. *)

From S2P Require Import Prelude GoStd State Event Keys Channel Dispatcher Hyperloop.

(** ** What [fail] leaves alone *)
Section fail.
Implicit Types (s : hstate) (r : option goerr).

Lemma fail_cases s r :
  fail s r = s ∨
  ∃ e, r = Some e ∧ errors_Is e ECanceled = false ∧ h_err s = None ∧
    fail s r = cancelHard (cancelSrc (upd_err s (Some e))).
Proof.
  unfold fail. destruct r as [e|]; [|by left]. destruct (errors_Is e ECanceled) eqn:He; [by left|].
  destruct (h_err s) eqn:Hs; [by left|]. right. by exists e.
Qed.

Lemma fail_frame s r :
  h_src (fail s r) = h_src s ∧ h_dgo (fail s r) = h_dgo s ∧ h_pubs (fail s r) = h_pubs s ∧
  h_subs (fail s r) = h_subs s ∧ h_sinkerr (fail s r) = h_sinkerr s ∧
  h_tracker (fail s r) = h_tracker s ∧ h_commit (fail s r) = h_commit s ∧
  h_main (fail s r) = h_main s ∧ h_store (fail s r) = h_store s ∧
  h_ops (fail s r) = h_ops s ∧ h_saves (fail s r) = h_saves s ∧
  h_published (fail s r) = h_published s ∧ h_persisted (fail s r) = h_persisted s.
Proof. destruct (fail_cases s r) as [->|(e&_&_&_&->)]; by split_and!. Qed.

(** A cancelled dispatcher context, and nothing else of it. *)
Definition cancelled (d : dstate) : dstate :=
  mkDState (d_disp d) (d_in d) (match d_ctx d with None => Some ECanceled | x => x end) (d_pc d)
    (d_sent d) (d_taken d) (d_routed d) (d_received d).

Lemma cancelHard_disp s : h_disp (cancelHard s) = cancelled (h_disp s).
Proof. unfold cancelHard, cancelled. simpl. destruct (h_disp s) as [? ? [] ? ? ? ? ?]; done. Qed.

Lemma fail_disp s r :
  h_disp (fail s r) = h_disp s ∨ h_disp (fail s r) = cancelled (h_disp s).
Proof.
  destruct (fail_cases s r) as [->|(e&_&_&_&->)]; [by left|right]. by rewrite cancelHard_disp.
Qed.

Lemma cancelled_step key d :
  cancelled d = d ∨ dstep key (LCancel ECanceled) d = Some (cancelled d).
Proof. destruct d as [? ? [] ? ? ? ? ?]; [by left|by right]. Qed.
End fail.

(** ** Inversion of a step *)
Section cases.
Context (c : Config) (key : NomiosEvent → string) (dt : Z → string).
Implicit Types (s : hstate) (d : dstate).

(** What a publisher has collected when it waits for more. *)
Definition collecting (p : pub_pc) : option batch :=
  match p with PubFirst => Some [] | PubTop b => Some b | _ => None end.

Definition all_done (xs : list sub) : bool :=
  forallb (λ x, match sub_state x with SubDone => true | _ => false end) xs.

Inductive hcase s : hlabel → hstate → Prop :=
  | hc_send b d :
      h_src s = SrcRunning →
      ev_seq <$> b = seqZ (Z.of_nat (length (d_sent (h_disp s))) + 1) (Z.of_nat (length b)) →
      dstep key (LSend b) (h_disp s) = Some d → hcase s (HSend b) (upd_disp s d)
  | hc_source_return r :
      h_src s = SrcRunning → hcase s (HSourceReturn r) (upd_src s (SrcReturned r))
  | hc_source_fail r :
      h_src s = SrcReturned r → hcase s HSourceFail (upd_src (fail s r) SrcClosing)
  | hc_source_close d :
      h_src s = SrcClosing → dstep key LCloseIn (h_disp s) = Some d →
      hcase s HSourceClose (upd_src (upd_disp s d) SrcGone)
  | hc_dispatch l d :
      h_dgo s = DispRunning → run_label l = true → dstep key l (h_disp s) = Some d →
      hcase s (HDispatch l) (upd_disp s d)
  | hc_dispatch_exit r :
      h_dgo s = DispRunning → d_pc (h_disp s) = PDone r →
      hcase s HDispatchExit (upd_dgo (fail s (EWrap "dispatcher" <$> r)) DispGone)
  | hc_recv i p b0 q b q' d :
      h_pubs s !! i = Some p → collecting p = Some b0 → queues (d_disp (h_disp s)) !! i = Some q →
      chan_recv q = Some (b, q') → dstep key (LConsume i) (h_disp s) = Some d →
      hcase s (HRecv i) (set_pub (upd_disp s d) i (topped_up c (b0 ++ b)))
  | hc_closed i p b0 q :
      h_pubs s !! i = Some p → collecting p = Some b0 → queues (d_disp (h_disp s)) !! i = Some q →
      chan_drained q = true → hcase s (HClosed i) (set_pub s i (PubSubmit b0 false))
  | hc_pub_ctx i p b0 :
      h_pubs s !! i = Some p → collecting p = Some b0 → hard_cancelled s = true →
      hcase s (HPubCtx i) (set_pub s i (PubSubmit b0 false))
  | hc_timer i b :
      h_pubs s !! i = Some (PubTop b) → hcase s (HTimer i) (set_pub s i (PubSubmit b true))
  | hc_skip i open :
      h_pubs s !! i = Some (PubSubmit [] open) → hcase s (HSkip i) (set_pub s i (next_round open))
  | hc_publish i e b open :
      h_pubs s !! i = Some (PubSubmit (e :: b) open) →
      hcase s (HPublishOk i)
        (upd_subs (set_pub s i (next_round open))
           (h_subs s ++ [mkSub i (e :: b) (max_ms (e :: b)) SubPending]))
  | hc_publish_ctx i e b open err :
      h_pubs s !! i = Some (PubSubmit (e :: b) open) → hard_cancelled s = true →
      hcase s (HPublishErr i err) (set_pub s i (PubReturned None))
  | hc_publish_err i e b open err :
      h_pubs s !! i = Some (PubSubmit (e :: b) open) → hard_cancelled s = false →
      errors_Is err ECanceled = false ∨ h_sinkerr s = Some err →
      hcase s (HPublishErr i err) (set_pub s i (PubReturned (Some err)))
  | hc_pub_exit i r pre :
      h_pubs s !! i = Some (PubReturned r) →
      hcase s (HPubExit i) (set_pub (fail s (EWrap pre <$> r)) i PubGone)
  | hc_ack k x :
      h_subs s !! k = Some x → sub_state x = SubPending →
      hcase s (HAck k) (set_sub (do_op s (ODoneBatch (EvPosition <$> sub_events x))) k x SubCount)
  | hc_count k x :
      h_subs s !! k = Some x → sub_state x = SubCount →
      hcase s (HDone k)
        (set_sub (upd_counts s (u64 (h_published s + Z.of_nat (length (sub_events x)))) (h_lastms s))
           k x SubTime)
  | hc_time k x :
      h_subs s !! k = Some x → sub_state x = SubTime →
      hcase s (HDone k)
        (set_sub (upd_counts s (h_published s) (recordLastEvent (h_lastms s) (sub_ms x))) k x SubDone)
  | hc_reject k x e :
      h_subs s !! k = Some x → sub_state x = SubPending →
      hcase s (HReject k e) (set_sub (upd_sinkerr s (first_error (h_sinkerr s) e)) k x SubFailed)
  | hc_stale_err e :
      hcase s (HStaleErr e) (upd_sinkerr s (first_error (h_sinkerr s) e))
  | hc_stale_count n :
      hcase s (HStaleCount n) (upd_counts s (u64 (h_published s + Z.of_nat n)) (h_lastms s))
  | hc_stale_time ms :
      hcase s (HStaleTime ms) (upd_counts s (h_published s) (recordLastEvent (h_lastms s) ms))
  | hc_tick r :
      h_commit s = CmIdle → hcase s HTick (upd_commit (fail s r) CmPolled)
  | hc_take p ok t :
      h_commit s = CmPolled → TakeDirty (h_tracker s) = ((p, ok), t) →
      hcase s HTake (upd_commit (do_op s OTakeDirty) (if ok then CmSaving p else CmIdle))
  | hc_save_ok p :
      h_commit s = CmSaving p → hcase s HSaveOk (upd_commit (upd_store s p p p (h_failures s)) CmIdle)
  | hc_save_err p stored e :
      h_commit s = CmSaving p →
      hcase s (HSaveErr stored e)
        (upd_commit (do_op (upd_store s p (if stored : bool then p else h_store s) (h_persisted s)
                              (u64 (h_failures s + 1))) ORedirty) CmIdle)
  | hc_commit_stop r :
      h_commit s = CmIdle → h_main s = MainFlushed r → hcase s HCommitStop (upd_commit s CmStopped)
  | hc_stop :
      h_main s = MainWait → hcase s HStop (upd_main (cancelSrc s) MainDrain StatusStopping)
  | hc_finished st :
      st = StatusStopping ∨ st = h_status s →
      h_main s = MainWait ∨ h_main s = MainDrain ∨ h_main s = MainHard → finished s = true →
      hcase s HFinished (upd_main s (MainJoined false) st)
  | hc_timeout :
      h_main s = MainDrain → hcase s HTimeout (upd_main (cancelHard s) MainHard (h_status s))
  | hc_abandon :
      h_main s = MainHard → hcase s HTimeout (upd_main s (MainJoined true) (h_status s))
  | hc_get_err a :
      h_main s = MainJoined a → hcase s HGetErr (upd_main s (MainGotErr (h_err s) a) (h_status s))
  | hc_flushed :
      h_main s = MainGotErr None false → h_sinkerr s = None → all_done (h_subs s) = true →
      hcase s (HFlushed None) (upd_main s (MainFlushed None) (h_status s))
  | hc_flush_err r a r' e :
      h_main s = MainGotErr r a → hcase s (HFlushed r') (upd_main s (MainFlushed (Some e)) (h_status s))
  | hc_join r :
      h_main s = MainFlushed r → h_commit s = CmStopped →
      hcase s HJoinCommit (upd_main s (MainCommit r) (h_status s))
  | hc_final_ok r p :
      h_main s = MainCommit r → Checkpoint (h_tracker s) = (p, true) →
      hcase s HFinalOk (upd_main (upd_store s p p p (h_failures s)) (MainReturned r) (h_status s))
  | hc_final_err r p stored e e' :
      h_main s = MainCommit r → Checkpoint (h_tracker s) = (p, true) →
      hcase s (HFinalErr stored e)
        (upd_main (upd_store s p (if stored : bool then p else h_store s) (h_persisted s)
                     (u64 (h_failures s + 1))) (MainReturned (Some e')) (h_status s))
  | hc_final_none r p :
      h_main s = MainCommit r → Checkpoint (h_tracker s) = (p, false) →
      hcase s HFinalNone (upd_main s (MainReturned r) (h_status s)).

Lemma publisher_case i p l s s' :
  h_pubs s !! i = Some p → publisher_step c key i p l s = Some s' →
  l = HRecv i ∨ l = HClosed i ∨ l = HTimer i ∨ l = HPubCtx i ∨ l = HSkip i ∨ l = HPublishOk i ∨
  (∃ e, l = HPublishErr i e) ∨ l = HPubExit i →
  hcase s l s'.
Proof.
  intros Hp Hstep Hl. unfold publisher_step in Hstep.
  destruct Hl as [->|[->|[->|[->|[->|[->|[[err ->]| ->]]]]]]].
  - destruct (collecting p) as [b0|] eqn:Hc; [|by destruct p].
    assert (match p with PubTop b => b | _ => [] end = b0) as Hb by (destruct p; by simplify_eq/=).
    assert ((q ← queues (d_disp (h_disp s)) !! i; bq ← chan_recv q;
      d ← dstep key (LConsume i) (h_disp s);
      Some (set_pub (upd_disp s d) i (topped_up c (b0 ++ bq.1)))) = Some s') as Hs.
    { rewrite <-Hb. by destruct p. }
    clear Hstep. destruct (queues _ !! i) as [q|] eqn:Hq; [|done]. cbn [mbind option_bind] in Hs.
    destruct (chan_recv q) as [[b q']|] eqn:Hr; [|done]. cbn [mbind option_bind] in Hs.
    destruct (dstep key (LConsume i) (h_disp s)) as [d|] eqn:Hd; [|done].
    injection Hs as <-. by eapply hc_recv.
  - destruct p; try done; destruct (queues _ !! i) as [q|] eqn:Hq; try done;
      cbn [mbind option_bind] in Hstep; destruct (chan_drained q) eqn:Hd; try done;
      injection Hstep as <-; by eapply hc_closed.
  - destruct p; try done. injection Hstep as <-. by eapply hc_timer.
  - destruct p; try done; destruct (hard_cancelled s) eqn:Hh; try done;
      injection Hstep as <-; by eapply hc_pub_ctx.
  - destruct p as [| |[] open| |]; try done. injection Hstep as <-. by eapply hc_skip.
  - destruct p as [| |[] open| |]; try done. injection Hstep as <-. by eapply hc_publish.
  - destruct p as [| |[] open| |]; try done. destruct (hard_cancelled s) eqn:Hh.
    + injection Hstep as <-. by eapply hc_publish_ctx.
    + destruct (errors_Is err ECanceled) eqn:He; cbn [andb] in Hstep.
      * destruct (bool_decide _) eqn:Hs in Hstep; [|done]. apply bool_decide_eq_true in Hs.
        injection Hstep as <-. eapply hc_publish_err; [done..|by right].
      * injection Hstep as <-. eapply hc_publish_err; [done..|by left].
  - destruct p; try done. injection Hstep as <-. by eapply hc_pub_exit.
Qed.

Lemma main_case l s s' : main_step c dt l s = Some s' → hcase s l s'.
Proof.
  unfold main_step. intros Hstep. destruct l; try done.
  - destruct (h_main s) eqn:Hm; try done. injection Hstep as <-. by constructor.
  - destruct (h_main s) eqn:Hm; try done; destruct (finished s) eqn:Hf; try done;
      injection Hstep as <-; constructor; auto.
  - destruct (h_main s) eqn:Hm; try done; injection Hstep as <-; by constructor.
  - destruct (h_main s) eqn:Hm; try done; injection Hstep as <-; by constructor.
  - destruct (h_main s) as [| | | |[e|] []| | |] eqn:Hm; try done.
    + injection Hstep as <-. by eapply hc_flush_err.
    + injection Hstep as <-. by eapply hc_flush_err.
    + injection Hstep as <-. by eapply hc_flush_err.
    + destruct r as [e|].
      * rewrite bool_decide_eq_false_2 in Hstep by done. injection Hstep as <-. by eapply hc_flush_err.
      * rewrite bool_decide_eq_true_2 in Hstep by done. fold (all_done (h_subs s)) in Hstep.
        destruct (bool_decide (h_sinkerr s = None)) eqn:Hse; [|done]. apply bool_decide_eq_true in Hse.
        destruct (all_done (h_subs s)) eqn:Ha; try done. injection Hstep as <-. by constructor.
  - destruct (h_main s) eqn:Hm; try done. destruct (h_commit s) eqn:Hc; try done.
    injection Hstep as <-. by constructor.
  - destruct (h_main s) eqn:Hm; try done. destruct (Checkpoint (h_tracker s)) as [p []] eqn:Hc; try done.
    injection Hstep as <-. by constructor.
  - destruct (h_main s) as [| | | | | |r|] eqn:Hm; try done.
    destruct (Checkpoint (h_tracker s)) as [p []] eqn:Hc; try done.
    injection Hstep as <-. destruct r; by econstructor.
  - destruct (h_main s) eqn:Hm; try done. destruct (Checkpoint (h_tracker s)) as [p []] eqn:Hc; try done.
    injection Hstep as <-. by econstructor.
Qed.

Lemma committer_case l s s' : committer_step l s = Some s' → hcase s l s'.
Proof.
  unfold committer_step. intros Hstep. destruct l; try done; destruct (h_commit s) eqn:Hc; try done.
  - injection Hstep as <-. by constructor.
  - destruct (TakeDirty (h_tracker s)) as [[p ok] t] eqn:Ht. injection Hstep as <-. by econstructor.
  - injection Hstep as <-. by constructor.
  - injection Hstep as <-. by constructor.
  - destruct (h_main s) eqn:Hm; try done. injection Hstep as <-. by econstructor.
Qed.

Lemma sink_case k x l s s' :
  h_subs s !! k = Some x → sink_step k x l s = Some s' →
  l = HAck k ∨ l = HDone k ∨ (∃ e, l = HReject k e) → hcase s l s'.
Proof.
  intros Hx Hstep Hl. unfold sink_step in Hstep.
  destruct Hl as [->|[->|[e ->]]]; destruct (sub_state x) eqn:Hs; try done; injection Hstep as <-;
    by econstructor.
Qed.

Lemma hstep_case l s s' : hstep c key dt l s = Some s' → hcase s l s'.
Proof.
  intros Hstep. destruct l; cbn [hstep] in Hstep;
    try (by apply main_case); try (by apply committer_case);
    try (destruct (h_pubs s !! i) as [p|] eqn:Hp; [|done]; cbn [mbind option_bind] in Hstep;
         eapply publisher_case; [exact Hp|exact Hstep|naive_solver]);
    try (destruct (h_subs s !! k) as [x|] eqn:Hx; [|done]; cbn [mbind option_bind] in Hstep;
         eapply sink_case; [exact Hx|exact Hstep|naive_solver]);
    unfold source_step, dispatcher_step in Hstep.
  - destruct (h_src s) eqn:Hsrc; try done. destruct (decide _) as [Hseq|]; [|done].
    destruct (dstep key (LSend b) (h_disp s)) as [d|] eqn:Hd; [|done].
    injection Hstep as <-. by constructor.
  - destruct (h_src s) eqn:Hsrc; try done. injection Hstep as <-. by constructor.
  - destruct (h_src s) eqn:Hsrc; try done. injection Hstep as <-. by constructor.
  - destruct (h_src s) eqn:Hsrc; try done.
    destruct (dstep key LCloseIn (h_disp s)) as [d|] eqn:Hd; [|done].
    injection Hstep as <-. by constructor.
  - destruct (h_dgo s) eqn:Hgo; try done. destruct (run_label l) eqn:Hl; [|done].
    destruct (dstep key l (h_disp s)) as [d|] eqn:Hd; [|done].
    injection Hstep as <-. by constructor.
  - destruct (h_dgo s) eqn:Hgo; try done. destruct (d_pc (h_disp s)) eqn:Hpc; try done.
    injection Hstep as <-. by constructor.
  - injection Hstep as <-. constructor.
  - injection Hstep as <-. constructor.
  - injection Hstep as <-. constructor.
Qed.
End cases.

(** ** The dispatcher under the pipeline *)
Section disp.
Context (key : NomiosEvent → string).
Implicit Types (d : dstate).

Lemma dstep_received l d d' :
  dstep key l d = Some d' → (∀ i, l ≠ LConsume i) → d_received d' = d_received d.
Proof. intros Hstep%dstep_case Hl. destruct Hstep; try done. by destruct (Hl i). Qed.

Lemma dstep_sent l d d' :
  dstep key l d = Some d' →
  d_sent d' = d_sent d ++ match l with LSend b => b | _ => [] end.
Proof. intros Hstep%dstep_case. by destruct Hstep; rewrite ?app_nil_r. Qed.

Lemma dstep_ctx l d d' : dstep key l d = Some d' → d_ctx d' = None → d_ctx d = None.
Proof. intros Hstep%dstep_case. by destruct Hstep. Qed.

Definition drained_at d (i : nat) : Prop :=
  ∃ q, queues (d_disp d) !! i = Some q ∧ chan_drained q = true.

Lemma drained_step l d d' i :
  dstep key l d = Some d' → drained_at d i → drained_at d' i.
Proof.
  intros Hstep%dstep_case (q&Hq&Hd). unfold drained_at.
  pose proof (proj1 (chan_drained_spec q) Hd) as [Hcl Hb].
  destruct Hstep; simpl in *; try by exists q.
  - destruct (decide (i0 = i)) as [->|]; [|exists q; by rewrite list_lookup_insert_ne].
    simplify_eq. unfold chan_recv in *. by rewrite Hb in *.
  - exists (chan_close q). rewrite list_lookup_fmap, Hq. split; [done|].
    apply chan_drained_spec. by split.
  - exists (chan_close q). rewrite list_lookup_fmap, Hq. split; [done|].
    apply chan_drained_spec. by split.
  - destruct (decide (i0 = i)) as [->|]; [|exists q; by rewrite list_lookup_insert_ne].
    simplify_eq. apply chan_send_Some in H2 as (?&_). congruence.
  - exists (chan_close q). rewrite list_lookup_fmap, Hq. split; [done|].
    apply chan_drained_spec. by split.
Qed.

Lemma consume_received i d d' r q b q' :
  dstep key (LConsume i) d = Some d' → d_received d !! i = Some r →
  queues (d_disp d) !! i = Some q → chan_recv q = Some (b, q') →
  d_received d' = <[i := r ++ b]> (d_received d).
Proof. intros Hstep%dstep_case. inversion Hstep; simpl; intros; by simplify_eq. Qed.

Lemma dstep_received_length l d d' :
  dstep key l d = Some d' → length (d_received d') = length (d_received d).
Proof. intros Hstep%dstep_case. by destruct Hstep; simpl; rewrite ?length_insert. Qed.
End disp.

(** ** Invariants *)
Section inv.
Context (c : Config) (key : NomiosEvent → string) (dt : Z → string).
Context (pos : Position) (pub ms fl : Z).
Implicit Types (s : hstate).

Let D := New (Queues c) (QueueCapacity c) (flush_size c).
Let n := length (queues D).
Let init := hinit c pos pub ms fl.
Let reach := reachable (hstep c key dt) init.

(** The dispatcher's state is one of its own transition system. *)
Lemma hstep_disp l s s' :
  hcase c key s l s' →
  h_disp s' = h_disp s ∨ h_disp s' = cancelled (h_disp s) ∨
  ∃ dl, dstep key dl (h_disp s) = Some (h_disp s') ∧
    (match l with HSend b => dl = LSend b | HSourceClose => dl = LCloseIn | HRecv i => dl = LConsume i
     | HDispatch dl' => dl = dl' ∧ run_label dl = true | _ => False end).
Proof.
  destruct 1; simpl; eauto 10;
    try (match goal with |- context [fail s ?r] => destruct (fail_disp s r) as [-> | ->]; eauto end).
  right; left. apply cancelHard_disp.
Qed.

Lemma reach_disp s : reach s → reachable (dstep key) (dinit D (Z.to_nat (out_batches c))) (h_disp s).
Proof.
  induction 1 as [|l s s' _ IH Hstep]; [constructor|].
  apply hstep_case, hstep_disp in Hstep as [-> |[-> |(dl&Hd&_)]]; [done| |by econstructor].
  destruct (cancelled_step key (h_disp s)) as [-> |Hd]; [done|by econstructor].
Qed.

(** *** The tracker's history is what the sink acknowledged *)

Definition acked_sub (x : sub) : bool :=
  match sub_state x with SubCount | SubTime | SubDone => true | _ => false end.

Definition acked_pos s (p : Position) : Prop :=
  ∃ x, x ∈ h_subs s ∧ acked_sub x = true ∧ p ∈ EvPosition <$> sub_events x.

Lemma hstep_tracker l s s' :
  hcase c key s l s' → h_tracker s = run_ops (h_ops s) → h_tracker s' = run_ops (h_ops s').
Proof.
  destruct 1; intros Ht; simpl; try done;
    try (match goal with |- context [fail s ?r] =>
           destruct (fail_frame s r) as (?&?&?&?&?&->&?&?&?&->&?&?) end; done);
    by rewrite run_ops_snoc, Ht.
Qed.

Lemma reach_tracker s : reach s → h_tracker s = run_ops (h_ops s).
Proof.
  induction 1 as [|l s s' _ IH Hstep]; [done|]. eapply hstep_tracker; [by eapply hstep_case|done].
Qed.

(** A batch changes its state only. *)
Lemma acked_set_sub (xs : list sub) k x st p :
  xs !! k = Some x →
  (∃ y, y ∈ <[k := mkSub (sub_queue x) (sub_events x) (sub_ms x) st]> xs ∧ acked_sub y = true ∧
        p ∈ EvPosition <$> sub_events y) ↔
  (acked_sub (mkSub (sub_queue x) (sub_events x) (sub_ms x) st) = true ∧
     p ∈ EvPosition <$> sub_events x) ∨
  (∃ j y, j ≠ k ∧ xs !! j = Some y ∧ acked_sub y = true ∧ p ∈ EvPosition <$> sub_events y).
Proof.
  intros Hk. split.
  - intros (y&[j Hj]%list_elem_of_lookup&Ha&Hp).
    apply list_lookup_insert_Some in Hj as [(<-&<-&_)|[Hne Hj]]; [by left|].
    right. exists j, y. by split_and!.
  - intros [[Ha Hp]|(j&y&Hne&Hj&Ha&Hp)].
    + eexists. split; [|by split]. apply (list_elem_of_lookup_2 _ k), list_lookup_insert_eq.
      by eapply lookup_lt_Some.
    + exists y. split; [|done]. apply (list_elem_of_lookup_2 _ j). by rewrite list_lookup_insert_ne.
Qed.

Lemma acked_split (xs : list sub) k x p :
  xs !! k = Some x →
  (∃ y, y ∈ xs ∧ acked_sub y = true ∧ p ∈ EvPosition <$> sub_events y) ↔
  (acked_sub x = true ∧ p ∈ EvPosition <$> sub_events x) ∨
  (∃ j y, j ≠ k ∧ xs !! j = Some y ∧ acked_sub y = true ∧ p ∈ EvPosition <$> sub_events y).
Proof.
  intros Hk. split.
  - intros (y&[j Hj]%list_elem_of_lookup&Ha&Hp). destruct (decide (j = k)) as [->|].
    + simplify_eq. by left.
    + right. by exists j, y.
  - intros [[Ha Hp]|(j&y&_&Hj&Ha&Hp)]; eexists; (split; [by eapply list_elem_of_lookup_2|by split]).
Qed.

Lemma hstep_acked l s s' p :
  hcase c key s l s' →
  (p ∈ reported (h_ops s) ↔ acked_pos s p) → (p ∈ reported (h_ops s') ↔ acked_pos s' p).
Proof.
  unfold acked_pos.
  destruct 1; simpl; intros IH; try done;
    try (match goal with |- context [fail s ?r] =>
           destruct (fail_frame s r) as (?&?&?&->&?&?&?&?&?&->&?&?) end; done).
  - rewrite IH. setoid_rewrite elem_of_app. split; [naive_solver|].
    intros (x&[Hx| ->%list_elem_of_singleton]&Ha&Hp); [eauto|done].
  - rewrite reported_app, elem_of_app, IH, acked_set_sub, acked_split by done.
    unfold reported. simpl. rewrite app_nil_r. unfold acked_sub at 1. rewrite H0. naive_solver.
  - rewrite IH, acked_set_sub, acked_split by done. unfold acked_sub at 1 3. by rewrite H0.
  - rewrite IH, acked_set_sub, acked_split by done. unfold acked_sub at 1 3. by rewrite H0.
  - rewrite IH, acked_set_sub, acked_split by done. unfold acked_sub at 1 3. by rewrite H0.
  - rewrite reported_app, elem_of_app, IH. unfold reported. simpl. rewrite elem_of_nil. tauto.
  - rewrite reported_app, elem_of_app, IH. unfold reported. simpl. rewrite elem_of_nil. tauto.
Qed.

Lemma reach_acked s p : reach s → p ∈ reported (h_ops s) ↔ acked_pos s p.
Proof.
  induction 1 as [|l s s' _ IH Hstep].
  - simpl. unfold reported, acked_pos. simpl. split; [by intros ?%not_elem_of_nil|].
    by intros (x&?%not_elem_of_nil&_).
  - eapply hstep_acked; [by eapply hstep_case|done].
Qed.

(** *** What a publisher received and what it submitted *)

Definition submitted s (i : nat) : batch :=
  mjoin (sub_events <$> filter (λ x, sub_queue x = i) (h_subs s)).

Lemma submitted_insert (xs : list sub) k x st i :
  xs !! k = Some x →
  sub_events <$> filter (λ x, sub_queue x = i)
    (<[k := mkSub (sub_queue x) (sub_events x) (sub_ms x) st]> xs) =
  sub_events <$> filter (λ x, sub_queue x = i) xs.
Proof.
  revert k. induction xs as [|y xs IH]; intros [|k] Hk; simplify_eq/=.
  - rewrite !filter_cons. simpl. by case_decide.
  - rewrite !filter_cons. case_decide; simpl; by rewrite IH.
Qed.

(** What a publisher handed over, of what it received: without a cancellation and
    without an error of the sink it leaves nothing behind. *)
Definition flow_ok (se : option goerr) (d : dstate) (sb : batch) (i : nat) (p : pub_pc) (r : batch) : Prop :=
  match p with
  | PubFirst => sb = r
  | PubTop b => sb ++ b = r
  | PubSubmit b open => sb ++ b = r ∧ (open = false → d_ctx d = None → drained_at d i)
  | PubReturned (Some e) => sb `prefix_of` r ∧ (se = None → errors_Is e ECanceled = false)
  | PubReturned None | PubGone =>
      sb `prefix_of` r ∧ (d_ctx d = None → se = None → sb = r ∧ drained_at d i)
  end.

(** The flow of one publisher is stable under the others' steps. *)
Lemma flow_ok_mono se se' d d' sb i p r :
  (se' = None → se = None) → (d_ctx d' = None → d_ctx d = None) → (drained_at d i → drained_at d' i) →
  flow_ok se d sb i p r → flow_ok se' d' sb i p r.
Proof. intros Hs Hc Hd. destruct p as [| | |[]|]; simpl; naive_solver. Qed.

Lemma cancelled_ctx d : d_ctx (cancelled d) ≠ None.
Proof. unfold cancelled. simpl. by destruct (d_ctx d). Qed.

Lemma hstep_ctx l s s' :
  hcase c key s l s' → d_ctx (h_disp s') = None → d_ctx (h_disp s) = None.
Proof.
  intros [-> |[-> |(dl&Hd&_)]]%hstep_disp; [done| |].
  - intros Hn. by apply cancelled_ctx in Hn.
  - by eapply dstep_ctx.
Qed.

(** A recorded error stays. *)
Lemma first_error_None o e : first_error o e = None → o = None.
Proof. by destruct o. Qed.

Lemma hstep_sinkerr l s s' : hcase c key s l s' → h_sinkerr s' = None → h_sinkerr s = None.
Proof.
  intros Hcase. destruct Hcase; simpl; try done; try apply first_error_None;
    match goal with |- context [fail s ?r] => by destruct (fail_frame s r) as (_&_&_&_&->&_) end.
Qed.

Lemma hstep_drained l s s' i :
  hcase c key s l s' → drained_at (h_disp s) i → drained_at (h_disp s') i.
Proof. intros [-> |[-> |(dl&Hd&_)]]%hstep_disp; [done|done|]. by eapply drained_step. Qed.

Lemma hstep_received l s s' :
  hcase c key s l s' → (∀ i, l ≠ HRecv i) → d_received (h_disp s') = d_received (h_disp s).
Proof.
  intros Hcase Hl. pose proof (hstep_disp _ _ _ Hcase) as [-> |[-> |(dl&Hd&Hdl)]]; [done|done|].
  eapply dstep_received; [done|]. intros i ->.
  destruct l; try done; [by destruct Hdl as [<- ?]|by eapply Hl].
Qed.

Definition flow s : Prop :=
  ∀ i p r, h_pubs s !! i = Some p → d_received (h_disp s) !! i = Some r →
    flow_ok (h_sinkerr s) (h_disp s) (submitted s i) i p r.

(** One publisher moves from [p] to [p']; the others keep their flow. *)
Lemma flow_set_pub s s' l i p p' :
  hcase c key s l s' → (∀ j, l ≠ HRecv j) →
  h_pubs s !! i = Some p → h_pubs s' = <[i := p']> (h_pubs s) →
  (∀ j, j ≠ i → submitted s' j = submitted s j) →
  flow s →
  (∀ r, d_received (h_disp s) !! i = Some r → flow_ok (h_sinkerr s) (h_disp s) (submitted s i) i p r →
        flow_ok (h_sinkerr s') (h_disp s') (submitted s' i) i p' r) →
  flow s'.
Proof.
  intros Hcase Hl Hp Hp' Hsub Hflow Hi j q r Hj Hr.
  rewrite (hstep_received _ _ _ Hcase Hl) in Hr. rewrite Hp' in Hj.
  apply list_lookup_insert_Some in Hj as [(<-&<-&_)|[Hne Hj]].
  - apply Hi; [done|]. by apply Hflow.
  - rewrite Hsub by done.
    eapply flow_ok_mono; [by eapply hstep_sinkerr|by eapply hstep_ctx|by eapply hstep_drained|by apply Hflow].
Qed.

Lemma flow_same s s' l :
  hcase c key s l s' → (∀ j, l ≠ HRecv j) → h_pubs s' = h_pubs s →
  (∀ j, submitted s' j = submitted s j) → flow s → flow s'.
Proof.
  intros Hcase Hl Hp Hsub Hflow j q r Hj Hr.
  rewrite (hstep_received _ _ _ Hcase Hl) in Hr. rewrite Hp in Hj. rewrite Hsub.
  eapply flow_ok_mono; [by eapply hstep_sinkerr|by eapply hstep_ctx|by eapply hstep_drained|by apply Hflow].
Qed.

Lemma collecting_flow se d sb i p b r :
  collecting p = Some b → flow_ok se d sb i p r → sb ++ b = r.
Proof. destruct p; simpl; intros; simplify_eq; [by rewrite app_nil_r|done]. Qed.

Lemma flow_prefix se d sb i p r : flow_ok se d sb i p r → sb `prefix_of` r.
Proof.
  destruct p as [| | |[]|]; simpl; try (by intros ->); try (by intros [? _]).
  - intros <-. by apply prefix_app_r.
  - intros [<- _]. by apply prefix_app_r.
Qed.

Lemma hard_cancelled_ctx s : hard_cancelled s = true → d_ctx (h_disp s) ≠ None.
Proof. unfold hard_cancelled. by rewrite negb_true_iff, bool_decide_eq_false. Qed.

Lemma submitted_publish s i e b m j :
  mjoin (sub_events <$> filter (λ x, sub_queue x = j) (h_subs s ++ [mkSub i (e :: b) m SubPending])) =
  submitted s j ++ (if decide (i = j) then e :: b else []).
Proof.
  unfold submitted. rewrite filter_app, fmap_app, join_app. f_equal.
  rewrite filter_cons. simpl. case_decide; simpl; [by rewrite app_nil_r|done].
Qed.

(** A recorded failure has cancelled the pipeline. *)
Definition err_ctx s : Prop := h_err s ≠ None → d_ctx (h_disp s) ≠ None.

Lemma fail_err_ctx s r : err_ctx s → err_ctx (fail s r).
Proof.
  unfold err_ctx. destruct (fail_cases s r) as [->|(e&_&_&_&->)]; [done|]. intros _ _.
  rewrite cancelHard_disp. apply cancelled_ctx.
Qed.

Lemma fail_cancels s e :
  err_ctx s → errors_Is e ECanceled = false → d_ctx (h_disp (fail s (Some e))) ≠ None.
Proof.
  intros Herr He. unfold fail. rewrite He. destruct (h_err s) eqn:Hs; [apply Herr; by rewrite Hs|].
  rewrite cancelHard_disp. apply cancelled_ctx.
Qed.

Lemma hstep_err_ctx l s s' : hcase c key s l s' → err_ctx s → err_ctx s'.
Proof.
  intros Hcase Herr. pose proof (hstep_ctx _ _ _ Hcase) as Hctx.
  destruct Hcase; try (intros He Hn; by apply Herr; [exact He|apply Hctx]).
  - by apply (fail_err_ctx s r).
  - by apply (fail_err_ctx s (EWrap "dispatcher" <$> r)).
  - by apply (fail_err_ctx s (EWrap pre <$> r)).
  - by apply (fail_err_ctx s r).
Qed.

(** A receive moves a micro-batch from the queue to what publisher [i] collects. *)
Lemma flow_recv s i p b0 q b q' d :
  h_pubs s !! i = Some p → collecting p = Some b0 → queues (d_disp (h_disp s)) !! i = Some q →
  chan_recv q = Some (b, q') → dstep key (LConsume i) (h_disp s) = Some d →
  flow s → flow (set_pub (upd_disp s d) i (topped_up c (b0 ++ b))).
Proof.
  intros Hp Hcl Hq Hr Hd Hflow.
  assert (hcase c key s (HRecv i) (set_pub (upd_disp s d) i (topped_up c (b0 ++ b)))) as Hcase
    by by eapply hc_recv.
  pose proof (hstep_ctx _ _ _ Hcase) as Hctx.
  intros j p1 r Hj Hrj. simpl in Hj, Hrj.
  destruct (d_received (h_disp s) !! i) as [ri|] eqn:Hri.
  2: { unfold dstep in Hd. rewrite Hq in Hd. simpl in Hd. by rewrite Hri in Hd. }
  pose proof (consume_received _ _ _ _ _ _ _ _ Hd Hri Hq Hr) as Hrec. rewrite Hrec in Hrj.
  change (submitted _ j) with (submitted s j).
  apply list_lookup_insert_Some in Hj as [(<-&<-&_)|[Hne Hj]].
  - rewrite list_lookup_insert_eq in Hrj by by eapply lookup_lt_Some. injection Hrj as <-.
    pose proof (collecting_flow _ _ _ _ _ _ _ Hcl (Hflow _ _ _ Hp Hri)) as <-.
    unfold topped_up. destruct (decide _); simpl; rewrite (assoc_L (++)); [done|]. by split.
  - rewrite list_lookup_insert_ne in Hrj by done.
    eapply (flow_ok_mono (h_sinkerr s)); [done|exact Hctx| |by apply Hflow]. by eapply (hstep_drained _ s).
Qed.

Lemma hstep_flow l s s' : hcase c key s l s' → err_ctx s → flow s → flow s'.
Proof.
  intros Hcase Herr Hflow. pose proof (hstep_ctx _ _ _ Hcase) as Hctx.
  assert (∀ r, h_pubs (fail s r) = h_pubs s ∧ h_subs (fail s r) = h_subs s) as Hfail.
  { intros r. by destruct (fail_frame s r) as (?&?&?&?&?). }
  pose proof Hcase as Hcase'.
  destruct Hcase' as [| |r| | |r|i p b0 q b q' d Hp Hcl Hq Hr Hd|i p b0 q Hp Hcl Hq Hd|i p b0 Hp Hcl Hh
    |i b Hp|i open Hp|i e b open Hp|i e b open err Hp Hh|i e b open err Hp Hh He|i r pre Hp
    |k x Hx|k x Hx|k x Hx|k x e Hx|e|n0|ms0|r| | | | | | | | | | | | | | |];
    try (by eapply flow_same; [exact Hcase|..]);
    try (by eapply flow_same; [exact Hcase|done|simpl; apply Hfail|
           intros j; unfold submitted; simpl; by rewrite (proj2 (Hfail _))|]);
    try (by eapply flow_same; [exact Hcase|done..|
           intros j; unfold submitted; simpl; by rewrite submitted_insert|]).
  - by eapply flow_recv.
  - eapply (flow_set_pub s); [exact Hcase|done|exact Hp|done|done|done|]. intros r Hr Hf. simpl.
    split; [by eapply collecting_flow|]. intros _ _. by exists q.
  - eapply (flow_set_pub s); [exact Hcase|done|exact Hp|done|done|done|]. intros r Hr Hf. simpl.
    split; [by eapply collecting_flow|]. intros _ Hn. by apply hard_cancelled_ctx in Hh.
  - eapply (flow_set_pub s); [exact Hcase|done|exact Hp|done|done|done|]. intros r Hr Hf. simpl.
    by split.
  - eapply (flow_set_pub s); [exact Hcase|done|exact Hp|done|done|done|].
    intros r Hr [Hf Hd]. rewrite app_nil_r in Hf. subst r.
    change (submitted _ i) with (submitted s i). destruct open; simpl; [done|].
    split; [done|]. intros Hn _. split; [done|]. by apply Hd.
  - eapply (flow_set_pub s); [exact Hcase|done|exact Hp|done| |done|].
    + intros j Hne. unfold submitted at 1. simpl. rewrite submitted_publish, decide_False by done.
      apply app_nil_r.
    + intros r Hr [Hf Hd]. unfold submitted at 1. simpl.
      rewrite submitted_publish, decide_True by done. rewrite Hf.
      destruct open; simpl; [done|]. split; [done|]. intros Hn _. split; [done|]. by apply Hd.
  - eapply (flow_set_pub s); [exact Hcase|done|exact Hp|done|done|done|].
    intros r Hr Hf. split; [by eapply flow_prefix|]. intros Hn. by apply hard_cancelled_ctx in Hh.
  - eapply (flow_set_pub s); [exact Hcase|done|exact Hp|done|done|done|].
    intros r Hr Hf. split; [by eapply flow_prefix|]. simpl. intros Hn. destruct He; congruence.
  - eapply (flow_set_pub s); [exact Hcase|done|exact Hp| | |done|].
    + simpl. by rewrite (proj1 (Hfail _)).
    + intros j _. unfold submitted. simpl. by rewrite (proj2 (Hfail _)).
    + intros r' Hr Hf. assert (submitted (set_pub (fail s (EWrap pre <$> r)) i PubGone) i = submitted s i)
        as -> by (unfold submitted; simpl; by rewrite (proj2 (Hfail _))).
      split; [by eapply flow_prefix|]. intros Hn Hse. destruct r as [e|].
      * destruct Hf as [_ He]. exfalso. simpl in Hn.
        pose proof (hstep_sinkerr _ _ _ Hcase Hse) as Hs.
        by apply (fail_cancels s (EWrap pre e) Herr); [apply He|].
      * destruct Hf as [_ Hf]. simpl in *. by apply Hf.
Qed.

Lemma reach_err_ctx s : reach s → err_ctx s.
Proof.
  induction 1 as [|l s s' _ IH Hstep]; [by intros He; destruct He|]. eapply hstep_err_ctx; [by eapply hstep_case|done].
Qed.

Lemma reach_flow s : reach s → flow s.
Proof.
  induction 1 as [|l s s' Hr IH Hstep].
  - intros i p r. simpl. intros [-> _]%lookup_replicate [-> _]%lookup_replicate. done.
  - eapply hstep_flow; [by eapply hstep_case|by apply reach_err_ctx|done].
Qed.

(** *** The events sent *)

Lemma hstep_sent l s s' :
  hcase c key s l s' →
  d_sent (h_disp s') = d_sent (h_disp s) ++ match l with HSend b => b | _ => [] end.
Proof.
  intros Hcase. pose proof (hstep_disp _ _ _ Hcase) as [Hd|[Hd|(dl&Hd&Hdl)]].
  - rewrite Hd. destruct l; try (by rewrite app_nil_r).
    inversion Hcase; subst. simpl in Hd. subst.
    match goal with H : dstep _ _ _ = Some _ |- _ => by apply dstep_sent in H end.
  - rewrite Hd. destruct l; try (by rewrite app_nil_r).
    inversion Hcase; subst. simpl in Hd. subst.
    match goal with H : dstep _ _ _ = Some _ |- _ => by apply dstep_sent in H end.
  - rewrite (dstep_sent _ _ _ _ Hd). f_equal. destruct l; simplify_eq; try done.
    by destruct Hdl as [-> ?]; destruct l.
Qed.

(** Inside [run] the status only moves to stopping. *)
Lemma hstep_status l s s' :
  hcase c key s l s' → h_status s' = h_status s ∨ h_status s' = StatusStopping.
Proof.
  intros Hcase. assert (∀ s0 r, h_status (fail s0 r) = h_status s0) as Hf.
  { intros s0 r. by destruct (fail_cases s0 r) as [->|(e&_&_&_&->)]. }
  destruct Hcase; simpl; rewrite ?Hf; simpl; auto. naive_solver.
Qed.

Definition numbered_sent s : Prop :=
  ev_seq <$> d_sent (h_disp s) = seqZ 1 (Z.of_nat (length (d_sent (h_disp s)))).

Lemma reach_numbered s : reach s → numbered_sent s.
Proof.
  unfold numbered_sent. induction 1 as [|l s s' _ IH Hstep]; [done|].
  apply hstep_case in Hstep as Hcase. rewrite (hstep_sent _ _ _ Hcase).
  destruct l; rewrite ?app_nil_r; try done.
  inversion Hcase; subst. rewrite fmap_app, length_app, IH, Nat2Z.inj_add, seqZ_app by lia.
  f_equal. rewrite (Z.add_comm 1). done.
Qed.

Lemma sent_seq s e :
  reach s → e ∈ d_sent (h_disp s) →
  (1 ≤ ev_seq e ≤ Z.of_nat (length (d_sent (h_disp s))))%Z.
Proof.
  intros Hr He. apply (list_elem_of_fmap_2 ev_seq) in He. rewrite (reach_numbered s Hr) in He.
  apply elem_of_seqZ in He. lia.
Qed.

Lemma sent_seq_at s i e : reach s → d_sent (h_disp s) !! i = Some e → ev_seq e = (1 + Z.of_nat i)%Z.
Proof.
  intros Hr Hi. assert ((ev_seq <$> d_sent (h_disp s)) !! i = Some (ev_seq e)) as Hl
    by (by rewrite list_lookup_fmap, Hi).
  rewrite (reach_numbered s Hr) in Hl. apply lookup_seqZ in Hl. lia.
Qed.

Lemma sent_unique s e e' :
  reach s → e ∈ d_sent (h_disp s) → e' ∈ d_sent (h_disp s) → ev_seq e = ev_seq e' → e = e'.
Proof.
  intros Hr [i Hi]%list_elem_of_lookup [j Hj]%list_elem_of_lookup Heq.
  assert (NoDup (ev_seq <$> d_sent (h_disp s))) as Hnd.
  { rewrite (reach_numbered s Hr). apply NoDup_seqZ. }
  assert (i = j) as ->; [|congruence].
  eapply NoDup_lookup; [exact Hnd|..]; rewrite list_lookup_fmap.
  - rewrite Hi. simpl. by rewrite Heq.
  - by rewrite Hj.
Qed.

(** *** Submitted events were sent *)

Definition subs_in_range s : Prop := ∀ x, x ∈ h_subs s → (sub_queue x < n)%nat.

Lemma reach_pubs_length s : reach s → length (h_pubs s) = n.
Proof.
  induction 1 as [|l s s' _ IH Hstep]; [apply length_replicate|]. rewrite <-IH.
  apply hstep_case in Hstep. destruct Hstep; simpl; rewrite ?length_insert; try done;
    match goal with |- context [fail s ?r] =>
      by destruct (fail_frame s r) as (?&?&->&_) end.
Qed.

Lemma subs_set (xs : list sub) k x st y :
  xs !! k = Some x → y ∈ <[k := mkSub (sub_queue x) (sub_events x) (sub_ms x) st]> xs →
  ∃ z, z ∈ xs ∧ sub_queue z = sub_queue y ∧ sub_events z = sub_events y.
Proof.
  intros Hk [j Hj]%list_elem_of_lookup.
  apply list_lookup_insert_Some in Hj as [(<-&<-&_)|[_ Hj]].
  - exists x. split; [by eapply list_elem_of_lookup_2|done].
  - exists y. split; [by eapply list_elem_of_lookup_2|done].
Qed.

Lemma reach_subs_range s : reach s → subs_in_range s.
Proof.
  induction 1 as [|l s s' Hr IH Hstep]; [by intros x ?%not_elem_of_nil|].
  apply hstep_case in Hstep as Hcase. pose proof (reach_pubs_length s Hr) as Hlen.
  destruct Hcase; intros y; simpl; try apply IH;
    try (match goal with |- context [fail s ?r] =>
           destruct (fail_frame s r) as (?&?&?&->&_) end; apply IH);
    try (by intros (z&Hz&<-&_)%subs_set; [apply IH|]).
  intros [Hy| ->%list_elem_of_singleton]%elem_of_app; [by apply IH|]. simpl.
  rewrite <-Hlen. by eapply lookup_lt_Some.
Qed.

Lemma reach_received_length s : reach s → length (d_received (h_disp s)) = n.
Proof.
  intros Hr%reach_disp. induction Hr as [|l d d' _ IH Hstep]; [apply length_replicate|].
  by rewrite (dstep_received_length _ _ _ _ Hstep).
Qed.

(** What went to the sink through a queue, against what was sent. *)
Lemma submitted_prefix s i :
  reach s → (i < n)%nat →
  submitted s i `prefix_of` routed_to n i (picked key <$> d_sent (h_disp s)).
Proof.
  intros Hr Hi.
  destruct (lookup_lt_is_Some_2 (h_pubs s) i) as [p Hp]; [by rewrite reach_pubs_length|].
  destruct (lookup_lt_is_Some_2 (d_received (h_disp s)) i) as [r Hrec];
    [by rewrite reach_received_length|].
  etrans; [eapply flow_prefix, (reach_flow s Hr i p r Hp Hrec)|].
  eapply received_order; [by apply reach_disp|done|done].
Qed.

Lemma submitted_elem s x e :
  x ∈ h_subs s → e ∈ sub_events x → e ∈ submitted s (sub_queue x).
Proof.
  intros Hx He. unfold submitted. apply list_elem_of_join. exists (sub_events x). split; [done|].
  apply list_elem_of_fmap_2, list_elem_of_filter. done.
Qed.

Lemma sub_event_sent s x e :
  reach s → x ∈ h_subs s → e ∈ sub_events x →
  ∃ e0, e0 ∈ d_sent (h_disp s) ∧ e = picked key e0.
Proof.
  intros Hr Hx He. pose proof (reach_subs_range s Hr x Hx) as Hq.
  pose proof (submitted_elem s x e Hx He) as Hs.
  eapply elem_of_prefix in Hs; [|by apply submitted_prefix].
  apply list_elem_of_filter in Hs as [_ Hs]. apply list_elem_of_fmap in Hs as (e0&->&?). by exists e0.
Qed.

(** An acknowledged position is the position of a sent event. *)
Lemma acked_pos_sent s p :
  reach s → acked_pos s p →
  ∃ e x, e ∈ d_sent (h_disp s) ∧ EvPosition e = p ∧ x ∈ h_subs s ∧ acked_sub x = true ∧
    picked key e ∈ sub_events x.
Proof.
  intros Hr (x&Hx&Ha&Hp). apply list_elem_of_fmap in Hp as (e&->&He).
  destruct (sub_event_sent s x e Hr Hx He) as (e0&He0&->). by exists e0, x.
Qed.

Lemma reported_in_range s p :
  reach s → (Z.of_nat (length (d_sent (h_disp s))) < 2 ^ 64 - 1)%Z →
  p ∈ reported (h_ops s) → seq_in_range p.
Proof.
  intros Hr Hlen Hp. apply (reach_acked s p Hr) in Hp.
  destruct (acked_pos_sent s p Hr Hp) as (e&_&He&<-&_).
  pose proof (sent_seq s e Hr He). unfold seq_in_range, ev_seq in *. lia.
Qed.

Lemma reach_tracker_inv s :
  reach s → (Z.of_nat (length (d_sent (h_disp s))) < 2 ^ 64 - 1)%Z →
  tracker_inv (reported (h_ops s)) (h_tracker s).
Proof.
  intros Hr Hlen. rewrite (reach_tracker s Hr). apply run_ops_inv, Forall_forall.
  intros p Hp. apply (reported_in_range s p Hr Hlen Hp).
Qed.

(** *** Saved positions *)

Definition covered s (p : Position) : Prop :=
  p ∈ reported (h_ops s) ∧ contiguous (reported (h_ops s)) (SeqNo p).

Definition saves_ok s : Prop :=
  ∀ p, p ∈ h_saves s ∨ h_commit s = CmSaving p → covered s p.

Lemma hstep_ops l s s' : hcase c key s l s' → ∃ ops, h_ops s' = h_ops s ++ ops.
Proof.
  destruct 1; simpl;
    try (match goal with |- context [fail s ?r] =>
           destruct (fail_frame s r) as (?&?&?&?&?&?&?&?&?&->&?&?) end);
    try (exists []; by rewrite app_nil_r); by eexists.
Qed.

Lemma covered_mono l s s' p : hcase c key s l s' → covered s p → covered s' p.
Proof.
  intros (ops&Hops)%hstep_ops [Hp Hc]. unfold covered. rewrite Hops, reported_app. split.
  - apply elem_of_app. by left.
  - eapply contiguous_mono; [|exact Hc]. intros q Hq. apply elem_of_app. by left.
Qed.

Lemma checkpoint_covered s p :
  tracker_inv (reported (h_ops s)) (h_tracker s) → Checkpoint (h_tracker s) = (p, true) →
  covered s p.
Proof.
  intros Hinv [= <- Hhas]. destruct (inv_ckpt _ _ Hinv Hhas) as [Hin Hseq]. split; [done|].
  rewrite Hseq. apply Hinv.
Qed.

Lemma TakeDirty_ckpt t p t' : TakeDirty t = ((p, true), t') → dirty t = true ∧ p = ckpt t.
Proof. unfold TakeDirty. destruct (dirty t); simpl; [by intros [= <- _]|done]. Qed.

Lemma hstep_saves l s s' :
  hcase c key s l s' → tracker_inv (reported (h_ops s)) (h_tracker s) → saves_ok s → saves_ok s'.
Proof.
  intros Hcase Hinv Hs p Hp. apply (covered_mono l s s' p Hcase).
  assert (∀ r, h_saves (fail s r) = h_saves s ∧ h_commit (fail s r) = h_commit s) as Hfail.
  { intros r. by destruct (fail_frame s r) as (?&?&?&?&?&?&?&?&?&?&?&?). }
  destruct Hcase; simpl in Hp; try (by apply Hs); rewrite ?(proj1 (Hfail _)), ?(proj2 (Hfail _)) in Hp;
    try (by apply Hs).
  - destruct Hp as [Hp|Hp]; [by apply Hs; left|done].
  - destruct Hp as [Hp|Hp]; [by apply Hs; left|]. destruct ok; simplify_eq.
    apply TakeDirty_ckpt in H0 as [Hd ->]. apply checkpoint_covered; [done|].
    unfold Checkpoint. by rewrite (inv_dirty _ _ Hinv Hd).
  - destruct Hp as [[Hp| ->%list_elem_of_singleton]%elem_of_app|Hp]; [by apply Hs; left| |done].
    apply Hs. by right.
  - destruct Hp as [[Hp| ->%list_elem_of_singleton]%elem_of_app|Hp]; [by apply Hs; left| |done].
    apply Hs. by right.
  - destruct Hp as [Hp|Hp]; [by apply Hs; left|done].
  - destruct Hp as [[Hp| ->%list_elem_of_singleton]%elem_of_app|Hp];
      [by apply Hs; left|by apply checkpoint_covered|by apply Hs; right].
  - destruct Hp as [[Hp| ->%list_elem_of_singleton]%elem_of_app|Hp];
      [by apply Hs; left|by apply checkpoint_covered|by apply Hs; right].
Qed.

Lemma reach_saves s :
  reach s → (Z.of_nat (length (d_sent (h_disp s))) < 2 ^ 64 - 1)%Z → saves_ok s.
Proof.
  induction 1 as [|l s s' Hr IH Hstep]; intros Hlen.
  { intros p [Hp|Hp]; [by apply not_elem_of_nil in Hp|done]. }
  apply hstep_case in Hstep as Hcase.
  assert (Z.of_nat (length (d_sent (h_disp s))) < 2 ^ 64 - 1)%Z as Hlen'.
  { rewrite (hstep_sent _ _ _ Hcase), length_app in Hlen. lia. }
  eapply hstep_saves; [done|by apply reach_tracker_inv|by apply IH].
Qed.

(** A covered position leaves no unacknowledged event before it. *)
Lemma covered_acked s p e :
  reach s → covered s p → e ∈ d_sent (h_disp s) → (ev_seq e ≤ SeqNo p)%Z →
  ∃ x, x ∈ h_subs s ∧ acked_sub x = true ∧ picked key e ∈ sub_events x.
Proof.
  intros Hr [_ Hc] He Hle. pose proof (sent_seq s e Hr He).
  destruct (seq_reported_inv _ _ (Hc (ev_seq e) ltac:(lia))) as (q&Hq&Hseq).
  apply (reach_acked s q Hr) in Hq.
  destruct (acked_pos_sent s q Hr Hq) as (e'&x&He'&<-&Hx&Ha&Hin).
  assert (e' = e) as -> by (eapply sent_unique; eauto). by exists x.
Qed.

(** The store holds the position the run started from or a saved one. *)
Lemma reach_store s : reach s → h_store s = pos ∨ h_store s ∈ h_saves s.
Proof.
  induction 1 as [|l s s' _ IH Hstep]; [by left|]. apply hstep_case in Hstep.
  destruct Hstep; simpl; try done;
    try (match goal with |- context [fail s ?r] =>
           destruct (fail_frame s r) as (?&?&?&?&?&?&?&?&->&?&->&?) end; done);
    rewrite ?elem_of_app, ?list_elem_of_singleton; try tauto; destruct stored; tauto.
Qed.

(** *** The end of a run *)

(** Joined without being abandoned. *)
Definition joined (m : main_pc) : bool :=
  match m with
  | MainJoined false | MainGotErr _ false | MainFlushed None | MainCommit None | MainReturned None => true
  | _ => false
  end.

Definition flushed (m : main_pc) : bool :=
  match m with MainFlushed None | MainCommit None | MainReturned None => true | _ => false end.

Definition commit_stopped (m : main_pc) : bool :=
  match m with MainCommit _ | MainReturned _ => true | _ => false end.

Record end_inv s : Prop := {
  ei_joined : joined (h_main s) = true → finished s = true;
  ei_flushed : flushed (h_main s) = true → all_done (h_subs s) = true;
  ei_commit : commit_stopped (h_main s) = true → h_commit s = CmStopped;
  ei_saved : h_main s = MainReturned None →
    match Checkpoint (h_tracker s) with
    | (p, true) => h_store s = p ∧ h_persisted s = p ∧ last (h_saves s) = Some p
    | (_, false) => True
    end;
}.

Lemma finished_gone s i p : finished s = true → h_pubs s !! i = Some p → p = PubGone.
Proof.
  unfold finished. destruct (h_src s), (h_dgo s); try done.
  intros Hf Hp. rewrite forallb_forall in Hf. specialize (Hf p).
  destruct p; try done; by (assert (false = true) by (by apply Hf, list_elem_of_In, (list_elem_of_lookup_2 _ i))).
Qed.

Lemma finished_src s : finished s = true → h_src s = SrcGone ∧ h_dgo s = DispGone.
Proof. unfold finished. by destruct (h_src s), (h_dgo s). Qed.

Lemma all_done_lookup xs k x : all_done xs = true → xs !! k = Some x → sub_state x = SubDone.
Proof.
  intros Hf Hx. unfold all_done in Hf. rewrite forallb_forall in Hf. specialize (Hf x).
  destruct (sub_state x); try done;
    by (assert (false = true) by (by apply Hf, list_elem_of_In, (list_elem_of_lookup_2 _ k))).
Qed.

(** Once everything has returned nothing does. *)
Lemma finished_stable l s s' : hcase c key s l s' → finished s = true → finished s' = true.
Proof.
  intros Hcase Hf. pose proof (finished_src s Hf) as [Hs Hg].
  assert (∀ r, finished (fail s r) = finished s) as Hfail.
  { intros r. unfold finished. by destruct (fail_frame s r) as (->&->&->&_). }
  destruct Hcase; try done; try congruence;
    try (match goal with H : h_pubs s !! _ = Some _ |- _ =>
           apply (finished_gone _ _ _ Hf) in H; by subst end).
  - change (finished (fail s r) = true). by rewrite Hfail.
Qed.

Lemma fail_main s r :
  h_main (fail s r) = h_main s ∧ h_subs (fail s r) = h_subs s ∧ h_commit (fail s r) = h_commit s.
Proof. destruct (fail_frame s r) as (?&?&?&?&?&?&?&?&?). by split_and!. Qed.

(** Once everything was flushed the batches stay as they are. *)
Lemma done_stable l s s' :
  hcase c key s l s' → finished s = true → all_done (h_subs s) = true → h_subs s' = h_subs s.
Proof.
  intros Hcase Hf Hd. destruct Hcase; simpl; try done; try apply fail_main;
    try (match goal with H : h_pubs s !! _ = Some _ |- _ => by apply (finished_gone _ _ _ Hf) in H end);
    match goal with H : h_subs s !! _ = Some _ |- _ =>
      apply (all_done_lookup _ _ _ Hd) in H; congruence end.
Qed.

Lemma joined_step l s s' :
  hcase c key s l s' → (joined (h_main s) = true → finished s = true) →
  joined (h_main s') = true → finished s' = true.
Proof.
  intros Hcase Hj. pose proof (finished_stable _ _ _ Hcase) as Hfin. intros Hj'. apply Hfin.
  destruct Hcase; simpl in Hj'; try (by apply Hj); try done;
    try (rewrite (proj1 (fail_main _ _)) in Hj'; by apply Hj); apply Hj;
    match goal with H : h_main s = _ |- _ => rewrite H end; try done; by destruct r.
Qed.

Lemma flushed_step l s s' :
  hcase c key s l s' → (joined (h_main s) = true → finished s = true) →
  (flushed (h_main s) = true → all_done (h_subs s) = true) →
  flushed (h_main s') = true → all_done (h_subs s') = true.
Proof.
  intros Hcase Hj Hfl Hfl'.
  assert (∀ m, flushed m = true → joined m = true) as Himp by by intros [| | |[]|? []|[]|[]|[]].
  assert (flushed (h_main s) = true → all_done (h_subs s') = true) as Hkeep.
  { intros Hf. rewrite (done_stable _ _ _ Hcase (Hj (Himp _ Hf)) (Hfl Hf)). by apply Hfl. }
  destruct Hcase; simpl in Hfl'; try (by apply Hkeep); try done;
    try (rewrite (proj1 (fail_main _ _)) in Hfl'; by apply Hkeep); apply Hkeep;
    match goal with H : h_main s = _ |- _ => rewrite H end; try done; by destruct r.
Qed.

Lemma commit_step l s s' :
  hcase c key s l s' → (commit_stopped (h_main s) = true → h_commit s = CmStopped) →
  commit_stopped (h_main s') = true → h_commit s' = CmStopped.
Proof.
  intros Hcase Hc Hc'. destruct Hcase; simpl in *; try (by apply Hc); try done;
    try (rewrite (proj1 (fail_main _ _)) in Hc'; rewrite ?(proj2 (proj2 (fail_main _ _)));
         first [by apply Hc | (specialize (Hc Hc'); congruence)]);
    try ((specialize (Hc Hc'); congruence));
    apply Hc; match goal with H : h_main s = _ |- _ => by rewrite H end.
Qed.

Lemma saved_step l s s' :
  hcase c key s l s' → finished s = true ∨ h_main s ≠ MainReturned None →
  (h_main s = MainReturned None → all_done (h_subs s) = true ∧ h_commit s = CmStopped) →
  (h_main s = MainReturned None →
    match Checkpoint (h_tracker s) with
    | (p, true) => h_store s = p ∧ h_persisted s = p ∧ last (h_saves s) = Some p
    | (_, false) => True
    end) →
  h_main s' = MainReturned None →
    match Checkpoint (h_tracker s') with
    | (p, true) => h_store s' = p ∧ h_persisted s' = p ∧ last (h_saves s') = Some p
    | (_, false) => True
    end.
Proof.
  intros Hcase Hfin Hdone Hsv Hm. destruct Hcase; simpl in Hm |- *; simplify_eq;
    try (by apply Hsv); try congruence.
  all: try (rewrite (proj1 (fail_main _ _)) in Hm).
  all: try (destruct (Hdone Hm) as [Hd Hc]; congruence).
  all: try (destruct (Hdone Hm) as [Hd Hc];
    match goal with H : h_subs _ !! _ = Some _ |- _ =>
      apply (all_done_lookup _ _ _ Hd) in H; congruence end).
  all: unfold Checkpoint in *.
  1-3: match goal with |- context [fail ?x ?r] =>
         destruct (fail_frame x r) as (?&?&?&?&?&->&?&?&->&?&->&?&->) end; by apply Hsv.
  - simplify_eq. destruct (has (h_tracker s)); [|done]. by rewrite last_snoc.
  - simplify_eq. by destruct (has (h_tracker s)).
Qed.

Lemma hstep_end l s s' : hcase c key s l s' → end_inv s → end_inv s'.
Proof.
  intros Hcase [Hj Hfl Hc Hsv]. split.
  - by eapply joined_step.
  - by eapply flushed_step.
  - by eapply commit_step.
  - intros Hm. eapply saved_step; [exact Hcase| | |exact Hsv|exact Hm].
    + destruct (decide (joined (h_main s) = true)) as [Hjn|Hjn]; [left; by apply Hj|right].
      intros He. by rewrite He in Hjn.
    + intros He. rewrite He in Hfl, Hc. by split; [apply Hfl|apply Hc].
Qed.

Lemma reach_end s : reach s → end_inv s.
Proof.
  induction 1 as [|l s s' _ IH Hstep]; [by split|]. eapply hstep_end; [by eapply hstep_case|done].
Qed.

(** The dispatcher's goroutine is gone when [d.Run] has returned. *)
Lemma reach_dispatcher_gone s : reach s → h_dgo s = DispGone → ∃ r, d_pc (h_disp s) = PDone r.
Proof.
  induction 1 as [|l s s' _ IH Hstep]; [done|]. apply hstep_case in Hstep as Hcase.
  assert (∀ dl d d' r, dstep key dl d = Some d' → run_label dl = false → d_pc d = PDone r →
    d_pc d' = PDone r) as Hkeep.
  { intros dl d d' r Hd Hl Hpc. apply dstep_case in Hd. by destruct Hd; simpl in *. }
  assert (∀ x r0, h_dgo (fail x r0) = h_dgo x ∧ d_pc (h_disp (fail x r0)) = d_pc (h_disp x)) as Hfail.
  { intros x r0. destruct (fail_frame x r0) as (_&->&_). by destruct (fail_disp x r0) as [-> | ->]. }
  destruct Hcase; simpl; try done; intros Hg;
    try (rewrite ?(proj1 (Hfail _ _)) in Hg; rewrite ?(proj2 (Hfail _ _)));
    try (destruct (IH Hg) as [r0 Hr0]; exists r0; first [done|by eapply Hkeep]); try congruence.
  - by exists r.
  - destruct (IH Hg) as [r0 Hr0]. exists r0. change (d_pc (h_disp (cancelHard s)) = PDone r0). by rewrite cancelHard_disp.
Qed.

(** The event is in a batch whose [done] was called. *)
Definition event_acked s (e : NomiosEvent) : Prop :=
  ∃ x, x ∈ h_subs s ∧ acked_sub x = true ∧ picked key e ∈ sub_events x.

(** A finished, flushed and uncancelled run whose sink recorded no error has
    acknowledged everything. *)
Lemma finished_acked s e :
  reach s → finished s = true → all_done (h_subs s) = true → d_ctx (h_disp s) = None →
  h_sinkerr s = None → (Z.of_nat n < 2 ^ 32)%Z → e ∈ d_sent (h_disp s) → event_acked s e.
Proof.
  intros Hr Hf Hd Hctx Hse Hn He. pose proof (reach_disp s Hr) as Hdr.
  destruct (reach_dispatcher_gone s Hr (proj2 (finished_src s Hf))) as [r Hpc].
  assert (d_pc (h_disp s) = PDone None) as Hpc'.
  { destruct (reachable_pc _ _ _ _ _ _ Hdr) as [_ Hdc]. destruct r as [x|]; [|done].
    specialize (Hdc x Hpc). congruence. }
  set (i := queue_of n (picked key e)).
  assert (i < n)%nat as Hi.
  { apply queue_index_lt. pose proof (New_length (Queues c) (QueueCapacity c) (flush_size c)).
    fold D n in H. lia. }
  destruct (lookup_lt_is_Some_2 (h_pubs s) i) as [p Hp]; [by rewrite reach_pubs_length|].
  destruct (lookup_lt_is_Some_2 (d_received (h_disp s)) i) as [rc Hrc];
    [by rewrite reach_received_length|].
  pose proof (reach_flow s Hr i p rc Hp Hrc) as Hfl.
  rewrite (finished_gone s i p Hf Hp) in Hfl. destruct Hfl as [_ Hfl].
  destruct (Hfl Hctx Hse) as [<- (q&Hq&[_ Hb]%chan_drained_spec)].
  destruct (clean_run_received _ _ _ _ _ _ _ _ _ Hdr Hpc' Hq Hrc) as [_ Heq].
  rewrite Hb, app_nil_r in Heq.
  assert (picked key e ∈ submitted s i) as Hin.
  { rewrite Heq. apply list_elem_of_filter. split; [done|]. by apply list_elem_of_fmap_2. }
  apply list_elem_of_join in Hin as (b&Hin&Hb'). apply list_elem_of_fmap in Hb' as (x&->&Hx).
  apply list_elem_of_filter in Hx as [_ Hx]. exists x. split_and!; [done| |done].
  apply list_elem_of_lookup in Hx as [k Hk]. unfold acked_sub.
  by rewrite (all_done_lookup _ _ _ Hd Hk).
Qed.

(** The flush saw all of it; what the sink records later does not change that. *)
Lemma flushed_acked s e :
  reach s → flushed (h_main s) = true → d_ctx (h_disp s) = None → (Z.of_nat n < 2 ^ 32)%Z →
  e ∈ d_sent (h_disp s) → event_acked s e.
Proof.
  intros Hr Hfl Hctx Hn. revert Hfl Hctx e.
  induction Hr as [|l s s' Hr IH Hstep]; intros Hfl Hctx e He; [done|].
  apply hstep_case in Hstep as Hcase.
  destruct (decide (flushed (h_main s) = true)) as [Hf|Hf].
  - destruct (reach_end s Hr) as [Hj Hd _ _].
    assert (finished s = true) as Hfin by (apply Hj; by destruct (h_main s) as [| | |[]|? []|[]|[]|[]]).
    specialize (IH Hf (hstep_ctx _ _ _ Hcase Hctx)). unfold event_acked.
    rewrite (done_stable _ _ _ Hcase Hfin (Hd Hf)). apply IH.
    rewrite (hstep_sent _ _ _ Hcase) in He. apply elem_of_app in He as [He|He]; [done|].
    destruct (finished_src s Hfin) as [Hsrc _]. inversion Hcase; subst; try congruence; by apply elem_of_nil in He.
  - assert (h_main s = MainGotErr None false ∧ h_sinkerr s = None ∧ all_done (h_subs s) = true ∧ s' = upd_main s (MainFlushed None) (h_status s))
      as (Hm&Hse&Hd&->).
    { destruct Hcase; simpl in *; try done; try (rewrite (proj1 (fail_main _ _)) in Hfl; done);
        try (match goal with H : h_main s = _ |- _ => rewrite H in Hf end; by destruct r). }
    destruct (reach_end s Hr) as [Hj _ _ _]. rewrite Hm in Hj.
    apply (finished_acked s); try done. by apply Hj.
Qed.

(** When everything is acknowledged the checkpoint is the last event. *)
Lemma all_acked_checkpoint s e :
  reach s → (Z.of_nat (length (d_sent (h_disp s))) < 2 ^ 64 - 1)%Z →
  (∀ e', e' ∈ d_sent (h_disp s) → event_acked s e') →
  last (d_sent (h_disp s)) = Some e → Checkpoint (h_tracker s) = (EvPosition e, true).
Proof.
  intros Hr Hlen Hall He. set (m := Z.of_nat (length (d_sent (h_disp s)))).
  assert (e ∈ d_sent (h_disp s)) as Hein.
  { apply last_Some in He as [l ->]. apply elem_of_app. right. left. }
  assert (ev_seq e = m) as Hseq.
  { rewrite last_lookup in He. rewrite (sent_seq_at s _ e Hr He). apply lookup_lt_Some in He. lia. }
  assert (∀ k, (1 ≤ k ≤ m)%Z → seq_reported (reported (h_ops s)) k) as Hrep.
  { intros k Hk. assert (k ∈ ev_seq <$> d_sent (h_disp s)) as Hin.
    { rewrite (reach_numbered s Hr). apply elem_of_seqZ. fold m. lia. }
    apply list_elem_of_fmap in Hin as (e'&->&He'). destruct (Hall e' He') as (x&Hx&Ha&Hin).
    apply (seq_reported_elem _ (EvPosition e')). apply (reach_acked s _ Hr). exists x.
    split_and!; [done|done|]. by apply (list_elem_of_fmap_2 EvPosition) in Hin. }
  pose proof (Checkpoint_watermark (h_ops s)) as Hw. rewrite <-(reach_tracker s Hr) in Hw.
  pose proof (sent_seq s e Hr Hein). fold m in H.
  assert (Forall seq_in_range (reported (h_ops s))) as Hran.
  { apply Forall_forall. intros p. by apply reported_in_range. }
  specialize (Hw Hran). destruct (Checkpoint (h_tracker s)) as [p []].
  2: { destruct Hw as [_ Hno]. destruct Hno. apply Hrep. lia. }
  destruct Hw as (Hp&_&Hno). apply (reach_acked s p Hr) in Hp.
  destruct (acked_pos_sent s p Hr Hp) as (e'&_&He'&<-&_). f_equal. f_equal.
  apply (sent_unique s); [done..|]. pose proof (sent_seq s e' Hr He'). fold m in H0.
  destruct (decide (ev_seq e' = m)); [congruence|]. destruct Hno. apply Hrep.
  unfold ev_seq in *. lia.
Qed.

(** *** The size of a batch *)

Hypothesis Hmax : (1 ≤ BatchMaxSize c)%Z.

Definition batch_bound : Z := (BatchMaxSize c + flush_size c - 1)%Z.

Definition pub_bounded (p : pub_pc) : Prop :=
  match p with
  | PubTop b => (Z.of_nat (length b) < BatchMaxSize c)%Z
  | PubSubmit b _ => (Z.of_nat (length b) ≤ batch_bound)%Z
  | _ => True
  end.

Definition sub_bounded (x : sub) : Prop :=
  sub_events x ≠ [] ∧ (Z.of_nat (length (sub_events x)) ≤ batch_bound)%Z.

Lemma flush_size_pos : (1 ≤ flush_size c)%Z.
Proof. unfold flush_size. destruct (decide _); lia. Qed.

Lemma micro_batch_bound s i q b q' :
  reach s → queues (d_disp (h_disp s)) !! i = Some q → chan_recv q = Some (b, q') →
  (Z.of_nat (length b) ≤ flush_size c)%Z.
Proof.
  intros Hr%reach_disp Hq (Hb&_)%chan_recv_Some.
  pose proof (dsizes_reachable _ _ _ _ _ _ Hr) as [_ _ Hqs _ _].
  pose proof (Forall_lookup_1 _ _ _ _ Hqs Hq) as (_&_&_&Hbs). rewrite Hb in Hbs.
  apply Forall_cons in Hbs as [[_ Hlen] _]. unfold D, New in Hlen. simpl in Hlen.
  rewrite decide_False in Hlen by (pose proof flush_size_pos; lia). lia.
Qed.

Lemma collecting_bound p b : collecting p = Some b → pub_bounded p → (Z.of_nat (length b) < BatchMaxSize c)%Z.
Proof. destruct p; simpl; intros; simplify_eq; simpl; lia. Qed.

Lemma reach_bounded s : reach s → Forall pub_bounded (h_pubs s) ∧ Forall sub_bounded (h_subs s).
Proof.
  pose proof flush_size_pos as Hfs.
  induction 1 as [|l s s' Hr [IHp IHs] Hstep].
  { split; [|constructor]. apply Forall_replicate. done. }
  apply hstep_case in Hstep.
  assert (∀ r, h_pubs (fail s r) = h_pubs s ∧ h_subs (fail s r) = h_subs s) as Hfail.
  { intros r. by destruct (fail_frame s r) as (?&?&?&?&?). }
  assert (∀ k x st, h_subs s !! k = Some x →
    Forall sub_bounded (<[k := mkSub (sub_queue x) (sub_events x) (sub_ms x) st]> (h_subs s))) as Hset.
  { intros k x st Hx. apply Forall_insert; [done|]. apply (Forall_lookup_1 _ _ _ _ IHs Hx). }
  destruct Hstep; simpl; rewrite ?(proj1 (Hfail _)), ?(proj2 (Hfail _)); auto;
    (split; [apply Forall_insert; [done|]|]); try done;
    try (match goal with H : collecting _ = Some _, Hp : h_pubs s !! _ = Some _ |- _ =>
           pose proof (collecting_bound _ _ H (Forall_lookup_1 _ _ _ _ IHp Hp)) end).
  - pose proof (micro_batch_bound _ _ _ _ _ Hr H1 H2). unfold topped_up, batch_bound.
    destruct (decide _); simpl; [done|]. unfold batch_bound. rewrite length_app. lia.
  - simpl. unfold batch_bound. lia.
  - simpl. unfold batch_bound. lia.
  - pose proof (Forall_lookup_1 _ _ _ _ IHp H) as Hb. simpl in *. unfold batch_bound. lia.
  - by destruct open.
  - by destruct open.
  - apply Forall_app. split; [done|]. constructor; [|constructor].
    split; [done|]. apply (Forall_lookup_1 _ _ _ _ IHp H).
Qed.
End inv.
