(* ===== verification/EndToEnd.v ===== *)
(** * The guarantees of the node

    Theorems about whole runs of a hyperloop (Hyperloop.v, Pipeline.v), and, with
    the MySQL source of SourceResume.v in front of it, about what a restart
    replays. *)

From S2P Require Import Prelude GoStd State Event Keys Channel Dispatcher Hyperloop Pipeline.
From S2P Require MysqlSource SourceLog SourceResume.

(** ** A run for evaluation: three events through two queues, stopped cleanly *)

Definition sample_hconfig : Config :=
  withDefaults (mkConfig "h" 2 8 2 0 ∅ 0 0).

Definition sample_dur (d : Z) : string := pretty d.

Definition sample_source_labels : list hlabel := [HSend sample_batch; HSourceReturn None; HSourceFail; HSourceClose].

Definition sample_dispatch_labels : list hlabel :=
  (HDispatch <$> (LRecv :: [LStep; LStep; LStep; LFlushSend; LStep] ++
    [LStep; LStep; LStep; LFlushSend; LStep; LRecvClosed] ++ [LStep; LStep; LStep; LStep; LStep])) ++
  [HDispatchExit].

Definition sample_publish_labels : list hlabel :=
  [HRecv 0; HPublishOk 0; HClosed 0; HSkip 0; HPubExit 0;
   HRecv 1; HClosed 1; HPublishOk 1; HPubExit 1].

(** The second batch is acknowledged first; a tick of the committer in between. *)
Definition sample_finish_labels : list hlabel :=
  [HFinished; HAck 1; HTick; HTake; HAck 0; HDone 0; HDone 0; HTick; HTake; HSaveOk; HDone 1; HDone 1;
   HGetErr; HFlushed None; HCommitStop; HJoinCommit; HFinalOk].

Definition sample_hlabels : list hlabel :=
  sample_source_labels ++ sample_dispatch_labels ++ sample_publish_labels ++ sample_finish_labels.

Definition sample_hinit : hstate := hinit sample_hconfig zeroPosition 0 0 0.
Definition sample_hrun (ls : list hlabel) : hstate :=
  default sample_hinit (run_labels (hstep sample_hconfig Key sample_dur) ls sample_hinit).

(** Stopped before the first batch is acknowledged: only events 2 is. *)
Definition sample_partial_labels : list hlabel :=
  sample_source_labels ++ sample_dispatch_labels ++ sample_publish_labels ++
  [HFinished; HAck 1; HTick; HTake].

Example sample_hrun_main : h_main (sample_hrun sample_hlabels) = MainReturned None ∧
  h_saves (sample_hrun sample_hlabels) = [EvPosition (sample_ev "db.t|1" 3); EvPosition (sample_ev "db.t|1" 3)] ∧
  h_published (sample_hrun sample_hlabels) = 3%Z.
Proof. vm_compute. repeat split. Qed.

Lemma sample_hrun_reachable ls :
  is_Some (run_labels (hstep sample_hconfig Key sample_dur) ls sample_hinit) →
  reachable (hstep sample_hconfig Key sample_dur) sample_hinit (sample_hrun ls).
Proof.
  intros [s Hs]. unfold sample_hrun. rewrite Hs. by apply (run_labels_reachable _ ls).
Qed.

(** ** Properties *)
Section properties.
Context (c : Config) (key : NomiosEvent → string) (dt : Z → string).
Context (pos : Position) (pub ms fl : Z).
Implicit Types (s : hstate).

(** No checkpoint runs ahead of the sink: in every interleaving of the
    pipeline, with any failures, timeouts and cancellations, a position ever
    passed to [Store.Save] belongs to an event that was acknowledged, and every
    event the source sent up to it has been acknowledged too. *)
Theorem saved_checkpoint_safe s p :
  reachable (hstep c key dt) (hinit c pos pub ms fl) s →
  (Z.of_nat (length (d_sent (h_disp s))) < 2 ^ 64 - 1)%Z →
  p ∈ h_saves s →
  (∃ e, e ∈ d_sent (h_disp s) ∧ EvPosition e = p) ∧
  ∀ e, e ∈ d_sent (h_disp s) → (ev_seq e ≤ SeqNo p)%Z → event_acked key s e.
Proof.
  intros Hr Hlen Hp.
  pose proof (reach_saves c key dt pos pub ms fl s Hr Hlen p (or_introl Hp)) as Hcov. split.
  - destruct Hcov as [Hrep _]. apply (reach_acked c key dt pos pub ms fl s p Hr) in Hrep.
    destruct (acked_pos_sent c key dt pos pub ms fl s p Hr Hrep) as (e&_&He&Heq&_). by exists e.
  - intros e He Hle. by eapply covered_acked.
Qed.

(** Per-key order reaches the sink: what each publisher has submitted is, in
    order, a prefix of the events of its queue as the source sent them; so the
    events of one key are submitted in source order, by one publisher. *)
Theorem submission_order s (i : nat) :
  let n := length (queues (New (Queues c) (QueueCapacity c) (flush_size c))) in
  reachable (hstep c key dt) (hinit c pos pub ms fl) s → (i < n)%nat →
  submitted s i `prefix_of` routed_to n i (picked key <$> d_sent (h_disp s)) ∧
  ∀ k, queue_index n k = i →
    filter (λ e, Key e = k) (submitted s i) `prefix_of`
    filter (λ e, Key e = k) (picked key <$> d_sent (h_disp s)).
Proof.
  intros n Hr Hi. pose proof (submitted_prefix c key dt pos pub ms fl s i Hr Hi) as Hpre.
  split; [exact Hpre|]. intros k Hk. apply (prefix_filter (λ e, Key e = k)) in Hpre.
  etrans; [exact Hpre|]. unfold routed_to. rewrite list_filter_filter.
  erewrite (list_filter_iff _ (λ e, Key e = k)); [done|].
  intros e. unfold queue_of. split; [tauto|]. intros Hke. by rewrite Hke.
Qed.

(** A clean stop persists everything: when [run] returns nil and nothing was
    cancelled hard, every event the source sent was acknowledged, and the store
    holds the position of the last one. *)
Theorem clean_stop_persists_all s :
  reachable (hstep c key dt) (hinit c pos pub ms fl) s →
  (Z.of_nat (length (d_sent (h_disp s))) < 2 ^ 64 - 1)%Z →
  (Z.of_nat (length (queues (New (Queues c) (QueueCapacity c) (flush_size c)))) < 2 ^ 32)%Z →
  h_main s = MainReturned None → d_ctx (h_disp s) = None →
  (∀ e, e ∈ d_sent (h_disp s) → event_acked key s e) ∧
  ∀ e, last (d_sent (h_disp s)) = Some e →
    h_store s = EvPosition e ∧ h_persisted s = EvPosition e.
Proof.
  intros Hr Hlen Hn Hm Hctx.
  destruct (reach_end c key dt pos pub ms fl s Hr) as [Hj Hfl _ Hsv]. rewrite Hm in Hj, Hfl.
  specialize (Hj eq_refl). specialize (Hfl eq_refl). specialize (Hsv Hm).
  assert (Hall : ∀ e, e ∈ d_sent (h_disp s) → event_acked key s e).
  { intros e He. eapply flushed_acked; [exact Hr| |done..]. by rewrite Hm. }
  split; [done|]. intros e He.
  rewrite (all_acked_checkpoint c key dt pos pub ms fl s e Hr Hlen Hall He) in Hsv.
  by destruct Hsv as (?&?&_).
Qed.

(** Labels of the main goroutine and the committer alone: no other goroutine has
    to make a move. *)
Definition own_label (l : hlabel) : bool :=
  match l with
  | HTimeout | HGetErr | HFlushed _ | HJoinCommit | HFinalOk | HFinalNone
  | HTake | HSaveErr _ _ | HCommitStop => true
  | _ => false
  end.

Lemma own_run_step l ls s s1 (P : hstate → Prop) :
  own_label l = true → hstep c key dt l s = Some s1 →
  (∃ s', run_labels (hstep c key dt) ls s1 = Some s' ∧ Forall (λ l, own_label l = true) ls ∧ P s') →
  ∃ s', run_labels (hstep c key dt) (l :: ls) s = Some s' ∧
    Forall (λ l, own_label l = true) (l :: ls) ∧ P s'.
Proof. intros Hl Hs (s'&Hr&Hls&HP). exists s'. cbn [run_labels]. rewrite Hs. by repeat constructor. Qed.

Definition returned s : Prop := ∃ r, h_main s = MainReturned r.

(** The committer can always be brought to its stop. *)
Lemma commit_ends s r :
  h_main s = MainFlushed r →
  ∃ ls s', (length ls ≤ 3)%nat ∧ run_labels (hstep c key dt) ls s = Some s' ∧
    Forall (λ l, own_label l = true) ls ∧ h_main s' = MainFlushed r ∧ h_commit s' = CmStopped.
Proof.
  intros Hm.
  assert (Hidle : ∀ s0, h_main s0 = MainFlushed r → h_commit s0 = CmIdle → ∃ s',
    run_labels (hstep c key dt) [HCommitStop] s0 = Some s' ∧
    Forall (λ l, own_label l = true) [HCommitStop] ∧ h_main s' = MainFlushed r ∧ h_commit s' = CmStopped).
  { intros s0 Hm0 Hc0. eexists. split; [simpl; by rewrite Hc0, Hm0|]. by repeat constructor. }
  destruct (h_commit s) as [| |p|] eqn:Hc.
  - destruct (Hidle s Hm Hc) as (s'&?&?&?&?). exists [HCommitStop], s'. split_and!; try done. simpl; lia.
  - assert (∃ s1, hstep c key dt HTake s = Some s1 ∧ h_main s1 = MainFlushed r ∧
      (h_commit s1 = CmIdle ∨ ∃ p, h_commit s1 = CmSaving p)) as (s1&Hs1&Hm1&Hc1).
    { simpl. rewrite Hc. destruct (TakeDirty (h_tracker s)) as [[p []] t]; eexists; (split; [done|]);
        (split; [done|]); simpl; eauto. }
    destruct Hc1 as [Hc1|[p Hc1]].
    + exists [HTake; HCommitStop]. destruct (Hidle s1 Hm1 Hc1) as (s'&?&?&?&?). exists s'.
      cbn [run_labels]. rewrite Hs1. split_and!; try done; first [simpl; lia|by repeat constructor].
    + exists [HTake; HSaveErr false ECanceled; HCommitStop].
      destruct (hstep c key dt (HSaveErr false ECanceled) s1) as [s2|] eqn:Hs2; [|simpl in Hs2; by rewrite Hc1 in Hs2].
      assert (h_main s2 = MainFlushed r ∧ h_commit s2 = CmIdle) as [Hm2 Hc2].
      { simpl in Hs2. rewrite Hc1 in Hs2. by injection Hs2 as <-. }
      destruct (Hidle s2 Hm2 Hc2) as (s'&?&?&?&?). exists s'.
      cbn [run_labels]. rewrite Hs1. cbn [mbind option_bind run_labels]. rewrite Hs2.
      split_and!; try done; first [simpl; lia|by repeat constructor].
  - destruct (hstep c key dt (HSaveErr false ECanceled) s) as [s2|] eqn:Hs2; [|simpl in Hs2; by rewrite Hc in Hs2].
    assert (h_main s2 = MainFlushed r ∧ h_commit s2 = CmIdle) as [Hm2 Hc2].
    { simpl in Hs2. rewrite Hc in Hs2. by injection Hs2 as <-. }
    exists [HSaveErr false ECanceled; HCommitStop].
    destruct (Hidle s2 Hm2 Hc2) as (s'&?&?&?&?). exists s'. cbn [run_labels]. rewrite Hs2.
    split_and!; try done; first [simpl; lia|by repeat constructor].
  - exists [], s. split_and!; try done; first [simpl; lia|constructor].
Qed.

Lemma commit_returns s r :
  h_main s = MainCommit r →
  ∃ l s', own_label l = true ∧ hstep c key dt l s = Some s' ∧ returned s'.
Proof.
  intros Hm. destruct (Checkpoint (h_tracker s)) as [p []] eqn:Hck.
  - exists HFinalOk. eexists. split; [done|]. split; [cbn [hstep main_step]; by rewrite Hm, Hck|].
    by eexists.
  - exists HFinalNone. eexists. split; [done|]. split; [cbn [hstep main_step]; by rewrite Hm, Hck|].
    by eexists.
Qed.

(** From a flushed state the main goroutine finishes by itself. *)
Lemma flushed_returns s r :
  h_main s = MainFlushed r →
  ∃ ls s', (length ls ≤ 5)%nat ∧ run_labels (hstep c key dt) ls s = Some s' ∧
    Forall (λ l, own_label l = true) ls ∧ returned s'.
Proof.
  intros Hm. destruct (commit_ends s r Hm) as (ls&s1&Hl&Hrun&Hls&Hm1&Hc1).
  set (s2 := upd_main s1 (MainCommit r) (h_status s1)).
  assert (hstep c key dt HJoinCommit s1 = Some s2) as Hs2 by (simpl; by rewrite Hm1, Hc1).
  destruct (commit_returns s2 r eq_refl) as (l&s3&Hl3&Hs3&Hret).
  exists (ls ++ [HJoinCommit; l]), s3. split_and!.
  - rewrite length_app. simpl. lia.
  - rewrite run_labels_app, Hrun. cbn [mbind option_bind run_labels]. rewrite Hs2.
    cbn [mbind option_bind run_labels]. by rewrite Hs3.
  - apply Forall_app. split; [done|]. by repeat constructor.
  - done.
Qed.

(** [C28] Stopping is bounded: once [run] saw its context end, whatever the source,
    the dispatcher, the publishers, the sink and the store do or fail to do, a
    bounded number of moves of the main goroutine and the committer, timeouts
    included, returns from [run]. *)
Theorem stop_is_bounded s :
  h_main s ≠ MainWait →
  ∃ ls s', (length ls ≤ 9)%nat ∧ run_labels (hstep c key dt) ls s = Some s' ∧
    Forall (λ l, own_label l = true) ls ∧ returned s'.
Proof.
  intros Hw.
  assert (Hstep : ∀ l s0 s1 k, own_label l = true → hstep c key dt l s0 = Some s1 →
    (∃ ls s', (length ls ≤ k)%nat ∧ run_labels (hstep c key dt) ls s1 = Some s' ∧
      Forall (λ l, own_label l = true) ls ∧ returned s') →
    ∃ ls s', (length ls ≤ S k)%nat ∧ run_labels (hstep c key dt) ls s0 = Some s' ∧
      Forall (λ l, own_label l = true) ls ∧ returned s').
  { intros l s0 s1 k Hl Hs (ls&s'&Hk&Hrun&Hls&Hr). exists (l :: ls), s'.
    split; [simpl; lia|]. cbn [run_labels]. rewrite Hs. split_and!; [done|by constructor|done]. }
  assert (Hgot : ∀ s0 r a, h_main s0 = MainGotErr r a → ∃ ls s', (length ls ≤ 6)%nat ∧
    run_labels (hstep c key dt) ls s0 = Some s' ∧ Forall (λ l, own_label l = true) ls ∧ returned s').
  { intros s0 r a Hm. assert (∃ s1 r1, hstep c key dt (HFlushed (Some EDeadline)) s0 = Some s1 ∧
      h_main s1 = MainFlushed r1) as (s1&r1&Hs1&Hm1).
    { simpl. rewrite Hm. destruct r, a; eexists _, _; by split. }
    apply (Hstep (HFlushed (Some EDeadline)) s0 s1); [done..|]. by eapply flushed_returns. }
  assert (Hjoin : ∀ s0 a, h_main s0 = MainJoined a → ∃ ls s', (length ls ≤ 7)%nat ∧
    run_labels (hstep c key dt) ls s0 = Some s' ∧ Forall (λ l, own_label l = true) ls ∧ returned s').
  { intros s0 a Hm. eapply (Hstep HGetErr); [done|simpl; by rewrite Hm|]. by eapply Hgot. }
  assert (Hweak : ∀ s0 k, (k ≤ 9)%nat → (∃ ls s', (length ls ≤ k)%nat ∧
    run_labels (hstep c key dt) ls s0 = Some s' ∧ Forall (λ l, own_label l = true) ls ∧ returned s') →
    ∃ ls s', (length ls ≤ 9)%nat ∧
    run_labels (hstep c key dt) ls s0 = Some s' ∧ Forall (λ l, own_label l = true) ls ∧ returned s').
  { intros s0 k Hk (ls&s'&Hle&Hrest). exists ls, s'. split; [lia|done]. }
  destruct (h_main s) as [| | |a|r a|r|r|r] eqn:Hm; [done|..].
  - eapply (Hstep HTimeout); [done|simpl; by rewrite Hm|].
    eapply (Hstep HTimeout); [done|reflexivity|]. by eapply Hjoin.
  - apply (Hweak s 8); [lia|]. eapply (Hstep HTimeout); [done|simpl; by rewrite Hm|]. by eapply Hjoin.
  - apply (Hweak s 7); [lia|]. by eapply Hjoin.
  - apply (Hweak s 6); [lia|]. by eapply Hgot.
  - apply (Hweak s 5); [lia|]. by eapply flushed_returns.
  - apply (Hweak s 1); [lia|]. destruct (commit_returns s r Hm) as (l&s3&Hl&Hs3&Hret).
    apply (Hstep l s s3); [done..|]. exists [], s3. by split_and!; [simpl; lia|..].
  - exists [], s. split_and!; [simpl; lia|done|constructor|by exists r].
Qed.

(** Batches are bounded: every batch handed to the sink holds at least one
    event and exceeds [BatchMaxSize] by less than one micro-batch. *)
Theorem batches_bounded s :
  (1 ≤ BatchMaxSize c)%Z → reachable (hstep c key dt) (hinit c pos pub ms fl) s →
  Forall (λ x, sub_events x ≠ [] ∧
    (Z.of_nat (length (sub_events x)) ≤ BatchMaxSize c + flush_size c - 1)%Z) (h_subs s).
Proof.
  intros Hmax Hr. destruct (reach_bounded c key dt pos pub ms fl Hmax s Hr) as [_ Hs]. exact Hs.
Qed.
End properties.

(** ** At-least-once delivery across a restart *)
Section restart.
Import MysqlSource SourceLog SourceResume.
Context `{GoFmt} `{GTIDLaws} {W : Type} `{Schema.SchemaServer W}.
Context (zone : Z → Z) (quote : string → string).
Context (c : Hyperloop.Config) (key : NomiosEvent → string) (dt : Z → string).
Context (pos : Position) (pub ms fl : Z).

Lemma row_gtid (ts : txnState) gs r :
  Forall seg_ok gs → r ∈ row_log ts (stream_events gs) → ri_gtid r ∈ tx_gtid <$> stream_txns gs.
Proof.
  intros Hok Hr. apply stream_row in Hr as (p&t&q&k&->&_&(Hg&_)); [|done]. simpl in Hg.
  rewrite Hg. unfold stream_txns. rewrite omap_app, fmap_app. apply elem_of_app. right. simpl. left.
Qed.

(** What a saved position covers: it resolves to the executed set before some
    transaction of the stream, and every captured row of the transactions before
    that one was sent, in its place, and acknowledged. *)
Lemma saved_covers_log (s : Source) (s0 : gtids) (f : string) (o : Z)
    (reg : Schema.schemaRegistry W) (items : list stream_item) (gs : list segment)
    (status : result (string * string * Z)) (h : hstate) (p : Position) :
  UseGTID (src_cfg s) = true → gs_wf s0 → gs_String s0 ≠ "" →
  items_events items = stream_events gs → Forall seg_ok gs →
  NoDup (tx_gtid <$> stream_txns gs) →
  let ts0 := initTxn (mkStart (Some s0) f o) in
  let src := run zone s items (mkRun [] None ts0 reg) in
  reachable (hstep c key dt) (hinit c pos pub ms fl) h →
  (Z.of_nat (length (d_sent (h_disp h))) < 2 ^ 64 - 1)%Z →
  d_sent (h_disp h) `prefix_of` SourceLog.sent src →
  p ∈ h_saves h →
  ∃ pre t post s', gs = pre ++ Tx t :: post ∧
    resolveStart quote (src_cfg s) status p = Ok (mkStart (Some s') "" 0) ∧
    GTIDSet p = gs_String s' ∧ gs_wf s' ∧ gs_String s' ≠ "" ∧
    (∀ g, gs_valid g → gs_In g s' ↔ g ∈ tx_gtid <$> stream_txns pre ∨ gs_In g s0) ∧
    ∀ i r, captured_rows s (row_log ts0 (stream_events pre)) !! i = Some r →
      ∃ e, d_sent (h_disp h) !! i = Some e ∧ ident e = r ∧ event_acked key h e.
Proof.
  intros Hgtid Hwf Hne Hitems Hgs Hnd ts0 src Hr Hlen Hpre Hp.
  pose proof (reach_saves c key dt pos pub ms fl h Hr Hlen p (or_introl Hp)) as Hcov.
  assert (∃ ep, ep ∈ d_sent (h_disp h) ∧ EvPosition ep = p) as (ep&Hep&<-).
  { destruct Hcov as [Hrep _]. apply (reach_acked c key dt pos pub ms fl h p Hr) in Hrep.
    destruct (acked_pos_sent c key dt pos pub ms fl h p Hr Hrep) as (e&_&He&Heq&_). by exists e. }
  destruct (run_log_run zone s ts0 reg items eq_refl) as [Hlog _]. rewrite Hitems in Hlog. fold src in Hlog.
  assert (ep ∈ SourceLog.sent src) as Hep' by (by eapply elem_of_prefix).
  destruct (resume_point zone quote s s0 f o reg items gs status ep)
    as (pre&t&post&s'&->&Hg&Hres&Htext&Hwf'&Hne'&Hin); [done..|].
  exists pre, t, post, s'. split_and!; [done..|]. intros i r Hi.
  assert (Hseqs : ident <$> d_sent (h_disp h) `prefix_of` captured_rows s (row_log ts0 (stream_events (pre ++ Tx t :: post)))).
  { etrans; [|exact Hlog]. destruct Hpre as [rest ->]. rewrite fmap_app. by apply prefix_app_r. }
  unfold stream_events in Hseqs. rewrite bind_app, row_log_app, captured_rows_app in Hseqs.
  set (A := captured_rows s (row_log ts0 (pre ≫= seg_events))) in *.
  apply list_elem_of_lookup in Hep as [j Hj].
  assert (i < j)%nat as Hlt.
  { apply lookup_lt_Some in Hi. destruct (decide (j < length A)%nat) as [Hja|]; [exfalso|unfold A, stream_events in *; lia].
    assert (A !! j = Some (ident ep)) as HA.
    { rewrite <-(lookup_app_l _ (captured_rows s (row_log (foldl coords_step ts0 (pre ≫= seg_events)) ((Tx t :: post) ≫= seg_events))) _ Hja).
      eapply prefix_lookup_Some; [|exact Hseqs]. by rewrite list_lookup_fmap, Hj. }
    apply list_elem_of_lookup_2, list_elem_of_filter in HA as [_ HA].
    apply Forall_app in Hgs as [Hpre' _]. apply (row_gtid _ _ _ Hpre') in HA.
    unfold stream_txns in Hnd, HA. rewrite omap_app, fmap_app in Hnd. apply NoDup_app in Hnd as (_&Hdis&_).
    apply (Hdis _ HA). simpl. rewrite Hg. left. }
  destruct (lookup_lt_is_Some_2 (d_sent (h_disp h)) i) as [e He]; [apply lookup_lt_Some in Hj; lia|].
  exists e. split; [done|]. split.
  { assert ((ident <$> d_sent (h_disp h)) !! i = Some (ident e)) as Hie by (by rewrite list_lookup_fmap, He).
    eapply prefix_lookup_Some in Hie; [|exact Hseqs].
    rewrite lookup_app_l in Hie by (by eapply lookup_lt_Some). unfold A, stream_events in *. congruence. }
  eapply covered_acked; [exact Hr|exact Hcov|by eapply list_elem_of_lookup_2|].
  change (SeqNo (EvPosition ep)) with (ev_seq ep).
  rewrite (sent_seq_at c key dt pos pub ms fl h _ _ Hr He), (sent_seq_at c key dt pos pub ms fl h _ _ Hr Hj). lia.
Qed.

(** At-least-once delivery: let a hyperloop run the MySQL source over a
    stream of transactions and, at any moment, be killed and restarted from a
    position it had saved.  The position resolves to an executed set; every event
    of the first run whose transaction is in that set, and so is not sent again,
    has been acknowledged by the sink. *)
Theorem restart_loses_nothing (s : Source) (s0 : gtids) (f : string) (o : Z)
    (reg : Schema.schemaRegistry W) (items : list stream_item) (gs : list segment)
    (status : result (string * string * Z)) (h : hstate) (p : Position) :
  UseGTID (src_cfg s) = true → gs_wf s0 → gs_String s0 ≠ "" →
  items_events items = stream_events gs → Forall seg_ok gs →
  NoDup (tx_gtid <$> stream_txns gs) →
  Forall (λ t, ¬ gs_In (tx_gtid t) s0) (stream_txns gs) →
  let src := run zone s items (mkRun [] None (initTxn (mkStart (Some s0) f o)) reg) in
  reachable (hstep c key dt) (hinit c pos pub ms fl) h →
  (Z.of_nat (length (d_sent (h_disp h))) < 2 ^ 64 - 1)%Z →
  d_sent (h_disp h) `prefix_of` SourceLog.sent src →
  p ∈ h_saves h →
  ∃ s', resolveStart quote (src_cfg s) status p = Ok (mkStart (Some s') "" 0) ∧
    ∀ e, e ∈ SourceLog.sent src → gs_In (GTID (EvSource e)) s' → event_acked key h e.
Proof.
  intros Hgtid Hwf Hne Hitems Hgs Hnd Hfresh src Hr Hlen Hpre Hp.
  destruct (saved_covers_log s s0 f o reg items gs status h p)
    as (pre&t&post&s'&->&Hres&_&_&_&Hin&Hcov); [done..|].
  exists s'. split; [done|]. intros e [i Hi]%list_elem_of_lookup HIn.
  destruct (run_log_run zone s (initTxn (mkStart (Some s0) f o)) reg items eq_refl) as [Hlog _].
  fold src in Hlog. rewrite Hitems in Hlog.
  assert ((ident <$> SourceLog.sent src) !! i = Some (ident e)) as Hie by (by rewrite list_lookup_fmap, Hi).
  eapply prefix_lookup_Some in Hie; [|exact Hlog].
  unfold stream_events in Hie. rewrite bind_app, row_log_app, captured_rows_app in Hie.
  apply lookup_app_Some in Hie as [Hie|[_ Hie]].
  - destruct (Hcov i _ Hie) as (e'&He'&_&Hack).
    eapply prefix_lookup_Some in He'; [|exact Hpre]. by replace e with e' by congruence.
  - exfalso. apply list_elem_of_lookup_2, list_elem_of_filter in Hie as [_ Hie].
    apply Forall_app in Hgs as [_ Hpost]. apply (row_gtid _ _ _ Hpost) in Hie. cbn [ri_gtid ident] in Hie.
    apply list_elem_of_fmap in Hie as (t'&Hg'&Ht').
    rewrite Hg', Hin in HIn by by eapply (txns_valid (Tx t :: post)).
    unfold stream_txns in *. rewrite omap_app in *. apply Forall_app in Hfresh as [_ Hfresh].
    rewrite fmap_app in Hnd. apply NoDup_app in Hnd as (_&Hdis&_).
    destruct HIn as [HIn|HIn]; [by destruct (Hdis _ HIn); apply list_elem_of_fmap_2|].
    rewrite Forall_forall in Hfresh. by destruct (Hfresh _ Ht').
Qed.
End restart.

(** ** Witnesses *)

Lemma saved_checkpoint_safe_witness :
  let s := sample_hrun sample_hlabels in let p := EvPosition (sample_ev "db.t|1" 3) in
  (∃ e, e ∈ d_sent (h_disp s) ∧ EvPosition e = p) ∧
  ∀ e, e ∈ d_sent (h_disp s) → (ev_seq e ≤ SeqNo p)%Z → event_acked Key s e.
Proof.
  intros s p. apply (saved_checkpoint_safe sample_hconfig Key sample_dur zeroPosition 0 0 0 s p).
  - apply sample_hrun_reachable. vm_compute. by eexists.
  - vm_compute. reflexivity.
  - unfold s, p. decide_closed.
Defined.

(** After the out-of-order acknowledgement of event 2 nothing is saved, and what
    queue 0 submitted is in source order. *)
Lemma submission_order_witness :
  let s := sample_hrun sample_partial_labels in
  h_saves s = [] ∧ submitted s 0 = [sample_ev "db.t|1" 1; sample_ev "db.t|1" 3] ∧
  submitted s 0 `prefix_of` routed_to 2 0 (picked Key <$> d_sent (h_disp s)) ∧
  ∀ k, queue_index 2 k = 0%nat →
    filter (λ e, Key e = k) (submitted s 0) `prefix_of`
    filter (λ e, Key e = k) (picked Key <$> d_sent (h_disp s)).
Proof.
  intros s. split; [vm_compute; reflexivity|]. split; [vm_compute; reflexivity|].
  apply (submission_order sample_hconfig Key sample_dur zeroPosition 0 0 0 s 0).
  - apply sample_hrun_reachable. vm_compute. by eexists.
  - vm_compute. lia.
Defined.

Lemma clean_stop_persists_all_witness :
  let s := sample_hrun sample_hlabels in
  (∀ e, e ∈ d_sent (h_disp s) → event_acked Key s e) ∧
  ∀ e, last (d_sent (h_disp s)) = Some e →
    h_store s = EvPosition e ∧ h_persisted s = EvPosition e.
Proof.
  intros s. apply (clean_stop_persists_all sample_hconfig Key sample_dur zeroPosition 0 0 0 s).
  - apply sample_hrun_reachable. vm_compute. by eexists.
  - vm_compute. reflexivity.
  - vm_compute. reflexivity.
  - vm_compute. reflexivity.
  - vm_compute. reflexivity.
Defined.

(** A stop while the source is stuck and the committer is about to save. *)
Lemma stop_is_bounded_witness :
  let s := sample_hrun [HSend sample_batch; HTick; HStop] in
  h_main s = MainDrain ∧ h_commit s = CmPolled ∧
  ∃ ls s', (length ls ≤ 9)%nat ∧ run_labels (hstep sample_hconfig Key sample_dur) ls s = Some s' ∧
    Forall (λ l, own_label l = true) ls ∧ returned s'.
Proof.
  intros s. split; [vm_compute; reflexivity|]. split; [vm_compute; reflexivity|].
  apply (stop_is_bounded sample_hconfig Key sample_dur s). vm_compute. discriminate.
Defined.

Lemma batches_bounded_witness :
  let s := sample_hrun sample_hlabels in
  Forall (λ x, sub_events x ≠ [] ∧ (Z.of_nat (length (sub_events x)) ≤ 2 + 2 - 1)%Z) (h_subs s).
Proof.
  intros s. apply (batches_bounded sample_hconfig Key sample_dur zeroPosition 0 0 0 s).
  - vm_compute. discriminate.
  - apply sample_hrun_reachable. vm_compute. by eexists.
Defined.

(** One queue; the six events of SourceResume's two transactions, acknowledged. *)
Definition restart_config : Config := withDefaults (mkConfig "h" 1 0 8 0 ∅ 0 0).

Definition restart_labels : list hlabel :=
  (HSend <$> MysqlSource.r_out SourceResume.sample_run) ++
  (HDispatch <$> [LRecv; LStep; LStep; LStep; LRecv; LStep; LStep; LRecv; LStep; LStep; LStep;
    LRecv; LStep; LStep; LStep; LFlushSend; LStep]) ++
  [HRecv 0; HTimer 0; HPublishOk 0; HAck 0; HTick; HTake; HSaveOk].

Definition restart_state : hstate :=
  default sample_hinit (run_labels (hstep restart_config Key sample_dur) restart_labels
    (hinit restart_config zeroPosition 0 0 0)).

Lemma restart_loses_nothing_witness :
  ∃ p, h_saves restart_state = [p] ∧ SeqNo p = 6%Z ∧
  ∃ s', @MysqlSource.resolveStart SourceResume.sampleGTIDs id
      (MysqlSource.src_cfg SourceResume.sample_source) (Err (EText "unused")) p =
      Ok (@MysqlSource.mkStart SourceResume.sampleGTIDs (Some s') "" 0) ∧
    ∀ e, e ∈ SourceLog.sent SourceResume.sample_run →
      @SourceResume.gs_In SourceResume.sampleGTIDs SourceResume.sampleGTIDs_laws (GTID (EvSource e)) s' →
      event_acked Key restart_state e.
Proof.
  eexists. split; [vm_compute; reflexivity|]. split; [reflexivity|].
  apply (@restart_loses_nothing sampleFmt SourceResume.sampleGTIDs SourceResume.sampleGTIDs_laws nat
    Schema.sampleServer (λ _, 0%Z) id restart_config Key sample_dur zeroPosition 0 0 0
    SourceResume.sample_source ["x:1"] "" 0 (Schema.mkRegistry ∅ 0%nat) SourceResume.sample_items
    SourceResume.sample_segments).
  - reflexivity.
  - repeat constructor.
  - discriminate.
  - apply SourceResume.sample_segments_items.
  - apply SourceResume.sample_segments_ok.
  - apply SourceResume.sample_gtids_distinct.
  - apply (bool_decide_unpack _). vm_compute. exact I.
  - apply (run_labels_reachable _ restart_labels). vm_compute. reflexivity.
  - vm_compute. reflexivity.
  - apply (bool_decide_unpack _). vm_compute. exact I.
  - vm_compute. left.
Defined.
