(* ===== verification/JsonText.v ===== *)
(** * JSON text: a reference reader

    The grammar of RFC 8259 on bytes as an executable reader, the specification
    the serializer's output is checked against: [parse_json s] is the document
    the text [s] denotes.  It is not part of the source.  Escapes [\uXXXX] decode
    one code unit at a time to UTF-8. *)

From S2P Require Import Prelude GoStd GoText.

(** ** Documents *)
Inductive json :=
  | JNull
  | JBool (x : bool)
  | JNum (text : string)
  | JStr (s : string)
  | JArr (l : list json)
  | JObj (l : list (string * json)).

(** ** Lexical elements *)
Definition dquote : ascii := "034"%char.
Definition bslash : ascii := "\"%char.
Definition chr (z : Z) : ascii := ascii_of_N (Z.to_N z).

(** A literal of the source with single quotes for the double ones. *)
Definition q : string → string := str_map (λ c, if decide (c = "'"%char) then dquote else c).

Definition is_ws (c : ascii) : bool :=
  bool_decide (c ∈ ([" "%char; chr 9; chr 10; chr 13] : list ascii)).

Fixpoint skip_ws (s : string) : string :=
  match s with
  | "" => ""
  | String c t => if is_ws c then skip_ws t else s
  end.

(** The longest prefix of bytes in [p], and the rest. *)
Fixpoint span (p : ascii → bool) (s : string) : string * string :=
  match s with
  | "" => ("", "")
  | String c t => if p c then let '(x, r) := span p t in (String c x, r) else ("", s)
  end.

(** Numbers: [-? int frac? exp?]. *)
Definition is_json_num_char (c : ascii) : bool :=
  is_digit c || bool_decide (c ∈ (["-"; "+"; "."; "e"; "E"]%char : list ascii)).

Definition nonempty (s : string) : bool := bool_decide (s ≠ "").

(** At least one digit; the rest after the digits. *)
Definition digits1 (s : string) : option string :=
  let '(x, r) := span is_digit s in if nonempty x then Some r else None.

Definition number_int (s : string) : option string :=
  match s with
  | String c t => if decide (c = "0"%char) then Some t else digits1 s
  | "" => None
  end.

Definition number_frac (s : string) : option string :=
  match s with
  | String c t => if decide (c = "."%char) then digits1 t else Some s
  | "" => Some ""
  end.

Definition number_exp (s : string) : option string :=
  match s with
  | String c t =>
      if bool_decide (c = "e"%char ∨ c = "E"%char) then
        match t with
        | String d u => if bool_decide (d = "+"%char ∨ d = "-"%char) then digits1 u else digits1 t
        | "" => None
        end
      else Some s
  | "" => Some ""
  end.

Definition number_ok (s : string) : bool :=
  let s := default s (strip_prefix "-" s) in
  bool_decide ((r1 ← number_int s; r2 ← number_frac r1; number_exp r2) = Some "").

(** Hexadecimal digits of an escape. *)
Definition hex_val (c : ascii) : option Z :=
  let z := byte_val c in
  if (Z.leb 48 z && Z.leb z 57) then Some (z - 48)%Z
  else if (Z.leb 97 z && Z.leb z 102) then Some (z - 87)%Z
  else if (Z.leb 65 z && Z.leb z 70) then Some (z - 55)%Z
  else None.

Definition utf8 (z : Z) : string :=
  if decide (z < 0x80)%Z then str1 (chr z)
  else if decide (z < 0x800)%Z then String (chr (0xC0 + z / 64)) (str1 (chr (0x80 + z mod 64)))
  else String (chr (0xE0 + z / 4096))
         (String (chr (0x80 + (z / 64) mod 64)) (str1 (chr (0x80 + z mod 64)))).

(** The byte a one-letter escape stands for. *)
Definition simple_escape (c : ascii) : option ascii :=
  if decide (c = dquote) then Some dquote
  else if decide (c = bslash) then Some bslash
  else if decide (c = "/"%char) then Some "/"%char
  else if decide (c = "b"%char) then Some (chr 8)
  else if decide (c = "f"%char) then Some (chr 12)
  else if decide (c = "n"%char) then Some (chr 10)
  else if decide (c = "r"%char) then Some (chr 13)
  else if decide (c = "t"%char) then Some (chr 9)
  else None.

(** A byte a string holds unescaped. *)
Definition is_clean (c : ascii) : bool :=
  Z.leb 0x20 (byte_val c) && bool_decide (c ≠ dquote) && bool_decide (c ≠ bslash).

Definition prepend (x : string) (r : option (string * string)) : option (string * string) :=
  '(s, t) ← r; Some (x +:+ s, t).

(** The characters of a string after its opening quote, and what follows the
    closing one. *)
Fixpoint parse_chars (s : string) : option (string * string) :=
  match s with
  | "" => None
  | String c s1 =>
      if decide (c = dquote) then Some ("", s1)
      else if decide (c = bslash) then
        match s1 with
        | "" => None
        | String d s2 =>
            if decide (d = "u"%char) then
              match s2 with
              | String h1 (String h2 (String h3 (String h4 s3))) =>
                  z1 ← hex_val h1; z2 ← hex_val h2; z3 ← hex_val h3; z4 ← hex_val h4;
                  prepend (utf8 (((z1 * 16 + z2) * 16 + z3) * 16 + z4)%Z) (parse_chars s3)
              | _ => None
              end
            else x ← simple_escape d; prepend (str1 x) (parse_chars s2)
        end
      else if is_clean c then prepend (str1 c) (parse_chars s1)
      else None
  end.

(** The next byte that is not white space is [c]; the rest after it. *)
Definition expect (c : ascii) (s : string) : option string :=
  match skip_ws s with
  | String d r => if decide (d = c) then Some r else None
  | "" => None
  end.

(** The literals and numbers. *)
Definition parse_atom (s : string) : option (json * string) :=
  match strip_prefix "null" s with
  | Some r => Some (JNull, r)
  | None =>
    match strip_prefix "true" s with
    | Some r => Some (JBool true, r)
    | None =>
      match strip_prefix "false" s with
      | Some r => Some (JBool false, r)
      | None =>
          let '(x, r) := span is_json_num_char s in
          if number_ok x then Some (JNum x, r) else None
      end
    end
  end.

(** ** Values

    At least every second call consumes a byte, so twice the length of the text
    bounds the depth of the calls ([parse_prefix_spec] below). *)
Fixpoint parse_value (n : nat) (s : string) {struct n} : option (json * string) :=
  match n with
  | O => None
  | S n =>
      match skip_ws s with
      | "" => None
      | String c t =>
          if decide (c = dquote) then '(x, r) ← parse_chars t; Some (JStr x, r)
          else if decide (c = "{"%char) then
            match expect "}" t with
            | Some r => Some (JObj [], r)
            | None => '(l, r) ← parse_members n t; Some (JObj l, r)
            end
          else if decide (c = "["%char) then
            match expect "]" t with
            | Some r => Some (JArr [], r)
            | None => '(l, r) ← parse_elements n t; Some (JArr l, r)
            end
          else parse_atom (String c t)
      end
  end
with parse_members (n : nat) (s : string) {struct n} : option (list (string * json) * string) :=
  match n with
  | O => None
  | S n =>
      '(k, r1) ← expect dquote s ≫= parse_chars;
      '(v, r2) ← expect ":" r1 ≫= parse_value n;
      match expect "," r2 with
      | Some r3 => '(l, r4) ← parse_members n r3; Some ((k, v) :: l, r4)
      | None => r3 ← expect "}" r2; Some ([(k, v)], r3)
      end
  end
with parse_elements (n : nat) (s : string) {struct n} : option (list json * string) :=
  match n with
  | O => None
  | S n =>
      '(v, r1) ← parse_value n s;
      match expect "," r1 with
      | Some r2 => '(l, r3) ← parse_elements n r2; Some (v :: l, r3)
      | None => r2 ← expect "]" r1; Some ([v], r2)
      end
  end.

(** A value at the start of the text, and what follows it. *)
Definition parse_prefix (s : string) : option (json * string) := parse_value (S (2 * String.length s)) s.

(** The document a whole text denotes. *)
Definition parse_json (s : string) : option json :=
  '(j, r) ← parse_prefix s; if decide (skip_ws r = "") then Some j else None.

(** ** The reader on longer texts

    What the reader accepts it accepts in front of any text that starts with a
    delimiter, and the fuel does not matter. *)
Definition delimited (s : string) : bool :=
  match s with
  | "" => true
  | String c _ => negb (is_json_num_char c)
  end.

Abbreviation len := String.length.

Lemma skip_ws_length s : (len (skip_ws s) ≤ len s)%nat.
Proof. induction s as [|c s IH]; simpl; [done|]. destruct (is_ws c); simpl; lia. Qed.

Lemma skip_ws_app s rest :
  skip_ws s ≠ "" → skip_ws (s +:+ rest) = skip_ws s +:+ rest.
Proof.
  induction s as [|c s IH]; [done|]. rewrite str_app_cons. simpl.
  destruct (is_ws c); [exact IH|done].
Qed.

Lemma expect_Some c s r :
  expect c s = Some r → (len r < len s)%nat ∧ ∀ rest, expect c (s +:+ rest) = Some (r +:+ rest).
Proof.
  unfold expect. intros Hs. pose proof (skip_ws_length s) as Hl.
  destruct (skip_ws s) as [|d t] eqn:E; [done|].
  destruct (decide (d = c)) as [->|]; [|done]. injection Hs as ->. simpl in Hl.
  split; [lia|]. intros rest. rewrite skip_ws_app by (by rewrite E). rewrite E, str_app_cons.
  by rewrite decide_True.
Qed.

Lemma expect_None c s rest :
  skip_ws s ≠ "" → expect c s = None → expect c (s +:+ rest) = None.
Proof.
  unfold expect. intros Hne. rewrite skip_ws_app by done.
  destruct (skip_ws s) as [|d t]; [done|]. rewrite str_app_cons. by destruct (decide (d = c)).
Qed.

Lemma expect_nonempty c s r : expect c s = Some r → skip_ws s ≠ "".
Proof. unfold expect. by destruct (skip_ws s). Qed.

Lemma prepend_Some x r s t :
  prepend x r = Some (s, t) ↔ ∃ s', r = Some (s', t) ∧ s = x +:+ s'.
Proof.
  unfold prepend. destruct r as [[s' t']|]; simpl; [|naive_solver].
  split; [intros [= <- <-]; eauto|by intros (? & [= <- <-] & ->)].
Qed.

(** Reading characters is reading a prefix. *)
Lemma parse_chars_prefix n s x r :
  (len s ≤ n)%nat → parse_chars s = Some (x, r) →
  (len r < len s)%nat ∧ ∀ rest, parse_chars (s +:+ rest) = Some (x, r +:+ rest).
Proof.
  revert s x r. induction n as [|n IH]; intros s x r Hn; (destruct s as [|c s]; [done|]);
    simpl in Hn; [lia|].
  assert (∀ s' p, (len s' ≤ len s)%nat → prepend p (parse_chars s') = Some (x, r) →
    (len r < len s')%nat ∧
    ∀ rest, prepend p (parse_chars (s' +:+ rest)) = Some (x, r +:+ rest)) as Hp.
  { intros s' p Hs' (x' & Hx & ->)%prepend_Some.
    apply IH in Hx as [Hr Hx]; [|lia]. split; [done|]. intros rest. by rewrite Hx. }
  clear IH. setoid_rewrite str_app_cons. cbn [parse_chars].
  destruct (decide (c = dquote)); [|destruct (decide (c = bslash))].
  - intros [= <- <-]. split; [simpl; lia|done].
  - destruct s as [|d s]; [done|]. setoid_rewrite str_app_cons.
    destruct (decide (d = "u"%char)).
    + destruct s as [|h1 [|h2 [|h3 [|h4 s]]]]; try done. setoid_rewrite str_app_cons.
      destruct (hex_val h1) as [z1|]; [simpl|done]. destruct (hex_val h2) as [z2|]; [simpl|done].
      destruct (hex_val h3) as [z3|]; [simpl|done]. destruct (hex_val h4) as [z4|]; [simpl|done].
      intros Hx. apply Hp in Hx as [Hr Hx]; [split; [lia|exact Hx]|simpl; lia].
    + destruct (simple_escape d) as [x1|]; [simpl|done].
      intros Hx. apply Hp in Hx as [Hr Hx]; [split; [lia|done]|simpl; lia].
  - destruct (is_clean c); [|done]. intros Hx. apply Hp in Hx as [Hr Hx]; [|done].
    split; [simpl; lia|done].
Qed.

Lemma parse_chars_app s x r rest :
  parse_chars s = Some (x, r) → parse_chars (s +:+ rest) = Some (x, r +:+ rest).
Proof. intros Hx. by apply (parse_chars_prefix (len s)) in Hx as [_ Hx]. Qed.

Lemma parse_chars_length s x r : parse_chars s = Some (x, r) → (len r < len s)%nat.
Proof. intros Hx. by apply (parse_chars_prefix (len s)) in Hx as [Hx _]. Qed.

Lemma strip_prefix_app p s r rest :
  strip_prefix p s = Some r → strip_prefix p (s +:+ rest) = Some (r +:+ rest).
Proof. rewrite !strip_prefix_Some. intros ->. by rewrite str_app_assoc. Qed.

(** A literal does not start where a number does. *)
Lemma strip_prefix_head_ne a p c s : a ≠ c → strip_prefix (String a p) (String c s) = None.
Proof. intros. simpl. by rewrite decide_False. Qed.

Lemma span_app p s x r rest :
  span p s = (x, r) → (match rest with "" => true | String c _ => negb (p c) end) = true →
  span p (s +:+ rest) = (x, r +:+ rest).
Proof.
  revert x r. induction s as [|c s IH]; intros x r; simpl.
  - intros [= <- <-] Hr. rewrite str_app_nil_l. destruct rest as [|d rest]; [done|].
    simpl. by destruct (p d).
  - destruct (p c); [|by intros [= <- <-]].
    destruct (span p s) as [x' r'] eqn:E. intros [= <- <-] Hr. by rewrite (IH x' r').
Qed.

Lemma span_split p s x r : span p s = (x, r) → s = x +:+ r ∧ str_forallb p x = true.
Proof.
  revert x r. induction s as [|c s IH]; intros x r; simpl; [by intros [= <- <-]|].
  destruct (p c) eqn:Hc; [|by intros [= <- <-]].
  destruct (span p s) as [x' r'] eqn:E. intros [= <- <-].
  destruct (IH x' r') as [-> Hx]; [done|]. simpl. by rewrite Hc, Hx.
Qed.

Lemma span_all p x rest :
  str_forallb p x = true → (match rest with "" => true | String c _ => negb (p c) end) = true →
  span p (x +:+ rest) = (x, rest).
Proof.
  induction x as [|c x IH]; simpl.
  - intros _ Hr. rewrite str_app_nil_l. destruct rest as [|d rest]; [done|].
    simpl. by destruct (p d).
  - rewrite andb_true_iff. intros [Hc Hx] Hr. by rewrite Hc, IH.
Qed.

Lemma number_ok_nonempty x : number_ok x = true → x ≠ "".
Proof. by intros H ->. Qed.

(** A number starts with a sign or a digit, unlike the literals. *)
Lemma number_ok_head x :
  number_ok x = true → ∃ c t, x = String c t ∧ is_num_char c = true.
Proof.
  unfold number_ok. rewrite bool_decide_eq_true. destruct x as [|c t]; [done|].
  intros H. exists c, t. split; [done|]. unfold is_num_char.
  destruct (decide (c = "-"%char)) as [->|Hne]; [done|]. rewrite orb_true_iff. left.
  rewrite strip_prefix_head_ne in H by done. simpl in H.
  destruct (decide (c = "0"%char)) as [->|]; [done|].
  unfold digits1 in H. simpl in H. destruct (is_digit c); [done|]. simpl in H. done.
Qed.

Lemma num_char_not_literal c a :
  is_num_char c = true → a ∈ (["n"; "t"; "f"]%char : list ascii) → a ≠ c.
Proof.
  intros Hc Ha ->. rewrite !elem_of_cons, elem_of_nil in Ha.
  destruct Ha as [->|[->|[->|[]]]]; by vm_compute in Hc.
Qed.

Lemma parse_atom_number s x r :
  span is_json_num_char s = (x, r) → number_ok x = true → parse_atom s = Some (JNum x, r).
Proof.
  intros Hs Hx. destruct (span_split _ _ _ _ Hs) as [-> _].
  destruct (number_ok_head x Hx) as (c & t & -> & Hc). unfold parse_atom.
  rewrite Hs, Hx, str_app_cons.
  rewrite !strip_prefix_head_ne; [done|..]; apply num_char_not_literal; set_solver.
Qed.

Lemma parse_atom_prefix s j r :
  parse_atom s = Some (j, r) →
  (len r < len s)%nat ∧
  ∀ rest, delimited rest = true → parse_atom (s +:+ rest) = Some (j, r +:+ rest).
Proof.
  intros Hs. assert ((∃ p, strip_prefix p s = Some r ∧ p ≠ "" ∧
    ∀ rest, parse_atom (s +:+ rest) = Some (j, r +:+ rest)) ∨
    ∃ x, span is_json_num_char s = (x, r) ∧ number_ok x = true ∧ j = JNum x)
    as [(p & Hp%strip_prefix_Some & Hne & Hr)|(x & Hx & Hok & ->)].
  { unfold parse_atom in Hs |- *.
    destruct (strip_prefix "null" s) as [r1|] eqn:E1.
    { left. exists "null". injection Hs as <- <-. split_and!; [done..|].
      intros rest. by rewrite (strip_prefix_app _ _ _ _ E1). }
    destruct (strip_prefix "true" s) as [r2|] eqn:E2.
    { left. exists "true". injection Hs as <- <-. split_and!; [done..|].
      intros rest. apply strip_prefix_Some in E2 as ->. done. }
    destruct (strip_prefix "false" s) as [r3|] eqn:E3.
    { left. exists "false". injection Hs as <- <-. split_and!; [done..|].
      intros rest. apply strip_prefix_Some in E3 as ->. done. }
    destruct (span is_json_num_char s) as [x r'] eqn:E. destruct (number_ok x) eqn:Hok; [|done].
    right. exists x. by injection Hs as <- <-. }
  - subst s. split; [|done]. rewrite str_length_app. destruct p; [done|]. simpl. lia.
  - pose proof (span_split _ _ _ _ Hx) as [-> _]. split.
    + apply number_ok_nonempty in Hok. rewrite str_length_app. destruct x; [done|]. simpl. lia.
    + intros rest Hd. apply parse_atom_number; [|done]. by apply span_app.
Qed.

(** The property of one function of the reader at one fuel: it consumes, and any
    fuel above twice the text's length gives the same before any continuation. *)
Definition stable {A} (k : nat) (f : nat → string → option (A * string)) (n : nat) : Prop :=
  ∀ s a r, f n s = Some (a, r) →
  (len r < len s)%nat ∧
  ∀ m rest, delimited rest = true → (2 * len s + k < m)%nat → f m (s +:+ rest) = Some (a, r +:+ rest).

Lemma parse_value_nonempty n s a : parse_value n s = Some a → skip_ws s ≠ "".
Proof. destruct n; [done|]. simpl. by destruct (skip_ws s). Qed.

Lemma parse_members_nonempty n s a : parse_members n s = Some a → skip_ws s ≠ "".
Proof.
  destruct n; [done|]. simpl. destruct (expect dquote s) eqn:E; [|done].
  intros _. by eapply expect_nonempty.
Qed.

Lemma parse_elements_nonempty n s a : parse_elements n s = Some a → skip_ws s ≠ "".
Proof.
  destruct n; [done|]. simpl. destruct (parse_value n s) eqn:E; [|done].
  intros _. by eapply parse_value_nonempty.
Qed.

Lemma stable_value n : stable 0 parse_members n → stable 1 parse_elements n → stable 0 parse_value (S n).
Proof.
  intros Hm He s a r. simpl. pose proof (skip_ws_length s) as Hs.
  destruct (skip_ws s) as [|c t] eqn:E; [done|]. simpl in Hs. intros Hx.
  assert (∀ rest, skip_ws (s +:+ rest) = String c (t +:+ rest)) as Happ.
  { intros rest. rewrite skip_ws_app by (by rewrite E). by rewrite E. }
  cut ((len r < len (String c t))%nat ∧ ∀ m rest, delimited rest = true → (2 * len s < S m)%nat →
    parse_value (S m) (s +:+ rest) = Some (a, r +:+ rest)).
  { intros [Hl Hp]. split; [simpl in Hl; lia|]. intros [|m] rest Hd Hlen; [lia|]. apply Hp; [done|lia]. }
  simpl. setoid_rewrite Happ.
  destruct (decide (c = dquote)); [|destruct (decide (c = "{"%char)); [|destruct (decide (c = "["%char))]].
  - destruct (parse_chars t) as [[x r']|] eqn:Ec; [|done]. simpl in Hx. injection Hx as <- <-.
    pose proof (parse_chars_length _ _ _ Ec). split; [simpl; lia|]. intros m rest _ _.
    by rewrite (parse_chars_app _ _ _ rest Ec).
  - destruct (expect "}" t) as [r'|] eqn:Ee.
    + injection Hx as <- <-. apply expect_Some in Ee as [Hl Ha]. split; [simpl; lia|].
      intros m rest _ _. by rewrite Ha.
    + destruct (parse_members n t) as [[l r']|] eqn:Em; [|done]. simpl in Hx. injection Hx as <- <-.
      pose proof (parse_members_nonempty _ _ _ Em) as Hne. apply Hm in Em as [Hl Ha].
      split; [simpl; lia|]. intros m rest Hd Hlen.
      rewrite expect_None by done. rewrite Ha by (done || lia). done.
  - destruct (expect "]" t) as [r'|] eqn:Ee.
    + injection Hx as <- <-. apply expect_Some in Ee as [Hl Ha]. split; [simpl; lia|].
      intros m rest _ _. by rewrite Ha.
    + destruct (parse_elements n t) as [[l r']|] eqn:Em; [|done]. simpl in Hx. injection Hx as <- <-.
      pose proof (parse_elements_nonempty _ _ _ Em) as Hne. apply He in Em as [Hl Ha].
      split; [simpl; lia|]. intros m rest Hd Hlen.
      rewrite expect_None by done. rewrite Ha by (done || lia). done.
  - apply parse_atom_prefix in Hx as [Hl Ha]. split; [simpl in *; lia|].
    intros m rest Hd _. rewrite <-(Ha rest Hd). done.
Qed.

Lemma stable_members n : stable 0 parse_value n → stable 0 parse_members n → stable 0 parse_members (S n).
Proof.
  intros Hv Hm s a r. simpl.
  destruct (expect dquote s) as [s1|] eqn:E1; [|done]. simpl.
  destruct (parse_chars s1) as [[k s2]|] eqn:E2; [|done]. simpl.
  destruct (expect ":" s2) as [s3|] eqn:E3; [|done]. simpl.
  destruct (parse_value n s3) as [[v s4]|] eqn:E4; [|done]. simpl. intros Hx.
  apply expect_Some in E1 as [Hl1 Ha1]. pose proof (parse_chars_length _ _ _ E2).
  apply expect_Some in E3 as [Hl3 Ha3]. apply Hv in E4 as [Hl4 Ha4].
  assert ((len r < len s4)%nat ∧ skip_ws s4 ≠ "" ∧
    ∀ m rest, delimited rest = true → (2 * len s4 < m)%nat →
    match expect "," (s4 +:+ rest) with
    | Some r3 => '(l, r4) ← parse_members m r3; Some ((k, v) :: l, r4)
    | None => r3 ← expect "}" (s4 +:+ rest); Some ([(k, v)], r3)
    end = Some (a, r +:+ rest)) as (Hl & _ & Hr).
  { destruct (expect "," s4) as [s5|] eqn:E5.
    - destruct (parse_members n s5) as [[l r']|] eqn:Em; [|done]. injection Hx as <- <-.
      pose proof (expect_nonempty _ _ _ E5) as Hne.
      apply expect_Some in E5 as [Hl5 Ha5]. apply Hm in Em as [Hlm Ham]. split_and!; [lia|done|].
      intros m rest Hd Hlen. rewrite Ha5, Ham by (done || lia). done.
    - destruct (expect "}" s4) as [s5|] eqn:E6; [|done]. injection Hx as <- <-.
      pose proof (expect_nonempty _ _ _ E6) as Hne.
      apply expect_Some in E6 as [Hl6 Ha6]. split_and!; [lia|done|].
      intros m rest _ _. rewrite expect_None, Ha6 by done. done. }
  split; [lia|]. intros [|m] rest Hd Hlen; [lia|]. simpl.
  rewrite Ha1. simpl. rewrite (parse_chars_app _ _ _ rest E2). simpl. rewrite Ha3. simpl.
  rewrite Ha4 by (done || lia). simpl. apply Hr; [done|lia].
Qed.

Lemma stable_elements n : stable 0 parse_value n → stable 1 parse_elements n → stable 1 parse_elements (S n).
Proof.
  intros Hv He s a r. simpl.
  destruct (parse_value n s) as [[v s1]|] eqn:E1; [|done]. simpl. intros Hx.
  apply Hv in E1 as [Hl1 Ha1].
  destruct (expect "," s1) as [s2|] eqn:E2.
  - destruct (parse_elements n s2) as [[l r']|] eqn:Em; [|done]. injection Hx as <- <-.
    apply expect_Some in E2 as [Hl2 Ha2]. apply He in Em as [Hlm Ham]. split; [lia|].
    intros [|m] rest Hd Hlen; [lia|]. simpl. rewrite Ha1 by (done || lia). simpl.
    rewrite Ha2, Ham by (done || lia). done.
  - destruct (expect "]" s1) as [s2|] eqn:E3; [|done]. injection Hx as <- <-.
    pose proof (expect_nonempty _ _ _ E3) as Hne.
    apply expect_Some in E3 as [Hl3 Ha3]. split; [lia|].
    intros [|m] rest Hd Hlen; [lia|]. simpl. rewrite Ha1 by (done || lia). simpl.
    rewrite expect_None, Ha3 by done. done.
Qed.

Lemma parser_stable n : stable 0 parse_value n ∧ stable 0 parse_members n ∧ stable 1 parse_elements n.
Proof.
  induction n as [|n (IHv & IHm & IHe)]; [by split_and!; intros s a r|].
  split_and!; [by apply stable_value|by apply stable_members|by apply stable_elements].
Qed.

(** ** Whole texts *)
Lemma parse_prefix_spec n s j r rest :
  parse_value n s = Some (j, r) → delimited rest = true →
  parse_prefix (s +:+ rest) = Some (j, r +:+ rest) ∧
  ∀ m, (2 * len s < m)%nat → parse_value m (s +:+ rest) = Some (j, r +:+ rest).
Proof.
  intros Hs Hd. apply (proj1 (parser_stable n)) in Hs as [_ Hs].
  split; [|intros m Hm; apply Hs; [done|lia]].
  apply Hs; [done|]. rewrite str_length_app. lia.
Qed.

Lemma parse_json_Some s j :
  parse_json s = Some j ↔ ∃ n r, parse_value n s = Some (j, r) ∧ skip_ws r = "".
Proof.
  unfold parse_json. split.
  - destruct (parse_prefix s) as [[j' r]|] eqn:E; simpl; [|done].
    destruct (decide (skip_ws r = "")); [|done]. intros [= ->]. by eexists _, _.
  - intros (n & r & Hs & Hr). apply (parse_prefix_spec n s j r "") in Hs as [Hs _]; [|done].
    rewrite !str_app_nil_r in Hs. rewrite Hs. simpl. by rewrite decide_True.
Qed.

(** A whole text reads the same in front of a delimiter, and leaves white space. *)
Lemma parse_json_delimited s j c rest :
  parse_json s = Some j → is_ws c = false → is_json_num_char c = false →
  ∃ r, (∀ m, (2 * len s < m)%nat → parse_value m (s +:+ String c rest) = Some (j, r)) ∧
    skip_ws r = String c rest.
Proof.
  intros (n & r & Hs & Hr)%parse_json_Some Hws Hnum.
  exists (r +:+ String c rest). split.
  - intros m Hm. apply (parse_prefix_spec n); [done|simpl; by rewrite Hnum|done].
  - clear Hs. induction r as [|d r IH]; simpl in *; [by rewrite Hws|].
    destruct (is_ws d); [auto|done].
Qed.

(** A quoted text [k] that reads as the string [x]. *)
Definition quoted (k x : string) : Prop := ∃ k', k = String dquote k' ∧ parse_chars k' = Some (x, "").

Lemma quoted_expect k x rest :
  quoted k x → (expect dquote (k +:+ rest) ≫= parse_chars) = Some (x, rest).
Proof.
  intros (k' & -> & Hk). rewrite str_app_cons.
  change (expect dquote (String dquote (k' +:+ rest))) with (Some (k' +:+ rest)). simpl.
  by rewrite (parse_chars_app _ _ _ rest Hk).
Qed.

Lemma quoted_value k x : quoted k x → parse_json k = Some (JStr x).
Proof.
  intros (k' & -> & Hk). apply parse_json_Some. exists 1%nat, "".
  split; [|done]. simpl. by rewrite Hk.
Qed.

(** The members of an object: key text and value text, separated by commas. *)
Fixpoint members_text (l : list (string * string)) : string :=
  match l with
  | [] => ""
  | (k, t) :: l => k +:+ ":" +:+ t +:+ match l with [] => "" | _ => "," +:+ members_text l end
  end.

Definition obj_text (l : list (string * string)) : string := "{" +:+ members_text l +:+ "}".

Definition member_reads (m : string * string) (d : string * json) : Prop :=
  quoted m.1 d.1 ∧ parse_json m.2 = Some d.2.

Lemma parse_members_text l ds :
  Forall2 member_reads l ds → l ≠ [] →
  ∃ n, parse_members n (members_text l +:+ "}") = Some (ds, "").
Proof.
  induction 1 as [|[k t] [x d] l ds [Hk Ht] Hl IH]; [done|]. intros _. simpl in *.
  assert (∃ c rest, (match l with [] => "" | _ => "," +:+ members_text l end) +:+ "}" = String c rest ∧
    (c = ","%char ∨ c = "}"%char)) as (c & rest & Hrest & Hc).
  { destruct l; [by eexists _, _; split; [|right]|]. rewrite str_app_cons. by eexists _, _; split; [|left]. }
  destruct (parse_json_delimited t d c rest) as (r & Hv & Hr); [done|by destruct Hc as [-> | ->]..|].
  assert (∃ n, match expect "," r with
    | Some r3 => '(l', r4) ← parse_members n r3; Some ((x, d) :: l', r4)
    | None => r3 ← expect "}" r; Some ([(x, d)], r3)
    end = Some ((x, d) :: ds, "") ∧ (2 * len t < n)%nat) as (n & Hn & Hlen).
  { unfold expect. rewrite Hr. destruct l as [|[k2 t2] l].
    - injection Hrest as <- <-. exists (S (2 * len t)). apply Forall2_nil_inv_l in Hl as ->.
      split; [done|lia].
    - destruct IH as [n Hn]; [done|].
      assert (c = ","%char ∧ rest = members_text ((k2, t2) :: l) +:+ "}") as [-> ->]
        by (by injection Hrest as <- <-). exists (S (2 * (len t + len (members_text ((k2, t2) :: l) +:+ "}")))).
      split; [|lia]. rewrite decide_True by done.
      destruct (parser_stable n) as (_ & Hm & _). apply Hm in Hn as [_ Hn].
      specialize (Hn (S (2 * (len t + len (members_text ((k2, t2) :: l) +:+ "}")))) "").
      rewrite !str_app_nil_r in Hn. rewrite Hn by (done || lia). done. }
  exists (S n). rewrite <-!str_app_assoc, Hrest. cbn [parse_members].
  rewrite (quoted_expect k x) by done. simpl. rewrite Hv by done. simpl. exact Hn.
Qed.

(** An object text denotes the object of its members' documents. *)
Lemma parse_obj_text l ds : Forall2 member_reads l ds → parse_json (obj_text l) = Some (JObj ds).
Proof.
  intros Hl. apply parse_json_Some. destruct l as [|m l].
  { apply Forall2_nil_inv_l in Hl as ->. by exists 1%nat, "". }
  destruct (parse_members_text _ _ Hl) as [n Hn]; [done|].
  assert (expect "}" (members_text (m :: l) +:+ "}") = None) as He.
  { apply Forall2_cons_inv_l in Hl as (d & ds' & [(k' & Hk & _) _] & _ & ->).
    destruct m as [k t]. simpl in Hk. subst k. simpl. by rewrite !str_app_cons. }
  exists (S n), "". split; [|done].
  change (obj_text (m :: l)) with (String "{" (members_text (m :: l) +:+ "}")).
  revert Hn He. generalize (members_text (m :: l) +:+ "}"). intros t Hn He.
  simpl. by rewrite He, Hn.
Qed.
