(* ===== verification/Base64.v ===== *)
(** * encoding/base64 of the Go standard library

    [base64.StdEncoding]: [EncodedLen] and [Encode], with a reference decoder the
    encoding round-trips through.  The serializer writes BLOB columns this way. *)

From S2P Require Import Prelude GoStd GoText.

(** ** The alphabet *)
Definition b64_alphabet : string :=
  "ABCDEFGHIJKLMNOPQRSTUVWXYZabcdefghijklmnopqrstuvwxyz0123456789+/".

Definition b64_char (z : Z) : ascii := default "="%char (String.get (Z.to_nat z) b64_alphabet).

Fixpoint str_index (c : ascii) (s : string) : option Z :=
  match s with
  | "" => None
  | String d s => if decide (c = d) then Some 0%Z else Z.succ <$> str_index c s
  end.

Definition b64_val (c : ascii) : option Z := str_index c b64_alphabet.

(** A byte from its value. *)
Definition byte_chr (z : Z) : ascii := ascii_of_N (Z.to_N z).

(** ** Encoding

    Three bytes are a 24-bit number, written as four 6-bit digits; the last group
    is padded. *)
Definition EncodedLen (n : nat) : nat := (n + 2) `div` 3 * 4.

Definition group (a b c : Z) : Z := (a * 65536 + b * 256 + c)%Z.
Definition digit1 (v : Z) : Z := (v `div` 262144)%Z.
Definition digit2 (v : Z) : Z := ((v `div` 4096) mod 64)%Z.
Definition digit3 (v : Z) : Z := ((v `div` 64) mod 64)%Z.
Definition digit4 (v : Z) : Z := (v mod 64)%Z.

Fixpoint b64_encode (s : string) : string :=
  match s with
  | "" => ""
  | String a "" =>
      let v := group (byte_val a) 0 0 in
      String (b64_char (digit1 v)) (String (b64_char (digit2 v)) "==")
  | String a (String b "") =>
      let v := group (byte_val a) (byte_val b) 0 in
      String (b64_char (digit1 v))
        (String (b64_char (digit2 v)) (String (b64_char (digit3 v)) "="))
  | String a (String b (String c s)) =>
      let v := group (byte_val a) (byte_val b) (byte_val c) in
      String (b64_char (digit1 v))
        (String (b64_char (digit2 v))
          (String (b64_char (digit3 v)) (String (b64_char (digit4 v)) (b64_encode s))))
  end.

(** ** Decoding *)
Fixpoint b64_decode (s : string) : option string :=
  match s with
  | "" => Some ""
  | String w (String x (String y (String z s))) =>
      w ← b64_val w; x ← b64_val x;
      if decide (y = "="%char) then
        if decide (z = "="%char ∧ s = "") then
          let v := (w * 262144 + x * 4096)%Z in Some (str1 (byte_chr (v `div` 65536)))
        else None
      else
        y ← b64_val y;
        if decide (z = "="%char) then
          if decide (s = "") then
            let v := (w * 262144 + x * 4096 + y * 64)%Z in
            Some (String (byte_chr (v `div` 65536)) (str1 (byte_chr ((v `div` 256) mod 256))))
          else None
        else
          z ← b64_val z; r ← b64_decode s;
          let v := (w * 262144 + x * 4096 + y * 64 + z)%Z in
          Some (String (byte_chr (v `div` 65536))
            (String (byte_chr ((v `div` 256) mod 256)) (String (byte_chr (v mod 256)) r)))
  | _ => None
  end.

(** ** Facts *)
Lemma string_ind3 (P : string → Prop) :
  P "" → (∀ a, P (str1 a)) → (∀ a b, P (String a (str1 b))) →
  (∀ a b c s, P s → P (String a (String b (String c s)))) → ∀ s, P s.
Proof.
  intros H0 H1 H2 H3. fix IH 1. intros [|a [|b [|c s]]]; [done|apply H1|apply H2|].
  apply H3, IH.
Qed.

Definition sextets : list Z := seqZ 0 64.

Lemma sextet_elem z : (0 ≤ z < 64)%Z → z ∈ sextets.
Proof. intros. apply elem_of_seqZ. lia. Qed.

Lemma b64_char_facts z :
  (0 ≤ z < 64)%Z → b64_val (b64_char z) = Some z ∧ b64_char z ≠ "="%char.
Proof.
  intros Hz%sextet_elem. revert z Hz. apply Forall_forall. decide_closed.
Qed.

Lemma b64_val_char z : (0 ≤ z < 64)%Z → b64_val (b64_char z) = Some z.
Proof. apply b64_char_facts. Qed.

Lemma b64_char_pad z : (0 ≤ z < 64)%Z → b64_char z ≠ "="%char.
Proof. apply b64_char_facts. Qed.

Lemma byte_chr_val a z : z = byte_val a → byte_chr z = a.
Proof. intros ->. unfold byte_chr, byte_val. by rewrite N2Z.id, ascii_N_embedding. Qed.

Section groups.
Context (a b c : Z) (Ha : (0 ≤ a < 256)%Z) (Hb : (0 ≤ b < 256)%Z) (Hc : (0 ≤ c < 256)%Z).

Lemma digits_bound :
  let v := group a b c in
  (0 ≤ digit1 v < 64 ∧ 0 ≤ digit2 v < 64 ∧ 0 ≤ digit3 v < 64 ∧ 0 ≤ digit4 v < 64)%Z.
Proof.
  unfold group, digit1, digit2, digit3, digit4. simpl.
  split; [|by split_and!; apply Z.mod_pos_bound].
  Z.to_euclidean_division_equations. lia.
Qed.

Lemma digits_group :
  let v := group a b c in
  (digit1 v * 262144 + digit2 v * 4096 + digit3 v * 64 + digit4 v = v)%Z.
Proof.
  unfold group, digit1, digit2, digit3, digit4. simpl.
  Z.to_euclidean_division_equations. lia.
Qed.

Lemma group_bytes :
  let v := group a b c in
  (v `div` 65536 = a ∧ (v `div` 256) mod 256 = b ∧ v mod 256 = c)%Z.
Proof. unfold group. simpl. split_and!; Z.to_euclidean_division_equations; lia. Qed.

Lemma digits_pad1 : c = 0%Z → digit4 (group a b c) = 0%Z.
Proof. intros ->. unfold group, digit4. Z.to_euclidean_division_equations. lia. Qed.

Lemma digits_pad2 : c = 0%Z → b = 0%Z → digit3 (group a b c) = 0%Z.
Proof. intros -> ->. unfold group, digit3. Z.to_euclidean_division_equations. lia. Qed.
End groups.

Lemma b64_decode_encode s : b64_decode (b64_encode s) = Some s.
Proof.
  induction s as [|a|a b|a b c s IH] using string_ind3; [done|..];
    pose proof (byte_val_bound a) as Ha; try pose proof (byte_val_bound b) as Hb;
    try pose proof (byte_val_bound c) as Hc.
  - assert (0 ≤ 0 < 256)%Z as H0 by lia.
    destruct (digits_bound (byte_val a) 0 0 Ha H0 H0) as (H1 & H2 & H3 & H4).
    pose proof (digits_group (byte_val a) 0 0 Ha H0 H0) as Hg.
    pose proof (group_bytes (byte_val a) 0 0 Ha H0 H0) as (Hv & _).
    cbn zeta in Hg. rewrite digits_pad1, digits_pad2 in Hg by done.
    unfold b64_encode, b64_decode. rewrite !b64_val_char by done. simpl.
    rewrite Z.mul_0_l, !Z.add_0_r in Hg. rewrite Hg.
    by rewrite (byte_chr_val a).
  - assert (0 ≤ 0 < 256)%Z as H0 by lia.
    destruct (digits_bound (byte_val a) (byte_val b) 0 Ha Hb H0) as (H1 & H2 & H3 & H4).
    pose proof (digits_group (byte_val a) (byte_val b) 0 Ha Hb H0) as Hg.
    pose proof (group_bytes (byte_val a) (byte_val b) 0 Ha Hb H0) as (Hv & Hw & _).
    cbn zeta in Hg. rewrite digits_pad1 in Hg by done.
    unfold b64_encode, b64_decode. rewrite !b64_val_char by done. simpl.
    rewrite decide_False by (by apply b64_char_pad). simpl.
    rewrite !Z.add_0_r in Hg. rewrite Hg.
    by rewrite (byte_chr_val a), (byte_chr_val b).
  - destruct (digits_bound (byte_val a) (byte_val b) (byte_val c) Ha Hb Hc) as (H1 & H2 & H3 & H4).
    pose proof (digits_group (byte_val a) (byte_val b) (byte_val c) Ha Hb Hc) as Hg.
    pose proof (group_bytes (byte_val a) (byte_val b) (byte_val c) Ha Hb Hc) as (Hv & Hw & Hx).
    cbn [b64_encode b64_decode]. rewrite !b64_val_char by done. simpl.
    rewrite !decide_False by (by apply b64_char_pad). rewrite IH. simpl.
    cbn zeta in Hg. rewrite Hg.
    by rewrite (byte_chr_val a), (byte_chr_val b), (byte_chr_val c).
Qed.

Lemma EncodedLen_3 n : EncodedLen (3 + n) = (4 + EncodedLen n)%nat.
Proof. unfold EncodedLen. replace (3 + n + 2)%nat with (1 * 3 + (n + 2))%nat by lia. rewrite Nat.div_add_l by done. lia. Qed.

(** The space the caller reserves is filled exactly. *)
Lemma b64_encode_length s : String.length (b64_encode s) = EncodedLen (String.length s).
Proof.
  induction s as [|a|a b|a b c s IH] using string_ind3; [done..|].
  change (String.length (String a (String b (String c s)))) with (3 + String.length s)%nat.
  rewrite EncodedLen_3, <-IH. done.
Qed.

(** ** The encoding needs no escape in JSON *)
Definition is_b64_char (c : ascii) : bool :=
  bool_decide (c = "="%char) || bool_decide (is_Some (b64_val c)).

Lemma b64_char_is z : (0 ≤ z < 64)%Z → is_b64_char (b64_char z) = true.
Proof.
  intros Hz. unfold is_b64_char. rewrite b64_val_char by done.
  by rewrite orb_true_iff, !bool_decide_eq_true; right.
Qed.

Lemma b64_encode_chars s : str_forallb is_b64_char (b64_encode s) = true.
Proof.
  assert (0 ≤ 0 < 256)%Z as H0 by lia.
  induction s as [|a|a b|a b c s IH] using string_ind3; [done|..];
    pose proof (byte_val_bound a) as Ha; try pose proof (byte_val_bound b) as Hb;
    try pose proof (byte_val_bound c) as Hc; cbn [b64_encode str_forallb].
  - destruct (digits_bound (byte_val a) 0 0 Ha H0 H0) as (? & ? & ? & ?).
    by rewrite !b64_char_is.
  - destruct (digits_bound (byte_val a) (byte_val b) 0 Ha Hb H0) as (? & ? & ? & ?).
    by rewrite !b64_char_is.
  - destruct (digits_bound (byte_val a) (byte_val b) (byte_val c) Ha Hb Hc) as (? & ? & ? & ?).
    by rewrite !b64_char_is, IH.
Qed.
