(* ===== verification/Json.v ===== *)
(** * Package serialize: the JSON envelope

    pkg/serialize/json.go: [AppendEvent] and everything it calls.  A [[]byte]
    buffer that is appended to and returned is a string the definitions take and
    give back.  The order in which a run iterates over a map is a list of its
    pairs; the code sorts before it writes. *)

From Stdlib Require Import SpecFloat.
From S2P Require Import Prelude GoStd GoText State Event JsonText Base64.

(** ** Strings *)
Definition hexDigits : string := "0123456789abcdef".

(** A byte the loop of [appendJSONString] leaves in place. *)
Definition plain_byte (c : ascii) : bool :=
  Z.leb 0x20 (byte_val c) && bool_decide (c ≠ dquote) && bool_decide (c ≠ bslash).

Definition hex_at (z : Z) : ascii := default "0"%char (String.get (Z.to_nat z) hexDigits).

(** The switch on a byte that is not left in place. *)
Definition escape_byte (c : ascii) : string :=
  if decide (c = dquote ∨ c = bslash) then String bslash (str1 c)
  else if decide (c = chr 10) then "\n"
  else if decide (c = chr 13) then "\r"
  else if decide (c = chr 9) then "\t"
  else "\u00" +:+ String (hex_at (Z.shiftr (byte_val c) 4)) (str1 (hex_at (Z.land (byte_val c) 0xf))).

(** One turn of the loop: [b] is the output so far, [start] the first byte not
    copied yet. *)
Definition quote_step (s : string) (st : string * nat) (i : nat) : string * nat :=
  let '(b, start) := st in
  match String.get i s with
  | Some c =>
      if plain_byte c then (b, start)
      else (b +:+ str_slice start i s +:+ escape_byte c, S i)
  | None => (b, start)
  end.

Definition appendJSONString (b s : string) : string :=
  let '(b, start) := foldl (quote_step s) (b +:+ str1 dquote, 0%nat) (seq 0 (String.length s)) in
  b +:+ str_slice start (String.length s) s +:+ str1 dquote.

(** ** Rows: the order of the columns *)
Abbreviation kv := (string * value)%type.

(** The inner loop: the pair at [j] moves down past the greater keys. *)
Fixpoint sift (s : list kv) (j : nat) : list kv :=
  match j with
  | O => s
  | S j' =>
      match s !! j, s !! j' with
      | Some x, Some y => if String.ltb x.1 y.1 then sift (<[j := y]> (<[j' := x]> s)) j' else s
      | _, _ => s
      end
  end.

Definition insertionSort (s : list kv) : list kv := foldl sift s (seq 1 (length s - 1)).

Definition kv_le (x y : kv) : Prop := String.le x.1 y.1.

#[export] Instance kv_le_dec : RelDecision kv_le.
Proof. unfold kv_le. intros x y. apply _. Defined.

(** [slices.SortFunc] by key: a sort whose order of equal keys is not specified;
    the keys of a map are distinct. *)
Definition SortFunc (s : list kv) : list kv := merge_sort kv_le s.

Definition sort_pairs (pairs : list kv) : list kv :=
  if decide (length pairs ≤ 32)%nat then insertionSort pairs else SortFunc pairs.

Section json.
Context `{GoFmt}.

(** ** Values *)

(** [float64(x)] of a float32: the same number in the wider format. *)
Definition widen (f : spec_float) : spec_float :=
  match f with
  | S754_finite s m e => binary_normalize 53 1024 (if s then Zneg m else Zpos m) e s
  | _ => f
  end.

Definition f64_1e_6 : spec_float := S754_finite false 4722366482869645 (-72).
Definition f64_1e21 : spec_float := S754_finite false 7629394531250000 17.

Definition is_nan_or_inf (f : spec_float) : bool :=
  match f with S754_nan | S754_infinity _ => true | _ => false end.

(** The format letter for the value. *)
Definition float_format (f : spec_float) : ascii :=
  let a := SFabs (widen f) in
  if negb (SFeqb a (S754_zero false)) && (SFltb a f64_1e_6 || SFleb f64_1e21 a)
  then "e"%char else "f"%char.

(** [f] is the value in its own width [bits]: [strconv.AppendFloat] with [bits]
    32 rounds its argument to it. *)
Definition appendFloat (b : string) (f : spec_float) (bits : Z) : result string :=
  if is_nan_or_inf f
  then Err (EText ("serialize: unsupported float value " +:+ FormatFloat "g" 64 f))
  else Ok (b +:+ FormatFloat (float_format f) bits f).

Definition appendValue (b : string) (v : value) : result string :=
  match v with
  | VNil => Ok (b +:+ "null")
  | VString x => Ok (appendJSONString b x)
  | VRaw x =>
      let t := default "" x in
      if decide (String.length t = 0%nat) then Ok (b +:+ "null") else Ok (b +:+ t)
  | VBytes None => Ok (b +:+ "null")
  | VBytes (Some x) => Ok (b +:+ str1 dquote +:+ b64_encode x +:+ str1 dquote)
  | VBool x => Ok (AppendBool b x)
  | VInt x | VInt8 x | VInt16 x | VInt32 x | VInt64 x => Ok (AppendInt b x)
  | VUint x | VUint8 x | VUint16 x | VUint32 x | VUint64 x => Ok (AppendUint b x)
  | VFloat32 x => appendFloat b x 32
  | VFloat64 x => appendFloat b x 64
  | VTime t => Ok (b +:+ str1 dquote +:+ TimeRFC3339Nano t +:+ str1 dquote)
  | VOther o =>
      match o_json o with
      | Err err => Err (EWrap ("serialize: value " +:+ o_type o) err)
      | Ok enc => Ok (b +:+ enc)
      end
  end.

(** ** Rows *)

(** The loop over the sorted pairs, from index [i]. *)
Fixpoint append_pairs (i : nat) (b : string) (pairs : list kv) : result string :=
  match pairs with
  | [] => Ok b
  | (k, v) :: pairs =>
      let b := if decide (0 < i)%nat then b +:+ "," else b in
      b ←ok appendValue (appendJSONString b k +:+ ":") v;
      append_pairs (S i) b pairs
  end.

(** [order m] is the order in which this run iterates over [m]. *)
Abbreviation map_order := (gmap string value → list kv).

Definition appendRow_iter (order : map_order) (b : string) (m : row) : result string :=
  match m with
  | None => Ok (b +:+ "null")
  | Some m =>
      b ←ok append_pairs 0 (b +:+ "{") (sort_pairs (order m));
      Ok (b +:+ "}")
  end.

(** ** The envelope *)
Definition appendSource (b : string) (m : SourceMeta) : string :=
  let b := appendJSONString (b +:+ q "{'connector':") (Connector m) in
  let b := if decide (ServerID m ≠ 0%Z)
           then AppendUint (b +:+ q ",'server_id':") (u64 (ServerID m)) else b in
  let b := appendJSONString (b +:+ q ",'db':") (Database m) in
  let b := appendJSONString (b +:+ q ",'table':") (Table m) in
  let b := if decide (GTID m ≠ "") then appendJSONString (b +:+ q ",'gtid':") (GTID m) else b in
  let b := if decide (MetaFile m ≠ "") then appendJSONString (b +:+ q ",'file':") (MetaFile m) else b in
  let b := if decide (Pos m ≠ 0%Z) then AppendUint (b +:+ q ",'pos':") (u64 (Pos m)) else b in
  let b := if decide (TxOrder m ≠ 0%Z) then AppendInt (b +:+ q ",'tx_order':") (i64 (TxOrder m)) else b in
  b +:+ "}".

Definition AppendEvent_iter (order : map_order) (b : string) (e : NomiosEvent) : result string :=
  let b := appendJSONString (b +:+ q "{'id':") (ID e) in
  let b := appendJSONString (b +:+ q ",'op':") (op_text (EvOp e)) in
  b ←ok appendRow_iter order (b +:+ q ",'before':") (Before e);
  b ←ok appendRow_iter order (b +:+ q ",'after':") (After e);
  let b := appendSource (b +:+ q ",'source':") (EvSource e) in
  let b := AppendInt (b +:+ q ",'ts_ms':") (UnixMilli (OccurredAt e)) in
  Ok (b +:+ "}").

Definition appendRow : string → row → result string := appendRow_iter map_to_list.
Definition AppendEvent : string → NomiosEvent → result string := AppendEvent_iter map_to_list.

(** The key and the value of the record. *)
Definition Serialize (e : NomiosEvent) : result (string * string) :=
  buf ←ok AppendEvent "" e; Ok (Key e, buf).
End json.

(** ** The sort *)
#[export] Instance kv_le_trans : Transitive kv_le.
Proof. intros x y z. unfold kv_le. apply transitivity. Qed.
#[export] Instance kv_le_total : Total kv_le.
Proof. intros x y. unfold kv_le. apply total, _. Qed.

Lemma ltb_true_le k1 k2 : String.ltb k1 k2 = true → String.le k1 k2.
Proof. unfold String.ltb, String.le, String.leb. by destruct (String.compare k1 k2). Qed.

Lemma ltb_false_le k1 k2 : String.ltb k1 k2 = false → String.le k2 k1.
Proof.
  unfold String.ltb, String.le, String.leb. rewrite (String.compare_antisym k1 k2).
  by destruct (String.compare k2 k1).
Qed.

Lemma adjacent_lookup {A} (l1 l2 : list A) x y : (l1 ++ y :: x :: l2) !! S (length l1) = Some x.
Proof. by induction l1. Qed.

Lemma adjacent_swap {A} (l1 l2 : list A) x y :
  <[S (length l1) := y]> (<[length l1 := x]> (l1 ++ y :: x :: l2)) = l1 ++ x :: y :: l2.
Proof. induction l1 as [|z l1 IH]; [done|]. simpl. by rewrite <-IH. Qed.

(** The inner loop inserts the pair after the prefix into the sorted prefix. *)
Lemma sift_spec l1 x l2 :
  StronglySorted kv_le l1 →
  ∃ l, sift (l1 ++ x :: l2) (length l1) = l ++ l2 ∧ l ≡ₚ x :: l1 ∧ StronglySorted kv_le l.
Proof.
  revert l2. induction l1 as [|y l1 IH] using rev_ind; intros l2 Hl1.
  { exists [x]. split_and!; [done..|repeat constructor]. }
  rewrite length_app, Nat.add_1_r, <-app_assoc. simpl. rewrite adjacent_lookup.
  rewrite list_lookup_middle by done.
  apply StronglySorted_app in Hl1 as (Hle & Hl1 & _).
  destruct (String.ltb x.1 y.1) eqn:E.
  - rewrite adjacent_swap.
    destruct (IH (y :: l2) Hl1) as (l & -> & Hp & Hs). exists (l ++ [y]).
    split_and!; [by rewrite <-app_assoc| |].
    + rewrite Hp. simpl. by rewrite Permutation_app_comm.
    + apply StronglySorted_app_2; [|done|repeat constructor].
      intros z w Hz ->%list_elem_of_singleton. rewrite Hp in Hz.
      apply elem_of_cons in Hz as [->|Hz]; [by apply ltb_true_le|]. apply Hle; set_solver.
  - exists (l1 ++ [y; x]). split_and!; [by rewrite <-app_assoc| |].
    + rewrite Permutation_app_comm. simpl. rewrite (Permutation_app_comm l1). apply Permutation_swap.
    + apply ltb_false_le in E. apply StronglySorted_app_2; [|done|repeat constructor; done].
      intros z w Hz Hw. assert (kv_le z y) by (apply Hle; set_solver).
      apply elem_of_cons in Hw as [->|Hw]; [done|]. apply list_elem_of_singleton in Hw as ->.
      by transitivity y.
Qed.

Lemma insertionSort_spec s : insertionSort s ≡ₚ s ∧ StronglySorted kv_le (insertionSort s).
Proof.
  assert (∀ n l1 l2, length l2 = n → StronglySorted kv_le l1 →
    foldl sift (l1 ++ l2) (seq (length l1) n) ≡ₚ l1 ++ l2 ∧
    StronglySorted kv_le (foldl sift (l1 ++ l2) (seq (length l1) n))) as Hloop.
  { induction n as [|n IH]; intros l1 [|x l2] Hn Hl1; try done.
    - simpl. by rewrite app_nil_r.
    - simpl. destruct (sift_spec l1 x l2 Hl1) as (l & -> & Hp & Hs).
      assert (length l = S (length l1)) as <- by by rewrite Hp.
      simpl in Hn. destruct (IH l l2) as [Hp' Hs']; [lia|done|]. split; [|done].
      rewrite Hp', Hp. simpl. by rewrite Permutation_middle. }
  unfold insertionSort. destruct s as [|x s]; [split; [done|constructor]|].
  simpl. rewrite Nat.sub_0_r. apply (Hloop (length s) [x] s); [done|]. repeat constructor.
Qed.

Lemma kv_sorted_unique l1 l2 :
  NoDup l1.*1 → StronglySorted kv_le l1 → StronglySorted kv_le l2 → l1 ≡ₚ l2 → l1 = l2.
Proof.
  intros Hnd Hs1 Hs2 Hp. apply (StronglySorted_unique_strong kv_le); [|done..].
  intros [k1 v1] [k2 v2] Hx1 Hx2 H12 H21. rewrite <-Hp in Hx2.
  assert (k1 = k2) as -> by (by apply (anti_symm String.le)).
  f_equal. apply (elem_of_list_to_map_1 (M := gmap string)) in Hx1, Hx2; [|done..]. congruence.
Qed.

(** ** Quoting *)

(** The text the loop writes, byte by byte. *)
Fixpoint escape_text (s : string) : string :=
  match s with
  | "" => ""
  | String c s => (if plain_byte c then str1 c else escape_byte c) +:+ escape_text s
  end.

Lemma substring_mid (p1 p2 r : string) :
  String.substring (String.length p1) (String.length p2) (p1 +:+ p2 +:+ r) = p2.
Proof.
  induction p1 as [|c p1 IH]; [|exact IH]. rewrite str_app_nil_l. simpl.
  induction p2 as [|c p2 IH]; [by destruct r|]. simpl. by f_equal.
Qed.

Lemma str_slice_mid (p1 p2 r : string) :
  str_slice (String.length p1) (String.length (p1 +:+ p2)) (p1 +:+ p2 +:+ r) = p2.
Proof.
  unfold str_slice. rewrite str_length_app.
  replace (String.length p1 + String.length p2 - String.length p1)%nat with (String.length p2) by lia.
  apply substring_mid.
Qed.

Lemma string_get_mid (p : string) c r : String.get (String.length p) (p +:+ String c r) = Some c.
Proof. by induction p. Qed.

(** The loop from the byte after [p1 +:+ p2], [p2] not copied yet. *)
Lemma quote_loop rest p1 p2 b :
  let s := p1 +:+ p2 +:+ rest in
  let '(b', start) := foldl (quote_step s) (b, String.length p1)
                        (seq (String.length (p1 +:+ p2)) (String.length rest)) in
  b' +:+ str_slice start (String.length s) s = b +:+ p2 +:+ escape_text rest.
Proof.
  revert p1 p2 b. induction rest as [|c rest IH]; intros p1 p2 b.
  - simpl. rewrite !str_app_nil_r. f_equal.
    pose proof (str_slice_mid p1 p2 "") as Hs. by rewrite str_app_nil_r in Hs.
  - cbn zeta in *. cbn [String.length seq foldl escape_text].
    assert (quote_step (p1 +:+ p2 +:+ String c rest) (b, String.length p1)
        (String.length (p1 +:+ p2)) =
      if plain_byte c then (b, String.length p1)
      else (b +:+ p2 +:+ escape_byte c, S (String.length (p1 +:+ p2)))) as ->.
    { unfold quote_step. rewrite str_slice_mid, str_app_assoc, string_get_mid. done. }
    assert (p1 +:+ p2 +:+ String c rest = p1 +:+ (p2 +:+ str1 c) +:+ rest) as Heq.
    { by rewrite <-str_app_assoc. }
    assert (String.length (p1 +:+ p2 +:+ str1 c) = S (String.length (p1 +:+ p2))) as Hl.
    { rewrite !str_length_app. simpl. lia. }
    rewrite Heq. destruct (plain_byte c).
    + specialize (IH p1 (p2 +:+ str1 c) b). rewrite Hl in IH.
      destruct (foldl _ _ _) as [b' st]. rewrite IH. by rewrite !str_app_assoc.
    + specialize (IH (p1 +:+ p2 +:+ str1 c) "" (b +:+ p2 +:+ escape_byte c)).
      rewrite str_app_nil_r, Hl, str_app_nil_l in IH.
      rewrite (str_app_assoc p1 (p2 +:+ str1 c) rest).
      destruct (foldl _ _ _) as [b' st]. rewrite IH. by rewrite str_app_nil_l, !str_app_assoc.
Qed.

Definition quote_text (s : string) : string := str1 dquote +:+ escape_text s +:+ str1 dquote.

Lemma appendJSONString_text b s : appendJSONString b s = b +:+ quote_text s.
Proof.
  unfold appendJSONString, quote_text.
  pose proof (quote_loop s "" "" (b +:+ str1 dquote)) as Hl. simpl in Hl.
  change ("" +:+ ("" +:+ s)) with s in Hl.
  destruct (foldl _ _ _) as [b' st]. rewrite str_app_assoc, Hl, !str_app_assoc.
  by rewrite str_app_nil_r.
Qed.

Lemma plain_byte_clean c : plain_byte c = true → is_clean c = true ∧ c ≠ dquote ∧ c ≠ bslash.
Proof.
  unfold plain_byte, is_clean. rewrite !andb_true_iff, !bool_decide_eq_true. by intros [[] ?].
Qed.

(** The reader undoes the escape of each byte. *)
Lemma parse_escape_byte c s :
  plain_byte c = false → parse_chars (escape_byte c +:+ s) = prepend (str1 c) (parse_chars s).
Proof.
  destruct c as [[] [] [] [] [] [] [] []]; intros Hc; try (vm_compute in Hc; discriminate Hc);
    clear Hc; reflexivity.
Qed.

Lemma parse_escape_text s t : parse_chars (escape_text s +:+ String dquote t) = Some (s, t).
Proof.
  induction s as [|c s IH]; [done|]. cbn [escape_text]. rewrite <-str_app_assoc.
  destruct (plain_byte c) eqn:Hc.
  - apply plain_byte_clean in Hc as (Hc & H1 & H2). rewrite str_app_cons, str_app_nil_l.
    cbn [parse_chars]. rewrite !decide_False by done. rewrite Hc, IH. done.
  - rewrite parse_escape_byte by done. rewrite IH. done.
Qed.

Lemma quote_text_quoted s : quoted (quote_text s) s.
Proof.
  unfold quote_text. rewrite str_app_cons, str_app_nil_l. eexists. split; [done|].
  apply (parse_escape_text s "").
Qed.

(** A text of clean bytes is quoted as it stands. *)
Lemma clean_quoted s :
  str_forallb plain_byte s = true → quoted (str1 dquote +:+ s +:+ str1 dquote) s.
Proof.
  intros Hs. assert (escape_text s = s) as Heq.
  { induction s as [|c s IH]; [done|]. simpl in *. apply andb_true_iff in Hs as [-> Hs].
    rewrite IH by done. done. }
  pose proof (quote_text_quoted s) as Hq. unfold quote_text in Hq. by rewrite Heq in Hq.
Qed.

(** ** Numbers are JSON numbers *)
Lemma span_digits s : str_forallb is_digit s = true → span is_digit s = (s, "").
Proof. intros Hs. pose proof (span_all is_digit s "" Hs eq_refl) as H. by rewrite str_app_nil_r in H. Qed.

Lemma pretty_N_go_head x s :
  (0 < x)%N → ∃ c t, pretty_N_go x s = String c t ∧ c ≠ "0"%char.
Proof.
  revert s. induction (N.lt_wf_0 x) as [x _ IH]; intros s Hx.
  rewrite pretty_N_go_step by done. destruct (decide (x < 10)%N) as [Hlt|Hge].
  - rewrite N.div_small, N.mod_small, pretty_N_go_0 by done. eexists _, _. split; [done|].
    assert (x ∈ N.of_nat <$> seq 1 9) as Hin.
    { apply list_elem_of_fmap. exists (N.to_nat x). rewrite elem_of_seq. lia. }
    revert x Hin Hx Hlt IH. assert (Forall (λ x, pretty_N_char x ≠ "0"%char) (N.of_nat <$> seq 1 9)) as Hall
      by decide_closed.
    rewrite Forall_forall in Hall. intros x Hin _ _ _. by apply Hall.
  - apply IH; [by apply N.div_lt|]. apply N.div_str_pos. lia.
Qed.

Lemma number_ok_pos p : number_int (pretty (N.pos p)) = Some "" ∧ ∀ t, pretty (N.pos p) ≠ String "-" t.
Proof.
  pose proof (pretty_N_digits (N.pos p)) as Hd.
  destruct (pretty_N_go_head (N.pos p) "") as (c & t & Heq & Hc); [done|].
  assert (pretty (N.pos p) = String c t) as Hp by done. rewrite Hp in *. split.
  - simpl. rewrite decide_False by done. unfold digits1. by rewrite span_digits.
  - intros t' [= -> ->]. done.
Qed.

Lemma number_ok_pretty (x : Z) : number_ok (pretty x) = true.
Proof.
  destruct x as [|p|p]; [done|..]; destruct (number_ok_pos p) as [Hi Hm]; unfold number_ok.
  - change (pretty (Z.pos p)) with (pretty (N.pos p)).
    destruct (strip_prefix "-" (pretty (N.pos p))) as [t|] eqn:E.
    { apply strip_prefix_Some in E. by destruct (Hm t). }
    simpl. by rewrite Hi.
  - change (pretty (Z.neg p)) with ("-" +:+ pretty (N.pos p)).
    assert (strip_prefix "-" ("-" +:+ pretty (N.pos p)) = Some (pretty (N.pos p))) as ->
      by by apply strip_prefix_Some.
    simpl. by rewrite Hi.
Qed.

Lemma digits1_chars s r : digits1 s = Some r → str_forallb is_json_num_char r = true →
  str_forallb is_json_num_char s = true.
Proof.
  unfold digits1. destruct (span is_digit s) as [x r'] eqn:E. destruct (nonempty x); [|done].
  intros [= ->] Hr. apply span_split in E as [-> Hx]. rewrite str_forallb_app, Hr.
  rewrite (str_forallb_impl is_digit is_json_num_char x); [done| |done].
  intros c Hc. unfold is_json_num_char. by rewrite Hc.
Qed.

(** A number holds number characters only, so it is read whole. *)
Lemma number_ok_chars x : number_ok x = true → str_forallb is_json_num_char x = true.
Proof.
  unfold number_ok. rewrite bool_decide_eq_true. intros H.
  assert (str_forallb is_json_num_char (default x (strip_prefix "-" x)) = true) as Hx.
  { revert H. generalize (default x (strip_prefix "-" x)). clear x. intros x H.
    destruct (number_int x) as [r1|] eqn:E1; [|done]. simpl in H.
    destruct (number_frac r1) as [r2|] eqn:E2; [|done]. simpl in H.
    assert (str_forallb is_json_num_char r2 = true) as H2.
    { destruct r2 as [|c t]; [done|]. unfold number_exp in H.
      destruct (bool_decide_reflect (c = "e"%char ∨ c = "E"%char)) as [Hc|]; [|done].
      assert (is_json_num_char c = true) as Hc' by by destruct Hc as [-> | ->].
      cbn [str_forallb]. rewrite Hc'. simpl. destruct t as [|d u]; [done|].
      destruct (bool_decide_reflect (d = "+"%char ∨ d = "-"%char)) as [Hd|].
      - cbn [str_forallb]. apply andb_true_iff. split; [by destruct Hd as [-> | ->]|].
        by eapply digits1_chars.
      - by eapply digits1_chars. }
    assert (str_forallb is_json_num_char r1 = true) as H1.
    { unfold number_frac in E2. destruct r1 as [|c t]; [done|].
      destruct (decide (c = "."%char)) as [->|]; [|by injection E2 as ->].
      simpl. by eapply digits1_chars. }
    unfold number_int in E1. destruct x as [|c t]; [done|].
    destruct (decide (c = "0"%char)) as [->|]; [|by eapply digits1_chars].
    injection E1 as ->. simpl. exact H1. }
  destruct (strip_prefix "-" x) as [t|] eqn:E; [|done]. apply strip_prefix_Some in E as ->.
  simpl in Hx |- *. exact Hx.
Qed.

Lemma number_reads x : number_ok x = true → parse_json x = Some (JNum x).
Proof.
  intros Hx. apply parse_json_Some. exists 1%nat, "". split; [|done].
  destruct (number_ok_head x Hx) as (c & t & -> & Hc).
  assert (is_ws c = false ∧ c ≠ dquote ∧ c ≠ "{"%char ∧ c ≠ "["%char) as (Hws & H1 & H2 & H3).
  { clear Hx. destruct c as [[] [] [] [] [] [] [] []]; vm_compute in Hc; try discriminate Hc; done. }
  simpl. rewrite Hws, !decide_False by done. apply parse_atom_number; [|done].
  pose proof (span_all is_json_num_char _ "" (number_ok_chars _ Hx) eq_refl) as Hs.
  by rewrite str_app_nil_r in Hs.
Qed.

(** ** The document an event stands for *)
Class JsonFmtLaws `{GoFmt} := {
  (** the formats ['f'] and ['e'] of a finite value are JSON numbers *)
  FormatFloat_number : ∀ c bits f,
    c = "f"%char ∨ c = "e"%char → float_canonical bits f = true → is_nan_or_inf f = false →
    number_ok (FormatFloat c bits f) = true;
  (** RFC 3339 text holds digits, signs, colons, a point, T and Z *)
  TimeRFC3339Nano_clean : ∀ t, str_forallb plain_byte (TimeRFC3339Nano t) = true;
}.

Section document.
Context `{GoFmt}.

(** The JSON value of a dynamic value; [None] when it has none. *)
Definition doc_value (v : value) : option json :=
  match v with
  | VNil | VBytes None => Some JNull
  | VString x => Some (JStr x)
  | VRaw x => if decide (default "" x = "") then Some JNull else parse_json (default "" x)
  | VBytes (Some x) => Some (JStr (b64_encode x))
  | VBool x => Some (JBool x)
  | VInt x | VInt8 x | VInt16 x | VInt32 x | VInt64 x
  | VUint x | VUint8 x | VUint16 x | VUint32 x | VUint64 x => Some (JNum (pretty x))
  | VFloat32 f =>
      if is_nan_or_inf f then None else Some (JNum (FormatFloat (float_format f) 32 f))
  | VFloat64 f =>
      if is_nan_or_inf f then None else Some (JNum (FormatFloat (float_format f) 64 f))
  | VTime t => Some (JStr (TimeRFC3339Nano t))
  | VOther o => match o_json o with Ok enc => parse_json enc | Err _ => None end
  end.

(** The columns in the order of their names. *)
Definition row_pairs (m : gmap string value) : list kv := merge_sort kv_le (map_to_list m).

Definition doc_row (r : row) : option json :=
  match r with
  | None => Some JNull
  | Some m => JObj <$> mapM (λ p, (λ d, (p.1, d)) <$> doc_value p.2) (row_pairs m)
  end.

(** A member that is left out when its value is the zero value. *)
Definition omitempty (present : bool) (k : string) (j : json) : list (string * json) :=
  if present then [(k, j)] else [].

Definition doc_source (m : SourceMeta) : json :=
  JObj ([("connector", JStr (Connector m))] ++
        omitempty (bool_decide (ServerID m ≠ 0%Z)) "server_id" (JNum (pretty (ServerID m))) ++
        [("db", JStr (Database m)); ("table", JStr (Table m))] ++
        omitempty (bool_decide (GTID m ≠ "")) "gtid" (JStr (GTID m)) ++
        omitempty (bool_decide (MetaFile m ≠ "")) "file" (JStr (MetaFile m)) ++
        omitempty (bool_decide (Pos m ≠ 0%Z)) "pos" (JNum (pretty (Pos m))) ++
        omitempty (bool_decide (TxOrder m ≠ 0%Z)) "tx_order" (JNum (pretty (TxOrder m)))).

Definition doc_event (e : NomiosEvent) : option json :=
  before ← doc_row (Before e); after ← doc_row (After e);
  Some (JObj [("id", JStr (ID e)); ("op", JStr (op_text (EvOp e)));
              ("before", before); ("after", after); ("source", doc_source (EvSource e));
              ("ts_ms", JNum (pretty (UnixMilli (OccurredAt e))))]).

(** ** What each function appends *)
Definition value_text (v : value) : result string := appendValue "" v.

Lemma appendValue_text b v : appendValue b v = (λ t, b +:+ t) <$> value_text v.
Proof.
  unfold value_text. destruct v as [|s|[x|]|x|x|x|x|x|x|x|x|x|x|x|x|f|f|t|o]; simpl;
    unfold appendFloat, AppendBool, AppendInt, AppendUint;
    rewrite ?(appendJSONString_text b), ?(appendJSONString_text ""), ?str_app_nil_l; try done.
  - by case_decide.
  - by case_match.
  - by case_match.
  - by destruct (o_json o).
Qed.

(** The reader gets every value's document back from its text. *)
Context `{!JsonFmtLaws}.

Lemma quote_value s : parse_json (quote_text s) = Some (JStr s).
Proof. apply quoted_value, quote_text_quoted. Qed.

Lemma float_reads f bits :
  float_canonical bits f = true → is_nan_or_inf f = false →
  parse_json (FormatFloat (float_format f) bits f) =
    Some (JNum (FormatFloat (float_format f) bits f)).
Proof.
  intros Hc Hf. apply number_reads, FormatFloat_number; [|done..].
  unfold float_format. case_match; auto.
Qed.

Lemma b64_clean x : str_forallb plain_byte (b64_encode x) = true.
Proof.
  eapply str_forallb_impl, b64_encode_chars.
  intros c Hc. destruct c as [[] [] [] [] [] [] [] []]; try reflexivity; vm_compute in Hc; discriminate Hc.
Qed.

Lemma value_text_reads v d :
  wf_value v = true → doc_value v = Some d →
  ∃ t, value_text v = Ok t ∧ parse_json t = Some d.
Proof.
  intros Hwf. destruct v as [|s|[x|]|x|x|x|x|x|x|x|x|x|x|x|x|f|f|t|o]; simpl;
    unfold value_text; simpl; unfold appendFloat, AppendBool, AppendInt, AppendUint;
    rewrite ?appendJSONString_text, ?str_app_nil_l.
  all: try (intros [= <-]; eexists; split; [done|]; by apply number_reads, number_ok_pretty).
  - by intros [= <-]; eexists.
  - intros [= <-]. eexists. split; [done|]. apply quote_value.
  - intros [= <-]. eexists. split; [done|]. apply quoted_value, clean_quoted, b64_clean.
  - by intros [= <-]; eexists.
  - destruct (decide (default "" x = "")) as [Hx|Hx].
    + rewrite Hx. rewrite decide_True by done. by intros [= <-]; eexists.
    + rewrite decide_False by (by intros ?%str_length_0). eauto.
  - intros [= <-]. eexists. split; [done|]. by destruct x.
  - destruct (is_nan_or_inf f) eqn:Hf; [done|]. intros [= <-]. eexists. split; [done|]. by apply float_reads.
  - destruct (is_nan_or_inf f) eqn:Hf; [done|]. intros [= <-]. eexists. split; [done|]. by apply float_reads.
  - intros [= <-]. eexists. split; [done|]. apply quoted_value, clean_quoted, TimeRFC3339Nano_clean.
  - destruct (o_json o); [|done]. eauto.
Qed.
End document.

(** ** Rows, in any iteration order *)

Lemma sort_pairs_merge l : NoDup l.*1 → sort_pairs l = merge_sort kv_le l.
Proof.
  intros Hnd. unfold sort_pairs, SortFunc. destruct (decide (length l ≤ 32)%nat); [|done].
  destruct (insertionSort_spec l) as [Hp Hs].
  apply kv_sorted_unique; [by rewrite Hp|done|apply (StronglySorted_merge_sort _)|].
  by rewrite Hp, merge_sort_Permutation.
Qed.

(** What a map iteration yields: the map's pairs in some order. *)
Definition iterates (order : gmap string value → list kv) : Prop :=
  ∀ m, order m ≡ₚ map_to_list m.

Lemma sort_pairs_order order m : iterates order → sort_pairs (order m) = row_pairs m.
Proof.
  intros Ho. assert (NoDup (order m).*1) as Hnd.
  { rewrite (Ho m). apply NoDup_fst_map_to_list. }
  rewrite sort_pairs_merge by done. unfold row_pairs.
  apply kv_sorted_unique; [by rewrite merge_sort_Permutation|apply (StronglySorted_merge_sort _)..|].
  by rewrite !merge_sort_Permutation, (Ho m).
Qed.

Section rows.
Context `{GoFmt}.

Lemma appendRow_order order b r : iterates order → appendRow_iter order b r = appendRow b r.
Proof.
  intros Ho. unfold appendRow. destruct r as [m|]; [|done]. simpl.
  by rewrite (sort_pairs_order order m Ho), (sort_pairs_order map_to_list m (λ _, reflexivity _)).
Qed.

Lemma AppendEvent_order order b e : iterates order → AppendEvent_iter order b e = AppendEvent b e.
Proof.
  intros Ho. unfold AppendEvent, AppendEvent_iter. rewrite appendRow_order by done.
  fold (appendRow (appendJSONString (appendJSONString (b +:+ q "{'id':") (ID e) +:+ q ",'op':")
    (op_text (EvOp e)) +:+ q ",'before':") (Before e)).
  destruct (appendRow _ (Before e)) as [b'|err]; [|done].
  by rewrite appendRow_order by done.
Qed.

(** The separator before the members from index [i] on. *)
Definition member_sep (i : nat) (ms : list (string * string)) : string :=
  match ms with [] => "" | _ => if decide (0 < i)%nat then "," else "" end.

Lemma append_pairs_text i b l ms :
  Forall2 (λ p m, m.1 = quote_text p.1 ∧ value_text p.2 = Ok m.2) l ms →
  append_pairs i b l = Ok (b +:+ member_sep i ms +:+ members_text ms).
Proof.
  intros Hl. revert i b. induction Hl as [|[k v] [k' t] l ms [Hk Ht] _ IH]; intros i b.
  { simpl. by rewrite str_app_nil_r. }
  simpl in Hk, Ht. subst k'. cbn [append_pairs members_text]. cbv zeta.
  rewrite appendJSONString_text, appendValue_text, Ht. simpl. rewrite IH. f_equal.
  assert ((if decide (0 < i)%nat then b +:+ "," else b) = b +:+ member_sep i ((quote_text k, t) :: ms)) as ->.
  { simpl. case_decide; [done|]. by rewrite str_app_nil_r. }
  destruct ms as [|m ms]; simpl; by rewrite ?str_app_nil_r, ?str_app_nil_l, !str_app_assoc.
Qed.

(** The rows whose values are well typed. *)
Definition wf_cells (r : row) : Prop :=
  match r with None => True | Some m => map_Forall (λ _ v, wf_value v = true) m end.

Lemma row_pairs_wf m : wf_cells (Some m) → Forall (λ p, wf_value p.2 = true) (row_pairs m).
Proof.
  intros Hm. unfold row_pairs. rewrite merge_sort_Permutation. simpl in Hm.
  rewrite map_Forall_to_list in Hm. eapply Forall_impl; [exact Hm|]. by intros [k v].
Qed.

(** A row the encoder cannot write has a value without a JSON form. *)
Definition encodable (v : value) : bool :=
  match v with
  | VFloat32 f | VFloat64 f => negb (is_nan_or_inf f)
  | VOther o => match o_json o with Ok _ => true | Err _ => false end
  | _ => true
  end.

Definition row_encodable (r : row) : Prop :=
  match r with None => True | Some m => map_Forall (λ _ v, encodable v = true) m end.

Lemma appendValue_ok b v : is_Ok (appendValue b v) ↔ encodable v = true.
Proof.
  unfold is_Ok. destruct v as [|s|[x|]|x|x|x|x|x|x|x|x|x|x|x|x|f|f|t|o]; simpl; unfold appendFloat;
    try (split; [done|by eexists]).
  - case_decide; split; by eauto.
  - destruct (is_nan_or_inf f); simpl; split; naive_solver.
  - destruct (is_nan_or_inf f); simpl; split; naive_solver.
  - destruct (o_json o); split; naive_solver.
Qed.

Lemma append_pairs_ok i b l :
  is_Ok (append_pairs i b l) ↔ Forall (λ p, encodable p.2 = true) l.
Proof.
  revert i b. induction l as [|[k v] l IH]; intros i b; simpl; [split; [done|by eexists]|].
  rewrite Forall_cons. simpl.
  rewrite <-(appendValue_ok (appendJSONString (if decide (0 < i)%nat then b +:+ "," else b) k +:+ ":") v).
  destruct (appendValue _ v) as [b'|err].
  - rewrite IH. split; [intros ?; split; [by eexists|done]|by intros []].
  - split; [by intros []|by intros [[] _]].
Qed.

Lemma appendRow_ok b r : is_Ok (appendRow b r) ↔ row_encodable r.
Proof.
  destruct r as [m|]; [|split; [done|by eexists]]. unfold appendRow. simpl.
  rewrite (sort_pairs_order map_to_list m (λ _, reflexivity _)).
  assert (row_encodable (Some m) ↔ Forall (λ p, encodable p.2 = true) (row_pairs m)) as Hm.
  { simpl. rewrite map_Forall_to_list. unfold row_pairs. rewrite merge_sort_Permutation.
    apply Forall_proper; [|done]. by intros [k v]. }
  simpl in Hm. rewrite Hm, <-(append_pairs_ok 0 (b +:+ "{")).
  destruct (append_pairs _ _ _); split; intros []; by try eexists.
Qed.
End rows.

(** ** The envelope as an object text *)
Definition opt_member (present : bool) (k t : string) : list (string * string) :=
  if present then [(quote_text k, t)] else [].

Definition source_members (m : SourceMeta) : list (string * string) :=
  [(quote_text "connector", quote_text (Connector m))] ++
  opt_member (bool_decide (ServerID m ≠ 0%Z)) "server_id" (pretty (u64 (ServerID m))) ++
  [(quote_text "db", quote_text (Database m)); (quote_text "table", quote_text (Table m))] ++
  opt_member (bool_decide (GTID m ≠ "")) "gtid" (quote_text (GTID m)) ++
  opt_member (bool_decide (MetaFile m ≠ "")) "file" (quote_text (MetaFile m)) ++
  opt_member (bool_decide (Pos m ≠ 0%Z)) "pos" (pretty (u64 (Pos m))) ++
  opt_member (bool_decide (TxOrder m ≠ 0%Z)) "tx_order" (pretty (i64 (TxOrder m))).

Lemma appendSource_text b m : appendSource b m = b +:+ obj_text (source_members m).
Proof.
  unfold appendSource, AppendUint, AppendInt, source_members, opt_member.
  rewrite !appendJSONString_text.
  repeat match goal with |- context [decide (?a ≠ ?c)] =>
    let Hd := fresh in
    destruct (decide (a ≠ c)) as [Hd|Hd];
    [rewrite (bool_decide_true _ Hd)|rewrite (bool_decide_false _ Hd)]; clear Hd
  end;
    cbv zeta; rewrite ?appendJSONString_text; unfold obj_text; cbn [app members_text];
    rewrite <-!str_app_assoc; reflexivity.
Qed.

(** The fields at their widths. *)
Definition wf_meta (m : SourceMeta) : Prop :=
  (0 ≤ ServerID m < 2 ^ 32)%Z ∧ (0 ≤ Pos m < 2 ^ 32)%Z ∧ (- 2 ^ 63 ≤ TxOrder m < 2 ^ 63)%Z.

Lemma quoted_member k t d : parse_json t = Some d → member_reads (quote_text k, t) (k, d).
Proof. intros Ht. split; [apply quote_text_quoted|done]. Qed.

Lemma opt_member_reads present k t d :
  parse_json t = Some d → Forall2 member_reads (opt_member present k t) (omitempty present k d).
Proof. intros Ht. destruct present; repeat constructor; [apply quote_text_quoted|done]. Qed.

Lemma number_pretty (x : Z) : parse_json (pretty x) = Some (JNum (pretty x)).
Proof. apply number_reads, number_ok_pretty. Qed.

#[local] Hint Resolve quote_value number_pretty quoted_member opt_member_reads : nomios.

Lemma source_reads m : wf_meta m → parse_json (obj_text (source_members m)) = Some (doc_source m).
Proof.
  intros (Hs & Hp & Ht). apply parse_obj_text. unfold source_members, doc_source.
  rewrite !u64_small, i64_small by lia.
  repeat apply Forall2_app; auto using Forall2_cons, Forall2_nil with nomios.
Qed.

Section envelope.
Context `{GoFmt} `{!JsonFmtLaws}.

Lemma row_reads r d :
  wf_cells r → doc_row r = Some d →
  ∃ t, (∀ b, appendRow b r = Ok (b +:+ t)) ∧ parse_json t = Some d.
Proof.
  destruct r as [m|]; [|intros _ [= <-]; by exists "null"].
  intros Hm%row_pairs_wf. simpl. intros (ds & Hds%mapM_Some & ->)%fmap_Some.
  assert (∃ ms, Forall2 (λ p m, m.1 = quote_text p.1 ∧ value_text p.2 = Ok m.2) (row_pairs m) ms ∧
    Forall2 member_reads ms ds) as (ms & Hms & Hr).
  { revert Hm. induction Hds as [|[k v] [k' d] l ds Hd _ IH]; [by eexists []|].
    rewrite Forall_cons. intros [Hv Hl]. simpl in *.
    apply fmap_Some in Hd as (d1 & Hd & [= -> ->]).
    destruct (value_text_reads v d1 Hv Hd) as (t & Ht & Hp). destruct (IH Hl) as (ms & Hms & Hr).
    exists ((quote_text k, t) :: ms). split; constructor; auto using quoted_member. }
  exists (obj_text ms). split; [|by apply parse_obj_text]. intros b. unfold appendRow. simpl.
  rewrite (sort_pairs_order map_to_list m (λ _, reflexivity _)).
  rewrite (append_pairs_text _ _ _ ms) by done. f_equal. unfold obj_text.
  assert (member_sep 0 ms = "") as -> by by destruct ms.
  rewrite <-!str_app_assoc. reflexivity.
Qed.

(** The width of every field and the type of every cell. *)
Definition wf_event (e : NomiosEvent) : Prop :=
  wf_cells (Before e) ∧ wf_cells (After e) ∧ wf_meta (EvSource e).

Lemma event_reads e d :
  wf_event e → doc_event e = Some d →
  ∃ t, (∀ b, AppendEvent b e = Ok (b +:+ t)) ∧ parse_json t = Some d.
Proof.
  intros (Hb & Ha & Hs) Hd. unfold doc_event in Hd.
  destruct (doc_row (Before e)) as [db|] eqn:Eb; [|done].
  destruct (doc_row (After e)) as [da|] eqn:Ea; [|done]. simpl in Hd. injection Hd as <-.
  destruct (row_reads _ _ Hb Eb) as (tb & Htb & Hpb).
  destruct (row_reads _ _ Ha Ea) as (ta & Hta & Hpa).
  exists (obj_text [(quote_text "id", quote_text (ID e)); (quote_text "op", quote_text (op_text (EvOp e)));
    (quote_text "before", tb); (quote_text "after", ta);
    (quote_text "source", obj_text (source_members (EvSource e)));
    (quote_text "ts_ms", pretty (UnixMilli (OccurredAt e)))]).
  split.
  - intros b. unfold AppendEvent, AppendEvent_iter. fold appendRow. cbv zeta.
    rewrite Htb, Hta, !appendJSONString_text, appendSource_text. unfold AppendInt, obj_text.
    cbn [members_text]. rewrite <-!str_app_assoc. reflexivity.
  - apply parse_obj_text. repeat constructor; simpl; auto using quote_text_quoted with nomios.
    by apply source_reads.
Qed.
End envelope.

(** ** A concrete formatting and event *)
Definition jsonFmt : GoFmt := {|
  FormatFloat _ _ f :=
    match f with
    | S754_nan => "NaN"
    | S754_infinity s => if s then "-Inf" else "+Inf"
    | S754_zero s => if s then "-0" else "0"
    | S754_finite s m e => pretty (if s then Zneg m else Zpos m)
    end;
  TimeText _ := "2026-01-02 03:04:05 +0000 UTC";
  TimeRFC3339Nano _ := "2026-01-02T03:04:05Z";
|}.

Lemma jsonFmt_laws : @JsonFmtLaws jsonFmt.
Proof.
  split.
  - intros c bits [[]|[]| |[] m e] _ _ Hf; try done; apply number_ok_pretty.
  - done.
Qed.

(** A row with text to escape, a BLOB, a JSON column, a float and NULL. *)
Definition sample_cells : gmap string value :=
  {["id" := VInt64 7; "name" := VString (q "a'\" +:+ str1 (chr 1)); "blob" := VBytes (Some "Man!");
    "doc" := VRaw (Some (q "{'k': [1, null]}")); "f" := VFloat64 (S754_finite false 4503599627370496 (-52));
    "gone" := VNil]}.

Definition sample_meta : SourceMeta := mkSourceMeta "mysql" 1001 "shop" "orders" "u:1" "" 4 0.

Definition sample_event (before after : row) : NomiosEvent :=
  mkEvent "u:1:0" OpUpdate before after sample_meta (mkTime 1 0 0) "shop.orders|7" zeroPosition.

Definition sample_doc : json :=
  JObj [("blob", JStr "TWFuIQ=="); ("doc", JObj [("k", JArr [JNum "1"; JNull])]);
        ("f", JNum "4503599627370496"); ("gone", JNull); ("id", JNum "7");
        ("name", JStr (q "a'\" +:+ str1 (chr 1)))].

(** ** Properties of the envelope *)

(** [C16] The payload is a JSON text, and a reader gets the event back from it: the six
    members in their order, the source fields with the zero ones left out, and
    each row as an object with the columns in the order of their names, each
    value as its document. *)
Theorem envelope_reads_back `{JsonFmtLaws} (e : NomiosEvent) (d : json) :
  wf_event e → doc_event e = Some d →
  ∃ text, Serialize e = Ok (Key e, text) ∧
    (∀ b, AppendEvent b e = Ok (b +:+ text)) ∧ parse_json text = Some d.
Proof.
  intros He Hd. destruct (event_reads e d He Hd) as (t & Ht & Hp). exists t.
  split; [|done]. unfold Serialize. by rewrite Ht.
Qed.

Lemma envelope_reads_back_witness :
  let e := sample_event None (Some sample_cells) in
  let d := JObj [("id", JStr "u:1:0"); ("op", JStr "u"); ("before", JNull); ("after", sample_doc);
    ("source", JObj [("connector", JStr "mysql"); ("server_id", JNum "1001"); ("db", JStr "shop");
       ("table", JStr "orders"); ("gtid", JStr "u:1"); ("pos", JNum "4")]);
    ("ts_ms", JNum "1000")] in
  @doc_event jsonFmt e = Some d ∧
  ∃ text, @Serialize jsonFmt e = Ok (Key e, text) ∧
    (∀ b, @AppendEvent jsonFmt b e = Ok (b +:+ text)) ∧ parse_json text = Some d.
Proof.
  assert (@doc_event jsonFmt (sample_event None (Some sample_cells)) =
    Some (JObj [("id", JStr "u:1:0"); ("op", JStr "u"); ("before", JNull); ("after", sample_doc);
    ("source", JObj [("connector", JStr "mysql"); ("server_id", JNum "1001"); ("db", JStr "shop");
       ("table", JStr "orders"); ("gtid", JStr "u:1"); ("pos", JNum "4")]);
    ("ts_ms", JNum "1000")])) as Hd by (vm_compute; reflexivity).
  split; [exact Hd|]. apply (@envelope_reads_back jsonFmt jsonFmt_laws); [|exact Hd].
  split; [exact I|]. split; [simpl; decide_closed|]. repeat split; simpl; lia.
Defined.

(** [AppendEvent] succeeds exactly when every value of both images has a JSON
    form: no float is NaN or infinite and [json.Marshal] takes every value no fast
    path covers. *)
Theorem AppendEvent_ok_iff `{GoFmt} (b : string) (e : NomiosEvent) :
  is_Ok (AppendEvent b e) ↔ row_encodable (Before e) ∧ row_encodable (After e).
Proof.
  unfold AppendEvent, AppendEvent_iter. fold appendRow. cbv zeta.
  rewrite <-(appendRow_ok (appendJSONString (appendJSONString (b +:+ q "{'id':") (ID e) +:+ q ",'op':")
    (op_text (EvOp e)) +:+ q ",'before':")).
  destruct (appendRow _ (Before e)) as [b1|err]; [|by split; [intros []|intros [[] _]]].
  rewrite <-(appendRow_ok (b1 +:+ q ",'after':")).
  destruct (appendRow _ (After e)) as [b2|err]; [|by split; [intros []|intros [_ []]]].
  split; [by intros _; split; eexists|by eexists].
Qed.

Lemma AppendEvent_total `{GoFmt} (b : string) (e : NomiosEvent) :
  row_encodable (Before e) → row_encodable (After e) → ∃ t, AppendEvent b e = Ok t.
Proof. intros Hb Ha. by apply AppendEvent_ok_iff. Qed.

(** [C32] The payload bytes are deterministic: whatever the order in which the run
    iterates over the row maps, the same event gives the same bytes. *)
Theorem envelope_deterministic `{GoFmt} (order : gmap string value → list kv) (b : string)
    (e : NomiosEvent) :
  iterates order → AppendEvent_iter order b e = AppendEvent b e.
Proof. apply AppendEvent_order. Qed.

Lemma envelope_deterministic_witness :
  @AppendEvent_iter jsonFmt (λ m, reverse (map_to_list m)) "" (sample_event None (Some sample_cells)) =
  @AppendEvent jsonFmt "" (sample_event None (Some sample_cells)).
Proof. apply (@envelope_deterministic jsonFmt). intros m. apply reverse_Permutation. Defined.

(** The stack-array path and the [slices.SortFunc] path of a row agree: on pairs
    with distinct keys the insertion sort is the library's sort by key, a sorted
    permutation. *)
Theorem insertionSort_is_SortFunc (s : list kv) :
  NoDup s.*1 →
  insertionSort s = SortFunc s ∧ insertionSort s ≡ₚ s ∧ StronglySorted kv_le (insertionSort s).
Proof.
  intros Hnd. destruct (insertionSort_spec s) as [Hp Hs]. split; [|done].
  apply kv_sorted_unique; [by rewrite Hp|done|apply (StronglySorted_merge_sort _)|].
  unfold SortFunc. by rewrite Hp, merge_sort_Permutation.
Qed.

Lemma insertionSort_is_SortFunc_witness :
  let s := [("c", VInt 1); ("a", VInt 2); ("b", VInt 3)] in
  insertionSort s = [("a", VInt 2); ("b", VInt 3); ("c", VInt 1)] ∧
  insertionSort s = SortFunc s ∧ insertionSort s ≡ₚ s ∧ StronglySorted kv_le (insertionSort s).
Proof. split; [reflexivity|]. apply insertionSort_is_SortFunc. decide_closed. Defined.

(** A quoted string reads back byte for byte, whatever bytes it holds and
    whatever follows it. *)
Theorem appendJSONString_reads_back (b s rest : string) :
  ∃ t, appendJSONString b s +:+ rest = b +:+ String dquote t ∧ parse_chars t = Some (s, rest).
Proof.
  exists (escape_text s +:+ String dquote rest). split; [|apply parse_escape_text].
  rewrite appendJSONString_text. unfold quote_text. by rewrite <-!str_app_assoc.
Qed.

(** A BLOB is written as its base64 text, which decodes to the same bytes and
    fills the reserved space exactly. *)
Theorem blob_reads_back `{GoFmt} (b x : string) :
  ∃ t, appendValue b (VBytes (Some x)) = Ok (b +:+ str1 dquote +:+ t +:+ str1 dquote) ∧
    b64_decode t = Some x ∧ String.length t = EncodedLen (String.length x).
Proof.
  exists (b64_encode x). split_and!; [done|apply b64_decode_encode|apply b64_encode_length].
Qed.
