(* ===== verification/Store.v ===== *)
(** * Package state: the stores of committed positions

    [FileStore] of pkg/state/store.go over a file system with an atomic rename,
    and [MySQLStore] of pkg/state/mysqlstore.go over a connection to a server.
    Both keep one position per hyperloop; [Load] of a hyperloop that was never
    saved is the zero position. *)

From S2P Require Import Prelude GoStd GoText State JsonText Json.

(** ** encoding/json of a Position

    [json.Marshal] escapes some more bytes than the serializer; the texts are
    ASCII, so no byte is replaced. *)
Definition marshal_byte (c : ascii) : string :=
  if decide (c = dquote ∨ c = bslash) then String bslash (str1 c)
  else if decide (c = chr 8) then "\b"
  else if decide (c = chr 12) then "\f"
  else if decide (c = chr 10) then "\n"
  else if decide (c = chr 13) then "\r"
  else if decide (c = chr 9) then "\t"
  else if decide (byte_val c < 0x20 ∨ c = "<"%char ∨ c = ">"%char ∨ c = "&"%char)%Z
  then "\u00" +:+ String (hex_at (byte_val c / 16)) (str1 (hex_at (byte_val c mod 16)))
  else str1 c.

Fixpoint marshal_bytes (s : string) : string :=
  match s with "" => "" | String c s => marshal_byte c +:+ marshal_bytes s end.

Definition marshal_string (s : string) : string := str1 dquote +:+ marshal_bytes s +:+ str1 dquote.

(** The members of [Position]'s tags, the zero values left out. *)
Definition position_members (p : Position) : list (string * string) :=
  (if decide (GTIDSet p = "") then [] else [(marshal_string "gtid_set", marshal_string (GTIDSet p))]) ++
  (if decide (File p = "") then [] else [(marshal_string "file", marshal_string (File p))]) ++
  (if decide (Offset p = 0%Z) then [] else [(marshal_string "offset", pretty (Offset p))]) ++
  (if decide (SeqNo p = 0%Z) then [] else [(marshal_string "seq_no", pretty (SeqNo p))]).

Definition marshal_Position (p : Position) : string := obj_text (position_members p).

(** An unsigned decimal number below [bound]. *)
Fixpoint digits_val (acc : Z) (s : string) : option Z :=
  match s with
  | "" => Some acc
  | String c s => if is_digit c then digits_val (acc * 10 + (byte_val c - 48)) s else None
  end.

Definition read_uint (bound : Z) (s : string) : option Z :=
  z ← digits_val 0 s; if decide (z < bound)%Z then Some z else None.

(** One member stored into the struct; other names are ignored.  Names are compared
    exactly, as [marshal_Position] writes them; Go also accepts them in another case. *)
Definition set_field (p : Position) (m : string * json) : option Position :=
  match m with
  | (_, JNull) => Some p
  | (k, v) =>
      if decide (k = "gtid_set") then
        match v with JStr x => Some (mkPosition x (File p) (Offset p) (SeqNo p)) | _ => None end
      else if decide (k = "file") then
        match v with JStr x => Some (mkPosition (GTIDSet p) x (Offset p) (SeqNo p)) | _ => None end
      else if decide (k = "offset") then
        match v with
        | JNum x => z ← read_uint (2 ^ 32) x; Some (mkPosition (GTIDSet p) (File p) z (SeqNo p))
        | _ => None
        end
      else if decide (k = "seq_no") then
        match v with
        | JNum x => z ← read_uint (2 ^ 64) x; Some (mkPosition (GTIDSet p) (File p) (Offset p) z)
        | _ => None
        end
      else Some p
  end.

(** [json.Unmarshal] into a zero [Position]. *)
Definition unmarshal_Position (b : string) : option Position :=
  match parse_json b with
  | Some (JObj l) => foldl (λ p m, p ← p; set_field p m) (Some zeroPosition) l
  | Some JNull => Some zeroPosition
  | _ => None
  end.

(** The fields at their widths, the texts ASCII. *)
Definition is_ascii (c : ascii) : bool := Z.ltb (byte_val c) 128.

Definition wf_position (p : Position) : bool :=
  bool_decide (0 ≤ Offset p < 2 ^ 32)%Z && bool_decide (0 ≤ SeqNo p < 2 ^ 64)%Z &&
  str_forallb is_ascii (GTIDSet p) && str_forallb is_ascii (File p).

(** ** FileStore *)

(** [filepath.Join] of a clean directory and a name without slashes. *)
Definition no_slash (id : string) : bool := str_forallb (λ c, bool_decide (c ≠ "/"%char)) id.

Definition Join (dir name : string) : string := dir +:+ "/" +:+ name.

Definition path (dir id : string) : string := Join dir (id +:+ ".json").
Definition tmp_path (dir id : string) : string := path dir id +:+ ".tmp".

(** The files by name. *)
Abbreviation files := (gmap string string).

(** [NewFileStore]: with what [os.MkdirAll] returned. *)
Definition NewFileStore (mkdir : option goerr) : option goerr := EWrap "state: create dir" <$> mkdir.

(** [Load]: [io] is the error of [os.ReadFile] on a file that exists. *)
Definition FileStore_Load (dir id : string) (io : option goerr) (fs : files) : result Position :=
  match fs !! path dir id with
  | None => Ok zeroPosition
  | Some b =>
      match io with
      | Some e => Err (EWrap "state: read" e)
      | None =>
          match unmarshal_Position b with
          | Some p => Ok p
          | None => Err (EText "state: decode")
          end
      end
  end.

(** [Save], between its calls of the file system. *)
Inductive save_pc :=
  | FSWrite                        (* before [os.WriteFile(tmp)] *)
  | FSRename                       (* before [os.Rename] *)
  | FSReturned (r : option goerr).

Record save_call := mkSave {
  sv_id : string;
  sv_pos : Position;
  sv_pc : save_pc;
}.

Record fstate := mkF {
  f_files : files;
  f_call : option save_call;           (* the one holder of the mutex *)
  f_committed : gmap string Position;  (* observation: the last rename per id *)
}.

Inductive flabel :=
  | FSave (id : string) (p : Position)
  | FWriteOk
  | FWriteErr (partial : option string) (e : goerr) (* what the failed write left *)
  | FRenameOk
  | FRenameErr (e : goerr)
  | FCrash (partial : option string).   (* the process dies, perhaps in the write *)

Definition write_partial (dir id : string) (partial : option string) (fs : files) : files :=
  match partial with Some b => <[tmp_path dir id := b]> fs | None => fs end.

Definition fstep (dir : string) (l : flabel) (s : fstate) : option fstate :=
  match l, f_call s with
  | FSave id p, (None | Some (mkSave _ _ (FSReturned _))) =>
      if no_slash id && wf_position p
      then Some (mkF (f_files s) (Some (mkSave id p FSWrite)) (f_committed s)) else None
  | FWriteOk, Some (mkSave id p FSWrite) =>
      Some (mkF (<[tmp_path dir id := marshal_Position p]> (f_files s))
              (Some (mkSave id p FSRename)) (f_committed s))
  | FWriteErr partial e, Some (mkSave id p FSWrite) =>
      Some (mkF (write_partial dir id partial (f_files s))
              (Some (mkSave id p (FSReturned (Some (EWrap "state: write" e))))) (f_committed s))
  | FRenameOk, Some (mkSave id p FSRename) =>
      b ← f_files s !! tmp_path dir id;
      Some (mkF (<[path dir id := b]> (delete (tmp_path dir id) (f_files s)))
              (Some (mkSave id p (FSReturned None))) (<[id := p]> (f_committed s)))
  | FRenameErr e, Some (mkSave id p FSRename) =>
      Some (mkF (f_files s) (Some (mkSave id p (FSReturned (Some e)))) (f_committed s))
  | FCrash partial, Some (mkSave id p FSWrite) =>
      Some (mkF (write_partial dir id partial (f_files s)) None (f_committed s))
  | FCrash None, _ => Some (mkF (f_files s) None (f_committed s))
  | _, _ => None
  end.

(** A new directory. *)
Definition finit : fstate := mkF ∅ None ∅.

(** ** MySQLStore *)

(** A row of nomios_state. *)
Record state_row := mkRow {
  row_gtid_set : string;
  row_binlog_file : string;
  row_binlog_pos : Z;
  row_seq_no : Z;
}.

Inductive statement :=
  | CreateTable
  | SelectRow (id : string)
  | ReplaceRow (id : string) (r : state_row).

(** The connection, as the client library gives it. *)
Class StateServer (W : Type) := {
  ExecuteState : statement → W → result (list state_row) * W;
  ConnectState : W → option goerr * W;
}.

Section mysql_store.
Context {W : Type} `{StateServer W}.

Definition state_reconnect (addr : string) (w : W) : option goerr * W :=
  let '(e, w) := ConnectState w in
  ((λ e, EWrap ("state: connect " +:+ addr) e) <$> e, w).

Definition NewMySQLStore (addr : string) (w : W) : option goerr * W :=
  match state_reconnect addr w with
  | (Some e, w) => (Some e, w)
  | (None, w) =>
      match ExecuteState CreateTable w with
      | (Err e, w) => (Some (EWrap "state: create table" e), w)
      | (Ok _, w) => (None, w)
      end
  end.

Definition execute (addr : string) (q : statement) (w : W) : result (list state_row) * W :=
  match ExecuteState q w with
  | (Ok r, w) => (Ok r, w)
  | (Err e, w) =>
      match state_reconnect addr w with
      | (Some _, w) => (Err e, w)
      | (None, w) => ExecuteState q w
      end
  end.

Definition MySQLStore_Load (addr id : string) (w : W) : result Position * W :=
  match execute addr (SelectRow id) w with
  | (Err e, w) => (Err (EWrap "state: load" e), w)
  | (Ok [], w) => (Ok zeroPosition, w)
  | (Ok (r :: _), w) =>
      (Ok (mkPosition (row_gtid_set r) (row_binlog_file r) (u32 (row_binlog_pos r)) (row_seq_no r)), w)
  end.

(** The parameters of the statement, converted to int64. *)
Definition row_of (p : Position) : state_row :=
  mkRow (GTIDSet p) (File p) (i64 (Offset p)) (i64 (SeqNo p)).

Definition MySQLStore_Save (addr id : string) (p : Position) (w : W) : option goerr * W :=
  match execute addr (ReplaceRow id (row_of p)) w with
  | (Err e, w) => (Some (EWrap "state: save" e), w)
  | (Ok _, w) => (None, w)
  end.
End mysql_store.

(** ** A position reads back *)
Lemma parse_marshal_byte c s :
  parse_chars (marshal_byte c +:+ s) = prepend (str1 c) (parse_chars s).
Proof. destruct c as [[] [] [] [] [] [] [] []]; reflexivity. Qed.

Lemma parse_marshal_bytes s t : parse_chars (marshal_bytes s +:+ String dquote t) = Some (s, t).
Proof.
  induction s as [|c s IH]; [done|]. cbn [marshal_bytes]. rewrite <-str_app_assoc.
  rewrite parse_marshal_byte, IH. done.
Qed.

Lemma marshal_string_quoted s : quoted (marshal_string s) s.
Proof.
  unfold marshal_string. rewrite str_app_cons, str_app_nil_l. eexists. split; [done|].
  apply (parse_marshal_bytes s "").
Qed.

Lemma digits_val_app acc s t : digits_val acc (s +:+ t) = z ← digits_val acc s; digits_val z t.
Proof.
  revert acc. induction s as [|c s IH]; intros acc; [done|]. rewrite str_app_cons. simpl.
  destruct (is_digit c); [apply IH|done].
Qed.

Lemma pretty_N_go_app x s : pretty_N_go x s = pretty_N_go x "" +:+ s.
Proof.
  revert s. induction (N.lt_wf_0 x) as [x _ IH]; intros s.
  assert (x = 0 ∨ 0 < x)%N as [->|?] by lia; [by rewrite !pretty_N_go_0|].
  rewrite !(pretty_N_go_step x) by done.
  assert (x `div` 10 < x)%N as Hlt by (by apply N.div_lt).
  rewrite (IH _ Hlt (String _ s)), (IH _ Hlt (str1 _)).
  by rewrite <-str_app_assoc.
Qed.

Lemma pretty_N_char_val x :
  (x < 10)%N → is_digit (pretty_N_char x) = true ∧ byte_val (pretty_N_char x) = (48 + Z.of_N x)%Z.
Proof.
  intros Hx. assert (x ∈ N.of_nat <$> seq 0 10) as Hin.
  { apply list_elem_of_fmap. exists (N.to_nat x). rewrite elem_of_seq. lia. }
  revert x Hin Hx.
  assert (Forall (λ x, is_digit (pretty_N_char x) = true ∧ byte_val (pretty_N_char x) = (48 + Z.of_N x)%Z)
    (N.of_nat <$> seq 0 10)) as Hall by decide_closed.
  rewrite Forall_forall in Hall. intros x Hin _. by apply Hall.
Qed.

Lemma digits_val_pretty_go x : digits_val 0 (pretty_N_go x "") = Some (Z.of_N x).
Proof.
  induction (N.lt_wf_0 x) as [x _ IH].
  assert (x = 0 ∨ 0 < x)%N as [->|?] by lia; [done|].
  rewrite pretty_N_go_step, pretty_N_go_app, digits_val_app by done.
  rewrite IH by (by apply N.div_lt). simpl.
  destruct (pretty_N_char_val (x mod 10)) as [-> ->]; [by apply N.mod_lt|]. f_equal.
  pose proof (N.div_mod x 10). lia.
Qed.

Lemma read_uint_pretty bound z : (0 ≤ z < bound)%Z → read_uint bound (pretty z) = Some z.
Proof.
  intros Hz. unfold read_uint. assert (digits_val 0 (pretty z) = Some z) as ->.
  { destruct z as [|p|p]; [done| |lia]. change (pretty (Z.pos p)) with (pretty (N.pos p)).
    change (pretty (N.pos p)) with (pretty_N_go (N.pos p) ""). apply digits_val_pretty_go. }
  simpl. by rewrite decide_True by lia.
Qed.

(** The members as documents. *)
Definition position_docs (p : Position) : list (string * json) :=
  (if decide (GTIDSet p = "") then [] else [("gtid_set", JStr (GTIDSet p))]) ++
  (if decide (File p = "") then [] else [("file", JStr (File p))]) ++
  (if decide (Offset p = 0%Z) then [] else [("offset", JNum (pretty (Offset p)))]) ++
  (if decide (SeqNo p = 0%Z) then [] else [("seq_no", JNum (pretty (SeqNo p)))]).

Lemma position_members_read p : Forall2 member_reads (position_members p) (position_docs p).
Proof.
  assert (∀ k t d, parse_json t = Some d → Forall2 member_reads [(marshal_string k, t)] [(k, d)]) as H1.
  { intros k t d Ht. repeat constructor; [apply marshal_string_quoted|done]. }
  assert (∀ s, parse_json (marshal_string s) = Some (JStr s)) as Hs.
  { intros s. apply quoted_value, marshal_string_quoted. }
  unfold position_members, position_docs.
  repeat apply Forall2_app; case_decide; (apply Forall2_nil_2 || apply H1); auto using number_pretty.
Qed.

Lemma unmarshal_marshal p : wf_position p = true → unmarshal_Position (marshal_Position p) = Some p.
Proof.
  unfold wf_position. rewrite !andb_true_iff, !bool_decide_eq_true. intros [[[Ho Hs] _] _].
  unfold unmarshal_Position, marshal_Position.
  rewrite (parse_obj_text _ _ (position_members_read p)). unfold position_docs.
  destruct p as [g f o n]. simpl in *.
  repeat case_decide; simplify_eq/=; rewrite ?read_uint_pretty by done; simpl;
    rewrite ?read_uint_pretty by done; simpl; by subst.
Qed.

(** ** The file store keeps whole positions *)

Lemma str_suffix_inj (s1 s2 t : string) : s1 +:+ t = s2 +:+ t → s1 = s2.
Proof.
  intros Heq. assert (String.length s1 = String.length s2) as Hl.
  { apply (f_equal String.length) in Heq. rewrite !str_length_app in Heq. lia. }
  by apply str_app_inj in Heq as [-> _].
Qed.

#[export] Instance path_inj dir : Inj (=) (=) (path dir).
Proof. unfold path, Join. intros i j H%str_app_inv_l%str_app_inv_l. by apply str_suffix_inj in H. Qed.

(** A temporary file is nobody's state file. *)
Lemma tmp_path_ne dir id id' : tmp_path dir id ≠ path dir id'.
Proof.
  unfold tmp_path, path, Join. rewrite <-!str_app_assoc. intros H%str_app_inv_l%str_app_inv_l.
  assert (∀ s, String.length (s +:+ ".json" +:+ ".tmp") = (String.length s + 9)%nat) as Hl1
    by (intros s; rewrite !str_length_app; simpl; lia).
  change (id +:+ ".jso" +:+ "n.tmp" = id' +:+ ".json") in H.
  assert (id +:+ ".jso" +:+ "n.tmp" = (id +:+ ".jso") +:+ "n.tmp") as E by (by rewrite str_app_assoc).
  rewrite E in H. apply str_app_inj in H as [_ H]; [done|].
  apply (f_equal String.length) in H. rewrite !str_length_app in H. rewrite str_length_app. simpl in *. lia.
Qed.

Definition call_ok (dir : string) (s : fstate) : Prop :=
  match f_call s with
  | Some (mkSave id p FSWrite) => wf_position p = true
  | Some (mkSave id p FSRename) =>
      wf_position p = true ∧ f_files s !! tmp_path dir id = Some (marshal_Position p)
  | _ => True
  end.

Definition store_inv (dir : string) (s : fstate) : Prop :=
  (∀ id, f_files s !! path dir id = marshal_Position <$> f_committed s !! id) ∧
  map_Forall (λ _ p, wf_position p = true) (f_committed s) ∧ call_ok dir s.

Lemma write_tmp_path dir id id' b (fs : files) : <[tmp_path dir id := b]> fs !! path dir id' = fs !! path dir id'.
Proof. apply lookup_insert_ne, tmp_path_ne. Qed.

Lemma write_partial_path dir id id' b fs : write_partial dir id b fs !! path dir id' = fs !! path dir id'.
Proof. destruct b; [apply write_tmp_path|done]. Qed.

Lemma fstep_inv dir l s s' : store_inv dir s → fstep dir l s = Some s' → store_inv dir s'.
Proof.
  intros (Hf & Hw & Hc) Hstep. unfold call_ok in Hc. destruct s as [fs call com]. simpl in *.
  assert (∀ b id pc, (∀ fs', fs' = write_partial dir id b fs → store_inv dir (mkF fs' pc com)) ↔
    call_ok dir (mkF (write_partial dir id b fs) pc com)) as Hpart.
  { intros b id pc. split; [intros Hi; by destruct (Hi _ eq_refl) as (_ & _ & ?)|].
    intros Hok fs' ->. split_and!; [|done..]. intros id'. simpl. by rewrite write_partial_path. }
  destruct l as [id p| |b e| |e|b], call as [[id1 p1 [| |r]]|]; simpl in Hstep; try discriminate Hstep.
  - destruct (no_slash id && wf_position p) eqn:E; [|done]. injection Hstep as <-.
    apply andb_true_iff in E as [_ E]. done.
  - destruct (no_slash id && wf_position p) eqn:E; [|done]. injection Hstep as <-.
    apply andb_true_iff in E as [_ E]. done.
  - injection Hstep as <-. split_and!; [|done|].
    + intros id'. simpl. by rewrite write_tmp_path.
    + split; [done|]. simpl. by rewrite lookup_insert_eq.
  - injection Hstep as <-. by eapply Hpart.
  - destruct Hc as [Hp1 Hc]. rewrite Hc in Hstep. injection Hstep as <-. split_and!; [| |done].
    + intros id'. simpl. destruct (decide (id' = id1)) as [->|Hne]; [by rewrite !lookup_insert_eq|].
      rewrite !lookup_insert_ne by (by try intros ?%(inj _)).
      rewrite lookup_delete_ne by apply tmp_path_ne. apply Hf.
    + by apply map_Forall_insert_2.
  - injection Hstep as <-. done.
  - destruct b as [b|]; injection Hstep as <-; [by apply (Hpart (Some b) id1)|by apply (Hpart None id1)].
  - destruct b; [done|]. by injection Hstep as <-.
  - destruct b; [done|]. by injection Hstep as <-.
  - destruct b; [done|]. by injection Hstep as <-.
Qed.

Lemma reach_store_inv dir s : reachable (fstep dir) finit s → store_inv dir s.
Proof.
  apply reachable_invariant; [|intros l s1 s2; apply fstep_inv].
  split_and!; [done|apply map_Forall_empty|done].
Qed.

Lemma Load_committed dir s id :
  store_inv dir s →
  FileStore_Load dir id None (f_files s) = Ok (default zeroPosition (f_committed s !! id)).
Proof.
  intros (Hf & Hw & _). unfold FileStore_Load. rewrite Hf.
  destruct (f_committed s !! id) as [p|] eqn:E; simpl; [|done].
  by rewrite unmarshal_marshal by (by apply (Hw id)).
Qed.

(** What one save does to what is stored, wherever it stops. *)
Definition is_save (l : flabel) : bool := match l with FSave _ _ => true | _ => false end.

Definition during (id : string) (p : Position) (com : gmap string Position) (s : fstate) : Prop :=
  (f_committed s = com ∧ (f_call s = None ∨ ∃ pc, f_call s = Some (mkSave id p pc) ∧ pc ≠ FSReturned None)) ∨
  (f_committed s = <[id := p]> com ∧ (f_call s = None ∨ f_call s = Some (mkSave id p (FSReturned None)))).

Lemma during_step dir id p com l s s' :
  during id p com s → is_save l = false → fstep dir l s = Some s' → during id p com s'.
Proof.
  unfold during. intros Hd Hl Hstep. destruct s as [fs call com']. simpl in *.
  destruct Hd as [[-> Hd]|[-> Hd]].
  - destruct l as [?|  |b e| |e|b]; try done; destruct Hd as [->|(pc & -> & Hpc)]; try done;
      try (destruct pc as [| |[r|]]); simpl in Hstep; try done; try (destruct b; try done);
      simplify_eq/=; try (left; split; [done|]; first [by left|right; by eexists]).
    + destruct (fs !! tmp_path dir id); [|done]. simplify_eq/=. right. split; [done|by right].
  - destruct l as [?|  |b e| |e|b]; try done; destruct Hd as [->| ->]; simpl in Hstep; try done;
      destruct b; simplify_eq/=; right; (split; [done|by left]).
Qed.

Lemma during_run dir id p com ls s s' :
  during id p com s → Forall (λ l, is_save l = false) ls → run_labels (fstep dir) ls s = Some s' →
  during id p com s'.
Proof.
  intros Hd Hl. revert s Hd. induction Hl as [|l ls Hl _ IH]; intros s Hd Hrun; [by injection Hrun as <-|].
  simpl in Hrun. destruct (fstep dir l s) as [s1|] eqn:E; [|done]. simpl in Hrun.
  eapply IH; [|exact Hrun]. by eapply during_step.
Qed.

(** ** The MySQL store: what it relies on *)

(** The server keeps a table by identifier; a failed statement may have been
    executed, its answer lost. *)
Class StateTable (W : Type) `{StateServer W} := {
  state_table : W → gmap string state_row;
  select_answer : ∀ id w a w', ExecuteState (SelectRow id) w = (a, w') →
    state_table w' = state_table w ∧ ∀ rows, a = Ok rows → rows = option_list (state_table w !! id);
  replace_answer : ∀ id r w a w',
    (0 ≤ row_binlog_pos r)%Z → (0 ≤ row_seq_no r)%Z → ExecuteState (ReplaceRow id r) w = (a, w') →
    state_table w' = <[id := r]> (state_table w) ∨
    state_table w' = state_table w ∧ ∃ e, a = Err e;
  connect_table : ∀ w, state_table (ConnectState w).2 = state_table w;
}.

Section mysql_facts.
Context {W : Type} `{StateTable W}.

(** The position a row stands for. *)
Definition row_position (r : state_row) : Position :=
  mkPosition (row_gtid_set r) (row_binlog_file r) (u32 (row_binlog_pos r)) (row_seq_no r).

Definition stored (w : W) (id : string) : Position :=
  default zeroPosition (row_position <$> state_table w !! id).

Lemma reconnect_table addr w : state_table (state_reconnect addr w).2 = state_table w.
Proof.
  unfold state_reconnect. pose proof (connect_table w) as Hc. by destruct (ConnectState w).
Qed.

Lemma execute_select addr id w a w' :
  execute addr (SelectRow id) w = (a, w') →
  state_table w' = state_table w ∧ ∀ rows, a = Ok rows → rows = option_list (state_table w !! id).
Proof.
  unfold execute. destruct (ExecuteState (SelectRow id) w) as [[rows|e] w1] eqn:E1.
  - intros [= <- <-]. by apply select_answer.
  - apply select_answer in E1 as [Ht1 _]. pose proof (reconnect_table addr w1) as Hr.
    destruct (state_reconnect addr w1) as [[e'|] w2]; simpl in Hr.
    + intros [= <- <-]. split; [congruence|done].
    + intros E2. apply select_answer in E2 as [Ht2 Ha]. split; [congruence|].
      intros rows Hrows. rewrite (Ha rows Hrows). by rewrite Hr, Ht1.
Qed.

Lemma execute_replace addr id r w a w' :
  (0 ≤ row_binlog_pos r)%Z → (0 ≤ row_seq_no r)%Z → execute addr (ReplaceRow id r) w = (a, w') →
  state_table w' = <[id := r]> (state_table w) ∨ state_table w' = state_table w ∧ ∃ e, a = Err e.
Proof.
  intros Hp Hs. unfold execute. destruct (ExecuteState (ReplaceRow id r) w) as [a1 w1] eqn:E1.
  pose proof (replace_answer id r w a1 w1 Hp Hs E1) as H1.
  destruct a1 as [rows|e].
  - by intros [= <- <-].
  - pose proof (reconnect_table addr w1) as Hr.
    destruct (state_reconnect addr w1) as [[e'|] w2]; simpl in Hr.
    + intros [= <- <-]. rewrite Hr. destruct H1 as [H1|[H1 _]]; eauto.
    + intros E2. pose proof (replace_answer id r w2 a w' Hp Hs E2) as [->|[-> He]]; rewrite Hr.
      * left. destruct H1 as [-> | [-> _]]; [by rewrite insert_insert_eq|done].
      * destruct H1 as [-> | [-> _]]; eauto.
Qed.

Lemma Load_stored addr id w q w' :
  MySQLStore_Load addr id w = (Ok q, w') → q = stored w id ∧ state_table w' = state_table w.
Proof.
  unfold MySQLStore_Load. destruct (execute addr (SelectRow id) w) as [a w1] eqn:E.
  apply execute_select in E as [Ht Ha]. destruct a as [rows|e]; [|done].
  specialize (Ha rows eq_refl). unfold stored. subst rows.
  destruct (state_table w !! id) as [r|]; simpl; by intros [= <- <-].
Qed.

Lemma row_position_of p :
  wf_position p = true → (SeqNo p < 2 ^ 63)%Z →
  row_position (row_of p) = p ∧ (0 ≤ row_binlog_pos (row_of p))%Z ∧ (0 ≤ row_seq_no (row_of p))%Z.
Proof.
  unfold wf_position. rewrite !andb_true_iff, !bool_decide_eq_true. intros [[[Ho Hs] _] _] Hlt.
  unfold row_position, row_of. simpl. rewrite !i64_small, u32_small by lia.
  split_and!; [by destruct p|lia|lia].
Qed.
End mysql_facts.

(** ** Concrete stores *)
Definition sample_position : Position := mkPosition "u:1-5" "bin.000001" 120 7.

Definition sample_file_save : list flabel := [FSave "a" sample_position; FWriteOk; FRenameOk].
Definition sample_next_position : Position := mkPosition "u:1-6" "bin.000001" 240 9.
(** The process dies within the write of the next save. *)
Definition sample_crash : list flabel := [FCrash (Some "{")].

Definition sample_saved : fstate :=
  default finit (run_labels (fstep "/var") (sample_file_save ++ [FSave "a" sample_next_position]) finit).
Definition sample_crashed : fstate := default finit (run_labels (fstep "/var") sample_crash sample_saved).

(** A table behind a connection; the flags say which statements lose their
    answer after they were executed. *)
#[export] Instance sampleStateServer : StateServer (gmap string state_row * list bool) := {|
  ExecuteState q w :=
    let '(t, flags) := w in
    let '(lost, flags) := match flags with [] => (false, []) | b :: bs => (b, bs) end in
    let '(a, t) :=
      match q with
      | CreateTable => ([], t)
      | SelectRow id => (option_list (t !! id), t)
      | ReplaceRow id r => ([], <[id := r]> t)
      end in
    (if lost : bool then Err (EText "connection lost") else Ok a, (t, flags));
  ConnectState w := (None, w);
|}.

#[export] Instance sampleStateTable : StateTable (gmap string state_row * list bool).
Proof.
  refine {| state_table := fst |}; [| |done].
  - intros id [t [|[] flags]] a w'; simpl; intros [= <- <-]; split; try done; by intros ? [= <-].
  - intros id r [t [|[] flags]] a w' _ _; simpl; intros [= <- <-]; by left.
Defined.

(** ** Properties of the stores *)

(** [C23] A saved position is never torn: from the moment [FileStore.Save] begins,
    wherever it fails or the process dies — also within the write — [Load]
    answers the old position or the new one, the new one once [Save] has returned
    nil, and no other hyperloop's position changes. *)
Theorem file_save_atomic (dir : string) (ls : list flabel) (s s' : fstate) (id : string) (p : Position) :
  reachable (fstep dir) finit s → f_call s = Some (mkSave id p FSWrite) →
  Forall (λ l, is_save l = false) ls → run_labels (fstep dir) ls s = Some s' →
  (FileStore_Load dir id None (f_files s') = Ok p ∨
   FileStore_Load dir id None (f_files s') = FileStore_Load dir id None (f_files s) ∧
   f_call s' ≠ Some (mkSave id p (FSReturned None))) ∧
  (∀ id', id' ≠ id →
     FileStore_Load dir id' None (f_files s') = FileStore_Load dir id' None (f_files s)) ∧
  is_Ok (FileStore_Load dir id None (f_files s)).
Proof.
  intros Hs Hc Hl Hrun. pose proof (reach_store_inv dir s Hs) as Hinv.
  assert (store_inv dir s') as Hinv'.
  { eapply run_labels_invariant; [|exact Hinv|exact Hrun]. intros l s1 s2. apply fstep_inv. }
  assert (during id p (f_committed s) s') as Hd.
  { eapply during_run; [|exact Hl|exact Hrun]. left. split; [done|]. right. by eexists. }
  rewrite !(Load_committed dir s') by done. rewrite !(Load_committed dir s) by done.
  setoid_rewrite (Load_committed dir s); [|done]. setoid_rewrite (Load_committed dir s'); [|done].
  split_and!; [| |by eexists].
  - destruct Hd as [[-> Hpc]|[-> _]]; [right|left; by rewrite lookup_insert_eq].
    split; [done|]. destruct Hpc as [->|(pc & -> & ?)]; congruence.
  - intros id' Hne. destruct Hd as [[-> _]|[-> _]]; [done|]. by rewrite lookup_insert_ne.
Qed.

Lemma file_save_atomic_witness :
  FileStore_Load "/var" "a" None (f_files sample_crashed) = Ok sample_position ∧
  (FileStore_Load "/var" "a" None (f_files sample_crashed) = Ok sample_next_position ∨
   FileStore_Load "/var" "a" None (f_files sample_crashed) =
     FileStore_Load "/var" "a" None (f_files sample_saved) ∧
   f_call sample_crashed ≠ Some (mkSave "a" sample_next_position (FSReturned None))) ∧
  (∀ id', id' ≠ "a" →
     FileStore_Load "/var" id' None (f_files sample_crashed) =
     FileStore_Load "/var" id' None (f_files sample_saved)) ∧
  is_Ok (FileStore_Load "/var" "a" None (f_files sample_saved)).
Proof.
  split; [vm_compute; reflexivity|].
  apply (file_save_atomic "/var" sample_crash sample_saved sample_crashed "a" sample_next_position).
  - apply (run_labels_reachable _ (sample_file_save ++ [FSave "a" sample_next_position])).
    vm_compute. reflexivity.
  - vm_compute. reflexivity.
  - repeat constructor.
  - vm_compute. reflexivity.
Defined.

(** [C34] The MySQL store: after a [Save] that returned nil [Load] answers that
    position, after one that failed the old or the new one — also when the first
    attempt was executed, its answer lost, and the statement repeated after the
    reconnect — and no other hyperloop's row changes. *)
Theorem mysql_save_load `{StateTable W} (addr id id' : string) (p q : Position) (w w1 w2 : W)
    (r : option goerr) :
  wf_position p = true → (SeqNo p < 2 ^ 63)%Z →
  MySQLStore_Save addr id p w = (r, w1) → MySQLStore_Load addr id' w1 = (Ok q, w2) →
  (id' ≠ id → q = stored w id') ∧
  (id' = id → q = p ∨ q = stored w id ∧ r ≠ None).
Proof.
  intros Hp Hs Hsave Hload. destruct (row_position_of p Hp Hs) as (Hrow & H1 & H2).
  apply Load_stored in Hload as [-> _]. unfold MySQLStore_Save in Hsave.
  destruct (execute addr (ReplaceRow id (row_of p)) w) as [a w'] eqn:E.
  assert (w1 = w') as -> by (by destruct a; simplify_eq).
  destruct (execute_replace addr id (row_of p) w a w' H1 H2 E) as [Ht|[Ht [e ->]]];
    unfold stored; rewrite Ht; split; intros Hid.
  - by rewrite lookup_insert_ne.
  - subst id'. rewrite lookup_insert_eq. simpl. rewrite Hrow. by left.
  - done.
  - subst id'. right. split; [done|]. by simplify_eq.
Qed.

Lemma mysql_save_load_witness :
  let w : gmap string state_row * list bool := (∅, [true]) in
  MySQLStore_Save "db:3306" "a" sample_position w =
    (None, ({["a" := mkRow "u:1-5" "bin.000001" 120 7]}, [])) ∧
  ("a" ≠ "a" → sample_position = stored w "a") ∧
  ("a" = "a" → sample_position = sample_position ∨ sample_position = stored w "a" ∧ @None goerr ≠ None).
Proof.
  split; [vm_compute; reflexivity|].
  apply (mysql_save_load "db:3306" "a" "a" sample_position sample_position (∅, [true])
    ({["a" := mkRow "u:1-5" "bin.000001" 120 7]}, [])
    ({["a" := mkRow "u:1-5" "bin.000001" 120 7]}, []) None); vm_compute; reflexivity.
Defined.
