(* ===== verification/Server.v ===== *)
(** * Package server: the control plane

    [Manager] of pkg/server/server.go: the registry of hyperloops, the goroutine
    that runs one and restarts it after a failure, and [Stop], as a labelled
    transition system; the HTTP handlers as functions on its state.  What happens
    inside [hyperloop.Run] is the subject of Hyperloop.v; here it is entered,
    changes the status, and returns. *)

From S2P Require Import Prelude GoStd Hyperloop.

(** ** Data *)
Definition nanosecond_minute : Z := 60000000000.

(** [MaxRestarts] and [RestartBackoff], with [NewManager]'s values. *)
Record Policy := mkPolicy { MaxRestarts : Z; RestartBackoff : Z }.
Definition NewManager_policy : Policy := mkPolicy 5 1000000000.

(** The goroutine [Start] launches. *)
Inductive runner_pc :=
  | RLoop (attempt backoff : Z)                    (* before [hl.Run(ctx)] *)
  | RIn (attempt backoff : Z)                      (* inside *)
  | ROut (attempt backoff : Z) (err : option goerr) (* [Run] returned *)
  | RWait (attempt backoff : Z)                    (* the select on the timer and ctx *)
  | RExit                                          (* before the deferred [close(done)] *)
  | RDone.

Record runner := mkRunner {
  r_pc : runner_pc;
  r_cancelled : bool;             (* its context *)
  (* observations *)
  r_rets : list (option goerr);   (* what [Run] returned, in order *)
  r_waits : list Z;               (* the backoffs waited, in order *)
}.

(** One registered hyperloop: the status it reports and the goroutines started
    for it; [cancel] and [done] are those of the last one. *)
Record managed := mkManaged {
  m_status : Status;
  m_runs : list runner;
}.

Inductive stop_pc :=
  | SCancel                       (* before [cancel()] *)
  | SWait                         (* the select on [done] and ctx *)
  | SReturned (r : option goerr).

(** A call of [Stop]; [sc_run] is the goroutine whose [cancel] and [done] it read. *)
Record stop_call := mkStop {
  sc_id : string;
  sc_run : option nat;
  sc_pc : stop_pc;
}.

Record mstate := mkM {
  loops : gmap string managed;
  stops : list stop_call;
}.

Definition minit : mstate := mkM ∅ [].

Definition set_loop (s : mstate) (id : string) (m : managed) : mstate :=
  mkM (<[id := m]> (loops s)) (stops s).
Definition set_run (m : managed) (k : nat) (r : runner) : managed :=
  mkManaged (m_status m) (<[k := r]> (m_runs m)).
Definition set_rpc (r : runner) (p : runner_pc) : runner :=
  mkRunner p (r_cancelled r) (r_rets r) (r_waits r).
Definition set_stop (s : mstate) (j : nat) (c : stop_call) (p : stop_pc) : mstate :=
  mkM (loops s) (<[j := mkStop (sc_id c) (sc_run c) p]> (stops s)).

(** ** Register, Start *)

(** [%q] of an identifier of printable characters. *)
Definition quote_id (id : string) : string := String "034" (id +:+ str1 "034").

Definition not_found (id : string) : goerr :=
  EText ("hyperloop " +:+ quote_id id +:+ " not found").

Definition Register (id : string) (s : mstate) : mstate * option goerr :=
  match loops s !! id with
  | Some _ => (s, Some (EText ("hyperloop " +:+ quote_id id +:+ " already exists")))
  | None => (set_loop s id (mkManaged StatusCreated []), None)
  end.

(** [l.done] is closed. *)
Definition run_over (r : runner) : bool := match r_pc r with RDone => true | _ => false end.

Section policy.
Context (pol : Policy).

Definition new_runner : runner := mkRunner (RLoop 0 (RestartBackoff pol)) false [] [].

Definition Start (id : string) (s : mstate) : mstate * option goerr :=
  match loops s !! id with
  | None => (s, Some (not_found id))
  | Some m =>
      let launch := (set_loop s id (mkManaged (m_status m) (m_runs m ++ [new_runner])), None) in
      match last (m_runs m) with
      | None => launch
      | Some r => if run_over r then launch else (s, None)
      end
  end.

(** ** The goroutine *)

(** [backoff *= 2], capped at a minute. *)
Definition next_backoff (b : Z) : Z :=
  let b := i64 (b * 2) in if decide (nanosecond_minute < b)%Z then nanosecond_minute else b.

Inductive runner_label :=
  | GEnter | GStatus (st : Status) | GReturn (err : option goerr) | GDecide | GTimer | GCtx | GClose.

(** The new runner, and the status it leaves when it sets one. *)
Definition runner_step (l : runner_label) (r : runner) : option (runner * option Status) :=
  match l, r_pc r with
  | GEnter, RLoop a b => Some (set_rpc r (RIn a b), Some StatusStarting)
  | GStatus st, RIn _ _ =>
      match st with
      | StatusRunning | StatusStopping => Some (r, Some st)
      | _ => None
      end
  | GReturn err, RIn a b =>
      Some (mkRunner (ROut a b err) (r_cancelled r) (r_rets r ++ [err]) (r_waits r),
            Some (Run_outcome err).1)
  | GDecide, ROut a b err =>
      Some (set_rpc r
              (if bool_decide (err = None) || r_cancelled r then RExit
               else if decide (MaxRestarts pol ≤ a)%Z then RExit
               else RWait a b), None)
  | GTimer, RWait a b =>
      Some (mkRunner (RLoop (a + 1) (next_backoff b)) (r_cancelled r) (r_rets r)
              (r_waits r ++ [b]), None)
  | GCtx, RWait _ _ => if r_cancelled r then Some (set_rpc r RExit, None) else None
  | GClose, RExit => Some (set_rpc r RDone, None)
  | _, _ => None
  end.

(** ** Stop *)
Definition cancel_run (m : managed) (k : nat) : managed :=
  match m_runs m !! k with
  | Some r => set_run m k (mkRunner (r_pc r) true (r_rets r) (r_waits r))
  | None => m
  end.

Inductive mlabel :=
  | MRegister (id : string)
  | MStart (id : string)
  | MRun (id : string) (k : nat) (l : runner_label)
  | MStop (id : string)     (* a call of [Stop], up to reading [cancel] and [done] *)
  | MCancel (j : nat)       (* [cancel()] *)
  | MStopDone (j : nat)     (* the select: [done] is closed *)
  | MStopTimeout (j : nat). (* the select: the caller's context *)

Definition Stop_read (id : string) (s : mstate) : mstate :=
  match loops s !! id with
  | None => mkM (loops s) (stops s ++ [mkStop id None (SReturned (Some (not_found id)))])
  | Some m =>
      match m_runs m with
      | [] => mkM (loops s) (stops s ++ [mkStop id None (SReturned None)])
      | rs => mkM (loops s) (stops s ++ [mkStop id (Some (pred (length rs))) SCancel])
      end
  end.

Definition stop_step (l : mlabel) (j : nat) (c : stop_call) (s : mstate) : option mstate :=
  match l, sc_pc c, sc_run c with
  | MCancel _, SCancel, Some k =>
      m ← loops s !! sc_id c;
      Some (set_stop (set_loop s (sc_id c) (cancel_run m k)) j c SWait)
  | MStopDone _, SWait, Some k =>
      m ← loops s !! sc_id c;
      r ← m_runs m !! k;
      if run_over r then Some (set_stop s j c (SReturned None)) else None
  | MStopTimeout _, SWait, Some _ =>
      Some (set_stop s j c
        (SReturned (Some (EText ("hyperloop " +:+ quote_id (sc_id c) +:+ " did not stop in time")))))
  | _, _, _ => None
  end.

#[global] Arguments stop_step : simpl never.

Definition mstep (l : mlabel) (s : mstate) : option mstate :=
  match l with
  | MRegister id => Some (Register id s).1
  | MStart id => Some (Start id s).1
  | MRun id k l =>
      m ← loops s !! id;
      r ← m_runs m !! k;
      '(r', st) ← runner_step l r;
      Some (set_loop s id (set_run (mkManaged (default (m_status m) st) (m_runs m)) k r'))
  | MStop id => Some (Stop_read id s)
  | MCancel j | MStopDone j | MStopTimeout j => c ← stops s !! j; stop_step l j c s
  end.
End policy.

(** [StopAll] calls [Stop] for every identifier registered when it starts. *)
Definition StopAll_ids (s : mstate) : list string := (map_to_list (loops s)).*1.

(** [Statuses], in the order of this run's map iteration. *)
Definition Statuses (s : mstate) : list (string * Status) :=
  (λ p, (p.1, m_status p.2)) <$> map_to_list (loops s).

(** ** HTTP handlers: the status code and the new state *)

(** The outcome of [json.Decode] and [def.Build] on the body of a request. *)
Inductive body :=
  | BadJSON (e : goerr)
  | BuildFailed (e : goerr)
  | Built (id : string).

Inductive request :=
  | GetHealthz | GetReadyz | GetHyperloops
  | PostHyperloops (b : body)
  | GetHyperloop (id : string)
  | PostStart (id : string)
  | PostStop (id : string) (r : option goerr). (* with what its [Stop] returned *)

(** The hyperloops that make the node not ready. *)
Definition failed_ids (s : mstate) : list string :=
  (filter (λ p, p.2 = StatusFailed) (Statuses s)).*1.

Definition known (id : string) (s : mstate) : bool := bool_decide (is_Some (loops s !! id)).

Definition handle (pol : Policy) (req : request) (s : mstate) : Z * mstate :=
  match req with
  | GetHealthz => (200%Z, s)
  | GetReadyz => (if decide (0 < length (failed_ids s))%nat then 503%Z else 200%Z, s)
  | GetHyperloops => (200%Z, s)
  | PostHyperloops (BadJSON _) => (400%Z, s)
  | PostHyperloops (BuildFailed _) => (400%Z, s)
  | PostHyperloops (Built id) =>
      match Register id s with
      | (s, Some _) => (409%Z, s)
      | (s, None) => (201%Z, s)
      end
  | GetHyperloop id => (if known id s then 200%Z else 404%Z, s)
  | PostStart id =>
      match Start pol id s with
      | (s, Some _) => (404%Z, s)
      | (s, None) => (200%Z, s)
      end
  | PostStop id r =>
      match r with
      | Some _ => (500%Z, s)
      | None => (if known id s then 200%Z else 404%Z, s)
      end
  end.

(** ** Invariants *)
Section invariants.
Context (pol : Policy).

(** The [n]-th backoff of a goroutine. *)
Definition backoff_at (n : nat) : Z := Nat.iter n next_backoff (RestartBackoff pol).
Definition backoffs (n : nat) : list Z := backoff_at <$> seq 0 n.

(** The restarts a goroutine may make. *)
Definition budget : nat := Z.to_nat (MaxRestarts pol).

Definition failed_all (rs : list (option goerr)) : Prop := Forall (λ r, r ≠ None) rs.

(** What a goroutine has done so far, by its program counter. *)
Definition runner_ok (r : runner) : Prop :=
  match r_pc r with
  | RLoop a b | RIn a b =>
      ∃ n, a = Z.of_nat n ∧ (n ≤ budget)%nat ∧ b = backoff_at n ∧ r_waits r = backoffs n ∧
        length (r_rets r) = n ∧ failed_all (r_rets r)
  | ROut a b err =>
      ∃ fs, a = Z.of_nat (length fs) ∧ (length fs ≤ budget)%nat ∧ b = backoff_at (length fs) ∧
        r_waits r = backoffs (length fs) ∧ r_rets r = fs ++ [err] ∧ failed_all fs
  | RWait a b =>
      ∃ fs e, a = Z.of_nat (length fs) ∧ (length fs < budget)%nat ∧ b = backoff_at (length fs) ∧
        r_waits r = backoffs (length fs) ∧ r_rets r = fs ++ [Some e] ∧ failed_all fs
  | RExit | RDone =>
      ∃ fs e, (length fs ≤ budget)%nat ∧ r_waits r = backoffs (length fs) ∧
        r_rets r = fs ++ [e] ∧ failed_all fs
  end.

Lemma backoffs_S n : backoffs (S n) = backoffs n ++ [backoff_at n].
Proof. unfold backoffs. by rewrite seq_S, fmap_app. Qed.

Lemma new_runner_ok : runner_ok (new_runner pol).
Proof. exists 0%nat. repeat split; [lia|constructor]. Qed.

Lemma runner_step_ok l r r' st : runner_step pol l r = Some (r', st) → runner_ok r → runner_ok r'.
Proof.
  unfold runner_ok. intros Hstep Hok. destruct r as [pc can rets waits]. simpl in *.
  destruct l, pc; simpl in Hstep; try discriminate Hstep; repeat case_match; simplify_eq/=.
  - exact Hok.
  - exact Hok.
  - exact Hok.
  - destruct Hok as (n & -> & ? & -> & -> & Hn & ?). exists rets. rewrite Hn. repeat split; done.
  - destruct Hok as (fs & -> & ? & -> & -> & -> & ?). by exists fs, err.
  - destruct Hok as (fs & -> & ? & -> & -> & -> & ?). by exists fs, err.
  - destruct Hok as (fs & -> & ? & -> & -> & -> & ?). destruct err as [e|]; [|done].
    exists fs, e. unfold budget in *. repeat split; try done. lia.
  - destruct Hok as (fs & e & -> & ? & -> & -> & -> & ?). exists (S (length fs)).
    rewrite backoffs_S, length_app. repeat split; [lia|lia|simpl; lia|].
    apply Forall_app_2; [done|]. by repeat constructor.
  - destruct Hok as (fs & e & -> & ? & -> & -> & -> & ?). exists fs, (Some e). repeat split; [lia|done].
  - exact Hok.
Qed.
End invariants.

(** ** What a step does to the goroutines of one hyperloop *)
Section steps.
Context (pol : Policy).

(** A step launches a goroutine once the last one is over, moves one goroutine,
    cancels one, or leaves them alone. *)
Inductive runs_case (id : string) (l : mlabel) (rs : list runner) : list runner → Prop :=
  | runs_same : runs_case id l rs rs
  | runs_start :
      l = MStart id → (∀ r, last rs = Some r → run_over r = true) → runs_case id l rs (rs ++ [new_runner pol])
  | runs_move k lr r r' st :
      l = MRun id k lr → rs !! k = Some r → runner_step pol lr r = Some (r', st) →
      runs_case id l rs (<[k := r']> rs)
  | runs_cancel k r :
      rs !! k = Some r →
      runs_case id l rs (<[k := mkRunner (r_pc r) true (r_rets r) (r_waits r)]> rs).

(** The goroutines of [id] before and after, when [id] was registered, and none
    when it is registered by the step. *)
Definition runs_change (id : string) (l : mlabel) (old : option managed) (m' : managed) : Prop :=
  match old with
  | Some m => runs_case id l (m_runs m) (m_runs m')
  | None => l = MRegister id ∧ m_runs m' = []
  end.

Lemma stop_step_loops l j c s s' :
  stop_step l j c s = Some s' →
  loops s' = loops s ∨
  ∃ m k, loops s !! sc_id c = Some m ∧ loops s' = <[sc_id c := cancel_run m k]> (loops s).
Proof.
  unfold stop_step. intros Hstep. destruct l; try done;
    destruct (sc_pc c), (sc_run c) as [k|]; try done;
    destruct (loops s !! sc_id c) as [m|]; try done; simpl in Hstep; simplify_eq/=; eauto.
  destruct (m_runs m !! k) as [r|]; [|done]. simpl in Hstep.
  destruct (run_over r); [|done]. injection Hstep as <-. by left.
Qed.

(** A step changes the entry of one hyperloop at most. *)
Lemma mstep_loops l s s' :
  mstep pol l s = Some s' →
  loops s' = loops s ∨
  ∃ id m', loops s' = <[id := m']> (loops s) ∧ runs_change id l (loops s !! id) m'.
Proof.
  intros Hstep. destruct l as [id|id|id k l|id|j|j|j]; simpl in Hstep.
  5-7: (destruct (stops s !! j) as [c|]; [|done]; simpl in Hstep;
    destruct (stop_step_loops _ _ _ _ _ Hstep) as [?|(m & k & Hm & ?)]; [by left|right];
    eexists _, _; (split; [done|]); rewrite Hm; unfold cancel_run;
    simpl; destruct (m_runs m !! k) eqn:Ek; by constructor).
  - injection Hstep as <-. unfold Register. destruct (loops s !! id) eqn:E; [by left|].
    right. eexists id, _. split; [done|]. by rewrite E.
  - injection Hstep as <-. unfold Start. destruct (loops s !! id) as [m|] eqn:E; [|by left].
    destruct (last (m_runs m)) as [r|] eqn:El; [destruct (run_over r) eqn:Er; [|by left]|];
      right; eexists id, _; (split; [done|]); rewrite E; (constructor; [done|]); rewrite El.
    + by intros ? [= <-].
    + done.
  - right. destruct (loops s !! id) as [m|] eqn:E; [|done]. simpl in Hstep.
    destruct (m_runs m !! k) as [r|] eqn:Ek; [|done]. simpl in Hstep.
    destruct (runner_step pol l r) as [[r' st]|] eqn:Er; [|done]. injection Hstep as <-.
    eexists id, _. split; [done|]. rewrite E. by econstructor.
  - injection Hstep as <-. left. unfold Stop_read. by repeat case_match.
Qed.

Lemma mstep_runs l s s' id m :
  mstep pol l s = Some s' → loops s !! id = Some m →
  ∃ m', loops s' !! id = Some m' ∧ runs_case id l (m_runs m) (m_runs m').
Proof.
  intros Hstep Hid. destruct (mstep_loops l s s' Hstep) as [->|(id' & m' & -> & Hc)].
  { exists m. split; [done|constructor]. }
  destruct (decide (id = id')) as [<-|Hne].
  - exists m'. rewrite lookup_insert_eq. by rewrite Hid in Hc.
  - exists m. rewrite lookup_insert_ne by done. split; [done|constructor].
Qed.

(** An invariant of the lists of goroutines that every change keeps. *)
Lemma runs_invariant (P : list runner → Prop) s :
  P [] → (∀ id l rs rs', P rs → runs_case id l rs rs' → P rs') →
  reachable (mstep pol) minit s → map_Forall (λ _ m, P (m_runs m)) (loops s).
Proof.
  intros H0 Hc.
  apply (reachable_invariant (mstep pol) (λ s, map_Forall (λ _ m, P (m_runs m)) (loops s)));
    [by apply map_Forall_empty|].
  intros l s1 s2 Hinv Hstep. destruct (mstep_loops l s1 s2 Hstep) as [->|(id & m' & -> & Hm')]; [done|].
  apply map_Forall_insert_2; [|done]. destruct (loops s1 !! id) as [m|] eqn:E; simpl in Hm'.
  - eapply Hc; [|done]. by apply (Hinv id).
  - by rewrite (proj2 Hm').
Qed.

(** Only [Register] adds a hyperloop and only [Start] adds a goroutine. *)
Definition run_count (s : mstate) (id : string) : option nat := length ∘ m_runs <$> loops s !! id.

Lemma run_count_same l s s' id :
  mstep pol l s = Some s' → l ≠ MRegister id → l ≠ MStart id → run_count s' id = run_count s id.
Proof.
  intros Hstep Hr Hs. unfold run_count.
  destruct (mstep_loops l s s' Hstep) as [->|(id' & m' & -> & Hc)]; [done|].
  destruct (decide (id = id')) as [<-|Hne]; [|by rewrite lookup_insert_ne].
  rewrite lookup_insert_eq. destruct (loops s !! id) as [m|]; simpl in Hc |- *; [|by destruct Hc].
  f_equal. destruct Hc; [done|done|by rewrite length_insert..].
Qed.
End steps.

(** ** Every reachable state *)
Section reach.
Context (pol : Policy).

(** All goroutines but the last are over. *)
Definition only_last (rs : list runner) : Prop :=
  ∀ k r, rs !! k = Some r → (S k < length rs)%nat → run_over r = true.

Lemma runner_step_over l r x : runner_step pol l r = Some x → run_over r = false.
Proof. unfold run_over. destruct l, r as [[] ? ? ?]; simpl; try done; by repeat case_match. Qed.

Lemma only_last_case id l rs rs' :
  only_last rs → runs_case pol id l rs rs' → only_last rs'.
Proof.
  intros Hl Hc k r Hk Hlt. destruct Hc as [|_ Hlast|k1 lr r1 r1' st _ Hk1 Hs|k1 r1 Hk1].
  - by eapply Hl.
  - rewrite length_app in Hlt. simpl in Hlt. rewrite lookup_app_l in Hk by lia.
    destruct (decide (S k = length rs)) as [Heq|]; [|eapply Hl; [done|lia]].
    apply Hlast. rewrite last_lookup, <-Heq. done.
  - rewrite length_insert in Hlt. apply list_lookup_insert_Some in Hk as [(<- & _ & _)|[_ Hk]].
    + apply runner_step_over in Hs. specialize (Hl _ _ Hk1 Hlt). congruence.
    + by eapply Hl.
  - rewrite length_insert in Hlt. apply list_lookup_insert_Some in Hk as [(<- & <- & _)|[_ Hk]].
    + exact (Hl _ _ Hk1 Hlt).
    + by eapply Hl.
Qed.

Lemma reach_only_last s id m :
  reachable (mstep pol) minit s → loops s !! id = Some m → only_last (m_runs m).
Proof.
  intros Hr. apply (runs_invariant pol only_last s); [by intros k r Hk| |done].
  apply only_last_case.
Qed.

Lemma reach_runner_ok s id m k r :
  reachable (mstep pol) minit s → loops s !! id = Some m → m_runs m !! k = Some r → runner_ok pol r.
Proof.
  intros Hr Hid. revert k r. apply Forall_lookup. revert id m Hid.
  apply (runs_invariant pol (Forall (runner_ok pol))); [constructor| |done].
  intros id l rs rs' Hrs Hc. destruct Hc as [|_ _|k lr r r' st _ Hk Hs|k r Hk]; [done|..].
  - apply Forall_app_2; [done|]. repeat constructor. apply new_runner_ok.
  - apply Forall_insert; [done|]. eapply runner_step_ok; [done|]. by eapply Forall_lookup_1.
  - apply Forall_insert; [done|]. pose proof (Forall_lookup_1 _ _ _ _ Hrs Hk) as Hok. exact Hok.
Qed.

(** A goroutine stays; over stays over, cancelled stays cancelled. *)
Lemma mstep_runner l s s' id m k r :
  mstep pol l s = Some s' → loops s !! id = Some m → m_runs m !! k = Some r →
  ∃ m' r', loops s' !! id = Some m' ∧ m_runs m' !! k = Some r' ∧
    (r' = r ∨ (∃ lr st, l = MRun id k lr ∧ runner_step pol lr r = Some (r', st)) ∨
     r' = mkRunner (r_pc r) true (r_rets r) (r_waits r)).
Proof.
  intros Hstep Hid Hk. destruct (mstep_runs pol l s s' id m Hstep Hid) as (m' & Hm' & Hc).
  exists m'. destruct Hc as [|_ _|k1 lr r1 r1' st -> Hk1 Hs|k1 r1 Hk1].
  - exists r. auto.
  - exists r. split_and!; [done| |by left]. by apply lookup_app_l_Some.
  - destruct (decide (k = k1)) as [->|Hne].
    + simplify_eq. exists r1'. rewrite list_lookup_insert_eq by (by eapply lookup_lt_Some).
      split_and!; [done..|]. right; left. by exists lr, st.
    + exists r. rewrite list_lookup_insert_ne by done. auto.
  - destruct (decide (k = k1)) as [->|Hne].
    + simplify_eq. eexists. rewrite list_lookup_insert_eq by (by eapply lookup_lt_Some). eauto.
    + exists r. rewrite list_lookup_insert_ne by done. auto.
Qed.

(** ** What a [Stop] call knows of its goroutine *)
Definition stop_ok (s : mstate) (c : stop_call) : Prop :=
  match sc_run c with
  | None => True
  | Some k =>
      ∃ m r, loops s !! sc_id c = Some m ∧ m_runs m !! k = Some r ∧
        match sc_pc c with
        | SCancel => True
        | SWait | SReturned (Some _) => r_cancelled r = true
        | SReturned None => r_cancelled r = true ∧ run_over r = true
        end
  end.

Lemma runner_step_cancelled l r r' st :
  runner_step pol l r = Some (r', st) → r_cancelled r' = r_cancelled r.
Proof. destruct l, r as [[] ? ? ?]; simpl; intros; repeat case_match; by simplify_eq/=. Qed.

Lemma stop_ok_step l s s' c : mstep pol l s = Some s' → stop_ok s c → stop_ok s' c.
Proof.
  intros Hstep. unfold stop_ok. destruct (sc_run c) as [k|]; [|done].
  intros (m & r & Hm & Hr & Hpc).
  destruct (mstep_runner l s s' (sc_id c) m k r Hstep Hm Hr) as (m' & r' & Hm' & Hr' & Hc).
  exists m', r'. split_and!; [done..|].
  assert ((r_cancelled r = true → r_cancelled r' = true) ∧ (run_over r = true → run_over r' = true))
    as [H1 H2].
  { destruct Hc as [->|[(lr & st & _ & Hs)| ->]]; [done| |done].
    pose proof (runner_step_cancelled _ _ _ _ Hs). apply runner_step_over in Hs. split; congruence. }
  destruct (sc_pc c) as [| |[e|]]; naive_solver.
Qed.
End reach.

Section stopping.
Context (pol : Policy).

Lemma stops_frame l s s' :
  mstep pol l s = Some s' →
  match l with MStop _ | MCancel _ | MStopDone _ | MStopTimeout _ => True | _ => stops s' = stops s end.
Proof.
  intros Hstep. destruct l as [id|id|id k l|id|j|j|j]; try done; simpl in Hstep.
  - injection Hstep as <-. unfold Register. by case_match.
  - injection Hstep as <-. unfold Start. by repeat case_match.
  - destruct (loops s !! id) as [m|]; [|done]. simpl in Hstep.
    destruct (m_runs m !! k) as [r|]; [|done]. simpl in Hstep.
    destruct (runner_step pol l r) as [[r' st]|]; [|done]. by injection Hstep as <-.
Qed.

Lemma Stop_read_ok id s : Forall (stop_ok s) (stops s) → Forall (stop_ok (Stop_read id s)) (stops (Stop_read id s)).
Proof.
  intros Hs. unfold Stop_read. destruct (loops s !! id) as [m|] eqn:Hm.
  - destruct (m_runs m) as [|r rs] eqn:Hrs; simpl.
    + apply Forall_app_2; [exact Hs|by repeat constructor].
    + apply Forall_app_2; [exact Hs|]. repeat constructor. unfold stop_ok. simpl.
      destruct (lookup_lt_is_Some_2 (r :: rs) (length rs)) as [r' Hr']; [simpl; lia|].
      exists m, r'. by rewrite Hrs.
  - apply Forall_app_2; [exact Hs|by repeat constructor].
Qed.

Lemma stop_step_ok l j c s s' :
  stop_step l j c s = Some s' → stop_ok s c →
  ∃ p, stops s' = <[j := mkStop (sc_id c) (sc_run c) p]> (stops s) ∧
    stop_ok s' (mkStop (sc_id c) (sc_run c) p).
Proof.
  unfold stop_step. intros Hstep. unfold stop_ok. simpl.
  destruct l; try done; destruct (sc_pc c); try done; destruct (sc_run c) as [k|] eqn:Hk; try done;
    intros (m & r & Hm & Hr & Hpc).
  - rewrite Hm in Hstep. injection Hstep as <-. exists SWait. simpl. rewrite Hk. split; [done|].
    unfold cancel_run. rewrite Hr. eexists _, _. rewrite lookup_insert_eq. split; [done|]. simpl.
    rewrite list_lookup_insert_eq by (by eapply lookup_lt_Some). done.
  - rewrite Hm in Hstep. simpl in Hstep. rewrite Hr in Hstep. simpl in Hstep.
    destruct (run_over r) eqn:Ho; [|done]. injection Hstep as <-. eexists. split; [by rewrite <-Hk|].
    exists m, r. done.
  - injection Hstep as <-. eexists. split; [by rewrite <-Hk|]. by exists m, r.
Qed.

Lemma reach_stops s : reachable (mstep pol) minit s → Forall (stop_ok s) (stops s).
Proof.
  apply (reachable_invariant (mstep pol) (λ s, Forall (stop_ok s) (stops s))); [constructor|].
  intros l s1 s2 Hs Hstep. pose proof (stops_frame l s1 s2 Hstep) as Hf.
  assert (Forall (stop_ok s2) (stops s1)) as Hs2.
  { eapply Forall_impl; [exact Hs|]. intros c. by eapply stop_ok_step. }
  destruct l as [id|id|id k l|id|j|j|j]; [by rewrite Hf..| |  | |].
  { simpl in Hstep. injection Hstep as <-. by apply Stop_read_ok. }
  all: simpl in Hstep; destruct (stops s1 !! j) as [c|] eqn:Hj; [|done]; simpl in Hstep;
    pose proof (Forall_lookup_1 _ _ _ _ Hs Hj) as Hc;
    destruct (stop_step_ok _ _ _ _ _ Hstep Hc) as (p & -> & Hp); by apply Forall_insert.
Qed.

Lemma stop_step_stops l j c s s' :
  stop_step l j c s = Some s' →
  (∃ p, stops s' = <[j := mkStop (sc_id c) (sc_run c) p]> (stops s)) ∧ ∀ r, sc_pc c ≠ SReturned r.
Proof.
  unfold stop_step. intros Hstep.
  destruct l; try done; destruct (sc_pc c); try done; destruct (sc_run c) as [k|] eqn:Hk; try done;
    (split; [|done]).
  - destruct (loops s !! sc_id c) as [m|]; [|done]. injection Hstep as <-. exists SWait. simpl. by rewrite Hk.
  - destruct (loops s !! sc_id c) as [m|]; [|done]. cbn [mbind option_bind] in Hstep.
    destruct (m_runs m !! k) as [r|]; [|done]. cbn [mbind option_bind] in Hstep.
    destruct (run_over r); [|done]. injection Hstep as <-. eexists. by rewrite <-Hk.
  - injection Hstep as <-. eexists. by rewrite <-Hk.
Qed.

(** A call of [Stop] keeps what it read, and its answer. *)
Lemma mstep_stop_kept l s s' j c :
  mstep pol l s = Some s' → stops s !! j = Some c →
  ∃ p, stops s' !! j = Some (mkStop (sc_id c) (sc_run c) p) ∧
    ∀ r, sc_pc c = SReturned r → p = SReturned r.
Proof.
  intros Hstep Hj.
  assert (stops s' = stops s → ∃ p, stops s' !! j = Some (mkStop (sc_id c) (sc_run c) p) ∧
    ∀ r, sc_pc c = SReturned r → p = SReturned r) as Hsame.
  { intros ->. exists (sc_pc c). split; [by rewrite Hj; destruct c|done]. }
  pose proof (stops_frame l s s' Hstep) as Hf.
  destruct l as [id|id|id k l|id|i|i|i]; [by apply Hsame..| |  | |].
  { simpl in Hstep. injection Hstep as <-. exists (sc_pc c). split; [|done].
    unfold Stop_read. repeat case_match; simpl; rewrite lookup_app_l by (by eapply lookup_lt_Some);
      rewrite Hj; by destruct c. }
  all: simpl in Hstep; destruct (stops s !! i) as [ci|] eqn:Hi; [|done]; cbn [mbind option_bind] in Hstep;
    destruct (stop_step_stops _ _ _ _ _ Hstep) as [[p ->] Hn].
  all: destruct (decide (i = j)) as [->|Hne];
    [simplify_eq; exists p; rewrite list_lookup_insert_eq by (by eapply lookup_lt_Some);
     split; [done|]; intros r Hr; by destruct (Hn r)
    |exists (sc_pc c); rewrite list_lookup_insert_ne by done; split; [by rewrite Hj; destruct c|done]].
Qed.

(** ** Moves of one goroutine *)

(** How far a cancelled goroutine is from its end. *)
Definition rank (r : runner) : nat :=
  match r_pc r with
  | RDone => 0 | RExit => 1 | ROut _ _ _ => 2 | RIn _ _ => 3 | RLoop _ _ => 4 | RWait _ _ => 5
  end.

(** A move of goroutine [k] of [id]; status changes inside [Run] are not moves. *)
Definition own_move (id : string) (k : nat) (l : mlabel) : bool :=
  match l with
  | MRun id' k' (GStatus _) => false
  | MRun id' k' _ => bool_decide (id' = id) && bool_decide (k' = k)
  | _ => false
  end.

Definition own_moves (id : string) (k : nat) (ls : list mlabel) : nat :=
  length (filter (λ l, own_move id k l = true) ls).

Lemma cancelled_move l s s' id m k r :
  mstep pol l s = Some s' → loops s !! id = Some m → m_runs m !! k = Some r → r_cancelled r = true →
  ∃ m' r', loops s' !! id = Some m' ∧ m_runs m' !! k = Some r' ∧ r_cancelled r' = true ∧
    ((if own_move id k l then 1 else 0) + rank r' ≤ rank r)%nat.
Proof.
  intros Hstep Hm Hr Hc.
  destruct (mstep_runner pol l s s' id m k r Hstep Hm Hr) as (m' & r' & Hm' & Hr' & Hch).
  exists m', r'. split; [done|]. split; [done|].
  destruct (own_move id k l) eqn:Hown.
  - destruct l as [| |id' k' lr| | | |]; try done.
    assert (id' = id ∧ k' = k) as [-> ->].
    { simpl in Hown. destruct lr; try done;
        apply andb_true_iff in Hown as [->%bool_decide_eq_true ->%bool_decide_eq_true]; done. }
    simpl in Hstep. rewrite Hm in Hstep. simpl in Hstep. rewrite Hr in Hstep. simpl in Hstep.
    destruct (runner_step pol lr r) as [[r1 st]|] eqn:Hs; [|done]. injection Hstep as <-.
    simpl in Hm'. rewrite lookup_insert_eq in Hm'. injection Hm' as <-. simpl in Hr'.
    rewrite list_lookup_insert_eq in Hr' by (by eapply lookup_lt_Some). injection Hr' as <-.
    split; [by rewrite (runner_step_cancelled _ _ _ _ _ Hs)|].
    destruct r as [pc can rets waits]. simpl in Hc. subst can.
    destruct lr, pc; simpl in Hs; try discriminate Hs; try (simpl in Hown; discriminate Hown);
      unfold rank; rewrite ?orb_true_r in Hs; simplify_eq/=; lia.
  - destruct Hch as [->|[(lr & st & -> & Hs)| ->]]; [done| |done].
    split; [by rewrite (runner_step_cancelled _ _ _ _ _ Hs)|].
    destruct lr; simpl in Hown; rewrite ?bool_decide_true in Hown by done; try done.
    destruct r as [pc ? ? ?]. destruct pc; simpl in Hs; try done. destruct st0; by simplify_eq/=.
Qed.

Lemma cancelled_moves ls s s' id m k r :
  run_labels (mstep pol) ls s = Some s' → loops s !! id = Some m → m_runs m !! k = Some r →
  r_cancelled r = true →
  ∃ m' r', loops s' !! id = Some m' ∧ m_runs m' !! k = Some r' ∧ r_cancelled r' = true ∧
    (own_moves id k ls + rank r' ≤ rank r)%nat.
Proof.
  revert s m r. induction ls as [|l ls IH]; intros s m r Hrun Hm Hr Hc.
  { injection Hrun as <-. exists m, r. done. }
  simpl in Hrun. destruct (mstep pol l s) as [s1|] eqn:Hstep; [|done]. simpl in Hrun.
  destruct (cancelled_move l s s1 id m k r Hstep Hm Hr Hc) as (m1 & r1 & Hm1 & Hr1 & Hc1 & Hrank).
  destruct (IH s1 m1 r1 Hrun Hm1 Hr1 Hc1) as (m' & r' & ? & ? & ? & ?).
  exists m', r'. split_and!; [done..|]. unfold own_moves in *. rewrite filter_cons.
  destruct (own_move id k l); [rewrite decide_True by done|rewrite decide_False by done]; simpl; lia.
Qed.

(** A goroutine that is not over can always move. *)
Lemma runner_enabled s id m k r :
  loops s !! id = Some m → m_runs m !! k = Some r → run_over r = false →
  ∃ l s', own_move id k l = true ∧ mstep pol l s = Some s'.
Proof.
  intros Hm Hr Ho.
  assert (∃ lr x, runner_step pol lr r = Some x ∧ own_move id k (MRun id k lr) = true) as (lr & [r' st] & Hs & Hown).
  { destruct r as [[a b|a b|a b e|a b| |] c rs ws]; [exists GEnter|exists (GReturn None)|exists GDecide
      |exists GTimer|exists GClose|done]; eexists; (split; [done|]); simpl; by rewrite !bool_decide_true. }
  exists (MRun id k lr). eexists. split; [done|]. simpl. rewrite Hm. simpl. rewrite Hr. simpl. by rewrite Hs.
Qed.
End stopping.

(** ** The backoff in closed form *)
Lemma next_backoff_spec b :
  (0 ≤ b ≤ nanosecond_minute)%Z → next_backoff b = Z.min (b * 2) nanosecond_minute.
Proof.
  unfold next_backoff, nanosecond_minute. intros Hb. rewrite i64_small by lia.
  case_decide; lia.
Qed.

Lemma backoff_at_spec pol n :
  (0 ≤ RestartBackoff pol ≤ nanosecond_minute)%Z →
  backoff_at pol n = Z.min (RestartBackoff pol * 2 ^ Z.of_nat n) nanosecond_minute.
Proof.
  intros Hb. induction n as [|n IH]; [unfold backoff_at; simpl; lia|].
  change (backoff_at pol (S n)) with (next_backoff (backoff_at pol n)).
  rewrite Nat2Z.inj_succ, Z.pow_succ_r by lia.
  assert (0 < 2 ^ Z.of_nat n)%Z by (apply Z.pow_pos_nonneg; lia).
  rewrite IH, next_backoff_spec by (unfold nanosecond_minute in *; nia).
  unfold nanosecond_minute in *. nia.
Qed.

Lemma backoffs_lookup pol n i w : backoffs pol n !! i = Some w → w = backoff_at pol i.
Proof.
  unfold backoffs. rewrite list_lookup_fmap. intros (j & [-> _]%lookup_seq & ->)%fmap_Some. done.
Qed.

Lemma runner_ok_facts pol r :
  runner_ok pol r →
  (length (r_rets r) ≤ S (budget pol))%nat ∧ (length (r_waits r) ≤ budget pol)%nat ∧
  r_waits r = backoffs pol (length (r_waits r)) ∧
  ∀ i, (S i < length (r_rets r))%nat → ∃ e, r_rets r !! i = Some (Some e).
Proof.
  assert (∀ n, length (backoffs pol n) = n) as Hlen.
  { intros n. unfold backoffs. by rewrite length_fmap, length_seq. }
  assert (∀ fs i, failed_all fs → (i < length fs)%nat → ∃ e, fs !! i = Some (Some e)) as Hf.
  { intros fs i Hfs Hi. destruct (lookup_lt_is_Some_2 fs i Hi) as [[e|] He]; [by exists e|].
    by destruct (Forall_lookup_1 _ _ _ _ Hfs He). }
  assert (∀ fs x i, failed_all fs → (S i < length (fs ++ [x]))%nat → ∃ e, (fs ++ [x]) !! i = Some (Some e))
    as Hfx.
  { intros fs x i Hfs Hi. rewrite length_app in Hi. simpl in Hi. rewrite lookup_app_l by lia.
    apply Hf; [done|lia]. }
  unfold runner_ok. destruct (r_pc r) as [a b|a b|a b e|a b| |].
  1-2: intros (n & -> & ? & -> & -> & Hn & Hfs); rewrite Hlen; split_and!; [lia|lia|done|];
    intros i Hi; apply Hf; [done|lia].
  - intros (fs & -> & ? & -> & -> & -> & Hfs). rewrite Hlen, length_app. simpl.
    split_and!; [lia|lia|done|]. intros i Hi. apply Hfx; [done|]. rewrite length_app. simpl. lia.
  - intros (fs & e & -> & ? & -> & -> & -> & Hfs). rewrite Hlen, length_app. simpl.
    split_and!; [lia|lia|done|]. intros i Hi. apply Hfx; [done|]. rewrite length_app. simpl. lia.
  - intros (fs & e & ? & -> & -> & Hfs). rewrite Hlen, length_app. simpl.
    split_and!; [lia|lia|done|]. intros i Hi. apply Hfx; [done|]. rewrite length_app. simpl. lia.
  - intros (fs & e & ? & -> & -> & Hfs). rewrite Hlen, length_app. simpl.
    split_and!; [lia|lia|done|]. intros i Hi. apply Hfx; [done|]. rewrite length_app. simpl. lia.
Qed.

(** ** A concrete run: a failure, a restart, a stop while it waits *)
Definition sample_policy : Policy := mkPolicy 5 1000000000.
Definition sample_failure : goerr := EText "boom".
Definition sample_server_labels : list mlabel :=
  [MRegister "a"; MStart "a"; MRun "a" 0 GEnter; MRun "a" 0 (GReturn (Some sample_failure));
   MRun "a" 0 GDecide; MRun "a" 0 GTimer; MRun "a" 0 GEnter; MRun "a" 0 (GReturn (Some sample_failure));
   MRun "a" 0 GDecide; MStop "a"; MCancel 0].
Definition sample_stop_labels : list mlabel :=
  [MRun "a" 0 GCtx; MRun "a" 0 GClose; MStopDone 0].

Definition sample_server : mstate :=
  default minit (run_labels (mstep sample_policy) sample_server_labels minit).
Definition sample_stopped : mstate :=
  default minit (run_labels (mstep sample_policy) (sample_server_labels ++ sample_stop_labels) minit).

Lemma sample_server_reachable : reachable (mstep sample_policy) minit sample_server.
Proof. apply (run_labels_reachable _ sample_server_labels). vm_compute. reflexivity. Defined.

Lemma sample_stopped_reachable : reachable (mstep sample_policy) minit sample_stopped.
Proof.
  apply (run_labels_reachable _ (sample_server_labels ++ sample_stop_labels)). vm_compute. reflexivity.
Defined.

Definition sample_managed (s : mstate) : managed := default (mkManaged StatusCreated []) (loops s !! "a").
Definition sample_runner (s : mstate) : runner :=
  default (new_runner sample_policy) (m_runs (sample_managed s) !! 0%nat).

(** ** Properties of the control plane *)

(** [C30] One pipeline at a time: whatever the interleaving of starts, stops and
    restarts, at most one goroutine of a hyperloop is not over, and it is the one
    whose [cancel] and [done] the manager holds. *)
Theorem one_runner_at_a_time (pol : Policy) (s : mstate) (id : string) (m : managed) (k : nat) (r : runner) :
  reachable (mstep pol) minit s → loops s !! id = Some m → m_runs m !! k = Some r →
  run_over r = false → last (m_runs m) = Some r ∧ k = pred (length (m_runs m)).
Proof.
  intros Hs Hm Hr Ho. pose proof (lookup_lt_Some _ _ _ Hr).
  assert (S k = length (m_runs m)) as Hk.
  { destruct (decide (S k < length (m_runs m))%nat) as [Hlt|]; [|lia].
    pose proof (reach_only_last pol s id m Hs Hm k r Hr Hlt). congruence. }
  rewrite last_lookup, <-Hk. done.
Qed.

Lemma one_runner_at_a_time_witness :
  last (m_runs (sample_managed sample_server)) = Some (sample_runner sample_server) ∧
  0%nat = pred (length (m_runs (sample_managed sample_server))).
Proof.
  apply (one_runner_at_a_time sample_policy sample_server "a" (sample_managed sample_server) 0
    (sample_runner sample_server)); [exact sample_server_reachable|vm_compute; reflexivity..].
Defined.

(** [C31] The restart policy: one [Start] runs the pipeline at most [MaxRestarts + 1]
    times; every run but the last one failed, so neither a clean end nor a stop is
    followed by a restart; and the [i]-th wait is the initial backoff doubled [i]
    times, at most a minute. *)
Theorem restart_policy (pol : Policy) (s : mstate) (id : string) (m : managed) (k : nat) (r : runner) :
  (0 ≤ RestartBackoff pol ≤ nanosecond_minute)%Z →
  reachable (mstep pol) minit s → loops s !! id = Some m → m_runs m !! k = Some r →
  (length (r_rets r) ≤ S (budget pol))%nat ∧ (length (r_waits r) ≤ budget pol)%nat ∧
  (∀ i, (S i < length (r_rets r))%nat → ∃ e, r_rets r !! i = Some (Some e)) ∧
  (∀ i w, r_waits r !! i = Some w →
     w = Z.min (RestartBackoff pol * 2 ^ Z.of_nat i) nanosecond_minute).
Proof.
  intros Hb Hs Hm Hr.
  destruct (runner_ok_facts pol r (reach_runner_ok pol s id m k r Hs Hm Hr)) as (H1 & H2 & H3 & H4).
  split_and!; [done..|]. intros i w Hw. rewrite H3 in Hw. apply backoffs_lookup in Hw as ->.
  by apply backoff_at_spec.
Qed.

Lemma restart_policy_witness :
  r_rets (sample_runner sample_server) = [Some sample_failure; Some sample_failure] ∧
  (length (r_rets (sample_runner sample_server)) ≤ 6)%nat ∧
  (length (r_waits (sample_runner sample_server)) ≤ 5)%nat ∧
  (∀ i, (S i < length (r_rets (sample_runner sample_server)))%nat →
     ∃ e, r_rets (sample_runner sample_server) !! i = Some (Some e)) ∧
  (∀ i w, r_waits (sample_runner sample_server) !! i = Some w →
     w = Z.min (1000000000 * 2 ^ Z.of_nat i) nanosecond_minute).
Proof.
  split; [vm_compute; reflexivity|].
  apply (restart_policy sample_policy sample_server "a" (sample_managed sample_server) 0
    (sample_runner sample_server)); [unfold nanosecond_minute; simpl; lia|exact sample_server_reachable|
    vm_compute; reflexivity..].
Defined.

(** A stop takes effect: a goroutine whose context was cancelled makes at most
    five more moves in any interleaving, enters the pipeline at most once among
    them, and is never stuck before it is over. *)
Theorem cancelled_runner_ends (pol : Policy) (ls : list mlabel) (s s' : mstate) (id : string)
    (m : managed) (k : nat) (r : runner) :
  run_labels (mstep pol) ls s = Some s' → loops s !! id = Some m → m_runs m !! k = Some r →
  r_cancelled r = true →
  (own_moves id k ls ≤ 5)%nat ∧
  ∃ m' r', loops s' !! id = Some m' ∧ m_runs m' !! k = Some r' ∧
    (run_over r' = false → ∃ l s'', own_move id k l = true ∧ mstep pol l s' = Some s'').
Proof.
  intros Hrun Hm Hr Hc.
  destruct (cancelled_moves pol ls s s' id m k r Hrun Hm Hr Hc) as (m' & r' & Hm' & Hr' & _ & Hrank).
  split; [unfold rank in Hrank; destruct (r_pc r); lia|]. exists m', r'. split_and!; [done..|].
  intros Ho. by eapply runner_enabled.
Qed.

Lemma cancelled_runner_ends_witness :
  own_moves "a" 0 sample_stop_labels = 2%nat ∧ (own_moves "a" 0 sample_stop_labels ≤ 5)%nat ∧
  ∃ m' r', loops sample_stopped !! "a" = Some m' ∧ m_runs m' !! 0%nat = Some r' ∧
    (run_over r' = false →
     ∃ l s'', own_move "a" 0 l = true ∧ mstep sample_policy l sample_stopped = Some s'').
Proof.
  split; [vm_compute; reflexivity|].
  apply (cancelled_runner_ends sample_policy sample_stop_labels sample_server sample_stopped "a"
    (sample_managed sample_server) 0 (sample_runner sample_server)); vm_compute; reflexivity.
Defined.

(** [Stop] waits: when a call of [Stop] that found a goroutine returned nil, that
    goroutine was cancelled and is over; its pipeline no longer runs. *)
Theorem Stop_waits (pol : Policy) (s : mstate) (j : nat) (id : string) (k : nat) :
  reachable (mstep pol) minit s →
  stops s !! j = Some (mkStop id (Some k) (SReturned None)) →
  ∃ m r, loops s !! id = Some m ∧ m_runs m !! k = Some r ∧
    r_cancelled r = true ∧ run_over r = true.
Proof.
  intros Hs Hj. destruct (Forall_lookup_1 _ _ _ _ (reach_stops pol s Hs) Hj) as (m & r & ? & ? & ?).
  by exists m, r.
Qed.

Lemma Stop_waits_witness :
  ∃ m r, loops sample_stopped !! "a" = Some m ∧ m_runs m !! 0%nat = Some r ∧
    r_cancelled r = true ∧ run_over r = true.
Proof.
  apply (Stop_waits sample_policy sample_stopped 0); [exact sample_stopped_reachable|].
  vm_compute; reflexivity.
Defined.

(** The node is ready exactly when no hyperloop's last run failed; and [POST
    .../stop] never answers 404: for an unknown hyperloop [Stop] itself fails and
    the answer is 500. *)
Theorem handlers_report (pol : Policy) (s : mstate) (id : string) :
  ((handle pol GetReadyz s).1 = 503%Z ↔ ∃ id m, loops s !! id = Some m ∧ m_status m = StatusFailed) ∧
  (loops s !! id = None →
   stops (Stop_read id s) = stops s ++ [mkStop id None (SReturned (Some (not_found id)))] ∧
   (handle pol (PostStop id (Some (not_found id))) s).1 = 500%Z ∧
   (handle pol (GetHyperloop id) s).1 = 404%Z ∧ (handle pol (PostStart id) s).1 = 404%Z).
Proof.
  split.
  - simpl. assert ((0 < length (failed_ids s))%nat ↔
      ∃ id m, loops s !! id = Some m ∧ m_status m = StatusFailed) as <-.
    { unfold failed_ids, Statuses. rewrite length_fmap. split.
      - intros Hlt. destruct (lookup_lt_is_Some_2 _ _ Hlt) as [[i st] Hx%list_elem_of_lookup_2].
        apply list_elem_of_filter in Hx as [Hst ([i' m] & [= -> ->] & Hin)%list_elem_of_fmap].
        apply elem_of_map_to_list in Hin. by exists i', m.
      - intros (i & m & Hm & Hst).
        assert ((i, m_status m) ∈ filter (λ p, p.2 = StatusFailed)
          ((λ p, (p.1, m_status p.2)) <$> map_to_list (loops s))) as Hin.
        { apply list_elem_of_filter. split; [done|]. apply list_elem_of_fmap. exists (i, m).
          split; [done|]. by apply elem_of_map_to_list. }
        destruct (filter _ _); [by apply elem_of_nil in Hin|simpl; lia]. }
    by case_decide.
  - intros Hid. unfold Stop_read. simpl. unfold known, Start. rewrite Hid. by rewrite bool_decide_false by (by intros []).
Qed.

Lemma handlers_report_witness :
  ((handle sample_policy GetReadyz sample_server).1 = 503%Z ↔
   ∃ id m, loops sample_server !! id = Some m ∧ m_status m = StatusFailed) ∧
  (loops sample_server !! "zz" = None →
   stops (Stop_read "zz" sample_server) =
     stops sample_server ++ [mkStop "zz" None (SReturned (Some (not_found "zz")))] ∧
   (handle sample_policy (PostStop "zz" (Some (not_found "zz"))) sample_server).1 = 500%Z ∧
   (handle sample_policy (GetHyperloop "zz") sample_server).1 = 404%Z ∧
   (handle sample_policy (PostStart "zz") sample_server).1 = 404%Z).
Proof. apply (handlers_report sample_policy sample_server "zz"). Defined.
