(* ===== verification/Metrics.v ===== *)
(** * Package metrics: snapshots to collectors

    [Observe] of pkg/metrics/metrics.go.  The Prometheus collectors are behind
    the client library; what the code does is the list of calls it makes on them.
    A gauge's float64 is the number it was computed from, with its unit. *)

From S2P Require Import Prelude GoStd State Dispatcher Hyperloop.

(** ** Calls on the collectors *)
Inductive gauge_value :=
  | GInt (z : Z)     (* [float64(z)] *)
  | GMillis (z : Z)  (* [float64(z) / 1000] *)
  | GNanos (z : Z).  (* a duration's [Seconds()] *)

Inductive collector_call :=
  | GaugeSet (name : string) (labels : list string) (v : gauge_value)
  | CounterAdd (name : string) (labels : list string) (v : Z).

(** The two maps of the last snapshot's counters. *)
Record Nomios := mkNomios {
  lastPub : gmap string Z;
  lastSaveFail : gmap string Z;
}.

(** The collectors [New] creates, in the order it registers them, with the names
    of their labels. *)
Inductive collector_kind := CounterVec | GaugeVec.

Record descriptor := mkDesc {
  desc_kind : collector_kind;
  desc_name : string;
  desc_labels : list string;
}.

Definition collectors : list descriptor :=
  [mkDesc CounterVec "nomios_publish_events_total" ["hyperloop"];
   mkDesc GaugeVec "nomios_checkpoint_seq" ["hyperloop"];
   mkDesc GaugeVec "nomios_persisted_checkpoint_seq" ["hyperloop"];
   mkDesc GaugeVec "nomios_hyperloop_state" ["hyperloop"];
   mkDesc GaugeVec "nomios_queue_depth" ["hyperloop"; "queue"];
   mkDesc GaugeVec "nomios_source_lag_seconds" ["hyperloop"];
   mkDesc GaugeVec "nomios_last_published_event_timestamp_seconds" ["hyperloop"];
   mkDesc CounterVec "nomios_state_save_failures_total" ["hyperloop"]].

(** What [New] returns. *)
Definition NewNomios : Nomios := mkNomios ∅ ∅.

Definition stateValues (st : Status) : Z :=
  match st with
  | StatusCreated => 0 | StatusStarting => 1 | StatusRunning => 2
  | StatusStopping => 3 | StatusStopped => 4 | StatusFailed => 5
  end.

(** The increment, and the map with the snapshot stored. *)
Definition counterDelta (last : gmap string Z) (id : string) (now : Z) : Z * gmap string Z :=
  let prev := default 0%Z (last !! id) in
  (if decide (now < prev)%Z then now else u64 (now - prev), <[id := now]> last).

Definition add_call (name id : string) (d : Z) : list collector_call :=
  if decide (0 < d)%Z then [CounterAdd name [id] d] else [].

(** [now] is the clock in nanoseconds since the epoch. *)
Definition lag_calls (now : Z) (id : string) (ms : Z) : list collector_call :=
  if decide (0 < ms)%Z then
    let lag := (now - ms * 1000000)%Z in
    [GaugeSet "nomios_source_lag_seconds" [id] (GNanos (if decide (lag < 0)%Z then 0%Z else lag));
     GaugeSet "nomios_last_published_event_timestamp_seconds" [id] (GMillis ms)]
  else [].

Definition Observe (now : Z) (m : Nomios) (s : StatusReport) : Nomios * list collector_call :=
  let id := RepID s in
  let '(pubDelta, lp) := counterDelta (lastPub m) id (Published s) in
  let '(failDelta, lf) := counterDelta (lastSaveFail m) id (StateSaveFailures s) in
  (mkNomios lp lf,
   [GaugeSet "nomios_checkpoint_seq" [id] (GInt (SeqNo (RepCheckpoint s)));
    GaugeSet "nomios_persisted_checkpoint_seq" [id] (GInt (SeqNo (Persisted s)));
    GaugeSet "nomios_hyperloop_state" [id] (GInt (stateValues (RepStatus s)))] ++
   imap (λ i d, GaugeSet "nomios_queue_depth" [id; pretty (N.of_nat i)] (GInt d)) (QueueDepths s) ++
   lag_calls now id (LastEventUnixMs s) ++
   add_call "nomios_publish_events_total" id pubDelta ++
   add_call "nomios_state_save_failures_total" id failDelta).

(** What the collectors accept: [WithLabelValues] wants a value for each label, and
    a counter does not go down; either panics otherwise. *)
Definition accepts (c : collector_call) (d : descriptor) : bool :=
  match c, desc_kind d with
  | GaugeSet name ls _, GaugeVec =>
      bool_decide (name = desc_name d) && bool_decide (length ls = length (desc_labels d))
  | CounterAdd name ls v, CounterVec =>
      bool_decide (name = desc_name d) && bool_decide (length ls = length (desc_labels d)) &&
      bool_decide (0 ≤ v)%Z
  | _, _ => false
  end.

Definition accepted (c : collector_call) : bool := existsb (accepts c) collectors.

(** The snapshots of a node, in the order they are observed, with their clocks. *)
Definition observe_all (m : Nomios) (ss : list (Z * StatusReport)) : Nomios * list collector_call :=
  foldl (λ r s, let '(m, cs) := Observe s.1 r.1 s.2 in (m, r.2 ++ cs)) (m, []) ss.

(** ** The counters *)

(** What was added to a counter for one hyperloop. *)
Definition added (name id : string) (cs : list collector_call) : Z :=
  foldr (λ c acc, match c with
                  | CounterAdd n ls d => if decide (n = name ∧ ls = [id]) then d + acc else acc
                  | GaugeSet _ _ _ => acc
                  end)%Z 0%Z cs.

Lemma added_app name id cs1 cs2 : added name id (cs1 ++ cs2) = (added name id cs1 + added name id cs2)%Z.
Proof.
  unfold added. induction cs1 as [|c cs1 IH]; [done|]. simpl. rewrite IH.
  destruct c; [done|]. case_decide; lia.
Qed.

Lemma added_gauges name id cs :
  Forall (λ c, match c with GaugeSet _ _ _ => True | _ => False end) cs → added name id cs = 0%Z.
Proof. induction 1 as [|[] cs Hc _ IH]; done. Qed.

Lemma added_call name id name' id' d :
  (0 ≤ d)%Z → added name id (add_call name' id' d) = (if decide (name' = name ∧ id' = id) then d else 0)%Z.
Proof.
  intros Hd. unfold add_call. destruct (decide (0 < d)%Z) as [Hpos|Hpos]; simpl.
  - destruct (decide (name' = name ∧ id' = id)) as [[-> ->]|Hne].
    + rewrite decide_True by done. lia.
    + rewrite decide_False; [done|]. intros [-> [= ->]]. by apply Hne.
  - case_decide; lia.
Qed.

Lemma counterDelta_nonneg last id now : (0 ≤ now)%Z → (0 ≤ (counterDelta last id now).1)%Z.
Proof. intros. simpl. case_decide; [done|]. apply u64_bound. Qed.

Abbreviation published_total := "nomios_publish_events_total".

Lemma Observe_published now m s id :
  (0 ≤ Published s)%Z → (0 ≤ StateSaveFailures s)%Z →
  added published_total id (Observe now m s).2 =
    (if decide (RepID s = id) then (counterDelta (lastPub m) id (Published s)).1 else 0)%Z ∧
  lastPub (Observe now m s).1 = <[RepID s := Published s]> (lastPub m).
Proof.
  intros Hp Hf. split; [|done]. unfold Observe.
  pose proof (counterDelta_nonneg (lastPub m) (RepID s) (Published s) Hp) as H1.
  pose proof (counterDelta_nonneg (lastSaveFail m) (RepID s) (StateSaveFailures s) Hf) as H2.
  destruct (counterDelta (lastPub m) _ _) as [d1 lp] eqn:E1.
  destruct (counterDelta (lastSaveFail m) _ _) as [d2 lf]. simpl in H1, H2.
  cbn [snd]. rewrite !added_app, !added_call by done.
  rewrite (added_gauges _ _ (imap _ _)), (added_gauges _ _ (lag_calls _ _ _)), (added_gauges _ _ [_; _; _]).
  - destruct (decide ("nomios_state_save_failures_total" = published_total ∧ RepID s = id))
      as [[? _]|_]; [done|].
    destruct (decide (RepID s = id)) as [<-|Hne].
    + rewrite decide_True by done. rewrite E1. simpl. lia.
    + rewrite decide_False by (by intros [_ ?]). done.
  - by repeat constructor.
  - unfold lag_calls. case_decide; by repeat constructor.
  - apply Forall_lookup. intros i c Hc. rewrite list_lookup_imap in Hc.
    by apply fmap_Some in Hc as (d & _ & ->).
Qed.

(** The published counters of one hyperloop's snapshots never decrease. *)
Fixpoint nondecreasing (prev : Z) (vs : list Z) : Prop :=
  match vs with [] => True | v :: vs => (prev ≤ v)%Z ∧ nondecreasing v vs end.

Definition snapshots_of (id : string) (ss : list (Z * StatusReport)) : list Z :=
  (λ s, Published s.2) <$> filter (λ s, RepID s.2 = id) ss.

Definition wf_report (s : StatusReport) : Prop :=
  (0 ≤ Published s < 2 ^ 64)%Z ∧ (0 ≤ StateSaveFailures s)%Z.

Lemma observe_all_foldl m cs ss :
  foldl (λ r s, let '(m, cs) := Observe s.1 r.1 s.2 in (m, r.2 ++ cs)) (m, cs) ss =
  ((observe_all m ss).1, cs ++ (observe_all m ss).2).
Proof.
  unfold observe_all. revert m cs. induction ss as [|s ss IH]; intros m cs; cbn [foldl fst snd]; [by rewrite app_nil_r|].
  destruct (Observe s.1 m s.2) as [m1 cs1]. rewrite (IH m1 (cs ++ cs1)), (IH m1 ([] ++ cs1)).
  simpl. by rewrite app_assoc.
Qed.

Lemma observe_all_cons m s ss :
  (observe_all m (s :: ss)).2 = (Observe s.1 m s.2).2 ++ (observe_all (Observe s.1 m s.2).1 ss).2.
Proof.
  unfold observe_all at 1. simpl. destruct (Observe s.1 m s.2) as [m1 cs1]. by rewrite observe_all_foldl.
Qed.

Lemma published_added id m ss :
  Forall (λ s, wf_report s.2) ss → (0 ≤ default 0 (lastPub m !! id))%Z →
  nondecreasing (default 0 (lastPub m !! id))%Z (snapshots_of id ss) →
  (default 0 (lastPub m !! id) + added published_total id (observe_all m ss).2 =
   default (default 0 (lastPub m !! id)) (last (snapshots_of id ss)))%Z.
Proof.
  intros Hss. revert m. induction Hss as [|[now s] ss [[Hp1 Hp2] Hf] _ IH]; intros m H0 Hnd.
  { simpl. lia. }
  rewrite observe_all_cons, added_app. cbn [fst snd] in *.
  destruct (Observe_published now m s id Hp1 Hf) as [Ha Hl]. rewrite Ha.
  specialize (IH (Observe now m s).1). rewrite Hl in IH.
  unfold snapshots_of in *. rewrite filter_cons in *. cbn [fst snd] in *.
  destruct (decide (RepID s = id)) as [<-|Hne].
  - rewrite lookup_insert_eq in IH. simpl in IH, Hnd. destruct Hnd as [Hle Hnd].
    specialize (IH Hp1 Hnd). rewrite fmap_cons, last_cons. simpl.
    unfold counterDelta. simpl. rewrite decide_False by lia. rewrite u64_small by lia.
    destruct (last _); simpl in *; lia.
  - rewrite lookup_insert_ne in IH by done. rewrite <-(IH H0 Hnd). lia.
Qed.

(** ** Properties of the counters *)

(** A node that starts at zero. *)
Definition sample_report (id : string) (n : Z) : StatusReport :=
  mkReport id StatusRunning n zeroPosition zeroPosition 0 0 [].

Definition sample_reports : list (Z * StatusReport) :=
  [(0%Z, sample_report "a" 3); (0%Z, sample_report "b" 9); (0%Z, sample_report "a" 3);
   (0%Z, sample_report "a" 10)].

(** The published counter of a hyperloop follows its snapshots: whatever is
    observed of the other hyperloops in between, and however often a snapshot is
    repeated, what was added since the start is the last snapshot's count, as long
    as the count never decreases. *)
Theorem published_counter_follows (id : string) (ss : list (Z * StatusReport)) :
  Forall (λ s, wf_report s.2) ss → nondecreasing 0 (snapshots_of id ss) →
  added published_total id (observe_all NewNomios ss).2 = default 0%Z (last (snapshots_of id ss)).
Proof. intros Hss Hnd. by apply (published_added id NewNomios). Qed.

Lemma published_counter_follows_witness :
  added published_total "a" (observe_all NewNomios sample_reports).2 = 10%Z.
Proof.
  apply (published_counter_follows "a" sample_reports).
  - repeat constructor; simpl; lia.
  - vm_compute. repeat split; discriminate.
Defined.

