(* ===== verification/NodeConfig.v ===== *)
(** * Package config: the node's configuration

    pkg/config/config.go: [Load] with its expansion of environment references,
    and [Build], which checks a declaration and wires the components.  The YAML
    decoder, the Kafka client and the outcome of opening a store are
    parameters. *)

From S2P Require Import Prelude GoStd GoText State.
From S2P Require MysqlSource KafkaSink Hyperloop Store.

(** ** os.Expand of the standard library

    A text is literal bytes and references; [\$] followed by no name is literal,
    and malformed braces are dropped. *)
Inductive piece := PLit (c : ascii) | PVar (name : string).

#[export] Instance piece_eq_dec : EqDecision piece.
Proof. solve_decision. Defined.

Definition is_special_var (c : ascii) : bool :=
  is_digit c || bool_decide (c ∈ (["*"; "#"; "$"; "@"; "!"; "?"; "-"]%char : list ascii)).

Definition is_alnum (c : ascii) : bool :=
  let z := byte_val c in
  bool_decide (c = "_"%char) || is_digit c || (Z.leb 97 z && Z.leb z 122) || (Z.leb 65 z && Z.leb z 90).

(** The bytes up to the first closing brace, and what follows it. *)
Fixpoint until_brace (s : string) : option (string * string) :=
  match s with
  | "" => None
  | String c s =>
      if decide (c = "}"%char) then Some ("", s)
      else '(x, r) ← until_brace s; Some (String c x, r)
  end.

Fixpoint take_alnum (s : string) : string * string :=
  match s with
  | "" => ("", "")
  | String c t => if is_alnum c then let '(x, r) := take_alnum t in (String c x, r) else ("", s)
  end.

(** What follows a [\$]: the name, whether bytes were consumed for it, the rest. *)
Definition getShellName (s : string) : string * bool * string :=
  match s with
  | "" => ("", false, "")
  | String c t =>
      if decide (c = "{"%char) then
        match t with
        | String d (String e u) =>
            if is_special_var d && bool_decide (e = "}"%char) then (str1 d, true, u)
            else match until_brace t with
                 | Some (x, r) => (x, true, r)
                 | None => ("", true, t)
                 end
        | _ => match until_brace t with Some (x, r) => (x, true, r) | None => ("", true, t) end
        end
      else if is_special_var c then (str1 c, true, t)
      else let '(x, r) := take_alnum s in (x, negb (bool_decide (x = "")), r)
  end.

(** Every turn consumes a byte. *)
Fixpoint pieces (fuel : nat) (s : string) : list piece :=
  match fuel with
  | O => []
  | S fuel =>
      match s with
      | "" => []
      | String c t =>
          if bool_decide (c = "$"%char) && negb (bool_decide (t = "")) then
            match getShellName t with
            | (name, consumed, r) =>
                if decide (name = "")
                then if consumed : bool then pieces fuel r else PLit c :: pieces fuel t
                else PVar name :: pieces fuel r
            end
          else PLit c :: pieces fuel t
      end
  end.

Definition parse_refs (s : string) : list piece := pieces (String.length s) s.

Definition expand_piece (mapping : string → string) (p : piece) : string :=
  match p with PLit c => str1 c | PVar x => mapping x end.

Definition Expand (s : string) (mapping : string → string) : string :=
  foldr (λ p r, expand_piece mapping p +:+ r) "" (parse_refs s).

(** ** Load *)
Section load.
Context {F : Type} (decode : string → result F) (listen : F → string) (set_listen : F → string → F).
(** The environment: [os.LookupEnv]. *)
Context (env : string → option string).

(** The names the mapping function appended to [missing], in order. *)
Definition missing_vars (s : string) : list string :=
  omap (λ p, match p with
             | PVar x => match env x with Some _ => None | None => Some x end
             | PLit _ => None
             end) (parse_refs s).

Definition mapping (name : string) : string := default "" (env name).

Fixpoint join_names (l : list string) : string :=
  match l with [] => "" | [x] => x | x :: l => x +:+ ", " +:+ join_names l end.

Definition Load (file : result string) : result F :=
  match file with
  | Err e => Err (EWrap "config: read" e)
  | Ok b =>
      let expanded := Expand b mapping in
      if decide (0 < length (missing_vars b))%nat
      then Err (EText ("config: undefined environment variable(s): " +:+ join_names (missing_vars b)))
      else
        match decode expanded with
        | Err e => Err (EWrap "config: parse" e)
        | Ok f => Ok (if decide (listen f = "") then set_listen f ":8080" else f)
        end
  end.
End load.

(** ** The declaration of a hyperloop *)
Record StateDef := mkStateDef {
  StoreKind : string;
  Dir : string;
  Addr : string;
  StUser : string;
  StPassword : string;
  StDatabase : string;
  CommitIntervalMs : Z;
}.

Record HyperloopDef := mkDef {
  DefID : string;
  AutoStart : option bool;
  DefMySQL : option MysqlSource.Config;
  DefQueues : Z;
  DefQueueCapacity : Z;
  MaxSize : Z;
  MaxWaitMs : Z;
  DefKeyOverrides : gmap string (list string);
  DefKafka : option KafkaSink.Config;
  DefState : StateDef;
  ShutdownTimeoutSec : Z;
}.

Definition AutoStartEnabled (h : HyperloopDef) : bool := default true (AutoStart h).

(** The address, user and password of the state store. *)
Definition stateCredentials (h : HyperloopDef) (mysql : MysqlSource.Config) : string * string * string :=
  if decide (Addr (DefState h) ≠ "")
  then (Addr (DefState h), StUser (DefState h), StPassword (DefState h))
  else
    let port := if decide (MysqlSource.Port mysql = 0%Z) then 3306%Z else MysqlSource.Port mysql in
    (MysqlSource.Host mysql +:+ ":" +:+ pretty port, MysqlSource.User mysql, MysqlSource.Password mysql).

(** ** Build *)
Section build.
(** What creating the client and opening each store answers; [quote] is [%q]. *)
Context (new_client : KafkaSink.Config → option goerr).
Context (mkdir : string → option goerr).
Context (open_mysql : string * string * string → string → option goerr).
Context (quote : string → string).

(** [kafka.New]. *)
Definition kafka_New (c : KafkaSink.Config) : option goerr :=
  let c := KafkaSink.withDefaults c in
  match KafkaSink.compression_of c with
  | None => Some (EText ("kafka: unknown compression " +:+ quote (KafkaSink.Compression c)))
  | Some _ => EWrap "kafka: client" <$> new_client c
  end.

Definition millisecond : Z := 1000000.

(** The pipeline's configuration. *)
Definition pipeline_config (h : HyperloopDef) : Hyperloop.Config :=
  Hyperloop.mkConfig (DefID h) (DefQueues h) (DefQueueCapacity h) (MaxSize h)
    (i64 (MaxWaitMs h * millisecond)) (DefKeyOverrides h)
    (i64 (CommitIntervalMs (DefState h) * millisecond))
    (i64 (ShutdownTimeoutSec h * (1000 * millisecond))).

Definition open_store (h : HyperloopDef) (mysql : MysqlSource.Config) : option goerr :=
  let opened :=
    if decide (StoreKind (DefState h) = "file")
    then inl (Store.NewFileStore (mkdir (Dir (DefState h))))
    else if decide (StoreKind (DefState h) = "mysql" ∨ StoreKind (DefState h) = "")
    then
      if decide (StDatabase (DefState h) = "")
      then inr (EText ("config: hyperloop " +:+ DefID h +:+
             ": state.database is required for the mysql store"))
      else inl (open_mysql (stateCredentials h mysql) (StDatabase (DefState h)))
    else inr (EText ("config: hyperloop " +:+ DefID h +:+ ": unknown state store " +:+
           quote (StoreKind (DefState h)))) in
  match opened with
  | inr e => Some e
  | inl (Some e) => Some (EWrap ("config: hyperloop " +:+ DefID h +:+ ": state store") e)
  | inl None => None
  end.

(** The source and the configuration the hyperloop runs with. *)
Definition Build (h : HyperloopDef) : result (MysqlSource.Source * Hyperloop.Config) :=
  if decide (DefID h = "") then Err (EText "config: hyperloop id is required")
  else
    match DefMySQL h with
    | None => Err (EText ("config: hyperloop " +:+ DefID h +:+ ": source.mysql is required"))
    | Some mysql =>
        match DefKafka h with
        | None => Err (EText ("config: hyperloop " +:+ DefID h +:+ ": sink.kafka is required"))
        | Some kafka =>
            match kafka_New kafka with
            | Some e => Err (EWrap ("config: hyperloop " +:+ DefID h) e)
            | None =>
                match open_store h mysql with
                | Some e => Err e
                | None =>
                    match Hyperloop.New_check (pipeline_config h) true true true with
                    | Some e => Err e
                    | None =>
                        Ok (MysqlSource.NewSource mysql, Hyperloop.withDefaults (pipeline_config h))
                    end
                end
            end
        end
    end.
End build.

(** ** Facts about references *)
Fixpoint no_dollar (s : string) : bool :=
  match s with "" => true | String c s => bool_decide (c ≠ "$"%char) && no_dollar s end.

Lemma pieces_no_dollar n s m :
  (String.length s ≤ n)%nat → no_dollar s = true →
  foldr (λ p r, expand_piece m p +:+ r) "" (pieces n s) = s.
Proof.
  revert s. induction n as [|n IH]; intros [|c s] Hn Hs; simpl in *; try done; [lia|].
  apply andb_true_iff in Hs as [Hc%bool_decide_eq_true Hs].
  rewrite (bool_decide_false (c = "$"%char)) by done. simpl. rewrite IH by (done || lia). done.
Qed.

Lemma Expand_no_dollar s m : no_dollar s = true → Expand s m = s.
Proof. by apply pieces_no_dollar. Qed.

Lemma missing_vars_elem env b x : x ∈ missing_vars env b ↔ PVar x ∈ parse_refs b ∧ env x = None.
Proof.
  unfold missing_vars. rewrite list_elem_of_omap. split.
  - intros ([c|y] & Hy & Hx); [done|]. destruct (env y) eqn:E; by simplify_eq.
  - intros [Hx Hn]. exists (PVar x). by rewrite Hn.
Qed.

Lemma missing_vars_nil env b :
  missing_vars env b = [] ↔ ∀ x, PVar x ∈ parse_refs b → is_Some (env x).
Proof.
  split.
  - intros Hm x Hx. destruct (env x) as [v|] eqn:E; [by exists v|].
    assert (x ∈ missing_vars env b) as Hin by by apply missing_vars_elem.
    rewrite Hm in Hin. by apply elem_of_nil in Hin.
  - intros Hall. destruct (missing_vars env b) as [|x l] eqn:E; [done|].
    assert (x ∈ missing_vars env b) as [Hx Hn]%missing_vars_elem by (rewrite E; by left).
    destruct (Hall x Hx). congruence.
Qed.

Lemma positive_or_pos x d : (0 < d)%Z → (0 < Hyperloop.positive_or x d)%Z.
Proof. unfold Hyperloop.positive_or. case_decide; lia. Qed.

Lemma source_port mysql : MysqlSource.Port (MysqlSource.src_cfg (MysqlSource.NewSource mysql)) ≠ 0%Z.
Proof. unfold MysqlSource.NewSource, MysqlSource.withDefaults. simpl. by case_decide. Qed.

Section build_facts.
Context (new_client : KafkaSink.Config → option goerr) (mkdir : string → option goerr).
Context (open_mysql : string * string * string → string → option goerr) (quote : string → string).

Lemma kafka_New_None kafka :
  kafka_New new_client quote kafka = None ↔
  is_Some (KafkaSink.compression_of (KafkaSink.withDefaults kafka)) ∧
  new_client (KafkaSink.withDefaults kafka) = None.
Proof.
  unfold kafka_New. destruct (KafkaSink.compression_of _) as [c|].
  - destruct (new_client _); simpl; (split; [done|]); [by intros []|done].
  - split; [done|by intros [[] _]].
Qed.

Lemma open_store_None h mysql :
  open_store mkdir open_mysql quote h mysql = None ↔
  StoreKind (DefState h) = "file" ∧ mkdir (Dir (DefState h)) = None ∨
  (StoreKind (DefState h) = "mysql" ∨ StoreKind (DefState h) = "") ∧
  StDatabase (DefState h) ≠ "" ∧
  open_mysql (stateCredentials h mysql) (StDatabase (DefState h)) = None.
Proof.
  unfold open_store, Store.NewFileStore. generalize (StoreKind (DefState h)). intros kind.
  destruct (decide (kind = "file")) as [->|Hk].
  - destruct (mkdir _); simpl; (split; [|intros [[_ ?]|[[?|?] _]]]); try done. by left.
  - destruct (decide (kind = "mysql" ∨ kind = "")) as [Hs|Hs].
    + destruct (decide (StDatabase (DefState h) = "")) as [->|Hd]; [split; [done|]|].
      { by intros [[? _]|(_ & ? & _)]. }
      destruct (open_mysql _ _); simpl; (split; [|intros [[? _]|(_ & _ & ?)]]); try done. by right.
    + split; [done|]. by intros [[? _]|[? _]].
Qed.
End build_facts.

Lemma build_fails {A B} (P : Prop) (Q : A → B → Prop) e :
  ¬ P → (is_Ok (@Err (A * B) e) ↔ P) ∧ (∀ a b, @Err (A * B) e = Ok (a, b) → Q a b).
Proof. intros HP. split; [|done]. split; [by intros []|done]. Qed.

(** ** A concrete configuration *)
Definition sample_env (x : string) : option string :=
  if decide (x = "DB_PASSWORD") then Some "s3cret" else None.

Definition sample_mysql : MysqlSource.Config :=
  MysqlSource.mkConfig "db" 0 "repl" "pw" 1001 true [] [] 0.
Definition sample_kafka : KafkaSink.Config := KafkaSink.mkConfig ["k:9092"] "" "" ∅ false 0.
Definition sample_def : HyperloopDef :=
  mkDef "shop" None (Some sample_mysql) 0 0 0 0 ∅ (Some sample_kafka)
    (mkStateDef "" "" "" "" "" "nomios" 0) 0.

(** ** Properties of the configuration *)

(** [C36] No reference expands to nothing silently: [Load] succeeds exactly when every
    variable the file refers to is defined and the expanded text decodes; an
    undefined one is an error whatever the rest of the file holds, and a file
    without references is decoded as it stands. *)
Theorem Load_no_silent_variable {F : Type} (decode : string → result F) (listen : F → string)
    (set_listen : F → string → F) (env : string → option string) (b : string) :
  (is_Ok (Load decode listen set_listen env (Ok b)) ↔
   (∀ x, PVar x ∈ parse_refs b → is_Some (env x)) ∧ is_Ok (decode (Expand b (mapping env)))) ∧
  (no_dollar b = true → Expand b (mapping env) = b).
Proof.
  split; [|apply Expand_no_dollar]. rewrite <-missing_vars_nil. unfold Load, is_Ok.
  destruct (missing_vars env b) as [|x l]; simpl.
  - destruct (decode _) as [f|e]; split; naive_solver.
  - split; [by intros []|by intros []].
Qed.

Lemma Load_no_silent_variable_witness :
  let b := "password: ${DB_PASSWORD}" in
  Load (F := string) Ok (λ _, "x") (λ f _, f) sample_env (Ok b) = Ok "password: s3cret" ∧
  (is_Ok (Load (F := string) Ok (λ _, "x") (λ f _, f) sample_env (Ok b)) ↔
   (∀ x, PVar x ∈ parse_refs b → is_Some (sample_env x)) ∧
   is_Ok (Ok (Expand b (mapping sample_env)))) ∧
  (no_dollar b = true → Expand b (mapping sample_env) = b).
Proof.
  split; [vm_compute; reflexivity|].
  apply (Load_no_silent_variable (F := string) Ok (λ _, "x") (λ f _, f) sample_env).
Defined.

(** [C37] [Build] succeeds exactly when the declaration has an identifier, a source, a
    sink with a known compression whose client can be created, and a known store
    that opens, a database named for the MySQL one; and what it builds can run:
    every size, interval and timeout is positive and the source has a port. *)
Theorem Build_ok_iff (new_client : KafkaSink.Config → option goerr) (mkdir : string → option goerr)
    (open_mysql : string * string * string → string → option goerr) (quote : string → string)
    (h : HyperloopDef) :
  (is_Ok (Build new_client mkdir open_mysql quote h) ↔
   DefID h ≠ "" ∧ ∃ mysql kafka, DefMySQL h = Some mysql ∧ DefKafka h = Some kafka ∧
     is_Some (KafkaSink.compression_of (KafkaSink.withDefaults kafka)) ∧
     new_client (KafkaSink.withDefaults kafka) = None ∧
     (StoreKind (DefState h) = "file" ∧ mkdir (Dir (DefState h)) = None ∨
      (StoreKind (DefState h) = "mysql" ∨ StoreKind (DefState h) = "") ∧
      StDatabase (DefState h) ≠ "" ∧
      open_mysql (stateCredentials h mysql) (StDatabase (DefState h)) = None)) ∧
  (∀ src cfg, Build new_client mkdir open_mysql quote h = Ok (src, cfg) →
     (0 < Hyperloop.Queues cfg)%Z ∧ (0 < Hyperloop.QueueCapacity cfg)%Z ∧
     (0 < Hyperloop.BatchMaxSize cfg)%Z ∧ (0 < Hyperloop.BatchMaxWait cfg)%Z ∧
     (0 < Hyperloop.CommitInterval cfg)%Z ∧ (0 < Hyperloop.ShutdownTimeout cfg)%Z ∧
     MysqlSource.Port (MysqlSource.src_cfg src) ≠ 0%Z).
Proof.
  set (cfg0 := Hyperloop.withDefaults (pipeline_config h)).
  assert (∀ mysql src cfg, (MysqlSource.NewSource mysql, cfg0) = (src, cfg) →
     (0 < Hyperloop.Queues cfg)%Z ∧ (0 < Hyperloop.QueueCapacity cfg)%Z ∧
     (0 < Hyperloop.BatchMaxSize cfg)%Z ∧ (0 < Hyperloop.BatchMaxWait cfg)%Z ∧
     (0 < Hyperloop.CommitInterval cfg)%Z ∧ (0 < Hyperloop.ShutdownTimeout cfg)%Z ∧
     MysqlSource.Port (MysqlSource.src_cfg src) ≠ 0%Z) as Hpos.
  { intros mysql src cfg [= <- <-]. split_and!; try (by apply positive_or_pos). apply source_port. }
  unfold Build, Hyperloop.New_check. fold cfg0.
  change (Hyperloop.CfgID cfg0) with (DefID h).
  destruct (decide (DefID h = "")) as [Hid|Hid]; [apply build_fails; by intros []|].
  destruct (DefMySQL h) as [mysql|]; [|apply build_fails; by intros (_ & ? & ? & ? & _)].
  destruct (DefKafka h) as [kafka|]; [|apply build_fails; by intros (_ & ? & ? & _ & ? & _)].
  destruct (kafka_New new_client quote kafka) as [e|] eqn:Hk.
  { apply build_fails. intros (_ & ? & ? & _ & [= <-] & Hc & Hn & _).
    assert (kafka_New new_client quote kafka = None) by by apply kafka_New_None. congruence. }
  apply kafka_New_None in Hk as [Hc Hn].
  destruct (open_store mkdir open_mysql quote h mysql) as [e|] eqn:Ho.
  { apply build_fails. intros (_ & ? & ? & [= <-] & _ & _ & _ & Hs).
    assert (open_store mkdir open_mysql quote h mysql = None) by by apply open_store_None. congruence. }
  apply open_store_None in Ho. split; [|intros src cfg [= <- <-]; by eapply Hpos].
  split; [|by eexists]. intros _. split; [done|]. by exists mysql, kafka.
Qed.

Lemma Build_ok_iff_witness :
  let open_mysql := λ a _, if decide (a.1.1 = "db:3306") then @None goerr else Some (EText "refused") in
  Build (λ _, None) (λ _, None) open_mysql (λ s, s) sample_def =
    Ok (MysqlSource.NewSource sample_mysql, Hyperloop.withDefaults (pipeline_config sample_def)) ∧
  (∀ src cfg, Build (λ _, None) (λ _, None) open_mysql (λ s, s) sample_def = Ok (src, cfg) →
     (0 < Hyperloop.Queues cfg)%Z ∧ (0 < Hyperloop.QueueCapacity cfg)%Z ∧
     (0 < Hyperloop.BatchMaxSize cfg)%Z ∧ (0 < Hyperloop.BatchMaxWait cfg)%Z ∧
     (0 < Hyperloop.CommitInterval cfg)%Z ∧ (0 < Hyperloop.ShutdownTimeout cfg)%Z ∧
     MysqlSource.Port (MysqlSource.src_cfg src) ≠ 0%Z).
Proof.
  split; [vm_compute; reflexivity|].
  apply (Build_ok_iff (λ _, None) (λ _, None)
    (λ a _, if decide (a.1.1 = "db:3306") then @None goerr else Some (EText "refused")) (λ s, s) sample_def).
Defined.
