(* ===== verification/KafkaLoop.v ===== *)
(** * A hyperloop over the Kafka sink

    The composition of pkg/hyperloop/hyperloop.go with pkg/publish/kafka/sink.go.
    Hyperloop.v describes the sink by the moves its interface allows: a batch is
    accepted, becomes durable and has its [done] callback run, or fails.  Here the
    same pipeline runs over the sink of KafkaSink.v: a publisher is inside
    [PublishBatch] for many steps, promises fire on the client's goroutines, also
    before [PublishBatch] returned, and the callback's instructions run between
    the instructions of the promise that brought [remaining] to zero.  The
    simulation shows that every run of the composition is a run of Hyperloop.v, so
    that what was proved there holds of the node as it is deployed. *)

From S2P Require Import Prelude GoStd State Event Keys Channel Dispatcher KafkaSink Hyperloop Pipeline.
From S2P Require EndToEnd.

(** ** The composed machine *)

(** What the [done] closure of a call captures, who is waiting for the call, and
    how far the callback is. *)
Record kmeta := mkMeta {
  m_queue : nat;
  m_batch : batch;
  m_open : bool;    (* what [drainBatch] returned with the batch *)
  m_cb : sub_pc;    (* [SubPending] before the callback, [SubDone] after it *)
  m_own : bool;     (* of this run, or of an earlier one over the same sink *)
}.

Record kstate := mkK {
  k_loop : hstate;         (* its [h_subs] stays empty *)
  k_sink : sink;
  k_metas : list kmeta;    (* one for each call of the sink *)
  k_in : gmap nat nat;     (* the call a publisher is inside of *)
  k_order : list nat;      (* observation: the calls, as they passed the select *)
}.

Inductive klabel :=
  | ILoop (l : hlabel)                (* a move the sink has no part in *)
  | IPublish (i : nat)                (* publisher [i] calls [PublishBatch] *)
  | IStale (es : batch)               (* a publisher an earlier run abandoned does *)
  | ICall (n : nat) (l : call_label)  (* an instruction of call [n] or its promises *)
  | IDone (n : nat)                   (* an instruction of call [n]'s callback *)
  | ITick                             (* the committer polls [Err] *)
  | IFlush (client : option goerr) (timeout : bool). (* [Flush] returns *)

#[export] Instance call_label_eq_dec : EqDecision call_label.
Proof. solve_decision. Defined.

(** What [PublishBatch] returns before its select. *)
Definition refused `{Serializer} (cfg : KafkaSink.Config) (s : sink) (es : batch) : option goerr :=
  match sinkErr (s_shared s) with
  | Some e => Some e
  | None => match (make_records cfg (s_topics s) es).1 with Err e => Some e | Ok _ => None end
  end.

(** What [Flush] returns, given what the client's flush answered and whether the
    context ended the wait; [None] while it waits. *)
Definition Flush_result (client : option goerr) (timeout : bool) (sh : shared) : option (option goerr) :=
  match client with
  | Some e => Some (Some (EWrap "kafka: flush" e))
  | None =>
      if timeout then Some (Some EDeadline)
      else if decide (pending sh = 0%Z) then Some (sinkErr sh) else None
  end.

(** Moves of the loop in which the sink has no part. *)
Definition loop_label (m : main_pc) (l : hlabel) : bool :=
  match l with
  | HPublishOk _ | HPublishErr _ _ | HAck _ | HDone _ | HReject _ _ | HTick
  | HStaleErr _ | HStaleCount _ | HStaleTime _ => false
  | HFlushed _ => match m with MainGotErr None false => false | _ => true end
  | _ => true
  end.

(** The callback has to run, and did not finish, before the promise's next
    instruction. *)
Definition callback_due (x : call) (m : kmeta) : bool :=
  match c_last x, m_cb m with
  | LLoadFailed, SubDone => false
  | LLoadFailed, _ => negb (c_failed x)
  | _, _ => false
  end.

Definition set_cb (k : kstate) (n : nat) (m : kmeta) (h : hstate) (cb : sub_pc) : kstate :=
  mkK h (k_sink k) (<[n := mkMeta (m_queue m) (m_batch m) (m_open m) cb (m_own m)]> (k_metas k)) (k_in k) (k_order k).

Definition with_loop (k : kstate) (h : hstate) : kstate :=
  mkK h (k_sink k) (k_metas k) (k_in k) (k_order k).

(** The loop, with what the sink's [Err] would return. *)
Definition seen_loop (k : kstate) : hstate := upd_sinkerr (k_loop k) (sinkErr (s_shared (k_sink k))).

(** A call of this run. *)
Definition own_call (k : kstate) (x : call) : Prop :=
  ∃ n m, k_metas k !! n = Some m ∧ m_own m = true ∧ s_calls (k_sink k) !! n = Some x.

(** What the runs before left: the sink, and the closures of its calls. *)
Record prior := mkPrior {
  p_sink : sink;
  p_metas : list kmeta;
}.

Definition no_prior : prior := mkPrior NewSink [].
Definition prior_of (k : kstate) : prior := mkPrior (k_sink k) (k_metas k).
Definition disown (m : kmeta) : kmeta := mkMeta (m_queue m) (m_batch m) (m_open m) (m_cb m) false.

Section step.
Context `{Serializer} (cfg : KafkaSink.Config).
Context (c : Hyperloop.Config) (key : NomiosEvent → string) (dt : Z → string).

Definition publish_call (i : nat) (k : kstate) : option kstate :=
  p ← h_pubs (k_loop k) !! i;
  match p, k_in k !! i with
  | PubSubmit (e :: b) open, None =>
      s ← KafkaSink.sink_step cfg (SPublish (e :: b)) (k_sink k);
      match refused cfg (k_sink k) (e :: b) with
      | Some err =>
          h ← hstep c key dt (HPublishErr i err) (seen_loop k);
          Some (mkK h s (k_metas k) (k_in k) (k_order k))
      | None =>
          Some (mkK (k_loop k) s (k_metas k ++ [mkMeta i (e :: b) open SubPending true])
                  (<[i := length (s_calls (k_sink k))]> (k_in k)) (k_order k))
      end
  | _, _ => None
  end.

(** The publisher is not the run's: nobody waits for what the call returns. *)
Definition stale_publish (es : batch) (k : kstate) : option kstate :=
  match es with
  | [] => None
  | _ =>
      s ← KafkaSink.sink_step cfg (SPublish es) (k_sink k);
      Some (mkK (k_loop k) s
              (match refused cfg (k_sink k) es with
               | Some _ => k_metas k
               | None => k_metas k ++ [mkMeta 0 es false SubPending false]
               end) (k_in k) (k_order k))
  end.

(** The client reports a cancellation only of a cancelled context; the context of
    an earlier run is. *)
Definition client_may (k : kstate) (m : kmeta) (e : goerr) : bool :=
  negb (m_own m) || negb (errors_Is e ECanceled) || hard_cancelled (k_loop k).

Definition sink_call (n : nat) (l : call_label) (k : kstate) : option kstate :=
  m ← k_metas k !! n;
  x ← s_calls (k_sink k) !! n;
  s ← KafkaSink.sink_step cfg (SCall n l) (k_sink k);
  let k1 := mkK (k_loop k) s (k_metas k) (k_in k) (k_order k) in
  match l with
  | KAdd => Some (if m_own m then mkK (k_loop k) s (k_metas k) (k_in k) (k_order k ++ [n]) else k1)
  | KReturn =>
      Some (if m_own m
            then mkK (set_pub (k_loop k) (m_queue m) (next_round (m_open m))) s (k_metas k)
                   (delete (m_queue m) (k_in k)) (k_order k)
            else k1)
  | KCtxDone =>
      if m_own m then
        if hard_cancelled (k_loop k) then
          h ← hstep c key dt (HPublishErr (m_queue m) ECanceled) (k_loop k);
          Some (mkK h s (k_metas k) (delete (m_queue m) (k_in k)) (k_order k))
        else None
      else Some k1
  | KAck _ (Some e) => if client_may k m e then Some k1 else None
  | KLast => if callback_due x m then None else Some k1
  | _ => Some k1
  end.

(** [done]: [tracker.DoneBatch], of the run's own tracker, [published.Add],
    [recordLastEvent]. *)
Definition callback (n : nat) (k : kstate) : option kstate :=
  m ← k_metas k !! n;
  x ← s_calls (k_sink k) !! n;
  let h := k_loop k in
  if callback_due x m then
    match m_cb m with
    | SubPending =>
        Some (set_cb k n m (if m_own m then do_op h (ODoneBatch (c_positions x)) else h) SubCount)
    | SubCount =>
        Some (set_cb k n m
                (upd_counts h (u64 (h_published h + Z.of_nat (length (c_positions x)))) (h_lastms h)) SubTime)
    | SubTime =>
        Some (set_cb k n m
                (upd_counts h (h_published h) (recordLastEvent (h_lastms h) (max_ms (m_batch m)))) SubDone)
    | _ => None
    end
  else None.

Definition kstep (l : klabel) (k : kstate) : option kstate :=
  match l with
  | ILoop l =>
      if loop_label (h_main (k_loop k)) l
      then with_loop k <$> hstep c key dt l (k_loop k) else None
  | IPublish i => publish_call i k
  | IStale es => stale_publish es k
  | ICall n l => sink_call n l k
  | IDone n => callback n k
  | ITick =>
      with_loop k <$> hstep c key dt HTick (seen_loop k)
  | IFlush client timeout =>
      match h_main (k_loop k) with
      | MainGotErr None false =>
          r ← Flush_result client timeout (s_shared (k_sink k));
          Some (with_loop k (upd_main (k_loop k) (MainFlushed r) (h_status (k_loop k))))
      | _ => None
      end
  end.

(** [run]: [Reset] clears the sticky error and nothing else; the calls of the runs
    before stay as they are. *)
Definition kinit (w : prior) (pos : Position) (published lastms failures : Z) : kstate :=
  mkK (hinit c pos published lastms failures)
    (mkSink (s_topics (p_sink w)) (Reset (s_shared (p_sink w))) (s_calls (p_sink w)))
    (disown <$> p_metas w) ∅ [].
End step.

(** ** The abstraction *)

Definition meta_of (k : kstate) (n : nat) : kmeta := default (mkMeta 0 [] false SubPending false) (k_metas k !! n).
Definition call_of (k : kstate) (n : nat) : call := default (new_call [] []) (s_calls (k_sink k) !! n).

(** A publisher whose call passed the select will return nil: seen from outside it
    already did. *)
Definition view_pub (k : kstate) (i : nat) (p : pub_pc) : pub_pc :=
  match k_in k !! i with
  | Some n => if started (call_of k n) then next_round (m_open (meta_of k n)) else p
  | None => p
  end.

Definition failed_call (x : call) : bool := bool_decide (Exists (λ p, err_set p = true) (c_promises x)).

(** A call seen as a batch handed to the sink. *)
Definition view_sub (k : kstate) (n : nat) : sub :=
  let m := meta_of k n in
  mkSub (m_queue m) (m_batch m) (max_ms (m_batch m))
    (if failed_call (call_of k n) then SubFailed else m_cb m).

Definition plug (v : nat → pub_pc → pub_pc) (xs : list sub) (e : option goerr) (h : hstate) : hstate :=
  upd_sinkerr (upd_subs (upd_pubs h (imap v (h_pubs h))) xs) e.

(** The state of Hyperloop.v a composed state stands for. *)
Definition abs (k : kstate) : hstate :=
  plug (view_pub k) (view_sub k <$> k_order k) (sinkErr (s_shared (k_sink k))) (k_loop k).

(** ** Framing: moves of the loop do not see the sink *)
Section frame.
Context (c : Hyperloop.Config) (key : NomiosEvent → string) (dt : Z → string).
Implicit Types (h : hstate).

(** Only publishers at [PublishBatch] are seen elsewhere. *)
Definition view_ok (v : nat → pub_pc → pub_pc) h : Prop :=
  ∀ i p, h_pubs h !! i = Some p → (∀ q, v i q = q) ∨ ∃ e b o, p = PubSubmit (e :: b) o.

Lemma fail_plug v xs e h r : fail (plug v xs e h) r = plug v xs e (fail h r).
Proof. unfold fail. destruct r as [r|]; [|done]. destruct (errors_Is r ECanceled); [done|]. by destruct (h_err h) eqn:Hh; simpl; rewrite Hh. Qed.

Lemma imap_insert {A} (f : nat → A → A) (l : list A) i x :
  imap f (<[i := x]> l) = <[i := f i x]> (imap f l).
Proof.
  revert f i. induction l as [|y l IH]; intros f [|i]; simpl; try done.
  f_equal. apply (IH (f ∘ S)).
Qed.

Lemma set_pub_plug v xs e h i p :
  v i p = p → set_pub (plug v xs e h) i p = plug v xs e (set_pub h i p).
Proof. intros Hv. unfold set_pub, plug. simpl. by rewrite imap_insert, Hv. Qed.

Lemma finished_plug v xs e h : view_ok v h → finished h = true → finished (plug v xs e h) = true.
Proof.
  unfold finished. simpl. destruct (h_src h), (h_dgo h); try done. intros Hv.
  rewrite !forallb_forall. intros Hall p Hp%list_elem_of_In.
  apply list_elem_of_lookup in Hp as [i Hi]. rewrite list_lookup_imap in Hi.
  destruct (h_pubs h !! i) as [q|] eqn:Hq; simplify_eq/=.
  assert (q = PubGone) as ->.
  { specialize (Hall q). rewrite <-list_elem_of_In in Hall.
    destruct q; try done; by (discriminate Hall; eapply list_elem_of_lookup_2). }
  destruct (Hv _ _ Hq) as [->|(?&?&?&?)]; done.
Qed.

Lemma publisher_frame v xs e h i p l h' :
  view_ok v h → h_pubs h !! i = Some p →
  match l with HRecv _ | HClosed _ | HTimer _ | HPubCtx _ | HSkip _ | HPubExit _ => True | _ => False end →
  publisher_step c key i p l h = Some h' →
  publisher_step c key i p l (plug v xs e h) = Some (plug v xs e h') ∧ v i p = p.
Proof.
  intros Hv Hi Hl Hstep.
  assert (∀ q, v i q = q) as Hid.
  { destruct (Hv _ _ Hi) as [|(?&?&?&->)]; [done|]. by destruct l. }
  split; [|done].
  assert (Hset : ∀ h0 q, set_pub (plug v xs e h0) i q = plug v xs e (set_pub h0 i q))
    by (intros; by apply set_pub_plug).
  destruct l; try done; destruct p as [|b|b o|r|]; try done; cbn [publisher_step] in Hstep |- *;
    change (h_disp (plug v xs e h)) with (h_disp h);
    change (hard_cancelled (plug v xs e h)) with (hard_cancelled h);
    repeat match type of Hstep with
    | (_ ← ?x; _) = Some _ => destruct x; cbn [mbind option_bind] in Hstep |- *; [|done]
    | (if ?b then _ else _) = Some _ => destruct b; [|try done]
    | match ?b with [] => _ | _ => _ end = Some _ => destruct b; [|done]
    end; simplify_eq; rewrite ?fail_plug; change (upd_disp (plug v xs e h)) with (λ d, plug v xs e (upd_disp h d));
    cbn beta; by rewrite Hset.
Qed.

(** Computes a step of the loop from the one of the framed state. *)
Ltac frame_step Hstep v xs e h :=
  change (h_src (plug v xs e h)) with (h_src h) in *; change (h_dgo (plug v xs e h)) with (h_dgo h) in *;
  change (h_disp (plug v xs e h)) with (h_disp h) in *; change (h_main (plug v xs e h)) with (h_main h) in *;
  change (h_commit (plug v xs e h)) with (h_commit h) in *;
  change (h_tracker (plug v xs e h)) with (h_tracker h) in *;
  repeat match type of Hstep with
  | (_ ← ?x; _) = Some _ => destruct x; cbn [mbind option_bind] in Hstep |- *; [|done]
  | _ <$> ?x = Some _ => destruct x; cbn [fmap option_fmap option_map] in Hstep |- *; [|done]
  | (match ?x with _ => _ end) = Some _ => destruct x eqn:?; try done
  end; simplify_eq; rewrite ?fail_plug; try done.

Lemma loop_frame v xs e h l h' :
  view_ok v h → loop_label (h_main h) l = true →
  hstep c key dt l h = Some h' → hstep c key dt l (plug v xs e h) = Some (plug v xs e h').
Proof.
  intros Hv Hl Hstep. destruct l; try done; cbn [hstep] in Hstep |- *.
  all: cbn [source_step dispatcher_step committer_step main_step] in Hstep |- *.
  all: try (destruct (h_pubs h !! i) as [p|] eqn:Hp; [|done]; cbn [mbind option_bind] in Hstep;
    lazymatch type of Hstep with publisher_step _ _ _ _ ?l _ = _ =>
      destruct (publisher_frame v xs e h i p l h' Hv Hp I Hstep) as [Hpub Hview] end;
    change (h_pubs (plug v xs e h)) with (imap v (h_pubs h));
    rewrite list_lookup_imap, Hp; cbn [mbind option_bind fmap option_fmap option_map]; by rewrite Hview).
  all: frame_step Hstep v xs e h.
  all: by rewrite finished_plug.
Qed.
End frame.

(** ** How the abstraction moves *)
Section abstraction.
Implicit Types (k : kstate) (v : nat → pub_pc → pub_pc).

Lemma imap_view_insert v v' (ps : list pub_pc) i q q' :
  (∀ j p, j ≠ i → v' j p = v j p) → v' i q = q' → imap v' (<[i := q]> ps) = <[i := q']> (imap v ps).
Proof.
  intros Hv Hq. apply list_eq. intros j. rewrite list_lookup_imap.
  destruct (decide (j = i)) as [->|Hne].
  - destruct (decide (i < length ps)%nat) as [Hlt|Hge].
    + rewrite !list_lookup_insert_eq by (rewrite ?length_imap; done). simpl. by rewrite Hq.
    + rewrite !lookup_ge_None_2; [done|by rewrite length_insert, length_imap; lia|by rewrite length_insert; lia].
  - rewrite !list_lookup_insert_ne by done. rewrite list_lookup_imap.
    destruct (ps !! j); simpl; [|done]. by rewrite Hv.
Qed.

(** Nothing an observer sees has changed. *)
Lemma abs_ext k k' :
  k_loop k' = k_loop k → k_in k' = k_in k → k_order k' = k_order k →
  sinkErr (s_shared (k_sink k')) = sinkErr (s_shared (k_sink k)) →
  (∀ n, meta_of k' n = meta_of k n) →
  (∀ n, started (call_of k' n) = started (call_of k n)) →
  (∀ n, failed_call (call_of k' n) = failed_call (call_of k n)) → abs k' = abs k.
Proof.
  intros Hl Hin Ho He Hm Hs Hf. unfold abs, plug. rewrite Hl, Ho, He. f_equal. f_equal.
  - f_equal. apply imap_ext. intros i p _. unfold view_pub. rewrite Hin.
    destruct (k_in k !! i) as [n|]; [|done]. by rewrite Hs, Hm.
  - apply list_fmap_ext. intros j n _. unfold view_sub. by rewrite Hf, Hm.
Qed.

Lemma plug_ext v v' xs xs' e e' h :
  (∀ i p, h_pubs h !! i = Some p → v i p = v' i p) → xs = xs' → e = e' →
  plug v xs e h = plug v' xs' e' h.
Proof. intros Hv -> ->. unfold plug. do 3 f_equal. by apply imap_ext. Qed.

Lemma call_of_insert k s n x x' :
  s_calls (k_sink k) !! n = Some x → s_calls s = <[n := x']> (s_calls (k_sink k)) →
  ∀ h ms ins o n', call_of (mkK h s ms ins o) n' = if decide (n' = n) then x' else call_of k n'.
Proof.
  intros Hx Hs h ms ins o n'. unfold call_of. simpl. rewrite Hs. destruct (decide (n' = n)) as [->|Hne].
  - by rewrite list_lookup_insert_eq by by eapply lookup_lt_Some.
  - by rewrite list_lookup_insert_ne.
Qed.

Lemma call_of_Some k n x : s_calls (k_sink k) !! n = Some x → call_of k n = x.
Proof. intros Hx. unfold call_of. by rewrite Hx. Qed.
Lemma meta_of_Some k n m : k_metas k !! n = Some m → meta_of k n = m.
Proof. intros Hm. unfold meta_of. by rewrite Hm. Qed.

(** An instruction of a call that shows nothing outside. *)
Lemma abs_call_stutter k s n x x' :
  s_calls (k_sink k) !! n = Some x → s_calls s = <[n := x']> (s_calls (k_sink k)) →
  started x' = started x → failed_call x' = failed_call x →
  sinkErr (s_shared s) = sinkErr (s_shared (k_sink k)) →
  abs (mkK (k_loop k) s (k_metas k) (k_in k) (k_order k)) = abs k.
Proof.
  intros Hx Hs Hst Hf He. apply abs_ext; try done; intros n';
    rewrite (call_of_insert k s n x x' Hx Hs); destruct (decide (n' = n)) as [->|]; try done;
    by rewrite (call_of_Some k n x Hx).
Qed.

(** One batch moves. *)
Lemma view_subs_insert k k' j n :
  k_order k !! j = Some n → NoDup (k_order k) →
  (∀ n', n' ≠ n → view_sub k' n' = view_sub k n') →
  view_sub k' <$> k_order k = <[j := view_sub k' n]> (view_sub k <$> k_order k).
Proof.
  intros Hj Hnd Hv. apply list_eq. intros i. rewrite list_lookup_fmap.
  destruct (decide (i = j)) as [->|Hne].
  - rewrite list_lookup_insert_eq; [by rewrite Hj|]. rewrite length_fmap. by eapply lookup_lt_Some.
  - rewrite list_lookup_insert_ne, list_lookup_fmap by done.
    destruct (k_order k !! i) as [n'|] eqn:Hi; simpl; [|done]. f_equal. apply Hv. intros ->.
    apply Hne. by eapply NoDup_lookup.
Qed.
End abstraction.

(** ** The invariant *)

(** The call is still running on its publisher. *)
Definition inside (x : call) : bool :=
  match c_pc x with CWaiting | CHolding | CSubmitting _ => true | _ => false end.

Section inv.
Context `{Serializer} (cfg : KafkaSink.Config).
Context (c : Hyperloop.Config) (key : NomiosEvent → string) (dt : Z → string).
Implicit Types (k : kstate).

(** The record of an event. *)
Definition record_for (e : NomiosEvent) (r : krecord) : Prop :=
  Serialize e = Ok (k_key r, k_value r) ∧ k_topic r = resolve_topic cfg (EvSource e).

Record meta_ok (m : kmeta) (x : call) : Prop := {
  mo_pos : c_positions x = EvPosition <$> m_batch m;
  mo_rec : Forall2 record_for (m_batch m) (c_records x);
  mo_batch : m_batch m ≠ [];
  mo_cb : m_cb m = SubPending ∨
    c_failed x = false ∧ (c_last x = LLoadFailed ∨ c_last x = LWgDone ∨ c_last x = LFinished);
  mo_ok : m_cb m ≠ SubFailed;
  mo_after : c_last x = LWgDone ∨ c_last x = LFinished → c_failed x = false → m_cb m = SubDone;
}.

Record kinv k : Prop := {
  kv_sink : sink_inv cfg (k_sink k);
  kv_errs : ∀ n m x, k_metas k !! n = Some m → m_own m = true → s_calls (k_sink k) !! n = Some x →
    failed_call x = true → sinkErr (s_shared (k_sink k)) ≠ None;
  kv_topics : topics_ok cfg (s_topics (k_sink k));
  kv_metas : Forall2 meta_ok (k_metas k) (s_calls (k_sink k));
  kv_in : ∀ i n, k_in k !! i = Some n → ∃ m x, k_metas k !! n = Some m ∧
    s_calls (k_sink k) !! n = Some x ∧ m_queue m = i ∧ inside x = true ∧
    h_pubs (k_loop k) !! i = Some (PubSubmit (m_batch m) (m_open m));
  kv_own : ∀ i n, k_in k !! i = Some n → m_own (meta_of k n) = true;
  kv_pub : ∀ n m x, k_metas k !! n = Some m → m_own m = true → s_calls (k_sink k) !! n = Some x →
    inside x = true → k_in k !! m_queue m = Some n;
  kv_nodup : NoDup (k_order k);
  kv_order : ∀ n, n ∈ k_order k ↔
    m_own (meta_of k n) = true ∧ ∃ x, s_calls (k_sink k) !! n = Some x ∧ started x = true;
}.

(** What runs leave to the next one. *)
Record prior_ok (w : prior) : Prop := {
  po_sink : sink_inv cfg (p_sink w);
  po_topics : topics_ok cfg (s_topics (p_sink w));
  po_metas : Forall2 meta_ok (p_metas w) (s_calls (p_sink w));
}.

Lemma no_prior_ok : prior_ok no_prior.
Proof.
  split; [apply NewSink_inv| |constructor]. intros m t. cbn. by rewrite lookup_empty.
Qed.

Lemma kinv_prior k : kinv k → prior_ok (prior_of k).
Proof. intros Hk. split; apply Hk. Qed.

Lemma meta_of_disown w pos pub ms fl n : m_own (meta_of (kinit c w pos pub ms fl) n) = false.
Proof. unfold meta_of. simpl. rewrite list_lookup_fmap. by destruct (p_metas w !! n). Qed.

Lemma kinit_inv w pos pub ms fl : prior_ok w → kinv (kinit c w pos pub ms fl).
Proof.
  intros [Hs Ht Hm]. split; try done.
  - by destruct Hs.
  - intros n m x Hmn Ho. apply list_lookup_fmap_Some in Hmn as (m'&->&_). done.
  - apply Forall2_fmap_l. eapply Forall2_impl; [exact Hm|]. by intros m x [? ? ? ? ? ?].
  - intros n m x Hmn Ho. apply list_lookup_fmap_Some in Hmn as (m'&->&_). done.
  - constructor.
  - intros n. rewrite meta_of_disown. split; [by intros ?%elem_of_nil|by intros [? _]].
Qed.

Lemma view_of_inside k : kinv k → view_ok (view_pub k) (k_loop k).
Proof.
  intros Hk i p Hi. unfold view_pub. destruct (k_in k !! i) as [n|] eqn:Hin; [|by left].
  destruct (kv_in k Hk _ _ Hin) as (m&x&Hm&_&_&_&Hp). right. simplify_eq.
  pose proof (Forall2_lookup_l _ _ _ _ _ (kv_metas k Hk) Hm) as (x'&_&Hok).
  destruct (m_batch m) as [|e b] eqn:Hb; [by destruct (mo_batch _ _ Hok)|]. by exists e, b, (m_open m).
Qed.

(** *** One call *)

Lemma call_step_frame cap l sh x sh' x' :
  call_step cap l sh x = Some (sh', x') →
  c_records x' = c_records x ∧ c_positions x' = c_positions x.
Proof.
  intros Hstep. destruct l; cbn [call_step promise_step last_step] in Hstep;
    unfold promise_step, last_step in Hstep; repeat case_match; simplify_eq; by split.
Qed.

(** Once the last promise took over, nothing but its own instructions moves. *)
Lemma call_step_last cap l sh x sh' x' :
  call_step cap l sh x = Some (sh', x') → call_inv x → c_last x ≠ LNone →
  l ≠ KLast → c_last x' = c_last x ∧ c_failed x' = c_failed x.
Proof.
  intros Hstep Hinv Hl Hk. destruct l; try done; cbn [call_step] in Hstep;
    unfold promise_step in Hstep; repeat case_match; simplify_eq; call_simpl; try done;
    try match goal with Hj : c_promises _ !! _ = Some _ |- _ =>
      destruct (Hl (undec_last _ _ _ Hinv Hj eq_refl)) end.
  destruct Hl. apply (ci_fresh x Hinv). unfold started. by case_match.
Qed.

(** The last promise's own instructions. *)
Lemma last_step_stage sh x sh' x' :
  last_step sh x = Some (sh', x') →
  c_failed x' = c_failed x ∧ c_promises x' = c_promises x ∧ c_pc x' = c_pc x ∧
  ((c_last x = LRelease ∧ c_last x' = LLoadFailed) ∨ (c_last x = LLoadFailed ∧ c_last x' = LWgDone) ∨
   (c_last x = LWgDone ∧ c_last x' = LFinished)).
Proof. unfold last_step. intros Hstep. repeat case_match; simplify_eq; call_simpl; eauto 10. Qed.

(** Only the last promise, and the decrement to zero, change the stage. *)
Lemma call_step_stage cap l sh x sh' x' :
  call_step cap l sh x = Some (sh', x') → l ≠ KLast → c_last x' = c_last x ∨ c_last x' = LRelease.
Proof.
  intros Hstep Hk. destruct l; try done; cbn [call_step] in Hstep;
    unfold promise_step in Hstep; repeat case_match; simplify_eq; call_simpl; auto.
Qed.

Lemma meta_ok_step cap l sh x sh' x' m :
  call_step cap l sh x = Some (sh', x') → call_inv x → (l = KLast → callback_due x m = false) →
  meta_ok m x → meta_ok m x'.
Proof.
  intros Hstep Hinv Hcb [Hpos Hrec Hb Hm Hne Haft].
  destruct (call_step_frame _ _ _ _ _ _ Hstep) as [Hr Hp].
  split; rewrite ?Hr, ?Hp; try done.
  - destruct Hm as [|[Hf Hl]]; [by left|right].
    assert (c_last x ≠ LNone) as Hn by (intros E; rewrite E in Hl; naive_solver).
    destruct (decide (l = KLast)) as [->|Hk].
    + destruct (last_step_stage _ _ _ _ Hstep) as (->&_&_&Hst). split; [done|]. intuition congruence.
    + destruct (call_step_last _ _ _ _ _ _ Hstep Hinv Hn Hk) as [-> ->]. auto.
  - intros Hl' Hf'. destruct (decide (l = KLast)) as [->|Hk].
    + destruct (last_step_stage _ _ _ _ Hstep) as (Hf&_&_&Hst). rewrite Hf in Hf'.
      destruct Hst as [[_ E]|[[E _]|[E _]]].
      * rewrite E in Hl'. naive_solver.
      * specialize (Hcb eq_refl). unfold callback_due in Hcb. rewrite E, Hf' in Hcb. by destruct (m_cb m).
      * apply Haft; [by left|done].
    + destruct (call_step_stage _ _ _ _ _ _ Hstep Hk) as [E|E]; [|rewrite E in Hl'; naive_solver].
      rewrite E in Hl'. apply Haft; [done|].
      destruct (call_step_last _ _ _ _ _ _ Hstep Hinv) as [_ <-]; try done.
      intros E'. rewrite E' in Hl'. naive_solver.
Qed.

(** A failure a call shows has been recorded. *)
Lemma call_step_failed cap l sh x sh' x' :
  call_step cap l sh x = Some (sh', x') → failed_call x' = true →
  (failed_call x = true → sinkErr sh ≠ None) → sinkErr sh' ≠ None.
Proof.
  intros Hstep Hf He. destruct (call_step_err _ _ _ _ _ _ Hstep) as [Hkeep Hnew].
  apply bool_decide_eq_true in Hf. destruct (Hnew Hf) as [Hx|]; [|done].
  apply Hkeep, He. by apply bool_decide_eq_true.
Qed.

(** *** The loop *)

Definition keeps_calls (h h' : hstate) : Prop :=
  ∀ i e b o, h_pubs h !! i = Some (PubSubmit (e :: b) o) → h_pubs h' !! i = Some (PubSubmit (e :: b) o).

Lemma set_pub_keeps h i p q e b o j :
  h_pubs h !! i = Some p → (∀ e b o, p ≠ PubSubmit (e :: b) o) →
  h_pubs h !! j = Some (PubSubmit (e :: b) o) → <[i := q]> (h_pubs h) !! j = Some (PubSubmit (e :: b) o).
Proof.
  intros Hi Hp Hj. rewrite list_lookup_insert_ne; [done|]. intros ->. rewrite Hi in Hj.
  injection Hj as ->. by eapply Hp.
Qed.

Lemma fail_pubs h r : h_pubs (fail h r) = h_pubs h.
Proof. by destruct (fail_frame h r) as (_&_&->&_). Qed.

Lemma loop_keeps l h h' :
  hcase c key h l h' → loop_label (h_main h) l = true ∨ l = HTick → keeps_calls h h'.
Proof.
  intros Hc Hl.
  intros j e b o Hj. destruct Hc; destruct Hl as [Hl|Hl]; try done; simpl; rewrite ?fail_pubs; try done;
    (eapply set_pub_keeps; [by eauto| |done]; intros; by (intros ->; done) || done).
Qed.

Lemma kinv_loop k h' : kinv k → keeps_calls (k_loop k) h' → kinv (with_loop k h').
Proof.
  intros Hk Hpubs. pose proof Hk as [Hs He Ht Hm Hin Hown Hpub Hnd Ho]. split; simpl; try done.
  intros i n Hi. destruct (Hin _ _ Hi) as (m&x&Hmn&Hx&?&?&Hpi). exists m, x. split_and!; try done.
  destruct (Forall2_lookup_l _ _ _ _ _ Hm Hmn) as (x'&_&Hok).
  destruct (m_batch m) eqn:Hb; [by destruct (mo_batch _ _ Hok)|]. by apply Hpubs.
Qed.

(** The callback's instructions change the closure's progress only. *)
Lemma meta_of_set_cb k n m h cb n' :
  k_metas k !! n = Some m →
  meta_of (set_cb k n m h cb) n' =
  if decide (n' = n) then mkMeta (m_queue m) (m_batch m) (m_open m) cb (m_own m) else meta_of k n'.
Proof.
  intros Hm. unfold meta_of. simpl. destruct (decide (n' = n)) as [->|Hne].
  - by rewrite list_lookup_insert_eq by by eapply lookup_lt_Some.
  - by rewrite list_lookup_insert_ne.
Qed.

Lemma own_set_cb k n m h cb n' :
  k_metas k !! n = Some m → m_own (meta_of (set_cb k n m h cb) n') = m_own (meta_of k n').
Proof.
  intros Hm. rewrite meta_of_set_cb by done. case_decide; [|done]. subst. by rewrite (meta_of_Some k n m).
Qed.

Lemma kinv_callback n k k' : callback n k = Some k' → kinv k → kinv k'.
Proof.
  unfold callback. intros Hstep Hk. pose proof Hk as [Hs He Ht Hm Hin Hown Hpub Hnd Ho].
  destruct (k_metas k !! n) as [m|] eqn:Hmn; simpl in Hstep; [|done].
  destruct (s_calls (k_sink k) !! n) as [x|] eqn:Hx; simpl in Hstep; [|done].
  destruct (callback_due x m) eqn:Hdue; [|done].
  assert (∃ h' cb, k' = set_cb k n m h' cb ∧ h_pubs h' = h_pubs (k_loop k) ∧
    cb ≠ SubFailed ∧ c_last x = LLoadFailed ∧ c_failed x = false)
    as (h'&cb&->&Hpubs&Hcb&Hl&Hfl).
  { unfold callback_due in Hdue. destruct (c_last x) eqn:Hl, (m_cb m); try done;
      rewrite ?negb_true_iff in Hdue; injection Hstep as <-; eexists _, _; (split; [done|]);
      split_and!; try done; by destruct (m_own m). }
  assert (Hlt : (n < length (k_metas k))%nat) by by eapply lookup_lt_Some.
  assert (Hsame : ∀ n' m', k_metas (set_cb k n m h' cb) !! n' = Some m' → ∃ m0, k_metas k !! n' = Some m0 ∧
    m_own m' = m_own m0 ∧ m_queue m' = m_queue m0).
  { intros n' m' Hm'. apply list_lookup_insert_Some in Hm' as [(<-&<-&_)|[_ Hm']]; eauto. }
  split; try done.
  - intros n' m' x' Hm' Ho' Hx'. destruct (Hsame _ _ Hm') as (m0&Hm0&E&_). rewrite E in Ho'. by eapply He.
  - change (Forall2 meta_ok (<[n := mkMeta (m_queue m) (m_batch m) (m_open m) cb (m_own m)]> (k_metas k)) (s_calls (k_sink k))).
    rewrite <-(list_insert_id _ _ _ Hx). apply Forall2_insert; [done|].
    pose proof (Forall2_lookup_lr _ _ _ _ _ _ Hm Hmn Hx) as [? ? ? ? ? ?]. split; try done; simpl.
    + right. split; [done|by left].
    + intros [E|E]; by rewrite Hl in E.
  - intros i n' Hi. destruct (Hin _ _ Hi) as (m'&x'&Hm'&Hx'&?&?&Hpi). simpl. rewrite Hpubs.
    destruct (decide (n' = n)) as [->|Hne].
    + simplify_eq. eexists _, _. rewrite list_lookup_insert_eq by done. by split_and!.
    + exists m', x'. by rewrite list_lookup_insert_ne.
  - intros i n' Hi. rewrite own_set_cb by done. by eapply Hown.
  - intros n' m' x' Hm' Ho' Hx' Hi. destruct (Hsame _ _ Hm') as (m0&Hm0&E&Hq). rewrite E in Ho'. rewrite Hq.
    by eapply Hpub.
  - intros n'. rewrite own_set_cb by done. apply Ho.
Qed.

(** *** The calls *)

(** A publisher outside of any call moves. *)
Lemma kinv_set_pub k i q :
  kinv k → k_in k !! i = None → kinv (with_loop k (set_pub (k_loop k) i q)).
Proof.
  intros Hk Hi. pose proof Hk as [Hs He Ht Hm Hin Hown Hpub Hnd Ho]. split; simpl; try done.
  intros j n Hj. destruct (Hin _ _ Hj) as (m&x&?&?&?&?&Hpj). exists m, x. split_and!; try done.
  rewrite list_lookup_insert_ne; [done|]. intros ->. congruence.
Qed.

(** The sink resolved some topics. *)
Lemma kinv_topics k topics :
  kinv k → topics_ok cfg topics →
  kinv (mkK (k_loop k) (mkSink topics (s_shared (k_sink k)) (s_calls (k_sink k))) (k_metas k) (k_in k) (k_order k)).
Proof. intros [Hs He Ht Hm Hin Hown Hpub Hnd Ho] Htop. split; simpl; try done. by destruct Hs. Qed.

Lemma meta_of_snoc k h s ms m ins o n :
  k_metas k = ms →
  meta_of (mkK h s (ms ++ [m]) ins o) n = if decide (n = length ms) then m else meta_of k n.
Proof.
  intros <-. unfold meta_of. simpl. case_decide as Hn.
  - subst. by rewrite list_lookup_middle.
  - destruct (decide (n < length (k_metas k))%nat).
    + by rewrite lookup_app_l.
    + by rewrite !lookup_ge_None_2 by (rewrite ?length_app; simpl; lia).
Qed.

(** A call begins, a publisher's or an abandoned one's. *)
Lemma kinv_begin k i b o own rs ps topics :
  kinv k → (own = true → k_in k !! i = None ∧ h_pubs (k_loop k) !! i = Some (PubSubmit b o)) → b ≠ [] →
  sinkErr (s_shared (k_sink k)) = None → make_records cfg (s_topics (k_sink k)) b = (Ok (rs, ps), topics) →
  kinv (mkK (k_loop k) (mkSink topics (s_shared (k_sink k)) (s_calls (k_sink k) ++ [new_call rs ps]))
    (k_metas k ++ [mkMeta i b o SubPending own])
    (if own then <[i := length (s_calls (k_sink k))]> (k_in k) else k_in k) (k_order k)).
Proof.
  intros Hk Hi Hb Hse Hmr. pose proof Hk as [Hs He Ht Hm Hin Hown Hpub Hnd Ho].
  set (s' := mkSink _ _ _). set (k' := mkK _ _ _ _ _).
  assert (KafkaSink.sink_step cfg (SPublish b) (k_sink k) = Some s') as Hstep
    by (cbn [KafkaSink.sink_step]; by rewrite Hse, Hmr).
  destruct (make_records_ok cfg _ _ _ _ Ht Hmr) as [Htop Hrs].
  destruct (Hrs _ _ eq_refl) as [Hps Hrec].
  pose proof (Forall2_length _ _ _ Hm) as Hlen.
  assert (Hnew : ∀ n m x, k_metas k' !! n = Some m → s_calls s' !! n = Some x →
    (k_metas k !! n = Some m ∧ s_calls (k_sink k) !! n = Some x) ∨
    (n = length (k_metas k) ∧ m = mkMeta i b o SubPending own ∧ x = new_call rs ps)).
  { intros n m x Hmn Hx. apply lookup_app_Some in Hx as [Hx|[Hge Hx]].
    - left. split; [|done]. unfold k' in Hmn. simpl in Hmn.
      by rewrite lookup_app_l in Hmn by (rewrite Hlen; by eapply lookup_lt_Some).
    - right. apply list_lookup_singleton_Some in Hx as [Hn <-]. simpl in Hmn.
      rewrite lookup_app_r, Hlen, Hn in Hmn by lia. injection Hmn as <-. split_and!; [lia|done|done]. }
  assert (Hmeta : ∀ n, n ≠ length (k_metas k) → meta_of k' n = meta_of k n).
  { intros n Hn. unfold k'. rewrite (meta_of_snoc k) by done. by rewrite decide_False. }
  assert (Hinlt : ∀ j n, k_in k !! j = Some n → n ≠ length (k_metas k)).
  { intros j n Hj. destruct (Hin _ _ Hj) as (m&x&Hm1&_). apply lookup_lt_Some in Hm1. lia. }
  split; try done.
  - by eapply sink_step_inv.
  - intros n m x Hmn Hom Hx Hf. destruct (Hnew _ _ _ Hmn Hx) as [[??]|(_&_&->)]; [by eapply He|].
    apply bool_decide_eq_true, Exists_exists in Hf as (p&Hp&Hpe). simpl in Hp.
    by apply list_elem_of_lookup in Hp as [j [-> _]%lookup_replicate].
  - simpl. apply Forall2_app; [done|]. constructor; [|constructor]. split; simpl; try done; [by left|].
    intros [|]; done.
  - intros j n Hj.
    assert (k_in k !! j = Some n ∨ own = true ∧ j = i ∧ n = length (k_metas k)) as [Hj'|(->&->&->)].
    { unfold k' in Hj. simpl in Hj. destruct own; [|by left].
      apply lookup_insert_Some in Hj as [[<- <-]|[_ Hj]]; [right; by rewrite Hlen|by left]. }
    + destruct (Hin _ _ Hj') as (m&x&Hm1&Hx1&?). exists m, x. simpl.
      by rewrite !lookup_app_l by (by eapply lookup_lt_Some).
    + exists (mkMeta i b o SubPending true), (new_call rs ps). destruct (Hi eq_refl) as [_ Hpi].
      simpl. rewrite list_lookup_middle by done. rewrite Hlen, list_lookup_middle by done. by split_and!.
  - intros j n Hj. destruct (decide (n = length (k_metas k))) as [->|Hn].
    + unfold k'. rewrite (meta_of_snoc k), decide_True by done. simpl. unfold k' in Hj. simpl in Hj.
      destruct own; [done|]. by destruct (Hinlt _ _ Hj).
    + rewrite Hmeta by done. unfold k' in Hj. simpl in Hj. destruct own; [|by eapply Hown].
      apply lookup_insert_Some in Hj as [[_ E]|[_ Hj]]; [by rewrite Hlen in Hn|by eapply Hown].
  - intros n m x Hmn Hom Hx Hins. unfold k'. simpl. destruct (Hnew _ _ _ Hmn Hx) as [[Hm1 Hx1]|(->&->&_)].
    + pose proof (Hpub _ _ _ Hm1 Hom Hx1 Hins) as Hp. destruct own; [|done].
      rewrite lookup_insert_ne; [done|]. intros ->. destruct (Hi eq_refl). congruence.
    + simpl in Hom. subst own. simpl. by rewrite lookup_insert_eq, Hlen.
  - intros n. change (k_order k') with (k_order k). rewrite Ho.
    destruct (decide (n = length (k_metas k))) as [->|Hn].
    + split; [intros (_&x&Hx&_); apply lookup_lt_Some in Hx; lia|]. simpl. intros (_&x&Hx&Hst).
      rewrite Hlen, list_lookup_middle in Hx by done. by injection Hx as <-.
    + rewrite Hmeta by done. f_equiv. f_equiv. intros x. simpl.
      destruct (decide (n < length (s_calls (k_sink k)))%nat); [by rewrite lookup_app_l|].
      by rewrite !lookup_ge_None_2 by (rewrite ?length_app; simpl; lia).
Qed.

Lemma kinv_publish i k k' : publish_call cfg c key dt i k = Some k' → kinv k → kinv k'.
Proof.
  unfold publish_call. intros Hstep Hk.
  destruct (h_pubs (k_loop k) !! i) as [p|] eqn:Hpi; cbn [mbind option_bind] in Hstep; [|done].
  destruct p as [| |[|e b] o| |]; try done. destruct (k_in k !! i) eqn:Hi; [done|].
  cbn [KafkaSink.sink_step] in Hstep. unfold refused in Hstep.
  assert (Hrefused : ∀ err s, (∃ topics, topics_ok cfg topics ∧
      s = mkSink topics (s_shared (k_sink k)) (s_calls (k_sink k))) →
    (h ← hstep c key dt (HPublishErr i err) (seen_loop k); Some (mkK h s (k_metas k) (k_in k) (k_order k))) = Some k' →
    kinv k').
  { intros err s (topics&Htop&->) Hh. cbn [hstep] in Hh.
    change (h_pubs (seen_loop k)) with (h_pubs (k_loop k)) in Hh. rewrite Hpi in Hh.
    cbn [mbind option_bind publisher_step] in Hh.
    assert (kinv (with_loop k (seen_loop k))) as Hk' by (apply kinv_loop; [done|by intros ????]).
    destruct (hard_cancelled _); [|destruct (errors_Is _ _ && _); [done|]];
      cbn [mbind option_bind] in Hh; injection Hh as <-;
      by apply (kinv_set_pub (mkK _ (mkSink topics _ _) _ _ _)), Hi; apply (kinv_topics _ topics Hk'). }
  destruct (sinkErr (s_shared (k_sink k))) as [err|] eqn:Hse.
  - apply (Hrefused err (k_sink k)); [|done]. exists (s_topics (k_sink k)). split; [apply (kv_topics k Hk)|].
    by destruct (k_sink k).
  - destruct (make_records cfg (s_topics (k_sink k)) (e :: b)) as [[[rs ps]|err] topics] eqn:Hmr;
      cbn [mbind option_bind fst] in Hstep.
    + injection Hstep as <-. by apply (kinv_begin k i (e :: b) o true).
    + eapply (Hrefused err); [|exact Hstep]. exists topics. split; [|done].
      by apply (make_records_ok cfg _ _ _ _ (kv_topics k Hk) Hmr).
Qed.

(** What an abandoned publisher's call does to the composed state. *)
Lemma stale_publish_cases es k k' :
  stale_publish cfg es k = Some k' → kinv k →
  ∃ topics, topics_ok cfg topics ∧
    (k' = mkK (k_loop k) (mkSink topics (s_shared (k_sink k)) (s_calls (k_sink k))) (k_metas k) (k_in k) (k_order k) ∨
     ∃ rs ps, es ≠ [] ∧ sinkErr (s_shared (k_sink k)) = None ∧
       make_records cfg (s_topics (k_sink k)) es = (Ok (rs, ps), topics) ∧
       k' = mkK (k_loop k) (mkSink topics (s_shared (k_sink k)) (s_calls (k_sink k) ++ [new_call rs ps]))
              (k_metas k ++ [mkMeta 0 es false SubPending false]) (k_in k) (k_order k)).
Proof.
  unfold stale_publish, refused. intros Hstep Hk. destruct es as [|e b]; [done|].
  cbn [KafkaSink.sink_step] in Hstep.
  destruct (sinkErr (s_shared (k_sink k))) as [err|] eqn:Hse; cbn [mbind option_bind] in Hstep.
  - injection Hstep as <-. exists (s_topics (k_sink k)). split; [apply (kv_topics k Hk)|left].
    by destruct (k_sink k).
  - destruct (make_records cfg (s_topics (k_sink k)) (e :: b)) as [[[rs ps]|err] topics] eqn:Hmr;
      cbn [mbind option_bind fst] in Hstep; injection Hstep as <-; exists topics;
      (split; [by apply (make_records_ok cfg _ _ _ _ (kv_topics k Hk) Hmr)|]); [right|by left].
    by exists rs, ps.
Qed.

Lemma kinv_stale es k k' : stale_publish cfg es k = Some k' → kinv k → kinv k'.
Proof.
  intros Hstep Hk. destruct (stale_publish_cases _ _ _ Hstep Hk) as (topics&Htop&[->|(rs&ps&Hne&Hse&Hmr&->)]).
  - by apply kinv_topics.
  - by apply (kinv_begin k 0 es false false).
Qed.

(** An instruction of a call, with what becomes of its publisher left open. *)
Lemma kinv_call k n l m x sh' x' h' ins o :
  let s' := mkSink (s_topics (k_sink k)) sh' (<[n := x']> (s_calls (k_sink k))) in
  kinv k → k_metas k !! n = Some m → s_calls (k_sink k) !! n = Some x →
  call_step (Z.to_nat (MaxInflightBatches cfg)) l (s_shared (k_sink k)) x = Some (sh', x') →
  (l = KLast → callback_due x m = false) → ins ⊆ k_in k →
  (∀ i n', ins !! i = Some n' → ∃ m' y, k_metas k !! n' = Some m' ∧ s_calls s' !! n' = Some y ∧
    m_queue m' = i ∧ inside y = true ∧ h_pubs h' !! i = Some (PubSubmit (m_batch m') (m_open m'))) →
  (∀ n' m' y, k_metas k !! n' = Some m' → m_own m' = true → s_calls s' !! n' = Some y → inside y = true →
    ins !! m_queue m' = Some n') →
  NoDup o →
  (∀ n', n' ∈ o ↔ m_own (meta_of k n') = true ∧ ∃ y, s_calls s' !! n' = Some y ∧ started y = true) →
  kinv (mkK h' s' (k_metas k) ins o).
Proof.
  intros s' Hk Hmn Hx Hstep Hcb Hins Hin' Hpub' Hnd' Ho'.
  pose proof Hk as [Hs He Ht Hm _ Hown _ _ _].
  assert (KafkaSink.sink_step cfg (SCall n l) (k_sink k) = Some s') as Hss.
  { cbn [KafkaSink.sink_step]. rewrite Hx. cbn [mbind option_bind]. by rewrite Hstep. }
  assert (call_inv x) as Hinv by (eapply Forall_lookup_1; [apply Hs|done]).
  destruct (call_step_err _ _ _ _ _ _ Hstep) as [Hkeep _].
  split; try done.
  - by eapply sink_step_inv.
  - intros n' m' y Hm' Hom Hy Hf. change (sinkErr sh' ≠ None).
    apply list_lookup_insert_Some in Hy as [(<-&<-&_)|[_ Hy]].
    + eapply call_step_failed; [done|done|]. by eapply He.
    + apply Hkeep. by eapply He.
  - change (Forall2 meta_ok (k_metas k) (<[n := x']> (s_calls (k_sink k)))).
    rewrite <-(list_insert_id _ _ _ Hmn). apply Forall2_insert; [done|].
    eapply meta_ok_step; [done|done|done|]. by eapply Forall2_lookup_lr.
  - intros i n' Hi. change (m_own (meta_of k n') = true). eapply Hown. by eapply lookup_weaken.
Qed.

(** The call stays on its publisher, or stays off. *)
Lemma kinv_call_stay k n l m x sh' x' :
  kinv k → k_metas k !! n = Some m → s_calls (k_sink k) !! n = Some x →
  call_step (Z.to_nat (MaxInflightBatches cfg)) l (s_shared (k_sink k)) x = Some (sh', x') →
  (l = KLast → callback_due x m = false) →
  m_own m = false ∨ inside x' = inside x ∧ started x' = started x →
  kinv (mkK (k_loop k) (mkSink (s_topics (k_sink k)) sh' (<[n := x']> (s_calls (k_sink k))))
    (k_metas k) (k_in k) (k_order k)).
Proof.
  intros Hk Hmn Hx Hstep Hcb Hst. pose proof Hk as [Hs He Ht Hm Hin Hown Hpub Hnd Ho].
  assert (Hlt : (n < length (s_calls (k_sink k)))%nat) by by eapply lookup_lt_Some.
  assert (Hmy : m_own (meta_of k n) = m_own m) by by rewrite (meta_of_Some k n m).
  eapply kinv_call; try done; simpl.
  - intros i n' Hi'. destruct (Hin _ _ Hi') as (m'&y&Hm'&Hy&Hq&Hy'&Hpi). destruct (decide (n' = n)) as [->|Hne].
    + assert (m' = m) as -> by congruence. assert (y = x) as -> by congruence.
      exists m, x'. rewrite list_lookup_insert_eq by done. pose proof (Hown _ _ Hi') as Ho'.
      destruct Hst as [?|[??]]; split_and!; congruence.
    + exists m', y. by rewrite list_lookup_insert_ne.
  - intros n' m' y Hm' Hom Hy Hiy. apply list_lookup_insert_Some in Hy as [(<-&<-&_)|[_ Hy]];
      [|by eapply Hpub]. simplify_eq. destruct Hst as [?|[Hi _]]; [congruence|].
    eapply Hpub; [done..|]. by rewrite <-Hi.
  - intros n'. rewrite Ho. destruct (decide (n' = n)) as [->|Hne].
    + rewrite list_lookup_insert_eq by done. rewrite Hmy. destruct Hst as [->|[_ Hst]].
      { by split; intros [? _]. }
      split; intros (Hom&y&Hy&Hsy); (split; [done|]); eexists; (split; [done|]); congruence.
    + by rewrite list_lookup_insert_ne.
Qed.

(** The call passes the select. *)
Lemma kinv_call_add k n m x sh' x' :
  kinv k → k_metas k !! n = Some m → m_own m = true → s_calls (k_sink k) !! n = Some x →
  call_step (Z.to_nat (MaxInflightBatches cfg)) KAdd (s_shared (k_sink k)) x = Some (sh', x') →
  kinv (mkK (k_loop k) (mkSink (s_topics (k_sink k)) sh' (<[n := x']> (s_calls (k_sink k))))
    (k_metas k) (k_in k) (k_order k ++ [n])).
Proof.
  intros Hk Hmn Hom Hx Hstep. pose proof Hk as [Hs He Ht Hm Hin Hown Hpub Hnd Ho].
  assert (Hlt : (n < length (s_calls (k_sink k)))%nat) by by eapply lookup_lt_Some.
  assert (inside x = true ∧ inside x' = true ∧ started x = false ∧ started x' = true) as (Hi&Hi'&Hst&Hst').
  { cbn [call_step] in Hstep. unfold inside, started. destruct (c_pc x); try done. by simplify_eq. }
  assert (n ∉ k_order k) as Hnew.
  { rewrite Ho. intros (_&y&Hy&Hsy). simplify_eq. congruence. }
  eapply kinv_call; try done; simpl.
  - intros i n' Hi1. destruct (Hin _ _ Hi1) as (m'&y&Hm'&Hy&Hq&Hy'&Hpi). destruct (decide (n' = n)) as [->|Hne].
    + simplify_eq. eexists _, x'. rewrite list_lookup_insert_eq by done. by split_and!.
    + exists m', y. by rewrite list_lookup_insert_ne.
  - intros n' m' y Hm' Hom' Hy Hiy. apply list_lookup_insert_Some in Hy as [(<-&<-&_)|[_ Hy]]; by eapply Hpub.
  - apply NoDup_app. split_and!; [done| |apply NoDup_singleton].
    intros n' Hn' ->%list_elem_of_singleton. done.
  - intros n'. rewrite elem_of_app, list_elem_of_singleton, Ho. destruct (decide (n' = n)) as [->|Hne].
    + rewrite list_lookup_insert_eq, (meta_of_Some k n m) by done. split; [intros _|by right]. eauto.
    + rewrite list_lookup_insert_ne by done. split; [by intros [?|?]|by left].
Qed.

(** The call returns to its publisher, which moves on. *)
Lemma kinv_call_leave k n l m x sh' x' q :
  kinv k → k_metas k !! n = Some m → m_own m = true → s_calls (k_sink k) !! n = Some x →
  call_step (Z.to_nat (MaxInflightBatches cfg)) l (s_shared (k_sink k)) x = Some (sh', x') →
  l = KReturn ∨ l = KCtxDone →
  kinv (mkK (set_pub (k_loop k) (m_queue m) q) (mkSink (s_topics (k_sink k)) sh' (<[n := x']> (s_calls (k_sink k))))
    (k_metas k) (delete (m_queue m) (k_in k)) (k_order k)).
Proof.
  intros Hk Hmn Hom Hx Hstep Hl. pose proof Hk as [Hs He Ht Hm Hin Hown Hpub Hnd Ho].
  assert (Hlt : (n < length (s_calls (k_sink k)))%nat) by by eapply lookup_lt_Some.
  assert (inside x = true ∧ inside x' = false ∧ started x' = started x) as (Hi&Hi'&Hst).
  { unfold inside, started. destruct Hl as [-> | ->]; cbn [call_step] in Hstep; repeat case_match; by simplify_eq. }
  pose proof (Hpub _ _ _ Hmn Hom Hx Hi) as Hinn.
  eapply kinv_call; [done..| | | | | |]; simpl.
  - intros ->. by destruct Hl.
  - apply delete_subseteq.
  - intros i n'. rewrite lookup_delete_Some. intros [Hne Hi1].
    destruct (Hin _ _ Hi1) as (m'&y&Hm'&Hy&Hq&Hy'&Hpi). exists m', y.
    assert (n' ≠ n) by (intros ->; simplify_eq). rewrite !list_lookup_insert_ne by congruence. by split_and!.
  - intros n' m' y Hm' Hom' Hy Hiy. apply list_lookup_insert_Some in Hy as [(<-&<-&_)|[Hne Hy]]; [congruence|].
    pose proof (Hpub _ _ _ Hm' Hom' Hy Hiy) as Hin'. rewrite lookup_delete_ne; [done|].
    intros Heq. rewrite Heq in Hinn. congruence.
  - done.
  - intros n'. rewrite Ho. destruct (decide (n' = n)) as [->|Hne].
    + rewrite list_lookup_insert_eq by done.
      split; intros (?&y&Hy&Hsy); (split; [done|]); eexists; (split; [done|]); congruence.
    + by rewrite list_lookup_insert_ne.
Qed.

(** What a call's instruction does to the composed state: a call of an earlier run
    moves by itself. *)
Lemma sink_call_cases n l k k' :
  sink_call cfg c key dt n l k = Some k' → kinv k →
  ∃ m x sh' x', k_metas k !! n = Some m ∧ s_calls (k_sink k) !! n = Some x ∧
    call_step (Z.to_nat (MaxInflightBatches cfg)) l (s_shared (k_sink k)) x = Some (sh', x') ∧
    (l = KLast → callback_due x m = false) ∧
    let s' := mkSink (s_topics (k_sink k)) sh' (<[n := x']> (s_calls (k_sink k))) in
    let k1 := mkK (k_loop k) s' (k_metas k) (k_in k) (k_order k) in
    if m_own m then
      match l with
      | KAdd => k' = mkK (k_loop k) s' (k_metas k) (k_in k) (k_order k ++ [n])
      | KReturn => k' = mkK (set_pub (k_loop k) (m_queue m) (next_round (m_open m))) s' (k_metas k)
                          (delete (m_queue m) (k_in k)) (k_order k)
      | KCtxDone => hard_cancelled (k_loop k) = true ∧
          k' = mkK (set_pub (k_loop k) (m_queue m) (PubReturned None)) s' (k_metas k)
                 (delete (m_queue m) (k_in k)) (k_order k)
      | _ => k' = k1
      end
    else k' = k1.
Proof.
  intros Hstep Hk. unfold sink_call in Hstep.
  destruct (k_metas k !! n) as [m|] eqn:Hmn; cbn [mbind option_bind] in Hstep; [|done].
  destruct (s_calls (k_sink k) !! n) as [x|] eqn:Hx; cbn [mbind option_bind] in Hstep; [|done].
  cbn [KafkaSink.sink_step] in Hstep. rewrite Hx in Hstep. cbn [mbind option_bind] in Hstep.
  destruct (call_step _ l (s_shared (k_sink k)) x) as [[sh' x']|] eqn:Hcs; cbn [mbind option_bind fst snd] in Hstep; [|done].
  exists m, x, sh', x'. split_and!; try done.
  { intros ->. by destruct (callback_due x m). }
  destruct (m_own m) eqn:Hom; destruct l as [| | | | |j [e|]| |]; try (by injection Hstep as <-);
    try (by destruct (client_may _ _ _); simplify_eq); try (by destruct (callback_due x m); simplify_eq).
  destruct (hard_cancelled (k_loop k)) eqn:Hh; [|done]. split; [done|].
  assert (inside x = true) as Hi.
  { unfold inside. cbn [call_step] in Hcs. by destruct (c_pc x). }
  destruct (kv_in k Hk _ _ (kv_pub k Hk _ _ _ Hmn Hom Hx Hi)) as (m'&y&?&?&_&_&Hpi). simplify_eq.
  pose proof (Forall2_lookup_lr _ _ _ _ _ _ (kv_metas k Hk) Hmn Hx) as Hok.
  cbn [hstep] in Hstep. rewrite Hpi in Hstep. cbn [mbind option_bind publisher_step] in Hstep.
  destruct (m_batch m); [by destruct (mo_batch _ _ Hok)|]. rewrite Hh in Hstep. by injection Hstep as <-.
Qed.

Lemma call_stays cap l sh x sh' x' :
  call_step cap l sh x = Some (sh', x') → l ≠ KAdd → l ≠ KReturn → l ≠ KCtxDone →
  inside x' = inside x ∧ started x' = started x.
Proof.
  intros Hstep ???. unfold inside, started. destruct l; try done; cbn [call_step] in Hstep;
    unfold promise_step, last_step in Hstep; repeat case_match; simplify_eq; call_simpl; try done; congruence.
Qed.

Lemma kinv_sink_call n l k k' : sink_call cfg c key dt n l k = Some k' → kinv k → kinv k'.
Proof.
  intros Hstep Hk. destruct (sink_call_cases _ _ _ _ Hstep Hk) as (m&x&sh'&x'&Hmn&Hx&Hcs&Hcb&Hcase).
  cbn zeta in Hcase. destruct (m_own m) eqn:Hom; [|subst k'; eapply kinv_call_stay; eauto].
  destruct l as [| | | | |j e|j|]; first [subst k'|destruct Hcase as [Hg ->]].
  all: try (by eapply kinv_call_add); try (by eapply kinv_call_leave; eauto).
  all: eapply kinv_call_stay; try done; right; by eapply call_stays.
Qed.

Lemma kstep_inv l k k' : kstep cfg c key dt l k = Some k' → kinv k → kinv k'.
Proof.
  intros Hstep Hk. destruct l as [l|i|es|n l|n| |cl to]; cbn [kstep] in Hstep.
  - destruct (loop_label _ l) eqn:Hl; [|done]. destruct (hstep c key dt l (k_loop k)) as [h|] eqn:Hh; simplify_eq/=.
    apply kinv_loop; [done|]. eapply loop_keeps; [by eapply hstep_case|by left].
  - by eapply kinv_publish.
  - by eapply kinv_stale.
  - by eapply kinv_sink_call.
  - by eapply kinv_callback.
  - destruct (hstep c key dt HTick _) as [h|] eqn:Hh; [|done]. cbn [fmap option_fmap option_map] in Hstep. simplify_eq.
    apply hstep_case in Hh. apply kinv_loop; [done|].
    exact (loop_keeps _ _ _ Hh (or_intror eq_refl)).
  - destruct (h_main (k_loop k)) as [| | | |[]  []| | |]; try done.
    destruct (Flush_result _ _ _) as [r|]; simplify_eq/=. apply kinv_loop; [done|by intros ????].
Qed.

Lemma reach_kinv w pos pub ms fl k :
  prior_ok w → reachable (kstep cfg c key dt) (kinit c w pos pub ms fl) k → kinv k.
Proof.
  intros Hw. apply reachable_invariant; [by apply kinit_inv|]. intros l k1 k2 Hk Hstep. by eapply kstep_inv.
Qed.
End inv.

(** ** The simulation *)
Section simulation.
Context `{Serializer} (cfg : KafkaSink.Config).
Context (c : Hyperloop.Config) (key : NomiosEvent → string) (dt : Z → string).
Implicit Types (k : kstate).

(** The abstract pipeline makes at most one move. *)
Definition simulated k k' : Prop := abs k' = abs k ∨ ∃ hl, hstep c key dt hl (abs k) = Some (abs k').

Lemma failed_insert x j p q :
  c_promises x !! j = Some p → err_set q = err_set p →
  bool_decide (Exists (λ p, err_set p = true) (<[j := q]> (c_promises x))) = failed_call x.
Proof.
  intros Hj Hpq. unfold failed_call. apply bool_decide_ext.
  rewrite (exists_insert _ _ j p q) by (done || by rewrite Hpq).
  split; [|by right]. intros [Hq|]; [|done]. apply Exists_exists. exists p.
  split; [by eapply list_elem_of_lookup_2|by rewrite <-Hpq].
Qed.

(** Which instructions of a call show: its passing of the select, its return, a
    recorded error. *)
Lemma call_step_shows cap l sh x sh' x' :
  call_step cap l sh x = Some (sh', x') → call_inv x →
  l ≠ KAdd → l ≠ KReturn → l ≠ KCtxDone →
  (sinkErr sh' = sinkErr sh ∧ failed_call x' = failed_call x) ∨
  ∃ j e, c_promises x !! j = Some (PrSetErr e) ∧ sh' = setErr sh (EWrap "kafka: produce" e) ∧
    x' = set_promise x j (PrDec false).
Proof.
  intros Hstep Hinv ???. destruct l; try done; cbn [call_step] in Hstep.
  - repeat case_match; simplify_eq. by left.
  - repeat case_match; simplify_eq. left. split; [done|]. unfold failed_call at 1. call_simpl.
    destruct (lookup_lt_is_Some_2 (c_promises x) k) as [p Hp]; [rewrite (ci_len x Hinv); done|].
    apply (failed_insert x k p PrPending Hp).
    assert (produced x = k) as Hpr by (unfold produced; by case_match; simplify_eq).
    assert (p = PrIdle) as -> by (apply (ci_idle x Hinv k p Hp); lia). done.
  - repeat case_match; simplify_eq; left; (split; [done|]); unfold failed_call at 1; call_simpl;
      by eapply failed_insert.
  - unfold promise_step in Hstep. repeat case_match; simplify_eq; try (right; by eauto);
      left; (split; [done|]); unfold failed_call at 1; call_simpl; by eapply failed_insert.
  - unfold last_step in Hstep. repeat case_match; simplify_eq; by left.
Qed.

(** A publisher outside of any call is seen as it is. *)
Lemma view_outside k i p : k_in k !! i = None → view_pub k i p = p.
Proof. unfold view_pub. by intros ->. Qed.

Lemma abs_pub k i p : h_pubs (k_loop k) !! i = Some p → h_pubs (abs k) !! i = Some (view_pub k i p).
Proof. intros Hi. change (h_pubs (abs k)) with (imap (view_pub k) (h_pubs (k_loop k))). by rewrite list_lookup_imap, Hi. Qed.

Lemma sim_loop l k k' : kinv cfg k → kstep cfg c key dt (ILoop l) k = Some k' → simulated k k'.
Proof.
  intros Hk Hstep. cbn [kstep] in Hstep. destruct (loop_label _ l) eqn:Hl; [|done].
  destruct (hstep c key dt l (k_loop k)) as [h|] eqn:Hh; simplify_eq/=.
  right. exists l. unfold abs at 1. rewrite (loop_frame _ _ _ _ _ _ _ _ h); [done| |done|done].
  by eapply view_of_inside.
Qed.

(** A refused call is the sink's error in the abstract pipeline. *)
Lemma sim_refused k i e b o err h s :
  kinv cfg k → h_pubs (k_loop k) !! i = Some (PubSubmit (e :: b) o) → k_in k !! i = None →
  s_shared s = s_shared (k_sink k) → s_calls s = s_calls (k_sink k) →
  hstep c key dt (HPublishErr i err) (seen_loop k) = Some h →
  simulated k (mkK h s (k_metas k) (k_in k) (k_order k)).
Proof.
  intros Hk Hpi Hi Hsh Hcs Hh. right. exists (HPublishErr i err).
  cbn [hstep] in Hh |- *. rewrite (abs_pub k i _ Hpi), view_outside by done.
  change (h_pubs (seen_loop k)) with (h_pubs (k_loop k)) in Hh. rewrite Hpi in Hh.
  cbn [mbind option_bind publisher_step] in Hh |- *.
  assert (Habs : ∀ q, abs (mkK (set_pub (seen_loop k) i q) s (k_metas k) (k_in k) (k_order k)) =
    set_pub (abs k) i q).
  { intros q. unfold abs at 2. rewrite set_pub_plug by by apply view_outside.
    unfold abs, plug, sinkErr. simpl. rewrite Hsh. unfold upd_sinkerr, upd_subs, upd_pubs. simpl. f_equal.
    - apply imap_ext. intros j p _. unfold view_pub, call_of, meta_of. simpl. by rewrite Hcs.
    - apply list_fmap_ext. intros j n _. unfold view_sub, call_of, meta_of. simpl. by rewrite Hcs. }
  change (hard_cancelled (abs k)) with (hard_cancelled (k_loop k)).
  change (hard_cancelled (seen_loop k)) with (hard_cancelled (k_loop k)) in Hh.
  change (h_sinkerr (abs k)) with (sinkErr (s_shared (k_sink k))).
  change (h_sinkerr (seen_loop k)) with (sinkErr (s_shared (k_sink k))) in Hh.
  destruct (hard_cancelled _); [|destruct (errors_Is _ _ && _); [done|]];
    injection Hh as <-; by rewrite Habs.
Qed.

(** A call that did not pass the select shows nothing. *)
Lemma abs_begin k i m x topics own :
  kinv cfg k → (own = true → k_in k !! i = None) → started x = false →
  abs (mkK (k_loop k) (mkSink topics (s_shared (k_sink k)) (s_calls (k_sink k) ++ [x])) (k_metas k ++ [m])
    (if own then <[i := length (s_calls (k_sink k))]> (k_in k) else k_in k) (k_order k)) = abs k.
Proof.
  intros Hk Hi Hst. set (k' := mkK _ _ _ _ _).
  assert (Hold : ∀ n y, s_calls (k_sink k) !! n = Some y → call_of k' n = call_of k n ∧ meta_of k' n = meta_of k n).
  { intros n y Hy. pose proof (Forall2_lookup_r _ _ _ _ _ (kv_metas _ k Hk) Hy) as (m0&Hm0&_).
    unfold call_of, meta_of, k'. simpl. by rewrite !lookup_app_l by (by eapply lookup_lt_Some). }
  apply plug_ext; [| |done].
  - intros j p _. assert (Hin : ∀ n, k_in k !! j = Some n → view_pub k' j p = view_pub k j p ∨ k_in k' !! j ≠ k_in k !! j).
    { intros n Hj. destruct (decide (k_in k' !! j = k_in k !! j)) as [E|]; [left|by right].
      unfold view_pub. rewrite E, Hj. destruct (kv_in _ k Hk _ _ Hj) as (m0&y&_&Hy&_).
      by destruct (Hold _ _ Hy) as [-> ->]. }
    destruct own; simpl in Hin.
    + destruct (decide (j = i)) as [->|Hne].
      * unfold view_pub. simpl. rewrite lookup_insert_eq, (Hi eq_refl). unfold call_of. simpl.
        rewrite list_lookup_middle by done. simpl. by rewrite Hst.
      * destruct (k_in k !! j) as [n|] eqn:Hj; [|unfold view_pub; simpl; by rewrite lookup_insert_ne, Hj].
        destruct (Hin n eq_refl) as [|Hc]; [done|]. destruct Hc. simpl. by rewrite lookup_insert_ne.
    + destruct (k_in k !! j) as [n|] eqn:Hj; [|unfold view_pub; simpl; by rewrite Hj].
      by destruct (Hin n eq_refl).
  - apply list_fmap_ext. intros j n Hj. apply list_elem_of_lookup_2 in Hj.
    apply (kv_order _ k Hk) in Hj as (_&y&Hy&_). unfold view_sub. by destruct (Hold _ _ Hy) as [-> ->].
Qed.

Lemma sim_publish i k k' : kinv cfg k → kstep cfg c key dt (IPublish i) k = Some k' → simulated k k'.
Proof.
  intros Hk Hstep. cbn [kstep] in Hstep. unfold publish_call in Hstep.
  destruct (h_pubs (k_loop k) !! i) as [p|] eqn:Hpi; cbn [mbind option_bind] in Hstep; [|done].
  destruct p as [| |[|e b] o| |]; try done. destruct (k_in k !! i) eqn:Hi; [done|].
  cbn [KafkaSink.sink_step] in Hstep. unfold refused in Hstep.
  destruct (sinkErr (s_shared (k_sink k))) as [err|] eqn:Hse; cbn [mbind option_bind] in Hstep.
  { destruct (hstep c key dt (HPublishErr i err) (seen_loop k)) as [h|] eqn:Hh; simplify_eq/=. by eapply sim_refused. }
  destruct (make_records cfg (s_topics (k_sink k)) (e :: b)) as [[[rs ps]|err] topics] eqn:Hmr;
    cbn [mbind option_bind fst] in Hstep.
  2: { destruct (hstep c key dt (HPublishErr i err) (seen_loop k)) as [h|] eqn:Hh; simplify_eq/=. by eapply sim_refused. }
  left. injection Hstep as <-. by apply (abs_begin k i _ _ _ true).
Qed.

Lemma sim_stale es k k' : kinv cfg k → kstep cfg c key dt (IStale es) k = Some k' → simulated k k'.
Proof.
  intros Hk Hstep. left.
  destruct (stale_publish_cases _ _ _ _ Hstep Hk) as (topics&_&[->|(rs&ps&_&_&_&->)]).
  - by apply abs_ext.
  - by apply (abs_begin k 0 _ _ _ false).
Qed.

(** *** Calls of an earlier run *)

(** They are none of those seen. *)
Lemma foreign_unseen k n m :
  kinv cfg k → k_metas k !! n = Some m → m_own m = false →
  (∀ i, k_in k !! i ≠ Some n) ∧ n ∉ k_order k.
Proof.
  intros Hk Hm Hf. assert (m_own (meta_of k n) = false) as Ho by by rewrite (meta_of_Some k n m).
  split; [intros i Hi; apply (kv_own _ k Hk) in Hi; congruence|].
  rewrite (kv_order _ k Hk). intros [? _]. congruence.
Qed.

Lemma abs_foreign k n m h s ms :
  kinv cfg k → k_metas k !! n = Some m → m_own m = false →
  (∀ n', n' ≠ n → call_of (mkK h s ms (k_in k) (k_order k)) n' = call_of k n' ∧
     meta_of (mkK h s ms (k_in k) (k_order k)) n' = meta_of k n') →
  abs (mkK h s ms (k_in k) (k_order k)) =
  plug (view_pub k) (view_sub k <$> k_order k) (sinkErr (s_shared s)) h.
Proof.
  intros Hk Hm Hf Hsame. destruct (foreign_unseen k n m Hk Hm Hf) as [Hin Hord].
  apply plug_ext; [| |done].
  - intros i p _. unfold view_pub. simpl. destruct (k_in k !! i) as [n'|] eqn:Hi; [|done].
    destruct (Hsame n') as [-> ->]; [intros ->; by destruct (Hin i)|done].
  - apply list_fmap_ext. intros j n' Hj. apply list_elem_of_lookup_2 in Hj. unfold view_sub.
    destruct (Hsame n') as [-> ->]; [by intros ->|done].
Qed.

Lemma call_step_sinkerr cap l sh x sh' x' :
  call_step cap l sh x = Some (sh', x') →
  sinkErr sh' = sinkErr sh ∨ ∃ e, sinkErr sh' = first_error (sinkErr sh) e.
Proof.
  intros Hstep. destruct l; cbn [call_step] in Hstep; unfold promise_step, last_step in Hstep;
    repeat case_match; simplify_eq; try (by left). right. by eexists.
Qed.

Lemma sim_foreign_call k n m x l sh' x' :
  kinv cfg k → k_metas k !! n = Some m → m_own m = false → s_calls (k_sink k) !! n = Some x →
  call_step (Z.to_nat (MaxInflightBatches cfg)) l (s_shared (k_sink k)) x = Some (sh', x') →
  simulated k (mkK (k_loop k) (mkSink (s_topics (k_sink k)) sh' (<[n := x']> (s_calls (k_sink k))))
    (k_metas k) (k_in k) (k_order k)).
Proof.
  intros Hk Hm Hf Hx Hcs. unfold simulated. rewrite (abs_foreign k n m); [|done..|].
  2: { intros n' Hne. split; [|done]. rewrite (call_of_insert k _ n x x') by done. by rewrite decide_False. }
  cbn [s_shared]. destruct (call_step_sinkerr _ _ _ _ _ _ Hcs) as [->|[e ->]]; [by left|right].
  by exists (HStaleErr e).
Qed.

Lemma sim_foreign_callback k n m x :
  kinv cfg k → k_metas k !! n = Some m → m_own m = false → s_calls (k_sink k) !! n = Some x →
  ∀ k', callback n k = Some k' → simulated k k'.
Proof.
  intros Hk Hm Hf Hx k' Hstep. unfold callback in Hstep. rewrite Hm, Hx in Hstep. cbn [mbind option_bind] in Hstep.
  destruct (callback_due x m); [|done]. rewrite Hf in Hstep.
  assert (Habs : ∀ h cb, abs (set_cb k n m h cb) =
    plug (view_pub k) (view_sub k <$> k_order k) (sinkErr (s_shared (k_sink k))) h).
  { intros h cb. apply (abs_foreign k n m); [done..|]. intros n' Hne. split; [done|].
    change (meta_of (set_cb k n m h cb) n' = meta_of k n'). by rewrite meta_of_set_cb, decide_False. }
  unfold simulated. destruct (m_cb m); try done; injection Hstep as <-; rewrite Habs; [by left|right..].
  - by exists (HStaleCount (length (c_positions x))).
  - by exists (HStaleTime (max_ms (m_batch m))).
Qed.

(** The batch of a call that passed the select, in the abstract pipeline. *)
Lemma abs_sub k n m x :
  kinv cfg k → k_metas k !! n = Some m → m_own m = true → s_calls (k_sink k) !! n = Some x → started x = true →
  ∃ j, k_order k !! j = Some n ∧ h_subs (abs k) !! j = Some (view_sub k n).
Proof.
  intros Hk Hm Ho Hx Hst.
  assert (n ∈ k_order k) as Hn by (apply (kv_order _ k Hk); rewrite (meta_of_Some k n m) by done; eauto).
  apply list_elem_of_lookup in Hn as [j Hj]. exists j. split; [done|].
  change (h_subs (abs k)) with (view_sub k <$> k_order k). by rewrite list_lookup_fmap, Hj.
Qed.

(** A promise that did anything belongs to a call that passed the select. *)
Lemma promise_started x j p :
  call_inv x → c_promises x !! j = Some p → p ≠ PrIdle → started x = true.
Proof.
  intros Hinv Hj Hp. pose proof (ci_idle x Hinv j p Hj) as Hi.
  assert (¬ (produced x ≤ j)%nat) as Hlt by by rewrite <-Hi.
  unfold produced, started in *. destruct (c_pc x); try done; lia.
Qed.

Lemma sim_error k n x m j e :
  kinv cfg k → k_metas k !! n = Some m → m_own m = true → s_calls (k_sink k) !! n = Some x →
  c_promises x !! j = Some (PrSetErr e) →
  simulated k (mkK (k_loop k)
    (mkSink (s_topics (k_sink k)) (setErr (s_shared (k_sink k)) (EWrap "kafka: produce" e))
       (<[n := set_promise x j (PrDec false)]> (s_calls (k_sink k)))) (k_metas k) (k_in k) (k_order k)).
Proof.
  intros Hk Hm Hom Hx Hj. set (x' := set_promise x j (PrDec false)). set (s' := mkSink _ _ _).
  assert (call_inv x) as Hinv by (eapply Forall_lookup_1; [apply (kv_sink _ k Hk)|done]).
  assert (failed_call x' = true) as Hf'.
  { unfold failed_call. apply bool_decide_eq_true, Exists_exists. exists (PrDec false). split; [|done].
    eapply (list_elem_of_lookup_2 _ j), list_lookup_insert_eq. by eapply lookup_lt_Some. }
  destruct (failed_call x) eqn:Hf.
  - left. apply (abs_call_stutter k s' n x x'); try done; [by rewrite Hf, Hf'|].
    unfold sinkErr. simpl. destruct (firstErr (s_shared (k_sink k))) eqn:Hfe; [done|].
    by destruct (kv_errs _ k Hk n m x).
  - right. destruct (abs_sub k n m x Hk Hm Hom Hx) as (jj&Hjj&Hsub); [by eapply promise_started|].
    exists (HReject jj (EWrap "kafka: produce" e)). cbn [hstep]. rewrite Hsub. cbn [mbind option_bind].
    pose proof (Forall2_lookup_lr _ _ _ _ _ _ (kv_metas _ k Hk) Hm Hx) as Hok.
    assert (m_cb m = SubPending) as Hcb.
    { destruct (mo_cb _ _ _ Hok) as [|[Hcf _]]; [done|].
      assert (c_failed x = true); [|congruence]. apply (ci_failed x Hinv), Exists_exists.
      exists (PrSetErr e). split; [by eapply list_elem_of_lookup_2|done]. }
    assert (sub_state (view_sub k n) = SubPending) as Hst.
    { unfold view_sub. simpl. by rewrite (call_of_Some k n x Hx), Hf, (meta_of_Some k n m Hm). }
    unfold Hyperloop.sink_step. rewrite Hst. f_equal.
    trans (plug (view_pub k)
      (<[jj := mkSub (m_queue (meta_of k n)) (m_batch (meta_of k n)) (max_ms (m_batch (meta_of k n))) SubFailed]>
         (view_sub k <$> k_order k))
      (sinkErr (setErr (s_shared (k_sink k)) (EWrap "kafka: produce" e))) (k_loop k)); [done|].
    apply plug_ext; [|symmetry|done].
    + intros i p _. unfold view_pub. simpl. destruct (k_in k !! i) as [n'|]; [|done].
      rewrite (call_of_insert k s' n x x' Hx eq_refl). unfold meta_of. simpl.
      destruct (decide (n' = n)) as [->|]; [|done]. rewrite (call_of_Some k n x Hx).
      by replace (started x') with (started x).
    + rewrite (view_subs_insert k _ jj n Hjj (kv_nodup _ k Hk)).
      * f_equal. unfold view_sub, meta_of. simpl.
        rewrite (call_of_insert k s' n x x' Hx eq_refl), decide_True by done. by rewrite Hf'.
      * intros n' Hne. unfold view_sub, meta_of. simpl.
        by rewrite (call_of_insert k s' n x x' Hx eq_refl), decide_False by done.
Qed.

(** Passing the select is what hands the batch to the abstract sink. *)
Lemma sim_add k n x m sh' x' :
  kinv cfg k → k_metas k !! n = Some m → m_own m = true → s_calls (k_sink k) !! n = Some x →
  call_step (Z.to_nat (MaxInflightBatches cfg)) KAdd (s_shared (k_sink k)) x = Some (sh', x') →
  simulated k (mkK (k_loop k) (mkSink (s_topics (k_sink k)) sh' (<[n := x']> (s_calls (k_sink k))))
    (k_metas k) (k_in k) (k_order k ++ [n])).
Proof.
  intros Hk Hm Hom Hx Hcs. set (s' := mkSink _ _ _).
  assert (call_inv x) as Hinv by (eapply Forall_lookup_1; [apply (kv_sink _ k Hk)|done]).
  pose proof (Forall2_lookup_lr _ _ _ _ _ _ (kv_metas _ k Hk) Hm Hx) as Hok.
  assert (inside x = true ∧ started x = false ∧ started x' = true ∧ sinkErr sh' = sinkErr (s_shared (k_sink k)) ∧
    failed_call x' = failed_call x ∧ c_last x = LNone ∧ produced x = 0%nat) as (Hi&Hst&Hst'&Her&Hf&Hl&Hpr).
  { pose proof (ci_fresh x Hinv) as Hfr. cbn [call_step] in Hcs. unfold inside, started, produced in *.
    destruct (c_pc x); simplify_eq. by split_and!; try apply Hfr. }
  assert (failed_call x = false) as Hfx.
  { unfold failed_call. apply bool_decide_eq_false, Forall_not_Exists.
    destruct (call_fresh x Hinv Hpr) as [Hall _]. eapply Forall_impl; [exact Hall|]. by intros ? ->. }
  assert (m_cb m = SubPending) as Hcb.
  { destruct (mo_cb _ _ _ Hok) as [|[_ Hl']]; [done|]. rewrite Hl in Hl'. intuition congruence. }
  pose proof (kv_pub _ k Hk _ _ _ Hm Hom Hx Hi) as Hin.
  destruct (kv_in _ k Hk _ _ Hin) as (m'&y&?&?&_&_&Hpi). simplify_eq.
  assert (n ∉ k_order k) as Hnew.
  { rewrite (kv_order _ k Hk). intros (_&y'&Hy&Hsy). congruence. }
  destruct (m_batch m) as [|e b] eqn:Hb; [by destruct (mo_batch _ _ _ Hok)|].
  right. exists (HPublishOk (m_queue m)). cbn [hstep]. rewrite (abs_pub k _ _ Hpi).
  unfold view_pub. rewrite Hin, (call_of_Some k n x Hx), Hst. cbn [mbind option_bind publisher_step].
  f_equal. trans (plug (λ i p, if decide (i = m_queue m) then next_round (m_open m) else view_pub k i p)
    ((view_sub k <$> k_order k) ++ [mkSub (m_queue m) (e :: b) (max_ms (e :: b)) SubPending])
    (sinkErr (s_shared (k_sink k))) (k_loop k)).
  - unfold plug. simpl. unfold upd_subs, set_pub. simpl. unfold upd_sinkerr, upd_pubs. simpl. f_equal.
    rewrite <-(list_insert_id _ _ _ Hpi) at 2. symmetry. apply imap_view_insert.
    + intros i p Hne. by rewrite decide_False.
    + by rewrite decide_True.
  - assert (Hcall : ∀ n' o, call_of (mkK (k_loop k) s' (k_metas k) (k_in k) o) n' =
      if decide (n' = n) then x' else call_of k n') by (intros; by apply call_of_insert with x).
    apply plug_ext; [|symmetry|done].
    + intros i p _. unfold view_pub. simpl. destruct (decide (i = m_queue m)) as [->|Hne].
      * rewrite Hin, Hcall, decide_True, Hst' by done. unfold meta_of. simpl. by rewrite Hm.
      * destruct (k_in k !! i) as [n'|] eqn:Hi'; [|done]. rewrite Hcall, decide_False; [done|].
        intros ->. destruct (kv_in _ k Hk _ _ Hi') as (m''&?&?&_&?&_). congruence.
    + cbn [k_order]. rewrite fmap_app. f_equal.
      * apply list_fmap_ext. intros j n' Hj. apply list_elem_of_lookup_2 in Hj. unfold view_sub.
        rewrite Hcall, decide_False by (intros ->; done). done.
      * unfold view_sub. simpl. rewrite Hcall, decide_True, Hf, Hfx by done. unfold meta_of. simpl.
        rewrite Hm. simpl. by rewrite Hb, Hcb.
Qed.

(** The return was seen when the call passed the select; a cancelled call is seen
    when it returns. *)
Lemma abs_leave k n x m sh' x' q :
  kinv cfg k → k_metas k !! n = Some m → m_own m = true → s_calls (k_sink k) !! n = Some x → inside x = true →
  started x' = started x → failed_call x' = failed_call x → sinkErr sh' = sinkErr (s_shared (k_sink k)) →
  abs (mkK (set_pub (k_loop k) (m_queue m) q)
    (mkSink (s_topics (k_sink k)) sh' (<[n := x']> (s_calls (k_sink k))))
    (k_metas k) (delete (m_queue m) (k_in k)) (k_order k)) = set_pub (abs k) (m_queue m) q.
Proof.
  intros Hk Hm Hom Hx Hi Hst Hf He. set (s' := mkSink _ _ _). set (k' := mkK _ _ _ _ _).
  assert (Hcall : ∀ n', call_of k' n' = if decide (n' = n) then x' else call_of k n')
    by (intros; by apply call_of_insert with x).
  trans (upd_sinkerr (upd_subs (upd_pubs (k_loop k)
    (imap (view_pub k') (<[m_queue m := q]> (h_pubs (k_loop k))))) (view_sub k' <$> k_order k)) (sinkErr sh')); [done|].
  rewrite (imap_view_insert (view_pub k) (view_pub k') _ _ q q).
  - assert (view_sub k' <$> k_order k = view_sub k <$> k_order k) as ->; [|by rewrite He].
    apply list_fmap_ext. intros j n' _. unfold view_sub. rewrite Hcall.
    destruct (decide (n' = n)) as [->|]; [|done]. by rewrite Hf, (call_of_Some k n x Hx).
  - intros i p Hne. unfold view_pub. simpl. rewrite lookup_delete_ne by done.
    destruct (k_in k !! i) as [n'|] eqn:Hi'; [|done]. rewrite Hcall, decide_False; [done|].
    intros ->. destruct (kv_in _ k Hk _ _ Hi') as (m''&?&?&_&?&_). congruence.
  - unfold view_pub. simpl. by rewrite lookup_delete_eq.
Qed.

Lemma sim_return k n m x sh' x' :
  kinv cfg k → k_metas k !! n = Some m → m_own m = true → s_calls (k_sink k) !! n = Some x →
  call_step (Z.to_nat (MaxInflightBatches cfg)) KReturn (s_shared (k_sink k)) x = Some (sh', x') →
  simulated k (mkK (set_pub (k_loop k) (m_queue m) (next_round (m_open m)))
    (mkSink (s_topics (k_sink k)) sh' (<[n := x']> (s_calls (k_sink k))))
    (k_metas k) (delete (m_queue m) (k_in k)) (k_order k)).
Proof.
  intros Hk Hm Hom Hx Hcs. left.
  assert (inside x = true ∧ started x = true ∧ started x' = true ∧ failed_call x' = failed_call x ∧ sh' = s_shared (k_sink k))
    as (Hi&Hst&Hst'&Hf&->).
  { cbn [call_step] in Hcs. unfold inside, started. destruct (c_pc x); try done. case_match; by simplify_eq. }
  rewrite abs_leave with (x := x) by (done || by rewrite Hst).
  pose proof (kv_pub _ k Hk _ _ _ Hm Hom Hx Hi) as Hin.
  destruct (kv_in _ k Hk _ _ Hin) as (m'&y&?&?&_&_&Hpi). simplify_eq.
  unfold set_pub. rewrite list_insert_id; [done|]. rewrite (abs_pub k _ _ Hpi). unfold view_pub.
  by rewrite Hin, (call_of_Some k n x Hx), Hst, (meta_of_Some k n m Hm).
Qed.

Lemma sim_cancel k n m x sh' x' :
  kinv cfg k → k_metas k !! n = Some m → m_own m = true → s_calls (k_sink k) !! n = Some x →
  call_step (Z.to_nat (MaxInflightBatches cfg)) KCtxDone (s_shared (k_sink k)) x = Some (sh', x') →
  hard_cancelled (k_loop k) = true →
  simulated k (mkK (set_pub (k_loop k) (m_queue m) (PubReturned None))
    (mkSink (s_topics (k_sink k)) sh' (<[n := x']> (s_calls (k_sink k))))
    (k_metas k) (delete (m_queue m) (k_in k)) (k_order k)).
Proof.
  intros Hk Hm Hom Hx Hcs Hh.
  assert (inside x = true ∧ started x = false ∧ started x' = false ∧ failed_call x' = failed_call x ∧ sh' = s_shared (k_sink k))
    as (Hi&Hst&Hst'&Hf&->).
  { cbn [call_step] in Hcs. unfold inside, started. destruct (c_pc x); try done. by simplify_eq. }
  unfold simulated. rewrite (abs_leave k n x) by (done || by rewrite Hst).
  pose proof (kv_pub _ k Hk _ _ _ Hm Hom Hx Hi) as Hin.
  destruct (kv_in _ k Hk _ _ Hin) as (m'&y&?&?&_&_&Hpi). simplify_eq.
  pose proof (Forall2_lookup_lr _ _ _ _ _ _ (kv_metas _ k Hk) Hm Hx) as Hok.
  destruct (m_batch m) as [|e b] eqn:Hb; [by destruct (mo_batch _ _ _ Hok)|].
  right. exists (HPublishErr (m_queue m) ECanceled). cbn [hstep]. rewrite (abs_pub k _ _ Hpi).
  unfold view_pub. rewrite Hin, (call_of_Some k n x Hx), Hst. cbn [mbind option_bind publisher_step].
  change (hard_cancelled (abs k)) with (hard_cancelled (k_loop k)). by rewrite Hh.
Qed.

Lemma sim_call n l k k' : kinv cfg k → kstep cfg c key dt (ICall n l) k = Some k' → simulated k k'.
Proof.
  intros Hk Hstep. cbn [kstep] in Hstep.
  destruct (sink_call_cases _ _ _ _ _ _ _ _ Hstep Hk) as (m&x&sh'&x'&Hm&Hx&Hcs&_&Hcase).
  cbn zeta in Hcase. destruct (m_own m) eqn:Hom; [|subst k'; by eapply sim_foreign_call].
  assert (call_inv x) as Hinv by (eapply Forall_lookup_1; [apply (kv_sink _ k Hk)|done]).
  destruct (decide (l = KAdd)) as [->|Ha]; [subst k'; by eapply sim_add|].
  destruct (decide (l = KReturn)) as [->|Hr]; [subst k'; by eapply sim_return|].
  destruct (decide (l = KCtxDone)) as [->|Hc]; [destruct Hcase as [Hh ->]; by eapply sim_cancel|].
  assert (k' = mkK (k_loop k) (mkSink (s_topics (k_sink k)) sh' (<[n := x']> (s_calls (k_sink k))))
    (k_metas k) (k_in k) (k_order k)) as -> by by destruct l.
  destruct (call_step_shows _ _ _ _ _ _ Hcs Hinv Ha Hr Hc) as [[He Hf]|(j&e&Hj&->&->)].
  - left. apply (abs_call_stutter k _ n x x'); try done.
    by destruct (call_stays _ _ _ _ _ _ Hcs Ha Hr Hc).
  - by eapply sim_error.
Qed.

(** The callback moves its batch, and the loop as [h'] says. *)
Lemma abs_set_cb k n m jj h' cb :
  kinv cfg k → k_metas k !! n = Some m → k_order k !! jj = Some n → failed_call (call_of k n) = false →
  abs (set_cb k n m h' cb) =
  plug (view_pub k) (<[jj := mkSub (m_queue m) (m_batch m) (max_ms (m_batch m)) cb]> (view_sub k <$> k_order k))
    (sinkErr (s_shared (k_sink k))) h'.
Proof.
  intros Hk Hm Hjj Hf. set (k' := set_cb k n m h' cb).
  assert (Hmeta : ∀ n', meta_of k' n' =
    if decide (n' = n) then mkMeta (m_queue m) (m_batch m) (m_open m) cb (m_own m) else meta_of k n')
    by (intros; by apply meta_of_set_cb).
  apply plug_ext; [| |done].
  - intros i p _. unfold view_pub. simpl. destruct (k_in k !! i) as [n'|]; [|done].
    change (call_of k' n') with (call_of k n'). rewrite Hmeta.
    destruct (decide (n' = n)) as [->|]; [|done]. by rewrite (meta_of_Some k n m Hm).
  - change (k_order k') with (k_order k). rewrite (view_subs_insert k k' jj n Hjj (kv_nodup _ k Hk)).
    + f_equal. unfold view_sub. change (call_of k' n) with (call_of k n).
      by rewrite Hmeta, decide_True, Hf by done.
    + intros n' Hne. unfold view_sub. change (call_of k' n') with (call_of k n').
      by rewrite Hmeta, decide_False by done.
Qed.

Lemma sim_callback n k k' : kinv cfg k → kstep cfg c key dt (IDone n) k = Some k' → simulated k k'.
Proof.
  intros Hk Hstep. cbn [kstep] in Hstep. unfold callback in Hstep.
  destruct (k_metas k !! n) as [m|] eqn:Hm; cbn [mbind option_bind] in Hstep; [|done].
  destruct (s_calls (k_sink k) !! n) as [x|] eqn:Hx; cbn [mbind option_bind] in Hstep; [|done].
  destruct (m_own m) eqn:Hom.
  2: { eapply sim_foreign_callback; [done..|]. unfold callback. rewrite Hm, Hx. cbn [mbind option_bind]. by rewrite Hom. }
  destruct (callback_due x m) eqn:Hdue; [|done].
  assert (c_last x = LLoadFailed ∧ c_failed x = false) as [Hl Hfl].
  { unfold callback_due in Hdue. destruct (c_last x), (m_cb m), (c_failed x); try done. }
  assert (call_inv x) as Hinv by (eapply Forall_lookup_1; [apply (kv_sink _ k Hk)|done]).
  assert (started x = true) as Hst.
  { destruct (started x) eqn:E; [done|]. apply (ci_fresh x Hinv) in E. congruence. }
  assert (failed_call (call_of k n) = false) as Hf.
  { rewrite (call_of_Some k n x Hx). apply bool_decide_eq_false. intros He.
    assert (c_failed x = true); [|congruence]. apply (ci_failed x Hinv).
    eapply Exists_impl; [exact He|]. by intros [| | | |[]|[]]. }
  destruct (abs_sub k n m x Hk Hm Hom Hx Hst) as (jj&Hjj&Hsub).
  pose proof (Forall2_lookup_lr _ _ _ _ _ _ (kv_metas _ k Hk) Hm Hx) as Hok.
  assert (Hview : view_sub k n = mkSub (m_queue m) (m_batch m) (max_ms (m_batch m)) (m_cb m)).
  { unfold view_sub. by rewrite Hf, (meta_of_Some k n m Hm). }
  rewrite Hview in Hsub. right. rewrite (mo_pos _ _ _ Hok), length_fmap in Hstep.
  destruct (m_cb m) eqn:Hcb; try done; injection Hstep as <-; rewrite (abs_set_cb k n m jj) by done.
  - exists (HAck jj). cbn [hstep]. by rewrite Hsub.
  - exists (HDone jj). cbn [hstep]. by rewrite Hsub.
  - exists (HDone jj). cbn [hstep]. by rewrite Hsub.
Qed.

Lemma sim_tick k k' : kinv cfg k → kstep cfg c key dt ITick k = Some k' → simulated k k'.
Proof.
  intros Hk Hstep. cbn [kstep hstep committer_step] in Hstep. right. exists HTick.
  cbn [hstep committer_step]. change (h_commit (abs k)) with (h_commit (k_loop k)).
  change (h_commit (seen_loop k)) with (h_commit (k_loop k)) in Hstep.
  destruct (h_commit (k_loop k)); try done. cbn [fmap option_fmap option_map] in Hstep. injection Hstep as <-.
  f_equal. change (h_sinkerr (abs k)) with (sinkErr (s_shared (k_sink k))).
  change (h_sinkerr (seen_loop k)) with (sinkErr (s_shared (k_sink k))).
  set (r := EWrap "sink" <$> sinkErr (s_shared (k_sink k))).
  unfold abs at 1. rewrite fail_plug. clearbody r. unfold fail.
  destruct r as [e|]; [|done]. destruct (errors_Is e ECanceled); [done|].
  change (h_err (seen_loop k)) with (h_err (k_loop k)). by destruct (h_err (k_loop k)).
Qed.

(** With the wait group at zero and no error recorded, every batch is done. *)
Lemma settled_all_done k :
  kinv cfg k → pending (s_shared (k_sink k)) = 0%Z → sinkErr (s_shared (k_sink k)) = None →
  forallb (λ x, match sub_state x with SubDone => true | _ => false end) (h_subs (abs k)) = true.
Proof.
  intros Hk Hp He. pose proof (kv_sink _ k Hk) as [Hinv _ Hpend _ _].
  assert (Forall (λ x, unit_of x = 0%nat) (s_calls (k_sink k))) as Hu.
  { apply sum_list_with_zero. lia. }
  apply forallb_forall. intros y Hy%list_elem_of_In.
  change (h_subs (abs k)) with (view_sub k <$> k_order k) in Hy.
  apply list_elem_of_fmap in Hy as (n&->&Hn). apply (kv_order _ k Hk) in Hn as (Hom&x&Hx&Hst).
  destruct (Forall2_lookup_r _ _ _ _ _ (kv_metas _ k Hk) Hx) as (m&Hm&Hok).
  assert (call_inv x) as Hc by (eapply Forall_lookup_1; [exact Hinv|done]).
  pose proof (Forall_lookup_1 _ _ _ _ Hu Hx) as Hux. simpl in Hux.
  assert (c_last x = LFinished) as Hl.
  { unfold unit_of, started in *. destruct (c_pc x), (c_last x); done. }
  assert (failed_call x = false) as Hf.
  { rewrite (meta_of_Some k n m Hm) in Hom. apply not_true_is_false. intros Hex. by apply (kv_errs _ k Hk n m x). }
  unfold view_sub. simpl. rewrite (call_of_Some k n x Hx), Hf, (meta_of_Some k n m Hm).
  rewrite (mo_after _ _ _ Hok); [done|by right|]. apply not_true_is_false. intros Hcf.
  apply (ci_failed x Hc), Exists_exists in Hcf as (p&Hp'&Hpe).
  assert (c_last x ≠ LNone) as Hnn by congruence.
  pose proof (last_undec x Hc Hst Hnn) as Hz. rewrite Forall_forall in Hz. specialize (Hz _ Hp').
  apply bool_decide_eq_false in Hf. destruct Hf. apply Exists_exists. exists p. split; [done|].
  by destruct p as [| | | | |[]].
Qed.

Lemma sim_flush cl to k k' : kinv cfg k → kstep cfg c key dt (IFlush cl to) k = Some k' → simulated k k'.
Proof.
  intros Hk Hstep. cbn [kstep] in Hstep. destruct (h_main (k_loop k)) as [| | | |[] []| | |] eqn:Hm; try done.
  destruct (Flush_result cl to _) as [r|] eqn:Hr; cbn [mbind option_bind] in Hstep; [|done].
  injection Hstep as <-. right. exists (HFlushed r). cbn [hstep main_step].
  change (h_main (abs k)) with (h_main (k_loop k)). rewrite Hm.
  destruct r as [e|]; [by rewrite bool_decide_eq_false_2 by done|].
  assert (pending (s_shared (k_sink k)) = 0%Z ∧ sinkErr (s_shared (k_sink k)) = None) as [Hp He].
  { unfold Flush_result in Hr. destruct cl; [done|]. destruct to; [done|]. case_decide; [|done].
    by injection Hr. }
  change (h_sinkerr (abs k)) with (sinkErr (s_shared (k_sink k))).
  by rewrite (settled_all_done k Hk Hp He), (bool_decide_eq_true_2 _ He), andb_false_r.
Qed.

Lemma kstep_simulated : simulates (kstep cfg c key dt) (hstep c key dt) abs (kinv cfg).
Proof.
  intros l k k' Hk Hstep. change (simulated k k'). destruct l as [l|i|es|n l|n| |cl to].
  - by eapply sim_loop.
  - by eapply sim_publish.
  - by eapply sim_stale.
  - by eapply sim_call.
  - by eapply sim_callback.
  - by eapply sim_tick.
  - by eapply sim_flush.
Qed.

Lemma abs_init w pos pub ms fl : abs (kinit c w pos pub ms fl) = hinit c pos pub ms fl.
Proof.
  unfold abs, plug, kinit, hinit. simpl. unfold upd_sinkerr, upd_subs, upd_pubs. simpl. f_equal.
  set (ps := replicate _ _). clearbody ps. apply list_eq. intros i. rewrite list_lookup_imap.
  unfold view_pub. simpl. rewrite lookup_empty. by destruct (ps !! i).
Qed.

(** Every state the composition reaches stands for a reachable state of the
    abstract pipeline. *)
Lemma reach_abs w pos pub ms fl k :
  prior_ok cfg w → reachable (kstep cfg c key dt) (kinit c w pos pub ms fl) k →
  reachable (hstep c key dt) (hinit c pos pub ms fl) (abs k).
Proof.
  intros Hw Hr. rewrite <-(abs_init w). eapply simulation_reachable; [apply kstep_simulated| |done].
  intros s Hs. by eapply reach_kinv.
Qed.
End simulation.
