(* ===== verification/Delivery.v ===== *)
(** * What the node delivers to Kafka

    The guarantees of Pipeline.v and EndToEnd.v hold of any sink with the moves of
    Hyperloop.v; KafkaLoop.v shows that the Kafka sink is one.  Here they are
    stated of the composition, down to the records the Kafka client acknowledged:
    a saved checkpoint, a restart, a clean stop, and the order in which records
    are produced. *)

From S2P Require Import Prelude GoStd State Event Keys Channel Dispatcher KafkaSink Hyperloop Pipeline.
From S2P Require Import EndToEnd KafkaLoop.
From S2P Require MysqlSource SourceLog SourceResume.

Section delivery.
Context `{Serializer} (cfg : KafkaSink.Config).
Context (c : Hyperloop.Config) (key : NomiosEvent → string) (dt : Z → string).
Context (old : prior) (pos : Position) (pub ms fl : Z).
Hypothesis old_ok : prior_ok cfg old.
Implicit Types (k : kstate).

(** The states the composition reaches. *)
Definition kreach k : Prop := reachable (kstep cfg c key dt) (kinit c old pos pub ms fl) k.

(** The client acknowledged the record of an event in this run: the serialized
    event, on its table's topic, and its promise ended without error. *)
Definition kafka_acked k (e : NomiosEvent) : Prop :=
  ∃ x j r, own_call k x ∧ c_records x !! j = Some r ∧
    c_promises x !! j = Some (PrFin true) ∧ record_for cfg e r.

(** Past a call of [done] every promise of the batch ended without error. *)
Lemma loaded_acked x :
  call_inv x → c_failed x = false →
  c_last x = LLoadFailed ∨ c_last x = LWgDone ∨ c_last x = LFinished →
  Forall (λ p, p = PrFin true) (c_promises x).
Proof.
  intros Hx Hf Hl. assert (c_last x ≠ LNone) as Hn by intuition congruence.
  assert (started x = true) as Hst.
  { destruct (started x) eqn:E; [done|]. by apply (ci_fresh x Hx) in E. }
  eapply Forall_impl; [apply Forall_and; split; [by apply last_undec|]|].
  - apply Forall_forall. intros p Hp. instantiate (1 := λ p, err_seen p = false). simpl.
    destruct (err_seen p) eqn:E; [|done].
    assert (c_failed x = true); [|congruence]. apply (ci_failed x Hx), Exists_exists. by exists p.
  - by intros [| | | | |[]] [??].
Qed.

(** A batch the abstract pipeline acknowledged is acknowledged by the client. *)
Lemma acked_in_kafka k y e :
  kreach k → y ∈ h_subs (abs k) → acked_sub y = true → e ∈ sub_events y → kafka_acked k e.
Proof.
  intros Hr Hy Ha He. assert (kinv cfg k) as Hk by by eapply reach_kinv.
  change (h_subs (abs k)) with (view_sub k <$> k_order k) in Hy.
  apply list_elem_of_fmap in Hy as (n&->&Hn). apply (kv_order _ k Hk) in Hn as (Hom&x&Hx&Hst).
  destruct (Forall2_lookup_r _ _ _ _ _ (kv_metas _ k Hk) Hx) as (m&Hm&Hok).
  unfold view_sub, acked_sub in Ha. simpl in Ha, He. rewrite (meta_of_Some k n m Hm) in Ha, He.
  assert (m_cb m ≠ SubPending) as Hcb by (destruct (failed_call _); [done|]; by destruct (m_cb m)).
  destruct (mo_cb _ _ _ Hok) as [|[Hf Hl]]; [done|].
  assert (call_inv x) as Hinv by (eapply Forall_lookup_1; [apply (kv_sink _ k Hk)|done]).
  pose proof (loaded_acked x Hinv Hf Hl) as Hall.
  apply list_elem_of_lookup in He as [j Hj].
  destruct (Forall2_lookup_l _ _ _ _ _ (mo_rec _ _ _ Hok) Hj) as (r&Hrj&Hrec).
  destruct (lookup_lt_is_Some_2 (c_promises x) j) as [p Hp].
  { rewrite (ci_len x Hinv). by eapply lookup_lt_Some. }
  exists x, j, r. split_and!; try done.
  - rewrite (meta_of_Some k n m Hm) in Hom. by exists n, m.
  - rewrite Hp. f_equal. exact (Forall_lookup_1 _ _ _ _ Hall Hp).
Qed.

Lemma event_acked_kafka k e : kreach k → event_acked key (abs k) e → kafka_acked k (picked key e).
Proof. intros Hr (y&Hy&Ha&He). by eapply acked_in_kafka. Qed.

Lemma kreach_abs k : kreach k → reachable (hstep c key dt) (hinit c pos pub ms fl) (abs k).
Proof. by apply reach_abs. Qed.

(** [C4] The pipeline over the Kafka sink implements the pipeline of the interface: in
    every interleaving of publishers, promises, callbacks, committer and main
    goroutine, each step is a step of the abstract pipeline or shows nothing, and
    what the node sends, saves and returns is the same in both. *)
Theorem kafka_loop_refines k l k' :
  kreach k → kstep cfg c key dt l k = Some k' →
  reachable (hstep c key dt) (hinit c pos pub ms fl) (abs k) ∧
  (abs k' = abs k ∨ ∃ hl, hstep c key dt hl (abs k) = Some (abs k')) ∧
  h_saves (abs k') = h_saves (k_loop k') ∧ h_store (abs k') = h_store (k_loop k') ∧
  h_main (abs k') = h_main (k_loop k') ∧ d_sent (h_disp (abs k')) = d_sent (h_disp (k_loop k')) ∧
  h_sinkerr (abs k') = sinkErr (s_shared (k_sink k')).
Proof.
  intros Hr Hstep. split; [by apply kreach_abs|]. split; [|done].
  eapply (kstep_simulated cfg c key dt); [by eapply reach_kinv|done].
Qed.

(** [C3] No checkpoint runs ahead of Kafka: whenever a position was passed to
    [Store.Save], the Kafka client has acknowledged, without error, the record of
    every event the source sent up to it. *)
Theorem saved_checkpoint_in_kafka k p e :
  kreach k → (Z.of_nat (length (d_sent (h_disp (k_loop k)))) < 2 ^ 64 - 1)%Z →
  p ∈ h_saves (k_loop k) → e ∈ d_sent (h_disp (k_loop k)) → (ev_seq e ≤ SeqNo p)%Z →
  kafka_acked k (picked key e).
Proof.
  intros Hr Hlen Hp He Hle. apply event_acked_kafka; [done|]. pose proof (kreach_abs k Hr) as Ha.
  eapply covered_acked; [exact Ha| |exact He|exact Hle].
  eapply (reach_saves c key dt pos pub ms fl (abs k)); [done|exact Hlen|by left].
Qed.

(** [C5] A clean stop leaves nothing behind: when [run] returned nil and nothing was
    cancelled hard, the client acknowledged the record of every event the source
    sent, and the store holds the position of the last one. *)
Theorem clean_stop_in_kafka k :
  kreach k → (Z.of_nat (length (d_sent (h_disp (k_loop k)))) < 2 ^ 64 - 1)%Z →
  (Z.of_nat (length (queues (New (Queues c) (QueueCapacity c) (flush_size c)))) < 2 ^ 32)%Z →
  h_main (k_loop k) = MainReturned None → d_ctx (h_disp (k_loop k)) = None →
  (∀ e, e ∈ d_sent (h_disp (k_loop k)) → kafka_acked k (picked key e)) ∧
  ∀ e, last (d_sent (h_disp (k_loop k))) = Some e →
    h_store (k_loop k) = EvPosition e ∧ h_persisted (k_loop k) = EvPosition e.
Proof.
  intros Hr Hlen Hn Hm Hctx.
  destruct (clean_stop_persists_all c key dt pos pub ms fl (abs k)) as [Hall Hlast]; try done.
  { by apply kreach_abs. }
  split; [|done]. intros e He. apply event_acked_kafka; [done|]. by apply Hall.
Qed.
End delivery.

(** ** Across a restart, with the MySQL source *)
Section restart.
Import MysqlSource SourceLog SourceResume.
Context `{Serializer} (cfg : KafkaSink.Config).
Context `{GoFmt} `{GTIDLaws} {W : Type} `{Schema.SchemaServer W}.
Context (zone : Z → Z) (quote : string → string).
Context (c : Hyperloop.Config) (key : NomiosEvent → string) (dt : Z → string).
Context (old : prior) (pos : Position) (pub ms fl : Z).
Hypothesis old_ok : prior_ok cfg old.

(** At-least-once delivery: let the node run the MySQL source over a stream of
    transactions into Kafka and be killed at any moment, between any two
    instructions of its goroutines, and let it restart from a position it had
    saved.  The position resolves to an executed set; every row event of the first
    run whose transaction is in that set, and so is not read again, is a record
    the Kafka client had acknowledged. *)
Theorem restart_loses_nothing_in_kafka (s : Source) (s0 : gtids) (f : string) (o : Z)
    (reg : Schema.schemaRegistry W) (items : list stream_item) (gs : list segment)
    (status : result (string * string * Z)) (k : kstate) (p : Position) :
  UseGTID (src_cfg s) = true → gs_wf s0 → gs_String s0 ≠ "" →
  items_events items = stream_events gs → Forall seg_ok gs →
  NoDup (tx_gtid <$> stream_txns gs) →
  Forall (λ t, ¬ gs_In (tx_gtid t) s0) (stream_txns gs) →
  let src := run zone s items (mkRun [] None (initTxn (mkStart (Some s0) f o)) reg) in
  kreach cfg c key dt old pos pub ms fl k →
  (Z.of_nat (length (d_sent (h_disp (k_loop k)))) < 2 ^ 64 - 1)%Z →
  d_sent (h_disp (k_loop k)) `prefix_of` SourceLog.sent src →
  p ∈ h_saves (k_loop k) →
  ∃ s', resolveStart quote (src_cfg s) status p = Ok (mkStart (Some s') "" 0) ∧
    ∀ e, e ∈ SourceLog.sent src → gs_In (GTID (EvSource e)) s' → kafka_acked cfg k (picked key e).
Proof.
  intros Hg Hwf Hne Hit Hok Hnd Hfr src Hr Hlen Hpre Hp.
  destruct (restart_loses_nothing zone quote c key dt pos pub ms fl s s0 f o reg items gs status
    (abs k) p) as (s'&Hres&Hall); try done; [by eapply kreach_abs|].
  exists s'. split; [done|]. intros e He Hin. eapply event_acked_kafka; [done..|]. by apply Hall.
Qed.
End restart.

(** ** Runs for evaluation *)

(** A publisher hands [n] records to the client. *)
Definition publish_labels (i call n : nat) : list klabel :=
  IPublish i :: (ICall call <$> ([KAcquire; KAdd] ++ replicate n KProduce ++ [KReturn])).

(** The client acknowledges [n] records; the last promise runs the callback. *)
Definition ack_labels (call n : nat) : list klabel :=
  ((λ j, ICall call (KAck j None)) <$> seq 0 n) ++ ((λ j, ICall call (KPromise j)) <$> seq 0 n) ++
  [ICall call KLast; IDone call; IDone call; IDone call; ICall call KLast; ICall call KLast].

Definition sample_kconfig : KafkaSink.Config :=
  KafkaSink.withDefaults (KafkaSink.mkConfig ["b:9092"] "" "" ∅ false 2).

Definition sample_kstep := @kstep sampleSerializer sample_kconfig sample_hconfig Key sample_dur.
Definition sample_kinit : kstate := kinit sample_hconfig no_prior zeroPosition 0 0 0.
Definition sample_krun (ls : list klabel) : kstate := default sample_kinit (run_labels sample_kstep ls sample_kinit).

(** Both publishers submit; the second batch is acknowledged first. *)
Definition sample_klabels_published : list klabel :=
  (ILoop <$> (sample_source_labels ++ sample_dispatch_labels)) ++
  [ILoop (HRecv 0)] ++ publish_labels 0 0 2 ++ (ILoop <$> [HClosed 0; HSkip 0; HPubExit 0; HRecv 1; HClosed 1]) ++
  publish_labels 1 1 1 ++ (ILoop <$> [HPubExit 1; HFinished]).

Definition sample_klabels : list klabel :=
  sample_klabels_published ++ ack_labels 1 1 ++ [ITick; ILoop HTake] ++ ack_labels 0 2 ++
  [ITick; ILoop HTake; ILoop HSaveOk; ILoop HGetErr; IFlush None false] ++
  (ILoop <$> [HCommitStop; HJoinCommit; HFinalOk]).

Lemma sample_krun_reachable ls :
  is_Some (run_labels sample_kstep ls sample_kinit) →
  @kreach sampleSerializer sample_kconfig sample_hconfig Key sample_dur no_prior zeroPosition 0 0 0 (sample_krun ls).
Proof.
  intros [s Hs]. unfold sample_krun. rewrite Hs. by apply (run_labels_reachable _ ls).
Qed.

(** ** Witnesses *)

(** The first instruction of a callback is the acknowledgement of its batch. *)
Lemma kafka_loop_refines_witness :
  let ls := sample_klabels_published ++ take 3 (ack_labels 1 1) in
  let k := sample_krun ls in let k' := sample_krun (ls ++ [IDone 1]) in
  acked_sub <$> h_subs (abs k) = [false; false] ∧ acked_sub <$> h_subs (abs k') = [false; true] ∧
  reachable (hstep sample_hconfig Key sample_dur) (hinit sample_hconfig zeroPosition 0 0 0) (abs k) ∧
  (abs k' = abs k ∨ ∃ hl, hstep sample_hconfig Key sample_dur hl (abs k) = Some (abs k')) ∧
  h_saves (abs k') = h_saves (k_loop k') ∧ h_store (abs k') = h_store (k_loop k') ∧
  h_main (abs k') = h_main (k_loop k') ∧ d_sent (h_disp (abs k')) = d_sent (h_disp (k_loop k')) ∧
  h_sinkerr (abs k') = sinkErr (s_shared (k_sink k')).
Proof.
  intros ls k k'. split; [vm_compute; reflexivity|]. split; [vm_compute; reflexivity|].
  apply (@kafka_loop_refines sampleSerializer sample_kconfig sample_hconfig Key sample_dur no_prior zeroPosition 0 0 0
    (no_prior_ok _) k (IDone 1) k').
  - apply sample_krun_reachable. decide_closed.
  - vm_compute. reflexivity.
Defined.

Lemma saved_checkpoint_in_kafka_witness :
  let k := sample_krun sample_klabels in let e := sample_ev "db.t|1" 1 in
  EvPosition (sample_ev "db.t|1" 3) ∈ h_saves (k_loop k) ∧
  @kafka_acked sampleSerializer sample_kconfig k (picked Key e).
Proof.
  intros k e. split; [unfold k; decide_closed|].
  apply (@saved_checkpoint_in_kafka sampleSerializer sample_kconfig sample_hconfig Key sample_dur no_prior zeroPosition 0 0 0
    (no_prior_ok _) k (EvPosition (sample_ev "db.t|1" 3)) e).
  - apply sample_krun_reachable. decide_closed.
  - vm_compute. reflexivity.
  - unfold k. decide_closed.
  - unfold k, e. decide_closed.
  - vm_compute. discriminate.
Defined.

Lemma clean_stop_in_kafka_witness :
  let k := sample_krun sample_klabels in
  (∀ e, e ∈ d_sent (h_disp (k_loop k)) → @kafka_acked sampleSerializer sample_kconfig k (picked Key e)) ∧
  ∀ e, last (d_sent (h_disp (k_loop k))) = Some e →
    h_store (k_loop k) = EvPosition e ∧ h_persisted (k_loop k) = EvPosition e.
Proof.
  intros k.
  apply (@clean_stop_in_kafka sampleSerializer sample_kconfig sample_hconfig Key sample_dur no_prior zeroPosition 0 0 0
    (no_prior_ok _) k).
  - apply sample_krun_reachable. decide_closed.
  - vm_compute. reflexivity.
  - vm_compute. reflexivity.
  - vm_compute. reflexivity.
  - vm_compute. reflexivity.
Defined.

(** The six events of SourceResume's two transactions in one batch. *)
Definition restart_klabels : list klabel :=
  (ILoop <$> take (length restart_labels - 5) restart_labels) ++ publish_labels 0 0 6 ++ ack_labels 0 6 ++
  [ITick; ILoop HTake; ILoop HSaveOk].

Definition restart_kstate : kstate :=
  default sample_kinit (run_labels (@kstep sampleSerializer sample_kconfig restart_config Key sample_dur)
    restart_klabels (kinit restart_config no_prior zeroPosition 0 0 0)).

Lemma restart_loses_nothing_in_kafka_witness :
  ∃ p, h_saves (k_loop restart_kstate) = [p] ∧ SeqNo p = 6%Z ∧
  ∃ s', @MysqlSource.resolveStart SourceResume.sampleGTIDs id
      (MysqlSource.src_cfg SourceResume.sample_source) (Err (EText "unused")) p =
      Ok (@MysqlSource.mkStart SourceResume.sampleGTIDs (Some s') "" 0) ∧
    ∀ e, e ∈ SourceLog.sent SourceResume.sample_run →
      @SourceResume.gs_In SourceResume.sampleGTIDs SourceResume.sampleGTIDs_laws (GTID (EvSource e)) s' →
      @kafka_acked sampleSerializer sample_kconfig restart_kstate (picked Key e).
Proof.
  eexists. split; [vm_compute; reflexivity|]. split; [reflexivity|].
  apply (@restart_loses_nothing_in_kafka sampleSerializer sample_kconfig sampleFmt SourceResume.sampleGTIDs
    SourceResume.sampleGTIDs_laws nat Schema.sampleServer (λ _, 0%Z) id restart_config Key sample_dur
    no_prior zeroPosition 0 0 0 (no_prior_ok _)
    SourceResume.sample_source ["x:1"] "" 0 (Schema.mkRegistry ∅ 0%nat) SourceResume.sample_items
    SourceResume.sample_segments).
  - reflexivity.
  - repeat constructor.
  - discriminate.
  - apply SourceResume.sample_segments_items.
  - apply SourceResume.sample_segments_ok.
  - apply SourceResume.sample_gtids_distinct.
  - apply (bool_decide_unpack _). vm_compute. exact I.
  - apply (run_labels_reachable _ restart_klabels). vm_compute. reflexivity.
  - vm_compute. reflexivity.
  - apply (bool_decide_unpack _). vm_compute. exact I.
  - vm_compute. left.
Defined.
