(* ===== verification/ProduceOrder.v ===== *)
(** * The order in which records are produced

    Over the composition of KafkaLoop.v: the records handed to the Kafka client,
    in the order of the calls of [Produce], against the events of the source.  The
    client keeps the order of a partition, and a key's records go to one
    partition, so what is shown here is what the topics hold. *)

From S2P Require Import Prelude GoStd State Event Keys Channel Dispatcher KafkaSink Hyperloop Pipeline.
From S2P Require Import EndToEnd KafkaLoop Delivery.

(** ** The log of [Produce] *)

(** The publisher and the record of a move that hands a record of this run to the
    client.  What a publisher that an earlier run abandoned hands over is none of
    it. *)
Definition produced_by (l : klabel) (k : kstate) : option (nat * krecord) :=
  match l with
  | ICall n KProduce =>
      m ← k_metas k !! n; x ← s_calls (k_sink k) !! n;
      match m_own m, c_pc x with
      | true, CSubmitting j => pair (m_queue m) <$> c_records x !! j
      | _, _ => None
      end
  | _ => None
  end.

Section log.
Context `{Serializer} (cfg : KafkaSink.Config).
Context (c : Hyperloop.Config) (key : NomiosEvent → string) (dt : Z → string).
Implicit Types (k : kstate).

Fixpoint produce_log (ls : list klabel) k : list (nat * krecord) :=
  match ls with
  | [] => []
  | l :: ls =>
      match kstep cfg c key dt l k with
      | Some k' => option_list (produced_by l k) ++ produce_log ls k'
      | None => []
      end
  end.

(** The records publisher [i] produced. *)
Definition of_queue (i : nat) (log : list (nat * krecord)) : list krecord :=
  (filter (λ p, p.1 = i) log).*2.

(** ** The log as a function of the state *)

(** The calls of publisher [i] that passed the select. *)
Definition calls_of k (i : nat) : list nat := filter (λ n, m_queue (meta_of k n) = i) (k_order k).

Definition prod_of k (n : nat) : list krecord := take (produced (call_of k n)) (c_records (call_of k n)).

Definition produced_of k (i : nat) : list krecord := calls_of k i ≫= prod_of k.

(** The call a publisher is inside of is its latest. *)
Definition latest k : Prop :=
  ∀ i n, k_in k !! i = Some n → started (call_of k n) = true → last (calls_of k i) = Some n.

(** Calls that keep their queue and what they produced. *)
Lemma produced_of_ext k k' i :
  k_order k' = k_order k →
  (∀ n, n ∈ k_order k → m_queue (meta_of k' n) = m_queue (meta_of k n) ∧ prod_of k' n = prod_of k n) →
  calls_of k' i = calls_of k i ∧ produced_of k' i = produced_of k i.
Proof.
  intros Ho Hn. assert (calls_of k' i = calls_of k i) as Hc.
  { unfold calls_of. rewrite Ho. apply filter_ext_elem. intros n Hin. by destruct (Hn n Hin) as [-> _]. }
  split; [done|]. unfold produced_of. rewrite Hc. apply Forall_bind_ext, Forall_forall.
  intros n [_ Hin]%list_elem_of_filter. by apply Hn.
Qed.

Lemma order_known k n :
  kinv cfg k → n ∈ k_order k →
  ∃ m x, k_metas k !! n = Some m ∧ s_calls (k_sink k) !! n = Some x ∧ started x = true ∧ m_own m = true.
Proof.
  intros Hk Hn. apply (kv_order _ k Hk) in Hn as (Hom&x&Hx&Hst).
  destruct (Forall2_lookup_r _ _ _ _ _ (kv_metas _ k Hk) Hx) as (m&Hm&_).
  rewrite (meta_of_Some k n m Hm) in Hom. by exists m, x.
Qed.

(** *** Moves that produce nothing *)
Definition quiet k k' : Prop := ∀ i, calls_of k' i = calls_of k i ∧ produced_of k' i = produced_of k i.

Lemma quiet_loop k h : quiet k (with_loop k h).
Proof. done. Qed.

(** A new call, which did not pass the select. *)
Lemma call_of_snoc k h topics sh x ms ins o n y :
  s_calls (k_sink k) !! n = Some y →
  call_of (mkK h (mkSink topics sh (s_calls (k_sink k) ++ [x])) ms ins o) n = call_of k n.
Proof. intros Hy. unfold call_of. simpl. by rewrite lookup_app_l, Hy by by eapply lookup_lt_Some. Qed.

Lemma quiet_begin k h topics sh x m ins :
  kinv cfg k →
  quiet k (mkK h (mkSink topics sh (s_calls (k_sink k) ++ [x])) (k_metas k ++ [m]) ins (k_order k)).
Proof.
  intros Hk i. apply produced_of_ext; [done|]. intros n Hn.
  destruct (order_known k n Hk Hn) as (m'&y&Hm&Hy&_). unfold prod_of.
  rewrite (call_of_snoc k h topics sh x _ _ _ n y Hy). split; [|done].
  unfold meta_of. simpl. by rewrite lookup_app_l, Hm by by eapply lookup_lt_Some.
Qed.

Lemma quiet_stale es k k' :
  kinv cfg k → stale_publish cfg es k = Some k' →
  quiet k k' ∧ (∀ j n, k_in k' !! j = Some n → started (call_of k' n) = true →
                k_in k !! j = Some n ∧ started (call_of k n) = true).
Proof.
  intros Hk Hstep.
  destruct (stale_publish_cases _ _ _ _ Hstep Hk) as (topics&_&[->|(rs&ps&_&_&_&->)]).
  - split; [|done]. intros j. by apply produced_of_ext.
  - split; [by apply quiet_begin|]. intros j n Hj.
    destruct (kv_in _ k Hk _ _ Hj) as (m&y&_&Hy&_). by rewrite (call_of_snoc _ _ _ _ _ _ _ _ _ _ Hy).
Qed.

Lemma quiet_publish i k k' :
  kinv cfg k → publish_call cfg c key dt i k = Some k' →
  quiet k k' ∧ (∀ j n, k_in k' !! j = Some n → started (call_of k' n) = true →
                k_in k !! j = Some n ∧ started (call_of k n) = true).
Proof.
  intros Hk Hstep. unfold publish_call in Hstep.
  destruct (h_pubs (k_loop k) !! i) as [p|] eqn:Hpi; cbn [mbind option_bind] in Hstep; [|done].
  destruct p as [| |[|e b] o| |]; try done. destruct (k_in k !! i) eqn:Hi; [done|].
  cbn [KafkaSink.sink_step] in Hstep. unfold refused in Hstep.
  destruct (sinkErr (s_shared (k_sink k))) as [err|] eqn:Hse; cbn [mbind option_bind] in Hstep.
  { destruct (hstep c key dt _ _); simplify_eq/=. split; [|done]. intros j. by apply produced_of_ext. }
  destruct (make_records cfg (s_topics (k_sink k)) (e :: b)) as [[[rs ps]|err] topics] eqn:Hmr;
    cbn [mbind option_bind fst] in Hstep.
  2: { destruct (hstep c key dt _ _); simplify_eq/=. split; [|done]. intros j. by apply produced_of_ext. }
  injection Hstep as <-. split; [by apply quiet_begin|].
  intros j n. cbn [k_in]. rewrite lookup_insert_Some. intros [[<- <-]|[Hne Hj]].
  - unfold call_of. simpl. by rewrite list_lookup_middle by done.
  - destruct (kv_in _ k Hk _ _ Hj) as (m&y&_&Hy&_). by rewrite (call_of_snoc _ _ _ _ _ _ _ _ _ _ Hy).
Qed.

Lemma quiet_callback n k k' : callback n k = Some k' → quiet k k' ∧ k_in k' = k_in k ∧ k_sink k' = k_sink k.
Proof.
  unfold callback. intros Hstep. destruct (k_metas k !! n) as [m|] eqn:Hm; simpl in Hstep; [|done].
  destruct (s_calls (k_sink k) !! n) as [x|] eqn:Hx; simpl in Hstep; [|done].
  destruct (callback_due x m); [|done].
  assert (∃ h cb, k' = set_cb k n m h cb) as (h&cb&->)
    by (destruct (m_cb m); try done; injection Hstep as <-; by eexists _, _).
  split; [|done]. intros i. apply produced_of_ext; [done|]. intros n' _. split; [|done].
  unfold meta_of. simpl. destruct (decide (n' = n)) as [->|Hne].
  - rewrite list_lookup_insert_eq by (by eapply lookup_lt_Some). by rewrite Hm.
  - by rewrite list_lookup_insert_ne.
Qed.

(** *** Moves of a call *)

Lemma call_step_produced cap l sh x sh' x' :
  call_step cap l sh x = Some (sh', x') → call_inv x → l ≠ KProduce → produced x' = produced x.
Proof.
  intros Hstep Hinv Hl. pose proof (ci_produced x Hinv) as Hle. unfold produced in *.
  destruct l; try done; cbn [call_step] in Hstep; unfold promise_step, last_step in Hstep;
    repeat case_match; simplify_eq; call_simpl; try done; try congruence; lia.
Qed.

Lemma call_step_started cap l sh x sh' x' :
  call_step cap l sh x = Some (sh', x') → l ≠ KAdd → started x' = started x.
Proof.
  intros Hstep Hl. unfold started. destruct l; try done; cbn [call_step] in Hstep;
    unfold promise_step, last_step in Hstep; repeat case_match; simplify_eq; call_simpl; try done; congruence.
Qed.

(** What publisher [i] produces in a move. *)
Definition emitted (i : nat) (l : klabel) k : list krecord := of_queue i (option_list (produced_by l k)).

Lemma step_call_add k n x m sh' x' :
  kinv cfg k → latest k → k_metas k !! n = Some m → m_own m = true → s_calls (k_sink k) !! n = Some x →
  call_step (Z.to_nat (MaxInflightBatches cfg)) KAdd (s_shared (k_sink k)) x = Some (sh', x') →
  let k' := mkK (k_loop k) (mkSink (s_topics (k_sink k)) sh' (<[n := x']> (s_calls (k_sink k))))
    (k_metas k) (k_in k) (k_order k ++ [n]) in
  latest k' ∧ ∀ i, produced_of k' i = produced_of k i.
Proof.
  intros Hk Hlat Hm Hom Hx Hcs k'.
  assert (call_inv x) as Hinv by (eapply Forall_lookup_1; [apply (kv_sink _ k Hk)|done]).
  assert (started x = false ∧ produced x' = 0%nat) as [Hst Hpr].
  { cbn [call_step] in Hcs. unfold started, produced. destruct (c_pc x); try done. by simplify_eq. }
  assert (n ∉ k_order k) as Hnew.
  { intros (m'&y&_&Hy&Hsy&_)%order_known; [|done]. congruence. }
  assert (Hcall : ∀ n', call_of k' n' = if decide (n' = n) then x' else call_of k n')
    by (intros; by apply call_of_insert with x).
  assert (Hcalls : ∀ i, calls_of k' i = calls_of k i ++ if decide (m_queue m = i) then [n] else []).
  { intros i. unfold calls_of. cbn [k_order k']. rewrite filter_app. f_equal.
    rewrite filter_cons, filter_nil. unfold meta_of. simpl. by rewrite Hm. }
  split.
  - intros i n' Hi Hs. cbn [k_in k'] in Hi. rewrite Hcalls. destruct (decide (m_queue m = i)) as [Hq|Hq].
    + rewrite last_snoc. f_equal. assert (inside x = true) as Hins.
      { cbn [call_step] in Hcs. unfold inside. by destruct (c_pc x). }
      pose proof (kv_pub _ k Hk _ _ _ Hm Hom Hx Hins). congruence.
    + rewrite app_nil_r. apply Hlat; [done|]. rewrite Hcall in Hs. case_decide; [|done]. subst n'.
      destruct (kv_in _ k Hk _ _ Hi) as (m'&y&?&_&?&_). congruence.
  - intros i. unfold produced_of. rewrite Hcalls, bind_app.
    assert ((if decide (m_queue m = i) then [n] else []) ≫= prod_of k' = []) as ->.
    { case_decide; [|done]. simpl. unfold prod_of. by rewrite Hcall, decide_True, Hpr by done. }
    rewrite app_nil_r. apply Forall_bind_ext, Forall_forall. intros n' [_ Hin]%list_elem_of_filter.
    unfold prod_of. rewrite Hcall, decide_False; [done|]. by intros ->.
Qed.

(** The publisher's latest call hands over its next record. *)
Lemma step_call_produce k n x m sh' x' :
  kinv cfg k → latest k → k_metas k !! n = Some m → m_own m = true → s_calls (k_sink k) !! n = Some x →
  call_step (Z.to_nat (MaxInflightBatches cfg)) KProduce (s_shared (k_sink k)) x = Some (sh', x') →
  let k' := mkK (k_loop k) (mkSink (s_topics (k_sink k)) sh' (<[n := x']> (s_calls (k_sink k))))
    (k_metas k) (k_in k) (k_order k) in
  ∀ i, produced_of k' i = produced_of k i ++ emitted i (ICall n KProduce) k.
Proof.
  intros Hk Hlat Hm Hom Hx Hcs k' i.
  destruct (call_step_frame _ _ _ _ _ _ Hcs) as [Hr _].
  assert (∃ j r, c_pc x = CSubmitting j ∧ c_records x !! j = Some r ∧ produced x' = S j) as (j&r&Hpc&Hrj&Hpr).
  { cbn [call_step] in Hcs. destruct (c_pc x) as [| |j| |]; try done. case_decide as Hj; [|done].
    destruct (lookup_lt_is_Some_2 _ _ Hj) as [r Hr']. exists j, r. by simplify_eq. }
  assert (Hcall : ∀ n', call_of k' n' = if decide (n' = n) then x' else call_of k n')
    by (intros; by apply call_of_insert with x).
  assert (inside x = true) as Hins by (unfold inside; by rewrite Hpc).
  pose proof (kv_pub _ k Hk _ _ _ Hm Hom Hx Hins) as Hin.
  assert (last (calls_of k (m_queue m)) = Some n) as Hlast.
  { apply Hlat; [done|]. unfold started. by rewrite (call_of_Some k n x Hx), Hpc. }
  assert (Hother : ∀ l, n ∉ l → l ≫= prod_of k' = l ≫= prod_of k).
  { intros l Hl. apply Forall_bind_ext, Forall_forall. intros n' Hn'. unfold prod_of.
    rewrite Hcall, decide_False; [done|]. by intros ->. }
  unfold emitted, produced_by. rewrite Hm, Hx. cbn [mbind option_bind]. rewrite Hom, Hpc, Hrj. unfold of_queue. simpl.
  unfold produced_of. change (calls_of k' i) with (calls_of k i).
  rewrite filter_cons, filter_nil. simpl. destruct (decide (m_queue m = i)) as [<-|Hne].
  - apply last_Some in Hlast as [l Hl]. rewrite Hl, !bind_app. simpl. rewrite !app_nil_r, <-(assoc_L (++)).
    f_equal.
    + apply Hother. assert (NoDup (l ++ [n])) as Hnd by (rewrite <-Hl; apply NoDup_filter, (kv_nodup _ k Hk)).
      apply NoDup_app in Hnd as (_&Hdis&_). intros Hin'. apply (Hdis _ Hin'). left.
    + unfold prod_of. rewrite Hcall, decide_True, Hpr, Hr, (call_of_Some k n x Hx) by done.
      unfold produced. rewrite Hpc. by apply take_S_r.
  - simpl. rewrite app_nil_r. apply Hother. intros [Hq _]%list_elem_of_filter.
    by rewrite (meta_of_Some k n m Hm) in Hq.
Qed.

(** A call of an earlier run produces nothing of this one. *)
Lemma step_foreign k n l x m sh' x' :
  kinv cfg k → latest k → k_metas k !! n = Some m → m_own m = false → s_calls (k_sink k) !! n = Some x →
  let k' := mkK (k_loop k) (mkSink (s_topics (k_sink k)) sh' (<[n := x']> (s_calls (k_sink k))))
    (k_metas k) (k_in k) (k_order k) in
  latest k' ∧ ∀ i, produced_of k' i = produced_of k i ++ emitted i (ICall n l) k.
Proof.
  intros Hk Hlat Hm Hf Hx k'. destruct (foreign_unseen _ k n m Hk Hm Hf) as [Hin Hord].
  assert (Hcall : ∀ n', n' ≠ n → call_of k' n' = call_of k n').
  { intros n' Hne. unfold k'. rewrite (call_of_insert k _ n x x') by done. by rewrite decide_False. }
  split.
  - intros i n' Hi Hs. rewrite Hcall in Hs by (intros ->; by destruct (Hin i)). by apply Hlat.
  - intros i. assert (emitted i (ICall n l) k = []) as ->.
    { destruct l; try done. unfold emitted, produced_by. rewrite Hm, Hx. cbn [mbind option_bind]. by rewrite Hf. }
    rewrite app_nil_r. apply produced_of_ext; [done|]. intros n' Hn'. split; [done|]. unfold prod_of.
    by rewrite Hcall by by intros ->.
Qed.

Lemma step_call n l k k' :
  kinv cfg k → latest k → sink_call cfg c key dt n l k = Some k' →
  latest k' ∧ ∀ i, produced_of k' i = produced_of k i ++ emitted i (ICall n l) k.
Proof.
  intros Hk Hlat Hstep.
  destruct (sink_call_cases _ _ _ _ _ _ _ _ Hstep Hk) as (m&x&sh'&x'&Hm&Hx&Hcs&_&Hcase).
  cbn zeta in Hcase. destruct (m_own m) eqn:Hom; [|subst k'; by eapply step_foreign].
  assert (call_inv x) as Hinv by (eapply Forall_lookup_1; [apply (kv_sink _ k Hk)|done]).
  assert (∃ h ins o, k' = mkK h (mkSink (s_topics (k_sink k)) sh' (<[n := x']> (s_calls (k_sink k)))) (k_metas k) ins o ∧
    (l ≠ KAdd → o = k_order k ∧ ins ⊆ k_in k)) as (h&ins&o&->&Hkeep).
  { destruct l as [| | | | |j e|j|]; first [subst k'|destruct Hcase as [_ ->]];
      eexists _, _, _; (split; [done|]); try done; intros _; (split; [done|]); try done; apply delete_subseteq. }
  assert (Hcall : ∀ n', call_of (mkK h (mkSink (s_topics (k_sink k)) sh' (<[n := x']> (s_calls (k_sink k)))) (k_metas k) ins o) n' =
    if decide (n' = n) then x' else call_of k n') by (intros; by apply call_of_insert with x).
  destruct (decide (l = KAdd)) as [->|Ha].
  { injection Hcase as Hh Hi Ho. rewrite Hh, Hi, Ho.
    destruct (step_call_add k n x m sh' x') as [Hl' Hp]; try done. split; [done|]. intros i. rewrite Hp.
    by rewrite app_nil_r. }
  destruct (Hkeep Ha) as [-> Hins]. split.
  - intros i n' Hi Hs. apply Hlat; [by eapply lookup_weaken|]. rewrite Hcall in Hs.
    case_decide; [|done]. subst n'. rewrite (call_of_Some k n x Hx).
    by rewrite <-(call_step_started _ _ _ _ _ _ Hcs Ha).
  - intros i. destruct (decide (l = KProduce)) as [->|Hp].
    { apply (step_call_produce k n x m sh' x'); done. }
    assert (emitted i (ICall n l) k = []) as -> by by destruct l.
    rewrite app_nil_r. apply produced_of_ext; [done|]. intros n' Hn'. split; [done|].
    unfold prod_of. rewrite Hcall. case_decide; [|done]. subst n'.
    rewrite (call_of_Some k n x Hx), (call_step_produced _ _ _ _ _ _ Hcs Hinv Hp).
    by destruct (call_step_frame _ _ _ _ _ _ Hcs) as [-> _].
Qed.

Lemma step_produced l k k' :
  kinv cfg k → latest k → kstep cfg c key dt l k = Some k' →
  latest k' ∧ ∀ i, produced_of k' i = produced_of k i ++ emitted i l k.
Proof.
  intros Hk Hlat Hstep.
  assert (Hquiet : quiet k k' → (∀ j n, k_in k' !! j = Some n → started (call_of k' n) = true →
      k_in k !! j = Some n ∧ started (call_of k n) = true) →
    (∀ i, emitted i l k = []) → latest k' ∧ ∀ i, produced_of k' i = produced_of k i ++ emitted i l k).
  { intros Hq Hin He. split.
    - intros i n Hi Hs. destruct (Hq i) as [-> _]. destruct (Hin _ _ Hi Hs). by apply Hlat.
    - intros i. rewrite He, app_nil_r. by destruct (Hq i). }
  destruct l as [l|i|es|n l|n| |cl to]; cbn [kstep] in Hstep.
  - destruct (loop_label _ l); [|done]. destruct (hstep c key dt l (k_loop k)); simplify_eq/=. by apply Hquiet.
  - destruct (quiet_publish _ _ _ Hk Hstep). by apply Hquiet.
  - destruct (quiet_stale _ _ _ Hk Hstep). by apply Hquiet.
  - by apply step_call.
  - destruct (quiet_callback _ _ _ Hstep) as (Hq&Hi&Hs). apply Hquiet; [done| |done].
    intros j n' Hj Hst. rewrite Hi in Hj. unfold call_of in Hst. by rewrite Hs in Hst.
  - destruct (hstep c key dt HTick _); [|done]. cbn [fmap option_fmap option_map] in Hstep. simplify_eq. by apply Hquiet.
  - destruct (h_main (k_loop k)) as [| | | |[] []| | |]; try done.
    destruct (Flush_result _ _ _); simplify_eq/=. by apply Hquiet.
Qed.

Lemma of_queue_app i l1 l2 : of_queue i (l1 ++ l2) = of_queue i l1 ++ of_queue i l2.
Proof. unfold of_queue. by rewrite filter_app, fmap_app. Qed.

Lemma run_produced ls k k' :
  kinv cfg k → latest k → run_labels (kstep cfg c key dt) ls k = Some k' →
  kinv cfg k' ∧ latest k' ∧ ∀ i, produced_of k' i = produced_of k i ++ of_queue i (produce_log ls k).
Proof.
  revert k. induction ls as [|l ls IH]; intros k Hk Hlat; simpl.
  { intros [= <-]. split_and!; try done. intros i. by rewrite app_nil_r. }
  destruct (kstep cfg c key dt l k) as [k1|] eqn:Hstep; simpl; [|done]. intros Hrun.
  destruct (step_produced _ _ _ Hk Hlat Hstep) as [Hlat1 Hp1].
  destruct (IH k1) as (Hk'&Hlat'&Hp'); [by eapply kstep_inv|done|done|].
  split_and!; [done..|]. intros i. rewrite Hp', Hp1, of_queue_app, (assoc_L (++)). done.
Qed.

(** ** Against what was submitted *)

Lemma submitted_abs k i : submitted (abs k) i = calls_of k i ≫= λ n, m_batch (meta_of k n).
Proof.
  unfold submitted, calls_of. change (h_subs (abs k)) with (view_sub k <$> k_order k).
  induction (k_order k) as [|n l IH]; [done|]. rewrite fmap_cons, !filter_cons. simpl.
  destruct (decide (m_queue (meta_of k n) = i)); [|exact IH]. simpl. f_equal. exact IH.
Qed.

Lemma bind_prefix {A B C} (R : A → B → Prop) (f : C → list A) (g : C → list B) (l : list C) (n : C) (q : nat) :
  (∀ x, x ∈ l → Forall2 R (f x) (g x)) → Forall2 R (f n) (g n) →
  ∃ es, es `prefix_of` (l ++ [n]) ≫= f ∧ Forall2 R es ((l ≫= g) ++ take q (g n)).
Proof.
  intros Hl Hn. exists ((l ≫= f) ++ take q (f n)). split.
  - rewrite bind_app. simpl. rewrite app_nil_r. apply prefix_app. exists (drop q (f n)). by rewrite take_drop.
  - apply Forall2_app; [|by apply Forall2_take].
    clear Hn. induction l as [|x l IH]; [constructor|]. simpl. apply Forall2_app.
    + apply Hl. left.
    + apply IH. intros y Hy. apply Hl. by right.
Qed.

(** All calls of a publisher but its latest have handed over all their records. *)
Lemma earlier_returned k i l n n' :
  kinv cfg k → latest k → calls_of k i = l ++ [n] → n' ∈ l →
  produced (call_of k n') = length (c_records (call_of k n')).
Proof.
  intros Hk Hlat Hl Hn'. assert (n' ∈ calls_of k i) as [Hq Hin]%list_elem_of_filter.
  { rewrite Hl. apply elem_of_app. by left. }
  destruct (order_known k n' Hk Hin) as (m&x&Hm&Hx&Hst&Hom). rewrite (call_of_Some k n' x Hx).
  destruct (inside x) eqn:Hins.
  - exfalso. pose proof (kv_pub _ k Hk _ _ _ Hm Hom Hx Hins) as Hk1.
    rewrite (meta_of_Some k n' m Hm) in Hq. rewrite Hq in Hk1.
    assert (last (calls_of k i) = Some n') as Hlast by (apply Hlat; [done|by rewrite (call_of_Some k n' x Hx)]).
    rewrite Hl, last_snoc in Hlast. injection Hlast as ->.
    assert (NoDup (l ++ [n'])) as Hnd by (rewrite <-Hl; apply NoDup_filter, (kv_nodup _ k Hk)).
    apply NoDup_app in Hnd as (_&Hdis&_). apply (Hdis _ Hn'). left.
  - unfold inside, started, produced in *. by destruct (c_pc x).
Qed.

Lemma produced_prefix k i :
  kinv cfg k → latest k →
  ∃ es, es `prefix_of` submitted (abs k) i ∧ Forall2 (record_for cfg) es (produced_of k i).
Proof.
  intros Hk Hlat. rewrite submitted_abs. unfold produced_of.
  assert (Hrec : ∀ n, n ∈ calls_of k i → Forall2 (record_for cfg) (m_batch (meta_of k n)) (c_records (call_of k n))).
  { intros n [_ Hn]%list_elem_of_filter. destruct (order_known k n Hk Hn) as (m&x&Hm&Hx&_).
    rewrite (meta_of_Some k n m Hm), (call_of_Some k n x Hx).
    apply (mo_rec _ _ _ (Forall2_lookup_lr _ _ _ _ _ _ (kv_metas _ k Hk) Hm Hx)). }
  destruct (calls_of k i) as [|n0 l0] eqn:Hl using rev_ind; [by exists []|clear IHl0].
  destruct (bind_prefix (record_for cfg) (λ n, m_batch (meta_of k n)) (λ n, c_records (call_of k n)) l0 n0
    (produced (call_of k n0))) as (es&Hpre&Hf).
  - intros x Hx. apply Hrec, elem_of_app. by left.
  - apply Hrec, elem_of_app. right. left.
  - exists es. split; [done|]. rewrite bind_app. simpl. rewrite app_nil_r.
    assert (l0 ≫= prod_of k = l0 ≫= λ n, c_records (call_of k n)) as ->; [|done].
    apply Forall_bind_ext, Forall_forall. intros n' Hn'. unfold prod_of.
    by rewrite (earlier_returned k i l0 n0 n' Hk Hlat Hl Hn'), take_ge.
Qed.
End log.

(** ** Properties *)
Section properties.
Context `{Serializer} (cfg : KafkaSink.Config).
Context (c : Hyperloop.Config) (key : NomiosEvent → string) (dt : Z → string).
Context (old : prior) (pos : Position) (pub ms fl : Z).
Hypothesis old_ok : prior_ok cfg old.

Local Abbreviation init := (kinit c old pos pub ms fl).
Local Abbreviation step := (kstep cfg c key dt).
Local Abbreviation nq := (length (queues (New (Queues c) (QueueCapacity c) (flush_size c)))).

(** What a publisher produced, against its queue. *)
Lemma queue_log ls k i :
  run_labels step ls init = Some k →
  ∃ es, es `prefix_of` submitted (abs k) i ∧
    Forall2 (record_for cfg) es (of_queue i (produce_log cfg c key dt ls init)).
Proof.
  intros Hrun. destruct (run_produced cfg c key dt ls init k) as (Hk&Hlat&Hp); [by apply kinit_inv|done|done|].
  destruct (produced_prefix cfg k i Hk Hlat) as (es&Hpre&Hf). exists es. split; [done|].
  by rewrite Hp in Hf.
Qed.

Lemma forall2_filter (k0 : string) es rs :
  (∀ e r, record_for cfg e r → k_key r = Key e) → Forall2 (record_for cfg) es rs →
  Forall2 (record_for cfg) (filter (λ e, Key e = k0) es) (filter (λ r, k_key r = k0) rs).
Proof.
  intros Hkey Hf. induction Hf as [|e r es rs Her _ IH]; [constructor|]. rewrite !filter_cons.
  rewrite (Hkey _ _ Her). case_decide; [by constructor|done].
Qed.

Lemma log_by_queue (i : nat) (k0 : string) (log : list (nat * krecord)) :
  (∀ p, p ∈ log → k_key p.2 = k0 → p.1 = i) →
  filter (λ r, k_key r = k0) log.*2 = filter (λ r, k_key r = k0) (of_queue i log).
Proof.
  unfold of_queue. induction log as [|p log IH]; intros Hlog; [done|].
  rewrite fmap_cons, !filter_cons. rewrite IH by (intros q Hq; apply Hlog; by right).
  destruct (decide (k_key p.2 = k0)) as [Hk|Hk].
  - rewrite (decide_True (P := p.1 = i)) by (apply Hlog; [left|done]).
    rewrite fmap_cons, filter_cons. by rewrite decide_True.
  - case_decide; [|done]. rewrite fmap_cons, filter_cons. by rewrite decide_False.
Qed.

Lemma submitted_routed ls k i e :
  run_labels step ls init = Some k → e ∈ submitted (abs k) i → queue_of nq e = i ∧ (i < nq)%nat.
Proof.
  intros Hrun He. assert (reachable (hstep c key dt) (hinit c pos pub ms fl) (abs k)) as Hr.
  { eapply kreach_abs; [done|]. by eapply (run_labels_reachable _ ls). }
  assert (i < nq)%nat as Hi.
  { unfold submitted in He. apply list_elem_of_join in He as (b&_&Hb).
    apply list_elem_of_fmap in Hb as (x&->&[<- Hx]%list_elem_of_filter).
    by eapply (reach_subs_range c key dt pos pub ms fl (abs k)). }
  split; [|done]. pose proof (submitted_prefix c key dt pos pub ms fl (abs k) i Hr Hi) as Hpre.
  eapply elem_of_prefix in He; [|exact Hpre]. unfold routed_to in He. by apply list_elem_of_filter in He as [? _].
Qed.

(** [C6] Per-key order reaches Kafka: over any run, the records a publisher handed to
    the client, in the order of the calls of [Produce], are the records of a prefix
    of its queue's events as the source sent them; and, when the serializer keys a
    record by its event's entity key, the records of one key, over all publishers,
    are the records of a prefix of that key's events in source order. *)
Theorem produce_order ls k :
  (∀ e kk v, Serialize e = Ok (kk, v) → kk = Key e) → run_labels step ls init = Some k →
  let log := produce_log cfg c key dt ls init in
  let sent := picked key <$> d_sent (h_disp (k_loop k)) in
  (∀ i, (i < nq)%nat → ∃ es, es `prefix_of` routed_to nq i sent ∧
     Forall2 (record_for cfg) es (of_queue i log)) ∧
  ∀ k0, ∃ es, es `prefix_of` filter (λ e, Key e = k0) sent ∧
    Forall2 (record_for cfg) es (filter (λ r, k_key r = k0) log.*2).
Proof.
  intros Hkey Hrun log sent.
  assert (Hrec : ∀ e r, record_for cfg e r → k_key r = Key e) by (intros e r [Hs _]; by eapply Hkey).
  assert (reachable (hstep c key dt) (hinit c pos pub ms fl) (abs k)) as Hr.
  { eapply kreach_abs; [done|]. by eapply (run_labels_reachable _ ls). }
  assert (Hqueue : ∀ i, (i < nq)%nat → ∃ es, es `prefix_of` routed_to nq i sent ∧
    Forall2 (record_for cfg) es (of_queue i log)).
  { intros i Hi. destruct (queue_log ls k i Hrun) as (es&Hpre&Hf). exists es. split; [|done].
    etrans; [exact Hpre|]. by apply (submitted_prefix c key dt pos pub ms fl (abs k) i). }
  split; [done|]. intros k0.
  assert (Hroute : ∀ p, p ∈ log → k_key p.2 = k0 → p.1 = queue_index nq k0 ∧ (p.1 < nq)%nat).
  { intros [i r] Hp Hk0. simpl in *. destruct (queue_log ls k i Hrun) as (es&Hpre&Hf).
    assert (r ∈ of_queue i log) as Hin.
    { apply list_elem_of_fmap. exists (i, r). split; [done|]. by apply list_elem_of_filter. }
    apply list_elem_of_lookup in Hin as [j Hj].
    destruct (Forall2_lookup_r _ _ _ _ _ Hf Hj) as (e&He&Her).
    destruct (submitted_routed ls k i e Hrun) as [Hq Hi].
    { eapply elem_of_prefix; [|exact Hpre]. by eapply list_elem_of_lookup_2. }
    split; [|done]. rewrite <-Hq. unfold queue_of. by rewrite <-(Hrec _ _ Her), Hk0. }
  rewrite (log_by_queue (queue_index nq k0)) by (intros p ??; by apply Hroute).
  destruct (decide (queue_index nq k0 < nq)%nat) as [Hi|Hi].
  - destruct (Hqueue _ Hi) as (es&Hpre&Hf). exists (filter (λ e, Key e = k0) es).
    split; [|by apply forall2_filter]. apply (prefix_filter (λ e, Key e = k0)) in Hpre.
    etrans; [exact Hpre|]. unfold routed_to. rewrite list_filter_filter.
    erewrite (list_filter_iff _ (λ e, Key e = k0)); [done|].
    intros e. unfold queue_of. split; [tauto|]. intros Hke. by rewrite Hke.
  - exists []. split; [apply prefix_nil|].
    assert (filter (λ r, k_key r = k0) (of_queue (queue_index nq k0) log) = []) as ->; [|constructor].
    rewrite <-(log_by_queue (queue_index nq k0)) by (intros p ??; by apply Hroute).
    apply filter_none, Forall_forall. intros r Hin Hk0. apply list_elem_of_fmap in Hin as (p&->&Hp).
    destruct (Hroute p Hp Hk0) as [Hq Hlt]. rewrite Hq in Hlt. lia.
Qed.
End properties.

(** ** Witness *)

Lemma produce_order_witness :
  let k := sample_krun sample_klabels in
  let log := @produce_log sampleSerializer sample_kconfig sample_hconfig Key sample_dur sample_klabels sample_kinit in
  let sent := picked Key <$> d_sent (h_disp (k_loop k)) in
  (λ p, (p.1, k_value p.2)) <$> log = [(0%nat, "e1"); (0%nat, "e3"); (1%nat, "e2")] ∧
  (∀ i, (i < 2)%nat → ∃ es, es `prefix_of` routed_to 2 i sent ∧
     Forall2 (@record_for sampleSerializer sample_kconfig) es (of_queue i log)) ∧
  ∀ k0, ∃ es, es `prefix_of` filter (λ e, Key e = k0) sent ∧
    Forall2 (@record_for sampleSerializer sample_kconfig) es (filter (λ r, k_key r = k0) log.*2).
Proof.
  intros k log sent. split; [vm_compute; reflexivity|].
  apply (@produce_order sampleSerializer sample_kconfig sample_hconfig Key sample_dur no_prior zeroPosition 0 0 0
    (no_prior_ok _) sample_klabels k).
  - by intros e kk v [= <- _].
  - vm_compute. reflexivity.
Defined.
