(* ===== verification/Stale.v ===== *)
(** * What one run leaves to the next

    The sink outlives the runs of a hyperloop: [Reset] clears its sticky error, and
    the calls of the run before stay where they are, with promises the client has
    not answered.  The runs chained here are those of KafkaLoop.v, each over the sink
    the one before left ([prior_of]).  An answer that arrives late counts for the
    run that is on: harmless to what is delivered, and not to whether the run goes
    on. *)

From S2P Require Import Prelude GoStd State Event Keys Channel Dispatcher KafkaSink Hyperloop Pipeline.
From S2P Require Import EndToEnd KafkaLoop Delivery.

(** ** Runs over one sink *)
Section chain.
Context `{Serializer} (cfg : KafkaSink.Config).
Context (c : Hyperloop.Config) (key : NomiosEvent → string) (dt : Z → string).
Implicit Types (k : kstate).

(** The runs of one process: the first over a new sink, each of the others once
    the one before returned, from whatever the store answers, with its sink and its
    counters. *)
Inductive chained : kstate → Prop :=
  | chain_first pos :
      chained (kinit c no_prior pos 0 0 0)
  | chain_step l k k' :
      chained k → kstep cfg c key dt l k = Some k' → chained k'
  | chain_next k r pos :
      chained k → h_main (k_loop k) = MainReturned r →
      chained (kinit c (prior_of k) pos (h_published (k_loop k)) (h_lastms (k_loop k)) (h_failures (k_loop k))).

(** Every state of a chain is one of a run over a sink that earlier runs can leave;
    what is proved of those holds of all of them. *)
Lemma chained_run k :
  chained k → ∃ old pos pub ms fl, prior_ok cfg old ∧ kreach cfg c key dt old pos pub ms fl k.
Proof.
  induction 1 as [pos|l k k' _ (old&pos&pub&ms&fl&Hok&Hr) Hstep|k r pos _ (old&p&pub&ms&fl&Hok&Hr) _].
  - exists no_prior, pos, 0%Z, 0%Z, 0%Z. split; [apply no_prior_ok|constructor].
  - exists old, pos, pub, ms, fl. split; [done|]. by eapply reachable_step.
  - eexists (prior_of k), pos, _, _, _. split; [|constructor]. apply kinv_prior. by eapply reach_kinv.
Qed.

(** *** The sticky error *)

(** While an error is recorded it stays the recorded one, and no call begins. *)
Lemma kstep_sticky l k k' e :
  kinv cfg k → kstep cfg c key dt l k = Some k' → sinkErr (s_shared (k_sink k)) = Some e →
  sinkErr (s_shared (k_sink k')) = Some e ∧ length (s_calls (k_sink k')) = length (s_calls (k_sink k)).
Proof.
  intros Hk Hstep He. destruct l as [l|i|es|n l|n| |cl to]; cbn [kstep] in Hstep.
  - destruct (loop_label _ l); [|done]. by destruct (hstep c key dt l (k_loop k)); simplify_eq/=.
  - unfold publish_call in Hstep. destruct (h_pubs (k_loop k) !! i) as [p|]; cbn [mbind option_bind] in Hstep; [|done].
    destruct p as [| |[|e' b] o| |]; try done. destruct (k_in k !! i); [done|].
    cbn [KafkaSink.sink_step] in Hstep. unfold refused in Hstep. rewrite He in Hstep.
    cbn [mbind option_bind] in Hstep. by destruct (hstep c key dt _ (seen_loop k)); simplify_eq/=.
  - destruct (stale_publish_cases _ _ _ _ Hstep Hk) as (topics&_&[->|(rs&ps&_&Hn&_)]); [done|congruence].
  - destruct (sink_call_cases _ _ _ _ _ _ _ _ Hstep Hk) as (m&x&sh'&x'&_&_&Hcs&_&Hcase).
    assert (sinkErr (s_shared (k_sink k')) = sinkErr sh' ∧ length (s_calls (k_sink k')) = length (s_calls (k_sink k)))
      as [-> ->].
    { cbn zeta in Hcase. destruct (m_own m); [destruct l as [| | | | |? ?|?|]|];
        first [subst k'|destruct Hcase as [_ ->]]; cbn [k_sink s_shared s_calls]; by rewrite length_insert. }
    split; [|done]. by destruct (call_step_sinkerr _ _ _ _ _ _ Hcs) as [->|[e0 ->]]; rewrite He.
  - unfold callback in Hstep. destruct (k_metas k !! n) as [m|]; cbn [mbind option_bind] in Hstep; [|done].
    destruct (s_calls (k_sink k) !! n); cbn [mbind option_bind] in Hstep; [|done].
    destruct (callback_due _ m); [|done]. by destruct (m_cb m); simplify_eq.
  - destruct (hstep c key dt HTick _); [|done]. cbn [fmap option_fmap option_map] in Hstep. by simplify_eq.
  - destruct (h_main (k_loop k)) as [| | | |[] []| | |]; try done.
    by destruct (Flush_result _ _ _); simplify_eq/=.
Qed.

Lemma kstep_sticky_run ls k k' e :
  kinv cfg k → run_labels (kstep cfg c key dt) ls k = Some k' → sinkErr (s_shared (k_sink k)) = Some e →
  sinkErr (s_shared (k_sink k')) = Some e ∧ length (s_calls (k_sink k')) = length (s_calls (k_sink k)).
Proof.
  revert k. induction ls as [|l ls IH]; intros k Hk; simpl; [by intros [= <-]|].
  destruct (kstep cfg c key dt l k) as [k1|] eqn:Hstep; simpl; [|done]. intros Hrun He.
  destruct (kstep_sticky _ _ _ _ Hk Hstep He) as [He1 <-]. apply IH; [by eapply kstep_inv|done|done].
Qed.

(** A cancellation, however wrapped, is not an error to [fail]. *)
Lemma fail_cancellation s pre e : errors_Is e ECanceled = true → fail s (Some (EWrap pre e)) = s.
Proof.
  intros He. unfold fail. assert (errors_Is (EWrap pre e) ECanceled = true) as ->; [|done].
  cbn [errors_Is]. rewrite He. apply orb_true_r.
Qed.

(** A recorded cancellation ends publishing and nothing else: for the rest of
    the run it stays the sink's error, no publisher begins a call, the committer's
    poll of it leaves the loop as it was but for the committer, and a publisher it
    was returned to leaves without a word. *)
Theorem cancellation_wedges k k' ls e :
  chained k → sinkErr (s_shared (k_sink k)) = Some e → errors_Is e ECanceled = true →
  run_labels (kstep cfg c key dt) ls k = Some k' →
  sinkErr (s_shared (k_sink k')) = Some e ∧
  length (s_calls (k_sink k')) = length (s_calls (k_sink k)) ∧
  (∀ k2, kstep cfg c key dt ITick k' = Some k2 → k_loop k2 = upd_commit (seen_loop k') CmPolled) ∧
  ∀ i k2, h_pubs (k_loop k') !! i = Some (PubReturned (Some e)) →
    kstep cfg c key dt (ILoop (HPubExit i)) k' = Some k2 → k_loop k2 = set_pub (k_loop k') i PubGone.
Proof.
  intros Hc He Hcan Hrun. destruct (chained_run k Hc) as (old&pos&pub&ms&fl&Hok&Hr).
  assert (kinv cfg k) as Hk by by eapply reach_kinv.
  destruct (kstep_sticky_run _ _ _ _ Hk Hrun He) as [He' Hlen]. split_and!; [done..| |].
  - intros k2 Hs. cbn [kstep hstep committer_step] in Hs.
    destruct (h_commit (seen_loop k')); try done. cbn [fmap option_fmap option_map] in Hs. injection Hs as <-.
    cbn [k_loop with_loop]. change (h_sinkerr (seen_loop k')) with (sinkErr (s_shared (k_sink k'))).
    rewrite He'. cbn [fmap option_fmap option_map]. by rewrite fail_cancellation.
  - intros i k2 Hp Hs. cbn [kstep loop_label hstep] in Hs. rewrite Hp in Hs.
    cbn [mbind option_bind publisher_step fmap option_fmap option_map] in Hs.
    rewrite fail_cancellation in Hs by done. by injection Hs as <-.
Qed.
End chain.

(** ** A run wedged by the one before

    The first run is stopped while Kafka does not answer: the flush gives up after
    [ShutdownTimeout] and [run] returns, which cancels the context its records were
    produced with.  In the second run the client gives such a record up. *)
Definition unanswered_labels : list klabel :=
  sample_klabels_published ++ [ILoop HGetErr; IFlush None true] ++
  (ILoop <$> [HCommitStop; HJoinCommit; HFinalNone]).

Definition unanswered : kstate := sample_krun unanswered_labels.

Definition second_init : kstate :=
  kinit sample_hconfig (prior_of unanswered) zeroPosition (h_published (k_loop unanswered))
    (h_lastms (k_loop unanswered)) (h_failures (k_loop unanswered)).

Definition late_cancel_labels : list klabel :=
  [ICall 0 (KAck 0 (Some ECanceled)); ICall 0 (KPromise 0); ICall 0 (KPromise 0)].

Definition wedged_labels : list klabel :=
  late_cancel_labels ++ (ILoop <$> (HSend sample_batch :: take 6 sample_dispatch_labels ++ [HRecv 0])) ++
  [IPublish 0; ILoop (HPubExit 0); ITick; ILoop HTake].

Definition second_run (ls : list klabel) : kstate :=
  default second_init (run_labels sample_kstep ls second_init).

Lemma unanswered_chained :
  @chained sampleSerializer sample_kconfig sample_hconfig Key sample_dur unanswered.
Proof.
  assert (∀ ls k k', @chained sampleSerializer sample_kconfig sample_hconfig Key sample_dur k →
    run_labels sample_kstep ls k = Some k' →
    @chained sampleSerializer sample_kconfig sample_hconfig Key sample_dur k') as Hrun.
  { induction ls as [|l ls IH]; intros k k' Hk; simpl; [by intros [= <-]|].
    destruct (sample_kstep l k) as [k1|] eqn:Hs; simpl; [|done]. apply IH. by eapply chain_step. }
  apply (Hrun unanswered_labels sample_kinit); [constructor|]. vm_compute. reflexivity.
Qed.

Lemma second_run_chained ls :
  is_Some (run_labels sample_kstep ls second_init) →
  @chained sampleSerializer sample_kconfig sample_hconfig Key sample_dur (second_run ls).
Proof.
  intros [k Hk]. unfold second_run. rewrite Hk. simpl.
  assert (@chained sampleSerializer sample_kconfig sample_hconfig Key sample_dur second_init) as Hc.
  { apply (chain_next _ _ _ _ _ (Some EDeadline)); [apply unanswered_chained|]. vm_compute. reflexivity. }
  clear -Hk Hc. revert Hc Hk. generalize second_init. induction ls as [|l ls IH]; intros k0 Hc; simpl; [by intros [= <-]|].
  destruct (sample_kstep l k0) as [k1|] eqn:Hs; simpl; [|done]. apply IH. by eapply chain_step.
Qed.

(** The second run is up and reports no error, its context is not cancelled and
    its source is running; its first publisher is gone, and the events routed to it
    are delivered by nobody. *)
Theorem late_cancellation_wedges :
  h_main (k_loop unanswered) = MainReturned (Some EDeadline) ∧
  sinkErr (s_shared (k_sink second_init)) = None ∧
  ∃ k, @chained sampleSerializer sample_kconfig sample_hconfig Key sample_dur k ∧
    run_labels sample_kstep wedged_labels second_init = Some k ∧
    h_status (k_loop k) = StatusRunning ∧ h_main (k_loop k) = MainWait ∧ h_err (k_loop k) = None ∧
    hard_cancelled (k_loop k) = false ∧ h_src (k_loop k) = SrcRunning ∧
    h_pubs (k_loop k) !! 0%nat = Some PubGone ∧ h_commit (k_loop k) = CmIdle ∧
    d_received (h_disp (k_loop k)) !! 0%nat = Some [sample_ev "db.t|1" 1; sample_ev "db.t|1" 3] ∧
    submitted (abs k) 0 = [] ∧ sinkErr (s_shared (k_sink k)) = Some (EWrap "kafka: produce" ECanceled).
Proof.
  split; [vm_compute; reflexivity|]. split; [vm_compute; reflexivity|].
  exists (second_run wedged_labels). split; [apply second_run_chained; decide_closed|].
  split_and!; vm_compute; reflexivity.
Qed.

Lemma cancellation_wedges_witness :
  let k := second_run late_cancel_labels in let e := EWrap "kafka: produce" ECanceled in
  let k' := second_run wedged_labels in
  sinkErr (s_shared (k_sink k')) = Some e ∧
  length (s_calls (k_sink k')) = length (s_calls (k_sink k)) ∧
  (∀ k2, sample_kstep ITick k' = Some k2 → k_loop k2 = upd_commit (seen_loop k') CmPolled) ∧
  ∀ i k2, h_pubs (k_loop k') !! i = Some (PubReturned (Some e)) →
    sample_kstep (ILoop (HPubExit i)) k' = Some k2 → k_loop k2 = set_pub (k_loop k') i PubGone.
Proof.
  intros k e k'.
  apply (@cancellation_wedges sampleSerializer sample_kconfig sample_hconfig Key sample_dur k k'
    (drop (length late_cancel_labels) wedged_labels) e).
  - apply second_run_chained. decide_closed.
  - vm_compute. reflexivity.
  - reflexivity.
  - vm_compute. reflexivity.
Defined.
