(* ===== verification/Source.v ===== *)
(** * The source interface

    pkg/source/source.go: what a source promises to the pipeline.  A run of a
    source is what one call of [Start] sends and, when it returns, its result;
    everything the call depends on (the data store's answers, the outcomes of its
    sends, the moment its context ends) is an argument. *)

From S2P Require Import Prelude GoStd State Event Dispatcher.

(** [Start], with the environment of the call. *)
Class Source (E : Type) := Start : Position → E → list batch * option (option goerr).

(** The contract of the interface's comments: events are sent in micro-batches,
    and their sequence numbers start at 1 and are contiguous. *)
Class SourceContract (E : Type) `{Source E} : Prop := {
  contract_batches from (w : E) : Forall (λ b : batch, b ≠ []) (Start from w).1;
  contract_numbered from (w : E) :
    let sent := mjoin (Start from w).1 in
    (Z.of_nat (length sent) < 2 ^ 64)%Z → ev_seq <$> sent = seqZ 1 (Z.of_nat (length sent));
}.

(** Each batch continues the numbers of the batches before it. *)
Lemma contract_next {E} `{SourceContract E} from (w : E) pre b post :
  (Start from w).1 = pre ++ b :: post →
  (Z.of_nat (length (mjoin (Start from w).1)) < 2 ^ 64)%Z →
  ev_seq <$> b = seqZ (Z.of_nat (length (mjoin pre)) + 1) (Z.of_nat (length b)).
Proof.
  intros Hout Hlen. pose proof (contract_numbered from w Hlen) as Hn. rewrite Hout in Hn.
  assert (mjoin (pre ++ b :: post) = mjoin pre ++ b ++ mjoin post) as Hj by (by rewrite join_app).
  rewrite Hj in Hn. rewrite !fmap_app, !length_app, !Nat2Z.inj_add, !seqZ_app in Hn by lia.
  apply app_inj_1 in Hn as [_ Hn]; [|by rewrite length_fmap, length_seqZ; lia].
  apply app_inj_1 in Hn as [Hn _]; [|by rewrite length_fmap, length_seqZ; lia].
  rewrite Hn. f_equal. lia.
Qed.
