(* ===== verification/SourceTypes.v ===== *)
(** * The types of the MySQL source's events, and its contract

    A type invariant of pkg/source/mysql/source.go: from decoded rows whose values
    are well typed, every event the source sends has the shape of its operation,
    cells at their widths, header fields and coordinates at theirs, and a time in
    range; so the JSON serializer's preconditions hold of it and no event is
    refused.  And the source's side of the interface of Source.v. *)

From S2P Require Import Prelude GoStd GoText State Event Keys Filter Schema Binlog MysqlSource SourceLog.
From S2P Require Import SourceResume JsonText Json.
From S2P Require Source.

(** ** Well-typed inputs: the decoder's fields at their Go types *)

Definition typed_header (h : EventHeader) : Prop :=
  (0 ≤ Timestamp h < 2 ^ 32)%Z ∧ (0 ≤ HdrServerID h < 2 ^ 32)%Z ∧ (0 ≤ LogPos h < 2 ^ 32)%Z.

(** The cells of an event's rows all satisfy [P]. *)
Definition cells_of (P : value → Prop) (b : EventBody) : Prop :=
  match b with RowsBody re => Forall (Forall P) (Rows re) | _ => True end.

Definition typed_item (P : value → Prop) (i : stream_item) : Prop :=
  match i with SError _ => True | SEvent ev _ => typed_header (Header ev) ∧ cells_of P (Body ev) end.

(** ** Well-typed events *)

(** The images an operation has. *)
Definition op_shape (o : Op) (before after : row) : Prop :=
  match o with
  | OpInsert => before = None ∧ is_Some after
  | OpDelete => is_Some before ∧ after = None
  | OpUpdate => is_Some before ∧ is_Some after
  end.

Definition row_cells (P : value → Prop) (r : row) : Prop :=
  match r with None => True | Some m => map_Forall (λ _ v, P v) m end.

Record typed_event (P : value → Prop) (e : NomiosEvent) : Prop := {
  te_shape : op_shape (EvOp e) (Before e) (After e);
  te_before : row_cells P (Before e);
  te_after : row_cells P (After e);
  te_meta : wf_meta (EvSource e);
  te_connector : Connector (EvSource e) = "mysql";
  te_time : UnixMilli (OccurredAt e) = (t_sec (OccurredAt e) * 1000)%Z ∧
            (0 ≤ t_sec (OccurredAt e) < 2 ^ 32)%Z;
  te_offset : (0 ≤ Offset (EvPosition e) < 2 ^ 32)%Z;
  te_seq : (0 ≤ SeqNo (EvPosition e) < 2 ^ 64)%Z;
}.

(** ** Row images *)

(** A property of cells that [convert] keeps. *)
Definition convertible (P : value → Prop) : Prop := ∀ k v, P v → P (convert k v).

Lemma mapRow_loop_cells P s i n vals m :
  convertible P → Forall P vals → map_Forall (λ _ v, P v) m →
  map_Forall (λ _ v, P v) (mapRow_loop s i n vals m).
Proof.
  intros HP Hv. revert i m. induction n as [|n IH]; intros i m Hm; simpl; [done|].
  destruct (Columns s !! i); [|done]. destruct (Kinds s !! i); [|done].
  destruct (vals !! i) as [v|] eqn:Hi; [|done]. apply IH, map_Forall_insert_2; [|done].
  apply HP. exact (Forall_lookup_1 _ _ _ _ Hv Hi).
Qed.

Lemma mapRow_cells P s vals : convertible P → Forall P vals → row_cells P (Some (mapRow s vals)).
Proof. intros HP Hv. apply mapRow_loop_cells; [done|done|apply map_Forall_empty]. Qed.

Lemma images_typed P op s rows :
  convertible P → Forall (Forall P) rows →
  Forall (λ ba, op_shape op ba.1 ba.2 ∧ row_cells P ba.1 ∧ row_cells P ba.2) (images op s rows).
Proof.
  intros HP. induction rows as [rows Hr|r rows Hop IH|r r' rows -> IH] using (rows_ind op); intros Hrows.
  - assert (images op s rows = []) as ->; [|constructor].
    apply length_zero_iff_nil. rewrite images_length. by apply Nat.div_small.
  - apply Forall_cons in Hrows as [Hr Hrows].
    pose proof (mapRow_cells P s r HP Hr) as Hc.
    destruct op; [|done|]; simpl; (constructor; [|by apply IH]); simpl; by split_and!.
  - apply Forall_cons in Hrows as [Hr Hrows]. apply Forall_cons in Hrows as [Hr' Hrows].
    simpl. constructor; [|by apply IH]. simpl. split_and!; try done; by apply mapRow_cells.
Qed.

Lemma convert_wf : convertible (λ v, wf_value v = true).
Proof. intros k v Hv. destruct k, v; simpl; try done; by case_decide. Qed.

Lemma convert_encodable : convertible (λ v, encodable v = true).
Proof. intros k v Hv. destruct k, v; simpl; try done; by case_decide. Qed.

Lemma convertible_and P Q : convertible P → convertible Q → convertible (λ v, P v ∧ Q v).
Proof. intros HP HQ k v [??]. split; [by apply HP|by apply HQ]. Qed.

Section source.
Context `{GoFmt} {GS : GTIDSets} {W : Type} `{SchemaServer W} (zone : Z → Z).
Context (P : value → Prop) (P_convert : convertible P).

(** ** The transaction state *)
Record typed_ts (ts : txnState) : Prop := {
  tt_pos : (0 ≤ committedPos ts < 2 ^ 32)%Z;
  tt_order : (- 2 ^ 63 ≤ txOrder ts < 2 ^ 63)%Z;
  tt_seq : (0 ≤ ts_seq ts < 2 ^ 64)%Z;
}.

Lemma i64_range x : (- 2 ^ 63 ≤ i64 x < 2 ^ 63)%Z.
Proof. unfold i64. pose proof (Z.mod_pos_bound (x + 2 ^ 63) (2 ^ 64)). lia. Qed.

Lemma typed_bump n ts : typed_ts ts → typed_ts (bump_n n ts).
Proof.
  intros Hts. induction n as [|n [Hp _ _]]; [done|]. change (bump_n (S n) ts) with (bump (bump_n n ts)).
  split; [done|apply i64_range|apply u64_bound].
Qed.

Lemma typed_skip n ts : typed_ts ts → typed_ts (skip_rows ts n).
Proof. intros [Hp _ Hs]. split; [done|apply i64_range|done]. Qed.

Lemma typed_commit ts p : typed_ts ts → (0 ≤ p < 2 ^ 32)%Z → typed_ts (commit ts p).
Proof.
  intros [Hp Ho Hs] Hpos. unfold commit. destruct (ts_set ts); [|by split].
  destruct (negb _); [|by split]. destruct (gs_Update _ _) as [e s']. by split.
Qed.

(** ** One event *)

Lemma typed_row_event h db table s op j ts ba :
  typed_ts ts → typed_header h → op_shape op ba.1 ba.2 → row_cells P ba.1 → row_cells P ba.2 →
  typed_event P (row_event zone h db table s op j ts ba).
Proof.
  intros [Hp Ho Hs] (Ht&Hsrv&Hlog) Hshape Hb Ha. split; simpl; try done.
  split; [|done]. unfold UnixMilli. simpl. rewrite Z.add_0_r, (i64_small (Timestamp h * 1000)) by lia. by rewrite i64_small by lia.
Qed.

Lemma handleEvent_typed s sel ev ts (reg : schemaRegistry W) :
  typed_ts ts → typed_item P (SEvent ev sel) →
  let r := handleEvent zone s sel ev ts reg in
  typed_ts (h_ts r) ∧ ∀ b, h_sent r = Some b → b ≠ [] ∧ Forall (typed_event P) b.
Proof.
  intros Hts [Hh Hc]. unfold handleEvent.
  assert (Hcommit : typed_ts (commit ts (LogPos (Header ev)))) by (apply typed_commit; [done|apply Hh]).
  destruct (Body ev) as [f|sid gno| |q|re|] eqn:Hb; simpl; try done.
  - by destruct Hts.
  - split; [|done]. destruct Hts. split; simpl; [done|lia|done].
  - by destruct (is_BEGIN q).
  - destruct (opForEventType _) as [op|]; simpl; [|done]. unfold emitRows.
    destruct (negb _); simpl; [split; [by apply typed_skip|done]|].
    destruct (Get _ _ _ reg) as [[schema|e] reg']; simpl; [|done].
    match goal with |- context [let '(_, _) := ?x in _] => destruct x as [[schema'|e'] reg2] end; simpl; [|done].
    rewrite emit_loop_spec. cbn [app]. set (l := images op schema' (Rows re)).
    case_decide as Hz; cbn [h_ts h_sent]; [split; [by apply typed_bump|done]|].
    destruct sel; cbn [h_ts h_sent]; [split; [by apply typed_bump|done]|].
    split; [by apply typed_bump|]. intros b Heq. apply (inj Some) in Heq as <-. split; [by intros E; rewrite E in Hz|].
    pose proof (images_typed P op schema' (Rows re) P_convert Hc) as Himg. fold l in Himg.
    apply Forall_lookup. intros k e. rewrite list_lookup_imap.
    destruct (l !! k) as [ba|] eqn:Hk; simpl; [|done]. intros [= <-].
    destruct (Forall_lookup_1 _ _ _ _ Himg Hk) as (?&?&?).
    apply typed_row_event; try done. exact (typed_bump (S k) ts Hts).
Qed.

(** ** The run *)

Lemma run_typed s ts (reg : schemaRegistry W) items :
  typed_ts ts → Forall (typed_item P) items →
  let st := run zone s items (mkRun [] None ts reg) in
  typed_ts (r_ts st) ∧ Forall (λ b, b ≠ [] ∧ Forall (typed_event P) b) (r_out st).
Proof.
  intros Hts. induction items as [|i items IH] using rev_ind; intros Hit; [done|].
  apply Forall_app in Hit as [Hit Hi]. rewrite Forall_singleton in Hi. rewrite run_snoc.
  destruct (IH Hit) as [Ht Hout]. set (st := run zone s items _) in *. clearbody st.
  unfold run_step. destruct (r_ret st); [done|]. destruct i as [e|ev sel]; [done|]. simpl.
  destruct (handleEvent_typed s sel ev (r_ts st) (r_reg st) Ht Hi) as [Ht' Hb]. split; [done|].
  destruct (h_sent _) as [b|]; [|done]. apply Forall_app. split; [done|].
  apply Forall_singleton. by apply Hb.
Qed.

Lemma initTxn_typed start : (0 ≤ sp_offset start < 2 ^ 32)%Z → typed_ts (initTxn start).
Proof. intros Ho. split; simpl; lia. Qed.
End source.

(** ** The contract *)

(** What one call of [Start] depends on. *)
Record mysql_env {GS : GTIDSets} (W : Type) := mkEnv {
  env_valid : option goerr;                     (* [validateServer] *)
  env_schema : W;                               (* information_schema *)
  env_status : result (string * string * Z);    (* [masterStatus] *)
  env_sync : startPoint → option goerr;         (* [StartSync], [StartSyncGTID] *)
  env_items : list stream_item;                 (* the stream, and the outcome of each send *)
}.
Arguments mkEnv {GS W}.
Arguments env_valid {GS W}. Arguments env_schema {GS W}. Arguments env_status {GS W}.
Arguments env_sync {GS W}. Arguments env_items {GS W}.

Section contract.
Context `{GoFmt} {GS : GTIDSets} {W : Type} `{SchemaServer W}.
Context (zone : Z → Z) (quote : string → string) (s : MysqlSource.Source).

Definition MysqlSource_source : Source.Source (mysql_env W) := λ from w,
  MysqlSource.Start zone quote s (env_valid w) (env_schema w) (env_status w) (env_sync w) from (env_items w).
#[local] Existing Instance MysqlSource_source.

(** A call that sends anything runs the stream from a resolved start point. *)
Lemma Start_cases from w :
  (Source.Start from w).1 = [] ∨
  ∃ start reg, resolveStart quote (src_cfg s) (env_status w) from = Ok start ∧
    (Source.Start from w).1 = r_out (run zone s (env_items w) (mkRun [] None (initTxn start) reg)).
Proof.
  unfold Source.Start, MysqlSource_source, MysqlSource.Start.
  destruct (env_valid w); [by left|]. destruct (newSchemaRegistry _ _) as [[reg|e] ?]; [|by left].
  destruct (resolveStart _ _ _ _) as [start|e]; [|by left]. destruct (env_sync w start); [by left|].
  right. by exists start, reg.
Qed.

Lemma run_batches (reg : schemaRegistry W) ts items :
  Forall (λ b : list NomiosEvent, b ≠ []) (r_out (run zone s items (mkRun [] None ts reg))).
Proof.
  induction items as [|i items IH] using rev_ind; [constructor|]. rewrite run_snoc. unfold run_step.
  destruct (r_ret _); [done|]. destruct i as [e|ev sel]; [done|]. simpl.
  destruct (h_sent _) as [b|] eqn:Hb; [|done]. apply Forall_app. split; [done|]. apply Forall_singleton.
  unfold handleEvent, emitRows in Hb. repeat case_match; simplify_eq/=; try done.
  all: intros ->; done.
Qed.

(** The MySQL source keeps the source contract: from any position, over any
    stream and with any outcome of its sends, the batches of one [Start] are not
    empty and their events are numbered 1, 2, 3, ... *)
Theorem mysql_source_contract : Source.SourceContract (mysql_env W).
Proof.
  split; intros from w; destruct (Start_cases from w) as [-> |(start&reg&_&->)]; try done.
  - apply run_batches.
  - intros l Hlen. destruct (run_seq zone s start reg (env_items w)) as [Hn _].
    change (mjoin _) with l in Hn. unfold sent in Hn. fold l in Hn. rewrite Hn.
    unfold numbered, seqZ. rewrite Nat2Z.id. apply list_fmap_ext. intros i k Hk.
    apply lookup_seq in Hk as [-> ?]. rewrite u64_small; lia.
Qed.

(** ** The types *)

Definition typed_env (P : value → Prop) (from : Position) (w : mysql_env W) : Prop :=
  (0 ≤ Offset from < 2 ^ 32)%Z ∧
  (∀ g f p, env_status w = Ok (g, f, p) → (0 ≤ p < 2 ^ 32)%Z) ∧
  Forall (typed_item P) (env_items w).

Lemma resolveStart_typed P from w start :
  typed_env P from w → resolveStart quote (src_cfg s) (env_status w) from = Ok start →
  (0 ≤ sp_offset start < 2 ^ 32)%Z.
Proof.
  intros (Ho&Hst&_). unfold resolveStart. destruct (UseGTID _).
  - destruct (bool_decide _ && _); [destruct (env_status w) as [[[g f] p]|]; [|done]|];
      (destruct (gs_Parse _); [|done]); intros [= <-]; simpl; lia.
  - destruct (negb _); [by intros [= <-]|]. destruct (env_status w) as [[[g f] p]|] eqn:E; [|done].
    intros [= <-]. by eapply Hst.
Qed.

Lemma sent_typed P from w e :
  convertible P → typed_env P from w → e ∈ mjoin (Source.Start from w).1 → typed_event P e.
Proof.
  intros HP Hw He. destruct (Start_cases from w) as [Hout|(start&reg&Hres&Hout)]; rewrite Hout in He.
  { by apply elem_of_nil in He. }
  destruct (run_typed zone P HP s (initTxn start) reg (env_items w)) as [_ Hall].
  - apply initTxn_typed. by eapply resolveStart_typed.
  - by destruct Hw as (_&_&?).
  - apply list_elem_of_join in He as (b&He&Hb). rewrite Forall_forall in Hall.
    destruct (Hall _ Hb) as [_ Hb']. rewrite Forall_forall in Hb'. by apply Hb'.
Qed.

Lemma typed_wf P e : (∀ v, P v → wf_value v = true) → typed_event P e → wf_event e.
Proof.
  intros HP [_ Hb Ha Hm _ _ _ _].
  assert (Hrow : ∀ r, row_cells P r → wf_cells r).
  { intros [m|]; [|done]. intros Hm'. eapply map_Forall_impl; [exact Hm'|]. intros k v. apply HP. }
  split_and!; [by apply Hrow..|done].
Qed.

(** [C17] Every event of the MySQL source is well typed: from decoded rows whose
    values are, it has exactly the images of its operation, cells and metadata at
    their widths, coordinates and sequence number at theirs, and a time whose
    milliseconds do not overflow. *)
Theorem source_events_typed (from : Position) (w : mysql_env W) (e : NomiosEvent) :
  typed_env (λ v, wf_value v = true) from w → e ∈ mjoin (Source.Start from w).1 →
  typed_event (λ v, wf_value v = true) e ∧ wf_event e.
Proof.
  intros Hw He. pose proof (sent_typed _ from w e convert_wf Hw He) as Ht.
  split; [done|]. exact (typed_wf _ e (λ v Hv, Hv) Ht).
Qed.

(** [C18] No event of the MySQL source is refused by the serializer: when no decoded
    float is NaN or infinite, every sent event serializes, under its entity key, to
    a text that reads back as the event's document whenever its JSON columns hold
    JSON. *)
Theorem source_events_serialize `{!JsonFmtLaws} (from : Position) (w : mysql_env W) (e : NomiosEvent) :
  typed_env (λ v, wf_value v = true ∧ encodable v = true) from w → e ∈ mjoin (Source.Start from w).1 →
  ∃ text, Serialize e = Ok (Key e, text) ∧ ∀ d, doc_event e = Some d → parse_json text = Some d.
Proof.
  intros Hw He.
  pose proof (sent_typed _ from w e (convertible_and _ _ convert_wf convert_encodable) Hw He) as Ht.
  assert (wf_event e) as Hwf by (by refine (typed_wf _ e _ Ht); intros v [? _]).
  assert (Hrow : ∀ r, row_cells (λ v, wf_value v = true ∧ encodable v = true) r → row_encodable r).
  { intros [m|]; [|done]. intros Hm. eapply map_Forall_impl; [exact Hm|]. by intros k v [_ ?]. }
  destruct (AppendEvent_total "" e) as [text Htext]; [apply Hrow, (te_before _ _ Ht)|apply Hrow, (te_after _ _ Ht)|].
  exists text. split; [unfold Serialize; by rewrite Htext|]. intros d Hd.
  destruct (event_reads e d Hwf Hd) as (t&Happ&Hp). rewrite Happ in Htext.
  rewrite str_app_nil_l in Htext. by injection Htext as <-.
Qed.
End contract.

(** ** Witnesses *)

(** A start from the current end of the log, which is where SourceResume's sample
    stream begins. *)
Definition sample_env : @mysql_env sampleGTIDs nat :=
  mkEnv (GS := sampleGTIDs) None 0%nat (Ok ("x:1,", "bin.000001", 4%Z)) (λ _, None) sample_items.

Definition sample_sent : list NomiosEvent :=
  mjoin (@Source.Start _ (@MysqlSource_source jsonFmt sampleGTIDs nat sampleServer (λ _, 0%Z) id sample_source)
    zeroPosition sample_env).1.

(** Evaluates the typing of a concrete environment. *)
Ltac typed_tac :=
  split; [done|]; split; [by intros g f p [= _ _ <-]|]; unfold typed_item, typed_header, cells_of; simpl;
  repeat match goal with
  | |- Forall _ _ => constructor
  | |- _ ∧ _ => split
  | |- _ => first [done | lia | progress simpl]
  end.

Lemma sample_env_typed : typed_env (λ v, wf_value v = true ∧ encodable v = true) zeroPosition sample_env.
Proof. typed_tac. Qed.

Lemma sample_env_wf : typed_env (λ v, wf_value v = true) zeroPosition sample_env.
Proof. typed_tac. Qed.

Lemma source_events_typed_witness :
  ID <$> sample_sent = ID <$> sent sample_run ∧
  ∀ e, e ∈ sample_sent → typed_event (λ v, wf_value v = true) e ∧ wf_event e.
Proof.
  split; [vm_compute; reflexivity|]. intros e.
  exact (@source_events_typed jsonFmt sampleGTIDs nat sampleServer (λ _, 0%Z) id sample_source
    zeroPosition sample_env e sample_env_wf).
Defined.

Lemma source_events_serialize_witness :
  ∃ e, sample_sent !! 2%nat = Some e ∧ ∃ text, @Serialize jsonFmt e = Ok (Key e, text) ∧
    ∀ d, @doc_event jsonFmt e = Some d → parse_json text = Some d.
Proof.
  eexists. split; [vm_compute; reflexivity|].
  apply (@source_events_serialize jsonFmt sampleGTIDs nat sampleServer (λ _, 0%Z) id sample_source jsonFmt_laws
    zeroPosition sample_env _ sample_env_typed).
  apply (list_elem_of_lookup_2 _ 2). vm_compute. reflexivity.
Defined.
