(* ===== verification/Node.v ===== *)
(** * One pipeline of the node: source, hyperloop and Kafka sink

    The composition a pipeline of the node runs: a source that keeps the contract
    of Source.v, the hyperloop of Hyperloop.v, and the Kafka sink of KafkaSink.v,
    as one transition system.  A call of [Start] is given by what it sends and
    returns; the node takes its batches one by one, when the output channel has
    room. *)

From S2P Require Import Prelude GoStd State Event Keys Channel Dispatcher KafkaSink Hyperloop Pipeline.
From S2P Require Import EndToEnd KafkaLoop Delivery.
From S2P Require Source MysqlSource SourceLog SourceResume SourceTypes.

Record node := mkNode {
  n_k : kstate;
  n_todo : list batch;  (* what [Start] has still to send *)
}.

Section node.
Context `{Serializer} (cfg : KafkaSink.Config).
Context (c : Hyperloop.Config) (key : NomiosEvent → string) (dt : Z → string).
Context {E : Type} `{Source.Source E} `{!Source.SourceContract E} (w : E).
Context (old : prior) (pos : Position) (pub ms fl : Z).
Implicit Types (n : node).

(** [Start] sends its next batch, or returns; everything else is the pipeline's. *)
Definition node_step (l : klabel) (n : node) : option node :=
  match l with
  | ILoop (HSend b) =>
      match n_todo n with
      | b' :: rest =>
          if decide (b = b')
          then k ← kstep cfg c key dt l (n_k n); Some (mkNode k rest) else None
      | [] => None
      end
  | ILoop (HSourceReturn r) =>
      match n_todo n with
      | [] =>
          if decide ((Source.Start pos w).2 = Some r)
          then k ← kstep cfg c key dt l (n_k n); Some (mkNode k []) else None
      | _ => None
      end
  | _ => k ← kstep cfg c key dt l (n_k n); Some (mkNode k (n_todo n))
  end.

(** The pipeline starts the source at the position it loaded. *)
Definition node_init : node := mkNode (kinit c old pos pub ms fl) (Source.Start pos w).1.

(** The events sent, and the events still to send, are the source's. *)
Definition node_events n : list NomiosEvent := d_sent (h_disp (k_loop (n_k n))).

Lemma node_step_k l n n' :
  node_step l n = Some n' →
  kstep cfg c key dt l (n_k n) = Some (n_k n') ∧
  n_todo n = match l with ILoop (HSend b) => [b] | _ => [] end ++ n_todo n'.
Proof.
  intros Hstep. unfold node_step in Hstep.
  assert (Hdef : (k ← kstep cfg c key dt l (n_k n); Some (mkNode k (n_todo n))) = Some n' →
    kstep cfg c key dt l (n_k n) = Some (n_k n') ∧ n_todo n = n_todo n').
  { destruct (kstep cfg c key dt l (n_k n)); [|done]. by intros [= <-]. }
  destruct l as [l| | | | | |]; try (by apply Hdef). destruct l; try (by apply Hdef).
  - destruct (n_todo n) as [|b' rest]; [done|]. case_decide as Hb; [|done]. subst b'.
    destruct (kstep cfg c key dt _ (n_k n)); [|done]. by simplify_eq/=.
  - destruct (n_todo n); [|done]. case_decide; [|done].
    destruct (kstep cfg c key dt _ (n_k n)); [|done]. by simplify_eq/=.
Qed.

Lemma kstep_sent l k k' :
  kinv cfg k → kstep cfg c key dt l k = Some k' →
  d_sent (h_disp (k_loop k')) =
  d_sent (h_disp (k_loop k)) ++ match l with ILoop (HSend b) => b | _ => [] end.
Proof.
  intros Hk Hstep.
  assert (Hl : ∀ hl h h', hstep c key dt hl h = Some h' →
    d_sent (h_disp h') = d_sent (h_disp h) ++ match hl with HSend b => b | _ => [] end).
  { intros hl h h' Hh. by eapply (hstep_sent c key), hstep_case. }
  destruct l as [l|i|es|n l|n| |cl to]; cbn [kstep] in Hstep.
  - destruct (loop_label _ l); [|done]. destruct (hstep c key dt l (k_loop k)) as [h|] eqn:Hh; simplify_eq/=.
    rewrite (Hl _ _ _ Hh). by destruct l.
  - rewrite app_nil_r. unfold publish_call in Hstep.
    destruct (h_pubs (k_loop k) !! i) as [p|]; cbn [mbind option_bind] in Hstep; [|done].
    destruct p as [| |[|e b] o| |]; try done. destruct (k_in k !! i); [done|].
    destruct (KafkaSink.sink_step _ _ _); cbn [mbind option_bind] in Hstep; [|done].
    destruct (refused _ _ _) as [err|]; [|by simplify_eq].
    destruct (hstep c key dt (HPublishErr i err) (seen_loop k)) as [h|] eqn:Hh;
      cbn [mbind option_bind] in Hstep; [|done]. injection Hstep as <-. cbn [k_loop].
    by rewrite (Hl _ _ _ Hh), app_nil_r.
  - rewrite app_nil_r. destruct (stale_publish_cases _ _ _ _ Hstep Hk) as (topics&_&[->|(rs&ps&_&_&_&->)]); done.
  - rewrite app_nil_r. destruct (sink_call_cases _ _ _ _ _ _ _ _ Hstep Hk) as (m&x&sh'&x'&_&_&_&_&Hcase).
    cbn zeta in Hcase. destruct (m_own m); [|by subst k'].
    destruct l as [| | | | |j e|j|]; first [subst k'|destruct Hcase as [_ ->]]; done.
  - rewrite app_nil_r. unfold callback in Hstep.
    destruct (k_metas k !! n) as [m|]; simpl in Hstep; [|done]. destruct (s_calls (k_sink k) !! n); simpl in Hstep; [|done].
    destruct (callback_due _ _); [|done]. destruct (m_cb m), (m_own m); by simplify_eq.
  - destruct (hstep c key dt HTick _) as [h|] eqn:Hh; [|done].
    cbn [fmap option_fmap option_map] in Hstep. injection Hstep as <-.
    change (d_sent (h_disp (k_loop (with_loop k h)))) with (d_sent (h_disp h)). by rewrite (Hl _ _ _ Hh).
  - rewrite app_nil_r. destruct (h_main (k_loop k)) as [| | | |[] []| | |]; try done.
    by destruct (Flush_result _ _ _); simplify_eq/=.
Qed.

Lemma node_reach n :
  prior_ok cfg old → reachable node_step node_init n →
  kreach cfg c key dt old pos pub ms fl (n_k n) ∧
  mjoin (Source.Start pos w).1 = node_events n ++ mjoin (n_todo n) ∧
  ∃ pre, (Source.Start pos w).1 = pre ++ n_todo n ∧ mjoin pre = node_events n.
Proof.
  intros Htop Hr. induction Hr as [|l n n' Hr (Hk&Hsent&pre&Hpre&Hj) Hstep].
  - split; [constructor|]. split; [done|]. by exists [].
  - destruct (node_step_k _ _ _ Hstep) as [Hks Htodo].
    assert (kinv cfg (n_k n)) as Hinv by by eapply reach_kinv.
    pose proof (kstep_sent _ _ _ Hinv Hks) as Hs. fold (node_events n) in Hs. fold (node_events n') in Hs.
    split; [by eapply reachable_step|]. rewrite Hsent, Htodo, Hs. split.
    + destruct l as [[]| | | | | |]; simpl; rewrite ?app_nil_r; try done. by rewrite <-(assoc_L (++)).
    + exists (pre ++ match l with ILoop (HSend b) => [b] | _ => [] end).
      rewrite Hpre, Htodo, <-(assoc_L (++)). split; [done|]. rewrite join_app, Hj.
      destruct l as [[]| | | | | |]; simpl; by rewrite ?app_nil_r.
Qed.
End node.

(** ** The interface at work *)
Section contract.
Context `{Serializer} (cfg : KafkaSink.Config).
Context (c : Hyperloop.Config) (key : NomiosEvent → string) (dt : Z → string).
Context {E : Type} `{Source.Source E} `{!Source.SourceContract E} (w : E).
Context (old : prior) (pos : Position) (pub ms fl : Z).
Hypothesis old_ok : prior_ok cfg old.

End contract.

(** ** The MySQL source in front *)
Section mysql.
Import MysqlSource SourceLog SourceResume SourceTypes.
Context `{Serializer} (cfg : KafkaSink.Config).
Context `{GoFmt} `{GTIDLaws} {W : Type} `{Schema.SchemaServer W}.
Context (zone : Z → Z) (quote : string → string) (s : MysqlSource.Source).
Context (c : Hyperloop.Config) (key : NomiosEvent → string) (dt : Z → string).
Context (old : prior) (pos : Position) (pub ms fl : Z).
Hypothesis old_ok : prior_ok cfg old.

#[local] Existing Instance MysqlSource_source.
#[local] Existing Instance mysql_source_contract.

(** What the node is, over the MySQL source. *)
Definition mysql_node_reach (w : mysql_env W) (n : node) : Prop :=
  reachable (node_step cfg c key dt (H0 := MysqlSource_source zone quote s) w pos)
    (node_init c (H0 := MysqlSource_source zone quote s) w old pos pub ms fl) n.

Local Abbreviation source_out w := (@Source.Start _ (MysqlSource_source zone quote s) pos w).1.

Lemma mysql_node_facts w n :
  mysql_node_reach w n →
  kreach cfg c key dt old pos pub ms fl (n_k n) ∧ node_events n `prefix_of` mjoin (source_out w).
Proof.
  intros Hr. destruct (node_reach _ _ _ _ _ _ _ _ _ _ _ old_ok Hr) as (Hk&Hs&_).
  split; [exact Hk|]. rewrite Hs. by apply prefix_app_r.
Qed.

(** A position the node saved is the position of an event it had sent. *)
Lemma saved_sent k p :
  kreach cfg c key dt old pos pub ms fl k →
  (Z.of_nat (length (d_sent (h_disp (k_loop k)))) < 2 ^ 64 - 1)%Z → p ∈ h_saves (k_loop k) →
  ∃ e, e ∈ d_sent (h_disp (k_loop k)) ∧ EvPosition e = p.
Proof.
  intros Hk Hlen Hp. pose proof (kreach_abs _ _ _ _ _ _ _ _ _ old_ok k Hk) as Ha.
  destruct (reach_saves c key dt pos pub ms fl (abs k) Ha Hlen p (or_introl Hp)) as [Hrep _].
  apply (reach_acked c key dt pos pub ms fl (abs k) p Ha) in Hrep.
  destruct (acked_pos_sent c key dt pos pub ms fl (abs k) p Ha Hrep) as (e&_&He&Heq&_). by exists e.
Qed.

(** A run that saved a position was one of the source's, from where it resolved. *)
Lemma saved_run w n p :
  mysql_node_reach w n → (Z.of_nat (length (node_events n)) < 2 ^ 64 - 1)%Z → p ∈ h_saves (k_loop (n_k n)) →
  ∃ start reg, resolveStart quote (src_cfg s) (env_status w) pos = Ok start ∧
    (source_out w) = r_out (run zone s (env_items w) (mkRun [] None (initTxn start) reg)) ∧
    node_events n `prefix_of` SourceLog.sent (run zone s (env_items w) (mkRun [] None (initTxn start) reg)).
Proof.
  intros Hr Hlen Hp. destruct (mysql_node_facts w n Hr) as [Hk Hpre].
  destruct (Start_cases zone quote s pos w) as [Hout|(start&reg&Hres&Hout)]; rewrite Hout in Hpre.
  - destruct (saved_sent _ p Hk Hlen Hp) as (e&He&_). exfalso.
    change (d_sent _) with (node_events n) in He.
    apply prefix_nil_inv in Hpre. rewrite Hpre in He. by apply elem_of_nil in He.
  - by exists start, reg.
Qed.

(** At-least-once delivery: let the node run the MySQL source over a stream of
    transactions into Kafka and be killed at any moment, between any two
    instructions of its goroutines, and let it restart from a position it had
    saved.  The position resolves to an executed set; every row event of the first
    run whose transaction is in that set, and so is not read again, is a record
    the Kafka client had acknowledged. *)
Theorem at_least_once (w : mysql_env W) (n : node) (s0 : gtids) (f : string) (o : Z)
    (gs : list segment) (status : result (string * string * Z)) (p : Position) :
  UseGTID (src_cfg s) = true →
  resolveStart quote (src_cfg s) (env_status w) pos = Ok (mkStart (Some s0) f o) →
  gs_wf s0 → gs_String s0 ≠ "" →
  items_events (env_items w) = stream_events gs → Forall seg_ok gs →
  NoDup (tx_gtid <$> stream_txns gs) →
  Forall (λ t, ¬ gs_In (tx_gtid t) s0) (stream_txns gs) →
  mysql_node_reach w n → (Z.of_nat (length (node_events n)) < 2 ^ 64 - 1)%Z →
  p ∈ h_saves (k_loop (n_k n)) →
  ∃ s', resolveStart quote (src_cfg s) status p = Ok (mkStart (Some s') "" 0) ∧
    ∀ e, e ∈ mjoin (source_out w) → gs_In (GTID (EvSource e)) s' → kafka_acked cfg (n_k n) (picked key e).
Proof.
  intros Hg Hst Hwf Hne Hit Hok Hnd Hfr Hr Hlen Hp.
  destruct (mysql_node_facts w n Hr) as [Hk _].
  destruct (saved_run w n p Hr Hlen Hp) as (start&reg&Hres&Hout&Hpre).
  assert (start = mkStart (Some s0) f o) as -> by congruence. rewrite Hout.
  eapply (restart_loses_nothing_in_kafka cfg zone quote c key dt old pos pub ms fl old_ok
    s s0 f o reg (env_items w) gs status (n_k n) p); done.
Qed.
End mysql.

(** ** With the JSON serializer *)
Section json.
Import MysqlSource SourceTypes Json JsonText.
Context (cfg : KafkaSink.Config).
Context `{GoFmt} `{!JsonFmtLaws} {GS : GTIDSets} {W : Type} `{Schema.SchemaServer W}.
Context (zone : Z → Z) (quote : string → string) (s : MysqlSource.Source).
Context (c : Hyperloop.Config) (key : NomiosEvent → string) (dt : Z → string).
Context (old : prior) (pos : Position) (pub ms fl : Z).
Hypothesis old_ok : @prior_ok Serialize cfg old.

(** The key routes an event; it is not part of its document. *)
Lemma picked_doc e : doc_event (picked key e) = doc_event e.
Proof. done. Qed.

(** [C2] What a checkpoint stands for: with the MySQL source in front and the JSON
    serializer behind, whenever a position is saved, Kafka holds, for every event
    the source sent up to it, an acknowledged record on the topic of the event's
    table, under the event's routing key, whose value a JSON reader reads as the
    event's envelope. *)
Theorem checkpoint_envelopes (w : mysql_env W) (n : node) (p : Position) (e : NomiosEvent) (d : json) :
  typed_env (λ v, wf_value v = true) pos w →
  @mysql_node_reach Serialize cfg _ GS _ _ zone quote s c key dt old pos pub ms fl w n →
  (Z.of_nat (length (node_events n)) < 2 ^ 64 - 1)%Z →
  p ∈ h_saves (k_loop (n_k n)) → e ∈ node_events n → (ev_seq e ≤ SeqNo p)%Z →
  doc_event e = Some d →
  ∃ x j r, own_call (n_k n) x ∧ c_records x !! j = Some r ∧
    c_promises x !! j = Some (PrFin true) ∧
    k_topic r = resolve_topic cfg (EvSource e) ∧ k_key r = key e ∧ parse_json (k_value r) = Some d.
Proof.
  intros Hw Hr Hlen Hp He Hle Hd.
  destruct (@mysql_node_facts Serialize cfg _ GS _ _ zone quote s c key dt old pos pub ms fl
    old_ok w n Hr) as [Hk Hpre].
  assert (wf_event e) as Hwf.
  { eapply (typed_wf _ e (λ v Hv, Hv)), (sent_typed zone quote s _ pos w e convert_wf Hw).
    by eapply elem_of_prefix. }
  pose proof (kreach_abs _ _ _ _ _ _ _ _ _ old_ok _ Hk) as Ha.
  assert (event_acked key (abs (n_k n)) e) as Hack.
  { eapply covered_acked; [exact Ha| |exact He|exact Hle].
    eapply (reach_saves c key dt pos pub ms fl (abs (n_k n))); [done|exact Hlen|by left]. }
  destruct (event_acked_kafka cfg c key dt old pos pub ms fl old_ok _ _ Hk Hack)
    as (x&j&r&Hx&Hj&Hpj&Hs&Ht).
  change (Json.Serialize (picked key e) = Ok (k_key r, k_value r)) in Hs. unfold Json.Serialize in Hs.
  exists x, j, r. split_and!; [done..| |].
  - destruct (AppendEvent "" (picked key e)); [|done]. by simplify_eq/=.
  - destruct (event_reads (picked key e) d Hwf Hd) as (t&Happ&Hpt).
    rewrite Happ, str_app_nil_l in Hs. by simplify_eq/=.
Qed.
End json.

(** ** Witnesses: the six events of SourceResume's two transactions, from the stream to a saved checkpoint *)
Import SourceResume SourceTypes.

Local Abbreviation sample_mysql :=
  (@MysqlSource_source Json.jsonFmt sampleGTIDs nat Schema.sampleServer (λ _, 0%Z) id sample_source).

Definition node_batches : list batch := (@Source.Start _ sample_mysql zeroPosition sample_env).1.

Definition node_labels : list klabel :=
  ((λ b, ILoop (HSend b)) <$> node_batches) ++ (ILoop <$> take 19 (drop 4 restart_labels)) ++
  publish_labels 0 0 6 ++ ack_labels 0 6 ++ [ITick; ILoop HTake; ILoop HSaveOk].

Definition sample_node_step :=
  @node_step (@Json.Serialize Json.jsonFmt) sample_kconfig restart_config Key sample_dur _ sample_mysql sample_env zeroPosition.
Definition sample_node_init : node :=
  @node_init restart_config _ sample_mysql sample_env no_prior zeroPosition 0 0 0.
Definition sample_node (ls : list klabel) : node := default sample_node_init (run_labels sample_node_step ls sample_node_init).

Lemma sample_node_reachable ls :
  is_Some (run_labels sample_node_step ls sample_node_init) →
  reachable sample_node_step sample_node_init (sample_node ls).
Proof.
  intros [n Hn]. unfold sample_node. rewrite Hn. by apply (run_labels_reachable _ ls).
Qed.

Lemma sample_node_runs : is_Some (run_labels sample_node_step node_labels sample_node_init).
Proof. decide_closed. Qed.


Lemma at_least_once_witness :
  let n := sample_node node_labels in
  ∃ p, h_saves (k_loop (n_k n)) = [p] ∧ SeqNo p = 6%Z ∧
  ∃ s', @MysqlSource.resolveStart sampleGTIDs id (MysqlSource.src_cfg sample_source) (Err (EText "unused")) p =
      Ok (@MysqlSource.mkStart sampleGTIDs (Some s') "" 0) ∧
    ∀ e, e ∈ mjoin node_batches → @gs_In sampleGTIDs sampleGTIDs_laws (GTID (EvSource e)) s' →
      @kafka_acked (@Json.Serialize Json.jsonFmt) sample_kconfig (n_k n) (picked Key e).
Proof.
  intros n. eexists. split; [vm_compute; reflexivity|]. split; [reflexivity|].
  apply (@at_least_once (@Json.Serialize Json.jsonFmt) sample_kconfig Json.jsonFmt sampleGTIDs sampleGTIDs_laws nat
    Schema.sampleServer (λ _, 0%Z) id sample_source restart_config Key sample_dur no_prior zeroPosition 0 0 0 (no_prior_ok _)
    sample_env n ["x:1"] "" 0 sample_segments).
  - reflexivity.
  - reflexivity.
  - repeat constructor.
  - discriminate.
  - apply sample_segments_items.
  - apply sample_segments_ok.
  - apply sample_gtids_distinct.
  - apply (bool_decide_unpack _). vm_compute. exact I.
  - apply (sample_node_reachable node_labels), sample_node_runs.
  - vm_compute. reflexivity.
  - vm_compute. left.
Defined.

(** The third event, an update, is in Kafka as its envelope. *)
Lemma checkpoint_envelopes_witness :
  let n := sample_node node_labels in
  ∃ p e d, h_saves (k_loop (n_k n)) = [p] ∧ node_events n !! 2%nat = Some e ∧ @Json.doc_event Json.jsonFmt e = Some d ∧
  ∃ x j r, own_call (n_k n) x ∧ c_records x !! j = Some r ∧
    c_promises x !! j = Some (PrFin true) ∧
    k_topic r = resolve_topic sample_kconfig (EvSource e) ∧ k_key r = Key e ∧ JsonText.parse_json (k_value r) = Some d.
Proof.
  intros n. eexists _, _, _. split; [vm_compute; reflexivity|]. split; [vm_compute; reflexivity|].
  split; [vm_compute; reflexivity|].
  eapply (@checkpoint_envelopes sample_kconfig Json.jsonFmt Json.jsonFmt_laws sampleGTIDs nat Schema.sampleServer
    (λ _, 0%Z) id sample_source restart_config Key sample_dur no_prior zeroPosition 0 0 0 (no_prior_ok _) sample_env n).
  - apply sample_env_wf.
  - apply (sample_node_reachable node_labels), sample_node_runs.
  - vm_compute. reflexivity.
  - vm_compute. left.
  - apply (list_elem_of_lookup_2 _ 2). vm_compute. reflexivity.
  - vm_compute. discriminate.
  - vm_compute. reflexivity.
Defined.
