(* ===== verification/Process.v ===== *)
(** * The process: cmd/nomios

    [main] of cmd/nomios/main.go over the manager of Server.v and the
    configuration of NodeConfig.v: load the file, build, register and start the
    hyperloops, serve, and on a signal stop them all.  [StopAll] and [PollMetrics]
    of pkg/server/server.go, which only [main] calls, are here too.  The process is
    one transition system: main's statements, the handlers of the HTTP server, the
    poller, and the goroutines of the hyperloops move in any interleaving. *)

From S2P Require Import Prelude GoStd Hyperloop Server Metrics NodeConfig.

(** ** The file *)
Record File := mkFile {
  Listen : string;
  Hyperloops : list HyperloopDef;
}.

Definition set_Listen (f : File) (addr : string) : File := mkFile addr (Hyperloops f).

(** ** PollMetrics *)

(** The interval of the ticker: a default when none is given. *)
Definition PollMetrics_interval (interval : Z) : Z := positive_or interval 5000000000.

(** At its select; inside [Statuses], which holds the manager's lock; between two
    calls of [Observe]; returned. *)
Inductive poll_pc :=
  | PollIdle
  | PollRead (todo : list string) (out : list StatusReport)
  | PollObserve (todo : list StatusReport)
  | PollOff.

Record poll := mkPoll {
  pl_pc : poll_pc;
  pl_metrics : Nomios;
  pl_calls : list collector_call; (* the calls made on the collectors *)
}.

Inductive poll_label :=
  | TkTick (ids : list string)    (* the tick; the order of this map iteration *)
  | TkStatus (rep : StatusReport) (* [l.hl.Status()] of the next hyperloop *)
  | TkObserve (now : Z)
  | TkCtx.

Definition poll_observing (todo : list StatusReport) : poll_pc :=
  match todo with [] => PollIdle | _ => PollObserve todo end.
Definition poll_reading (todo : list string) (out : list StatusReport) : poll_pc :=
  match todo with [] => poll_observing out | _ => PollRead todo out end.

Definition poll_step (ctx_done : bool) (mgr : mstate) (l : poll_label) (x : poll) : option poll :=
  match l, pl_pc x with
  | TkTick ids, PollIdle =>
      if decide (ids ≡ₚ StopAll_ids mgr)
      then Some (mkPoll (poll_reading ids []) (pl_metrics x) (pl_calls x)) else None
  | TkStatus rep, PollRead (id :: todo) out =>
      m ← loops mgr !! id;
      if decide (RepID rep = id ∧ RepStatus rep = m_status m)
      then Some (mkPoll (poll_reading todo (out ++ [rep])) (pl_metrics x) (pl_calls x)) else None
  | TkObserve now, PollObserve (rep :: todo) =>
      let '(nm, cs) := Observe now (pl_metrics x) rep in
      Some (mkPoll (poll_observing todo) nm (pl_calls x ++ cs))
  | TkCtx, PollIdle => if ctx_done then Some (mkPoll PollOff (pl_metrics x) (pl_calls x)) else None
  | _, _ => None
  end.

(** [Statuses] holds the lock that [Register] and [get] take. *)
Definition mu_free (x : poll) : bool := match pl_pc x with PollRead _ _ => false | _ => true end.

(** ** main *)

(** Why the process ends. *)
Inductive exit_reason :=
  | XLoad (e : goerr) | XBuild (e : goerr) | XRegister (e : goerr) | XStart (e : goerr)
  | XListen (e : goerr) | XBye.

Definition exit_code (x : exit_reason) : Z := match x with XBye => 0 | _ => 1 end.

Inductive main_pc :=
  | MnLoad
  | MnBuild (defs : list HyperloopDef)               (* the loop over the definitions *)
  | MnRegister (d : HyperloopDef) (id : string) (defs : list HyperloopDef)
  | MnStart (id : string) (defs : list HyperloopDef)
  | MnServe                                          (* before the two [go] statements *)
  | MnWait                                           (* [<-stop] *)
  | MnStopAll                                        (* before [StopAll] reads the map *)
  | MnStopping (ids : list (string * nat)) (todo : list string) (calls : list nat)
      (* in [StopAll]: what it read, with the goroutines launched by then (an
         observation), those that have not called [Stop] yet, their calls of [Stop] *)
  | MnShutdown (ids : list (string * nat)) (calls : list nat) (* [StopAll] returned *)
  | MnExit (x : exit_reason).

Record process := mkP {
  p_main : main_pc;
  p_listen : string;
  p_mgr : mstate;
  p_http : bool;        (* the server accepts requests *)
  p_poll : poll;
}.

Inductive plabel :=
  | PMain                    (* main's next statement *)
  | PSignal                  (* SIGINT or SIGTERM *)
  | PListen                  (* [ListenAndServe] accepts requests *)
  | PListenFail (e : goerr)  (* or fails *)
  | PStopOne (i : nat)       (* a goroutine of [StopAll] calls [Stop] *)
  | PMgr (l : mlabel)        (* a handler, a call of [Stop], a hyperloop's goroutine *)
  | PPoll (l : poll_label).

Section process.
(** The file as it is read, the decoder, the environment, the flag, and what
    building a hyperloop finds. *)
Context (decode : string → result File) (env : string → option string) (file : result string).
Context (listen : string).
Context (build : HyperloopDef → result (MysqlSource.Source * Hyperloop.Config)).

Definition set_main (p : process) (pc : main_pc) : process :=
  mkP pc (p_listen p) (p_mgr p) (p_http p) (p_poll p).
Definition set_mgr (p : process) (pc : main_pc) (s : mstate) : process :=
  mkP pc (p_listen p) s (p_http p) (p_poll p).

(** Every hyperloop, with the goroutines launched for it so far. *)
Definition launched (s : mstate) : list (string * nat) := prod_map id (length ∘ m_runs) <$> map_to_list (loops s).

(** A call of [Stop] has returned. *)
Definition stop_returned (s : mstate) (j : nat) : bool :=
  match stops s !! j with
  | Some c => match sc_pc c with SReturned _ => true | _ => false end
  | None => false
  end.

Definition main_step (p : process) : option process :=
  match p_main p with
  | MnLoad =>
      Some match Load decode Listen set_Listen env file with
           | Err e => set_main p (MnExit (XLoad e))
           | Ok cfg =>
               let cfg := if decide (listen ≠ "") then set_Listen cfg listen else cfg in
               mkP (MnBuild (Hyperloops cfg)) (Listen cfg) (p_mgr p) (p_http p) (p_poll p)
           end
  | MnBuild [] => Some (set_main p MnServe)
  | MnBuild (d :: defs) =>
      Some match build d with
           | Err e => set_main p (MnExit (XBuild e))
           | Ok (_, c) => set_main p (MnRegister d (CfgID c) defs)
           end
  | MnRegister d id defs =>
      Some match Register id (p_mgr p) with
           | (s, Some e) => set_mgr p (MnExit (XRegister e)) s
           | (s, None) => set_mgr p (if AutoStartEnabled d then MnStart id defs else MnBuild defs) s
           end
  | MnStart id defs =>
      Some match Server.Start NewManager_policy id (p_mgr p) with
           | (s, Some e) => set_mgr p (MnExit (XStart e)) s
           | (s, None) => set_mgr p (MnBuild defs) s
           end
  | MnServe =>
      Some (mkP MnWait (p_listen p) (p_mgr p) (p_http p) (mkPoll PollIdle NewNomios []))
  | MnStopAll =>
      if mu_free (p_poll p)
      then Some (set_main p (MnStopping (launched (p_mgr p)) (StopAll_ids (p_mgr p)) []))
      else None
  | MnStopping ids [] calls =>
      if forallb (stop_returned (p_mgr p)) calls
      then Some (set_main p (MnShutdown ids calls)) else None
  | MnShutdown _ _ => Some (set_main p (MnExit XBye))
  | MnWait | MnStopping _ (_ :: _) _ | MnExit _ => None
  end.

(** The [go] statements have run. *)
Definition serving (pc : main_pc) : bool :=
  match pc with MnWait | MnStopAll | MnStopping _ _ _ | MnShutdown _ _ => true | _ => false end.

Definition exited (pc : main_pc) : bool := match pc with MnExit _ => true | _ => false end.

(** What a handler may do: only once the server accepts requests, and not while
    the manager is locked. *)
Definition may_move (p : process) (l : mlabel) : bool :=
  match l with
  | MRegister _ | MStart _ | MStop _ => p_http p && mu_free (p_poll p)
  | MRun _ _ _ | MCancel _ | MStopDone _ | MStopTimeout _ => true
  end.

Definition pstep (l : plabel) (p : process) : option process :=
  if exited (p_main p) then None
  else
    match l with
    | PMain => main_step p
    | PSignal => match p_main p with MnWait => Some (set_main p MnStopAll) | _ => None end
    | PListen =>
        if serving (p_main p) && negb (p_http p)
        then Some (mkP (p_main p) (p_listen p) (p_mgr p) true (p_poll p)) else None
    | PListenFail e => if serving (p_main p) then Some (set_main p (MnExit (XListen e))) else None
    | PStopOne i =>
        match p_main p with
        | MnStopping ids todo calls =>
            id ← todo !! i;
            if mu_free (p_poll p)
            then Some (set_mgr p (MnStopping ids (delete i todo) (calls ++ [length (stops (p_mgr p))]))
                         (Stop_read id (p_mgr p)))
            else None
        | _ => None
        end
    | PMgr l =>
        if may_move p l
        then s ← mstep NewManager_policy l (p_mgr p); Some (set_mgr p (p_main p) s) else None
    | PPoll l =>
        if serving (p_main p)
        then x ← poll_step false (p_mgr p) l (p_poll p);
             Some (mkP (p_main p) (p_listen p) (p_mgr p) (p_http p) x)
        else None
    end.

Definition pinit : process := mkP MnLoad "" minit false (mkPoll PollOff NewNomios []).

(** ** The manager inside the process *)

(** A statement of main moves the manager as one of its operations, or not at all. *)
Lemma main_step_mgr p p' :
  main_step p = Some p' →
  p_mgr p' = p_mgr p ∨
  (∃ d id defs, p_main p = MnRegister d id defs ∧ p_mgr p' = (Register id (p_mgr p)).1) ∨
  (∃ id defs, p_main p = MnStart id defs ∧ p_mgr p' = (Server.Start NewManager_policy id (p_mgr p)).1).
Proof.
  unfold main_step. intros Hstep. destruct (p_main p) as [|[|d defs]|d id defs|id defs| | | |ids [|]|ids|]; try done.
  - injection Hstep as <-. left. by case_match.
  - injection Hstep as <-. by left.
  - injection Hstep as <-. left. by repeat case_match.
  - injection Hstep as <-. right; left. exists d, id, defs. split; [done|]. by destruct (Register _ _) as [? []].
  - injection Hstep as <-. right; right. exists id, defs. split; [done|]. by destruct (Server.Start _ _ _) as [? []].
  - injection Hstep as <-. by left.
  - destruct (mu_free _); [|done]. injection Hstep as <-. by left.
  - destruct (forallb _ _); [|done]. injection Hstep as <-. by left.
  - injection Hstep as <-. by left.
Qed.

(** What a step of the process does: the manager's part, and main's place. *)
Inductive pcase (p p' : process) : plabel → Prop :=
  | pc_main : main_step p = Some p' → pcase p p' PMain
  | pc_signal : p_main p = MnWait → p' = set_main p MnStopAll → pcase p p' PSignal
  | pc_listen :
      serving (p_main p) = true → p_main p' = p_main p → p_mgr p' = p_mgr p →
      p_listen p' = p_listen p → p_poll p' = p_poll p → pcase p p' PListen
  | pc_fail e : serving (p_main p) = true → p' = set_main p (MnExit (XListen e)) → pcase p p' (PListenFail e)
  | pc_stop i ids todo calls id :
      p_main p = MnStopping ids todo calls → todo !! i = Some id →
      p' = set_mgr p (MnStopping ids (delete i todo) (calls ++ [length (stops (p_mgr p))]))
             (Stop_read id (p_mgr p)) → pcase p p' (PStopOne i)
  | pc_mgr l s :
      may_move p l = true → mstep NewManager_policy l (p_mgr p) = Some s →
      p' = set_mgr p (p_main p) s → pcase p p' (PMgr l)
  | pc_poll l x :
      serving (p_main p) = true → poll_step false (p_mgr p) l (p_poll p) = Some x →
      p' = mkP (p_main p) (p_listen p) (p_mgr p) (p_http p) x → pcase p p' (PPoll l).

Lemma pstep_case l p p' : pstep l p = Some p' → exited (p_main p) = false ∧ pcase p p' l.
Proof.
  unfold pstep. destruct (exited (p_main p)); [done|]. intros Hstep. split; [done|].
  destruct l as [| | |e|i|l|l].
  - by constructor.
  - destruct (p_main p) eqn:E; try done. injection Hstep as <-. by constructor.
  - destruct (serving (p_main p)) eqn:E; [|done]. destruct (p_http p); [done|]. injection Hstep as <-. by constructor.
  - destruct (serving (p_main p)) eqn:E; [|done]. injection Hstep as <-. by constructor.
  - destruct (p_main p) as [| | | | | | |ids todo calls| |] eqn:E; try done.
    destruct (todo !! i) as [id|] eqn:Ei; [|done]. cbn [mbind option_bind] in Hstep.
    destruct (mu_free _); [|done]. injection Hstep as <-. by econstructor.
  - destruct (may_move p l) eqn:E; [|done].
    destruct (mstep _ l (p_mgr p)) as [s|] eqn:Es; [|done]. injection Hstep as <-. by econstructor.
  - destruct (serving (p_main p)) eqn:E; [|done].
    destruct (poll_step _ _ l (p_poll p)) as [x|] eqn:Ex; [|done]. injection Hstep as <-. by econstructor.
Qed.

(** The manager of the process is the manager of Server.v. *)
Lemma process_simulated : simulates pstep (mstep NewManager_policy) p_mgr (λ _, True).
Proof.
  intros l p p' _ Hstep. apply pstep_case in Hstep as [_ Hc].
  destruct Hc as [Hm|_ ->|_ _ -> _ _|e _ ->|i ids todo calls id _ _ ->|l s _ Hs ->|l x _ _ ->]; try by left.
  - destruct (main_step_mgr p p' Hm) as [Hs|[(d&id&defs&_&Hs)|(id&defs&_&Hs)]]; rewrite Hs.
    + by left.
    + right. by exists (MRegister id).
    + right. by exists (MStart id).
  - right. by exists (MStop id).
  - right. by exists l.
Qed.

Lemma process_mgr p : reachable pstep pinit p → reachable (mstep NewManager_policy) minit (p_mgr p).
Proof. by apply (simulation_reachable pstep (mstep NewManager_policy) p_mgr (λ _, True) pinit process_simulated). Qed.

(** ** Starting up *)

(** The configuration main runs with: the file's, the flag overriding the address. *)
Definition loaded : result File :=
  match Load decode Listen set_Listen env file with
  | Err e => Err e
  | Ok cfg => Ok (if decide (listen ≠ "") then set_Listen cfg listen else cfg)
  end.

Definition already_exists (id : string) : goerr :=
  EText ("hyperloop " +:+ quote_id id +:+ " already exists").

(** The identifier a definition is registered under. *)
Definition built_id (d : HyperloopDef) : option string :=
  match build d with Ok (_, c) => Some (CfgID c) | Err _ => None end.

(** The first definition that stops main, [seen] being the identifiers in use. *)
Fixpoint first_failure (seen : list string) (defs : list HyperloopDef) : option exit_reason :=
  match defs with
  | [] => None
  | d :: defs =>
      match build d with
      | Err e => Some (XBuild e)
      | Ok (_, c) =>
          if decide (CfgID c ∈ seen) then Some (XRegister (already_exists (CfgID c)))
          else first_failure (seen ++ [CfgID c]) defs
      end
  end.

Definition startup : option exit_reason :=
  match loaded with Err e => Some (XLoad e) | Ok f => first_failure [] (Hyperloops f) end.

(** The goroutines a definition is given. *)
Definition start_count (d : HyperloopDef) : nat := if AutoStartEnabled d then 1 else 0.

(** A count of goroutines for each registered identifier. *)
Implicit Types (cnt : string → option nat).

(** Exactly the hyperloops of [defs] are registered, and started when they say so. *)
Definition registered (defs : list HyperloopDef) cnt : Prop :=
  (∀ id, is_Some (cnt id) ↔ id ∈ omap built_id defs) ∧
  ∀ d id, d ∈ defs → built_id d = Some id → cnt id = Some (start_count d).

Definition with_count (id : string) (n : nat) cnt (i : string) : option nat :=
  if decide (i = id) then Some n else cnt i.

(** What main knows at each of its statements. *)
Definition startup_ok (pc : main_pc) (addr : string) cnt : Prop :=
  match pc with
  | MnLoad => registered [] cnt
  | MnBuild defs =>
      ∃ f pre, loaded = Ok f ∧ addr = Listen f ∧ Hyperloops f = pre ++ defs ∧
        registered pre cnt ∧ startup = first_failure (omap built_id pre) defs
  | MnRegister d id defs =>
      ∃ f pre, loaded = Ok f ∧ addr = Listen f ∧ Hyperloops f = pre ++ d :: defs ∧
        registered pre cnt ∧ built_id d = Some id ∧
        startup = first_failure (omap built_id pre) (d :: defs)
  | MnStart id defs =>
      ∃ f pre, loaded = Ok f ∧ addr = Listen f ∧ Hyperloops f = pre ++ defs ∧
        cnt id = Some 0%nat ∧ registered pre (with_count id 1 cnt) ∧
        startup = first_failure (omap built_id pre) defs
  | MnServe =>
      ∃ f, loaded = Ok f ∧ addr = Listen f ∧ registered (Hyperloops f) cnt ∧ startup = None
  | MnExit (XListen _ | XBye) => startup = None
  | MnExit (XStart _) => False
  | MnExit x => startup = Some x
  | _ => ∃ f, loaded = Ok f ∧ addr = Listen f ∧ startup = None
  end.

Lemma registered_ext defs cnt cnt' : (∀ i, cnt' i = cnt i) → registered defs cnt → registered defs cnt'.
Proof. intros Heq [H1 H2]. split; intros *; rewrite Heq; auto. Qed.

Lemma with_count_ext id n cnt cnt' i : (∀ i, cnt' i = cnt i) → with_count id n cnt' i = with_count id n cnt i.
Proof. intros Heq. unfold with_count. by rewrite Heq. Qed.

Lemma startup_ok_ext pc addr cnt cnt' :
  (∀ i, cnt' i = cnt i) → startup_ok pc addr cnt → startup_ok pc addr cnt'.
Proof.
  intros Heq. destruct pc; try done; simpl; intros Hok.
  - by eapply registered_ext.
  - destruct Hok as (f&pre&?&?&?&?&?). exists f, pre. split_and!; try done. by eapply registered_ext.
  - destruct Hok as (f&pre&?&?&?&?&?&?). exists f, pre. split_and!; try done. by eapply registered_ext.
  - destruct Hok as (f&pre&?&?&?&?&?&?). exists f, pre. rewrite Heq. split_and!; try done.
    eapply registered_ext; [|done]. intros i. by apply with_count_ext.
  - destruct Hok as (f&?&?&?&?). exists f. split_and!; try done. by eapply registered_ext.
Qed.

Lemma registered_snoc pre d id cnt :
  registered pre cnt → built_id d = Some id → id ∉ omap built_id pre →
  registered (pre ++ [d]) (with_count id (start_count d) cnt).
Proof.
  intros [H1 H2] Hd Hid. unfold with_count. split.
  - intros i. rewrite omap_app, elem_of_app. simpl. rewrite Hd, list_elem_of_singleton.
    case_decide as Hi; [subst; naive_solver|]. rewrite H1. naive_solver.
  - intros d' i [Hd'| ->%list_elem_of_singleton]%elem_of_app Hb.
    + rewrite decide_False; [eauto|]. intros ->. apply Hid, list_elem_of_omap. eauto.
    + rewrite decide_True by congruence. done.
Qed.

Lemma run_count_Register id s :
  loops s !! id = None → ∀ i, run_count (Register id s).1 i = with_count id 0 (run_count s) i.
Proof.
  intros Hid i. unfold Register, run_count, with_count. rewrite Hid. simpl.
  case_decide as Hi; [subst; by rewrite lookup_insert_eq|by rewrite lookup_insert_ne].
Qed.

Lemma Start_fresh pol id s :
  run_count s id = Some 0%nat →
  (Server.Start pol id s).2 = None ∧
  ∀ i, run_count (Server.Start pol id s).1 i = with_count id 1 (run_count s) i.
Proof.
  unfold Server.Start, run_count, with_count. destruct (loops s !! id) as [m|]; [|done]. simpl.
  intros [= Hm%nil_length_inv]. rewrite Hm. split; [done|]. intros i. simpl.
  case_decide as Hi; [subst; by rewrite lookup_insert_eq|by rewrite lookup_insert_ne].
Qed.

Definition ok p : Prop := startup_ok (p_main p) (p_listen p) (run_count (p_mgr p)).

Lemma startup_load p : registered [] (run_count (p_mgr p)) → p_main p = MnLoad → ∀ p', main_step p = Some p' → ok p'.
Proof.
  intros Hr Hpc p' Hstep. unfold main_step in Hstep. rewrite Hpc in Hstep. injection Hstep as <-.
  unfold ok. destruct (Load _ _ _ _ _) as [f|e] eqn:E; simpl.
  - eexists _, []. unfold startup, loaded. rewrite E. split_and!; [done|done|done|done|done].
  - unfold startup, loaded. by rewrite E.
Qed.

Lemma startup_build p d defs p' :
  ok p → p_main p = MnBuild (d :: defs) → main_step p = Some p' → ok p'.
Proof.
  unfold ok. intros Hok Hpc Hstep. unfold main_step in Hstep. rewrite Hpc in Hok, Hstep. injection Hstep as <-.
  destruct Hok as (f&pre&?&?&?&?&Hs). simpl in Hs. destruct (build d) as [[src c]|e] eqn:E; simpl; [|done].
  exists f, pre. unfold built_id. rewrite E. done.
Qed.

Lemma startup_register p d id defs p' :
  ok p → p_main p = MnRegister d id defs → main_step p = Some p' → ok p'.
Proof.
  unfold ok. intros Hok Hpc Hstep. unfold main_step in Hstep. rewrite Hpc in Hok, Hstep. injection Hstep as <-.
  destruct Hok as (f&pre&Hf&Ha&Hl&Hr&Hd&Hs). simpl in Hs.
  assert (∃ src c, build d = Ok (src, c) ∧ CfgID c = id) as (src&c&Eb&Ei).
  { unfold built_id in Hd. destruct (build d) as [[src c]|e]; [|done]. injection Hd as <-. by eexists _, _. }
  rewrite Eb, Ei in Hs. destruct (loops (p_mgr p) !! id) as [m|] eqn:E.
  - unfold Register. rewrite E. simpl. rewrite decide_True in Hs; [done|].
    apply (proj1 Hr). unfold run_count. by rewrite E.
  - assert (id ∉ omap built_id pre) as Hid.
    { intros Hin. apply (proj1 Hr) in Hin as [n Hn]. unfold run_count in Hn. by rewrite E in Hn. }
    rewrite decide_False in Hs by done.
    pose proof (run_count_Register id _ E) as Hc. pose proof (registered_snoc pre d id _ Hr Hd Hid) as Hr'.
    unfold Register in *. rewrite E in *. simpl in Hc |- *. unfold start_count in Hr'.
    assert (omap built_id (pre ++ [d]) = omap built_id pre ++ [id]) as Ho by (rewrite omap_app; simpl; by rewrite Hd).
    destruct (AutoStartEnabled d); exists f, (pre ++ [d]); rewrite Ho, <-(assoc_L (++)); split_and!; try done.
    + rewrite Hc. unfold with_count. by rewrite decide_True.
    + eapply registered_ext; [|exact Hr']. intros i. unfold with_count.
      case_decide; [done|]. rewrite Hc. unfold with_count. by rewrite decide_False.
    + by eapply registered_ext.
Qed.

Lemma startup_start p id defs p' :
  ok p → p_main p = MnStart id defs → main_step p = Some p' → ok p'.
Proof.
  unfold ok. intros Hok Hpc Hstep. unfold main_step in Hstep. rewrite Hpc in Hok, Hstep. injection Hstep as <-.
  destruct Hok as (f&pre&Hf&Ha&Hl&H0&Hr&Hs).
  destruct (Start_fresh NewManager_policy id (p_mgr p) H0) as [He Hc].
  destruct (Server.Start _ id (p_mgr p)) as [s e]. simpl in He, Hc. subst e. simpl.
  exists f, pre. split_and!; try done. eapply registered_ext; [|exact Hr]. done.
Qed.

Lemma startup_main p p' : ok p → main_step p = Some p' → ok p'.
Proof.
  intros Hok Hstep. destruct (p_main p) as [|[|d defs]|d id defs|id defs| | | |ids [|]|ids|] eqn:Hpc;
    [by eapply startup_load; [unfold ok in Hok; by rewrite Hpc in Hok|..]| |by eapply startup_build
    |by eapply startup_register|by eapply startup_start|..];
    unfold ok, main_step in *; rewrite Hpc in Hok, Hstep; try done.
  - injection Hstep as <-. simpl in Hok |- *. destruct Hok as (f&pre&?&?&Hl&?&?). rewrite app_nil_r in Hl.
    subst pre. by exists f.
  - injection Hstep as <-. simpl. destruct Hok as (f&?&?&?&?). by exists f.
  - destruct (mu_free _); [|done]. by injection Hstep as <-.
  - destruct (forallb _ _); [|done]. by injection Hstep as <-.
  - injection Hstep as <-. simpl. by destruct Hok as (f&?&?&?).
Qed.

(** Before the server accepts requests only main registers and starts. *)
Lemma idle_counts l p s :
  may_move p l = true → p_http p = false → mstep NewManager_policy l (p_mgr p) = Some s →
  ∀ id, run_count s id = run_count (p_mgr p) id.
Proof.
  intros Hm Hh Hs id. unfold may_move in Hm. rewrite Hh in Hm.
  apply (run_count_same NewManager_policy l (p_mgr p) s id Hs); by intros ->.
Qed.

Lemma http_serving p p' l :
  (p_http p = true → serving (p_main p) || exited (p_main p) = true) → pstep l p = Some p' →
  p_http p' = true → serving (p_main p') || exited (p_main p') = true.
Proof.
  intros Hh Hstep. apply pstep_case in Hstep as [Hx Hc].
  destruct Hc as [Hm|Hw ->|Hsv Hpc _ _ _|e Hsv ->|i ids todo calls id Hpc _ ->|l s _ Hs ->|l x Hsv _ ->];
    simpl; try done; rewrite ?Hpc, ?Hsv; try done.
  unfold main_step in Hm. destruct (p_main p) as [|[|d defs]|d id defs|id defs| | | |ids [|]|ids|]; try done;
    repeat case_match; simplify_eq/=; auto.
Qed.

Lemma reach_ok p :
  reachable pstep pinit p → ok p ∧ (p_http p = true → serving (p_main p) || exited (p_main p) = true).
Proof.
  apply (reachable_invariant pstep (λ p, ok p ∧ (p_http p = true → serving (p_main p) || exited (p_main p) = true))).
  { split; [|done]. split; [|by intros * ?%elem_of_nil]. intros id.
    split; [by intros []|by intros ?%elem_of_nil]. }
  intros l p1 p2 [Hok Hh] Hstep. split; [|by eapply http_serving]. clear p.
  apply pstep_case in Hstep as [Hx Hc].
  destruct Hc as [Hm|Hw ->|Hsv Hpc Hmg Hl _|e Hsv ->|i ids todo calls id Hpc _ ->|l s Hmv Hs ->|l x Hsv _ ->].
  - by eapply startup_main.
  - unfold ok in *. by rewrite Hw in Hok.
  - unfold ok in *. by rewrite Hpc, Hmg, Hl.
  - unfold ok in *. destruct (p_main p1); try done; by destruct Hok as (?&?&?&?).
  - unfold ok in *. by rewrite Hpc in Hok.
  - unfold ok in *. simpl. destruct (p_http p1) eqn:E.
    + specialize (Hh eq_refl). rewrite Hx, orb_false_r in Hh. by destruct (p_main p1).
    + eapply startup_ok_ext; [|exact Hok]. by apply idle_counts with l.
  - done.
Qed.

(** ** Startup ends *)

(** The statements main has left before it serves. *)
Definition startup_left (pc : main_pc) : nat :=
  match pc with
  | MnLoad => match loaded with Ok f => 3 * length (Hyperloops f) + 2 | Err _ => 1 end
  | MnBuild defs => 3 * length defs + 1
  | MnRegister _ _ defs => 3 * length defs + 3
  | MnStart _ defs => 3 * length defs + 2
  | _ => 0
  end.

Definition is_main (l : plabel) : bool := match l with PMain => true | _ => false end.
Definition main_moves (ls : list plabel) : nat := length (filter (λ l, is_main l = true) ls).

Lemma startup_moves p : (0 < startup_left (p_main p))%nat →
  ∃ p', main_step p = Some p' ∧ (startup_left (p_main p') < startup_left (p_main p))%nat.
Proof.
  unfold main_step. destruct (p_main p) as [|[|d defs]|d id defs|id defs| | | | | |]; simpl; try lia; intros _.
  - eexists. split; [done|]. unfold loaded. destruct (Load _ _ _ _ _); simpl; lia.
  - eexists. split; [done|]. simpl. lia.
  - eexists. split; [done|]. destruct (build d) as [[? c]|]; simpl; lia.
  - eexists. split; [done|]. destruct (Register id _) as [? []]; [simpl; lia|].
    destruct (AutoStartEnabled d); simpl; lia.
  - eexists. split; [done|]. destruct (Server.Start _ id _) as [? []]; simpl; lia.
Qed.

Lemma startup_left_step l p p' :
  pstep l p = Some p' →
  (startup_left (p_main p') + (if is_main l then 1 else 0) ≤ startup_left (p_main p))%nat ∨
  startup_left (p_main p') = 0%nat.
Proof.
  intros Hstep. apply pstep_case in Hstep as [_ Hc].
  destruct Hc as [Hm|Hw ->|Hsv Hpc _ _ _|e Hsv ->|i ids todo calls id Hpc _ ->|l s _ Hs ->|l x Hsv _ ->]; simpl;
    [|auto|rewrite Hpc; left; lia|auto|auto|left; lia|left; lia].
  destruct (decide (0 < startup_left (p_main p))%nat) as [Hlt|Hge].
  - destruct (startup_moves p Hlt) as (p1&Hp1&?). left. replace p' with p1 by congruence. lia.
  - right. unfold main_step in Hm.
    destruct (p_main p) as [|[|d defs]|d id defs|id defs| | | |ids [|]|ids|]; simpl in Hge; try lia; try done;
      repeat case_match; simplify_eq/=; lia.
Qed.

Lemma startup_run ls p p' :
  run_labels pstep ls p = Some p' → startup_left (p_main p') = 0%nat ∨
  (startup_left (p_main p') + main_moves ls ≤ startup_left (p_main p))%nat.
Proof.
  revert p. induction ls as [|l ls IH]; intros p Hrun; [injection Hrun as <-; right; unfold main_moves; simpl; lia|].
  simpl in Hrun. destruct (pstep l p) as [p1|] eqn:E; [|done]. simpl in Hrun.
  destruct (IH p1 Hrun) as [|IHp]; [by left|]. destruct (startup_left_step l p p1 E) as [Hs|H0]; [|left; lia].
  right. unfold main_moves in *. rewrite filter_cons.
  destruct (is_main l); [rewrite decide_True by done|rewrite decide_False by done]; simpl; lia.
Qed.

(** ** Stopping *)

(** The goroutines a call of [Stop] found. *)
Definition found (c : stop_call) : nat := match sc_run c with Some k => S k | None => 0 end.

(** A hyperloop [StopAll] read: it will be stopped, or a call of [Stop] has read it. *)
Definition target_ok (s : mstate) (todo : list string) (calls : list nat) (x : string * nat) : Prop :=
  (∃ n, run_count s x.1 = Some n ∧ (x.2 ≤ n)%nat) ∧
  (x.1 ∈ todo ∨ ∃ j c, j ∈ calls ∧ stops s !! j = Some c ∧ sc_id c = x.1 ∧ (x.2 ≤ found c)%nat).

Definition stopall_inv p : Prop :=
  match p_main p with
  | MnStopping ids todo calls => Forall (target_ok (p_mgr p) todo calls) ids
  | MnShutdown ids calls =>
      Forall (target_ok (p_mgr p) [] calls) ids ∧ Forall (λ j, stop_returned (p_mgr p) j = true) calls
  | _ => True
  end.

Lemma run_count_grows pol l s s' id n :
  mstep pol l s = Some s' → run_count s id = Some n → ∃ n', run_count s' id = Some n' ∧ (n ≤ n')%nat.
Proof.
  unfold run_count. intros Hstep. destruct (loops s !! id) as [m|] eqn:E; [|done]. intros [= <-].
  destruct (mstep_runs pol l s s' id m Hstep E) as (m'&->&Hc). eexists. split; [done|]. simpl.
  destruct Hc; rewrite ?length_app, ?length_insert; lia.
Qed.

Lemma target_step pol l s s' todo calls x :
  mstep pol l s = Some s' → target_ok s todo calls x → target_ok s' todo calls x.
Proof.
  intros Hstep [(n&Hn&Hle) Hc]. split.
  - destruct (run_count_grows _ _ _ _ _ _ Hstep Hn) as (n'&->&?). exists n'. split; [done|lia].
  - destruct Hc as [|(j&c&Hj&Hs&<-&?)]; [by left|right].
    destruct (mstep_stop_kept _ _ _ _ _ _ Hstep Hs) as (pc&Hs'&_). by eexists j, _.
Qed.

Lemma returned_step pol l s s' j :
  mstep pol l s = Some s' → stop_returned s j = true → stop_returned s' j = true.
Proof.
  unfold stop_returned. intros Hstep. destruct (stops s !! j) as [c|] eqn:E; [|done].
  destruct (mstep_stop_kept _ _ _ _ _ _ Hstep E) as (pc&->&Hpc). simpl.
  destruct (sc_pc c) as [| |r]; try done. intros _. by rewrite (Hpc r).
Qed.

Lemma Stop_read_call id s n :
  run_count s id = Some n →
  ∃ c, stops (Stop_read id s) !! length (stops s) = Some c ∧ sc_id c = id ∧ found c = n.
Proof.
  unfold run_count, Stop_read. destruct (loops s !! id) as [m|]; [|done]. simpl. intros [= <-].
  destruct (m_runs m) as [|r rs]; simpl; eexists; (split; [by rewrite lookup_app_r, Nat.sub_diag by lia|]); done.
Qed.

Lemma target_stop s i id todo calls x :
  todo !! i = Some id → target_ok s todo calls x →
  target_ok (Stop_read id s) (delete i todo) (calls ++ [length (stops s)]) x.
Proof.
  intros Hi Hx.   destruct (target_step NewManager_policy (MStop id) s (Stop_read id s) todo calls x eq_refl Hx) as [Hn Hc].
  split; [exact Hn|].
  destruct Hc as [Hin|(j&c&Hj&?)]; [|right; exists j, c; split; [by apply elem_of_app; left|done]].
  rewrite <-(take_drop_middle _ _ _ Hi) in Hin. rewrite delete_take_drop.
  rewrite elem_of_app, elem_of_cons in Hin. rewrite elem_of_app.
  destruct Hin as [|[Heq|]]; [by left; left| |by left; right]. right.
  destruct Hn as (n&Hn&Hle).
  assert (run_count s id = Some n) as Hn'.
  { rewrite <-(run_count_same NewManager_policy (MStop id) s (Stop_read id s)) by done. by rewrite Heq in Hn. }
  destruct (Stop_read_call id s n Hn') as (c&Hc&Hid&Hf). exists (length (stops s)), c.
  split_and!; [by apply elem_of_app; right; left|done|congruence|lia].
Qed.

Lemma launched_ok s : Forall (target_ok s (StopAll_ids s) []) (launched s).
Proof.
  apply Forall_forall. intros x ([id m]&->&Hin)%list_elem_of_fmap. split; simpl.
  - apply elem_of_map_to_list in Hin. unfold run_count. rewrite Hin. by eexists.
  - left. apply list_elem_of_fmap. by exists (id, m).
Qed.

Lemma stopall_main p p' : stopall_inv p → main_step p = Some p' → stopall_inv p'.
Proof.
  unfold main_step, stopall_inv. intros Hinv Hstep.
  destruct (p_main p) as [|[|d defs]|d id defs|id defs| | | |ids [|]|ids|]; try done.
  - injection Hstep as <-. by destruct (Load _ _ _ _ _).
  - by injection Hstep as <-.
  - injection Hstep as <-. by destruct (build d) as [[]|].
  - injection Hstep as <-. destruct (Register _ _) as [? []]; [done|]. by destruct (AutoStartEnabled d).
  - injection Hstep as <-. by destruct (Server.Start _ _ _) as [? []].
  - by injection Hstep as <-.
  - destruct (mu_free _); [|done]. injection Hstep as <-. apply launched_ok.
  - destruct (forallb _ _) eqn:E; [|done]. injection Hstep as <-. split; [done|].
    apply Forall_forall. intros j Hj. by apply (proj1 (forallb_forall _ _) E), list_elem_of_In.
  - by injection Hstep as <-.
Qed.

Lemma reach_stopall p : reachable pstep pinit p → stopall_inv p.
Proof.
  apply (reachable_invariant pstep stopall_inv); [done|]. clear p. intros l p p' Hinv Hstep.
  apply pstep_case in Hstep as [_ Hc].
  destruct Hc as [Hm|Hw ->|Hsv Hpc Hmg _ _|e Hsv ->|i ids todo calls id Hpc Hi ->|l s _ Hs ->|l x Hsv _ ->].
  - by eapply stopall_main.
  - done.
  - unfold stopall_inv in *. by rewrite Hpc, Hmg.
  - done.
  - unfold stopall_inv in *. rewrite Hpc in Hinv. simpl. eapply Forall_impl; [exact Hinv|].
    intros x. by apply target_stop.
  - unfold stopall_inv in *. simpl. destruct (p_main p) as [| | | | | | |ids todo calls|ids calls|]; try done.
    + eapply Forall_impl; [exact Hinv|]. intros x. by apply target_step with NewManager_policy l.
    + destruct Hinv as [H1 H2]. split; (eapply Forall_impl; [done|]); intros x.
      * by apply target_step with NewManager_policy l.
      * by apply returned_step with NewManager_policy l.
  - done.
Qed.

(** A goroutine that a call of [Stop] found is over once the call returned nil. *)
Lemma stopped_over s j c m k r :
  reachable (mstep NewManager_policy) minit s → stops s !! j = Some c → sc_pc c = SReturned None →
  loops s !! sc_id c = Some m → m_runs m !! k = Some r → (k < found c)%nat → run_over r = true.
Proof.
  unfold found. intros Hs Hj Hpc Hm Hr Hk. destruct (sc_run c) as [k0|] eqn:Ek; [|lia].
  pose proof (Forall_lookup_1 _ _ _ _ (reach_stops _ s Hs) Hj) as Hok. unfold stop_ok in Hok.
  rewrite Ek, Hpc in Hok. destruct Hok as (m'&r'&Hm'&Hr'&_&Ho). assert (m' = m) as -> by congruence.
  destruct (decide (k = k0)) as [->|Hne]; [congruence|].
  eapply (reach_only_last NewManager_policy s _ m Hs Hm k r Hr). apply lookup_lt_Some in Hr'. lia.
Qed.
End process.

(** ** Properties of the process *)
Section properties.
Context (decode : string → result File) (env : string → option string) (file : result string).
Context (listen : string).
Context (build : HyperloopDef → result (MysqlSource.Source * Hyperloop.Config)).
Local Abbreviation step := (pstep decode env file listen build).
Local Abbreviation start := (startup decode env file listen build).

(** [C20] What starting up does, whatever the goroutines already launched are doing:
    when main comes to serve, the configuration loaded, every definition of it was
    built, no identifier occurs twice, exactly the hyperloops defined are
    registered, one goroutine runs each that starts by itself and none the others;
    and the address is the file's unless the flag overrides it.  When the process
    ends before that, it ends with the first failure in the order of the file: of
    loading it, of building a definition, or of an identifier already taken. *)
Theorem startup_outcome (p : process) :
  reachable step pinit p →
  (p_main p = MnServe →
     start = None ∧ ∃ f, loaded decode env file listen = Ok f ∧ p_listen p = Listen f ∧
     (∀ id, is_Some (run_count (p_mgr p) id) ↔ id ∈ omap (built_id build) (Hyperloops f)) ∧
     ∀ d id, d ∈ Hyperloops f → built_id build d = Some id →
       run_count (p_mgr p) id = Some (start_count d)) ∧
  (∀ x, p_main p = MnExit x →
     match x with XListen _ | XBye => start = None | _ => start = Some x ∧ exit_code x = 1%Z end).
Proof.
  intros Hr. destruct (reach_ok decode env file listen build p Hr) as [Hok _]. unfold ok in Hok. split.
  - intros Hpc. rewrite Hpc in Hok. destruct Hok as (f&?&?&[]&?). split; [done|]. by exists f.
  - intros x Hpc. rewrite Hpc in Hok. by destruct x.
Qed.


(** [C22] What a signal stops: when [StopAll] has returned, then for every hyperloop
    registered when it began, every goroutine launched by then is over, its
    pipeline drained or failed, unless the call of [Stop] for that hyperloop
    answered an error. *)
Theorem shutdown_stops (p : process) (ids : list (string * nat)) (calls : list nat) (id : string) (n : nat) :
  reachable step pinit p → p_main p = MnShutdown ids calls → (id, n) ∈ ids →
  (∃ j c e, j ∈ calls ∧ stops (p_mgr p) !! j = Some c ∧ sc_id c = id ∧ sc_pc c = SReturned (Some e)) ∨
  ∃ m, loops (p_mgr p) !! id = Some m ∧ (n ≤ length (m_runs m))%nat ∧
    ∀ k r, (k < n)%nat → m_runs m !! k = Some r → run_over r = true.
Proof.
  intros Hr Hpc Hid. pose proof (reach_stopall decode env file listen build p Hr) as Hinv.
  unfold stopall_inv in Hinv. rewrite Hpc in Hinv. destruct Hinv as [Ht Hret].
  rewrite Forall_forall in Ht. destruct (Ht _ Hid) as [(n'&Hn'&Hle) [Hno|(j&c&Hj&Hc&Hcid&Hf)]];
    [by apply elem_of_nil in Hno|]. simpl in *.
  rewrite Forall_forall in Hret. specialize (Hret j Hj). unfold stop_returned in Hret. rewrite Hc in Hret.
  destruct (sc_pc c) as [| |[e|]] eqn:Ep; try done; [left; by exists j, c, e|right].
  unfold run_count in Hn'. destruct (loops (p_mgr p) !! id) as [m|] eqn:Em; [|done]. injection Hn' as <-.
  exists m. split_and!; [done..|]. intros k r Hk Hkr.
  eapply stopped_over; [by eapply process_mgr|done|done|by rewrite Hcid|done|lia].
Qed.
End properties.

(** ** A node with two hyperloops, one of them started by hand *)
Definition sample_idle : HyperloopDef :=
  mkDef "idle" (Some false) (Some sample_mysql) 0 0 0 0 ∅ (Some sample_kafka)
    (mkStateDef "file" "/state" "" "" "" "" 0) 0.
Definition sample_decode (text : string) : result File :=
  if decide (text = "two loops") then Ok (mkFile "" [sample_def; sample_idle])
  else if decide (text = "twice") then Ok (mkFile ":9" [sample_def; sample_def])
  else Err (EText "bad yaml").
Definition sample_build := Build (λ _, None) (λ _, None) (λ _ _, None) (λ s, s).

Local Abbreviation sample_pstep text := (pstep sample_decode sample_env (Ok text) ":7070" sample_build).
Definition sample_process (text : string) (ls : list plabel) : process :=
  default pinit (run_labels (sample_pstep text) ls pinit).

Definition startup_labels : list plabel := replicate 7 PMain.
Definition signal_labels : list plabel :=
  [PMain; PListen; PMgr (MRun "shop" 0 GEnter); PMgr (MRun "shop" 0 (GStatus StatusRunning)); PSignal; PMain;
   PStopOne 0; PStopOne 0; PMgr (MCancel 0); PMgr (MRun "shop" 0 (GStatus StatusStopping));
   PMgr (MRun "shop" 0 (GReturn None)); PMgr (MRun "shop" 0 GDecide); PMgr (MRun "shop" 0 GClose);
   PMgr (MStopDone 0)].

Lemma sample_process_reachable text ls :
  is_Some (run_labels (sample_pstep text) ls pinit) →
  reachable (sample_pstep text) pinit (sample_process text ls).
Proof. intros [s Hs]. unfold sample_process. rewrite Hs. by apply (run_labels_reachable _ ls). Qed.

(** Two definitions start, one of them with a goroutine. *)
Lemma startup_outcome_witness :
  let p := sample_process "two loops" startup_labels in
  p_listen p = ":7070" ∧ run_count (p_mgr p) "shop" = Some 1%nat ∧ run_count (p_mgr p) "idle" = Some 0%nat ∧
  startup sample_decode sample_env (Ok "two loops") ":7070" sample_build = None ∧
  ∃ f, loaded sample_decode sample_env (Ok "two loops") ":7070" = Ok f ∧ p_listen p = Listen f ∧
  (∀ id, is_Some (run_count (p_mgr p) id) ↔ id ∈ omap (built_id sample_build) (Hyperloops f)) ∧
  ∀ d id, d ∈ Hyperloops f → built_id sample_build d = Some id →
    run_count (p_mgr p) id = Some (start_count d).
Proof.
  intros p. do 3 (split; [vm_compute; reflexivity|]).
  apply (startup_outcome sample_decode sample_env (Ok "two loops") ":7070" sample_build p).
  - apply sample_process_reachable. decide_closed.
  - vm_compute. reflexivity.
Defined.

(** A file that declares a hyperloop twice does not start. *)
Example twice_exits :
  p_main (sample_process "twice" (replicate 6 PMain)) = MnExit (XRegister (already_exists "shop")).
Proof. vm_compute. reflexivity. Qed.


Definition stopped_process : process :=
  sample_process "two loops" (startup_labels ++ signal_labels ++ [PMain]).

Lemma shutdown_stops_witness :
  (∃ j c e, j ∈ [0%nat; 1%nat] ∧ stops (p_mgr stopped_process) !! j = Some c ∧ sc_id c = "shop" ∧
     sc_pc c = SReturned (Some e)) ∨
  ∃ m, loops (p_mgr stopped_process) !! "shop" = Some m ∧ (1 ≤ length (m_runs m))%nat ∧
    ∀ k r, (k < 1)%nat → m_runs m !! k = Some r → run_over r = true.
Proof.
  apply (shutdown_stops sample_decode sample_env (Ok "two loops") ":7070" sample_build stopped_process
    [("shop", 1%nat); ("idle", 0%nat)] [0%nat; 1%nat] "shop" 1).
  - apply sample_process_reachable. decide_closed.
  - vm_compute. reflexivity.
  - left.
Defined.

(** ** A start that comes during the shutdown

    The HTTP server is shut down after [StopAll]: a handler can start a hyperloop
    again once its goroutine was stopped, and the process ends under the new one,
    which is neither cancelled nor drained. *)
Definition late_start_labels : list plabel :=
  startup_labels ++ signal_labels ++ [PMgr (MStart "shop"); PMgr (MRun "shop" 1 GEnter); PMain; PMain].

Theorem shutdown_leaves_late_start :
  let p := sample_process "two loops" late_start_labels in
  reachable (sample_pstep "two loops") pinit p ∧ p_main p = MnExit XBye ∧
  ∃ m r, loops (p_mgr p) !! "shop" = Some m ∧ m_runs m !! 1%nat = Some r ∧
    r_cancelled r = false ∧ r_pc r = RIn 0 1000000000.
Proof.
  intros p. split; [apply sample_process_reachable; decide_closed|]. split; [vm_compute; reflexivity|].
  eexists _, _. split; [vm_compute; reflexivity|]. split; [reflexivity|]. by split.
Qed.
