(* ===== verification/Lifetime.v ===== *)
(** * The life of a hyperloop: one run after another

    A hyperloop runs many times: the manager starts it again after a failure, an
    operator stops and starts it, a process dies and another one takes over.  Each
    run loads what the runs before left in the store, asks the server for what
    follows, and is the node of Node.v until it ends, at any moment.  Over the
    whole life every captured row the store's position is past is a record the
    Kafka client acknowledged in some run. *)

From S2P Require Import Prelude GoStd State Event Keys Filter Channel Dispatcher KafkaSink Hyperloop Pipeline.
From S2P Require Import EndToEnd KafkaLoop Delivery Node.
From S2P Require Schema Source Json.
From S2P Require Import Binlog MysqlSource SourceLog SourceResume SourceTypes.

(** ** Rows across runs

    The same row is read in different runs with different coordinates committed
    before it; its table and its identifier stay. *)
Definition row_key (r : row_ident) : string * string := (ri_table r, ri_id r).
Definition event_key (e : NomiosEvent) : string * string := (FQTN (EvSource e), ID e).

Section rows.
Context `{GTIDLaws}.

Definition same_txn (ts1 ts2 : txnState) : Prop :=
  pendingGTID ts1 = pendingGTID ts2 ∧ txOrder ts1 = txOrder ts2.

Lemma same_txn_skip ts1 ts2 n : same_txn ts1 ts2 → same_txn (skip_rows ts1 n) (skip_rows ts2 n).
Proof. intros [??]. split; simpl; [done|congruence]. Qed.

Lemma event_keys ts1 ts2 ev :
  same_txn ts1 ts2 → pendingGTID ts1 ≠ "" →
  row_key <$> event_idents ts1 ev = row_key <$> event_idents ts2 ev.
Proof.
  intros [Hg Ho] Hne. unfold event_idents. destruct (event_rows ev) as [[re op]|]; [|done].
  rewrite <-!list_fmap_compose. apply list_fmap_ext. intros _ j _.
  unfold row_key, ident_at, event_id. simpl. rewrite <-Hg, <-Ho. by rewrite bool_decide_eq_false_2.
Qed.

Lemma body_keys ts1 ts2 evs :
  same_txn ts1 ts2 → pendingGTID ts1 ≠ "" → order_ok ts1 → order_ok ts2 →
  Forall (λ ev, in_body ev = true) evs → row_key <$> row_log ts1 evs = row_key <$> row_log ts2 evs.
Proof.
  intros Hs Hne Ho1 Ho2 Hb. revert ts1 ts2 Hs Hne Ho1 Ho2.
  induction Hb as [|ev evs Hev _ IH]; intros ts1 ts2 Hs Hne Ho1 Ho2; [done|]. cbn [row_log].
  rewrite !fmap_app, (event_keys ts1 ts2) by done. f_equal. rewrite !coords_step_body by done.
  apply IH; [by apply same_txn_skip|done|apply skip_rows_order..].
Qed.

(** The captured rows of a transaction. *)
Definition blank : txnState := mkTxn "" "" 0 "" None "" 0 0.
Definition txn_rows_of (s : Source) (t : txn) : list (string * string) :=
  filter (λ x, match_table (src_filter s) x.1 = true) (row_key <$> row_log blank (seg_events (Tx t))).

Lemma txn_keys ts1 ts2 t :
  txn_ok t → row_key <$> row_log ts1 (seg_events (Tx t)) = row_key <$> row_log ts2 (seg_events (Tx t)).
Proof.
  intros Ht. rewrite !txn_log by done. destruct Ht as [_ Hb _ _].
  by apply body_keys; [|apply gtid_text_nonempty|..].
Qed.

Lemma captured_keys s rs :
  row_key <$> captured_rows s rs = filter (λ x, match_table (src_filter s) x.1 = true) (row_key <$> rs).
Proof.
  unfold captured_rows. by rewrite filter_fmap.
Qed.
End rows.

(** ** Runs one after another *)
Section life.
Context `{Serializer} (cfg : KafkaSink.Config).
Context `{GoFmt} `{GTIDLaws} {W : Type} `{Schema.SchemaServer W}.
Context (zone : Z → Z) (quote : string → string) (s : MysqlSource.Source).
Context (c : Hyperloop.Config) (key : NomiosEvent → string) (dt : Z → string).

Record life_run := mkLife {
  lr_from : Position;      (* what the store answered *)
  lr_env : mysql_env W;    (* the server this run meets *)
  lr_node : node;          (* where it was when it ended *)
}.

(** The runs of a hyperloop from a stored position, and what the store holds
    after them: a run starts at what the store holds, with the sink's topic cache
    and the counters the runs before left, and ends anywhere. *)
Inductive lifetime (p0 : Position) : list (life_run) → Position → Prop :=
  | life_new : lifetime p0 [] p0
  | life_run_on rs p w n old pub ms fl :
      lifetime p0 rs p → prior_ok cfg old →
      mysql_node_reach cfg zone quote s c key dt old p pub ms fl w n →
      lifetime p0 (rs ++ [mkLife p w n]) (h_store (k_loop (n_k n))).

(** What the MySQL server sends to a replica that has executed [ex]: the other
    transactions of its log, in order, from the beginning; [log] is the log, as it
    is when the hyperloop's last run ends. *)
Definition serves (log : list txn) (ex : gtids) (w : mysql_env W) : Prop :=
  ∃ gs, items_events (env_items w) = stream_events gs ∧ Forall seg_ok gs ∧
    stream_txns gs `prefix_of` filter (λ t, ¬ gs_In (tx_gtid t) ex) log.

(** The server of every run sends what its start point asks for. *)
Definition served (log : list txn) (x : life_run) : Prop :=
  ∀ ex f o, resolveStart quote (src_cfg s) (env_status (lr_env x)) (lr_from x) = Ok (mkStart (Some ex) f o) →
    serves log ex (lr_env x).

(** The run has a record of this row in Kafka. *)
Definition delivered (rs : list (life_run)) (r : string * string) : Prop :=
  ∃ x e, x ∈ rs ∧ e ∈ node_events (lr_node x) ∧ event_key e = r ∧
    kafka_acked cfg (n_k (lr_node x)) (picked key e).

(** A position that names an executed set. *)
Definition names (p : Position) (ex : gtids) : Prop :=
  GTIDSet p ≠ "" ∧ gs_Parse (GTIDSet p) = Ok ex ∧ gs_wf ex ∧ gs_String ex ≠ "".

Lemma names_resolve p ex status :
  UseGTID (src_cfg s) = true → names p ex →
  resolveStart quote (src_cfg s) status p = Ok (mkStart (Some ex) "" 0).
Proof.
  intros Hg (Hne&Hp&_&_). unfold resolveStart. rewrite Hg, bool_decide_eq_false_2 by done. simpl. by rewrite Hp.
Qed.

(** A saved position of a run, down to Kafka. *)
Lemma node_covers (log : list txn) p0 old pub ms fl ex w n p :
  prior_ok cfg old → UseGTID (src_cfg s) = true → names p0 ex → NoDup (tx_gtid <$> log) →
  served log (mkLife p0 w n) →
  mysql_node_reach cfg zone quote s c key dt old p0 pub ms fl w n →
  (Z.of_nat (length (node_events n)) < 2 ^ 64 - 1)%Z → p ∈ h_saves (k_loop (n_k n)) →
  ∃ gone ex', gone `sublist_of` log ∧ Forall txn_ok gone ∧ names p ex' ∧
    (∀ g, gs_valid g → gs_In g ex' ↔ g ∈ tx_gtid <$> gone ∨ gs_In g ex) ∧
    ∀ t r, t ∈ gone → r ∈ txn_rows_of s t → delivered [mkLife p0 w n] r.
Proof.
  intros Htop Hg Hn Hnd Hsv Hr Hlen Hp. pose proof (names_resolve p0 ex (env_status w) Hg Hn) as Hres.
  destruct Hn as (_&_&Hwf&Hne). destruct (Hsv _ _ _ Hres) as (gs&Hit&Hok&Hgs).
  destruct (saved_run cfg zone quote s c key dt old p0 pub ms fl Htop w n p Hr Hlen Hp)
    as (start&reg&Hst&_&Hpre). assert (start = mkStart (Some ex) "" 0) as -> by congruence.
  destruct (mysql_node_facts cfg zone quote s c key dt old p0 pub ms fl Htop w n Hr) as [Hk _].
  assert (stream_txns gs `sublist_of` log) as Hsub by (etrans; [by apply prefix_sublist|apply sublist_filter]).
  assert (NoDup (tx_gtid <$> stream_txns gs)) as Hnd' by (eapply sublist_NoDup; [exact Hnd|by rewrite Hsub]).
  destruct (saved_covers_log zone quote c key dt p0 pub ms fl s ex "" 0 reg (env_items w) gs (env_status w)
    (abs (n_k n)) p) as (pre&t&post&ex'&->&_&Htext&Hwf'&Hne'&Hin&Hcov); try done.
  { by apply (kreach_abs cfg c key dt old). }
  apply Forall_app in Hok as [Hok _]. exists (stream_txns pre), ex'. split_and!.
  - etrans; [|exact Hsub]. unfold stream_txns. rewrite omap_app. by apply sublist_inserts_r.
  - apply Forall_forall. intros t' ([|t1]&Hg'&?)%list_elem_of_omap; simplify_eq/=.
    rewrite Forall_forall in Hok. by apply Hok in Hg'.
  - split_and!; try done; rewrite Htext; [done|by apply gs_Parse_String].
  - done.
  - intros t' r ([|t1]&Ht'&?)%list_elem_of_omap Hr'; simplify_eq/=.
    destruct (list_elem_of_split _ _ Ht') as (a&b&->).
    assert (∃ ri, r = row_key ri ∧ ri ∈ captured_rows s (row_log (initTxn (mkStart (Some ex) "" 0)) (stream_events (a ++ Tx t' :: b))))
      as (ri&->&Hri).
    { apply Forall_app in Hok as [_ [Htok _]%Forall_cons]. unfold txn_rows_of in Hr'.
      set (ts1 := foldl coords_step (initTxn (mkStart (Some ex) "" 0)) (stream_events a)).
      rewrite (txn_keys _ ts1), <-captured_keys in Hr' by done.
      apply list_elem_of_fmap in Hr' as (ri&->&Hri). exists ri. split; [done|].
      unfold stream_events. rewrite bind_app, bind_cons, !row_log_app, !captured_rows_app, !elem_of_app. auto. }
    apply list_elem_of_lookup in Hri as [i Hi]. destruct (Hcov i ri Hi) as (e&He&<-&Hack).
    exists (mkLife p0 w n), e. split_and!; [left|by eapply list_elem_of_lookup_2|done|].
    by eapply event_acked_kafka.
Qed.

Lemma delivered_app rs1 rs2 r : delivered rs1 r ∨ delivered rs2 r → delivered (rs1 ++ rs2) r.
Proof. intros [(x&e&?&?)|(x&e&?&?)]; exists x, e; rewrite elem_of_app; auto. Qed.

End life.

(** ** Two runs

    The first reads two transactions, is killed once the position before the
    second is saved; the second reads the second transaction again and a third. *)
Definition life_log : list txn := [sample_txn 1 100; sample_txn 2 200; sample_txn 3 300].
Definition life_env (gs : list segment) : @mysql_env sampleGTIDs nat :=
  mkEnv (GS := sampleGTIDs) None 0%nat (Err (EText "unused")) (λ _, None)
    ((λ ev, SEvent ev None) <$> stream_events gs).

Local Abbreviation life_source :=
  (@MysqlSource_source Json.jsonFmt sampleGTIDs nat Schema.sampleServer (λ _, 0%Z) id sample_source).

Section sample_life.
Context (p : Position) (w : @mysql_env sampleGTIDs nat).

Definition life_step :=
  @node_step (@Json.Serialize Json.jsonFmt) sample_kconfig restart_config Key sample_dur _ life_source w p.
Definition life_init : node := @node_init restart_config _ life_source w no_prior p 0 0 0.
Definition life_labels : list klabel :=
  ((λ b, ILoop (HSend b)) <$> (@Source.Start _ life_source p w).1) ++
  (ILoop <$> take 19 (drop 4 restart_labels)) ++
  publish_labels 0 0 6 ++ ack_labels 0 6 ++ [ITick; ILoop HTake; ILoop HSaveOk].
Definition life_node : node := default life_init (run_labels life_step life_labels life_init).
End sample_life.

Definition life_p0 : Position := mkPosition "x:1," "" 0 0.
Definition life_env1 := life_env sample_segments.
Definition life_node1 : node := life_node life_p0 life_env1.
Definition life_p1 : Position := h_store (k_loop (n_k life_node1)).
Definition life_env2 := life_env [Tx (sample_txn 2 200); Tx (sample_txn 3 300)].
Definition life_node2 : node := life_node life_p1 life_env2.
Definition life_p2 : Position := h_store (k_loop (n_k life_node2)).

Example life_p2_set : GTIDSet life_p2 = "x:1,30313233-3435-3637-3839-616263646566:1,30313233-3435-3637-3839-616263646566:2,".
Proof. vm_compute. reflexivity. Qed.

Definition life_runs : list (@life_run sampleGTIDs nat) :=
  [mkLife life_p0 life_env1 life_node1] ++ [mkLife life_p1 life_env2 life_node2].

Lemma life_node_reachable p w :
  is_Some (run_labels (life_step p w) (life_labels p w) (life_init p w)) →
  reachable (life_step p w) (life_init p w) (life_node p w).
Proof. intros [n Hn]. unfold life_node. rewrite Hn. by apply (run_labels_reachable _ (life_labels p w)). Qed.

Lemma life_node1_reachable : reachable (life_step life_p0 life_env1) (life_init life_p0 life_env1) life_node1.
Proof. apply life_node_reachable. decide_closed. Qed.

Lemma life_node2_reachable : reachable (life_step life_p1 life_env2) (life_init life_p1 life_env2) life_node2.
Proof. apply life_node_reachable. decide_closed. Qed.

Lemma life_runs_lifetime :
  @lifetime (@Json.Serialize Json.jsonFmt) sample_kconfig Json.jsonFmt sampleGTIDs nat Schema.sampleServer
    (λ _, 0%Z) id sample_source restart_config Key sample_dur life_p0 life_runs life_p2.
Proof.
  unfold life_runs, life_p2. eapply life_run_on.
  - apply (@life_run_on _ _ _ _ _ _ _ _ _ _ _ _ life_p0 [] life_p0 life_env1 life_node1 no_prior 0 0 0).
    + constructor.
    + apply no_prior_ok.
    + exact life_node1_reachable.
  - apply no_prior_ok.
  - exact life_node2_reachable.
Qed.

Lemma life_runs_served :
  Forall (@served sampleGTIDs sampleGTIDs_laws nat id sample_source life_log) life_runs.
Proof.
  repeat constructor; intros ex f o Hres; vm_compute in Hres; injection Hres as <- <- <-.
  - exists sample_segments. split_and!; [vm_compute; reflexivity|apply sample_segments_ok|].
    exists [sample_txn 3 300]. vm_compute. reflexivity.
  - exists [Tx (sample_txn 2 200); Tx (sample_txn 3 300)].
    split_and!; [vm_compute; reflexivity|repeat constructor; vm_compute; reflexivity|].
    exists []. vm_compute. reflexivity.
Qed.


(** ** Before the first checkpoint

    A store without a position resolves to wherever the server is: a run that ends
    before its first save is not resumed from where it began, and what it had read
    but not delivered is not read again. *)
Definition fresh_env1 : @mysql_env sampleGTIDs nat :=
  mkEnv (GS := sampleGTIDs) None 0%nat (Ok ("x:1,", "bin.000001", 4%Z)) (λ _, None) sample_items.
Definition fresh_env2 : @mysql_env sampleGTIDs nat :=
  mkEnv (GS := sampleGTIDs) None 0%nat
    (Ok ("x:1," +:+ tx_gtid (sample_txn 1 100) +:+ "," +:+ tx_gtid (sample_txn 2 200) +:+ ",", "bin.000001", 231%Z))
    (λ _, None) [].
Definition fresh_labels : list klabel :=
  (λ b, ILoop (HSend b)) <$> (@Source.Start _ life_source zeroPosition fresh_env1).1.
Definition fresh_node1 : node :=
  default (life_init zeroPosition fresh_env1)
    (run_labels (life_step zeroPosition fresh_env1) fresh_labels (life_init zeroPosition fresh_env1)).
Definition fresh_runs : list (@life_run sampleGTIDs nat) :=
  [mkLife zeroPosition fresh_env1 fresh_node1] ++
  [mkLife zeroPosition fresh_env2 (life_init zeroPosition fresh_env2)].

Theorem unsaved_start_moves :
  @lifetime (@Json.Serialize Json.jsonFmt) sample_kconfig Json.jsonFmt sampleGTIDs nat Schema.sampleServer
    (λ _, 0%Z) id sample_source restart_config Key sample_dur zeroPosition fresh_runs zeroPosition ∧
  Forall (@served sampleGTIDs sampleGTIDs_laws nat id sample_source (take 2 life_log)) fresh_runs ∧
  length (node_events fresh_node1) = 6%nat ∧
  @resolveStart sampleGTIDs id (src_cfg sample_source) (env_status fresh_env2) zeroPosition =
    Ok (@mkStart sampleGTIDs (Some ["x:1"; tx_gtid (sample_txn 1 100); tx_gtid (sample_txn 2 200)]) "" 0) ∧
  ∀ r, ¬ @delivered (@Json.Serialize Json.jsonFmt) sample_kconfig sampleGTIDs nat Key fresh_runs r.
Proof.
  split_and!.
  - apply (@life_run_on _ _ _ _ _ _ _ _ _ _ _ _ zeroPosition
      [mkLife zeroPosition fresh_env1 fresh_node1] zeroPosition fresh_env2 (life_init zeroPosition fresh_env2) no_prior 0 0 0);
      [|apply no_prior_ok|constructor].
    apply (@life_run_on _ _ _ _ _ _ _ _ _ _ _ _ zeroPosition [] zeroPosition fresh_env1 fresh_node1 no_prior 0 0 0);
      [constructor|apply no_prior_ok|].
    apply (run_labels_reachable _ fresh_labels). vm_compute. reflexivity.
  - repeat constructor; intros ex f o Hres; vm_compute in Hres; injection Hres as <- <- <-.
    + exists sample_segments. split_and!; [vm_compute; reflexivity|apply sample_segments_ok|].
      exists []. vm_compute. reflexivity.
    + exists []. split_and!; [vm_compute; reflexivity|constructor|]. exists []. vm_compute. reflexivity.
  - vm_compute. reflexivity.
  - vm_compute. reflexivity.
  - intros r (x&e&Hx&_&_&y&j&rc&Hy&_). unfold fresh_runs in Hx. apply elem_of_app in Hx.
    rewrite !list_elem_of_singleton in Hx. destruct Hx as [->| ->]; vm_compute in Hy; by destruct Hy as (?&?&?&_).
Qed.
