(* ===== verification/Fleet.v ===== *)
(** * The manager and the pipelines it runs

    Server.v has the goroutines that run the hyperloops and what their callers see
    of them, Hyperloop.v has what runs inside one.  Here both run together: a
    goroutine enters [Run], the state is loaded from the hyperloop's store, the
    pipeline moves under the context the manager holds, and what it returns is what
    the goroutine decides on.  The manager alone is an abstraction of this machine;
    what it promises of a stop or a restart becomes a statement about events. *)

From S2P Require Import Prelude GoStd State Event Keys Channel Dispatcher Hyperloop Pipeline EndToEnd Server.

(** A run of [run] that ended. *)
Record past_run := mkPast {
  pr_go : nat;               (* the goroutine it ran on *)
  pr_from : Position;        (* what the store answered *)
  pr_end : hstate;           (* where it ended *)
  pr_ret : option goerr;
}.

(** One hyperloop: what its store holds, the run in progress, the counters of the
    [Hyperloop] object, which runs share. *)
Record pipe := mkPipe {
  pi_store : Position;
  pi_now : option (nat * Position * hstate);
  pi_published : Z;
  pi_lastms : Z;
  pi_failures : Z;
  pi_past : list past_run;   (* an observation *)
}.

Record fleet := mkFleet {
  f_mgr : mstate;
  f_pipes : gmap string pipe;
}.

Inductive flabel :=
  | FMgr (l : mlabel)                              (* the manager's moves, and its callers' *)
  | FEnter (id : string) (k : nat)                 (* [Run] is called *)
  | FLoad (id : string) (k : nat)                  (* [Store.Load] answers, [run] begins *)
  | FLoadErr (id : string) (k : nat) (e : goerr)   (* or fails *)
  | FLoop (id : string) (l : hlabel)               (* inside [run] *)
  | FReturn (id : string).                         (* [run] returns to the goroutine *)

Section fleet.
Context (pol : Policy) (cfg : string → Config) (key : string → NomiosEvent → string) (dt : Z → string).
(** What each store holds at first. *)
Context (stored : string → Position).

Definition pipe_of (f : fleet) (id : string) : pipe :=
  default (mkPipe (stored id) None 0 0 0 []) (f_pipes f !! id).

Definition set_pipe (f : fleet) (s : mstate) (id : string) (x : pipe) : fleet :=
  mkFleet s (<[id := x]> (f_pipes f)).

(** The moves of a goroutine that are not the pipeline's. *)
Definition outside (l : mlabel) : bool :=
  match l with MRun _ _ (GEnter | GStatus _ | GReturn _) => false | _ => true end.

(** A goroutine's context is cancelled. *)
Definition ctx_done (s : mstate) (id : string) (k : nat) : bool :=
  match m ← loops s !! id; m_runs m !! k with Some r => r_cancelled r | None => false end.

(** A run in progress that moved: its store is the hyperloop's, its status what
    [Status] answers. *)
Definition loop_moved (f : fleet) (id : string) (k : nat) (p : Position) (h h' : hstate) : option fleet :=
  let x := pipe_of f id in
  let x' := mkPipe (h_store h') (Some (k, p, h')) (pi_published x) (pi_lastms x) (pi_failures x) (pi_past x) in
  if decide (h_status h' = h_status h) then Some (set_pipe f (f_mgr f) id x')
  else s ← mstep pol (MRun id k (GStatus (h_status h'))) (f_mgr f); Some (set_pipe f s id x').

Definition fstep (l : flabel) (f : fleet) : option fleet :=
  match l with
  | FMgr l => if outside l then s ← mstep pol l (f_mgr f); Some (mkFleet s (f_pipes f)) else None
  | FEnter id k => s ← mstep pol (MRun id k GEnter) (f_mgr f); Some (mkFleet s (f_pipes f))
  | FLoad id k =>
      let x := pipe_of f id in
      match pi_now x, run_start (cfg id) (Ok (pi_store x)) (pi_published x) (pi_lastms x) (pi_failures x) with
      | None, Ok h =>
          s ← mstep pol (MRun id k (GStatus (h_status h))) (f_mgr f);
          Some (set_pipe f s id (mkPipe (pi_store x) (Some (k, pi_store x, h)) (pi_published x)
                                   (pi_lastms x) (pi_failures x) (pi_past x)))
      | _, _ => None
      end
  | FLoadErr id k e =>
      let x := pipe_of f id in
      match pi_now x, run_start (cfg id) (Err e) (pi_published x) (pi_lastms x) (pi_failures x) with
      | None, Err e => s ← mstep pol (MRun id k (GReturn (Some e))) (f_mgr f); Some (mkFleet s (f_pipes f))
      | _, _ => None
      end
  | FLoop id l =>
      '(k, p, h) ← pi_now (pipe_of f id);
      if match l with HStop => ctx_done (f_mgr f) id k | _ => true end
      then h' ← hstep (cfg id) (key id) dt l h; loop_moved f id k p h h' else None
  | FReturn id =>
      let x := pipe_of f id in
      '(k, p, h) ← pi_now x;
      match h_main h with
      | MainReturned r =>
          s ← mstep pol (MRun id k (GReturn r)) (f_mgr f);
          Some (set_pipe f s id (mkPipe (h_store h) None (h_published h) (h_lastms h) (h_failures h)
                                   (pi_past x ++ [mkPast k p h r])))
      | _ => None
      end
  end.

Definition finit : fleet := mkFleet minit ∅.

(** ** The manager is an abstraction *)

Lemma fleet_simulated : simulates fstep (mstep pol) f_mgr (λ _, True).
Proof.
  intros l f f' _ Hstep. destruct l as [l|id k|id k|id k e|id l|id]; cbn [fstep] in Hstep.
  - destruct (outside l); [|done]. destruct (mstep pol l (f_mgr f)) as [s|] eqn:E; [|done].
    injection Hstep as <-. right. by exists l.
  - destruct (mstep pol _ (f_mgr f)) as [s|] eqn:E; [|done]. injection Hstep as <-. right. by eexists.
  - destruct (pi_now _); [done|]. cbn [run_start] in Hstep.
    destruct (mstep pol _ (f_mgr f)) as [s|] eqn:E; [|done]. injection Hstep as <-. right. by eexists.
  - destruct (pi_now _); [done|]. cbn [run_start] in Hstep.
    destruct (mstep pol _ (f_mgr f)) as [s|] eqn:E; [|done]. injection Hstep as <-. right. by eexists.
  - destruct (pi_now _) as [[[k p] h]|]; [|done]. cbn [mbind option_bind] in Hstep.
    destruct (match l with HStop => _ | _ => true end); [|done].
    destruct (hstep _ _ _ l h) as [h'|]; [|done]. cbn [mbind option_bind] in Hstep. unfold loop_moved in Hstep.
    case_decide; [by injection Hstep as <-; left|].
    destruct (mstep pol _ (f_mgr f)) as [s|] eqn:E; [|done]. injection Hstep as <-. right. by eexists.
  - destruct (pi_now _) as [[[k p] h]|]; [|done]. cbn [mbind option_bind] in Hstep.
    destruct (h_main h); try done.
    destruct (mstep pol _ (f_mgr f)) as [s|] eqn:E; [|done]. injection Hstep as <-. right. by eexists.
Qed.

Lemma fleet_mgr f : reachable fstep finit f → reachable (mstep pol) minit (f_mgr f).
Proof. by apply (simulation_reachable fstep (mstep pol) f_mgr (λ _, True) finit fleet_simulated). Qed.

(** ** Invariants *)

(** The runs in order, each from what the one before left in the store. *)
Fixpoint chained (p : Position) (rs : list past_run) (q : Position) : Prop :=
  match rs with
  | [] => q = p
  | x :: rs => pr_from x = p ∧ chained (h_store (pr_end x)) rs q
  end.

Lemma chained_snoc p rs q x :
  chained p rs q → pr_from x = q → chained p (rs ++ [x]) (h_store (pr_end x)).
Proof. revert p. induction rs as [|y rs IH]; intros p; simpl; [by intros ->|]. intros [? ?] ?. auto. Qed.

(** A state of a run that began at [p]. *)
Definition run_reach (id : string) (p : Position) (h : hstate) : Prop :=
  ∃ pub ms fl, reachable (hstep (cfg id) (key id) dt) (hinit (cfg id) p pub ms fl) h.

(** The goroutine [k] of [id] is inside [Run], under a hyperloop of this status. *)
Definition inside (s : mstate) (id : string) (k : nat) (st : Status) : Prop :=
  ∃ m r a b, loops s !! id = Some m ∧ m_runs m !! k = Some r ∧ r_pc r = RIn a b ∧ m_status m = st.

Record pipe_ok (s : mstate) (id : string) (x : pipe) : Prop := {
  po_now : ∀ k p h, pi_now x = Some (k, p, h) →
    inside s id k (h_status h) ∧ run_reach id p h ∧ pi_store x = h_store h;
  po_chain : chained (stored id) (pi_past x) (match pi_now x with Some (_, p, _) => p | None => pi_store x end);
  po_past : Forall (λ y, run_reach id (pr_from y) (pr_end y) ∧ h_main (pr_end y) = MainReturned (pr_ret y)) (pi_past x);
}.

Definition fleet_ok (f : fleet) : Prop := ∀ id, pipe_ok (f_mgr f) id (pipe_of f id).

Lemma outside_status l s s' id m :
  mstep pol l s = Some s' → outside l = true → loops s !! id = Some m →
  ∃ m', loops s' !! id = Some m' ∧ m_status m' = m_status m.
Proof.
  intros Hstep Ho Hm.
  assert (Hset : ∀ id' m1, (∀ m0, loops s !! id' = Some m0 → m_status m1 = m_status m0) →
    ∃ m', <[id' := m1]> (loops s) !! id = Some m' ∧ m_status m' = m_status m).
  { intros id' m1 H1. destruct (decide (id' = id)) as [->|Hne].
    - exists m1. rewrite lookup_insert_eq. auto.
    - exists m. by rewrite lookup_insert_ne. }
  destruct l as [id'|id'|id' k l|id'|j|j|j]; cbn [mstep] in Hstep.
  - injection Hstep as <-. unfold Register. destruct (loops s !! id') eqn:E; [by exists m|]. apply Hset. by rewrite E.
  - injection Hstep as <-. unfold Start. destruct (loops s !! id') as [m1|] eqn:E; [|by exists m].
    destruct (last (m_runs m1)) as [r|]; [destruct (run_over r); [|by exists m]|];
      apply Hset; rewrite E; by intros m0 [= <-].
  - destruct (loops s !! id') as [m1|] eqn:E; [|done]. cbn [mbind option_bind] in Hstep.
    destruct (m_runs m1 !! k) as [r|]; [|done]. cbn [mbind option_bind] in Hstep.
    destruct (runner_step pol l r) as [[r' st]|] eqn:Er; [|done]. injection Hstep as <-. apply Hset.
    rewrite E. intros m0 [= <-]. destruct l; try done; destruct r as [[] ? ? ?]; simpl in Er; try done;
      repeat case_match; by simplify_eq/=.
  - injection Hstep as <-. exists m. unfold Stop_read. by repeat case_match.
  - destruct (stops s !! j) as [c|]; [|done]. destruct (stop_step_loops _ _ _ _ _ Hstep) as [->|(m1&k&Hm1&->)];
      [by exists m|]. apply Hset. rewrite Hm1. intros m0 [= <-]. unfold cancel_run. by destruct (m_runs m1 !! k).
  - destruct (stops s !! j) as [c|]; [|done]. destruct (stop_step_loops _ _ _ _ _ Hstep) as [->|(m1&k&Hm1&->)];
      [by exists m|]. apply Hset. rewrite Hm1. intros m0 [= <-]. unfold cancel_run. by destruct (m_runs m1 !! k).
  - destruct (stops s !! j) as [c|]; [|done]. destruct (stop_step_loops _ _ _ _ _ Hstep) as [->|(m1&k&Hm1&->)];
      [by exists m|]. apply Hset. rewrite Hm1. intros m0 [= <-]. unfold cancel_run. by destruct (m_runs m1 !! k).
Qed.

Lemma outside_inside l s s' id k st :
  mstep pol l s = Some s' → outside l = true → inside s id k st → inside s' id k st.
Proof.
  intros Hstep Ho (m&r&a&b&Hm&Hr&Hpc&Hst).
  destruct (mstep_runner pol l s s' id m k r Hstep Hm Hr) as (m'&r'&Hm'&Hr'&Hc).
  destruct (outside_status l s s' id m Hstep Ho Hm) as (m2&Hm2&Hst2). assert (m2 = m') as -> by congruence.
  exists m', r', a, b. split_and!; [done|done| |congruence].
  destruct Hc as [->|[(lr&st'&->&Hs)| ->]]; [done| |done].
  destruct r as [pc ? ? ?]. simpl in Hpc. subst pc. by destruct lr.
Qed.

(** What a move of a goroutine leaves. *)
Lemma run_move s s' id k lr :
  mstep pol (MRun id k lr) s = Some s' →
  ∃ m r r' st, loops s !! id = Some m ∧ m_runs m !! k = Some r ∧ runner_step pol lr r = Some (r', st) ∧
    loops s' = <[id := set_run (mkManaged (default (m_status m) st) (m_runs m)) k r']> (loops s).
Proof.
  cbn [mstep]. destruct (loops s !! id) as [m|]; [|done]. cbn [mbind option_bind].
  destruct (m_runs m !! k) as [r|] eqn:Er; [|done]. cbn [mbind option_bind].
  destruct (runner_step pol lr r) as [[r' st]|] eqn:Es; [|done]. intros [= <-]. by exists m, r, r', st.
Qed.

Lemma other_inside s s' id id' k lr k0 st :
  mstep pol (MRun id' k lr) s = Some s' → id' ≠ id → inside s id k0 st → inside s' id k0 st.
Proof.
  intros Hstep Hne (m&r&a&b&Hm&Hr&Hpc&Hst).
  destruct (run_move _ _ _ _ _ Hstep) as (m1&r1&r1'&st1&_&_&_&Heq).
  exists m, r, a, b. by rewrite Heq, lookup_insert_ne.
Qed.

(** A status set inside [Run]. *)
Lemma status_inside s s' id k st :
  mstep pol (MRun id k (GStatus st)) s = Some s' → inside s' id k st.
Proof.
  intros Hstep. destruct (run_move _ _ _ _ _ Hstep) as (m&r&r'&st'&Hm&Hr&Hs&Heq).
  destruct r as [[a b|a b|a b e|a b| |] can rs ws]; try done. destruct st; try done; injection Hs as <- <-;
    eexists _, _, a, b; (split; [by rewrite Heq, lookup_insert_eq|]);
    cbn [m_runs set_run m_status default]; rewrite list_lookup_insert_eq by (by eapply lookup_lt_Some); done.
Qed.

(** Only one goroutine of a hyperloop is not over. *)
Lemma inside_unique s id k st m k' r :
  reachable (mstep pol) minit s → inside s id k st → loops s !! id = Some m → m_runs m !! k' = Some r →
  run_over r = false → k' = k.
Proof.
  intros Hr (m'&r'&a&b&Hm'&Hr'&Hpc&_) Hm Hk Ho. assert (m' = m) as -> by congruence.
  assert (run_over r' = false) as Ho' by (unfold run_over; by rewrite Hpc).
  pose proof (reach_only_last pol s id m Hr Hm) as Hl.
  pose proof (lookup_lt_Some _ _ _ Hk). pose proof (lookup_lt_Some _ _ _ Hr').
  destruct (decide (S k < length (m_runs m))%nat) as [Hlt|]; [by specialize (Hl _ _ Hr' Hlt); congruence|].
  destruct (decide (S k' < length (m_runs m))%nat) as [Hlt|]; [by specialize (Hl _ _ Hk Hlt); congruence|]. lia.
Qed.

Lemma pipe_ok_move s s' id x :
  pipe_ok s id x → (∀ k st, inside s id k st → is_Some (pi_now x) → inside s' id k st) → pipe_ok s' id x.
Proof.
  intros [Hn Hc Hp] Hi. split; [|done|done]. intros k p h Hx. destruct (Hn k p h Hx) as (?&?&?).
  split_and!; [|done..]. apply Hi; [done|by rewrite Hx].
Qed.

Lemma pipe_of_set f s id x id' :
  pipe_of (set_pipe f s id x) id' = if decide (id = id') then x else pipe_of f id'.
Proof.
  unfold pipe_of, set_pipe. simpl. case_decide as Hd; [subst; by rewrite lookup_insert_eq|by rewrite lookup_insert_ne].
Qed.

(** A goroutine's move with a new pipe for its hyperloop keeps the others. *)
Lemma fleet_ok_set f s id k lr x :
  fleet_ok f → mstep pol (MRun id k lr) (f_mgr f) = Some s → pipe_ok s id x → fleet_ok (set_pipe f s id x).
Proof.
  intros Hf Hs Hx id'. rewrite pipe_of_set. case_decide as Hd; [by subst|].
  eapply pipe_ok_move; [apply Hf|]. intros k' st Hi _. by eapply other_inside.
Qed.

Lemma fleet_ok_mgr f s id k lr :
  fleet_ok f → mstep pol (MRun id k lr) (f_mgr f) = Some s → pipe_ok s id (pipe_of f id) →
  fleet_ok (mkFleet s (f_pipes f)).
Proof.
  intros Hf Hs Hx id'. change (pipe_of (mkFleet s (f_pipes f)) id') with (pipe_of f id').
  destruct (decide (id = id')) as [<-|Hne]; [done|].
  eapply pipe_ok_move; [apply Hf|]. intros k' st Hi _. by eapply other_inside.
Qed.

Lemma fleet_ok_loop f id k p h h' l f' :
  fleet_ok f → pi_now (pipe_of f id) = Some (k, p, h) → hstep (cfg id) (key id) dt l h = Some h' →
  loop_moved f id k p h h' = Some f' → fleet_ok f'.
Proof.
  intros Hf Hx Hh Hm. destruct (po_now _ _ _ (Hf id) k p h Hx) as (Hin&(pub&ms&fl&Hr)&Hst).
  pose proof (po_chain _ _ _ (Hf id)) as Hc. rewrite Hx in Hc. pose proof (po_past _ _ _ (Hf id)) as Hp.
  assert (Hok : ∀ s, inside s id k (h_status h') → pipe_ok s id (mkPipe (h_store h') (Some (k, p, h'))
    (pi_published (pipe_of f id)) (pi_lastms (pipe_of f id)) (pi_failures (pipe_of f id)) (pi_past (pipe_of f id)))).
  { intros s Hi. split; [|done|done]. intros ? ? ? [= <- <- <-]. split_and!; [done| |done].
    exists pub, ms, fl. by eapply reachable_step. }
  unfold loop_moved in Hm. case_decide as Hs.
  - injection Hm as <-. intros id'. rewrite pipe_of_set. case_decide as Hd; [|apply Hf]. subst id'.
    apply Hok. by rewrite Hs.
  - destruct (mstep pol _ (f_mgr f)) as [s|] eqn:E; [|done]. injection Hm as <-.
    eapply fleet_ok_set; [done|exact E|]. apply Hok. by eapply status_inside.
Qed.

Lemma fleet_ok_step l f f' :
  reachable fstep finit f → fleet_ok f → fstep l f = Some f' → fleet_ok f'.
Proof.
  intros Hr Hf Hstep. pose proof (fleet_mgr f Hr) as Hmr.
  destruct l as [l|id k|id k|id k e|id l|id]; cbn [fstep] in Hstep.
  - destruct (outside l) eqn:Ho; [|done]. destruct (mstep pol l (f_mgr f)) as [s|] eqn:E; [|done].
    injection Hstep as <-. intros id. eapply pipe_ok_move; [apply Hf|]. intros k st Hi _. by eapply outside_inside.
  - destruct (mstep pol _ (f_mgr f)) as [s|] eqn:E; [|done]. injection Hstep as <-.
    eapply fleet_ok_mgr; [done|exact E|]. eapply pipe_ok_move; [apply Hf|]. intros k' st Hi _. exfalso.
    destruct (run_move _ _ _ _ _ E) as (m&r&r'&st'&Hm&Hk&Hs&_).
    assert (k = k') as <-.
    { eapply inside_unique; [done|done|done|done|]. by eapply runner_step_over. }
    destruct Hi as (m2&r2&a&b&Hm2&Hr2&Hpc&_). assert (r2 = r) as -> by congruence.
    destruct r as [pc ? ? ?]. simpl in Hpc. by subst pc.
  - destruct (pi_now _) eqn:En; [done|]. cbn [run_start] in Hstep.
    destruct (mstep pol _ (f_mgr f)) as [s|] eqn:E; [|done]. injection Hstep as <-.
    eapply fleet_ok_set; [done|exact E|]. split; simpl.
    + intros ? ? ? [= <- <- <-]. split_and!; [by eapply status_inside| |done].
      eexists _, _, _. constructor.
    + pose proof (po_chain _ _ _ (Hf id)) as Hc. by rewrite En in Hc.
    + apply (po_past _ _ _ (Hf id)).
  - destruct (pi_now _) eqn:En; [done|]. cbn [run_start] in Hstep.
    destruct (mstep pol _ (f_mgr f)) as [s|] eqn:E; [|done]. injection Hstep as <-.
    eapply fleet_ok_mgr; [done|exact E|]. eapply pipe_ok_move; [apply Hf|]. rewrite En. by intros ? ? _ [].
  - destruct (pi_now _) as [[[k p] h]|] eqn:En; [|done]. cbn [mbind option_bind] in Hstep.
    destruct (match l with HStop => _ | _ => true end); [|done].
    destruct (hstep _ _ _ l h) as [h'|] eqn:Eh; [|done]. cbn [mbind option_bind] in Hstep.
    by eapply fleet_ok_loop.
  - destruct (pi_now _) as [[[k p] h]|] eqn:En; [|done]. cbn [mbind option_bind] in Hstep.
    destruct (h_main h) as [| | | | | | |r] eqn:Em; try done.
    destruct (mstep pol _ (f_mgr f)) as [s|] eqn:E; [|done]. injection Hstep as <-.
    destruct (po_now _ _ _ (Hf id) k p h En) as (_&Hreach&_).
    pose proof (po_chain _ _ _ (Hf id)) as Hc. rewrite En in Hc.
    eapply fleet_ok_set; [done|exact E|]. split; simpl; [done| |].
    + by apply (chained_snoc _ _ _ (mkPast k p h r) Hc).
    + apply Forall_app_2; [apply (po_past _ _ _ (Hf id))|]. by repeat constructor.
Qed.

Lemma chained_last p rs q x : chained p rs q → last rs = Some x → q = h_store (pr_end x).
Proof.
  revert p. induction rs as [|y rs IH]; intros p; [done|]. intros [_ Hc] Hl.
  destruct rs as [|z rs]; [simpl in *; congruence|]. by eapply IH.
Qed.

Lemma reach_fleet f : reachable fstep finit f → fleet_ok f.
Proof.
  intros Hr. induction Hr as [|l f f' Hr IH Hstep]; [|by eapply fleet_ok_step].
  intros id. split; [done|done|constructor].
Qed.

(** ** Properties *)



(** [C7] What a stop promises: when [Stop] returned nil and the goroutine it found
    is still the last one launched, no pipeline of the hyperloop runs; and if its
    last run returned nil and was not cancelled hard, every event its source sent
    was acknowledged, and the store holds the position of the last one. *)
Theorem stop_drains (f : fleet) (j : nat) (id : string) (k : nat) (m : managed) (x : past_run) :
  reachable fstep finit f →
  stops (f_mgr f) !! j = Some (mkStop id (Some k) (SReturned None)) →
  loops (f_mgr f) !! id = Some m → length (m_runs m) = S k →
  last (pi_past (pipe_of f id)) = Some x →
  (Z.of_nat (length (d_sent (h_disp (pr_end x)))) < 2 ^ 64 - 1)%Z →
  (Z.of_nat (length (queues (New (Queues (cfg id)) (QueueCapacity (cfg id)) (flush_size (cfg id))))) < 2 ^ 32)%Z →
  pi_now (pipe_of f id) = None ∧
  (pr_ret x = None → d_ctx (h_disp (pr_end x)) = None →
   (∀ e, e ∈ d_sent (h_disp (pr_end x)) → event_acked (key id) (pr_end x) e) ∧
   ∀ e, last (d_sent (h_disp (pr_end x))) = Some e → pi_store (pipe_of f id) = EvPosition e).
Proof.
  intros Hr Hj Hm Hlen Hx Hb Hq. pose proof (fleet_mgr f Hr) as Hmr.
  destruct (reach_fleet f Hr id) as [Hn Hc Hp].
  assert (pi_now (pipe_of f id) = None) as Hnone.
  { destruct (pi_now (pipe_of f id)) as [[[k' p] h]|] eqn:E; [exfalso|done].
    destruct (Hn k' p h eq_refl) as ((m'&r&a&b&Hm'&Hr'&Hpc&_)&_&_). assert (m' = m) as -> by congruence.
    destruct (Forall_lookup_1 _ _ _ _ (reach_stops pol _ Hmr) Hj) as (m1&r1&Hm1&Hr1&_&Ho). simpl in Hm1.
    assert (m1 = m) as -> by congruence.
    assert (run_over r = false) as Ho' by (unfold run_over; by rewrite Hpc).
    assert (k ≠ k') as Hne by (intros ->; congruence).
    pose proof (lookup_lt_Some _ _ _ Hr').
    assert (run_over r = true); [|congruence]. apply (reach_only_last pol _ id m Hmr Hm k' r Hr'). lia. }
  split; [done|]. intros Hret Hctx. rewrite Hnone in Hc.
  assert (x ∈ pi_past (pipe_of f id)) as Hin by (apply last_Some in Hx as [l ->]; apply elem_of_app; right; left).
  rewrite Forall_forall in Hp. destruct (Hp x Hin) as ((pub&ms&fl&Hre)&Hmain). rewrite Hret in Hmain.
  destruct (clean_stop_persists_all (cfg id) (key id) dt (pr_from x) pub ms fl (pr_end x)) as [Hall Hlast]; try done.
  split; [done|]. intros e He. rewrite (chained_last _ _ _ _ Hc Hx). by apply Hlast.
Qed.
End fleet.

(** ** A run that an operator stops *)
Definition sample_fleet_step : flabel → fleet → option fleet :=
  fstep sample_policy (λ _, sample_hconfig) (λ _, Key) sample_dur (λ _, zeroPosition).

Definition fleet_labels : list flabel :=
  [FMgr (MRegister "h"); FMgr (MStart "h"); FEnter "h" 0; FLoad "h" 0; FLoop "h" (HSend sample_batch);
   FMgr (MStop "h"); FMgr (MCancel 0); FLoop "h" HStop] ++
  (FLoop "h" <$> drop 1 sample_hlabels).
Definition fleet_end_labels : list flabel :=
  [FReturn "h"; FMgr (MRun "h" 0 GDecide); FMgr (MRun "h" 0 GClose); FMgr (MStopDone 0)].

Definition sample_fleet (ls : list flabel) : fleet := default finit (run_labels sample_fleet_step ls finit).

Lemma sample_fleet_reachable ls :
  is_Some (run_labels sample_fleet_step ls finit) → reachable sample_fleet_step finit (sample_fleet ls).
Proof. intros [f Hf]. unfold sample_fleet. rewrite Hf. by apply (run_labels_reachable _ ls). Qed.



Lemma stop_drains_witness :
  let f := sample_fleet (fleet_labels ++ fleet_end_labels) in
  ∃ x, last (pi_past (pipe_of (λ _, zeroPosition) f "h")) = Some x ∧ pr_ret x = None ∧
  pi_now (pipe_of (λ _, zeroPosition) f "h") = None ∧
  (pr_ret x = None → d_ctx (h_disp (pr_end x)) = None →
   (∀ e, e ∈ d_sent (h_disp (pr_end x)) → event_acked Key (pr_end x) e) ∧
   ∀ e, last (d_sent (h_disp (pr_end x))) = Some e → pi_store (pipe_of (λ _, zeroPosition) f "h") = EvPosition e).
Proof.
  intros f. exists (mkPast 0 zeroPosition
    (default sample_hinit (run_labels (hstep sample_hconfig Key sample_dur)
       ([HSend sample_batch; HStop] ++ drop 1 sample_hlabels) sample_hinit)) None).
  split; [vm_compute; reflexivity|]. split; [reflexivity|].
  apply (stop_drains sample_policy (λ _, sample_hconfig) (λ _, Key) sample_dur (λ _, zeroPosition) f 0 "h" 0
    (default (mkManaged StatusCreated []) (loops (f_mgr f) !! "h"))).
  - apply (sample_fleet_reachable (fleet_labels ++ fleet_end_labels)). decide_closed.
  - vm_compute. reflexivity.
  - vm_compute. reflexivity.
  - vm_compute. reflexivity.
  - vm_compute. reflexivity.
  - vm_compute. reflexivity.
  - vm_compute. reflexivity.
Defined.
